(* ===== verification/_CoqProject ===== *)
-Q . S2P
Prelude.v
Bytes.v
CoreTypes.v
Bitfield.v
Queue.v
BufferPool.v
CircBuff.v
Fletcher.v
Transport.v
Serial.v
SerialProps.v
SerialLink.v
Inproc.v
Nonblocking.v
NonblockingProps.v
Blocking.v
BlockingProps.v
BlockingInv.v
BlockingSubs.v
Udp.v
UdpProps.v
UdpLink.v
Filter.v
Tracker.v
TrackerProps.v
MemPool.v
EventLog.v
EventLogProps.v
LfPool.v
LfBcast.v
LfBcastProps.v
LfBcastLive.v
Ipcshm.v
Url.v
Tokenize.v
CNum.v
Gen.v
GenParse.v
GenProps.v
GenConst.v
EmitC.v
CCode.v
CPrint.v
CWire.v
CEnc.v
CDec.v
CRound.v
CMsg.v
EmitCpp.v
CppCode.v
CppPrint.v
CppEnc.v
CppSize.v
CppDec.v
CppMsg.v
CppReuse.v
CppApi.v
GetOpt.v
GenMain.v
GenMainProps.v
LogFile.v
LogRepair.v
LogRepairProps.v
FileTransport.v
FileTransportProps.v
SerialPort.v
SerialPortProps.v
Lockfile.v
CanTransport.v
CanProps.v
LogPlayer.v
LogPlayerProps.v
Logger.v
LoggerFrames.v
LoggerProps.v
LoggerFiles.v
