(* ===== verification/Prelude.v ===== *)
(** * ZCM: a verification of the message core

    ZCM is a publish/subscribe library.  Programs exchange typed messages on
    named channels; a message is encoded to bytes ([zcm/zcm_coretypes.h] and
    the code generated by [gen/]), handed to a core ([zcm/nonblocking.c] on
    microcontrollers, [zcm/blocking.cpp] with threads elsewhere), and carried by
    a transport behind the table of [zcm/transport.h].

    ** The files

    - [Prelude]: partial results, machine integers, tactics; [Bytes]: integers as
      byte sequences, accesses to buffers.
    - [CoreTypes] models [zcm/zcm_coretypes.h]: the array encoders and decoders of
      every primitive type, in both byte orders, and of strings.
    - [Queue] models [zcm/util/queue.hpp] (module [Queue]: a ring over raw storage)
      and [zcm/util/threadsafe_queue.hpp] (module [TSQ]: the monitor around it);
      [BufferPool] models [zcm/util/message_buffer_pool.hpp].
    - [Transport] holds the messages, the return codes and the method table as a
      class; [Inproc] is [zcm/transport/transport_inproc.cpp] as an instance, with
      the class [FifoTransport] that says what a client may rely on.
    - [CircBuff], [Fletcher], [Serial] model
      [zcm/transport/generic_serial_{circ_buff,transport}.c] and
      [generic_serial_fletcher.h]; [SerialProps] and [SerialLink] hold the proofs.
    - [Nonblocking] models [zcm/nonblocking.c] over any transport;
      [NonblockingProps] the proofs.
    - [Blocking] models [zcm/blocking.cpp]: every method of [zcm_blocking] is a
      program over locks, condition variables, queues and threads, and a machine
      interleaves any number of user threads with the three threads of the
      object.  [BlockingProps] checks each method against a lock discipline,
      [BlockingInv] proves the invariants of all interleavings, [BlockingSubs]
      treats the subscription tables.
    - [Udp] models [zcm/transport/udp/{udp,buffers}.cpp]: packets, fragmentation
      and reassembly; [UdpProps] and [UdpLink] the proofs.
    - [Bitfield] models the bit fields of [zcm/zcm_coretypes.h].
    - [Filter] models [zcm/util/Filter.hpp] in binary64 arithmetic, [Tracker] the
      trackers and the synchronizer of [zcm/message_tracker.hpp]; [TrackerProps]
      the proofs.  [MemPool] models [zcm/transport/udp/mempool.cpp].
    - [EventLog] models [zcm/eventlog.c] and [zcm/util/ioutils.h] over files with a
      position and a device of limited room; [EventLogProps] the proofs.
    - [LfPool] models [zcm/transport/lockfree/lf_pool.c] and [LfBcast]
      [zcm/transport/lockfree/lf_bcast.c] over it, as threads that interleave
      access by access; [LfBcastProps] and [LfBcastLive] hold the proofs.
    - [Ipcshm] models [zcm/transport/transport_ipcshm.cpp] over [LfBcast].
    - [Url] models [zcm/url.cpp], [zcm/transport_registrar.c] and, of
      [zcm/zcm.c], the creation from a URL and the texts of return codes.
    - The type generator: [Tokenize] models [gen/tokenize.c]; [CNum] the C library's
      number conversions that the generator uses; [Gen] the types and the
      signature of [gen/ZCMGen.cpp]; [GenParse] its parser, a state monad with
      exit, over the list of tokens; [GenProps] and [GenConst] the proofs.
    - The C emitter: [EmitC] models [gen/emit/{EmitC,Emitter}.cpp] as functions to
      text; [CCode] gives the generated encoders, decoders, sizes and hashes as
      programs of a small language, with their text and their meaning, and
      [CPrint] shows that the text is the emitter's.  [CWire] is the reference:
      the bits of a message and which values are messages; [CEnc], [CDec] and
      [CRound] relate the programs to it, [CMsg] states it for parsed types.
    - The C++ emitter: [EmitCpp] models [gen/emit/EmitCpp.cpp], [CppCode] the methods
      of the generated classes, [CppPrint] shows that their text is the emitter's;
      [CppEnc], [CppSize] and [CppDec] relate them to [CWire], [CppReuse] says what is
      left of an older message, [CppMsg] states it for parsed types.
    - [CppApi] models the class [ZCM] of [zcm/zcm-cpp-impl.hpp] on the non-blocking
      core (it is not modelled over the blocking one): subscriptions are objects on
      a heap, a typed one decodes all its messages into the same object.
    - [LogFile] models the opening and closing of logs and the class [LogFile] of
      [zcm/zcm-cpp-impl.hpp] over a disk; [LogRepair] models
      [tools/cpp/log-repair/main.cpp] and [FileTransport]
      [zcm/transport/transport_file.cpp], with a clock, over it; [LogRepairProps] and
      [FileTransportProps] hold the proofs.
    - [Logger] models [tools/cpp/logger/main.cpp]: receive threads, the main thread
      and signals interleave over a queue, a disk and a control socket.
      [LoggerFrames] treats the control protocol, [LoggerProps] order and cycles,
      [LoggerFiles] the files.
    - [LogPlayer] models [tools/cpp/logplayer/main.cpp] with its settings as values;
      [LogPlayerProps] compares it with a definition of what is to be played.
    - [GetOpt] models [gen/GetOpt.cpp] and [GenMain] [gen/Main.cpp]: the options, the
      checks over all structs and what is printed and written; [GenMainProps] ties
      a command line to the files of the emitters.
    - [SerialPort] models [zcm/transport/transport_serial.cpp] over [Serial]: the port
      with the answers of the system, and a line with explicit time;
      [SerialPortProps] shows that receiving ends and that two ports on a cable
      implement the link of [SerialLink].
    - [CanTransport] models [zcm/transport/transport_can.cpp] over [Serial], with
      [CanProps] for addressing, receiving and the frames that are lost;
      [Lockfile] models [zcm/util/lockfile.cpp] as steps of several processes.
    ** Conventions

    Bytes and C integers are integers in [Z], wrapped where the code stores them
    in a variable of limited width; indices and sizes that the code keeps in
    range are natural numbers.  A statement that leaves the defined behaviour of
    C or C++, or that fails an assertion, gives [None]; error codes of the
    program are values.  Whatever lies outside the sources is an argument: the
    callbacks of the serial transport, the answers of sockets, the matching of
    std::regex, the order of an unordered_map, the growth of a vector, the
    contents of fresh memory, the sizes of C types, and clocks.

    ** What is shown

    Encoding and decoding are inverse for every type and stay in their bounds.
    The queue behaves as a bounded first-in first-out queue.  The serial link
    loses, duplicates and reorders nothing, whatever the callbacks do, and the
    parser survives any bytes.  The non-blocking core delivers each message to
    exactly the subscriptions it is for.  The blocking core, under every
    interleaving, has no data race, never misuses a queue and hands messages
    over once and in order; its tables dispatch exactly.  UDP fragments are
    reassembled to what was sent in whatever order they come, and to nothing
    else, within a bounded memory.
    Bit fields come back from any bit offset.  A log gives back the events
    whose writing succeeded, also behind a torn record, and can be entered at
    any offset.  A tracker keeps the latest messages, finds the nearest ones and
    gives each message to its callback once; the synchronizer pairs messages
    within the time error.  The memory pool hands out disjoint blocks that are
    large enough.  The lock-free pool never hands out an element twice, and the
    broadcast queue over it gives a subscriber every message once and in order
    or counts it as dropped; a publisher cannot be blocked.  The tokenizer and the parser of the type generator end on
    every terminated file, structs come out well formed, decimal constants
    exact, and one changed character of a declaration changes its signature.
    For every type that the parser accepts, the generated C code writes the
    wire format into as many bytes as it announces and reads the message back,
    nested structs, arrays with variable sizes, strings and bit fields included.
    The generated C++ code writes the same bytes, so that programs in both
    languages understand each other; over the C++ interface on
    the non-blocking core a published message reaches every subscription of its
    channel with its contents, and no subscription that is gone is called.
    The log repair sorts a log by time and keeps the order of equal times; the
    file transport plays back what was sent to it.  The logger writes its events
    once and in order, a cycle separates earlier from later events by the file,
    and numbered files are never overwritten.  The player gives out what its
    settings ask for, in order and not before it is due.  The generator writes for
    every command line the files that its options and inputs ask for.
    Where the code does not keep a promise, a theorem exhibits it: resizing a
    full queue, publishing after [stop], stopping a [run] of another thread,
    unsubscribing long channel names, size checks modulo 2^32, strings and
    packets without terminator, constants beyond 64 bits, comments of members,
    a last line without newline, messages from within a tracker's callback,
    allocations of more than 32 bits in generated decoders, vectors that keep the
    numbers of an older message, messages of a file that are due too late, full disks
    that go unnoticed, a cycle that cannot be finished.

    ** Bounds and fuel

    Loops that the code bounds by a counter recurse on it.  The resynchronising
    parser of the serial transport recurses on the number of bytes received,
    each failed pass dropping one; the eviction and expiry loops of the UDP pool
    on the number of buffers, each turn removing or passing one; the flush of
    the non-blocking core on a number of messages that the theorem supplies.
    The machine of the blocking core runs a schedule of arbitrary length.
    The tokenizer gets one unit of fuel per character and the parser one per
    token: every turn of their loops consumes one.  The reader of logs gets one
    per byte; the bisection for a time takes its fuel as an argument.  Numbers
    are printed with 20 decimal or 16 hexadecimal digits, enough for 64 bits;
    a bit field of [n] bits has at most [n] turns.
    Generated functions take the depth of nesting of the message, which a
    typed value has; the hash of a type one unit per struct of the program.
    The search for an unused file name gets one turn more than there are files.
    ** Not modelled

    Sockets, the settings of devices, shared-memory files, ZeroMQ, the vendored JSON library, the
    emitters for other languages than C and C++, the command-line tools but the logger,
    the log player and the log repair, the parsing of command lines by getopt, the bindings for other
    languages, and the topology files.  Memory is sequentially consistent. *)
From Stdlib Require Export ZArith Lia.
From stdpp Require Export base list numbers strings gmap.

(** ** Partial results

    A C or C++ statement that dereferences a bad index, fails an [assert] or
    otherwise leaves the defined behaviour of the language has no result:
    operations that can do so return an [option], and [None] stands for that
    outcome.  The error codes the program itself returns are ordinary values. *)
Declare Scope zcm_scope.
Delimit Scope zcm_scope with zcm.

Notation "x <- e ;; f" := (match e with Some x => f | None => None end)
  (at level 100, e at next level, right associativity, only parsing) : zcm_scope.
Notation "' pat <- e ;; f" := (match e with Some pat => f | None => None end)
  (at level 100, pat pattern, e at next level, right associativity, only parsing) : zcm_scope.
Notation "'check' b ;; f" := (if b then f else None)
  (at level 100, b at level 99, right associativity, only parsing) : zcm_scope.
Open Scope zcm_scope.

(** ** Machine integers *)

(** The value a [w]-bit unsigned variable holds after being assigned [z]. *)
Definition wrapu (w z : Z) : Z := (z mod 2 ^ w)%Z.

(** The value a [w]-bit two's-complement variable holds after being assigned [z]. *)
Definition wraps (w z : Z) : Z := ((z + 2 ^ (w - 1)) mod 2 ^ w - 2 ^ (w - 1))%Z.

Definition in_u (w z : Z) : Prop := (0 <= z < 2 ^ w)%Z.
Definition in_s (w z : Z) : Prop := (- 2 ^ (w - 1) <= z < 2 ^ (w - 1))%Z.

Abbreviation byte := Z (only parsing).
Definition bytes_ok (l : list byte) : Prop := Forall (in_u 8) l.

Create HintDb zcm.

Lemma pow2_pos w : (0 <= w)%Z -> (0 < 2 ^ w)%Z.
Proof. intros. by apply Z.pow_pos_nonneg. Qed.

Lemma pow2_half w : (0 < w)%Z -> (2 ^ w = 2 * 2 ^ (w - 1))%Z.
Proof. intros. rewrite <- Z.pow_succ_r by lia. f_equal. lia. Qed.

Lemma wrapu_range w z : (0 <= w)%Z -> in_u w (wrapu w z).
Proof. intros. apply Z.mod_pos_bound. by apply pow2_pos. Qed.

Lemma wrapu_id w z : in_u w z -> wrapu w z = z.
Proof. apply Z.mod_small. Qed.

Lemma wraps_range w z : (0 < w)%Z -> in_s w (wraps w z).
Proof.
  intros Hw. unfold in_s, wraps.
  pose proof (Z.mod_pos_bound (z + 2 ^ (w - 1)) (2 ^ w) (pow2_pos w ltac:(lia))).
  pose proof (pow2_half w Hw). lia.
Qed.

Lemma wraps_id w z : (0 < w)%Z -> in_s w z -> wraps w z = z.
Proof.
  intros Hw Hz. unfold wraps, in_s in *. pose proof (pow2_half w Hw).
  rewrite Z.mod_small; lia.
Qed.

Lemma wraps_wrapu w z : (0 < w)%Z -> wraps w (wrapu w z) = wraps w z.
Proof.
  intros Hw. unfold wraps, wrapu. by rewrite Zplus_mod_idemp_l.
Qed.

Lemma wrapu_wraps w z : (0 < w)%Z -> wrapu w (wraps w z) = wrapu w z.
Proof.
  intros Hw. unfold wraps, wrapu.
  rewrite Zminus_mod_idemp_l. f_equal. lia.
Qed.

#[export] Hint Resolve wrapu_range wraps_range : zcm.

(** ** Tactics *)

(** Case analysis on the tests of a definition, with the boolean comparisons
    turned into propositions. *)
Ltac bool_prop :=
  repeat match goal with
  | H : _ && _ = true |- _ => apply andb_prop in H; destruct H
  | H : _ || _ = false |- _ => apply orb_false_elim in H; destruct H
  | H : negb _ = true |- _ => apply negb_true_iff in H
  | H : negb _ = false |- _ => apply negb_false_iff in H
  | H : Nat.eqb _ _ = true |- _ => apply Nat.eqb_eq in H
  | H : Nat.eqb _ _ = false |- _ => apply Nat.eqb_neq in H
  | H : Nat.leb _ _ = true |- _ => apply Nat.leb_le in H
  | H : Nat.leb _ _ = false |- _ => apply Nat.leb_gt in H
  | H : Nat.ltb _ _ = true |- _ => apply Nat.ltb_lt in H
  | H : Nat.ltb _ _ = false |- _ => apply Nat.ltb_ge in H
  | H : Z.eqb _ _ = true |- _ => apply Z.eqb_eq in H
  | H : Z.eqb _ _ = false |- _ => apply Z.eqb_neq in H
  | H : Z.leb _ _ = true |- _ => apply Z.leb_le in H
  | H : Z.leb _ _ = false |- _ => apply Z.leb_gt in H
  | H : Z.ltb _ _ = true |- _ => apply Z.ltb_lt in H
  | H : Z.ltb _ _ = false |- _ => apply Z.ltb_ge in H
  | H : bool_decide _ = true |- _ => apply bool_decide_eq_true_1 in H
  | H : bool_decide _ = false |- _ => apply bool_decide_eq_false_1 in H
  end.

Ltac case_test :=
  match goal with
  | |- context [if ?b then _ else _] => destruct b eqn:?; bool_prop
  | H : context [if ?b then _ else _] |- _ => destruct b eqn:?; bool_prop
  end.

Ltac case_opt :=
  match goal with
  | |- context [match ?o with Some _ => _ | None => _ end] => destruct o eqn:?
  | H : context [match ?o with Some _ => _ | None => _ end] |- _ => destruct o eqn:?
  end.

(** ** Rings: indices taken modulo a capacity *)

Lemma mod_wrap a b c : a < c -> b <= c ->
  (a + b) mod c = if a + b <? c then a + b else a + b - c.
Proof.
  intros Ha Hb. destruct (a + b <? c) eqn:E; bool_prop.
  - by apply Nat.mod_small.
  - replace (a + b) with (a + b - c + 1 * c) at 1 by lia.
    rewrite Nat.Div0.mod_add. apply Nat.mod_small. lia.
Qed.

(** Distinct positions of one lap around the ring are distinct slots. *)
Lemma ring_inj f i j c : f < c -> i < c -> j < c ->
  (f + i) mod c = (f + j) mod c -> i = j.
Proof. intros Hf Hi Hj. rewrite !mod_wrap by lia. repeat case_test; lia. Qed.
