(* ===== verification/Bytes.v ===== *)
(** * Byte buffers

    Integers as byte sequences in either order, and the array accesses of the C
    code: a byte is an integer in [0, 256), a buffer is a list of bytes, and an
    access outside the buffer has no result. *)
From S2P Require Import Prelude.
Local Open Scope Z_scope.

(** ** Splitting and combining *)

Fixpoint le_split (n : nat) (v : Z) : list byte :=
  match n with
  | O => []
  | S n => v mod 256 :: le_split n (v / 256)
  end.

Fixpoint le_combine (l : list byte) : Z :=
  match l with
  | [] => 0
  | b :: l => b + 256 * le_combine l
  end.

Definition be_split (n : nat) (v : Z) : list byte := reverse (le_split n v).
Definition be_combine (l : list byte) : Z := le_combine (reverse l).

Lemma length_le_split n v : length (le_split n v) = n.
Proof. revert v. induction n; intros; simpl; auto. Qed.

Lemma length_be_split n v : length (be_split n v) = n.
Proof. unfold be_split. by rewrite length_reverse, length_le_split. Qed.

Lemma le_split_ok n v : bytes_ok (le_split n v).
Proof.
  revert v. induction n; intros; simpl; constructor; [|apply IHn].
  apply (Z.mod_pos_bound v 256). lia.
Qed.

Lemma be_split_ok n v : bytes_ok (be_split n v).
Proof. apply Forall_reverse, le_split_ok. Qed.

Lemma le_combine_split n v : le_combine (le_split n v) = v mod 256 ^ Z.of_nat n.
Proof.
  revert v. induction n as [|n IH]; intros; cbn [le_split le_combine].
  - by rewrite Z.mod_1_r.
  - rewrite IH, Nat2Z.inj_succ, Z.pow_succ_r by lia.
    rewrite Z.rem_mul_r; [lia|lia|]. by apply Z.pow_pos_nonneg; lia.
Qed.

Lemma be_combine_split n v : be_combine (be_split n v) = v mod 256 ^ Z.of_nat n.
Proof. unfold be_combine, be_split. rewrite reverse_involutive. apply le_combine_split. Qed.

Lemma le_split_combine l : bytes_ok l -> le_split (length l) (le_combine l) = l.
Proof.
  induction 1 as [|b l Hb Hl IH]; simpl; [done|]. unfold in_u in Hb.
  rewrite (Z.mul_comm 256), Z.mod_add, Z.div_add, Z.mod_small, Z.div_small by lia. by rewrite Z.add_0_l, IH.
Qed.

Lemma be_split_combine l : bytes_ok l -> be_split (length l) (be_combine l) = l.
Proof.
  intros H. unfold be_split, be_combine. rewrite <- (length_reverse l), le_split_combine.
  - apply reverse_involutive.
  - by apply Forall_reverse.
Qed.

Lemma le_combine_range l : bytes_ok l -> 0 <= le_combine l < 256 ^ Z.of_nat (length l).
Proof.
  intros H. rewrite <- (le_split_combine l H) at 1 2.
  rewrite le_combine_split. apply Z.mod_pos_bound. apply Z.pow_pos_nonneg; lia.
Qed.

Lemma be_combine_range l : bytes_ok l -> 0 <= be_combine l < 256 ^ Z.of_nat (length l).
Proof.
  intros H. unfold be_combine. rewrite <- (length_reverse l).
  apply le_combine_range. by apply Forall_reverse.
Qed.

Lemma land_255 v : Z.land v 255 = v mod 256.
Proof. apply (Z.land_ones v 8). lia. Qed.

(** The shifts and masks the code writes are the bytes of the value. *)
Lemma shifted_byte v k : 0 <= k -> Z.land (Z.shiftr v k) 255 = v / 2 ^ k mod 256.
Proof. intros. by rewrite land_255, Z.shiftr_div_pow2. Qed.

Lemma lor_disjoint a b k : 0 <= k -> 0 <= b < 2 ^ k -> Z.lor (a * 2 ^ k) b = a * 2 ^ k + b.
Proof.
  intros Hk Hb. assert (Z.land (a * 2 ^ k) b = 0) as E.
  { apply Z.bits_inj'. intros n Hn. rewrite Z.land_spec, Z.bits_0.
    destruct (Z.lt_ge_cases n k) as [?|?].
    - by rewrite Z.mul_pow2_bits_low.
    - rewrite <- (Z.mod_small b (2 ^ k)), Z.mod_pow2_bits_high by lia. apply andb_false_r. }
  rewrite Z.add_nocarry_lxor, Z.lxor_lor by done. done.
Qed.

(** ** Buffer accesses at 32-bit positions *)

Definition u32 (z : Z) : Z := wrapu 32 z.

Definition put (buf : list byte) (pos : Z) (b : byte) : option (list byte) :=
  check (pos <? Z.of_nat (length buf)) ;; Some (<[Z.to_nat pos := b]> buf).

Definition get (buf : list byte) (pos : Z) : option byte := buf !! Z.to_nat pos.

(** [buf[pos++] = b] for each byte in turn. *)
Fixpoint put_all (buf : list byte) (pos : Z) (bs : list byte) : option (list byte) :=
  match bs with
  | [] => Some buf
  | b :: bs => buf' <- put buf pos b ;; put_all buf' (u32 (pos + 1)) bs
  end.

(** [buf[pos]], [buf[pos+1]], ... *)
Fixpoint get_all (buf : list byte) (pos : Z) (n : nat) : option (list byte) :=
  match n with
  | O => Some []
  | S n => b <- get buf pos ;; bs <- get_all buf (u32 (pos + 1)) n ;; Some (b :: bs)
  end.

(** What a run of writes leaves: [bs] at [pos], the rest unchanged. *)
Definition write_at (buf : list byte) (pos : nat) (bs : list byte) : list byte :=
  take pos buf ++ bs ++ drop (pos + length bs) buf.

Definition slice (buf : list byte) (pos n : nat) : list byte := take n (drop pos buf).

Lemma length_write_at buf pos bs : (pos + length bs <= length buf)%nat ->
  length (write_at buf pos bs) = length buf.
Proof. intros. unfold write_at. rewrite !length_app, length_take, length_drop. lia. Qed.

Lemma write_at_nil buf pos : write_at buf pos [] = buf.
Proof. unfold write_at. simpl. by rewrite Nat.add_0_r, take_drop. Qed.

Lemma write_at_app buf pos b1 b2 : (pos + length (b1 ++ b2) <= length buf)%nat ->
  write_at (write_at buf pos b1) (pos + length b1) b2 = write_at buf pos (b1 ++ b2).
Proof.
  intros H. rewrite length_app in H. unfold write_at.
  rewrite (app_assoc (take pos buf) b1), take_app_length'
    by (rewrite length_app, length_take; lia).
  rewrite <- !app_assoc, length_app. f_equal. f_equal. f_equal.
  rewrite (app_assoc (take pos buf) b1), drop_app_ge
    by (rewrite length_app, length_take; lia).
  rewrite drop_drop. f_equal. rewrite length_app, length_take. lia.
Qed.

Lemma slice_write_at buf pos bs : (pos + length bs <= length buf)%nat ->
  slice (write_at buf pos bs) pos (length bs) = bs.
Proof.
  intros. unfold slice, write_at. rewrite drop_app_length' by (rewrite length_take; lia).
  apply take_app_length.
Qed.

Lemma insert_write_at buf pos b : (pos < length buf)%nat ->
  <[pos := b]> buf = write_at buf pos [b].
Proof.
  intros. unfold write_at. simpl. rewrite insert_take_drop by lia. do 3 f_equal. lia.
Qed.

(** Frame: a byte outside the written range keeps its value. *)
Lemma lookup_write_at_ne buf pos bs i : (pos + length bs <= length buf)%nat ->
  (i < pos \/ pos + length bs <= i)%nat -> write_at buf pos bs !! i = buf !! i.
Proof.
  intros H Hi. unfold write_at. destruct Hi.
  - rewrite lookup_app_l by (rewrite length_take; lia). by rewrite lookup_take_lt.
  - rewrite !lookup_app_r by (rewrite ?length_take; lia).
    rewrite lookup_drop, length_take. f_equal. lia.
Qed.

Lemma u32_id z : 0 <= z < 2 ^ 32 -> u32 z = z.
Proof. apply wrapu_id. Qed.

Lemma put_all_ok bs : forall buf pos,
  0 <= pos -> pos + Z.of_nat (length bs) <= Z.of_nat (length buf) ->
  Z.of_nat (length buf) < 2 ^ 32 ->
  put_all buf pos bs = Some (write_at buf (Z.to_nat pos) bs).
Proof.
  induction bs as [|b bs IH]; intros buf pos Hp Hl Hb; simpl in *.
  - by rewrite write_at_nil.
  - unfold put. rewrite (proj2 (Z.ltb_lt _ _)) by lia.
    rewrite u32_id, IH by (rewrite ?length_insert; lia). f_equal.
    replace (Z.to_nat (pos + 1)) with (Z.to_nat pos + length [b])%nat by (simpl; lia).
    rewrite insert_write_at by lia.
    apply (write_at_app _ _ [b]). simpl. lia.
Qed.

Lemma get_all_ok n : forall buf pos,
  0 <= pos -> pos + Z.of_nat n <= Z.of_nat (length buf) ->
  Z.of_nat (length buf) < 2 ^ 32 ->
  get_all buf pos n = Some (slice buf (Z.to_nat pos) n).
Proof.
  induction n as [|n IH]; intros buf pos Hp Hl Hb; simpl; [done|].
  unfold get. destruct (lookup_lt_is_Some_2 buf (Z.to_nat pos)) as [b E]; [lia|].
  rewrite E, u32_id, IH by lia. f_equal. unfold slice.
  rewrite (drop_S buf b (Z.to_nat pos)) by done. simpl. f_equal. f_equal. f_equal. lia.
Qed.

(** Reading past the end of a buffer shorter than 4 GiB has no result: the
    position cannot wrap around before it leaves the buffer. *)
Lemma get_all_oob n : forall buf pos,
  0 <= pos -> Z.of_nat (length buf) < pos + Z.of_nat n ->
  pos <= Z.of_nat (length buf) < 2 ^ 32 ->
  get_all buf pos n = None.
Proof.
  induction n as [|n IH]; intros buf pos Hp Hl Hb; [lia|]. simpl. unfold get.
  destruct (buf !! Z.to_nat pos) as [b|] eqn:E; [|done].
  apply lookup_lt_Some in E. rewrite u32_id, IH by lia. done.
Qed.

Lemma slice_app buf pos n m : slice buf pos (n + m) = slice buf pos n ++ slice buf (pos + n) m.
Proof.
  unfold slice. rewrite <- (take_drop n (take (n + m) (drop pos buf))).
  rewrite take_take, Nat.min_l by lia. f_equal.
  rewrite <- drop_drop. symmetry. apply take_drop_commute.
Qed.

Lemma length_slice buf pos n : (pos + n <= length buf)%nat -> length (slice buf pos n) = n.
Proof. intros. unfold slice. rewrite length_take, length_drop. lia. Qed.

#[export] Hint Rewrite length_le_split length_be_split : zcm.
#[export] Hint Resolve le_split_ok be_split_ok : zcm.
