(* ===== verification/CoreTypes.v ===== *)
(** * Encoding of the primitive types (zcm/zcm_coretypes.h)

    Every primitive type has an [encode_array] and a [decode_array], in network
    (big endian) and in little-endian order.  The bodies differ only in how one
    element is turned into bytes and back; that part is written out per type
    from the source and packed in a [Codec], and the array functions, which the
    header repeats for each type, are written once over it. *)
From S2P Require Import Prelude Bytes.
Local Open Scope Z_scope.

(** ** One element *)

(** What the encoder of one element promises to the array functions: it fills
    exactly [size] bytes and [dec] undoes [enc] on the type's values. *)
Class Codec := {
  size : nat;
  enc : Z -> list byte;
  dec : list byte -> Z;
  val_ok : Z -> Prop;
  size_pos : (0 < size <= 8)%nat;
  enc_length : forall v, length (enc v) = size;
  enc_bytes : forall v, bytes_ok (enc v);
  dec_enc : forall v, val_ok v -> dec (enc v) = v
}.
Arguments size : clear implicits.
Arguments enc : clear implicits.
Arguments dec : clear implicits.
Arguments val_ok : clear implicits.

(** [buf[k]] of the [size] bytes being decoded. *)
Definition nthb (l : list byte) (k : nat) : Z := default 0 (l !! k).

(** Bytes of [v] as the encoders write them, [(v >> k) & 0xff]. *)
Definition byte_at (v k : Z) : Z := Z.land (Z.shiftr v k) 255.

Definition int8_enc (p : Z) : list byte := [wrapu 8 p].
Definition int8_dec (l : list byte) : Z := wraps 8 (nthb l 0).
Definition byte_enc (p : Z) : list byte := [wrapu 8 p].
Definition byte_dec (l : list byte) : Z := nthb l 0.

Definition int16_enc (p : Z) : list byte :=
  let v := wrapu 16 p in [byte_at v 8; Z.land v 255].
Definition int16_dec (l : list byte) : Z :=
  wraps 16 (Z.shiftl (nthb l 0) 8 + nthb l 1).
Definition int16_le_enc (p : Z) : list byte :=
  let v := wrapu 16 p in [Z.land v 255; byte_at v 8].
Definition int16_le_dec (l : list byte) : Z :=
  wraps 16 (Z.shiftl (nthb l 1) 8 + nthb l 0).

(** The 32-bit word made of four bytes, most significant first. *)
Definition word32 (b0 b1 b2 b3 : Z) : Z :=
  u32 (u32 (Z.shiftl b0 24) + u32 (Z.shiftl b1 16) + u32 (Z.shiftl b2 8) + b3).

Definition int32_enc (p : Z) : list byte :=
  let v := wrapu 32 p in [byte_at v 24; byte_at v 16; byte_at v 8; Z.land v 255].
Definition int32_dec (l : list byte) : Z :=
  wraps 32 (word32 (nthb l 0) (nthb l 1) (nthb l 2) (nthb l 3)).
Definition int32_le_enc (p : Z) : list byte :=
  let v := wrapu 32 p in [Z.land v 255; byte_at v 8; byte_at v 16; byte_at v 24].
Definition int32_le_dec (l : list byte) : Z :=
  wraps 32 (word32 (nthb l 3) (nthb l 2) (nthb l 1) (nthb l 0)).

(** [(a << 32) + (b & 0xffffffff)] in 64 bits. *)
Definition word64 (a b : Z) : Z :=
  wrapu 64 (wrapu 64 (Z.shiftl a 32) + Z.land b 0xffffffff).

Definition int64_enc (p : Z) : list byte :=
  let v := wrapu 64 p in
  [byte_at v 56; byte_at v 48; byte_at v 40; byte_at v 32;
   byte_at v 24; byte_at v 16; byte_at v 8; Z.land v 255].
Definition int64_dec (l : list byte) : Z :=
  wraps 64 (word64 (word32 (nthb l 0) (nthb l 1) (nthb l 2) (nthb l 3))
                   (word32 (nthb l 4) (nthb l 5) (nthb l 6) (nthb l 7))).
Definition int64_le_enc (p : Z) : list byte :=
  let v := wrapu 64 p in
  [Z.land v 255; byte_at v 8; byte_at v 16; byte_at v 24;
   byte_at v 32; byte_at v 40; byte_at v 48; byte_at v 56].
Definition int64_le_dec (l : list byte) : Z :=
  wraps 64 (word64 (word32 (nthb l 7) (nthb l 6) (nthb l 5) (nthb l 4))
                   (word32 (nthb l 3) (nthb l 2) (nthb l 1) (nthb l 0))).

(** Floating-point values travel as the bits of their representation: the code
    stores them in a union and reads back an unsigned integer of the same
    width, so a [float] is modelled by its 32 bits and a [double] by its 64. *)
Definition float_enc (uint : Z) : list byte :=
  [byte_at uint 24; byte_at uint 16; byte_at uint 8; Z.land uint 255].
Definition float_dec (l : list byte) : Z :=
  Z.lor (Z.lor (Z.lor (u32 (Z.shiftl (nthb l 0) 24)) (u32 (Z.shiftl (nthb l 1) 16)))
               (u32 (Z.shiftl (nthb l 2) 8))) (nthb l 3).
Definition float_le_enc (uint : Z) : list byte :=
  [Z.land uint 255; byte_at uint 8; byte_at uint 16; byte_at uint 24].
Definition float_le_dec (l : list byte) : Z :=
  Z.lor (Z.lor (Z.lor (u32 (Z.shiftl (nthb l 3) 24)) (u32 (Z.shiftl (nthb l 2) 16)))
               (u32 (Z.shiftl (nthb l 1) 8))) (nthb l 0).

Definition double_enc (uint : Z) : list byte :=
  [byte_at uint 56; byte_at uint 48; byte_at uint 40; byte_at uint 32;
   byte_at uint 24; byte_at uint 16; byte_at uint 8; Z.land uint 255].
Definition double_dec (l : list byte) : Z :=
  word64 (word32 (nthb l 0) (nthb l 1) (nthb l 2) (nthb l 3))
         (word32 (nthb l 4) (nthb l 5) (nthb l 6) (nthb l 7)).
Definition double_le_enc (uint : Z) : list byte :=
  [Z.land uint 255; byte_at uint 8; byte_at uint 16; byte_at uint 24;
   byte_at uint 32; byte_at uint 40; byte_at uint 48; byte_at uint 56].
Definition double_le_dec (l : list byte) : Z :=
  word64 (word32 (nthb l 7) (nthb l 6) (nthb l 5) (nthb l 4))
         (word32 (nthb l 3) (nthb l 2) (nthb l 1) (nthb l 0)).

(** ** Arrays *)

Section Array.
Context (K : Codec).

Definition encoded_array_size (elements : Z) : Z := u32 (Z.of_nat (size K) * elements).

(** The loop over the elements: [p] is the caller's array from the current
    element on, and reading past its end has no result. *)
Fixpoint encode_loop (buf : list byte) (pos : Z) (p : list Z) (elements : nat)
  : option (list byte) :=
  match elements with
  | O => Some buf
  | S elements =>
      match p with
      | [] => None
      | v :: p =>
          buf' <- put_all buf pos (enc K v) ;;
          encode_loop buf' (u32 (pos + Z.of_nat (size K))) p elements
      end
  end.

Definition encode_array (buf : list byte) (offset maxlen : Z) (p : list Z) (elements : Z)
  : option (list byte * Z) :=
  let total_size := encoded_array_size elements in
  if maxlen <? total_size then Some (buf, -1)
  else
    buf' <- encode_loop buf offset p (Z.to_nat elements) ;;
    Some (buf', wraps 32 total_size).

Fixpoint decode_loop (buf : list byte) (pos : Z) (elements : nat) : option (list Z) :=
  match elements with
  | O => Some []
  | S elements =>
      l <- get_all buf pos (size K) ;;
      p <- decode_loop buf (u32 (pos + Z.of_nat (size K))) elements ;;
      Some (dec K l :: p)
  end.

(** The elements written to [p] and the value returned; on failure nothing is
    written. *)
Definition decode_array (buf : list byte) (offset maxlen : Z) (elements : Z)
  : option (list Z * Z) :=
  let total_size := encoded_array_size elements in
  if maxlen <? total_size then Some ([], -1)
  else
    p <- decode_loop buf offset (Z.to_nat elements) ;;
    Some (p, wraps 32 total_size).
End Array.

(** ** The elements round trip *)

Lemma byte_at_div v k : 0 <= k -> byte_at v k = v / 2 ^ k mod 256.
Proof. apply shifted_byte. Qed.

(** Bytes taken at offsets 0, 8, ... are those of the reference splitting. *)
Ltac bytes_of_split :=
  unfold le_split, be_split; simpl reverse;
  rewrite ?byte_at_div, ?land_255 by lia;
  rewrite ?Z.div_div by lia; reflexivity.

Lemma split16 v : [Z.land v 255; byte_at v 8] = le_split 2 v.
Proof. bytes_of_split. Qed.
Lemma split32 v : [Z.land v 255; byte_at v 8; byte_at v 16; byte_at v 24] = le_split 4 v.
Proof. bytes_of_split. Qed.
Lemma split64 v :
  [Z.land v 255; byte_at v 8; byte_at v 16; byte_at v 24;
   byte_at v 32; byte_at v 40; byte_at v 48; byte_at v 56] = le_split 8 v.
Proof. bytes_of_split. Qed.

Lemma nthb_cons b l : nthb (b :: l) 0 = b.
Proof. done. Qed.

Lemma word32_combine b0 b1 b2 b3 : bytes_ok [b3; b2; b1; b0] ->
  word32 b0 b1 b2 b3 = le_combine [b3; b2; b1; b0].
Proof.
  intros H. repeat match goal with H : bytes_ok (_ :: _) |- _ => inversion_clear H
    | H : Forall _ (_ :: _) |- _ => inversion_clear H end.
  unfold in_u in *. unfold word32. rewrite !Z.shiftl_mul_pow2 by lia. cbn [le_combine].
  rewrite !u32_id by (rewrite ?u32_id by lia; lia). lia.
Qed.

Lemma word64_sum a b : in_u 32 a -> in_u 32 b -> word64 a b = a * 2 ^ 32 + b.
Proof.
  unfold in_u. intros Ha Hb. unfold word64. rewrite Z.shiftl_mul_pow2 by lia.
  change 0xffffffff with (Z.ones 32). rewrite Z.land_ones, (Z.mod_small b) by lia.
  rewrite !wrapu_id; unfold in_u; rewrite ?wrapu_id; unfold in_u; lia.
Qed.

(** The bitwise reassembly of a word is the additive one. *)
Lemma lor32_combine b0 b1 b2 b3 : bytes_ok [b3; b2; b1; b0] ->
  Z.lor (Z.lor (Z.lor (u32 (Z.shiftl b0 24)) (u32 (Z.shiftl b1 16))) (u32 (Z.shiftl b2 8))) b3
  = le_combine [b3; b2; b1; b0].
Proof.
  intros H. repeat match goal with H : bytes_ok (_ :: _) |- _ => inversion_clear H
    | H : Forall _ (_ :: _) |- _ => inversion_clear H end.
  unfold in_u in *. rewrite !Z.shiftl_mul_pow2, !u32_id by lia. cbn [le_combine].
  rewrite (lor_disjoint b0 (b1 * 2 ^ 16) 24) by lia.
  replace (b0 * 2 ^ 24 + b1 * 2 ^ 16) with ((b0 * 2 ^ 8 + b1) * 2 ^ 16) by lia.
  rewrite (lor_disjoint _ (b2 * 2 ^ 8) 16) by lia.
  replace ((b0 * 2 ^ 8 + b1) * 2 ^ 16 + b2 * 2 ^ 8) with ((b0 * 2 ^ 16 + b1 * 2 ^ 8 + b2) * 2 ^ 8) by lia.
  rewrite (lor_disjoint _ b3 8) by lia. lia.
Qed.

Lemma le_combine_app l1 l2 :
  le_combine (l1 ++ l2) = le_combine l1 + 256 ^ Z.of_nat (length l1) * le_combine l2.
Proof.
  induction l1 as [|b l1 IH]; cbn [app le_combine length]; [lia|].
  rewrite IH, Nat2Z.inj_succ, Z.pow_succ_r by lia. lia.
Qed.

Lemma word64_combine b0 b1 b2 b3 b4 b5 b6 b7 :
  bytes_ok [b7; b6; b5; b4; b3; b2; b1; b0] ->
  word64 (word32 b0 b1 b2 b3) (word32 b4 b5 b6 b7) =
  le_combine ([b7; b6; b5; b4] ++ [b3; b2; b1; b0]).
Proof.
  intros H. change [b7; b6; b5; b4; b3; b2; b1; b0]
    with ([b7; b6; b5; b4] ++ [b3; b2; b1; b0]) in H. apply Forall_app in H as [H1 H2].
  rewrite !word32_combine by done.
  pose proof (le_combine_range _ H1). pose proof (le_combine_range _ H2).
  rewrite word64_sum, le_combine_app by done. simpl length. lia.
Qed.

(** Decoding reads off the reference combination of the bytes. *)
Lemma dec_split16 v : Z.shiftl (byte_at v 8) 8 + Z.land v 255 = v mod 2 ^ 16.
Proof.
  pose proof (le_combine_split 2 v) as E. rewrite <- split16 in E. cbn [le_combine] in E.
  rewrite Z.shiftl_mul_pow2 by lia. change (256 ^ Z.of_nat 2) with (2 ^ 16) in E. lia.
Qed.

Lemma dec_split32 v :
  word32 (byte_at v 24) (byte_at v 16) (byte_at v 8) (Z.land v 255) = v mod 2 ^ 32.
Proof.
  rewrite word32_combine by (rewrite split32; apply le_split_ok).
  rewrite split32. apply (le_combine_split 4).
Qed.

Lemma dec_split64 v :
  word64 (word32 (byte_at v 56) (byte_at v 48) (byte_at v 40) (byte_at v 32))
         (word32 (byte_at v 24) (byte_at v 16) (byte_at v 8) (Z.land v 255)) = v mod 2 ^ 64.
Proof.
  rewrite word64_combine by (rewrite split64; apply le_split_ok).
  cbn [app]. rewrite split64. apply (le_combine_split 8).
Qed.

Lemma dec_split_float v :
  Z.lor (Z.lor (Z.lor (u32 (Z.shiftl (byte_at v 24) 24)) (u32 (Z.shiftl (byte_at v 16) 16)))
               (u32 (Z.shiftl (byte_at v 8) 8))) (Z.land v 255) = v mod 2 ^ 32.
Proof.
  rewrite lor32_combine by (rewrite split32; apply le_split_ok).
  rewrite split32. apply (le_combine_split 4).
Qed.

Lemma signed_roundtrip w v : 0 < w -> in_s w v -> wraps w (wrapu w v mod 2 ^ w) = v.
Proof.
  intros Hw Hv. fold (wrapu w (wrapu w v)).
  rewrite !wraps_wrapu by done. by apply wraps_id.
Qed.

Lemma byte_at_ok v k : in_u 8 (byte_at v k).
Proof. unfold byte_at. rewrite land_255. apply (Z.mod_pos_bound _ 256). lia. Qed.

Lemma low_byte_ok v : in_u 8 (Z.land v 255).
Proof. rewrite land_255. apply (Z.mod_pos_bound _ 256). lia. Qed.

#[export] Hint Resolve byte_at_ok low_byte_ok : zcm.

(** Every byte an encoder writes is in range. *)
Ltac codec_bytes :=
  intros; repeat (apply Forall_cons_2; [first [apply byte_at_ok | apply low_byte_ok
    | by apply wrapu_range]|]); apply Forall_nil_2.

#[refine] Instance byte_codec : Codec :=
  {| size := 1; enc := byte_enc; dec := byte_dec; val_ok := in_u 8 |}.
Proof. lia. done. codec_bytes. intros v Hv. by apply wrapu_id. Defined.

#[refine] Instance int8_codec : Codec :=
  {| size := 1; enc := int8_enc; dec := int8_dec; val_ok := in_s 8 |}.
Proof.
  lia. done. codec_bytes. intros v Hv. unfold int8_dec, int8_enc. rewrite nthb_cons.
  rewrite wraps_wrapu by lia. by apply wraps_id.
Defined.

#[refine] Instance int16_codec : Codec :=
  {| size := 2; enc := int16_enc; dec := int16_dec; val_ok := in_s 16 |}.
Proof.
  lia. done. codec_bytes. intros v Hv. unfold int16_dec, int16_enc.
  etransitivity; [|apply (signed_roundtrip 16 v ltac:(lia) Hv)]. f_equal. apply dec_split16.
Defined.

#[refine] Instance int16_le_codec : Codec :=
  {| size := 2; enc := int16_le_enc; dec := int16_le_dec; val_ok := in_s 16 |}.
Proof.
  lia. done. codec_bytes. intros v Hv. unfold int16_le_dec, int16_le_enc.
  etransitivity; [|apply (signed_roundtrip 16 v ltac:(lia) Hv)]. f_equal. apply dec_split16.
Defined.

#[refine] Instance int32_codec : Codec :=
  {| size := 4; enc := int32_enc; dec := int32_dec; val_ok := in_s 32 |}.
Proof.
  lia. done. codec_bytes. intros v Hv. unfold int32_dec, int32_enc.
  etransitivity; [|apply (signed_roundtrip 32 v ltac:(lia) Hv)]. f_equal. apply dec_split32.
Defined.

#[refine] Instance int32_le_codec : Codec :=
  {| size := 4; enc := int32_le_enc; dec := int32_le_dec; val_ok := in_s 32 |}.
Proof.
  lia. done. codec_bytes. intros v Hv. unfold int32_le_dec, int32_le_enc.
  etransitivity; [|apply (signed_roundtrip 32 v ltac:(lia) Hv)]. f_equal. apply dec_split32.
Defined.

#[refine] Instance int64_codec : Codec :=
  {| size := 8; enc := int64_enc; dec := int64_dec; val_ok := in_s 64 |}.
Proof.
  lia. done. codec_bytes. intros v Hv. unfold int64_dec, int64_enc.
  etransitivity; [|apply (signed_roundtrip 64 v ltac:(lia) Hv)]. f_equal. apply dec_split64.
Defined.

#[refine] Instance int64_le_codec : Codec :=
  {| size := 8; enc := int64_le_enc; dec := int64_le_dec; val_ok := in_s 64 |}.
Proof.
  lia. done. codec_bytes. intros v Hv. unfold int64_le_dec, int64_le_enc.
  etransitivity; [|apply (signed_roundtrip 64 v ltac:(lia) Hv)]. f_equal. apply dec_split64.
Defined.

#[refine] Instance float_codec : Codec :=
  {| size := 4; enc := float_enc; dec := float_dec; val_ok := in_u 32 |}.
Proof.
  lia. done. codec_bytes. intros v Hv. unfold float_dec, float_enc.
  etransitivity; [apply dec_split_float|by apply Z.mod_small].
Defined.

#[refine] Instance float_le_codec : Codec :=
  {| size := 4; enc := float_le_enc; dec := float_le_dec; val_ok := in_u 32 |}.
Proof.
  lia. done. codec_bytes. intros v Hv. unfold float_le_dec, float_le_enc.
  etransitivity; [apply dec_split_float|by apply Z.mod_small].
Defined.

#[refine] Instance double_codec : Codec :=
  {| size := 8; enc := double_enc; dec := double_dec; val_ok := in_u 64 |}.
Proof.
  lia. done. codec_bytes. intros v Hv. unfold double_dec, double_enc.
  etransitivity; [apply dec_split64|by apply Z.mod_small].
Defined.

#[refine] Instance double_le_codec : Codec :=
  {| size := 8; enc := double_le_enc; dec := double_le_dec; val_ok := in_u 64 |}.
Proof.
  lia. done. codec_bytes. intros v Hv. unfold double_le_dec, double_le_enc.
  etransitivity; [apply dec_split64|by apply Z.mod_small].
Defined.

(** ** The functions of the header *)

Definition __byte_encode_array := encode_array byte_codec.
Definition __byte_decode_array := decode_array byte_codec.
Definition __byte_encode_little_endian_array := __byte_encode_array.
Definition __byte_decode_little_endian_array := __byte_decode_array.
Definition __int8_t_encode_array := encode_array int8_codec.
Definition __int8_t_decode_array := decode_array int8_codec.
Definition __int8_t_encode_little_endian_array := __int8_t_encode_array.
Definition __int8_t_decode_little_endian_array := __int8_t_decode_array.
Definition __int16_t_encode_array := encode_array int16_codec.
Definition __int16_t_decode_array := decode_array int16_codec.
Definition __int16_t_encode_little_endian_array := encode_array int16_le_codec.
Definition __int16_t_decode_little_endian_array := decode_array int16_le_codec.
Definition __int32_t_encode_array := encode_array int32_codec.
Definition __int32_t_decode_array := decode_array int32_codec.
Definition __int32_t_encode_little_endian_array := encode_array int32_le_codec.
Definition __int32_t_decode_little_endian_array := decode_array int32_le_codec.
Definition __int64_t_encode_array := encode_array int64_codec.
Definition __int64_t_decode_array := decode_array int64_codec.
Definition __int64_t_encode_little_endian_array := encode_array int64_le_codec.
Definition __int64_t_decode_little_endian_array := decode_array int64_le_codec.
Definition __float_encode_array := encode_array float_codec.
Definition __float_decode_array := decode_array float_codec.
Definition __float_encode_little_endian_array := encode_array float_le_codec.
Definition __float_decode_little_endian_array := decode_array float_le_codec.
Definition __double_encode_array := encode_array double_codec.
Definition __double_decode_array := decode_array double_codec.
Definition __double_encode_little_endian_array := encode_array double_le_codec.
Definition __double_decode_little_endian_array := decode_array double_le_codec.

Section ArrayFacts.
Context (K : Codec).

Definition encoding (p : list Z) : list byte := concat (enc K <$> p).

Lemma encoding_cons v p : encoding (v :: p) = enc K v ++ encoding p.
Proof. done. Qed.

Lemma length_encoding p : length (encoding p) = (size K * length p)%nat.
Proof.
  induction p as [|v p IH]; [simpl; lia|].
  rewrite encoding_cons, length_app, IH, enc_length. simpl. lia.
Qed.

Lemma encode_loop_ok p : forall buf pos,
  0 <= pos -> pos + Z.of_nat (size K * length p) <= Z.of_nat (length buf) ->
  Z.of_nat (length buf) < 2 ^ 32 ->
  encode_loop K buf pos p (length p) = Some (write_at buf (Z.to_nat pos) (encoding p)).
Proof.
  induction p as [|v p IH]; intros buf pos Hp Hl Hb; simpl.
  - by rewrite write_at_nil.
  - simpl in Hl. rewrite Nat.mul_succ_r in Hl. pose proof (size_pos (Codec := K)).
    rewrite put_all_ok, u32_id by (rewrite ?enc_length; lia).
    rewrite IH by (rewrite ?length_write_at; rewrite ?enc_length; lia).
    f_equal. rewrite <- (enc_length v).
    replace (Z.to_nat (pos + Z.of_nat (length (enc K v))))
      with (Z.to_nat pos + length (enc K v))%nat by lia.
    rewrite write_at_app; [done|]. rewrite length_app, length_encoding, enc_length. lia.
Qed.

Lemma decode_loop_ok p : forall buf pos,
  0 <= pos -> pos + Z.of_nat (size K * length p) <= Z.of_nat (length buf) ->
  Z.of_nat (length buf) < 2 ^ 32 -> Forall (val_ok K) p ->
  slice buf (Z.to_nat pos) (size K * length p) = encoding p ->
  decode_loop K buf pos (length p) = Some p.
Proof.
  induction p as [|v p IH]; intros buf pos Hp Hl Hb Hv Hs; simpl; [done|].
  inversion_clear Hv. simpl in Hl. rewrite Nat.mul_succ_r in Hl.
  pose proof (size_pos (Codec := K)).
  simpl in Hs. rewrite Nat.mul_succ_r, Nat.add_comm, slice_app in Hs.
  rewrite encoding_cons in Hs.
  apply app_inj_1 in Hs as [Hs1 Hs2]; [|rewrite length_slice, enc_length; lia].
  rewrite get_all_ok, Hs1, u32_id, IH; try done; try lia.
  - by rewrite dec_enc.
  - by rewrite Z2Nat.inj_add, Nat2Z.id by lia.
Qed.

Lemma decode_loop_oob n : forall buf pos,
  0 <= pos <= Z.of_nat (length buf) ->
  Z.of_nat (length buf) < pos + Z.of_nat (size K * n) ->
  Z.of_nat (length buf) < 2 ^ 32 ->
  decode_loop K buf pos n = None.
Proof.
  induction n as [|n IH]; intros buf pos Hp Hl Hb; [lia|]. simpl.
  destruct (Z.le_gt_cases (pos + Z.of_nat (size K)) (Z.of_nat (length buf))).
  - rewrite get_all_ok, u32_id, IH by lia. done.
  - by rewrite get_all_oob by lia.
Qed.

Lemma total_size_id n : Z.of_nat (size K) * n < 2 ^ 31 -> 0 <= n ->
  encoded_array_size K n = Z.of_nat (size K) * n /\
  wraps 32 (encoded_array_size K n) = Z.of_nat (size K) * n.
Proof.
  intros Hn H0. unfold encoded_array_size. rewrite u32_id by lia.
  split; [done|]. apply wraps_id; [lia|]. unfold in_s. lia.
Qed.

Lemma encode_array_ok p buf offset maxlen :
  0 <= offset -> Z.of_nat (size K * length p) <= maxlen ->
  offset + maxlen <= Z.of_nat (length buf) -> Z.of_nat (length buf) < 2 ^ 31 ->
  encode_array K buf offset maxlen p (Z.of_nat (length p)) =
    Some (write_at buf (Z.to_nat offset) (encoding p), Z.of_nat (size K * length p)).
Proof.
  intros Ho Hm Hb Hl. unfold encode_array.
  destruct (total_size_id (Z.of_nat (length p))) as [-> ->]; [lia..|].
  rewrite (proj2 (Z.ltb_ge _ _)) by lia. rewrite Nat2Z.id, encode_loop_ok by lia.
  do 2 f_equal. lia.
Qed.

Lemma decode_array_ok p buf offset maxlen :
  0 <= offset -> Z.of_nat (size K * length p) <= maxlen ->
  offset + maxlen <= Z.of_nat (length buf) -> Z.of_nat (length buf) < 2 ^ 31 ->
  Forall (val_ok K) p -> slice buf (Z.to_nat offset) (size K * length p) = encoding p ->
  decode_array K buf offset maxlen (Z.of_nat (length p)) =
    Some (p, Z.of_nat (size K * length p)).
Proof.
  intros Ho Hm Hb Hl Hv Hs. unfold decode_array.
  destruct (total_size_id (Z.of_nat (length p))) as [-> ->]; [lia..|].
  rewrite (proj2 (Z.ltb_ge _ _)) by lia. rewrite Nat2Z.id, (decode_loop_ok p) by (done || lia).
  do 2 f_equal. lia.
Qed.
End ArrayFacts.

(** ** Strings *)

(** A C string is the list of its [char]s (signed) before the terminator. *)
Definition strlen (s : list Z) : Z := Z.of_nat (length s).

Fixpoint __string_encoded_array_size (s : list (list Z)) : Z :=
  match s with
  | [] => 0
  | x :: s => u32 (4 + strlen x + 1 + __string_encoded_array_size s)
  end.

Section StringArray.
(** The integer and byte encoders used, in one byte order or the other. *)
Context (K32 K8 : Codec).

Fixpoint string_encode_loop (buf : list byte) (offset maxlen pos : Z) (p : list (list Z))
  : option (list byte * Z) :=
  match p with
  | [] => Some (buf, wraps 32 pos)
  | s :: p =>
      let length := wraps 32 (strlen s + 1) in
      '(buf, thislen) <- encode_array K32 buf (u32 (offset + pos)) (u32 (maxlen - pos)) [length] 1 ;;
      if thislen <? 0 then Some (buf, thislen) else
      let pos := u32 (pos + thislen) in
      '(buf, thislen) <- encode_array K8 buf (u32 (offset + pos)) (u32 (maxlen - pos))
                           (s ++ [0]) (u32 length) ;;
      if thislen <? 0 then Some (buf, thislen) else
      string_encode_loop buf offset maxlen (u32 (pos + thislen)) p
  end.

(** The decoded strings are the blocks allocated for them, [length] bytes each
    ([zcm_malloc(0)] yields the null pointer, an empty block here). *)
Fixpoint string_decode_loop (buf : list byte) (offset maxlen pos : Z) (elements : nat)
  : option (list (list Z) * Z) :=
  match elements with
  | O => Some ([], wraps 32 pos)
  | S elements =>
      '(p, thislen) <- decode_array K32 buf (u32 (offset + pos)) (u32 (maxlen - pos)) 1 ;;
      if thislen <? 0 then Some ([], thislen) else
      let pos := u32 (pos + thislen) in
      match p with
      | [length] =>
          '(s, thislen) <- decode_array K8 buf (u32 (offset + pos)) (u32 (maxlen - pos)) (u32 length) ;;
          if thislen <? 0 then Some ([], thislen) else
          '(ss, r) <- string_decode_loop buf offset maxlen (u32 (pos + thislen)) elements ;;
          Some (s :: ss, r)
      | _ => None
      end
  end.
End StringArray.

Definition __string_encode_array (buf : list byte) (offset maxlen : Z)
    (p : list (list Z)) :=
  string_encode_loop int32_codec int8_codec buf offset maxlen 0 p.
Definition __string_decode_array (buf : list byte) (offset maxlen : Z) (elements : Z) :=
  string_decode_loop int32_codec int8_codec buf offset maxlen 0 (Z.to_nat elements).
Definition __string_encode_little_endian_array (buf : list byte) (offset maxlen : Z)
    (p : list (list Z)) :=
  string_encode_loop int32_le_codec int8_codec buf offset maxlen 0 p.
Definition __string_decode_little_endian_array (buf : list byte) (offset maxlen : Z) (elements : Z) :=
  string_decode_loop int32_le_codec int8_codec buf offset maxlen 0 (Z.to_nat elements).

(** The clone of an array of strings: every string with its terminator, and the
    number of bytes copied. *)
Fixpoint __string_clone_array (p : list (list Z)) : list (list Z) * Z :=
  match p with
  | [] => ([], 0)
  | s :: p =>
      let '(q, n) := __string_clone_array p in
      let len := u32 (strlen s + 1) in
      ((s ++ [0]) :: q, u32 (len + n))
  end.

Section StringFacts.
Context (K32 K8 : Codec).
Hypothesis size32 : size K32 = 4%nat.
Hypothesis size8 : size K8 = 1%nat.
Hypothesis ok32 : forall v, in_s 32 v -> val_ok K32 v.

Definition string_bytes (s : list Z) : list byte :=
  enc K32 (strlen s + 1) ++ encoding K8 (s ++ [0]).
Definition strings_bytes (p : list (list Z)) : list byte := concat (string_bytes <$> p).

Lemma strings_bytes_cons s p : strings_bytes (s :: p) = string_bytes s ++ strings_bytes p.
Proof. done. Qed.

Lemma length_string_bytes s : length (string_bytes s) = (4 + (length s + 1))%nat.
Proof.
  unfold string_bytes. rewrite length_app, enc_length, length_encoding, length_app, size32, size8.
  simpl. lia.
Qed.

Lemma string_encode_loop_ok p : forall buf offset maxlen pos,
  0 <= offset -> 0 <= pos -> pos + Z.of_nat (length (strings_bytes p)) <= maxlen ->
  offset + maxlen <= Z.of_nat (length buf) -> Z.of_nat (length buf) < 2 ^ 31 ->
  string_encode_loop K32 K8 buf offset maxlen pos p =
    Some (write_at buf (Z.to_nat (offset + pos)) (strings_bytes p),
          pos + Z.of_nat (length (strings_bytes p))).
Proof.
  induction p as [|s p IH]; intros buf offset maxlen pos Ho Hp Hm Hb Hl.
  { cbn [string_encode_loop]. rewrite write_at_nil, wraps_id, Z.add_0_r by (unfold in_s; lia). done. }
  rewrite strings_bytes_cons, length_app, length_string_bytes in *.
  cbn [string_encode_loop]. unfold strlen.
  rewrite wraps_id by (unfold in_s; lia).
  rewrite (u32_id (offset + pos)), (u32_id (maxlen - pos)) by lia.
  pose proof (encode_array_ok K32 [Z.of_nat (length s) + 1] buf (offset + pos) (maxlen - pos)) as E.
  rewrite size32 in E. cbn [length] in E. change (Z.of_nat 1) with 1 in E.
  change (Z.of_nat (4 * 1)) with 4 in E. rewrite E by lia. clear E. cbn [Z.ltb Z.compare].
  rewrite (u32_id (pos + 4)), (u32_id (Z.of_nat (length s) + 1)),
    (u32_id (offset + (pos + 4))), (u32_id (maxlen - (pos + 4))) by lia.
  assert (length (encoding K32 [Z.of_nat (length s) + 1]) = 4%nat) as L1
    by (rewrite length_encoding, size32; done).
  assert (encoding K32 [Z.of_nat (length s) + 1] = enc K32 (strlen s + 1)) as E1
    by (unfold encoding; simpl; apply app_nil_r).
  rewrite E1 in L1 |- *. set (e1 := enc K32 (strlen s + 1)) in *.
  set (buf1 := write_at buf (Z.to_nat (offset + pos)) e1).
  assert (length buf1 = length buf) as Lb by (apply length_write_at; lia).
  pose proof (encode_array_ok K8 (s ++ [0]) buf1 (offset + (pos + 4)) (maxlen - (pos + 4))) as E.
  rewrite size8, length_app in E. cbn [length] in E.
  replace (Z.of_nat (length s + 1)) with (Z.of_nat (length s) + 1) in E by lia.
  replace (Z.of_nat (1 * (length s + 1))) with (Z.of_nat (length s) + 1) in E by lia.
  rewrite E by lia. clear E.
  rewrite (proj2 (Z.ltb_ge _ _)) by lia.
  assert (length (encoding K8 (s ++ [0])) = (length s + 1)%nat) as L2
    by (rewrite length_encoding, size8, length_app; simpl; lia).
  rewrite u32_id, IH by (rewrite ?length_write_at; lia).
  f_equal. f_equal; [|lia].
  replace (Z.to_nat (offset + (pos + 4))) with (Z.to_nat (offset + pos) + length e1)%nat by lia.
  unfold buf1. rewrite write_at_app by (rewrite length_app; lia).
  replace (Z.to_nat (offset + (pos + 4 + (Z.of_nat (length s) + 1))))
    with (Z.to_nat (offset + pos) + length (e1 ++ encoding K8 (s ++ [0%Z])))%nat
    by (rewrite length_app; lia).
  rewrite write_at_app by (rewrite !length_app; lia). done.
Qed.

Lemma string_decode_loop_ok p : forall buf offset maxlen pos,
  0 <= offset -> 0 <= pos -> pos + Z.of_nat (length (strings_bytes p)) <= maxlen ->
  offset + maxlen <= Z.of_nat (length buf) -> Z.of_nat (length buf) < 2 ^ 31 ->
  Forall (fun s => Forall (val_ok K8) (s ++ [0])) p ->
  slice buf (Z.to_nat (offset + pos)) (length (strings_bytes p)) = strings_bytes p ->
  string_decode_loop K32 K8 buf offset maxlen pos (length p) =
    Some ((fun s => s ++ [0]) <$> p, pos + Z.of_nat (length (strings_bytes p))).
Proof.
  induction p as [|s p IH]; intros buf offset maxlen pos Ho Hp Hm Hb Hl Hv Hs.
  { cbn [string_decode_loop length]. rewrite wraps_id, Z.add_0_r by (unfold in_s; lia). done. }
  inversion_clear Hv as [|? ? Hv1 Hv2].
  rewrite strings_bytes_cons, length_app in Hs, Hm. rewrite strings_bytes_cons, length_app.
  rewrite slice_app in Hs. pose proof (length_string_bytes s) as Ls.
  apply app_inj_1 in Hs as [Hs1 Hs2]; [|rewrite length_slice; lia].
  rewrite Ls, slice_app in Hs1. unfold string_bytes in Hs1.
  apply app_inj_1 in Hs1 as [Hs0 Hs1]; [|rewrite length_slice, enc_length; lia].
  cbn [string_decode_loop length].
  rewrite (u32_id (offset + pos)), (u32_id (maxlen - pos)) by lia.
  pose proof (decode_array_ok K32 [strlen s + 1] buf (offset + pos) (maxlen - pos)) as E.
  rewrite size32 in E. cbn [length] in E. change (Z.of_nat 1) with 1 in E.
  change (Z.of_nat (4 * 1)) with 4 in E. rewrite E; clear E; try lia.
  2:{ constructor; [|done]. apply ok32. unfold strlen, in_s. lia. }
  2:{ rewrite (encoding_cons K32). unfold encoding. simpl. by rewrite app_nil_r. }
  cbn [Z.ltb Z.compare]. unfold strlen in *.
  rewrite (u32_id (pos + 4)), (u32_id (Z.of_nat (length s) + 1)),
    (u32_id (offset + (pos + 4))), (u32_id (maxlen - (pos + 4))) by lia.
  pose proof (decode_array_ok K8 (s ++ [0]) buf (offset + (pos + 4)) (maxlen - (pos + 4))) as E.
  rewrite size8, length_app in E. cbn [length] in E.
  replace (Z.of_nat (length s + 1)) with (Z.of_nat (length s) + 1) in E by lia.
  replace (Z.of_nat (1 * (length s + 1))) with (Z.of_nat (length s) + 1) in E by lia.
  rewrite E; clear E; try lia; [|done|].
  2:{ rewrite <- Hs1. f_equal; lia. }
  rewrite (proj2 (Z.ltb_ge _ _)) by lia.
  rewrite u32_id, IH; try lia; try done.
  - rewrite fmap_cons. do 2 f_equal. lia.
  - etransitivity; [|exact Hs2]. f_equal. lia.
Qed.

Lemma length_strings_bytes p :
  length (strings_bytes p) = (length (concat p) + 5 * length p)%nat.
Proof.
  induction p as [|s p IH]; [done|].
  rewrite strings_bytes_cons, length_app, length_string_bytes, IH. simpl.
  rewrite length_app. lia.
Qed.

Lemma string_size_eq p : Z.of_nat (length (concat p)) + 5 * Z.of_nat (length p) < 2 ^ 31 ->
  __string_encoded_array_size p = Z.of_nat (length (strings_bytes p)).
Proof.
  induction p as [|s p IH]; intros H; [done|]. simpl in H. rewrite length_app in H.
  cbn [__string_encoded_array_size]. rewrite IH by lia.
  rewrite strings_bytes_cons, length_app, length_string_bytes, length_strings_bytes.
  unfold strlen. rewrite u32_id; lia.
Qed.

Lemma strings_roundtrip p buf offset maxlen :
  Forall (fun s => Forall (val_ok K8) (s ++ [0])) p ->
  0 <= offset -> Z.of_nat (length (strings_bytes p)) <= maxlen ->
  offset + maxlen <= Z.of_nat (length buf) -> Z.of_nat (length buf) < 2 ^ 31 ->
  exists buf', string_encode_loop K32 K8 buf offset maxlen 0 p
      = Some (buf', Z.of_nat (length (strings_bytes p))) /\
    string_decode_loop K32 K8 buf' offset maxlen 0 (length p)
      = Some ((fun s => s ++ [0]) <$> p, Z.of_nat (length (strings_bytes p))).
Proof.
  intros Hv Ho Hm Hb Hl. eexists. split.
  - rewrite string_encode_loop_ok by lia. rewrite Z.add_0_l. done.
  - rewrite string_decode_loop_ok; rewrite ?length_write_at, ?Z.add_0_l; try done; try lia.
    apply slice_write_at. lia.
Qed.
End StringFacts.

(** ** Properties *)

(** C12: for every primitive type and byte order, encoding an array into a buffer
    and decoding it from there returns the array and the number of bytes used,
    and touches no byte outside [offset, offset + size); when the space given is
    too small, both functions return -1 and leave the buffer as it was. *)
Theorem array_roundtrip (K : Codec) (p : list Z) (buf : list byte) (offset maxlen : Z) :
  Forall (val_ok K) p ->
  0 <= offset -> offset + maxlen <= Z.of_nat (length buf) ->
  Z.of_nat (length buf) < 2 ^ 31 -> Z.of_nat (size K * length p) < 2 ^ 32 ->
  if Z.of_nat (size K * length p) <=? maxlen then
    exists buf',
      encode_array K buf offset maxlen p (Z.of_nat (length p))
        = Some (buf', Z.of_nat (size K * length p)) /\
      decode_array K buf' offset maxlen (Z.of_nat (length p))
        = Some (p, Z.of_nat (size K * length p)) /\
      length buf' = length buf /\
      (forall i : nat, (Z.of_nat i < offset \/ offset + Z.of_nat (size K * length p) <= Z.of_nat i) ->
        buf' !! i = buf !! i)
  else
    encode_array K buf offset maxlen p (Z.of_nat (length p)) = Some (buf, -1) /\
    decode_array K buf offset maxlen (Z.of_nat (length p)) = Some ([], -1).
Proof.
  intros Hv Ho Hb Hl Hs. case_test.
  - pose proof (length_encoding K p) as Le.
    exists (write_at buf (Z.to_nat offset) (encoding K p)).
    rewrite encode_array_ok by (done || lia). split; [done|].
    rewrite length_write_at by lia. split; [|split; [done|]].
    + apply decode_array_ok; rewrite ?length_write_at; try done; try lia.
      rewrite <- Le. apply slice_write_at. lia.
    + intros i Hi. apply lookup_write_at_ne; lia.
  - unfold encode_array, decode_array, encoded_array_size.
    rewrite u32_id, (proj2 (Z.ltb_lt _ _)) by lia. done.
Qed.

Lemma array_roundtrip_witness :
  exists buf',
    __int16_t_encode_array (replicate 8 0) 1 6 [-2; 300] 2 = Some (buf', 4) /\
    __int16_t_decode_array buf' 1 6 2 = Some ([-2; 300], 4) /\
    length buf' = 8%nat /\
    (forall i : nat, (Z.of_nat i < 1 \/ 1 + 4 <= Z.of_nat i) -> buf' !! i = replicate 8 0 !! i).
Proof.
  apply (array_roundtrip int16_codec [-2; 300] (replicate 8 0) 1 6);
    [repeat constructor; unfold in_s; lia|simpl; lia..].
Defined.

(** the space check of [decode_array] is computed modulo 2^32: with
    2^30 + 1 elements of 4 bytes it asks for 4 bytes only, passes on any buffer
    of 4 bytes or more, and the loop then reads beyond the end of the buffer. *)
Theorem array_size_wraps (buf : list byte) (maxlen : Z) :
  4 <= maxlen <= Z.of_nat (length buf) -> Z.of_nat (length buf) < 2 ^ 32 ->
  encoded_array_size int32_codec (2 ^ 30 + 1) = 4 /\
  __int32_t_decode_array buf 0 maxlen (2 ^ 30 + 1) = None.
Proof.
  intros Hm Hl. split; [done|]. unfold __int32_t_decode_array, decode_array.
  change (encoded_array_size int32_codec (2 ^ 30 + 1)) with 4.
  rewrite (proj2 (Z.ltb_ge _ _)) by lia. rewrite decode_loop_oob; [done|lia|..|done].
  rewrite Nat2Z.inj_mul, Z2Nat.id by lia. cbn [size int32_codec]. lia.
Qed.

Lemma array_size_wraps_witness :
  encoded_array_size int32_codec (2 ^ 30 + 1) = 4 /\
  __int32_t_decode_array [1; 2; 3; 4; 5] 0 5 (2 ^ 30 + 1) = None.
Proof. apply (array_size_wraps [1; 2; 3; 4; 5] 5); simpl; lia. Defined.

(** encoding an array of strings and decoding it returns every string with
    its terminator, in either byte order, and uses exactly the number of bytes
    [__string_encoded_array_size] announces. *)
Theorem string_roundtrip (p : list (list Z)) (buf : list byte) (offset maxlen : Z) :
  Forall (fun s => Forall (in_s 8) s) p ->
  0 <= offset -> __string_encoded_array_size p <= maxlen ->
  Z.of_nat (length (concat p)) + 5 * Z.of_nat (length p) < 2 ^ 31 ->
  offset + maxlen <= Z.of_nat (length buf) -> Z.of_nat (length buf) < 2 ^ 31 ->
  (exists buf', __string_encode_array buf offset maxlen p
      = Some (buf', __string_encoded_array_size p) /\
    __string_decode_array buf' offset maxlen (Z.of_nat (length p))
      = Some ((fun s => s ++ [0]) <$> p, __string_encoded_array_size p)) /\
  (exists buf', __string_encode_little_endian_array buf offset maxlen p
      = Some (buf', __string_encoded_array_size p) /\
    __string_decode_little_endian_array buf' offset maxlen (Z.of_nat (length p))
      = Some ((fun s => s ++ [0]) <$> p, __string_encoded_array_size p)).
Proof.
  intros Hv Ho Hm Hs Hb Hl.
  assert (Forall (fun s => Forall (in_s 8) (s ++ [0])) p) as Hv'.
  { eapply Forall_impl; [done|]. intros s H. apply Forall_app. split; [done|].
    repeat constructor; unfold in_s; lia. }
  split; unfold __string_encode_array, __string_decode_array,
    __string_encode_little_endian_array, __string_decode_little_endian_array.
  - rewrite (string_size_eq int32_codec int8_codec eq_refl eq_refl) in * by done.
    rewrite Nat2Z.id. by apply strings_roundtrip.
  - rewrite (string_size_eq int32_le_codec int8_codec eq_refl eq_refl) in * by done.
    rewrite Nat2Z.id. by apply strings_roundtrip.
Qed.

Lemma string_roundtrip_witness :
  (exists buf', __string_encode_array (replicate 20 7) 2 18 [[65; 66]; []] = Some (buf', 12) /\
    __string_decode_array buf' 2 18 2 = Some ([[65; 66; 0]; [0]], 12)) /\
  (exists buf', __string_encode_little_endian_array (replicate 20 7) 2 18 [[65; 66]; []]
      = Some (buf', 12) /\
    __string_decode_little_endian_array buf' 2 18 2 = Some ([[65; 66; 0]; [0]], 12)).
Proof.
  apply (string_roundtrip [[65; 66]; []] (replicate 20 7) 2 18);
    [repeat constructor; unfold in_s; lia|vm_compute; congruence..].
Defined.

(** The string decoder does not require a terminator: it accepts a string
    whose announced bytes contain none, and an announced length of zero, for
    which the caller receives a null pointer ([zcm_malloc(0)]). *)
Theorem string_decode_unterminated :
  __string_decode_array [0; 0; 0; 2; 65; 66] 0 6 1 = Some ([[65; 66]], 6) /\
  __string_decode_array [0; 0; 0; 0] 0 4 1 = Some ([[]], 4).
Proof. split; reflexivity. Qed.
