(* ===== verification/Bitfield.v ===== *)
(** * Bit fields (zcm/zcm_coretypes.h)

    The encoders and decoders of arrays of bit fields, the most significant bit
    first, for every fixed-point type.  [put] and [get] are the accesses to the
    buffer; an access outside of it has no result. *)
From S2P Require Import Prelude Bytes.
Local Open Scope Z_scope.

Definition __bitfield_encoded_size (numbits : Z) : Z :=
  let size := numbits / 8 in
  if negb (u32 (numbits - u32 (size * 8)) =? 0) then u32 (size + 1) else size.

(** The offset [numbits] further on. *)
Definition __bitfield_advance_offset (offset_byte offset_bit numbits : Z) : Z * Z :=
  let tmp_num_bytes := numbits / 8 in
  let tmp_num_bits := u32 (numbits - tmp_num_bytes * 8) in
  let offset_byte := u32 (offset_byte + tmp_num_bytes) in
  let offset_bit := u32 (offset_bit + tmp_num_bits) in
  if 8 <=? offset_bit then (u32 (offset_byte + 1), offset_bit - 8) else (offset_byte, offset_bit).

(** ** Encoding *)

(** The loop over the bytes of one element, [v] being its unsigned value. *)
Fixpoint encode_bits (fuel : nat) (buf : list byte) (v pos_byte pos_bit bits_left : Z) : option (list byte * Z * Z) :=
  if bits_left =? 0 then Some (buf, pos_byte, pos_bit) else
  match fuel with
  | O => None
  | S fuel =>
      buf <- (if pos_bit =? 0 then put buf pos_byte 0 else Some buf) ;;
      b <- get buf pos_byte ;;
      let shift := pos_bit + bits_left - 8 in
      if shift <? 0 then
        let mask := wrapu 8 (Z.shiftl 1 bits_left - 1) in
        buf <- put buf pos_byte (wrapu 8 (Z.lor b (Z.shiftl (Z.land v mask) (- shift)))) ;;
        Some (buf, pos_byte, pos_bit + bits_left)
      else
        let mask := wrapu 8 (Z.shiftl 1 (bits_left - shift) - 1) in
        buf <- put buf pos_byte (wrapu 8 (Z.lor b (Z.land (Z.shiftr v shift) mask))) ;;
        encode_bits fuel buf v (u32 (pos_byte + 1)) 0 shift
  end.

Fixpoint encode_elements (w : Z) (buf : list byte) (p : list Z) (pos_byte pos_bit numbits : Z) : option (list byte) :=
  match p with
  | [] => Some buf
  | v :: p =>
      '(buf, pos_byte, pos_bit) <- encode_bits (Z.to_nat numbits) buf (wrapu w v) pos_byte pos_bit numbits ;;
      encode_elements w buf p pos_byte pos_bit numbits
  end.

(** [encode_array_bits] for a type of [w] bits: the buffer and the return value. *)
Definition encode_array_bits (w : Z) (buf : list byte) (offset_bytes offset_bits maxbytes : Z) (p : list Z) (numbits : Z)
  : option (list byte * Z) :=
  let total_bits := u32 (Z.of_nat (length p) * numbits) in
  if maxbytes <? __bitfield_encoded_size (u32 (total_bits + offset_bits)) then Some (buf, -1) else
  buf <- encode_elements w buf p offset_bytes offset_bits numbits ;;
  Some (buf, total_bits).

(** ** Decoding *)

(** The type of the elements: its width, and whether it is signed. *)
Record itype := mkIType { iwidth : Z; isigned : bool }.
Definition store (t : itype) (v : Z) : Z := if isigned t then wraps (iwidth t) v else wrapu (iwidth t) v.

(** The loop over the bytes of one element, [p] being its value so far.  Shifting a
    negative value to the left, as the sign-extending decoder does from the second byte on,
    is undefined in C11; the model wraps, as gcc and clang define it. *)
Fixpoint decode_bits (t : itype) (signExtend : bool) (fuel : nat) (buf : list byte) (p pos_byte pos_bit bits_left numbits : Z)
  : option (Z * Z * Z) :=
  if bits_left =? 0 then Some (p, pos_byte, pos_bit) else
  match fuel with
  | O => None
  | S fuel =>
      let available_bits := 8 - pos_bit in
      let bits_covered := if available_bits <? bits_left then available_bits else bits_left in
      let mask := wrapu 8 (Z.shiftl (Z.shiftl 1 bits_covered - 1) (8 - bits_covered - pos_bit)) in
      b <- get buf pos_byte ;;
      let payload := wrapu 8 (Z.shiftl (Z.land b mask) pos_bit) in
      let shift := 8 - bits_left in
      let p :=
        if bits_left =? numbits then
          let first := if signExtend then wraps 8 payload else payload in
          if shift <? 0 then store t (wraps 64 (Z.shiftl first (- shift))) else store t (Z.shiftr first shift)
        else
          if shift <? 0 then store t (Z.lor p (wrapu 64 (Z.shiftl payload (- shift))))
          else store t (Z.lor p (Z.shiftr payload shift)) in
      let bits_left := bits_left - bits_covered in
      let pos_bit := pos_bit + bits_covered in
      if pos_bit =? 8 then decode_bits t signExtend fuel buf p (u32 (pos_byte + 1)) 0 bits_left numbits
      else decode_bits t signExtend fuel buf p pos_byte pos_bit bits_left numbits
  end.

(** The element's old value does not matter: its first byte overwrites it. *)
Fixpoint decode_elements (t : itype) (signExtend : bool) (buf : list byte) (elements : nat) (pos_byte pos_bit numbits : Z)
  : option (list Z) :=
  match elements with
  | O => Some []
  | S elements =>
      '(v, pos_byte, pos_bit) <- decode_bits t signExtend (Z.to_nat numbits) buf 0 pos_byte pos_bit numbits numbits ;;
      vs <- decode_elements t signExtend buf elements pos_byte pos_bit numbits ;;
      Some (v :: vs)
  end.

(** [decode_array_bits] and [decode_array_bits_sign_extend]: the elements, none
    when the buffer is too short, and the return value. *)
Definition decode_array_bits (t : itype) (signExtend : bool) (buf : list byte) (offset_bytes offset_bits maxbytes : Z)
  (elements : nat) (numbits : Z) : option (list Z * Z) :=
  let total_bits := u32 (Z.of_nat elements * numbits) in
  if maxbytes <? __bitfield_encoded_size (u32 (total_bits + offset_bits)) then Some ([], -1) else
  vs <- decode_elements t signExtend buf elements offset_bytes offset_bits numbits ;;
  Some (vs, total_bits).

(** ** Bits of a buffer *)

Definition byte_at (buf : list byte) (k : Z) : byte := default 0 (buf !! Z.to_nat k).

(** Bit [i], counted from the most significant one of the first byte. *)
Definition bit (buf : list byte) (i : Z) : bool := Z.testbit (byte_at buf (i / 8)) (7 - i mod 8).

Lemma bit_at buf k c : 0 <= c < 8 -> bit buf (8 * k + c) = Z.testbit (byte_at buf k) (7 - c).
Proof.
  intros Hc. unfold bit. replace (8 * k + c) with (c + k * 8) by lia.
  rewrite Z.div_add, Z.mod_add, Z.div_small, Z.mod_small by lia. done.
Qed.

Lemma byte_at_insert buf k y k' : 0 <= k < Z.of_nat (length buf) -> 0 <= k' ->
  byte_at (<[Z.to_nat k := y]> buf) k' = if k =? k' then y else byte_at buf k'.
Proof.
  intros Hk Hk'. unfold byte_at. destruct (k =? k') eqn:E; bool_prop.
  - subst. by rewrite list_lookup_insert_eq by lia.
  - by rewrite list_lookup_insert_ne by lia.
Qed.

Lemma bit_insert buf k y i : 0 <= k < Z.of_nat (length buf) -> 0 <= i ->
  bit (<[Z.to_nat k := y]> buf) i = if k =? i / 8 then Z.testbit y (7 - i mod 8) else bit buf i.
Proof.
  intros Hk Hi. unfold bit. rewrite byte_at_insert by (done || apply Z.div_pos; lia). by destruct (k =? i / 8).
Qed.

Lemma get_byte buf k : 0 <= k < Z.of_nat (length buf) -> get buf k = Some (byte_at buf k).
Proof.
  intros Hk. unfold get, byte_at. destruct (lookup_lt_is_Some_2 buf (Z.to_nat k)) as [b ->]; [lia|done].
Qed.

Lemma byte_at_range buf k : bytes_ok buf -> 0 <= byte_at buf k < 256.
Proof.
  intros B. unfold byte_at. destruct (buf !! _) as [b|] eqn:E; [|simpl; lia].
  eapply Forall_lookup_1 in B; [|done]. done.
Qed.

Lemma put_ok buf k y : 0 <= k < Z.of_nat (length buf) -> put buf k y = Some (<[Z.to_nat k := y]> buf).
Proof. intros Hk. unfold put. by rewrite (proj2 (Z.ltb_lt _ _)) by lia. Qed.

Lemma testbit_byte b i : 0 <= b < 256 -> 8 <= i -> Z.testbit b i = false.
Proof. intros Hb Hi. rewrite <- (Z.mod_small b (2 ^ 8)) by (simpl; lia). apply Z.mod_pow2_bits_high. lia. Qed.

(** ** Encoding writes the bits *)

(** The bits behind the position in its byte are clear, unless the byte is new. *)
Definition clear_tail (buf : list byte) (k q : Z) : Prop :=
  q <> 0 -> forall c, q <= c < 8 -> bit buf (8 * k + c) = false.

(** The byte that holds the next [m] of the [n] remaining bits of [v], behind [q] bits. *)
Lemma chunk_bits v q n x : 0 <= q < 8 -> 0 < n ->
  (x = if q + n - 8 <? 0 then Z.shiftl (Z.land v (wrapu 8 (Z.shiftl 1 n - 1))) (- (q + n - 8))
       else Z.land (Z.shiftr v (q + n - 8)) (wrapu 8 (Z.shiftl 1 (n - (q + n - 8)) - 1))) ->
  forall c, 0 <= c < 8 -> Z.testbit x (7 - c) = (q <=? c) && (c <? q + n) && Z.testbit v (n - 1 - (c - q)).
Proof.
  intros Hq Hn -> c Hc.
  assert (forall a, 0 <= a <= 8 -> wrapu 8 (Z.shiftl 1 a - 1) = Z.ones a) as M.
  { intros a Ha. unfold Z.ones. rewrite Z.shiftl_1_l. apply wrapu_id. unfold in_u.
    pose proof (pow2_pos a). pose proof (Z.pow_le_mono_r 2 a 8 ltac:(lia) ltac:(lia)). lia. }
  destruct (q + n - 8 <? 0) eqn:E; bool_prop.
  - rewrite M by lia. rewrite Z.shiftl_spec by lia.
    destruct (c <? q + n) eqn:E1; bool_prop.
    + rewrite Z.land_spec. replace (7 - c - - (q + n - 8)) with (n - 1 - (c - q)) by lia.
      rewrite Z.testbit_ones_nonneg by lia. destruct (q <=? c) eqn:E2; bool_prop; simpl.
      * rewrite (proj2 (Z.ltb_lt _ _)) by lia. by rewrite andb_true_r.
      * rewrite (proj2 (Z.ltb_ge _ _)) by lia. by rewrite andb_false_r.
    + rewrite Z.testbit_neg_r by lia. by destruct (q <=? c).
  - replace (n - (q + n - 8)) with (8 - q) by lia. rewrite M, Z.land_spec, Z.shiftr_spec by lia.
    replace (7 - c + (q + n - 8)) with (n - 1 - (c - q)) by lia. rewrite Z.testbit_ones_nonneg by lia.
    rewrite (proj2 (Z.ltb_lt c (q + n))) by lia. destruct (q <=? c) eqn:E2; bool_prop; simpl.
    + rewrite (proj2 (Z.ltb_lt _ _)) by lia. by rewrite andb_true_r.
    + rewrite (proj2 (Z.ltb_ge _ _)) by lia. by rewrite andb_false_r.
Qed.

(** Writing a chunk: what was in front stays, the bits of [v] follow, then zeros. *)
Lemma write_chunk buf v k q n buf1 x : bytes_ok buf -> 0 <= k < Z.of_nat (length buf) -> 0 <= q < 8 -> 0 < n ->
  clear_tail buf k q ->
  buf1 = (if q =? 0 then <[Z.to_nat k := 0]> buf else buf) ->
  (forall c, 0 <= c < 8 -> Z.testbit x (7 - c) = (q <=? c) && (c <? q + n) && Z.testbit v (n - 1 - (c - q))) ->
  let buf' := <[Z.to_nat k := wrapu 8 (Z.lor (byte_at buf1 k) x)]> buf1 in
  length buf' = length buf /\ bytes_ok buf' /\
  (forall i, 0 <= i < 8 * k + q \/ 8 * k + 8 <= i -> bit buf' i = bit buf i) /\
  (forall c, q <= c < 8 -> bit buf' (8 * k + c) = (c <? q + n) && Z.testbit v (n - 1 - (c - q))).
Proof.
  intros B Hk Hq Hn Ct -> Hx buf'. assert (length buf' = length buf) as L.
  { unfold buf'. rewrite length_insert. destruct (q =? 0); [apply length_insert|done]. }
  assert (0 <= k < Z.of_nat (length (if q =? 0 then <[Z.to_nat k := 0]> buf else buf))) as Hk'.
  { destruct (q =? 0); rewrite ?length_insert; lia. }
  assert (bytes_ok buf') as B'.
  { apply Forall_insert; [destruct (q =? 0); [by apply Forall_insert|done]|]. apply (wrapu_range 8). lia. }
  assert (forall c, 0 <= c < 8 -> bit buf' (8 * k + c) =
    (if q =? 0 then false else bit buf (8 * k + c)) || (q <=? c) && (c <? q + n) && Z.testbit v (n - 1 - (c - q))) as Hb.
  { intros c Hc. rewrite bit_at by done. unfold buf'. rewrite byte_at_insert, Z.eqb_refl by lia.
    unfold wrapu. rewrite Z.mod_pow2_bits_low, Z.lor_spec, Hx by lia. f_equal. destruct (q =? 0).
    - rewrite byte_at_insert, Z.eqb_refl by lia. apply Z.bits_0.
    - by rewrite bit_at. }
  split; [done|]. split; [done|]. split.
  - intros i Hi. destruct (decide (i < 8 * k \/ 8 * k + 8 <= i)) as [Ho|].
    + unfold buf'. assert (i / 8 <> k) by (pose proof (Z.div_mod i 8); pose proof (Z.mod_pos_bound i 8); lia).
      rewrite bit_insert, (proj2 (Z.eqb_neq k (i / 8))) by lia. destruct (q =? 0); [|done].
      by rewrite bit_insert, (proj2 (Z.eqb_neq k (i / 8))) by lia.
    + replace i with (8 * k + (i - 8 * k)) by lia. rewrite Hb by lia. rewrite (proj2 (Z.eqb_neq q 0)) by lia.
      rewrite (proj2 (Z.leb_gt q _)) by lia. simpl. apply orb_false_r.
  - intros c Hc. rewrite Hb, (proj2 (Z.leb_le q c)) by lia. cbn [andb].
    destruct (q =? 0) eqn:E; bool_prop; [done|]. by rewrite Ct by done.
Qed.

(** The end of the byte that [i] bits reach into. *)
Definition up8 (i : Z) : Z := 8 * ((i + 7) / 8).

Lemma up8_spec i : i <= up8 i < i + 8 /\ up8 i mod 8 = 0.
Proof.
  unfold up8. rewrite Z.mul_comm, Z.mod_mul by lia.
  pose proof (Z.div_mod (i + 7) 8). pose proof (Z.mod_pos_bound (i + 7) 8). lia.
Qed.

Lemma up8_mono i j : i <= j -> up8 i <= up8 j.
Proof. intros. unfold up8. pose proof (Z.div_le_mono (i + 7) (j + 7) 8). lia. Qed.

Lemma up8_new k q n : 0 <= q -> 0 < n -> 8 * k + 8 <= up8 (8 * k + q + n).
Proof.
  intros. unfold up8. pose proof (Z.div_le_mono (k * 8 + 8) (8 * k + q + n + 7) 8) as D.
  replace (k * 8 + 8) with ((k + 1) * 8) in D by lia. rewrite Z.div_mul in D; lia.
Qed.

Lemma encode_bits_ok fuel : forall buf v k q n, bytes_ok buf -> 0 <= k -> 0 <= q < 8 -> 0 <= n <= Z.of_nat fuel ->
  8 * k + q + n <= 8 * Z.of_nat (length buf) -> Z.of_nat (length buf) < 2 ^ 32 -> clear_tail buf k q ->
  exists buf' k' q', encode_bits fuel buf v k q n = Some (buf', k', q') /\
    8 * k' + q' = 8 * k + q + n /\ 0 <= q' < 8 /\ length buf' = length buf /\ bytes_ok buf' /\ clear_tail buf' k' q' /\
    (forall i, 0 <= i < 8 * k + q \/ up8 (8 * k + q + n) <= i -> bit buf' i = bit buf i) /\
    (forall j, 0 <= j < n -> bit buf' (8 * k + q + j) = Z.testbit v (n - 1 - j)).
Proof.
  induction fuel as [|fuel IH]; intros buf v k q n B Hk Hq Hn Hl H32 Ct; cbn [encode_bits];
    (destruct (n =? 0) eqn:E; bool_prop; [exists buf, k, q; repeat split; try done; lia|]); [lia|].
  set (buf1 := if q =? 0 then <[Z.to_nat k := 0]> buf else buf).
  assert ((if q =? 0 then put buf k 0 else Some buf) = Some buf1) as ->.
  { unfold buf1. destruct (q =? 0); [apply put_ok; lia|done]. }
  assert (length buf1 = length buf) as L1 by (unfold buf1; destruct (q =? 0); [apply length_insert|done]).
  rewrite get_byte by lia. set (x := if q + n - 8 <? 0 then Z.shiftl (Z.land v (wrapu 8 (Z.shiftl 1 n - 1))) (- (q + n - 8))
       else Z.land (Z.shiftr v (q + n - 8)) (wrapu 8 (Z.shiftl 1 (n - (q + n - 8)) - 1))).
  pose proof (chunk_bits v q n x Hq ltac:(lia) eq_refl) as Hx. pose proof (up8_new k q n ltac:(lia) ltac:(lia)) as Hup.
  pose proof (write_chunk buf v k q n buf1 x B ltac:(lia) Hq ltac:(lia) Ct eq_refl Hx) as W. cbv zeta in W.
  set (buf2 := <[Z.to_nat k := wrapu 8 (Z.lor (byte_at buf1 k) x)]> buf1) in W. destruct W as (L2&B2&Hf&Hc).
  destruct (q + n - 8 <? 0) eqn:Es.
  - replace (Z.shiftl (Z.land v _) (- (q + n - 8))) with x by done. bool_prop.
    rewrite put_ok by lia. fold buf2. exists buf2, k, (q + n). split; [done|]. split; [lia|]. split; [lia|].
    split; [done|]. split; [done|]. split; [|split; [intros i Hi; apply Hf; lia|]].
    + intros _ c Hcc. rewrite Hc by lia. by rewrite (proj2 (Z.ltb_ge _ _)) by lia.
    + intros j Hj. replace (8 * k + q + j) with (8 * k + (q + j)) by lia. rewrite Hc by lia.
      rewrite (proj2 (Z.ltb_lt _ _)) by lia. simpl. f_equal. lia.
  - replace (Z.land (Z.shiftr v (q + n - 8)) _) with x by done. bool_prop.
    rewrite put_ok by lia. fold buf2. rewrite u32_id by lia.
    destruct (IH buf2 v (k + 1) 0 (q + n - 8) B2 ltac:(lia) ltac:(lia) ltac:(lia) ltac:(lia) ltac:(lia))
      as (buf'&k'&q'&->&Hp&Hq'&L'&B'&Ct'&Hf'&Hb'); [by intros []|].
    exists buf', k', q'. split; [done|]. split; [lia|]. split; [done|]. split; [lia|]. split; [done|]. split; [done|]. split.
    + intros i Hi. rewrite Hf'; [apply Hf; lia|]. destruct Hi as [Hi|Hi]; [left; lia|right]. by replace (8 * (k + 1) + 0 + (q + n - 8)) with (8 * k + q + n) by lia.
    + intros j Hj. destruct (decide (q + j < 8)).
      * rewrite Hf' by lia. replace (8 * k + q + j) with (8 * k + (q + j)) by lia. rewrite Hc by lia.
        rewrite (proj2 (Z.ltb_lt _ _)) by lia. simpl. f_equal. lia.
      * replace (8 * k + q + j) with (8 * (k + 1) + 0 + (q + j - 8)) by lia. rewrite Hb' by lia. f_equal. lia.
Qed.

(** ** Decoding reads them *)

(** A byte's bits from [q] on, [m] of them, moved to the top. *)
Lemma payload_bits b q m j : 0 <= b < 256 -> 0 <= q -> 0 < m -> q + m <= 8 -> 0 <= j ->
  Z.testbit (wrapu 8 (Z.shiftl (Z.land b (wrapu 8 (Z.shiftl (Z.shiftl 1 m - 1) (8 - m - q)))) q)) j =
  (8 - m <=? j) && (j <? 8) && Z.testbit b (j - q).
Proof.
  intros Hb Hq Hm Hqm Hj. unfold wrapu. destruct (j <? 8) eqn:E8; bool_prop.
  2: { rewrite Z.mod_pow2_bits_high by lia. by rewrite andb_false_r. }
  rewrite Z.mod_pow2_bits_low, Z.shiftl_spec, andb_true_r by lia. destruct (decide (j < q)).
  { rewrite Z.testbit_neg_r by lia. rewrite (Z.testbit_neg_r b) by lia. by rewrite andb_false_r. }
  rewrite Z.land_spec, Z.mod_pow2_bits_low, Z.shiftl_spec by lia.
  replace (Z.shiftl 1 m - 1) with (Z.ones m) by (unfold Z.ones; lia). rewrite andb_comm. f_equal.
  destruct (8 - m <=? j) eqn:E; bool_prop.
  - rewrite Z.testbit_ones_nonneg by lia. apply Z.ltb_lt. lia.
  - apply Z.testbit_neg_r. lia.
Qed.

(** From its sign bit on, all bits of a signed number are the same. *)
Lemma sign_bits w z j : 0 < w -> in_s w z -> w - 1 <= j -> Z.testbit z j = (z <? 0).
Proof.
  intros Hw Hz Hj. unfold in_s in Hz.
  assert (forall y, 0 <= y < 2 ^ (w - 1) -> Z.testbit y j = false) as H.
  { intros y Hy. rewrite <- (Z.mod_small y (2 ^ (w - 1))) by lia. apply Z.mod_pow2_bits_high. lia. }
  destruct (z <? 0) eqn:E; bool_prop; [|apply H; lia]. rewrite <- (Z.lnot_involutive z), Z.lnot_spec by lia.
  rewrite H; [done|]. unfold Z.lnot. lia.
Qed.

Lemma wraps_bits w v j : 0 < w -> 0 <= j -> Z.testbit (wraps w v) j = Z.testbit v (if j <? w then j else w - 1).
Proof.
  intros Hw Hj. assert (forall i, 0 <= i < w -> Z.testbit (wraps w v) i = Z.testbit v i) as L.
  { intros i Hi. rewrite <- (Z.mod_pow2_bits_low (wraps w v) w i), <- (Z.mod_pow2_bits_low v w i) by lia. f_equal.
    unfold wraps. rewrite Zminus_mod_idemp_l. f_equal. lia. }
  destruct (j <? w) eqn:E; bool_prop; [apply L; lia|]. rewrite <- L by lia.
  pose proof (wraps_range w v Hw). by rewrite !(sign_bits w) by (done || lia).
Qed.

(** The number [r] has the [n] bits from bit [i] on, and above them the sign or zeros. *)
Definition has_bits (buf : list byte) (s : bool) (i n r : Z) : Prop :=
  forall j, 0 <= j -> Z.testbit r j = if j <? n then bit buf (i + n - 1 - j) else s && bit buf i.

(** The part of [r] above its [d] low bits. *)
Definition upper (r d : Z) : Z := Z.shiftl (Z.shiftr r d) d.

Lemma upper_bits r d j : 0 <= d -> 0 <= j -> Z.testbit (upper r d) j = (d <=? j) && Z.testbit r j.
Proof.
  intros Hd Hj. unfold upper. rewrite Z.shiftl_spec by lia. destruct (d <=? j) eqn:E; bool_prop.
  - rewrite Z.shiftr_spec by lia. simpl. f_equal. lia.
  - apply Z.testbit_neg_r. lia.
Qed.

Definition in_type (t : itype) (r : Z) : Prop := if isigned t then in_s (iwidth t) r else in_u (iwidth t) r.

Lemma store_upper t r d : 1 <= iwidth t -> in_type t r -> 0 <= d < iwidth t -> store t (upper r d) = upper r d.
Proof.
  intros Hw Hr Hd. unfold store, in_type in *. assert (upper r d = r - r mod 2 ^ d) as U.
  { unfold upper. rewrite Z.shiftl_mul_pow2, Z.shiftr_div_pow2 by lia. pose proof (pow2_pos d ltac:(lia)).
    pose proof (Z.div_mod r (2 ^ d) ltac:(lia)). lia. }
  pose proof (pow2_pos d ltac:(lia)) as Pd. pose proof (Z.mod_pos_bound r (2 ^ d) Pd) as Bd. destruct (isigned t).
  - apply wraps_id; [lia|]. unfold in_s in *. split; [|lia]. rewrite U.
    assert (2 ^ (iwidth t - 1) = 2 ^ (iwidth t - 1 - d) * 2 ^ d) as P by (rewrite <- Z.pow_add_r by lia; f_equal; lia).
    pose proof (Z.div_mod r (2 ^ d) ltac:(lia)) as D. assert (- 2 ^ (iwidth t - 1 - d) <= r / 2 ^ d) by (apply Z.div_le_lower_bound; lia).
    nia.
  - apply wrapu_id. unfold in_u in *. rewrite U. pose proof (Z.mod_le r (2 ^ d)). lia.
Qed.

(** The field leaves the sign of its type alone. *)
Definition field_ok (t : itype) (s : bool) (n : Z) : Prop :=
  1 <= n <= iwidth t /\ iwidth t <= 64 /\ (isigned t = true -> s = false -> n < iwidth t) /\
  (isigned t = false -> iwidth t = 8 /\ s = false).

Definition payload_of (b q m : Z) : Z :=
  wrapu 8 (Z.shiftl (Z.land b (wrapu 8 (Z.shiftl (Z.shiftl 1 m - 1) (8 - m - q)))) q).

Lemma payload_bit buf k q m j : bytes_ok buf -> 0 <= q -> 0 < m -> q + m <= 8 -> 0 <= j ->
  Z.testbit (payload_of (byte_at buf k) q m) j = (8 - m <=? j) && (j <? 8) && bit buf (8 * k + q + 7 - j).
Proof.
  intros B Hq Hm Hqm Hj. unfold payload_of. rewrite payload_bits by (done || by apply byte_at_range).
  destruct (8 - m <=? j) eqn:E1, (j <? 8) eqn:E2; bool_prop; try done. simpl.
  replace (8 * k + q + 7 - j) with (8 * k + (q + 7 - j)) by lia. rewrite bit_at by lia. f_equal. lia.
Qed.

Lemma first_chunk t s buf k q n m r : bytes_ok buf -> field_ok t s n -> in_type t r -> 0 <= q -> 0 < m <= n -> q + m <= 8 ->
  has_bits buf s (8 * k + q) n r ->
  let first := if s then wraps 8 (payload_of (byte_at buf k) q m) else payload_of (byte_at buf k) q m in
  (if 8 - n <? 0 then store t (wraps 64 (Z.shiftl first (- (8 - n)))) else store t (Z.shiftr first (8 - n))) = upper r (n - m).
Proof.
  intros B (Hn&Hw&Hs&Hu) Hr Hq Hm Hqm Hb first.
  assert (forall j, 0 <= j -> Z.testbit first j =
    if j <? 8 then (8 - m <=? j) && bit buf (8 * k + q + 7 - j) else s && bit buf (8 * k + q)) as F.
  { intros j Hj. unfold first. destruct s.
    - rewrite wraps_bits, payload_bit by (first [done|lia|case_match; lia]). destruct (j <? 8) eqn:E; bool_prop.
      + rewrite (proj2 (Z.ltb_lt j 8)) by lia. by rewrite andb_true_r.
      + change (8 - 1) with 7. change (7 <? 8) with true. rewrite (proj2 (Z.leb_le (8 - m) 7)) by lia. simpl. f_equal. lia.
    - rewrite payload_bit by (done || lia). destruct (j <? 8); [by rewrite andb_true_r|]. by rewrite andb_false_r. }
  assert (forall j, 0 <= j -> 0 <= j + 8 - n -> Z.testbit first (j + 8 - n) = (n - m <=? j) && Z.testbit r j) as G.
  { intros j Hj Hj'. rewrite F, Hb by done. destruct (j <? n) eqn:E; bool_prop.
    - rewrite (proj2 (Z.ltb_lt _ _)) by lia. destruct (n - m <=? j) eqn:E2; bool_prop.
      + rewrite (proj2 (Z.leb_le _ _)) by lia. simpl. f_equal. lia.
      + by rewrite (proj2 (Z.leb_gt _ _)) by lia.
    - rewrite (proj2 (Z.ltb_ge _ _)), (proj2 (Z.leb_le (n - m) j)) by lia. done. }
  destruct (8 - n <? 0) eqn:E8; bool_prop.
  - assert (wraps 64 (Z.shiftl first (- (8 - n))) = upper r (n - m)) as ->; [|apply store_upper; [lia|done|lia]].
    apply Z.bits_inj'. intros j Hj. rewrite wraps_bits, upper_bits by lia.
    assert (forall i, 0 <= i -> Z.testbit (Z.shiftl first (- (8 - n))) i = (n - m <=? i) && Z.testbit r i) as Sh.
    { intros i Hi. rewrite Z.shiftl_spec by lia. destruct (decide (0 <= i + 8 - n)).
      - rewrite <- G by lia. f_equal. lia.
      - rewrite Z.testbit_neg_r by lia. by rewrite (proj2 (Z.leb_gt _ _)) by lia. }
    destruct (j <? 64) eqn:E64; bool_prop; [by apply Sh|]. rewrite Sh by lia.
    rewrite !(proj2 (Z.leb_le _ _)) by lia. cbn [andb]. rewrite !Hb by lia. rewrite (proj2 (Z.ltb_ge j n)) by lia.
    destruct (64 - 1 <? n) eqn:En; bool_prop; [|done]. assert (n = 64) as -> by lia.
    assert (s = true) as ->.
    { destruct s; [done|]. destruct (isigned t); [specialize (Hs eq_refl eq_refl); lia|]. destruct (Hu eq_refl). lia. }
    simpl. f_equal. lia.
  - assert (Z.shiftr first (8 - n) = upper r (n - m)) as ->; [|apply store_upper; [lia|done|lia]].
    apply Z.bits_inj'. intros j Hj. rewrite Z.shiftr_spec, upper_bits, <- G by lia. f_equal. lia.
Qed.

Lemma next_chunk t s buf k q i n bl m r : bytes_ok buf -> field_ok t s n -> in_type t r -> 0 <= q -> 0 < m <= bl -> bl < n ->
  q + m <= 8 -> 8 * k + q = i + n - bl -> has_bits buf s i n r ->
  (if 8 - bl <? 0 then store t (Z.lor (upper r bl) (wrapu 64 (Z.shiftl (payload_of (byte_at buf k) q m) (- (8 - bl)))))
   else store t (Z.lor (upper r bl) (Z.shiftr (payload_of (byte_at buf k) q m) (8 - bl)))) = upper r (bl - m).
Proof.
  intros B (Hn&Hw&_&_) Hr Hq Hm Hbl Hqm HP Hb. set (y := payload_of (byte_at buf k) q m).
  assert (forall j, 0 <= j -> 0 <= j + 8 - bl -> Z.testbit y (j + 8 - bl) = (bl - m <=? j) && (j <? bl) && Z.testbit r j) as G.
  { intros j Hj Hj'. unfold y. rewrite payload_bit by (done || lia).
    destruct (j <? bl) eqn:E; bool_prop; [|rewrite (proj2 (Z.ltb_ge _ 8)) by lia; by rewrite !andb_false_r].
    rewrite (proj2 (Z.ltb_lt _ 8)), Hb, (proj2 (Z.ltb_lt j n)) by lia. destruct (bl - m <=? j) eqn:E2; bool_prop.
    - rewrite (proj2 (Z.leb_le _ _)) by lia. simpl. f_equal. lia.
    - by rewrite (proj2 (Z.leb_gt _ _)) by lia. }
  assert (forall z, (forall j, 0 <= j -> Z.testbit z j = (bl - m <=? j) && (j <? bl) && Z.testbit r j) ->
    store t (Z.lor (upper r bl) z) = upper r (bl - m)) as K.
  { intros z Hz. assert (Z.lor (upper r bl) z = upper r (bl - m)) as ->; [|apply store_upper; [lia|done|lia]].
    apply Z.bits_inj'. intros j Hj. rewrite Z.lor_spec, !upper_bits, Hz by lia.
    destruct (bl <=? j) eqn:E1, (j <? bl) eqn:E2; bool_prop; try lia; simpl.
    - rewrite (proj2 (Z.leb_le (bl - m) j)) by lia. simpl. apply orb_false_r.
    - by destruct (bl - m <=? j). }
  destruct (8 - bl <? 0) eqn:E8; bool_prop; apply K; intros j Hj.
  - unfold wrapu. destruct (decide (j < 64)).
    + rewrite Z.mod_pow2_bits_low, Z.shiftl_spec by lia. destruct (decide (0 <= j + 8 - bl)).
      * rewrite <- G by lia. f_equal. lia.
      * rewrite Z.testbit_neg_r by lia. by rewrite (proj2 (Z.leb_gt _ _)) by lia.
    + rewrite Z.mod_pow2_bits_high by lia. rewrite (proj2 (Z.ltb_ge j bl)) by lia. by rewrite andb_false_r.
  - rewrite Z.shiftr_spec, <- G by lia. f_equal. lia.
Qed.

Lemma upper_0 r : upper r 0 = r.
Proof. unfold upper. by rewrite Z.shiftl_0_r, Z.shiftr_0_r. Qed.

Lemma decode_bits_ok t s fuel : forall buf p k q i n bl r, bytes_ok buf -> field_ok t s n -> in_type t r ->
  0 <= k -> 0 <= q < 8 -> 0 <= bl <= n -> bl <= Z.of_nat fuel -> 8 * k + q = i + n - bl ->
  8 * k + q + bl <= 8 * Z.of_nat (length buf) -> Z.of_nat (length buf) < 2 ^ 32 ->
  has_bits buf s i n r -> (bl < n -> p = upper r bl) ->
  exists k' q', decode_bits t s fuel buf p k q bl n = Some (r, k', q') /\ 8 * k' + q' = i + n /\ 0 <= q' < 8.
Proof.
  induction fuel as [|fuel IH]; intros buf p k q i n bl r B Hf Hr Hk Hq Hbl Hfu HP Hl H32 Hb Hp; cbn [decode_bits];
    pose proof Hf as [Hn _];
    (destruct (bl =? 0) eqn:E0; bool_prop;
      [exists k, q; split; [rewrite Hp, E0, upper_0 by lia; done|lia]|]); [lia|].
  rewrite get_byte by lia. set (m := if 8 - q <? bl then 8 - q else bl).
  assert (0 < m <= bl /\ q + m <= 8) as [Hm Hqm] by (unfold m; case_match; bool_prop; lia).
  fold (payload_of (byte_at buf k) q m).
  match goal with |- context [if bl =? n then ?a else ?b] => assert ((if bl =? n then a else b) = upper r (bl - m)) as -> end.
  { destruct (bl =? n) eqn:En; bool_prop.
    - subst bl. replace i with (8 * k + q) in Hb by lia. apply (first_chunk t s buf k q n m r); (done || lia).
    - rewrite Hp by lia. apply (next_chunk t s buf k q i n bl m r); (done || lia). }
  assert (0 <= bl - m /\ (bl - m < n)) as [Hd Hd'] by lia.
  destruct (q + m =? 8) eqn:E8; bool_prop.
  - rewrite u32_id by lia. apply (IH buf _ (k + 1) 0 i n (bl - m) r); (done || lia).
  - apply (IH buf _ k (q + m) i n (bl - m) r); (done || lia).
Qed.

(** ** Arrays *)

(** The value that comes back: the low bits, sign extended or not. *)
Definition truncated (s : bool) (n v : Z) : Z := if s then wraps n v else wrapu n v.

Lemma truncated_bits s n v j : 0 < n -> 0 <= j ->
  Z.testbit (truncated s n v) j = if j <? n then Z.testbit v j else s && Z.testbit v (n - 1).
Proof.
  intros Hn Hj. unfold truncated. destruct s.
  - rewrite wraps_bits by done. by destruct (j <? n).
  - unfold wrapu. destruct (j <? n) eqn:E; bool_prop; [by apply Z.mod_pow2_bits_low|apply Z.mod_pow2_bits_high; lia].
Qed.

Lemma truncated_in_type t s n v : field_ok t s n -> in_type t (truncated s n v).
Proof.
  intros (Hn&Hw&Hs&Hu). unfold in_type, truncated. destruct (isigned t), s.
  - pose proof (wraps_range n v ltac:(lia)) as R. unfold in_s in *.
    pose proof (Z.pow_le_mono_r 2 (n - 1) (iwidth t - 1) ltac:(lia) ltac:(lia)). lia.
  - pose proof (wrapu_range n v ltac:(lia)) as R. unfold in_s, in_u in *. specialize (Hs eq_refl eq_refl).
    pose proof (Z.pow_le_mono_r 2 n (iwidth t - 1) ltac:(lia) ltac:(lia)). pose proof (pow2_pos (iwidth t - 1)). lia.
  - destruct (Hu eq_refl). done.
  - pose proof (wrapu_range n v ltac:(lia)) as R. unfold in_u in *.
    pose proof (Z.pow_le_mono_r 2 n (iwidth t) ltac:(lia) ltac:(lia)). lia.
Qed.

(** The bits of an array: the fields one after another. *)
Fixpoint array_bits (buf : list byte) (i n : Z) (vs : list Z) : Prop :=
  match vs with
  | [] => True
  | v :: vs => (forall j, 0 <= j < n -> bit buf (i + j) = Z.testbit v (n - 1 - j)) /\ array_bits buf (i + n) n vs
  end.

Lemma encode_elements_ok w n vs : 1 <= n <= w -> forall buf k q, bytes_ok buf -> 0 <= k -> 0 <= q < 8 ->
  8 * k + q + n * Z.of_nat (length vs) <= 8 * Z.of_nat (length buf) -> Z.of_nat (length buf) < 2 ^ 32 -> clear_tail buf k q ->
  exists buf' k' q', encode_elements w buf vs k q n = Some buf' /\ length buf' = length buf /\ bytes_ok buf' /\
    8 * k' + q' = 8 * k + q + n * Z.of_nat (length vs) /\ 0 <= q' < 8 /\ clear_tail buf' k' q' /\
    (forall i, 0 <= i < 8 * k + q \/ up8 (8 * k + q + n * Z.of_nat (length vs)) <= i -> bit buf' i = bit buf i) /\
    array_bits buf' (8 * k + q) n vs.
Proof.
  intros Hn. induction vs as [|v vs IH]; intros buf k q B Hk Hq Hl H32 Ct; cbn [encode_elements length array_bits] in *.
  { exists buf, k, q. repeat split; (done || lia). }
  destruct (encode_bits_ok (Z.to_nat n) buf (wrapu w v) k q n B Hk Hq ltac:(lia) ltac:(nia) H32 Ct)
    as (buf1&k1&q1&->&HP&Hq1&L1&B1&Ct1&Hf1&Hb1).
  destruct (IH buf1 k1 q1 B1 ltac:(lia) Hq1 ltac:(nia) ltac:(lia) Ct1) as (buf2&k2&q2&->&L2&B2&HP2&Hq2&Ct2&Hf2&Hb2).
  exists buf2, k2, q2. split; [done|]. split; [lia|]. split; [done|]. rewrite HP in *. split; [lia|]. split; [done|]. split; [done|].
  replace (8 * k + q + n * Z.of_nat (S (length vs))) with (8 * k + q + n + n * Z.of_nat (length vs)) by lia. split; [|split].
  - intros i Hi. pose proof (up8_mono (8 * k + q + n) (8 * k + q + n + n * Z.of_nat (length vs)) ltac:(lia)).
    rewrite Hf2 by lia. apply Hf1. lia.
  - intros j Hj. rewrite Hf2, Hb1 by lia. unfold wrapu. apply Z.mod_pow2_bits_low. lia.
  - done.
Qed.

Lemma decode_elements_ok t s n vs buf : bytes_ok buf -> field_ok t s n -> Z.of_nat (length buf) < 2 ^ 32 -> forall k q,
  0 <= k -> 0 <= q < 8 -> 8 * k + q + n * Z.of_nat (length vs) <= 8 * Z.of_nat (length buf) -> array_bits buf (8 * k + q) n vs ->
  decode_elements t s buf (length vs) k q n = Some (truncated s n <$> vs).
Proof.
  intros B F H32. pose proof F as [Hn _]. induction vs as [|v vs IH]; intros k q Hk Hq Hl A; cbn [decode_elements length fmap list_fmap] in *; [done|].
  destruct A as [A1 A2].
  destruct (decode_bits_ok t s (Z.to_nat n) buf 0 k q (8 * k + q) n n (truncated s n v)) as (k1&q1&->&HP&Hq1);
    [done|done|by apply truncated_in_type|lia|lia|lia|lia|lia|nia|lia| |lia|].
  - intros j Hj. rewrite truncated_bits by lia. destruct (j <? n) eqn:E; bool_prop.
    + replace (8 * k + q + n - 1 - j) with (8 * k + q + (n - 1 - j)) by lia. rewrite A1 by lia. f_equal. lia.
    + f_equal. replace (8 * k + q) with (8 * k + q + 0) by lia. rewrite A1 by lia. f_equal. lia.
  - rewrite (IH k1 q1); [done|lia|lia|nia|]. by rewrite HP.
Qed.

Lemma bitfield_size b : 0 <= b < 2 ^ 32 - 8 -> 8 * __bitfield_encoded_size b = up8 b.
Proof.
  intros Hb. unfold __bitfield_encoded_size, up8. pose proof (Z.div_mod b 8 ltac:(lia)). pose proof (Z.mod_pos_bound b 8 ltac:(lia)).
  pose proof (Z.div_mod (b + 7) 8 ltac:(lia)). pose proof (Z.mod_pos_bound (b + 7) 8 ltac:(lia)).
  rewrite !u32_id by (rewrite ?u32_id; lia). destruct (negb _) eqn:En; bool_prop; lia.
Qed.

Lemma bitfield_advance k q n : 0 <= k -> 0 <= q < 8 -> 0 <= n -> 8 * k + q + n < 2 ^ 32 ->
  exists k' q', __bitfield_advance_offset k q n = (k', q') /\ 8 * k' + q' = 8 * k + q + n /\ 0 <= q' < 8.
Proof.
  intros Hk Hq Hn Hl. unfold __bitfield_advance_offset. pose proof (Z.div_mod n 8 ltac:(lia)). pose proof (Z.mod_pos_bound n 8 ltac:(lia)).
  rewrite !u32_id by (rewrite ?u32_id; lia). destruct (8 <=? _) eqn:E; bool_prop; do 2 eexists; (split; [done|]); lia.
Qed.

(** C36: an array of bit fields that was encoded anywhere in a buffer, also in the
    middle of a byte, is decoded to the same values, each cut to its bits and
    sign extended when the decoder is the sign-extending one; the bits in front
    of it are untouched.  The encoder ORs into a byte it does not start, so in the middle
    of a byte the rest of this byte has to be zero ([clear_tail]), as the field in front
    leaves it (the encoder stores each byte it starts).  The buffer is shorter than
    2^29 - 1 bytes and has room for the field, and the field has 1 to as many bits as its
    type, which is uint8_t or signed; without sign extension a signed type is wider than
    the field ([field_ok]). *)
Theorem bitfield_roundtrip t s n (vs : list Z) buf k q maxbytes : bytes_ok buf -> field_ok t s n ->
  0 <= k -> 0 <= q < 8 -> clear_tail buf k q -> Z.of_nat (length buf) < 2 ^ 29 - 1 -> k + maxbytes <= Z.of_nat (length buf) ->
  q + n * Z.of_nat (length vs) <= 8 * maxbytes ->
  exists buf', encode_array_bits (iwidth t) buf k q maxbytes vs n = Some (buf', n * Z.of_nat (length vs)) /\
    length buf' = length buf /\ (forall i, 0 <= i < 8 * k + q -> bit buf' i = bit buf i) /\
    decode_array_bits t s buf' k q maxbytes (length vs) n = Some (truncated s n <$> vs, n * Z.of_nat (length vs)).
Proof.
  intros B F Hk Hq Ct Hl Hm Hv. pose proof F as [Hn _].
  destruct (encode_elements_ok (iwidth t) n vs Hn buf k q B Hk Hq ltac:(lia) ltac:(lia) Ct)
    as (buf'&_&_&E&L&B'&_&_&_&Hf&A).
  exists buf'. unfold encode_array_bits, decode_array_bits.
  assert (u32 (Z.of_nat (length vs) * n) = n * Z.of_nat (length vs)) as -> by (rewrite u32_id; nia).
  rewrite u32_id by nia.
  assert (maxbytes <? __bitfield_encoded_size (n * Z.of_nat (length vs) + q) = false) as ->.
  { apply Z.ltb_ge. pose proof (bitfield_size (n * Z.of_nat (length vs) + q) ltac:(nia)).
    pose proof (up8_spec (n * Z.of_nat (length vs) + q)). lia. }
  rewrite E. split; [done|]. split; [done|]. split; [intros i Hi; apply Hf; by left|].
  by rewrite (decode_elements_ok t s n vs buf' B' F ltac:(lia) k q Hk Hq ltac:(lia) A).
Qed.

(** Fields of three sign-extended bits, behind two other bits. *)
Lemma bitfield_roundtrip_witness : exists buf',
  encode_array_bits 8 [64; 0; 0] 0 2 3 [3; -4; 7; -1] 3 = Some (buf', 12) /\ length buf' = 3%nat /\
  (forall i, 0 <= i < 8 * 0 + 2 -> bit buf' i = bit [64; 0; 0] i) /\
  decode_array_bits (mkIType 8 true) true buf' 0 2 3 4 3 = Some (truncated true 3 <$> [3; -4; 7; -1], 12).
Proof.
  apply (bitfield_roundtrip (mkIType 8 true) true 3 [3; -4; 7; -1] [64; 0; 0] 0 2 3); try (vm_compute; split; congruence).
  - repeat constructor; lia.
  - split; [simpl; lia|]. split; [simpl; lia|]. split; [done|]. done.
  - lia.
  - intros _ c Hc. assert (c = 2 \/ c = 3 \/ c = 4 \/ c = 5 \/ c = 6 \/ c = 7) as [->|[->|[->|[->|[->| ->]]]]] by lia; reflexivity.
  - simpl. lia.
  - simpl. lia.
Defined.
