(* ===== verification/Queue.v ===== *)
(** * The message queues (zcm/util/queue.hpp, zcm/util/threadsafe_queue.hpp)

    [Queue] is the ring buffer of queue.hpp: raw storage for [capacity]
    elements, a [front] index and a [back] index, one slot always left free.
    [TSQ] is the mutex-protected wrapper of threadsafe_queue.hpp, each of its
    operations being one critical section.  [Spec] is the bounded FIFO both
    promise; [rep] relates a ring to the list it holds. *)
From S2P Require Import Prelude.

Module Queue.
Section Queue.
Context {A : Type}.

(** [queue] is the byte array seen as slots: [None] is raw memory in which no
    element has been constructed (or whose element has been destroyed). *)
Record t := mk {
  queue : list (option A);
  capacity : nat;
  front : nat;
  back : nat
}.

Definition create (capacity : nat) : t := mk (replicate capacity None) capacity 0 0.

Definition incIdx (q : t) (i : nat) : nat :=
  let nextIdx := i + 1 in
  if nextIdx =? capacity q then 0 else nextIdx.

Definition getCapacity (q : t) : nat := capacity q.

Definition hasFreeSpace (q : t) : bool := negb (front q =? incIdx q (back q)).

Definition hasMessage (q : t) : bool := negb (front q =? back q).

Definition numMessages (q : t) : nat :=
  if front q <=? back q then back q - front q
  else capacity q - (front q - back q).

(** Construct an element in slot [back]: the assertion, then the placement new,
    which writes outside the storage when [back] is not an index of it. *)
Definition push (q : t) (a : A) : option t :=
  check hasFreeSpace q ;;
  check back q <? length (queue q) ;;
  Some (mk (<[back q := Some a]> (queue q)) (capacity q) (front q) (incIdx q (back q))).

(** The element in slot [i]; reading raw or foreign memory has no result. *)
Definition slot (q : t) (i : nat) : option A := mjoin (queue q !! i).

Definition top (q : t) : option A :=
  check hasMessage q ;; slot q (front q).

(** Destroy the element in slot [front]. *)
Definition pop (q : t) : option t :=
  check hasMessage q ;;
  _ <- slot q (front q) ;;
  Some (mk (<[front q := None]> (queue q)) (capacity q) (incIdx q (front q)) (back q)).

(** The copying loop of [setCapacity]; [room] is [capacity - newBack] for the
    new capacity, so the loop makes at most [room] turns. *)
Fixpoint copyLoop (room : nat) (q : t) (newQueue : list (option A)) (newBack : nat)
  : option (list (option A) * nat) :=
  match room with
  | 0 => Some (newQueue, newBack)
  | S room =>
      if hasMessage q then
        msg <- top q ;;
        copyLoop room
          (mk (queue q) (capacity q) (incIdx q (front q)) (back q))
          (<[newBack := Some msg]> newQueue) (newBack + 1)
      else Some (newQueue, newBack)
  end.

Definition setCapacity (q : t) (capacity : nat) : option t :=
  '(newQueue, newBack) <- copyLoop capacity q (replicate capacity None) 0 ;;
  Some (mk newQueue capacity 0 newBack).

(** ~Queue: destroy what is left, in order.  A queue of capacity [c] holds
    fewer than [c] elements, so [c] turns are enough ([destroy_total]). *)
Fixpoint destroyLoop (fuel : nat) (q : t) : option (list A) :=
  if hasMessage q then
    match fuel with
    | 0 => None
    | S fuel =>
        a <- top q ;;
        q' <- pop q ;;
        l <- destroyLoop fuel q' ;;
        Some (a :: l)
    end
  else Some [].

Definition destroy (q : t) : option (list A) := destroyLoop (capacity q) q.

(** ** The list a ring holds *)

Record rep (q : t) (l : list A) : Prop := {
  rep_len : length (queue q) = capacity q;
  rep_room : length l < capacity q;
  rep_front : front q < capacity q;
  rep_back : back q = (front q + length l) mod capacity q;
  rep_elt : forall i a, l !! i = Some a ->
              queue q !! ((front q + i) mod capacity q) = Some (Some a)
}.

Lemma incIdx_mod q i : i < capacity q -> incIdx q i = (i + 1) mod capacity q.
Proof. intros H. unfold incIdx. rewrite mod_wrap by lia. repeat case_test; lia. Qed.

Lemma incIdx_add q i : front q < capacity q -> i < capacity q ->
  incIdx q ((front q + i) mod capacity q) = (front q + (i + 1)) mod capacity q.
Proof.
  intros Hf Hi. rewrite incIdx_mod by (apply Nat.mod_upper_bound; lia).
  rewrite Nat.Div0.add_mod_idemp_l. f_equal. lia.
Qed.

Lemma rep_create c : 0 < c -> rep (create c) [].
Proof.
  intros. split; simpl; try done; [by rewrite length_replicate | ].
  by rewrite Nat.mod_small.
Qed.

Section with_rep.
Context (q : t) (l : list A) (R : rep q l).

Lemma numMessages_rep : numMessages q = length l.
Proof.
  destruct R. unfold numMessages. rewrite rep_back0, mod_wrap by lia.
  repeat case_test; lia.
Qed.

Lemma hasMessage_rep : hasMessage q = negb (length l =? 0).
Proof.
  destruct R. unfold hasMessage. rewrite rep_back0, mod_wrap by lia.
  f_equal. apply eq_true_iff_eq. rewrite !Nat.eqb_eq. case_test; lia.
Qed.

Lemma hasFreeSpace_rep : hasFreeSpace q = (length l + 1 <? capacity q).
Proof.
  destruct R. unfold hasFreeSpace.
  rewrite rep_back0, incIdx_add, mod_wrap by lia.
  apply eq_true_iff_eq. rewrite negb_true_iff, Nat.eqb_neq, Nat.ltb_lt.
  case_test; lia.
Qed.

Lemma top_rep : top q = head l.
Proof.
  unfold top, slot. rewrite hasMessage_rep. destruct R, l as [|a l']; [done|]. simpl.
  specialize (rep_elt0 0 a eq_refl).
  rewrite Nat.add_0_r, Nat.mod_small in rep_elt0 by lia. by rewrite rep_elt0.
Qed.

Lemma push_rep a : length l + 1 < capacity q ->
  exists q', push q a = Some q' /\ rep q' (l ++ [a]) /\ capacity q' = capacity q.
Proof.
  intros Hroom. unfold push. rewrite hasFreeSpace_rep.
  rewrite (proj2 (Nat.ltb_lt _ _) Hroom).
  destruct R. assert (back q < capacity q) as Hb.
  { rewrite rep_back0. apply Nat.mod_upper_bound. lia. }
  rewrite rep_len0, (proj2 (Nat.ltb_lt _ _) Hb).
  eexists. split_and!; [done| |done]. split; simpl.
  - by rewrite length_insert.
  - rewrite length_app. simpl. lia.
  - done.
  - rewrite rep_back0, incIdx_add by lia. rewrite length_app. done.
  - intros i b Hi. apply lookup_snoc_Some in Hi as [[Hi Hl]|[-> ->]].
    + rewrite list_lookup_insert_ne; [by apply rep_elt0|].
      rewrite rep_back0. intros E. apply ring_inj in E; lia.
    + rewrite rep_back0. apply list_lookup_insert_eq. rewrite rep_len0. by rewrite <- rep_back0.
Qed.

Lemma pop_rep : l <> [] ->
  exists q', pop q = Some q' /\ rep q' (tail l) /\ capacity q' = capacity q.
Proof.
  intros Hl. unfold pop. pose proof top_rep as Ht. unfold top in Ht.
  rewrite hasMessage_rep in *. destruct R, l as [|a l']; [done|]. simpl in *.
  rewrite Ht. eexists. split_and!; [done| |done]. split; simpl.
  - by rewrite length_insert.
  - lia.
  - rewrite incIdx_mod by done. apply Nat.mod_upper_bound. lia.
  - rewrite rep_back0, incIdx_mod by done.
    rewrite Nat.Div0.add_mod_idemp_l. f_equal. lia.
  - intros i b Hi. pose proof (lookup_lt_Some _ _ _ Hi).
    rewrite incIdx_mod, Nat.Div0.add_mod_idemp_l by done.
    replace (front q + 1 + i) with (front q + (i + 1)) by lia.
    rewrite list_lookup_insert_ne.
    + apply (rep_elt0 (i + 1)). by rewrite Nat.add_1_r.
    + intros E. rewrite <- (Nat.mod_small (front q) (capacity q)) in E at 1 by lia.
      rewrite <- (Nat.add_0_r (front q)) in E at 1. apply ring_inj in E; lia.
Qed.
End with_rep.

(** The copying loop moves elements one by one to the new storage until it has
    moved them all or the new storage is full. *)
Lemma copyLoop_rep room : forall q l pre,
  (forall i a, l !! i = Some a -> queue q !! ((front q + i) mod capacity q) = Some (Some a)) ->
  front q < capacity q -> length l < capacity q ->
  back q = (front q + length l) mod capacity q ->
  copyLoop room q ((Some <$> pre) ++ replicate room None) (length pre) =
    Some ((Some <$> (pre ++ take room l)) ++ replicate (room - length l) None,
          length pre + length (take room l)).
Proof.
  induction room as [|room IH]; intros q l pre He Hf Hl Hb; simpl.
  { by rewrite Nat.add_0_r, !app_nil_r. }
  unfold hasMessage at 1. rewrite Hb. destruct l as [|a l'].
  { simpl. rewrite Nat.add_0_r, (Nat.mod_small (front q)) by lia.
    by rewrite Nat.eqb_refl, Nat.add_0_r, app_nil_r. }
  simpl in Hl.
  assert (front q =? (front q + length (a :: l')) mod capacity q = false) as E.
  { rewrite mod_wrap by (simpl; lia). apply Nat.eqb_neq. simpl. case_test; lia. }
  unfold top, hasMessage, slot. rewrite Hb, E. simpl.
  pose proof (He 0 a eq_refl) as H0.
  rewrite Nat.add_0_r, Nat.mod_small in H0 by lia. rewrite H0. simpl.
  replace (<[length pre := Some a]> ((Some <$> pre) ++ None :: replicate room None))
    with ((Some <$> (pre ++ [a])) ++ replicate room None).
  2:{ rewrite <- (length_fmap Some pre), <- (Nat.add_0_r (length _)), insert_app_r.
      rewrite fmap_app, <- app_assoc. done. }
  replace (length pre + 1) with (length (pre ++ [a])) by (rewrite length_app; done).
  rewrite (IH _ l').
  - rewrite length_app, <- app_assoc. simpl. do 2 f_equal. lia.
  - simpl. intros i b Hi. pose proof (lookup_lt_Some _ _ _ Hi).
    rewrite incIdx_mod, Nat.Div0.add_mod_idemp_l by done.
    replace (front q + 1 + i) with (front q + S i) by lia. by apply He.
  - simpl. rewrite incIdx_mod by done. apply Nat.mod_upper_bound. lia.
  - simpl. lia.
  - simpl. rewrite incIdx_mod, Nat.Div0.add_mod_idemp_l by done.
    f_equal. simpl. lia.
Qed.

Lemma setCapacity_eq q l c : rep q l ->
  setCapacity q c = Some (mk ((Some <$> take c l) ++ replicate (c - length l) None) c 0
                             (length (take c l))).
Proof.
  intros []. unfold setCapacity.
  pose proof (copyLoop_rep c q l []) as E. simpl in E. by rewrite E.
Qed.

(** Resizing keeps every element when the new capacity leaves a slot free. *)
Lemma setCapacity_rep q l c : rep q l -> length l < c ->
  exists q', setCapacity q c = Some q' /\ rep q' l /\ capacity q' = c.
Proof.
  intros R Hc. rewrite (setCapacity_eq q l c R). eexists. split_and!; [done| |done].
  rewrite take_ge by lia. split; simpl.
  - rewrite length_app, length_fmap, length_replicate. lia.
  - done.
  - lia.
  - by rewrite Nat.mod_small.
  - intros i a Hi. pose proof (lookup_lt_Some _ _ _ Hi). rewrite Nat.mod_small by lia.
    rewrite lookup_app_l by (rewrite length_fmap; lia). by rewrite list_lookup_fmap, Hi.
Qed.

Lemma destroyLoop_rep fuel : forall q l, rep q l -> length l <= fuel ->
  destroyLoop fuel q = Some l.
Proof.
  induction fuel as [|fuel IH]; intros q l R Hf; simpl; rewrite (hasMessage_rep q l R).
  - by destruct l; [|simpl in Hf; lia].
  - destruct l as [|a l']; [done|]. simpl.
    rewrite (top_rep q _ R). simpl.
    destruct (pop_rep q _ R) as (q' & -> & R' & _); [done|].
    by rewrite (IH q' l') by (simpl in *; (done || lia)).
Qed.

Lemma destroy_total q l : rep q l -> destroy q = Some l.
Proof. intros R. apply destroyLoop_rep; [done|]. destruct R. lia. Qed.
End Queue.
Arguments t : clear implicits.
End Queue.

(** ** The thread-safe wrapper

    Every operation runs under [mut].  [push] and [top] first wait on [cond]
    for a predicate; [Blocked] is the result of a call whose predicate does not
    hold yet: the calling thread stays in the wait and the state is unchanged. *)
Module TSQ.
Section TSQ.
Context {A : Type}.

Record t := mk { queue : Queue.t A; disabled : bool }.

Inductive wait (R : Type) := Blocked | Return (r : R).
Arguments Blocked {R}.
Arguments Return {R} r.

Definition create (size : nat) : t := mk (Queue.create size) false.
Definition getCapacity (s : t) : nat := Queue.getCapacity (queue s).
Definition setCapacity (s : t) (capacity : nat) : option t :=
  q <- Queue.setCapacity (queue s) capacity ;; Some (mk q (disabled s)).
Definition hasFreeSpace (s : t) : bool := Queue.hasFreeSpace (queue s).
Definition hasMessage (s : t) : bool := Queue.hasMessage (queue s).
Definition numMessages (s : t) : nat := Queue.numMessages (queue s).

Definition pushIfRoom (s : t) (a : A) : option (t * bool) :=
  if negb (Queue.hasFreeSpace (queue s)) then Some (s, false)
  else q <- Queue.push (queue s) a ;; Some (mk q (disabled s), true).

Definition push (s : t) (a : A) : option (t * wait bool) :=
  if disabled s || Queue.hasFreeSpace (queue s) then
    if negb (Queue.hasFreeSpace (queue s)) then Some (s, Return false)
    else q <- Queue.push (queue s) a ;; Some (mk q (disabled s), Return true)
  else Some (s, Blocked).

(** The pointer [top] returns is the element itself; [Return None] is the
    [nullptr] of a forced wake-up. *)
Definition top (s : t) : option (wait (option A)) :=
  if disabled s || Queue.hasMessage (queue s) then
    if disabled s then Some (Return None)
    else a <- Queue.top (queue s) ;; Some (Return (Some a))
  else Some Blocked.

Definition pop (s : t) : option t :=
  q <- Queue.pop (queue s) ;; Some (mk q (disabled s)).

Definition disable (s : t) : t := mk (queue s) true.
Definition enable (s : t) : t := mk (queue s) false.
Definition isEnabled (s : t) : bool := negb (disabled s).

(** One call of the interface with its result. *)
Inductive op :=
  | Push (a : A) | PushIfRoom (a : A) | Top | Pop | Disable | Enable
  | SetCapacity (c : nat) | GetCapacity | HasFreeSpace | HasMessage | NumMessages | IsEnabled.

Inductive res :=
  | RUnit | RBool (b : bool) | RNat (n : nat) | RBlocked | RElt (o : option A).

Definition of_wait {R} (f : R -> res) (w : wait R) : res :=
  match w with Blocked => RBlocked | Return r => f r end.

Definition exec (o : op) (s : t) : option (t * res) :=
  match o with
  | Push a => '(s', w) <- push s a ;; Some (s', of_wait RBool w)
  | PushIfRoom a => '(s', b) <- pushIfRoom s a ;; Some (s', RBool b)
  | Top => w <- top s ;; Some (s, of_wait RElt w)
  | Pop => s' <- pop s ;; Some (s', RUnit)
  | Disable => Some (disable s, RUnit)
  | Enable => Some (enable s, RUnit)
  | SetCapacity c => s' <- setCapacity s c ;; Some (s', RUnit)
  | GetCapacity => Some (s, RNat (getCapacity s))
  | HasFreeSpace => Some (s, RBool (hasFreeSpace s))
  | HasMessage => Some (s, RBool (hasMessage s))
  | NumMessages => Some (s, RNat (numMessages s))
  | IsEnabled => Some (s, RBool (isEnabled s))
  end.

Fixpoint run (ops : list op) (s : t) : option (t * list res) :=
  match ops with
  | [] => Some (s, [])
  | o :: ops =>
      '(s1, r) <- exec o s ;;
      '(s2, rs) <- run ops s1 ;;
      Some (s2, r :: rs)
  end.

(** *** The contract: a FIFO of bounded size that can be disabled *)
Record spec := mkSpec { bound : nat; items : list A; off : bool }.

Definition full (s : spec) : bool := bound s <=? length (items s).

Definition sexec (o : op) (s : spec) : spec * res :=
  let put a := mkSpec (bound s) (items s ++ [a]) (off s) in
  match o with
  | Push a =>
      if full s then (s, if off s then RBool false else RBlocked) else (put a, RBool true)
  | PushIfRoom a => if full s then (s, RBool false) else (put a, RBool true)
  | Top =>
      (s, if off s then RElt None
          else match items s with [] => RBlocked | a :: _ => RElt (Some a) end)
  | Pop => (mkSpec (bound s) (tail (items s)) (off s), RUnit)
  | Disable => (mkSpec (bound s) (items s) true, RUnit)
  | Enable => (mkSpec (bound s) (items s) false, RUnit)
  | SetCapacity c => (mkSpec (c - 1) (items s) (off s), RUnit)
  | GetCapacity => (s, RNat (S (bound s)))
  | HasFreeSpace => (s, RBool (negb (full s)))
  | HasMessage => (s, RBool (negb (length (items s) =? 0)))
  | NumMessages => (s, RNat (length (items s)))
  | IsEnabled => (s, RBool (negb (off s)))
  end.

(** What the callers must ensure: [pop] only on a non-empty queue, and a new
    capacity that exceeds the number of queued elements. *)
Definition legal (o : op) (s : spec) : Prop :=
  match o with
  | Pop => items s <> []
  | SetCapacity c => length (items s) < c
  | _ => True
  end.

Fixpoint legal_run (ops : list op) (s : spec) : Prop :=
  match ops with
  | [] => True
  | o :: ops => legal o s /\ legal_run ops (sexec o s).1
  end.

Fixpoint srun (ops : list op) (s : spec) : spec * list res :=
  match ops with
  | [] => (s, [])
  | o :: ops => let '(s1, r) := sexec o s in let '(s2, rs) := srun ops s1 in (s2, r :: rs)
  end.

Definition refines (s : t) (sp : spec) : Prop :=
  Queue.rep (queue s) (items sp) /\ Queue.capacity (queue s) = S (bound sp) /\
  disabled s = off sp.

Lemma refines_create c : 0 < c -> refines (create c) (mkSpec (c - 1) [] false).
Proof. intros. split_and!; simpl; [by apply Queue.rep_create|lia|done]. Qed.

Section with_rep.
Context (s : t) (sp : spec) (R : refines s sp).

Lemma refines_full : Queue.hasFreeSpace (queue s) = negb (full sp).
Proof.
  destruct R as (Rq & Hc & _). rewrite (Queue.hasFreeSpace_rep _ _ Rq), Hc.
  unfold full. apply eq_true_iff_eq.
  rewrite negb_true_iff, Nat.leb_gt, Nat.ltb_lt. lia.
Qed.

Lemma refines_push a : full sp = false ->
  exists q, Queue.push (queue s) a = Some q /\
    refines (mk q (disabled s)) (mkSpec (bound sp) (items sp ++ [a]) (off sp)).
Proof.
  intros Hf. destruct R as (Rq & Hc & Hd). unfold full in Hf. bool_prop.
  destruct (Queue.push_rep _ _ Rq a) as (q & ? & ? & ?); [lia|].
  exists q. split; [done|]. split_and!; simpl; [done|congruence|done].
Qed.
End with_rep.

(** One operation of the ring simulates one operation of the contract. *)
Lemma exec_refines s sp o : refines s sp -> legal o sp ->
  exists s' r, exec o s = Some (s', r) /\ sexec o sp = ((sexec o sp).1, r) /\
    refines s' (sexec o sp).1.
Proof.
  intros R L. pose proof R as (Rq & Hc & Hd).
  destruct o as [a|a| | | | |c| | | | |]; simpl in *;
    unfold push, pushIfRoom, top, pop, setCapacity; rewrite ?(refines_full s sp R).
  - rewrite negb_involutive. destruct (full sp) eqn:Ef; simpl.
    + rewrite orb_false_r, Hd. destruct (off sp); simpl; eauto.
    + rewrite orb_true_r. destruct (refines_push s sp R a Ef) as (q & -> & ?). eauto.
  - rewrite negb_involutive. destruct (full sp) eqn:Ef; simpl; [by eauto|].
    destruct (refines_push s sp R a Ef) as (q & -> & ?). eauto.
  - rewrite (Queue.hasMessage_rep _ _ Rq), (Queue.top_rep _ _ Rq), Hd.
    destruct (off sp), (items sp); simpl; eauto.
  - destruct (Queue.pop_rep _ _ Rq L) as (q & -> & ? & ?). do 2 eexists.
    split_and!; [done..|]. split_and!; simpl; [done|congruence|done].
  - do 2 eexists. split_and!; [done..|]. by split_and!.
  - do 2 eexists. split_and!; [done..|]. by split_and!.
  - destruct (Queue.setCapacity_rep _ _ c Rq L) as (q & -> & ? & ?). do 2 eexists.
    split_and!; [done..|]. split_and!; simpl; [done|lia|done].
  - do 2 eexists. split_and!; [done| |done]. unfold getCapacity, Queue.getCapacity. by rewrite Hc.
  - do 2 eexists. split_and!; [done| |done]. unfold hasFreeSpace. by rewrite (refines_full s sp R).
  - do 2 eexists. split_and!; [done| |done]. unfold hasMessage. by rewrite (Queue.hasMessage_rep _ _ Rq).
  - do 2 eexists. split_and!; [done| |done]. unfold numMessages. by rewrite (Queue.numMessages_rep _ _ Rq).
  - do 2 eexists. split_and!; [done| |done]. unfold isEnabled. by rewrite Hd.
Qed.

Lemma run_refines ops : forall s sp, refines s sp -> legal_run ops sp ->
  exists s' rs, run ops s = Some (s', rs) /\ rs = (srun ops sp).2 /\ refines s' (srun ops sp).1.
Proof.
  induction ops as [|o ops IH]; intros s sp R L; simpl; [by eauto|].
  destruct L as [L1 L2].
  destruct (exec_refines s sp o R L1) as (s1 & r & -> & E & R1).
  destruct (IH s1 _ R1 L2) as (s2 & rs & -> & -> & R2).
  rewrite E. simpl. destruct (srun ops (sexec o sp).1). simpl in *. eauto.
Qed.
End TSQ.
Arguments t : clear implicits.
Arguments op : clear implicits.
Arguments res : clear implicits.
Arguments spec : clear implicits.
Arguments Blocked {R}.
Arguments Return {R} r.
End TSQ.

(** ** Properties *)

(** C11: under any sequence of calls in which [pop] is used on a non-empty queue
    and [setCapacity] leaves room for what is queued, a ThreadsafeQueue created
    with capacity [c] never leaves defined behaviour and answers every call
    exactly like a FIFO bounded by [c - 1] elements, which its final state
    still represents. *)
Theorem tsq_refines_fifo {A} (c : nat) (ops : list (TSQ.op A)) :
  0 < c ->
  TSQ.legal_run ops (TSQ.mkSpec (c - 1) [] false) ->
  exists s, TSQ.run ops (TSQ.create c) = Some (s, (TSQ.srun ops (TSQ.mkSpec (c - 1) [] false)).2)
    /\ TSQ.refines s (TSQ.srun ops (TSQ.mkSpec (c - 1) [] false)).1.
Proof.
  intros Hc L.
  destruct (TSQ.run_refines ops _ _ (TSQ.refines_create c Hc) L) as (s & rs & -> & -> & ?).
  eauto.
Qed.

Lemma tsq_refines_fifo_witness :
  exists s, TSQ.run [TSQ.PushIfRoom 7; TSQ.Push 8; TSQ.PushIfRoom 9; TSQ.Disable; TSQ.Top;
                     TSQ.Enable; TSQ.Top; TSQ.Pop; TSQ.NumMessages; TSQ.SetCapacity 5]
      (TSQ.create 3)
    = Some (s, [TSQ.RBool true; TSQ.RBool true; TSQ.RBool false; TSQ.RUnit; TSQ.RElt None;
                TSQ.RUnit; TSQ.RElt (Some 7); TSQ.RUnit; TSQ.RNat 1; TSQ.RUnit])
    /\ TSQ.refines s (TSQ.mkSpec 4 [8] false).
Proof.
  apply (tsq_refines_fifo 3 [TSQ.PushIfRoom 7; TSQ.Push 8; TSQ.PushIfRoom 9; TSQ.Disable;
    TSQ.Top; TSQ.Enable; TSQ.Top; TSQ.Pop; TSQ.NumMessages; TSQ.SetCapacity 5]); simpl.
  - lia.
  - repeat split; simpl; (done || lia).
Defined.

(** [setCapacity] to a capacity that does not exceed the number of queued
    messages leaves a ring that claims free space although its storage is
    full: the next [push] constructs its element outside the allocation. *)
Theorem setCapacity_full_breaks {A} (q : Queue.t A) (l : list A) (c : nat) (a : A) :
  Queue.rep q l ->
  c <= length l ->
  exists q', Queue.setCapacity q c = Some q' /\ Queue.hasFreeSpace q' = true /\
    length (Queue.queue q') = c /\ Queue.back q' = c /\ Queue.push q' a = None.
Proof.
  intros R Hc. rewrite (Queue.setCapacity_eq q l c R). eexists. split; [done|].
  assert (length (take c l) = c) as E by (rewrite length_take; lia).
  assert (length ((Some <$> take c l) ++ replicate (c - length l) None) = c) as E2.
  { rewrite length_app, length_fmap, length_replicate, E. lia. }
  assert (Queue.hasFreeSpace (Queue.mk ((Some <$> take c l) ++ replicate (c - length l) None)
            c 0 (length (take c l))) = true) as Hf.
  { unfold Queue.hasFreeSpace, Queue.incIdx. simpl. rewrite E.
    by rewrite (proj2 (Nat.eqb_neq (c + 1) c)), Nat.add_1_r by lia. }
  split_and!; [done|simpl; lia..|].
  unfold Queue.push. rewrite Hf. simpl. rewrite E, E2. by rewrite Nat.ltb_irrefl.
Qed.

Definition full_ring : Queue.t nat := Queue.mk [Some 1; Some 2; None] 3 0 2.

Lemma setCapacity_full_breaks_witness :
  exists q', Queue.setCapacity full_ring 2 = Some q' /\ Queue.hasFreeSpace q' = true /\
    length (Queue.queue q') = 2 /\ Queue.back q' = 2 /\ Queue.push q' 3 = None.
Proof.
  apply (setCapacity_full_breaks full_ring [1; 2] 2 3).
  - split; simpl; try lia; try done.
    intros [|[|i]] x; simpl; intros E; inversion E; done.
  - simpl. lia.
Defined.
