(* ===== verification/BufferPool.v ===== *)
(** * The pool of idle message buffers (zcm/util/message_buffer_pool.hpp)

    A queued [Msg] (zcm/blocking.cpp) leases a buffer from the pool when it is
    constructed and gives it back when it is destroyed.  Buffers are identified
    by the address [id] of their allocation, so that aliasing can be stated. *)
From S2P Require Import Prelude.

Module Pool.

Definition MAX_BUFFERS : nat := 16.
Definition MAX_BYTES : Z := Z.shiftl 16 20.

(** A std::vector payload: what it holds and how much it can hold without
    reallocating.  The channel string is kept beside it. *)
Record Buffer := mkBuffer {
  id : nat;
  channel : string;
  payload : list byte;
  payload_capacity : Z
}.

Record t := mk {
  idle : list Buffer;      (* used as a stack: the back is the last element *)
  cachedBytes : Z;
  next_id : nat            (* the next fresh allocation *)
}.

Section Pool.
(** [vector::resize] past the capacity reallocates; the new capacity is the
    library's choice, at least the requested size. *)
Variable grow : Z -> Z -> Z.
Hypothesis grow_ge : forall c n, (n <= grow c n)%Z.

Definition create : t := mk [] 0 0.

Definition resize (b : Buffer) (size : nat) : Buffer :=
  let c := payload_capacity b in
  mkBuffer (id b) (channel b)
    (payload b ++ replicate (size - length (payload b)) 0%Z)
    (if (Z.of_nat size <=? c)%Z then c else grow c (Z.of_nat size)).

(** Grow the payload when the message does not fit in it. *)
Definition ensureSize (buffer : Buffer) (size : nat) : Buffer :=
  if length (payload buffer) <? size then resize buffer size else buffer.

Arguments ensureSize : simpl never.

Definition acquire (p : t) (size : nat) : t * Buffer :=
  let '(p, buffer) :=
    match last (idle p) with
    | Some b =>
        (mk (take (length (idle p) - 1) (idle p)) (cachedBytes p - payload_capacity b) (next_id p), b)
    | None => (mk [] (cachedBytes p) (S (next_id p)), mkBuffer (next_id p) "" [] 0)
    end in
  let size := if size =? 0 then 1 else size in
  (p, ensureSize buffer size).

Definition release (p : t) (buffer : Buffer) : t :=
  let capacity := payload_capacity buffer in
  if (length (idle p) <? MAX_BUFFERS) && (capacity <=? MAX_BYTES - cachedBytes p)%Z
  then mk (idle p ++ [buffer]) (cachedBytes p + capacity) (next_id p)
  else p.

(** The bytes the idle buffers keep allocated. *)
Definition retained (l : list Buffer) : Z := foldr (fun b z => payload_capacity b + z)%Z 0%Z l.

Definition buffer_ok (b : Buffer) : Prop := (Z.of_nat (length (payload b)) <= payload_capacity b)%Z.

(** The pool's invariant, for a pool whose outstanding leases are [leased]:
    bounded retention, exact accounting, and every buffer owned exactly once. *)
Record inv (p : t) (leased : list Buffer) : Prop := {
  inv_count : length (idle p) <= MAX_BUFFERS;
  inv_bytes : cachedBytes p = retained (idle p);
  inv_bound : (cachedBytes p <= MAX_BYTES)%Z;
  inv_ok : Forall buffer_ok (idle p ++ leased);
  inv_nodup : NoDup (id <$> (idle p ++ leased));
  inv_fresh : Forall (fun b => id b < next_id p) (idle p ++ leased)
}.

Lemma retained_app l1 l2 : retained (l1 ++ l2) = (retained l1 + retained l2)%Z.
Proof. induction l1 as [|b l1 IH]; simpl; [done|]. rewrite IH. lia. Qed.

Lemma retained_nonneg l : Forall buffer_ok l -> (0 <= retained l)%Z.
Proof. induction 1 as [|b l Hb _ IH]; simpl; [done|]. unfold buffer_ok in Hb. lia. Qed.

Lemma resize_ok b size : length (payload b) < size -> buffer_ok b ->
  buffer_ok (resize b size) /\ length (payload (resize b size)) = size /\ id (resize b size) = id b.
Proof.
  intros Hs Hb. unfold buffer_ok in *. simpl. rewrite length_app, length_replicate.
  split_and!; [|lia|done]. pose proof (grow_ge (payload_capacity b) (Z.of_nat size)).
  case_test; lia.
Qed.

Lemma inv_create : inv create [].
Proof. split; simpl; try constructor; (lia || done). Qed.

(** Preparing the chosen buffer changes neither its identity nor its validity,
    and leaves room for the message. *)
Lemma ensureSize_ok b size : buffer_ok b ->
  buffer_ok (ensureSize b size) /\ id (ensureSize b size) = id b /\
  size <= length (payload (ensureSize b size)).
Proof.
  intros Hb. unfold ensureSize. case_test.
  - destruct (resize_ok b size) as (? & -> & ->); [done..|]. split_and!; auto.
  - auto.
Qed.

Lemma acquire_inv p leased size : inv p leased ->
  inv (acquire p size).1 ((acquire p size).2 :: leased) /\
  Nat.max 1 size <= length (payload (acquire p size).2).
Proof.
  intros [Hn Hb Hm Hok Hd Hf]. unfold acquire.
  assert (Nat.max 1 size = if size =? 0 then 1 else size) as -> by (case_test; lia).
  destruct (last (idle p)) as [b|] eqn:E; simpl.
  - apply last_Some in E as [l E]. rewrite E in *. clear E.
    rewrite length_app, Nat.add_sub, take_app_length.
    rewrite retained_app in Hb. simpl in Hb.
    rewrite <- app_assoc in Hok, Hd, Hf. simpl in Hok, Hd, Hf.
    apply Forall_app in Hok as [Hok1 Hok2]. inversion_clear Hok2.
    destruct (ensureSize_ok b (if size =? 0 then 1 else size)) as (? & Hid & ?); [done|].
    split; [|done]. split; simpl.
    + rewrite length_app in Hn. simpl in Hn. lia.
    + lia.
    + unfold buffer_ok in *. lia.
    + apply Forall_app; split; [done|]. by constructor.
    + rewrite !fmap_app, !fmap_cons in *. by rewrite Hid.
    + apply Forall_app in Hf as [? Hf]. inversion_clear Hf.
      apply Forall_app; split; [done|]. constructor; [by rewrite Hid|done].
  - apply last_None in E. rewrite E in *. simpl in *.
    destruct (ensureSize_ok (mkBuffer (next_id p) "" [] 0) (if size =? 0 then 1 else size))
      as (? & Hid & ?); [done|].
    split; [|done]. split; simpl; [lia|done|done|by constructor| |].
    + rewrite Hid. constructor; [|done]. intros Hin.
      apply list_elem_of_fmap in Hin as (b' & Eb & Hin).
      rewrite Forall_forall in Hf. apply Hf in Hin. simpl in Eb. lia.
    + constructor; [rewrite Hid; simpl; lia|]. eapply Forall_impl; [done|]. simpl. lia.
Qed.

Lemma release_inv p leased b : inv p (b :: leased) -> inv (release p b) leased.
Proof.
  intros [Hn Hb Hm Hok Hd Hf]. unfold release.
  case_test.
  - split; simpl; try (rewrite <- app_assoc; done).
    + rewrite length_app. simpl. lia.
    + rewrite retained_app. simpl. lia.
    + lia.
  - split; try done.
    + apply Forall_app in Hok as [? Hok]. inversion_clear Hok. by apply Forall_app.
    + rewrite !fmap_app, fmap_cons, <- Permutation_middle in *.
      by apply NoDup_cons in Hd as [_ Hd].
    + apply Forall_app in Hf as [? Hf]. inversion_clear Hf. by apply Forall_app.
Qed.

(** A history of leases and returns: acquire a buffer of a size, or give back
    the [i]-th outstanding one. *)
Inductive op := Acquire (size : nat) | Release (i : nat).

Definition exec (o : op) (st : t * list Buffer) : t * list Buffer :=
  let '(p, leased) := st in
  match o with
  | Acquire size => let '(p', b) := acquire p size in (p', b :: leased)
  | Release i =>
      match leased !! i with
      | Some b => (release p b, delete i leased)
      | None => st
      end
  end.

Lemma exec_inv o p leased : inv p leased -> inv (exec o (p, leased)).1 (exec o (p, leased)).2.
Proof.
  intros H. destruct o as [size|i]; simpl.
  - pose proof (acquire_inv p leased size H) as [H1 _].
    by destruct (acquire p size).
  - destruct (leased !! i) as [b|] eqn:E; [|done]. simpl.
    apply release_inv. apply delete_Permutation in E.
    destruct H. split; [done..| | |]; by rewrite <- E.
Qed.

Lemma run_inv ops : forall st, inv st.1 st.2 ->
  inv (foldl (fun st o => exec o st) st ops).1 (foldl (fun st o => exec o st) st ops).2.
Proof.
  induction ops as [|o ops IH]; intros [p l] H; simpl; [done|].
  apply IH. by apply exec_inv.
Qed.
End Pool.
End Pool.

(** C40: whatever messages are queued and completed, in whatever order, the pool
    keeps at most [MAX_BUFFERS] (16) idle buffers and at most [MAX_BYTES] (16 MiB) in
    them, [cachedBytes] is exactly what they hold, and no buffer is ever idle
    twice, leased twice, or leased while idle.  It is assumed that a vector that grows
    gets at least the capacity it needs. *)
Theorem pool_invariant (grow : Z -> Z -> Z) (ops : list Pool.op) :
  (forall c n, (n <= grow c n)%Z) ->
  let st := foldl (fun st o => Pool.exec grow o st) (Pool.create, []) ops in
  length (Pool.idle st.1) <= 16 /\
  (Pool.cachedBytes st.1 <= 16777216)%Z /\
  Pool.cachedBytes st.1 = Pool.retained (Pool.idle st.1) /\
  NoDup (Pool.id <$> (Pool.idle st.1 ++ st.2)).
Proof.
  intros G st. destruct (Pool.run_inv grow G ops (Pool.create, []) Pool.inv_create). done.
Qed.

Lemma pool_invariant_witness :
  let st := foldl (fun st o => Pool.exec Z.max o st) (Pool.create, [])
              [Pool.Acquire 10; Pool.Acquire 0; Pool.Release 1; Pool.Acquire 4] in
  length (Pool.idle st.1) <= 16 /\
  (Pool.cachedBytes st.1 <= 16777216)%Z /\
  Pool.cachedBytes st.1 = Pool.retained (Pool.idle st.1) /\
  NoDup (Pool.id <$> (Pool.idle st.1 ++ st.2)).
Proof.
  apply (pool_invariant Z.max [Pool.Acquire 10; Pool.Acquire 0; Pool.Release 1; Pool.Acquire 4]).
  lia.
Defined.
