(* ===== verification/CircBuff.v ===== *)
(** * The byte ring of the generic serial transport
      (zcm/transport/generic_serial_circ_buff.c)

    The ASSERTs of the file expand to nothing, so the operations have no guards
    of their own; the representation predicate [rep] carries what their callers
    must ensure.  The [write] and [read] callbacks of the flush functions are
    the user's: [ByteSink] and [ByteSource] say what they promise. *)
From S2P Require Import Prelude.

Record circBuffer_t := mkCB {
  data : list byte;
  capacity : nat;
  front : nat;
  back : nat
}.

(** Allocation may fail ([mem = false]); [None] is the failure return. *)
Definition cb_init (mem : bool) (sz : nat) : option circBuffer_t :=
  if sz =? 0 then None
  else if mem then Some (mkCB (replicate sz 0%Z) sz 0 0) else None.

Definition cb_size (cb : circBuffer_t) : nat :=
  let f := front cb in
  let b := back cb in
  if f <=? b then b - f else capacity cb - (f - b).

Definition cb_room (cb : circBuffer_t) : nat := capacity cb - 1 - cb_size cb.

Definition cb_push_back (cb : circBuffer_t) (d : byte) : option circBuffer_t :=
  check back cb <? length (data cb) ;;
  let b := back cb + 1 in
  Some (mkCB (<[back cb := d]> (data cb)) (capacity cb) (front cb)
             (if b =? capacity cb then 0 else b)).

(** [ASSERT] is empty, so an offset behind the bytes in the ring reads a stale byte;
    that the receivers do not is shown by comparing rings with different stale bytes
    ([SerialProps.rx_agree]). *)
Definition cb_front (cb : circBuffer_t) (offset : nat) : option byte :=
  let idx := front cb + offset in
  let idx := if capacity cb <=? idx then idx - capacity cb else idx in
  data cb !! idx.

Definition cb_pop_front (cb : circBuffer_t) (num : nat) : circBuffer_t :=
  let f := front cb + num in
  mkCB (data cb) (capacity cb) (if capacity cb <=? f then f - capacity cb else f) (back cb).

Definition cb_pop_back (cb : circBuffer_t) (num : nat) : circBuffer_t :=
  mkCB (data cb) (capacity cb) (front cb)
    (if back cb <? num then capacity cb - (num - back cb) else back cb - num).

(** ** The user's callbacks *)

(** [write data] takes some prefix of [data] and returns its length; [sunk] is
    everything taken so far. *)
Class ByteSink (U : Type) := {
  write : U -> list byte -> U * nat;
  sunk : U -> list byte;
  write_le : forall u d, (write u d).2 <= length d;
  write_sunk : forall u d, sunk (write u d).1 = sunk u ++ take (write u d).2 d
}.

(** [read num] delivers at most [num] of the bytes still [pending]. *)
Class ByteSource (U : Type) := {
  read : U -> nat -> U * list byte;
  pending : U -> list byte;
  read_le : forall u n, length (read u n).2 <= n;
  read_pending : forall u n, pending u = (read u n).2 ++ pending (read u n).1
}.

Section Flush.
Context {U : Type}.

(** [cb->data + pos], [num] bytes of it. *)
Definition region (cb : circBuffer_t) (pos num : nat) : list byte := take num (drop pos (data cb)).

Definition cb_flush_out `{ByteSink U} (cb : circBuffer_t) (usr : U) : circBuffer_t * U * nat :=
  let sz := cb_size cb in
  if sz =? 0 then (cb, usr, 0) else
  let contiguous := Nat.min (capacity cb - front cb) sz in
  let wrapped := sz - contiguous in
  let '(usr, n) := write usr (region cb (front cb) contiguous) in
  let written := n in
  let cb := cb_pop_front cb n in
  if negb (written =? contiguous) || (wrapped =? 0) then (cb, usr, written) else
  let '(usr, n) := write usr (region cb 0 wrapped) in
  (cb_pop_front cb n, usr, written + n).

(** Store bytes delivered by [read] at [pos]. *)
Definition store (cb : circBuffer_t) (pos : nat) (bs : list byte) (b : nat) : circBuffer_t :=
  mkCB (take pos (data cb) ++ bs ++ drop (pos + length bs) (data cb)) (capacity cb) (front cb) b.

(** With any function for [read], as in C. *)
Definition cb_flush_in_with (read : U -> nat -> U * list byte) (cb : circBuffer_t) (usr : U) : circBuffer_t * U * nat :=
  let room := cb_room cb in
  if back cb <? front cb then
    let '(usr, bs) := read usr room in
    let bytesRead := length bs in
    (store cb (back cb) bs (back cb + bytesRead), usr, bytesRead)
  else
    let contiguous := Nat.min (capacity cb - back cb) room in
    let wrapped := room - contiguous in
    let '(usr, bs) := read usr contiguous in
    let n := length bs in
    let bytesRead := n in
    let cb := store cb (back cb) bs (back cb + n) in
    if negb (n =? contiguous) then (cb, usr, bytesRead) else
    let cb := if back cb =? capacity cb then mkCB (data cb) (capacity cb) (front cb) 0 else cb in
    if wrapped =? 0 then (cb, usr, bytesRead) else
    let '(usr, bs) := read usr wrapped in
    let n := length bs in
    (store cb 0 bs (back cb + n), usr, bytesRead + n).

(** With one that loses nothing. *)
Definition cb_flush_in `{ByteSource U} : circBuffer_t -> U -> circBuffer_t * U * nat := cb_flush_in_with read.
End Flush.

(** ** The list of bytes a ring holds *)

Record rep (cb : circBuffer_t) (l : list byte) : Prop := {
  rep_len : length (data cb) = capacity cb;
  rep_room : length l < capacity cb;
  rep_front : front cb < capacity cb;
  rep_back : back cb = (front cb + length l) mod capacity cb;
  rep_elt : forall i a, l !! i = Some a ->
              data cb !! ((front cb + i) mod capacity cb) = Some a
}.

Lemma rep_init sz cb : cb_init true sz = Some cb -> rep cb [].
Proof.
  unfold cb_init. case_test; [done|]. intros E. inversion_clear E.
  split; simpl; try done; [by rewrite length_replicate|lia|lia|].
  rewrite Nat.mod_small; lia.
Qed.

Section with_rep.
Context (cb : circBuffer_t) (l : list byte) (R : rep cb l).

Lemma cb_size_rep : cb_size cb = length l.
Proof. destruct R. unfold cb_size. rewrite rep_back0, mod_wrap by lia. repeat case_test; lia. Qed.

Lemma cb_room_rep : cb_room cb = capacity cb - 1 - length l.
Proof. unfold cb_room. by rewrite cb_size_rep. Qed.

Lemma cb_front_rep i : i < length l -> cb_front cb i = l !! i.
Proof.
  intros Hi. destruct R. destruct (lookup_lt_is_Some_2 l i Hi) as [a E].
  rewrite E. rewrite <- (rep_elt0 i a E). unfold cb_front.
  rewrite mod_wrap by lia. repeat case_test; (done || lia).
Qed.

Lemma cb_push_back_rep d : length l < cb_room cb + length l ->
  exists cb', cb_push_back cb d = Some cb' /\ rep cb' (l ++ [d]) /\ capacity cb' = capacity cb.
Proof.
  rewrite cb_room_rep. intros Hr. destruct R.
  assert (back cb < capacity cb) as Hb by (rewrite rep_back0; apply Nat.mod_upper_bound; lia).
  unfold cb_push_back. rewrite rep_len0, (proj2 (Nat.ltb_lt _ _) Hb).
  eexists. split_and!; [done| |done].
  split; simpl; [by rewrite length_insert|rewrite length_app; simpl; lia|done| |].
  - rewrite rep_back0, length_app. simpl. rewrite !mod_wrap by lia. repeat case_test; lia.
  - intros i a Hi. apply lookup_snoc_Some in Hi as [[Hi Hl]|[-> ->]].
    + rewrite list_lookup_insert_ne; [by apply rep_elt0|].
      rewrite rep_back0. intros E. apply ring_inj in E; lia.
    + rewrite rep_back0. apply list_lookup_insert_eq. rewrite rep_len0, <- rep_back0. done.
Qed.

Lemma cb_pop_front_rep n : n <= length l ->
  rep (cb_pop_front cb n) (drop n l) /\ capacity (cb_pop_front cb n) = capacity cb.
Proof.
  intros Hn. destruct R. split; [|done].
  assert (front (cb_pop_front cb n) = (front cb + n) mod capacity cb) as E.
  { simpl. rewrite mod_wrap by lia. repeat case_test; lia. }
  split; rewrite ?E; simpl; [done|rewrite length_drop; lia|apply Nat.mod_upper_bound; lia| |].
  - rewrite rep_back0, Nat.Div0.add_mod_idemp_l, length_drop. f_equal. lia.
  - intros i a Hi. rewrite lookup_drop in Hi. rewrite Nat.Div0.add_mod_idemp_l, <- Nat.add_assoc.
    by apply rep_elt0.
Qed.
End with_rep.

Lemma cb_pop_back_rep cb l s : rep cb (l ++ s) -> rep (cb_pop_back cb (length s)) l.
Proof.
  intros []. rewrite length_app in *.
  split; simpl; [done|lia|done| |].
  - rewrite rep_back0. rewrite !mod_wrap by lia. repeat case_test; lia.
  - intros i a Hi. apply rep_elt0. by apply lookup_app_l_Some.
Qed.

(** A contiguous region of the storage is a segment of the list. *)
Lemma region_rep cb l k n : rep cb l -> k + n <= length l ->
  (front cb + k) mod capacity cb + n <= capacity cb ->
  region cb ((front cb + k) mod capacity cb) n = take n (drop k l).
Proof.
  intros [] Hk Hn. unfold region. apply list_eq. intros i.
  destruct (Nat.lt_ge_cases i n) as [Hi|Hi].
  - rewrite !lookup_take_lt, !lookup_drop by done.
    destruct (lookup_lt_is_Some_2 l (k + i)) as [a E]; [lia|].
    rewrite E, <- (rep_elt0 _ _ E), Nat.add_assoc. f_equal.
    rewrite <- (Nat.Div0.add_mod_idemp_l (front cb + k) i). symmetry. apply Nat.mod_small.
    eapply Nat.lt_le_trans; [|exact Hn]. by apply Nat.add_lt_mono_l.
  - by rewrite !lookup_take_ge.
Qed.

(** Bytes stored contiguously at the back extend the list. *)
Lemma store_rep cb l bs b : rep cb l -> length l + length bs < capacity cb ->
  back cb + length bs <= capacity cb -> b = (back cb + length bs) mod capacity cb ->
  rep (store cb (back cb) bs b) (l ++ bs).
Proof.
  intros [] Hl Hb ->.
  assert (back cb < capacity cb) as Hbk by (rewrite rep_back0; apply Nat.mod_upper_bound; lia).
  split; simpl.
  - rewrite !length_app, length_take, length_drop. lia.
  - rewrite length_app. done.
  - done.
  - rewrite rep_back0, Nat.Div0.add_mod_idemp_l, length_app. f_equal. lia.
  - intros i a Hi. destruct (Nat.lt_ge_cases i (length l)) as [Hlt|Hge].
    + rewrite lookup_app_l in Hi by done.
      assert ((front cb + i) mod capacity cb <> back cb) as Hne.
      { rewrite rep_back0. intros E. apply ring_inj in E; lia. }
      apply rep_elt0 in Hi. rewrite <- Hi. clear Hi.
      assert ((front cb + i) mod capacity cb < back cb \/
              back cb + length bs <= (front cb + i) mod capacity cb) as [Hc|Hc].
      { rewrite rep_back0 in *. rewrite !mod_wrap in * by lia. repeat case_test; lia. }
      * rewrite lookup_app_l by (rewrite length_take; lia). by apply lookup_take_lt.
      * rewrite !lookup_app_r by (rewrite ?length_take; lia).
        rewrite lookup_drop, length_take. f_equal. lia.
    + rewrite lookup_app_r in Hi by done. pose proof (lookup_lt_Some _ _ _ Hi).
      assert ((front cb + i) mod capacity cb = back cb + (i - length l)) as ->.
      { rewrite rep_back0 in *. rewrite !mod_wrap in * by lia. repeat case_test; lia. }
      rewrite lookup_app_r by (rewrite length_take; lia).
      rewrite length_take, Nat.min_l by lia.
      rewrite lookup_app_l by (lia).
      by replace (back cb + (i - length l) - back cb) with (i - length l) by lia.
Qed.

Lemma cb_flush_out_rep {U} `{ByteSink U} cb l (u : U) : rep cb l ->
  let '(cb', u', n) := cb_flush_out cb u in
  n <= length l /\ sunk u' = sunk u ++ take n l /\ rep cb' (drop n l) /\
  capacity cb' = capacity cb.
Proof.
  intros R. unfold cb_flush_out. rewrite (cb_size_rep cb l R).
  case_test. { split_and!; try done; [lia|by rewrite app_nil_r]. }
  pose proof R as [Rl Rr Rf Rb Re].
  set (c := Nat.min (capacity cb - front cb) (length l)).
  assert (region cb (front cb) c = take c l) as Er.
  { pose proof (region_rep cb l 0 c R) as Er.
    rewrite Nat.add_0_r, Nat.mod_small in Er by lia. apply Er; lia. }
  rewrite Er.
  pose proof (write_le u (take c l)) as Hle. pose proof (write_sunk u (take c l)) as Hsk.
  destruct (write u (take c l)) as [u1 n]. simpl in Hle, Hsk. rewrite length_take in Hle.
  rewrite take_take, Nat.min_l in Hsk by lia.
  destruct (cb_pop_front_rep cb l R n) as [R1 Rc]; [lia|].
  destruct (negb (n =? c) || (length l - c =? 0)) eqn:E1.
  { split_and!; try done. lia. }
  bool_prop. subst n.
  assert (front (cb_pop_front cb c) = 0) as F0 by (simpl; case_test; lia).
  assert (region (cb_pop_front cb c) 0 (length l - c) = drop c l) as Er2.
  { pose proof (region_rep _ _ 0 (length l - c) R1) as Er2.
    rewrite F0, Rc, length_drop in Er2. rewrite Nat.Div0.mod_0_l in Er2.
    rewrite Er2 by lia. rewrite drop_0, take_ge; [done|rewrite length_drop; lia]. }
  rewrite Er2.
  pose proof (write_le u1 (drop c l)) as Hle2. pose proof (write_sunk u1 (drop c l)) as Hsk2.
  destruct (write u1 (drop c l)) as [u2 m]. simpl in Hle2, Hsk2. rewrite length_drop in Hle2.
  destruct (cb_pop_front_rep _ _ R1 m) as [R2 Rc2]; [rewrite length_drop; lia|].
  rewrite drop_drop in R2. split_and!; [lia| |done|congruence].
  rewrite Hsk2, Hsk, <- app_assoc. f_equal.
  rewrite <- (take_drop c (take (c + m) l)), take_take, Nat.min_l by lia. f_equal.
  apply take_drop_commute.
Qed.

Lemma rep_same cb cb' l : data cb' = data cb -> capacity cb' = capacity cb ->
  front cb' = front cb -> back cb' = back cb -> rep cb l -> rep cb' l.
Proof. intros Ed Ec Ef Eb []. split; by rewrite ?Ed, ?Ec, ?Ef, ?Eb. Qed.

(** One or two reads of at least [m] bytes, and what they have delivered. *)
Inductive reads {U} (read : U -> nat -> U * list byte) (m : nat) : U -> list byte -> U -> Prop :=
  | reads_one u n u' bs : m <= n -> read u n = (u', bs) -> reads read m u bs u'
  | reads_two u n u1 b1 n' u' b2 : m <= n -> read u n = (u1, b1) -> m <= n' -> read u1 n' = (u', b2) -> reads read m u (b1 ++ b2) u'.

Lemma cb_flush_in_with_rep {U} (read : U -> nat -> U * list byte) (read_le : forall u n, length (read u n).2 <= n) cb l u : rep cb l ->
  let '(cb', u', n) := cb_flush_in_with read cb u in
  exists bs, length bs = n /\ reads read (Nat.min 1 (cb_room cb)) u bs u' /\ rep cb' (l ++ bs) /\ capacity cb' = capacity cb.
Proof.
  intros R. unfold cb_flush_in_with. rewrite (cb_room_rep cb l R).
  pose proof R as [Rl Rr Rf Rb Re].
  assert (back cb < capacity cb) as Hbk by (rewrite Rb; apply Nat.mod_upper_bound; lia).
  assert (back cb = if front cb + length l <? capacity cb then front cb + length l
                    else front cb + length l - capacity cb) as Hb
    by (rewrite Rb; apply mod_wrap; lia).
  destruct (back cb <? front cb) eqn:Eb; bool_prop.
  { pose proof (read_le u (capacity cb - 1 - length l)) as Hle.
    destruct (read u _) as [u1 bs] eqn:Er. cbn [snd] in Hle. exists bs. split_and!; try done; [eapply reads_one; [|exact Er]; lia|].
    apply store_rep; try done; [lia|case_test; lia|].
    rewrite Nat.mod_small; [done|case_test; lia]. }
  set (c := Nat.min (capacity cb - back cb) (capacity cb - 1 - length l)).
  pose proof (read_le u c) as Hle. destruct (read u c) as [u1 bs] eqn:Er. simpl in Hle.
  assert (reads read (Nat.min 1 (capacity cb - 1 - length l)) u bs u1) as Hp by (eapply reads_one; [|exact Er]; lia).
  destruct (negb (length bs =? c)) eqn:E1; bool_prop.
  { exists bs. split_and!; try done. apply store_rep; try done; [lia|lia|].
    rewrite Nat.mod_small; [done|lia]. }
  set (b1 := (back cb + length bs) mod capacity cb).
  set (cb1 := store cb (back cb) bs b1).
  assert (rep cb1 (l ++ bs)) as R1 by (apply store_rep; (done || lia)).
  assert (b1 = if back cb + length bs <? capacity cb then back cb + length bs
               else back cb + length bs - capacity cb) as Hb1 by (apply mod_wrap; lia).
  assert ((if back (store cb (back cb) bs (back cb + length bs)) =? capacity (store cb (back cb) bs (back cb + length bs))
     then mkCB (data (store cb (back cb) bs (back cb + length bs)))
            (capacity (store cb (back cb) bs (back cb + length bs)))
            (front (store cb (back cb) bs (back cb + length bs))) 0
     else store cb (back cb) bs (back cb + length bs)) = cb1) as ->.
  { unfold cb1, store. simpl. rewrite Hb1. case_test; case_test; try lia; f_equal; lia. }
  destruct (capacity cb - 1 - length l - c =? 0) eqn:E2; bool_prop.
  { exists bs. by split_and!. }
  assert (b1 = 0) as B0 by (rewrite Hb1; case_test; lia).
  pose proof (read_le u1 (capacity cb - 1 - length l - c)) as Hle2.
  destruct (read u1 _) as [u2 bs2] eqn:Er2. simpl in Hle2.
  exists (bs ++ bs2). split_and!; try done.
  - apply length_app.
  - eapply reads_two; [|exact Er| |exact Er2]; lia.
  - rewrite app_assoc. change (back cb1) with b1. rewrite B0, Nat.add_0_l.
    pose proof (store_rep cb1 (l ++ bs) bs2 (length bs2) R1) as S.
    change (back cb1) with b1 in S. rewrite B0 in S. apply S; simpl; rewrite ?length_app; try lia.
    rewrite Nat.mod_small; lia.
Qed.

Lemma cb_flush_in_rep {U} `{ByteSource U} cb l (u : U) : rep cb l ->
  let '(cb', u', n) := cb_flush_in cb u in
  exists bs, length bs = n /\ pending u = bs ++ pending u' /\ rep cb' (l ++ bs) /\
    capacity cb' = capacity cb.
Proof.
  intros R. pose proof (cb_flush_in_with_rep read read_le cb l u R) as F. unfold cb_flush_in.
  destruct (cb_flush_in_with read cb u) as [[cb' u'] n]. destruct F as (bs & Hn & Hr & F). exists bs. split_and!; [done| |apply F..].
  clear - Hr. destruct Hr as [u n u' bs _ E|u n u1 b1 n2 u' b2 _ E _ E2]; pose proof (read_pending u n) as P; rewrite E in P; [done|].
  pose proof (read_pending u1 n2) as P2. rewrite E2 in P2. simpl in P, P2. by rewrite P, P2, app_assoc.
Qed.
