(* ===== verification/Fletcher.v ===== *)
(** * The checksum of the serial framing
      (zcm/transport/generic_serial_fletcher.h) *)
From S2P Require Import Prelude Bytes.
Local Open Scope Z_scope.

Definition u16 (z : Z) : Z := wrapu 16 z.

(** [sumHigh += sumLow += b] first updates [sumLow], then [sumHigh]; every
    assignment is to a [uint16_t]. *)
Definition fletcherUpdate (b : byte) (prevSum : Z) : Z :=
  let sumHigh := Z.land (Z.shiftr prevSum 8) 0xff in
  let sumLow := Z.land prevSum 0xff in
  let sumLow := u16 (sumLow + b) in
  let sumHigh := u16 (sumHigh + sumLow) in
  let sumLow := u16 (Z.land sumLow 0xff + Z.shiftr sumLow 8) in
  let sumHigh := u16 (Z.land sumHigh 0xff + Z.shiftr sumHigh 8) in
  let sumLow := u16 (Z.land sumLow 0xff + Z.shiftr sumLow 8) in
  let sumHigh := u16 (Z.land sumHigh 0xff + Z.shiftr sumHigh 8) in
  u16 (Z.lor (Z.shiftl sumHigh 8) sumLow).

(** The checksum of a run of bytes, from the initial value of the framing. *)
Definition checksum (init : Z) (bs : list byte) : Z := foldl (fun c b => fletcherUpdate b c) init bs.

(** Reference: the two running sums of Fletcher's checksum, modulo 255. *)
Fixpoint fletcher_sums (lo hi : Z) (bs : list byte) : Z * Z :=
  match bs with
  | [] => (lo mod 255, hi mod 255)
  | b :: bs => fletcher_sums (lo + b) (hi + (lo + b)) bs
  end.

Definition low (s : Z) : Z := s mod 256.
Definition high (s : Z) : Z := s / 256.

(** Two folds of the high byte into the low one reduce any sum of three bytes
    to one byte, and keep it modulo 255. *)
Definition fold255 (s : Z) : Z :=
  let s1 := s mod 256 + s / 256 in s1 mod 256 + s1 / 256.

Lemma fold255_ok s : 0 <= s <= 1023 -> 0 <= fold255 s < 256 /\ fold255 s mod 255 = s mod 255.
Proof. intros Hs. unfold fold255. cbv zeta. Z.div_mod_to_equations. lia. Qed.

Lemma fletcherUpdate_eq b s : in_u 8 b -> in_u 16 s ->
  fletcherUpdate b s = 256 * fold255 (high s + (low s + b)) + fold255 (low s + b).
Proof.
  unfold in_u. intros Hb Hs. unfold fletcherUpdate. change 0xff with 255.
  rewrite !land_255, !Z.shiftr_div_pow2 by lia. change (2 ^ 8) with 256.
  assert (s / 256 mod 256 = high s) as Eh.
  { unfold high. apply Z.mod_small. Z.div_mod_to_equations. lia. }
  rewrite Eh. fold (low s).
  assert (0 <= low s < 256) as Hl by (apply Z.mod_pos_bound; lia).
  assert (0 <= high s < 256) as Hh by (unfold high; Z.div_mod_to_equations; lia).
  pose proof (fold255_ok (low s + b) ltac:(lia)) as [F1 _].
  pose proof (fold255_ok (high s + (low s + b)) ltac:(lia)) as [F2 _].
  unfold u16. rewrite (wrapu_id 16 (low s + b)), (wrapu_id 16 (high s + (low s + b)))
    by (unfold in_u; lia).
  rewrite (wrapu_id 16 ((low s + b) mod 256 + (low s + b) / 256)),
    (wrapu_id 16 ((high s + (low s + b)) mod 256 + (high s + (low s + b)) / 256))
    by (unfold in_u; Z.div_mod_to_equations; lia).
  change (((low s + b) mod 256 + (low s + b) / 256) mod 256 +
    ((low s + b) mod 256 + (low s + b) / 256) / 256) with (fold255 (low s + b)).
  change (((high s + (low s + b)) mod 256 + (high s + (low s + b)) / 256) mod 256 +
    ((high s + (low s + b)) mod 256 + (high s + (low s + b)) / 256) / 256)
    with (fold255 (high s + (low s + b))).
  rewrite (wrapu_id 16 (fold255 (low s + b))), (wrapu_id 16 (fold255 (high s + (low s + b))))
    by (unfold in_u; lia).
  rewrite Z.shiftl_mul_pow2, lor_disjoint, wrapu_id by (unfold in_u; lia).
  change (2 ^ 8) with 256. lia.
Qed.

Lemma fletcherUpdate_ok b s : in_u 8 b -> in_u 16 s ->
  in_u 16 (fletcherUpdate b s) /\
  low (fletcherUpdate b s) mod 255 = (low s + b) mod 255 /\
  high (fletcherUpdate b s) mod 255 = (high s + (low s + b)) mod 255.
Proof.
  intros Hb Hs. rewrite fletcherUpdate_eq by done. unfold in_u in *.
  assert (0 <= low s < 256) as Hl by (apply Z.mod_pos_bound; lia).
  assert (0 <= high s < 256) as Hh by (unfold high; Z.div_mod_to_equations; lia).
  destruct (fold255_ok (low s + b)) as [F1 M1]; [lia|].
  destruct (fold255_ok (high s + (low s + b))) as [F2 M2]; [lia|].
  generalize dependent (fold255 (low s + b)). intros f F1 M1.
  generalize dependent (fold255 (high s + (low s + b))). intros g F2 M2.
  assert (low (256 * g + f) = f) as -> by (unfold low; Z.div_mod_to_equations; lia).
  assert (high (256 * g + f) = g) as -> by (unfold high; Z.div_mod_to_equations; lia).
  split; [lia|done].
Qed.

Lemma checksum_ok bs : forall s, bytes_ok bs -> in_u 16 s -> in_u 16 (checksum s bs).
Proof.
  induction bs as [|b bs IH]; intros s H Hs; [done|]. inversion_clear H.
  apply IH; [done|]. by apply fletcherUpdate_ok.
Qed.

Lemma checksum_app s b1 b2 : checksum s (b1 ++ b2) = checksum (checksum s b1) b2.
Proof. apply foldl_app. Qed.

Lemma fletcher_sums_mod bs : forall lo hi lo' hi',
  lo mod 255 = lo' mod 255 -> hi mod 255 = hi' mod 255 ->
  fletcher_sums lo hi bs = fletcher_sums lo' hi' bs.
Proof.
  induction bs as [|b bs IH]; intros lo hi lo' hi' E1 E2; simpl; [congruence|].
  apply IH; repeat first [rewrite (Zplus_mod lo b), E1, <- Zplus_mod |
    rewrite (Zplus_mod hi), E2, (Zplus_mod lo b), E1, <- (Zplus_mod lo' b), <- Zplus_mod]; done.
Qed.

Lemma checksum_sums bs : forall s, bytes_ok bs -> in_u 16 s ->
  (low (checksum s bs) mod 255, high (checksum s bs) mod 255) = fletcher_sums (low s) (high s) bs.
Proof.
  induction bs as [|b bs IH]; intros s H Hs; [done|]. inversion_clear H.
  destruct (fletcherUpdate_ok b s) as (Hs' & E1 & E2); [done..|].
  cbn [checksum foldl fletcher_sums]. change (foldl _ _ bs) with (checksum (fletcherUpdate b s) bs).
  rewrite IH by done. by apply fletcher_sums_mod.
Qed.

(** the incremental 16-bit checksum never overflows its registers and holds,
    in its two bytes, the two sums of Fletcher's checksum modulo 255. *)
Theorem fletcher_correct (bs : list byte) (s : Z) :
  bytes_ok bs -> in_u 16 s ->
  in_u 16 (checksum s bs) /\
  (low (checksum s bs) mod 255, high (checksum s bs) mod 255) = fletcher_sums (low s) (high s) bs.
Proof. intros H Hs. split; [by apply checksum_ok|by apply checksum_sums]. Qed.

Lemma fletcher_correct_witness :
  in_u 16 (checksum 0xffff [1; 204; 255]) /\
  (low (checksum 0xffff [1; 204; 255]) mod 255, high (checksum 0xffff [1; 204; 255]) mod 255)
    = fletcher_sums 255 255 [1; 204; 255].
Proof.
  apply (fletcher_correct [1; 204; 255] 0xffff).
  - repeat constructor; unfold in_u; lia.
  - unfold in_u; lia.
Defined.
