(* ===== verification/Transport.v ===== *)
(** * Messages, return codes and the transport interface
      (zcm/zcm.h, zcm/transport.h)

    A C string is the list of its bytes before the terminator.  A transport is
    a state type with the methods of [zcm_trans_methods_t]; the core modules are
    written against this class, and the transports of the repository implement
    it. *)
From S2P Require Import Prelude Bytes.
Local Open Scope Z_scope.

Definition ZCM_EOK : Z := 0.
Definition ZCM_EINVALID : Z := -1.
Definition ZCM_EAGAIN : Z := -2.
Definition ZCM_ECONNECT : Z := -3.
Definition ZCM_EINTR : Z := -4.
Definition ZCM_EUNKNOWN : Z := -5.
Definition ZCM_EMEMORY : Z := -6.
Definition ZCM_EUNIMPL : Z := -7.
Definition ZCM_NUM_RETURN_CODES : Z := 8.

Definition ZCM_CHANNEL_MAXLEN : nat := 32.

Inductive zcm_type := ZCM_BLOCKING | ZCM_NONBLOCKING.

#[export] Instance zcm_type_eq_dec : EqDecision zcm_type.
Proof. solve_decision. Defined.

Abbreviation cstr := (list byte) (only parsing).

(** The bytes of a Rocq string literal. *)
Definition str (s : string) : cstr :=
  (fun a => Z.of_N (Ascii.N_of_ascii a)) <$> String.list_ascii_of_string s.

(** No embedded terminator. *)
Definition cstr_ok (s : cstr) : Prop := Forall (fun b => 0 < b < 256) s.

(** What a C function reads from a block of memory as a string: the bytes up to
    the first terminator. *)
Fixpoint cstring (block : list byte) : cstr :=
  match block with
  | [] => []
  | b :: block => if b =? 0 then [] else b :: cstring block
  end.

Record zcm_msg_t := mkMsg {
  utime : Z;
  channel : cstr;
  len : Z;
  buf : list byte
}.

(** The vtable.  A method that leaves defined behaviour has no result; the two
    optional entries of the table are options. *)
Class Transport (T : Type) := {
  trans_type : T -> zcm_type;
  get_mtu : T -> Z;
  sendmsg : T -> zcm_msg_t -> option (T * Z);
  recvmsg_enable : T -> cstr -> bool -> T * Z;
  recvmsg : T -> Z -> option (T * Z * option zcm_msg_t);
  query_drops : option (T -> Z * Z);
  update : T -> option (T * Z)
}.

Section Dispatch.
Context {T : Type} `{Transport T}.

Definition zcm_trans_get_mtu (zt : T) : Z := get_mtu zt.
Definition zcm_trans_sendmsg (zt : T) (msg : zcm_msg_t) : option (T * Z) := sendmsg zt msg.
Definition zcm_trans_recvmsg_enable (zt : T) (channel : cstr) (enable : bool) : T * Z :=
  recvmsg_enable zt channel enable.
Definition zcm_trans_recvmsg (zt : T) (timeout : Z) : option (T * Z * option zcm_msg_t) :=
  recvmsg zt timeout.

(** The return code and, on success, the counter. *)
Definition zcm_trans_query_drops (zt : T) : Z * Z :=
  match query_drops (T := T) with
  | None => (ZCM_EUNIMPL, 0)
  | Some f => f zt
  end.
Definition zcm_trans_update (zt : T) : option (T * Z) := update zt.
End Dispatch.

Lemma cstring_app s block : cstr_ok s -> cstring (s ++ 0 :: block) = s.
Proof.
  induction 1 as [|b s Hb _ IH]; [done|]. simpl.
  rewrite (proj2 (Z.eqb_neq b 0)) by lia. by rewrite IH.
Qed.

Lemma cstr_ok_bytes s : cstr_ok s -> bytes_ok s.
Proof. intros H. eapply Forall_impl; [exact H|]. unfold in_u. simpl. lia. Qed.

#[export] Hint Resolve cstr_ok_bytes : zcm.
