(* ===== verification/Serial.v ===== *)
(** * The generic serial transport
      (zcm/transport/generic_serial_transport.c)

    Messages travel as frames over a byte stream: an escape byte and a zero, the
    two lengths, the channel and the data with every escape byte doubled, and a
    checksum.  [send]ing writes frames to a byte ring that the user's [put]
    drains, and [recv] parses what the user's [get] has brought in. *)
From S2P Require Import Prelude Bytes CircBuff Fletcher Transport.

Definition ESC : Z := 0xcc.
Definition FRAME_BYTES : nat := 9.

Record zcm_trans_generic_serial_t {U : Type} := mkSerial {
  sendBuffer : circBuffer_t;
  recvBuffer : circBuffer_t;
  recvChanName : list byte;      (* ZCM_CHANNEL_MAXLEN + 1 bytes *)
  mtu : nat;
  recvMsgData : list byte;       (* mtu bytes *)
  usr : U;                       (* the state behind get, put *)
  clock : list Z                 (* what the successive calls of time() return *)
}.
Arguments zcm_trans_generic_serial_t : clear implicits.
Arguments mkSerial {U}.

Section Serial.
Context {U : Type}.
Notation serial := (zcm_trans_generic_serial_t U).

Definition with_send (zt : serial) (cb : circBuffer_t) : serial :=
  mkSerial cb (recvBuffer zt) (recvChanName zt) (mtu zt) (recvMsgData zt) (usr zt) (clock zt).
Definition with_recv (zt : serial) (cb : circBuffer_t) : serial :=
  mkSerial (sendBuffer zt) cb (recvChanName zt) (mtu zt) (recvMsgData zt) (usr zt) (clock zt).

(** [alloc]: whether each of the four allocations succeeds. *)
Definition zcm_trans_generic_serial_create (u : U) (times : list Z) (MTU bufSize : nat)
    (a1 a2 a3 a4 : bool) : option serial :=
  if (MTU =? 0) || (bufSize <? FRAME_BYTES + MTU) then None else
  if negb a1 then None else
  if negb a2 then None else
  send <- cb_init a3 bufSize ;;
  recv <- cb_init a4 bufSize ;;
  Some (mkSerial send recv (replicate (ZCM_CHANNEL_MAXLEN + 1) 0%Z) MTU (replicate MTU 0%Z) u times).

Definition serial_get_mtu (zt : serial) : nat := mtu zt.

(** ** Sending *)

Fixpoint push_list (cb : circBuffer_t) (bs : list byte) : option circBuffer_t :=
  match bs with
  | [] => Some cb
  | b :: bs => cb' <- cb_push_back cb b ;; push_list cb' bs
  end.

(** The loops over the channel and over the data: [n] bytes in the section, [i]
    of them done, [tail] bytes in the section after it.  [inl] is the early
    return that takes back everything pushed. *)
Fixpoint send_section (n tail i : nat) (bs : list byte)
    (cb : circBuffer_t) (nPushed : nat) (cs : Z)
  : option (circBuffer_t + circBuffer_t * nat * Z) :=
  match bs with
  | [] => Some (inr (cb, nPushed, cs))
  | c :: bs =>
      cb <- cb_push_back cb c ;;
      let nPushed := nPushed + 1 in
      if (c =? ESC)%Z then
        if n - i + tail + 1 <? cb_room cb then
          cb <- cb_push_back cb c ;;
          send_section n tail (i + 1) bs cb (nPushed + 1) (fletcherUpdate c cs)
        else Some (inl (cb_pop_back cb nPushed))
      else send_section n tail (i + 1) bs cb nPushed (fletcherUpdate c cs)
  end.

(** The seven bytes pushed before the channel. *)
Definition header (chan_len : nat) (msg_len : Z) : list byte :=
  let len := u32 msg_len in
  [ESC; 0; wrapu 8 (Z.of_nat chan_len);
   Z.land (Z.shiftr len 24) 0xff; Z.land (Z.shiftr len 16) 0xff;
   Z.land (Z.shiftr len 8) 0xff; Z.land (Z.shiftr len 0) 0xff]%Z.

Definition serial_sendmsg (zt : serial) (msg : zcm_msg_t) : option (serial * Z) :=
  let chan_len := length (channel msg) in
  if ZCM_CHANNEL_MAXLEN <? chan_len then Some (zt, ZCM_EINVALID) else
  if (Z.of_nat (mtu zt) <? len msg)%Z then Some (zt, ZCM_EINVALID) else
  if (Z.of_nat (cb_room (sendBuffer zt)) <? Z.of_nat (FRAME_BYTES + chan_len) + len msg)%Z
  then Some (zt, ZCM_EAGAIN) else
  cb <- push_list (sendBuffer zt) (header chan_len (len msg)) ;;
  let msg_len := Z.to_nat (len msg) in
  r <- send_section chan_len msg_len 0 (channel msg) cb 7 0xffff ;;
  match r with
  | inl cb => Some (with_send zt cb, ZCM_EAGAIN)
  | inr (cb, nPushed, cs) =>
      r <- send_section msg_len 0 0 (take msg_len (buf msg)) cb nPushed cs ;;
      match r with
      | inl cb => Some (with_send zt cb, ZCM_EAGAIN)
      | inr (cb, nPushed, cs) =>
          cb <- push_list cb [Z.land (Z.shiftr cs 8) 0xff; Z.land cs 0xff]%Z ;;
          Some (with_send zt cb, ZCM_EOK)
      end
  end.

Definition serial_recvmsg_enable (zt : serial) (channel : cstr) (enable : bool) : serial * Z :=
  (zt, ZCM_EOK).

(** ** Receiving *)

(** How the parse of a section ends: wait for more bytes, resynchronise, or go
    on with the bytes stored, the offset reached and the checksum so far. *)
Inductive section_result :=
  | SecAgain (dst : list byte)
  | SecFail (dst : list byte)
  | SecDone (dst : list byte) (consumed : nat) (cs : Z).

Definition store_at (dst : list byte) (i : nat) (c : byte) : option (list byte) :=
  check i <? length dst ;; Some (<[i := c]> dst).

(** The loops over the channel and over the data; [todo] is [n - i].  The
    channel loop has no test at its top ([guard = false]), the data loop tests
    that it has not run past the bytes received. *)
Fixpoint recv_section (guard : bool) (cb : circBuffer_t) (incomingSize n tail : nat)
    (todo : nat) (dst : list byte) (consumed : nat) (cs : Z) : option section_result :=
  match todo with
  | 0 => Some (SecDone dst consumed cs)
  | S todo' =>
      let i := n - todo in
      if guard && (incomingSize <? consumed) then Some (SecAgain dst) else
      c <- cb_front cb consumed ;;
      let consumed := consumed + 1 in
      if (c =? ESC)%Z then
        if incomingSize <? consumed + n - i + tail + 2 then Some (SecAgain dst) else
        c <- cb_front cb consumed ;;
        let consumed := consumed + 1 in
        if negb (c =? ESC)%Z then Some (SecFail dst) else
        dst <- store_at dst i c ;;
        recv_section guard cb incomingSize n tail todo' dst consumed (fletcherUpdate c cs)
      else
        dst <- store_at dst i c ;;
        recv_section guard cb incomingSize n tail todo' dst consumed (fletcherUpdate c cs)
  end.

(** How one pass over the received bytes ends. *)
Inductive pass_result := PassAgain | PassFail | PassMsg (msg_len consumed : nat).

Definition with_rx (zt : serial) (chan dat : list byte) : serial :=
  mkSerial (sendBuffer zt) (recvBuffer zt) chan (mtu zt) dat (usr zt) (clock zt).

(** [memset(&zt->recvChanName, 0, ZCM_CHANNEL_MAXLEN)] *)
Definition clear_name (name : list byte) : list byte :=
  replicate ZCM_CHANNEL_MAXLEN 0%Z ++ drop ZCM_CHANNEL_MAXLEN name.

Definition recv_pass (zt : serial) (incomingSize : nat) : option (serial * pass_result) :=
  let cb := recvBuffer zt in
  b0 <- cb_front cb 0 ;;
  if negb (b0 =? ESC)%Z then Some (zt, PassFail) else
  b1 <- cb_front cb 1 ;;
  if negb (b1 =? 0)%Z then Some (zt, PassFail) else
  b2 <- cb_front cb 2 ;;
  b3 <- cb_front cb 3 ;; b4 <- cb_front cb 4 ;; b5 <- cb_front cb 5 ;; b6 <- cb_front cb 6 ;;
  let chan_len := Z.to_nat b2 in
  let msg_len := Z.to_nat (Z.lor (Z.lor (Z.lor (u32 (Z.shiftl b3 24)) (u32 (Z.shiftl b4 16)))
                                        (u32 (Z.shiftl b5 8))) b6) in
  if ZCM_CHANNEL_MAXLEN <? chan_len then Some (zt, PassFail) else
  if mtu zt <? msg_len then Some (zt, PassFail) else
  if incomingSize <? FRAME_BYTES + chan_len + msg_len then Some (zt, PassAgain) else
  r <- recv_section false cb incomingSize chan_len msg_len chan_len (clear_name (recvChanName zt)) 7 0xffff ;;
  match r with
  | SecAgain name => Some (with_rx zt name (recvMsgData zt), PassAgain)
  | SecFail name => Some (with_rx zt name (recvMsgData zt), PassFail)
  | SecDone name consumed cs =>
      name <- store_at name chan_len 0%Z ;;
      r <- recv_section true cb incomingSize msg_len 0 msg_len (recvMsgData zt) consumed cs ;;
      match r with
      | SecAgain dat => Some (with_rx zt name dat, PassAgain)
      | SecFail dat => Some (with_rx zt name dat, PassFail)
      | SecDone dat consumed cs =>
          h <- cb_front cb consumed ;;
          l <- cb_front cb (consumed + 1) ;;
          let receivedCS := Z.lor (Z.shiftl h 8) l in
          Some (with_rx zt name dat,
                if (receivedCS =? cs)%Z then PassMsg msg_len (consumed + 2) else PassFail)
      end
  end.

(** The [do ... while] at [fail]: drop a byte, then every byte before the next
    escape byte.  Each turn drops one, so [fuel] never runs out when it is the
    number of bytes ([resync_rep]). *)
Fixpoint resync (fuel : nat) (cb : circBuffer_t) : option circBuffer_t :=
  match fuel with
  | 0 => None
  | S fuel =>
      let cb := cb_pop_front cb 1 in
      if cb_size cb =? 0 then Some cb else
      c <- cb_front cb 0 ;;
      if (c =? ESC)%Z then Some cb else resync fuel cb
  end.

(** The body from [serial_recvmsg_start]; every failed pass drops at least one
    byte before the jump back, so the number of bytes received bounds the
    passes ([serial_recvmsg_total]). *)
Fixpoint recv_passes (fuel : nat) (zt : serial) : option (serial * Z * option zcm_msg_t) :=
  match fuel with
  | 0 => None
  | S fuel =>
      let utime := default 0%Z (head (clock zt)) in
      let zt := mkSerial (sendBuffer zt) (recvBuffer zt) (recvChanName zt) (mtu zt)
                         (recvMsgData zt) (usr zt) (tail (clock zt)) in
      let incomingSize := cb_size (recvBuffer zt) in
      if incomingSize <? FRAME_BYTES then Some (zt, ZCM_EAGAIN, None) else
      '(zt, r) <- recv_pass zt incomingSize ;;
      match r with
      | PassAgain => Some (zt, ZCM_EAGAIN, None)
      | PassMsg msg_len consumed =>
          Some (with_recv zt (cb_pop_front (recvBuffer zt) consumed), ZCM_EOK,
                Some (mkMsg utime (cstring (recvChanName zt)) (Z.of_nat msg_len)
                            (take msg_len (recvMsgData zt))))
      | PassFail =>
          cb <- resync (cb_size (recvBuffer zt)) (recvBuffer zt) ;;
          recv_passes fuel (with_recv zt cb)
      end
  end.

Definition serial_recvmsg (zt : serial) (timeout : Z) : option (serial * Z * option zcm_msg_t) :=
  recv_passes (S (cb_size (recvBuffer zt))) zt.

(** ** Moving bytes *)

Definition serial_update_rx_with (read : U -> nat -> U * list byte) (zt : serial) : serial * Z :=
  let '(cb, u, _) := cb_flush_in_with read (recvBuffer zt) (usr zt) in
  (mkSerial (sendBuffer zt) cb (recvChanName zt) (mtu zt) (recvMsgData zt) u (clock zt), ZCM_EOK).

Definition serial_update_rx `{ByteSource U} : serial -> serial * Z := serial_update_rx_with read.

Definition serial_update_tx `{ByteSink U} (zt : serial) : serial * Z :=
  let '(cb, u, _) := cb_flush_out (sendBuffer zt) (usr zt) in
  (mkSerial cb (recvBuffer zt) (recvChanName zt) (mtu zt) (recvMsgData zt) u (clock zt), ZCM_EOK).

Definition _serial_update `{ByteSource U, ByteSink U} (zt : serial) : serial * Z :=
  let '(zt, rxRet) := serial_update_rx zt in
  let '(zt, txRet) := serial_update_tx zt in
  (zt, if (rxRet =? ZCM_EOK)%Z then txRet else rxRet).

(** The [methods] table of the file. *)
#[export] Instance serial_transport `{ByteSource U, ByteSink U} : Transport serial :=
  {| trans_type _ := ZCM_NONBLOCKING;
     get_mtu zt := Z.of_nat (serial_get_mtu zt);
     sendmsg := serial_sendmsg;
     recvmsg_enable := serial_recvmsg_enable;
     recvmsg := serial_recvmsg;
     query_drops := None;
     update zt := Some (_serial_update zt) |}.
End Serial.
