(* ===== verification/SerialProps.v ===== *)
(** * Correctness of the serial framing

    [frame] is the byte sequence the header comment of
    generic_serial_transport.c describes; sending appends it or leaves the
    buffer as it was, and receiving inverts it. *)
From S2P Require Import Prelude Bytes CircBuff Fletcher Transport CoreTypes Serial.

(** Escaped bytes and frames. *)
Fixpoint esc (bs : list byte) : list byte :=
  match bs with
  | [] => []
  | c :: bs => if (c =? ESC)%Z then c :: c :: esc bs else c :: esc bs
  end.

Definition trailer (chan dat : list byte) : list byte :=
  let cs := checksum 0xffff (chan ++ dat) in
  [Z.land (Z.shiftr cs 8) 0xff; Z.land cs 0xff]%Z.

Definition frame (chan dat : list byte) : list byte :=
  header (length chan) (Z.of_nat (length dat)) ++ esc chan ++ esc dat ++ trailer chan dat.

Lemma length_esc bs : length bs <= length (esc bs).
Proof. induction bs; simpl; [done|]. case_test; simpl; lia. Qed.

Lemma length_frame chan dat : length (frame chan dat) = 9 + length (esc chan) + length (esc dat).
Proof. unfold frame. rewrite !length_app. simpl. lia. Qed.

(** ** Sending *)

Lemma push_list_rep bs : forall cb l, rep cb l -> length l + length bs < capacity cb ->
  exists cb', push_list cb bs = Some cb' /\ rep cb' (l ++ bs) /\ capacity cb' = capacity cb.
Proof.
  induction bs as [|b bs IH]; intros cb l R Hl; simpl in *.
  { exists cb. by rewrite app_nil_r. }
  destruct (cb_push_back_rep cb l R b) as (cb1 & -> & R1 & C1).
  { rewrite (cb_room_rep cb l R). lia. }
  destruct (IH cb1 (l ++ [b]) R1) as (cb2 & -> & R2 & C2); [rewrite length_app; simpl; lia|].
  exists cb2. rewrite <- app_assoc in R2. split_and!; [done..|congruence].
Qed.

Lemma rollback cb l s nPushed : rep cb (l ++ s) -> nPushed <= length l ->
  rep (cb_pop_back cb (nPushed + length s)) (take (length l - nPushed) l).
Proof.
  intros R Hn. set (k := length l - nPushed).
  replace (nPushed + length s) with (length (drop k l ++ s))
    by (rewrite length_app, length_drop; lia).
  apply cb_pop_back_rep. by rewrite app_assoc, take_drop.
Qed.

(** A section is pushed whole, escaped, when it fits with what must follow it;
    otherwise everything pushed for the message is taken back. *)
Lemma send_section_rep bs : forall n tail i cb l nPushed cs,
  rep cb l -> i + length bs = n -> nPushed <= length l ->
  length l + length bs + tail + 2 < capacity cb ->
  if length l + length (esc bs) + tail + 2 <? capacity cb then
    exists cb', send_section n tail i bs cb nPushed cs
        = Some (inr (cb', nPushed + length (esc bs), checksum cs bs)) /\
      rep cb' (l ++ esc bs) /\ capacity cb' = capacity cb
  else
    exists cb', send_section n tail i bs cb nPushed cs = Some (inl cb') /\
      rep cb' (take (length l - nPushed) l) /\ capacity cb' = capacity cb.
Proof.
  induction bs as [|c bs IH]; intros n tail i cb l nPushed cs R Hn Hp Hc; simpl in *.
  { rewrite (proj2 (Nat.ltb_lt _ _)) by lia. exists cb. by rewrite app_nil_r, Nat.add_0_r. }
  destruct (cb_push_back_rep cb l R c) as (cb1 & -> & R1 & C1).
  { rewrite (cb_room_rep cb l R). lia. }
  rewrite (cb_room_rep cb1 _ R1), C1, length_app. simpl.
  pose proof (length_esc bs).
  destruct (c =? ESC)%Z eqn:Ec; bool_prop; simpl.
  - destruct (n - i + tail + 1 <? capacity cb - 1 - (length l + 1)) eqn:Eg; bool_prop.
    + destruct (cb_push_back_rep cb1 _ R1 c) as (cb2 & -> & R2 & C2).
      { rewrite (cb_room_rep cb1 _ R1), C1, length_app. simpl. lia. }
      specialize (IH n tail (i + 1) cb2 ((l ++ [c]) ++ [c]) (nPushed + 1 + 1)
        (fletcherUpdate c cs) R2).
      rewrite !length_app, C2, C1 in IH. simpl in IH.
      specialize (IH ltac:(lia) ltac:(lia) ltac:(lia)).
      replace (length l + S (S (length (esc bs))) + tail + 2)
        with (length l + 1 + 1 + length (esc bs) + tail + 2) by lia.
      destruct (_ <? capacity cb).
      * destruct IH as (cb' & -> & R' & C'). exists cb'. rewrite <- !app_assoc in R'. simpl in R'.
        split_and!; [|done|congruence]. do 4 f_equal. lia.
      * destruct IH as (cb' & -> & R' & C'). exists cb'. split_and!; [done| |congruence].
        replace (length l + 1 + 1 - (nPushed + 1 + 1)) with (length l - nPushed) in R' by lia.
        by rewrite <- app_assoc, take_app_le in R' by lia.
    + rewrite (proj2 (Nat.ltb_ge _ _)) by lia. eexists. split_and!; [done| |done].
      by apply (rollback cb1 l [c]).
  - specialize (IH n tail (i + 1) cb1 (l ++ [c]) (nPushed + 1) (fletcherUpdate c cs) R1).
    rewrite !length_app, C1 in IH. simpl in IH.
    specialize (IH ltac:(lia) ltac:(lia) ltac:(lia)).
    replace (length l + S (length (esc bs)) + tail + 2)
      with (length l + 1 + length (esc bs) + tail + 2) by lia.
    destruct (_ <? capacity cb).
    + destruct IH as (cb' & -> & R' & C'). exists cb'. rewrite <- app_assoc in R'. simpl in R'.
      split_and!; [|done|congruence]. do 4 f_equal. lia.
    + destruct IH as (cb' & -> & R' & C'). exists cb'. split_and!; [done| |congruence].
      replace (length l + 1 - (nPushed + 1)) with (length l - nPushed) in R' by lia.
      by rewrite take_app_le in R' by lia.
Qed.

(** What [serial_sendmsg] does to the bytes waiting to be sent. *)
Lemma serial_sendmsg_rep {U} (zt : zcm_trans_generic_serial_t U) l msg :
  rep (sendBuffer zt) l -> bytes_ok (buf msg) -> len msg = Z.of_nat (length (buf msg)) ->
  let fr := frame (channel msg) (buf msg) in
  exists cb' rc, serial_sendmsg zt msg = Some (with_send zt cb', rc) /\
    capacity cb' = capacity (sendBuffer zt) /\
    if (ZCM_CHANNEL_MAXLEN <? length (channel msg)) || (mtu zt <? length (buf msg)) then
      rc = ZCM_EINVALID /\ rep cb' l
    else if length l + length fr <? capacity (sendBuffer zt) then
      rc = ZCM_EOK /\ rep cb' (l ++ fr)
    else rc = ZCM_EAGAIN /\ rep cb' l.
Proof.
  intros R Hb Hlen fr. unfold serial_sendmsg.
  assert (with_send zt (sendBuffer zt) = zt) as Ez by (by destruct zt).
  destruct (ZCM_CHANNEL_MAXLEN <? length (channel msg)) eqn:E1; cbn [orb].
  { exists (sendBuffer zt), ZCM_EINVALID. by rewrite Ez. }
  replace (Z.of_nat (mtu zt) <? len msg)%Z with (mtu zt <? length (buf msg))
    by (apply eq_true_iff_eq; rewrite Nat.ltb_lt, Z.ltb_lt; lia).
  destruct (mtu zt <? length (buf msg)) eqn:E2.
  { exists (sendBuffer zt), ZCM_EINVALID. by rewrite Ez. }
  rewrite (cb_room_rep _ _ R), Hlen, Nat2Z.id, take_ge by done.
  pose proof (length_frame (channel msg) (buf msg)) as Hf. fold fr in Hf.
  pose proof (length_esc (channel msg)). pose proof (length_esc (buf msg)).
  pose proof (rep_room _ _ R). unfold FRAME_BYTES.
  case_test.
  { exists (sendBuffer zt), ZCM_EAGAIN. rewrite Ez, (proj2 (Nat.ltb_ge _ _)) by lia. done. }
  set (h := header _ _). assert (length h = 7) as Hh by done.
  destruct (push_list_rep h _ l R) as (cb1 & -> & R1 & C1); [lia|].
  pose proof (send_section_rep (channel msg) (length (channel msg)) (length (buf msg)) 0 cb1
    (l ++ h) 7 0xffff%Z R1) as S1.
  rewrite length_app, Hh, C1 in S1. specialize (S1 ltac:(lia) ltac:(lia) ltac:(lia)).
  destruct (_ <? capacity (sendBuffer zt)) eqn:Ef1 in S1; bool_prop.
  2: { destruct S1 as (cb2 & -> & R2 & C2). exists cb2, ZCM_EAGAIN.
       rewrite (proj2 (Nat.ltb_ge _ _)) by lia. split_and!; [done|congruence|done|].
       by rewrite Nat.add_sub, take_app_length in R2. }
  destruct S1 as (cb2 & -> & R2 & C2). cbn beta iota.
  pose proof (send_section_rep (buf msg) (length (buf msg)) 0 0 cb2
    _ (7 + length (esc (channel msg))) (checksum 0xffff (channel msg)) R2) as S2.
  rewrite !length_app, Hh, C2 in S2. specialize (S2 ltac:(lia) ltac:(lia) ltac:(lia)).
  destruct (_ <? capacity (sendBuffer zt)) eqn:Ef2 in S2; bool_prop.
  2: { destruct S2 as (cb3 & -> & R3 & C3). exists cb3, ZCM_EAGAIN.
       rewrite (proj2 (Nat.ltb_ge _ _)) by lia. split_and!; [done|congruence|done|].
       replace (_ - _) with (length l) in R3 by lia.
       by rewrite <- app_assoc, take_app_length in R3. }
  destruct S2 as (cb3 & -> & R3 & C3).
  rewrite <- checksum_app.
  destruct (push_list_rep (trailer (channel msg) (buf msg)) cb3 _ R3) as (cb4 & E4 & R4 & C4).
  { rewrite !length_app, C3, Hh. simpl. lia. }
  unfold trailer in E4. rewrite E4.
  exists cb4, ZCM_EOK. rewrite (proj2 (Nat.ltb_lt _ _)) by lia.
  split_and!; [done|congruence|done|].
  rewrite <- !app_assoc in R4. exact R4.
Qed.

(** ** Receiving *)

Lemma store_at_ok dst i c : i < length dst -> store_at dst i c = Some (write_at dst i [c]).
Proof. intros H. unfold store_at. rewrite (proj2 (Nat.ltb_lt _ _) H). by rewrite insert_write_at. Qed.

(** Parsing a section of received bytes reads only received bytes and stores
    only inside the destination. *)
Lemma recv_section_total g cb l n tail : rep cb l -> forall todo dst consumed cs,
  todo <= n -> n <= length dst -> consumed + todo + tail + 2 <= length l ->
  exists r, recv_section g cb (length l) n tail todo dst consumed cs = Some r /\
    match r with
    | SecDone d c _ => length d = length dst /\ c + tail + 2 <= length l
    | SecAgain d | SecFail d => length d = length dst
    end.
Proof.
  intros R. induction todo as [|todo IH]; intros dst consumed cs Hn Hd Hl; simpl recv_section.
  { eexists. split; [done|]. simpl. lia. }
  rewrite (proj2 (Nat.ltb_ge (length l) consumed)), andb_false_r by lia.
  rewrite (cb_front_rep _ _ R) by lia.
  destruct (lookup_lt_is_Some_2 l consumed) as [c ->]; [lia|].
  set (i := n - S todo). assert (i < length dst) by lia.
  destruct (c =? ESC)%Z.
  - case_test; [by eexists|].
    rewrite (cb_front_rep _ _ R) by lia.
    destruct (lookup_lt_is_Some_2 l (consumed + 1)) as [c2 ->]; [lia|].
    destruct (negb (c2 =? ESC)%Z); [by eexists|].
    rewrite store_at_ok by done.
    destruct (IH (write_at dst i [c2]) (consumed + 1 + 1) (fletcherUpdate c2 cs)) as (r & -> & Hr);
      rewrite ?length_write_at in * by (simpl; lia); [lia..|]. by eexists.
  - rewrite store_at_ok by done.
    destruct (IH (write_at dst i [c]) (consumed + 1) (fletcherUpdate c cs)) as (r & -> & Hr);
      rewrite ?length_write_at in * by (simpl; lia); [lia..|]. by eexists.
Qed.

Lemma drop_app_cons {A} (l more : list A) k x s : k < length l ->
  drop k l ++ more = x :: s -> l !! k = Some x /\ drop (k + 1) l ++ more = s.
Proof.
  intros Hk. destruct (lookup_lt_is_Some_2 l k Hk) as [y E].
  rewrite (drop_S _ _ _ E), Nat.add_1_r. simpl. intros [= -> ->]. done.
Qed.

Lemma write_at_snoc dst i c bs : i + S (length bs) <= length dst ->
  write_at (write_at dst i [c]) (i + 1) bs = write_at dst i (c :: bs).
Proof. intros. apply (write_at_app dst i [c] bs). simpl. lia. Qed.

(** When the bytes received so far and those still to come spell an escaped
    section, it is parsed to the end if it is there with what must follow it,
    and otherwise waits for more. *)
Lemma recv_section_prefix g cb l n tail more rest : rep cb l -> forall bs i dst consumed cs,
  i + length bs = n -> n <= length dst -> consumed + length bs + tail + 2 <= length l ->
  drop consumed l ++ more = esc bs ++ rest ->
  let r := recv_section g cb (length l) n tail (length bs) dst consumed cs in
  if consumed + length (esc bs) + tail + 2 <=? length l then
    r = Some (SecDone (write_at dst i bs) (consumed + length (esc bs)) (checksum cs bs))
  else exists d, r = Some (SecAgain d) /\ length d = length dst.
Proof.
  intros R. induction bs as [|c bs IH]; intros i dst consumed cs Hn Hd Hl E.
  { simpl in *. rewrite (proj2 (Nat.leb_le _ _)) by lia. by rewrite write_at_nil, Nat.add_0_r. }
  simpl in Hn, Hl. simpl recv_section. simpl esc in *.
  rewrite (proj2 (Nat.ltb_ge (length l) consumed)), andb_false_r by lia.
  rewrite (cb_front_rep _ _ R) by lia.
  replace (n - S (length bs)) with i by lia.
  specialize (IH (i + 1) (write_at dst i [c])).
  rewrite length_write_at, write_at_snoc in IH by (simpl; lia).
  destruct (c =? ESC)%Z eqn:Ec; simpl app in E.
  - apply drop_app_cons in E as [-> E]; [|lia]. rewrite Ec. simpl length.
    destruct (Nat.ltb_spec (length l) (consumed + 1 + n - i + tail + 2)).
    { rewrite (proj2 (Nat.leb_gt _ _)) by (pose proof (length_esc bs); lia). by eexists. }
    apply drop_app_cons in E as [E0 E]; [|lia].
    rewrite (cb_front_rep _ _ R), E0, Ec by lia. simpl negb. cbv iota.
    rewrite store_at_ok by lia.
    specialize (IH (consumed + 1 + 1) (fletcherUpdate c cs) ltac:(lia) ltac:(lia) ltac:(lia) E).
    replace (consumed + 1 + 1 + length (esc bs)) with (consumed + S (S (length (esc bs)))) in IH by lia.
    exact IH.
  - apply drop_app_cons in E as [-> E]; [|lia]. rewrite Ec.
    rewrite store_at_ok by lia. simpl length.
    specialize (IH (consumed + 1) (fletcherUpdate c cs) ltac:(lia) ltac:(lia) ltac:(lia) E).
    replace (consumed + 1 + length (esc bs)) with (consumed + S (length (esc bs))) in IH by lia.
    exact IH.
Qed.

Section Receiver.
Context {U : Type}.
Notation serial := (zcm_trans_generic_serial_t U).

(** The receiving side holds the bytes [l]; its two destinations have their
    allocated sizes. *)
Record rx_ok (zt : serial) (l : list byte) : Prop := {
  rx_rep : rep (recvBuffer zt) l;
  rx_bytes : bytes_ok l;
  rx_name : length (recvChanName zt) = ZCM_CHANNEL_MAXLEN + 1;
  rx_data : length (recvMsgData zt) = mtu zt
}.

Lemma rx_ok_with_rx zt l name dat : rx_ok zt l -> length name = ZCM_CHANNEL_MAXLEN + 1 ->
  length dat = mtu zt -> rx_ok (with_rx zt name dat) l.
Proof. intros []. by split. Qed.

Lemma rx_ok_with_recv zt l cb k : rx_ok zt l -> rep cb (drop k l) ->
  rx_ok (with_recv zt cb) (drop k l).
Proof. intros []. split; [done|by apply Forall_drop|done|done]. Qed.

Lemma length_clear_name name : length name = ZCM_CHANNEL_MAXLEN + 1 ->
  length (clear_name name) = ZCM_CHANNEL_MAXLEN + 1.
Proof. intros H. unfold clear_name. rewrite length_app, length_replicate, length_drop. lia. Qed.

Lemma lookup_in (l : list byte) i : i < length l -> bytes_ok l ->
  exists b, l !! i = Some b /\ in_u 8 b.
Proof.
  intros Hi Hb. destruct (lookup_lt_is_Some_2 l i Hi) as [b E]. exists b.
  split; [done|]. by eapply Forall_lookup_1 in Hb.
Qed.

(** A pass over received bytes, whatever they are, stays within the buffers. *)
Lemma recv_pass_total zt l : rx_ok zt l -> FRAME_BYTES <= length l ->
  exists name dat r, recv_pass zt (length l) = Some (with_rx zt name dat, r) /\
    rx_ok (with_rx zt name dat) l /\
    match r with PassMsg n c => n <= mtu zt /\ c <= length l | _ => True end.
Proof.
  intros X Hl. pose proof X as [R Hb Hn Hd]. unfold FRAME_BYTES in *. unfold recv_pass.
  assert (with_rx zt (recvChanName zt) (recvMsgData zt) = zt) as Ez by (by destruct zt).
  assert (forall r, match r with PassMsg _ _ => False | _ => True end ->
    exists name dat r', Some (zt, r) = Some (with_rx zt name dat, r') /\
    rx_ok (with_rx zt name dat) l /\
    match r' with PassMsg n c => n <= mtu zt /\ c <= length l | _ => True end) as stay.
  { intros r Hr. exists (recvChanName zt), (recvMsgData zt), r. rewrite Ez.
    split_and!; [done..|by destruct r]. }
  rewrite !(cb_front_rep _ _ R) by lia.
  destruct (lookup_in l 0) as (b0 & -> & _); [lia|done|].
  destruct (lookup_in l 1) as (b1 & -> & _); [lia|done|].
  destruct (lookup_in l 2) as (b2 & -> & _); [lia|done|].
  destruct (lookup_in l 3) as (b3 & -> & _); [lia|done|].
  destruct (lookup_in l 4) as (b4 & -> & _); [lia|done|].
  destruct (lookup_in l 5) as (b5 & -> & _); [lia|done|].
  destruct (lookup_in l 6) as (b6 & -> & _); [lia|done|].
  destruct (negb _); [by apply stay|]. destruct (negb _); [by apply stay|].
  set (n := Z.to_nat b2). set (m := Z.to_nat _).
  destruct (Nat.ltb_spec ZCM_CHANNEL_MAXLEN n); [by apply stay|].
  destruct (Nat.ltb_spec (mtu zt) m); [by apply stay|].
  destruct (Nat.ltb_spec (length l) (FRAME_BYTES + n + m)) as [|Hs]; [by apply stay|].
  unfold FRAME_BYTES in Hs.
  pose proof (length_clear_name _ Hn) as Hc.
  destruct (recv_section_total false _ l n m R n (clear_name (recvChanName zt)) 7 0xffff)
    as (r & -> & Hr); [lia..|].
  destruct r as [d|d|d c cs].
  1,2: by eexists d, (recvMsgData zt), _; split_and!; [done|apply rx_ok_with_rx; (done || lia)|].
  destruct Hr as [Hd1 Hc1].
  rewrite store_at_ok by lia.
  set (name := write_at d n [0%Z]).
  assert (length name = ZCM_CHANNEL_MAXLEN + 1) by (unfold name; rewrite length_write_at; cbn [length]; lia).
  destruct (recv_section_total true _ l m 0 R m (recvMsgData zt) c cs) as (r & -> & Hr); [lia..|].
  destruct r as [d2|d2|d2 c2 cs2].
  1,2: by eexists name, d2, _; split_and!; [done|apply rx_ok_with_rx; (done || lia)|].
  destruct Hr as [Hd2 Hc2]. rewrite !(cb_front_rep _ _ R) by lia.
  destruct (lookup_in l c2) as (h & -> & _); [lia|done|].
  destruct (lookup_in l (c2 + 1)) as (h' & -> & _); [lia|done|].
  eexists name, d2, _. split_and!; [done|apply rx_ok_with_rx; (done || lia)|].
  case_test; [lia|done].
Qed.

(** Two transports that differ only in their rings, which may hold the same bytes at
    different places, with different stale bytes around them, and in what [recvmsg] does
    not look at. *)
Record rx_agree (z1 z2 : serial) : Prop := {
  ra_name : recvChanName z1 = recvChanName z2;
  ra_mtu : mtu z1 = mtu z2;
  ra_data : recvMsgData z1 = recvMsgData z2;
  ra_clock : clock z1 = clock z2
}.

(** Parsing a section depends only on the bytes received. *)
Lemma recv_section_agree g cb1 cb2 l n tail : rep cb1 l -> rep cb2 l -> forall todo dst consumed cs,
  todo <= n -> consumed + todo + tail + 2 <= length l ->
  recv_section g cb1 (length l) n tail todo dst consumed cs =
  recv_section g cb2 (length l) n tail todo dst consumed cs.
Proof.
  intros R1 R2. induction todo as [|todo IH]; intros dst consumed cs Hn Hl; simpl recv_section; [done|].
  case_match; [done|].
  rewrite (cb_front_rep _ _ R1), (cb_front_rep _ _ R2) by lia.
  destruct (l !! consumed) as [c|]; [|done].
  destruct (c =? ESC)%Z.
  - destruct (Nat.ltb_spec (length l) (consumed + 1 + n - (n - S todo) + tail + 2)); [done|].
    rewrite (cb_front_rep _ _ R1), (cb_front_rep _ _ R2) by lia.
    destruct (l !! (consumed + 1)) as [c2|]; [|done]. destruct (negb _); [done|].
    destruct (store_at _ _ _); [|done]. apply IH; lia.
  - destruct (store_at _ _ _); [|done]. apply IH; lia.
Qed.

Lemma recv_pass_agree z1 z2 l : rx_ok z1 l -> rx_ok z2 l -> rx_agree z1 z2 -> FRAME_BYTES <= length l ->
  exists name dat r, recv_pass z1 (length l) = Some (with_rx z1 name dat, r) /\
    recv_pass z2 (length l) = Some (with_rx z2 name dat, r).
Proof.
  intros X1 X2 [An Am Ad _] Hl. pose proof X1 as [R1 Hb Hn Hd]. pose proof X2 as [R2 _ _ _].
  destruct (recv_pass_total z1 l X1 Hl) as (name & dat & r & E & _). exists name, dat, r. split; [done|].
  assert (forall a b x, Some (with_rx z1 a b, x) = Some (with_rx z1 name dat, r) ->
    Some (with_rx z2 a b, x) = Some (with_rx z2 name dat, r)) as go by (by intros a b x [= -> -> ->]).
  assert (forall x, Some (z1, x) = Some (with_rx z1 name dat, r) ->
    Some (z2, x) = Some (with_rx z2 name dat, r)) as stay.
  { intros x E0. rewrite <- (go (recvChanName z1) (recvMsgData z1) x).
    - rewrite An, Ad. by destruct z2.
    - rewrite <- E0. by destruct z1. }
  unfold FRAME_BYTES in Hl. unfold recv_pass in *.
  rewrite !(cb_front_rep _ _ R1) in E by lia. rewrite !(cb_front_rep _ _ R2) by lia. rewrite <- An, <- Am, <- Ad.
  destruct (l !! 0) as [b0|]; [|done].
  destruct (negb _); [exact (stay _ E)|]. destruct (l !! 1) as [b1|]; [|done].
  destruct (negb _); [exact (stay _ E)|]. destruct (l !! 2) as [b2|]; [|done].
  destruct (l !! 3) as [b3|]; [|done]. destruct (l !! 4) as [b4|]; [|done].
  destruct (l !! 5) as [b5|]; [|done]. destruct (l !! 6) as [b6|]; [|done].
  set (n := Z.to_nat b2) in *. set (m := Z.to_nat (Z.lor _ _)) in *.
  destruct (Nat.ltb_spec ZCM_CHANNEL_MAXLEN n); [exact (stay _ E)|].
  destruct (Nat.ltb_spec (mtu z1) m); [exact (stay _ E)|].
  destruct (Nat.ltb_spec (length l) (FRAME_BYTES + n + m)) as [|Hs]; [exact (stay _ E)|].
  unfold FRAME_BYTES in Hs. pose proof (length_clear_name _ Hn) as Hc.
  rewrite (recv_section_agree _ _ _ _ _ _ R2 R1) by lia.
  destruct (recv_section_total false _ l n m R1 n (clear_name (recvChanName z1)) 7 0xffff)
    as (s & Es & Hs1); [lia..|]. rewrite Es in *.
  destruct s as [d|d|d c cs]; cbn [mbind option_bind] in *; [exact (go _ _ _ E)..|].
  destruct Hs1 as [Hd1 Hc1]. rewrite store_at_ok in * by lia. cbn [mbind option_bind] in *.
  rewrite (recv_section_agree _ _ _ _ _ _ R2 R1) by lia.
  destruct (recv_section_total true _ l m 0 R1 m (recvMsgData z1) c cs) as (s & Es2 & Hs2); [lia..|]. rewrite Es2 in *.
  destruct s as [d2|d2|d2 c2 cs2]; cbn [mbind option_bind] in *; [exact (go _ _ _ E)..|].
  destruct Hs2 as [Hd2 Hc2]. rewrite !(cb_front_rep _ _ R1) in E by lia. rewrite !(cb_front_rep _ _ R2) by lia.
  destruct (l !! c2); [|done]. destruct (l !! (c2 + 1)); [|done]. cbn [mbind option_bind] in *.
  exact (go _ _ _ E).
Qed.


(** Resynchronising drops at least one byte. *)
Lemma resync_rep : forall fuel cb l, rep cb l -> l <> [] -> length l <= fuel ->
  exists cb' k, resync fuel cb = Some cb' /\ 1 <= k <= length l /\ rep cb' (drop k l) /\
    capacity cb' = capacity cb.
Proof.
  induction fuel as [|fuel IH]; intros cb l R Hne Hl; [by destruct l; simpl in *; [|lia]|].
  assert (1 <= length l) by (destruct l; simpl; [done|lia]).
  destruct (cb_pop_front_rep cb l R 1) as [R1 C1]; [lia|].
  simpl resync. rewrite (cb_size_rep _ _ R1), length_drop.
  destruct (Nat.eqb_spec (length l - 1) 0).
  { exists (cb_pop_front cb 1), 1. split_and!; (done || lia). }
  rewrite (cb_front_rep _ _ R1) by (rewrite length_drop; lia).
  destruct (lookup_lt_is_Some_2 (drop 1 l) 0) as [c Ec]; [rewrite length_drop; lia|].
  rewrite Ec. destruct (c =? ESC)%Z.
  { exists (cb_pop_front cb 1), 1. split_and!; (done || lia). }
  destruct (IH _ _ R1) as (cb' & k & -> & Hk & R' & C').
  { intros E. by rewrite E in Ec. }
  { rewrite length_drop. lia. }
  rewrite length_drop in Hk. rewrite drop_drop in R'.
  exists cb', (1 + k). split_and!; [done|lia|lia|done|congruence].
Qed.

(** Messages the transport can carry. *)
Definition msg_fits (limit : nat) (chan dat : list byte) : Prop :=
  cstr_ok chan /\ bytes_ok dat /\ length chan <= ZCM_CHANNEL_MAXLEN /\ length dat <= limit /\
  (Z.of_nat (length dat) < 2 ^ 32)%Z.

Lemma header_decode n (dat : list byte) : n <= ZCM_CHANNEL_MAXLEN -> (Z.of_nat (length dat) < 2 ^ 32)%Z ->
  exists b3 b4 b5 b6, header n (Z.of_nat (length dat)) = [ESC; 0; Z.of_nat n; b3; b4; b5; b6]%Z /\
    Z.to_nat (Z.lor (Z.lor (Z.lor (u32 (Z.shiftl b3 24)) (u32 (Z.shiftl b4 16)))
                                  (u32 (Z.shiftl b5 8))) b6) = length dat.
Proof.
  intros Hn Hd. unfold header. rewrite wrapu_id by (unfold in_u; unfold ZCM_CHANNEL_MAXLEN in *; lia).
  do 4 eexists. split; [done|].
  rewrite (u32_id (Z.of_nat (length dat))) by lia. rewrite Z.shiftr_0_r.
  pose proof (dec_split_float (Z.of_nat (length dat))) as E. unfold byte_at in E.
  rewrite Z.mod_small in E by lia. etransitivity; [|apply Nat2Z.id]. f_equal. exact E.
Qed.

Lemma trailer_decode chan dat : bytes_ok (chan ++ dat) ->
  exists h k, trailer chan dat = [h; k] /\
    Z.lor (Z.shiftl h 8) k = checksum 0xffff (chan ++ dat).
Proof.
  intros Hb. unfold trailer. do 2 eexists. split; [done|].
  assert (in_u 16 (checksum 0xffff (chan ++ dat))) as Hc by (apply checksum_ok; done).
  set (c := checksum _ _) in *. unfold in_u in Hc.
  pose proof (Z.mod_pos_bound c 256 ltac:(lia)). pose proof (Z.div_mod c 256 ltac:(lia)).
  rewrite shifted_byte, land_255, Z.shiftl_mul_pow2, lor_disjoint by lia.
  change (2 ^ 8)%Z with 256%Z.
  rewrite (Z.mod_small (c / 256)) by (split; [apply Z.div_pos; lia|apply Z.div_lt_upper_bound; lia]).
  lia.
Qed.

Lemma store_name name chan : cstr_ok chan -> length chan <= ZCM_CHANNEL_MAXLEN ->
  length name = ZCM_CHANNEL_MAXLEN + 1 ->
  exists name', store_at (write_at name 0 chan) (length chan) 0%Z = Some name' /\
    cstring name' = chan /\ length name' = ZCM_CHANNEL_MAXLEN + 1.
Proof.
  intros Hc Hl Hn. rewrite store_at_ok by (rewrite length_write_at; lia).
  eexists. split_and!; [done| |].
  - pose proof (write_at_app name 0 chan [0%Z]) as E. cbn [Nat.add] in E.
    rewrite E by (rewrite length_app; cbn [length]; lia).
    unfold write_at. simpl. rewrite <- app_assoc. by apply cstring_app.
  - rewrite !length_write_at; rewrite ?length_write_at; cbn [length]; lia.
Qed.

(** When the bytes received and those still to come spell a frame, a pass
    returns its message if the frame is complete and waits otherwise. *)
Lemma recv_pass_prefix zt l more rest chan dat : rx_ok zt l -> FRAME_BYTES <= length l ->
  msg_fits (mtu zt) chan dat -> l ++ more = frame chan dat ++ rest ->
  exists name d, rx_ok (with_rx zt name d) l /\
    if length (frame chan dat) <=? length l then
      recv_pass zt (length l)
        = Some (with_rx zt name d, PassMsg (length dat) (length (frame chan dat))) /\
      cstring name = chan /\ take (length dat) d = dat
    else recv_pass zt (length l) = Some (with_rx zt name d, PassAgain).
Proof.
  intros X Hl (Hc & Hdat & Hcl & Hdl & H32) E. pose proof X as [R Hb Hn Hd].
  assert (with_rx zt (recvChanName zt) (recvMsgData zt) = zt) as Ez by (by destruct zt).
  unfold FRAME_BYTES in *. unfold recv_pass.
  destruct (header_decode (length chan) dat) as (b3 & b4 & b5 & b6 & Eh & Em); [done..|].
  rewrite length_frame. unfold frame in E. rewrite Eh, <- !app_assoc in E.
  change l with (drop 0 l) in E. cbn [app] in E.
  do 7 (apply drop_app_cons in E as [?L E]; [|lia]). cbn [Nat.add] in *.
  rewrite !(cb_front_rep _ _ R) by lia. rewrite L, L0, L1, L2, L3, L4, L5.
  change (negb (ESC =? ESC)%Z) with false. change (negb (0 =? 0)%Z) with false. cbv iota.
  rewrite Nat2Z.id, Em.
  rewrite (proj2 (Nat.ltb_ge _ _) Hcl), (proj2 (Nat.ltb_ge _ _) Hdl).
  pose proof (length_esc chan). pose proof (length_esc dat).
  destruct (Nat.ltb_spec (length l) (FRAME_BYTES + length chan + length dat)) as [|Hs];
    unfold FRAME_BYTES in *.
  { exists (recvChanName zt), (recvMsgData zt). rewrite Ez, (proj2 (Nat.leb_gt _ _)) by lia. done. }
  pose proof (length_clear_name _ Hn) as Hcn.
  pose proof (recv_section_prefix false _ l (length chan) (length dat) more _ R chan 0
    (clear_name (recvChanName zt)) 7 0xffff eq_refl ltac:(lia) ltac:(lia) E) as S1.
  cbv zeta in S1.
  destruct (Nat.leb_spec (7 + length (esc chan) + length dat + 2) (length l)) as [Hs1|].
  2: { destruct S1 as (d & -> & Hd1). exists d, (recvMsgData zt).
       rewrite (proj2 (Nat.leb_gt _ _)) by lia. split; [|done]. apply rx_ok_with_rx; (done || lia). }
  rewrite S1.
  destruct (store_name (clear_name (recvChanName zt)) chan) as (name & -> & En & Hname); [done..|].
  apply (f_equal (drop (length (esc chan)))) in E.
  rewrite drop_app_length, drop_app_le, drop_drop in E by (rewrite length_drop; lia).
  pose proof (recv_section_prefix true _ l (length dat) 0 more _ R dat 0 (recvMsgData zt)
    (7 + length (esc chan)) (checksum 0xffff chan) eq_refl ltac:(lia) ltac:(lia) E) as S2.
  cbv zeta in S2.
  destruct (Nat.leb_spec (7 + length (esc chan) + length (esc dat) + 0 + 2) (length l)) as [Hs2|].
  2: { destruct S2 as (d & -> & Hd1). exists name, d.
       rewrite (proj2 (Nat.leb_gt _ _)) by lia. split; [|done]. apply rx_ok_with_rx; (done || lia). }
  rewrite S2. exists name, (write_at (recvMsgData zt) 0 dat).
  rewrite (proj2 (Nat.leb_le _ _)) by lia.
  split; [apply rx_ok_with_rx; rewrite ?length_write_at; (done || lia)|].
  apply (f_equal (drop (length (esc dat)))) in E.
  rewrite drop_app_length, drop_app_le, drop_drop in E by (rewrite length_drop; lia).
  destruct (trailer_decode chan dat) as (h & k & Et & Ek).
  { apply Forall_app. split; [by apply cstr_ok_bytes|done]. }
  rewrite Et in E. cbn [app] in E. do 2 (apply drop_app_cons in E as [?L E]; [|lia]).
  rewrite !(cb_front_rep _ _ R) by lia. rewrite L6, L7.
  rewrite Ek, checksum_app, Z.eqb_refl. split_and!; [|done|].
  - do 4 f_equal. lia.
  - unfold write_at. simpl. by rewrite take_app_length.
Qed.

(** The fields [recvmsg] does not touch. *)
Definition tx_same (zt zt' : serial) : Prop :=
  sendBuffer zt' = sendBuffer zt /\ mtu zt' = mtu zt /\ usr zt' = usr zt /\
  capacity (recvBuffer zt') = capacity (recvBuffer zt).

Lemma tx_same_trans z1 z2 z3 : tx_same z1 z2 -> tx_same z2 z3 -> tx_same z1 z3.
Proof. unfold tx_same. intuition congruence. Qed.

Lemma recv_passes_total : forall fuel zt l, rx_ok zt l -> length l < fuel ->
  exists zt' rc om k, recv_passes fuel zt = Some (zt', rc, om) /\ k <= length l /\
    rx_ok zt' (drop k l) /\ tx_same zt zt' /\
    match om with
    | Some m => rc = ZCM_EOK /\ length (buf m) <= mtu zt /\ len m = Z.of_nat (length (buf m))
    | None => rc = ZCM_EAGAIN
    end.
Proof.
  induction fuel as [|fuel IH]; intros zt l X Hf; [lia|].
  simpl recv_passes. set (z1 := mkSerial _ _ _ _ _ _ _).
  assert (rx_ok z1 l) as X1 by (by destruct X).
  rewrite (cb_size_rep _ _ (rx_rep _ _ X)).
  destruct (Nat.ltb_spec (length l) FRAME_BYTES) as [|Hl].
  { exists z1, ZCM_EAGAIN, None, 0. split_and!; (done || lia). }
  destruct (recv_pass_total z1 l X1 Hl) as (name & dat & r & -> & X2 & Hr).
  destruct r as [| |n c]; simpl in Hr.
  - eexists _, ZCM_EAGAIN, None, 0. split_and!; (done || lia).
  - rewrite (cb_size_rep _ _ (rx_rep _ _ X2)).
    destruct (resync_rep (length l) _ l (rx_rep _ _ X2)) as (cb & k & -> & Hk & R & C);
      [by intros ->; simpl in Hl; unfold FRAME_BYTES in Hl; lia|lia|].
    destruct (IH (with_recv (with_rx z1 name dat) cb) (drop k l)) as (zt' & rc & om & j & -> & Hj & X3 & S & Ho).
    { by apply rx_ok_with_recv. } { rewrite length_drop. lia. }
    rewrite length_drop in Hj. rewrite drop_drop in X3.
    eexists _, _, _, (k + j). split_and!; [done|lia|done| |done].
    eapply tx_same_trans; [|exact S]. done.
  - destruct (cb_pop_front_rep _ _ (rx_rep _ _ X2) c) as [R C]; [lia|].
    eexists _, ZCM_EOK, _, c. split_and!; [done|lia|by apply rx_ok_with_recv|done|].
    pose proof (rx_data _ _ X2) as D. simpl in *. rewrite length_take. lia.
Qed.

(** Resynchronising drops as many bytes from either ring. *)
Lemma resync_agree : forall fuel cb1 cb2 l, rep cb1 l -> rep cb2 l -> l <> [] -> length l <= fuel ->
  exists c1 c2 k, resync fuel cb1 = Some c1 /\ resync fuel cb2 = Some c2 /\ 1 <= k <= length l /\
    rep c1 (drop k l) /\ rep c2 (drop k l).
Proof.
  induction fuel as [|fuel IH]; intros cb1 cb2 l R1 R2 Hne Hl; [by destruct l; simpl in *; [|lia]|].
  assert (1 <= length l) by (destruct l; simpl; [done|lia]).
  destruct (cb_pop_front_rep cb1 l R1 1) as [P1 _]; [lia|].
  destruct (cb_pop_front_rep cb2 l R2 1) as [P2 _]; [lia|].
  simpl resync. rewrite (cb_size_rep _ _ P1), (cb_size_rep _ _ P2), length_drop.
  destruct (Nat.eqb_spec (length l - 1) 0).
  { exists (cb_pop_front cb1 1), (cb_pop_front cb2 1), 1. split_and!; (done || lia). }
  rewrite (cb_front_rep _ _ P1), (cb_front_rep _ _ P2) by (rewrite length_drop; lia).
  destruct (lookup_lt_is_Some_2 (drop 1 l) 0) as [c Ec]; [rewrite length_drop; lia|].
  rewrite Ec. destruct (c =? ESC)%Z.
  { exists (cb_pop_front cb1 1), (cb_pop_front cb2 1), 1. split_and!; (done || lia). }
  destruct (IH _ _ _ P1 P2) as (c1 & c2 & k & -> & -> & Hk & S1 & S2); [by intros E; rewrite E in Ec|rewrite length_drop; lia|].
  rewrite length_drop in Hk. rewrite drop_drop in S1, S2. exists c1, c2, (1 + k). split_and!; (done || lia).
Qed.

Lemma recv_passes_agree : forall fuel z1 z2 l, rx_ok z1 l -> rx_ok z2 l -> rx_agree z1 z2 -> length l < fuel ->
  exists z1' z2' rc om k, recv_passes fuel z1 = Some (z1', rc, om) /\ recv_passes fuel z2 = Some (z2', rc, om) /\
    k <= length l /\ rx_ok z1' (drop k l) /\ rx_ok z2' (drop k l) /\ rx_agree z1' z2'.
Proof.
  induction fuel as [|fuel IH]; intros z1 z2 l X1 X2 A Hf; [lia|].
  simpl recv_passes. rewrite <- (ra_clock _ _ A). set (y1 := mkSerial _ _ (recvChanName z1) _ _ _ _). set (y2 := mkSerial _ _ _ _ _ _ _).
  assert (rx_ok y1 l) as Y1 by (by destruct X1). assert (rx_ok y2 l) as Y2 by (by destruct X2).
  assert (rx_agree y1 y2) as B by (by destruct A).
  rewrite (cb_size_rep _ _ (rx_rep _ _ X1)), (cb_size_rep _ _ (rx_rep _ _ X2)).
  destruct (Nat.ltb_spec (length l) FRAME_BYTES) as [|Hl].
  { exists y1, y2, ZCM_EAGAIN, None, 0. split_and!; (done || lia). }
  destruct (recv_pass_agree y1 y2 l Y1 Y2 B Hl) as (name & dat & r & E1 & E2).
  destruct (recv_pass_total y1 l Y1 Hl) as (name' & dat' & r' & E1' & W1 & Hr).
  rewrite E1 in E1'. injection E1' as <- <- <-. rewrite E1, E2.
  assert (rx_ok (with_rx y2 name dat) l) as W2.
  { destruct W1 as [_ _ Wn Wd]. apply rx_ok_with_rx; [done|done|]. rewrite <- (ra_mtu _ _ B). done. }
  assert (rx_agree (with_rx y1 name dat) (with_rx y2 name dat)) as D by (by destruct B).
  destruct r as [| |n c].
  - eexists _, _, ZCM_EAGAIN, None, 0. split_and!; (done || lia).
  - rewrite (cb_size_rep _ _ (rx_rep _ _ W1)), (cb_size_rep _ _ (rx_rep _ _ W2)).
    destruct (resync_agree (length l) _ _ l (rx_rep _ _ W1) (rx_rep _ _ W2)) as (c1 & c2 & k & -> & -> & Hk & S1 & S2);
      [by intros ->; simpl in Hl; unfold FRAME_BYTES in Hl; lia|lia|].
    destruct (IH (with_recv (with_rx y1 name dat) c1) (with_recv (with_rx y2 name dat) c2) (drop k l))
      as (z1' & z2' & rc & om & j & -> & -> & Hj & F1 & F2 & G); [by apply rx_ok_with_recv..|by destruct D|rewrite length_drop; lia|].
    rewrite length_drop in Hj. rewrite drop_drop in F1, F2.
    eexists _, _, _, _, (k + j). split_and!; (done || lia).
  - destruct (cb_pop_front_rep _ _ (rx_rep _ _ W1) c) as [S1 _]; [lia|].
    destruct (cb_pop_front_rep _ _ (rx_rep _ _ W2) c) as [S2 _]; [lia|].
    eexists _, _, ZCM_EOK, _, c. split_and!; [done|done|lia|by apply rx_ok_with_recv..|by destruct D].
Qed.

Lemma serial_recv_total zt l t : rx_ok zt l ->
  exists zt' rc om k, serial_recvmsg zt t = Some (zt', rc, om) /\ k <= length l /\ rx_ok zt' (drop k l) /\ tx_same zt zt' /\
    match om with
    | Some m => rc = ZCM_EOK /\ length (buf m) <= mtu zt /\ len m = Z.of_nat (length (buf m))
    | None => rc = ZCM_EAGAIN
    end.
Proof.
  intros X. unfold serial_recvmsg. apply recv_passes_total; [done|].
  rewrite (cb_size_rep _ _ (rx_rep _ _ X)). lia.
Qed.

(** What is received depends only on the bytes received. *)
Lemma serial_recv_agree z1 z2 z1' l t rc om k : rx_ok z1 l -> rx_ok z2 l -> rx_agree z1 z2 ->
  serial_recvmsg z1 t = Some (z1', rc, om) -> k <= length l -> rx_ok z1' (drop k l) ->
  exists z2', serial_recvmsg z2 t = Some (z2', rc, om) /\ rx_ok z2' (drop k l) /\ rx_agree z1' z2'.
Proof.
  intros X1 X2 A E Hk X. unfold serial_recvmsg in *.
  rewrite (cb_size_rep _ _ (rx_rep _ _ X1)) in E. rewrite (cb_size_rep _ _ (rx_rep _ _ X2)).
  destruct (recv_passes_agree (S (length l)) z1 z2 l X1 X2 A) as (y1 & z2' & rc' & om' & j & E1 & -> & Hj & F1 & F2 & G); [lia|].
  rewrite E in E1. injection E1 as <- <- <-.
  pose proof (cb_size_rep _ _ (rx_rep _ _ X)) as L1. rewrite (cb_size_rep _ _ (rx_rep _ _ F1)), !length_drop in L1.
  assert (j = k) as -> by lia. by exists z2'.
Qed.

Lemma serial_recvmsg_prefix zt t l more rest chan dat : rx_ok zt l ->
  msg_fits (mtu zt) chan dat -> l ++ more = frame chan dat ++ rest ->
  exists zt' , tx_same zt zt' /\
    if length (frame chan dat) <=? length l then
      serial_recvmsg zt t = Some (zt', ZCM_EOK,
        Some (mkMsg (default 0%Z (head (clock zt))) chan (Z.of_nat (length dat)) dat)) /\
      rx_ok zt' (drop (length (frame chan dat)) l)
    else serial_recvmsg zt t = Some (zt', ZCM_EAGAIN, None) /\ rx_ok zt' l.
Proof.
  intros X Hm E. unfold serial_recvmsg. simpl recv_passes. set (z1 := mkSerial _ _ _ _ _ _ _).
  assert (rx_ok z1 l) as X1 by (by destruct X).
  rewrite (cb_size_rep _ _ (rx_rep _ _ X)).
  destruct (Nat.ltb_spec (length l) FRAME_BYTES) as [|Hl].
  { exists z1. rewrite length_frame. unfold FRAME_BYTES in *.
    rewrite (proj2 (Nat.leb_gt _ _)) by lia. done. }
  destruct (recv_pass_prefix z1 l more rest chan dat X1 Hl Hm E) as (name & d & X2 & P).
  destruct (Nat.leb_spec (length (frame chan dat)) (length l)).
  - destruct P as (-> & En & Ed).
    destruct (cb_pop_front_rep _ _ (rx_rep _ _ X2) (length (frame chan dat))) as [R C]; [lia|].
    eexists. split_and!; [|simpl; by rewrite En, Ed|by apply rx_ok_with_recv]. done.
  - rewrite P. eexists. by split_and!; [|done|exact X2].
Qed.

Lemma serial_recvmsg_nil zt t : rx_ok zt [] ->
  exists zt', serial_recvmsg zt t = Some (zt', ZCM_EAGAIN, None) /\ tx_same zt zt' /\ rx_ok zt' [].
Proof.
  intros X. unfold serial_recvmsg. simpl recv_passes.
  rewrite (cb_size_rep _ _ (rx_rep _ _ X)). simpl. eexists. split_and!; [done..|by destruct X].
Qed.
End Receiver.
