(* ===== verification/SerialLink.v ===== *)
(** * Two serial transports joined by a wire

    A sender and a receiver of generic_serial_transport.c whose [put] and [get]
    callbacks move bytes over a wire, in any amounts and at any times.  The
    steps are the calls of the two sides and the wire's own deliveries; the
    messages received are those accepted, in order, each once. *)
From S2P Require Import Prelude Bytes CircBuff Fletcher Transport CoreTypes Serial SerialProps.

Notation packet := (list byte * list byte)%type.

Section Link.
Context {U V : Type} `{ByteSink U} `{ByteSource V}.

(** [handed] counts the bytes the wire has taken from the sender's [put] and
    given to the receiver's [get]; [accepted] and [got] are histories. *)
Record link := mkLink {
  lsender : zcm_trans_generic_serial_t U;
  lreceiver : zcm_trans_generic_serial_t V;
  handed : nat;
  accepted : list packet;
  got : list packet
}.

Definition well_formed (m : zcm_msg_t) : Prop :=
  cstr_ok (channel m) /\ bytes_ok (buf m) /\ len m = Z.of_nat (length (buf m)).

Definition with_usr (zt : zcm_trans_generic_serial_t V) (v : V) :=
  mkSerial (sendBuffer zt) (recvBuffer zt) (recvChanName zt) (mtu zt) (recvMsgData zt) v (clock zt).

Definition packets (om : option zcm_msg_t) : list packet :=
  match om with Some m => [(channel m, buf m)] | None => [] end.

(** The bytes on the wire. *)
Definition on_wire (s : link) : list byte := drop (handed s) (sunk (usr (lsender s))).

Inductive link_step (s : link) : link -> Prop :=
  | LSend m zt rc : well_formed m -> serial_sendmsg (lsender s) m = Some (zt, rc) ->
      link_step s (mkLink zt (lreceiver s) (handed s)
        (accepted s ++ packets (if (rc =? ZCM_EOK)%Z then Some m else None)) (got s))
  | LTx zt rc : serial_update_tx (lsender s) = (zt, rc) ->
      link_step s (mkLink zt (lreceiver s) (handed s) (accepted s) (got s))
  | LWire bs v : bs `prefix_of` on_wire s ->
      pending v = pending (usr (lreceiver s)) ++ bs ->
      link_step s (mkLink (lsender s) (with_usr (lreceiver s) v) (handed s + length bs)
        (accepted s) (got s))
  | LRx zt rc : serial_update_rx (lreceiver s) = (zt, rc) ->
      link_step s (mkLink (lsender s) zt (handed s) (accepted s) (got s))
  | LRecv t zt rc om : serial_recvmsg (lreceiver s) t = Some (zt, rc, om) ->
      link_step s (mkLink (lsender s) zt (handed s) (accepted s) (got s ++ packets om)).

(** Freshly created transports with the same MTU, nothing on the wire. *)
Definition link_start (s : link) : Prop :=
  (exists u tu MTU szs v tv szr, 
     zcm_trans_generic_serial_create u tu MTU szs true true true true = Some (lsender s) /\
     zcm_trans_generic_serial_create v tv MTU szr true true true true = Some (lreceiver s) /\
     (Z.of_nat MTU < 2 ^ 32)%Z /\ sunk u = [] /\ pending v = []) /\
  handed s = 0 /\ accepted s = [] /\ got s = [].

Definition stream (ps : list packet) : list byte := concat (map (fun p => frame p.1 p.2) ps).

(** The bytes in the two rings, in the callbacks and on the wire are the frames
    of the messages in flight. *)
Record link_inv (s : link) (ls lr : list byte) (flight : list packet) : Prop := {
  li_send : rep (sendBuffer (lsender s)) ls;
  li_recv : rx_ok (lreceiver s) lr;
  li_handed : handed s <= length (sunk (usr (lsender s)));
  li_mtu : mtu (lreceiver s) = mtu (lsender s);
  li_mtu32 : (Z.of_nat (mtu (lsender s)) < 2 ^ 32)%Z;
  li_msgs : accepted s = got s ++ flight;
  li_fits : Forall (fun p => msg_fits (mtu (lsender s)) p.1 p.2) flight;
  li_bytes : stream flight = lr ++ pending (usr (lreceiver s)) ++ on_wire s ++ ls
}.

Lemma esc_bytes bs : bytes_ok bs -> bytes_ok (esc bs).
Proof. induction 1 as [|b bs Hb _ IH]; simpl; [constructor|]. case_test; by repeat apply Forall_cons_2. Qed.

Lemma frame_bytes limit chan dat : msg_fits limit chan dat -> bytes_ok (frame chan dat).
Proof.
  intros (Hc & Hd & _). unfold frame, bytes_ok.
  assert (forall v, in_u 8 (Z.land v 0xff)) as L.
  { intros v. change 0xff%Z with (Z.ones 8). rewrite Z.land_ones by lia.
    apply Z.mod_pos_bound. lia. }
  rewrite !Forall_app. split_and!; [|by apply esc_bytes, cstr_ok_bytes|by apply esc_bytes|].
  - repeat constructor; first [apply L|apply wrapu_range; lia|done].
  - repeat constructor; apply L.
Qed.

Lemma stream_bytes limit ps : Forall (fun p => msg_fits limit p.1 p.2) ps -> bytes_ok (stream ps).
Proof.
  induction 1 as [|p ps Hp _ IH]; [constructor|].
  apply Forall_app. split; [by eapply frame_bytes|done].
Qed.

Lemma app_cut {A} (f r l m : list A) :
  f ++ r = l ++ m -> length f <= length l -> r = drop (length f) l ++ m.
Proof.
  intros E Hl. apply (f_equal (drop (length f))) in E.
  by rewrite drop_app_length, drop_app_le in E.
Qed.

Lemma stream_app ps qs : stream (ps ++ qs) = stream ps ++ stream qs.
Proof. unfold stream. by rewrite map_app, concat_app. Qed.

Lemma link_inv_start s : link_start s -> link_inv s [] [] [].
Proof.
  intros ((u & tu & MTU & szs & v & tv & szr & Ea & Eb & Hm & Hu & Hv) & Hh & Ha & Hg).
  unfold zcm_trans_generic_serial_create in Ea, Eb. simpl negb in *. cbv iota in *.
  destruct (_ || _) in Ea; [done|]. destruct (_ || _) in Eb; [done|].
  destruct (cb_init true szs) as [sa|] eqn:Es; simpl in Ea; [|done].
  destruct (cb_init true szr) as [sb|] eqn:Er; simpl in Eb; [|done].
  injection Ea as Ea. injection Eb as Eb.
  split; rewrite <- ?Ea, <- ?Eb, ?Hh, ?Ha, ?Hg; simpl; try done.
  - by eapply rep_init.
  - split; simpl; [by eapply rep_init|by apply Forall_nil|done|by rewrite length_replicate].
  - lia.
  - unfold on_wire. by rewrite Hh, <- Ea, Hv; simpl; rewrite Hu.
Qed.

Lemma link_send s ls lr fl m zt rc : link_inv s ls lr fl -> well_formed m ->
  serial_sendmsg (lsender s) m = Some (zt, rc) ->
  let o := packets (if (rc =? ZCM_EOK)%Z then Some m else None) in
  exists ls', link_inv (mkLink zt (lreceiver s) (handed s) (accepted s ++ o) (got s)) ls' lr (fl ++ o).
Proof.
  intros [Is Ir Ih Im I32 Ia If Ib] (Hc & Hb & Hl) E.
  destruct (serial_sendmsg_rep (lsender s) ls m Is Hb Hl) as (cb & rc' & E' & C & Hrc).
  rewrite E in E'. injection E' as -> ->. cbv zeta.
  destruct (_ || _) eqn:Eo in Hrc.
  { destruct Hrc as [-> R]. exists ls. simpl. rewrite !app_nil_r. by split. }
  apply orb_false_iff in Eo as [E1 E2]. apply Nat.ltb_ge in E1, E2.
  destruct (_ <? _) in Hrc; destruct Hrc as [-> R].
  - exists (ls ++ frame (channel m) (buf m)). simpl packets. split; simpl; try done.
    + by rewrite Ia, app_assoc.
    + apply Forall_app. split; [done|]. constructor; [|constructor].
      unfold msg_fits. simpl. split_and!; (done || lia).
    + rewrite stream_app, Ib. unfold stream at 1. simpl. rewrite app_nil_r, <- !app_assoc.
      done.
  - exists ls. simpl. rewrite !app_nil_r. by split.
Qed.

Lemma link_tx s ls lr fl zt rc : link_inv s ls lr fl ->
  serial_update_tx (lsender s) = (zt, rc) ->
  exists ls', link_inv (mkLink zt (lreceiver s) (handed s) (accepted s) (got s)) ls' lr fl.
Proof.
  intros [Is Ir Ih Im I32 Ia If Ib] E. unfold serial_update_tx in E.
  pose proof (cb_flush_out_rep (sendBuffer (lsender s)) ls (usr (lsender s)) Is) as F.
  destruct (cb_flush_out _ _) as [[cb u] n]. destruct F as (Hn & Hs & R & C).
  injection E as <- _. exists (drop n ls). split; simpl; try done.
  - rewrite Hs, length_app. lia.
  - unfold on_wire in *. simpl. rewrite Ib, Hs, drop_app_le by done.
    rewrite <- !app_assoc, take_drop. done.
Qed.

Lemma link_wire s ls lr fl bs v : link_inv s ls lr fl -> bs `prefix_of` on_wire s ->
  pending v = pending (usr (lreceiver s)) ++ bs ->
  link_inv (mkLink (lsender s) (with_usr (lreceiver s) v) (handed s + length bs)
        (accepted s) (got s)) ls lr fl.
Proof.
  intros [Is Ir Ih Im I32 Ia If Ib] [w Ew] Hp. unfold on_wire in Ew.
  split; simpl; try done; [by destruct Ir| |].
  - apply (f_equal length) in Ew. rewrite length_drop, length_app in Ew. lia.
  - unfold on_wire. simpl. rewrite <- drop_drop, Ew, drop_app_length, Hp, Ib.
    unfold on_wire. rewrite Ew, <- !app_assoc. done.
Qed.

Lemma link_rx s ls lr fl zt rc : link_inv s ls lr fl ->
  serial_update_rx (lreceiver s) = (zt, rc) ->
  exists lr', link_inv (mkLink (lsender s) zt (handed s) (accepted s) (got s)) ls lr' fl.
Proof.
  intros [Is Ir Ih Im I32 Ia If Ib] E. unfold serial_update_rx, serial_update_rx_with in E. change (cb_flush_in_with read) with (cb_flush_in (U := V)) in E.
  pose proof (cb_flush_in_rep (recvBuffer (lreceiver s)) lr (usr (lreceiver s)) (rx_rep _ _ Ir)) as F.
  destruct (cb_flush_in _ _) as [[cb u] n]. destruct F as (bs & Hn & Hp & R & C).
  injection E as <- _. exists (lr ++ bs). rewrite Hp, <- app_assoc in Ib.
  split; simpl; try done; [|by rewrite <- app_assoc].
  destruct Ir. split; simpl; try done.
  pose proof (stream_bytes _ _ If) as Hb. rewrite Ib in Hb. unfold bytes_ok in *.
  rewrite !Forall_app in *. tauto.
Qed.

Lemma link_recv s ls lr fl t : link_inv s ls lr fl ->
  exists zt rc om lr' fl', serial_recvmsg (lreceiver s) t = Some (zt, rc, om) /\
    fl = packets om ++ fl' /\
    link_inv (mkLink (lsender s) zt (handed s) (accepted s) (got s ++ packets om)) ls lr' fl' /\
    (om = None -> fl = [] \/ length lr < length (stream fl)).
Proof.
  intros [Is Ir Ih Im I32 Ia If Ib]. destruct fl as [|[chan dat] fl].
  { assert (lr = []) as ->. { symmetry in Ib. by apply app_eq_nil in Ib as [-> _]. }
    destruct (serial_recvmsg_nil (lreceiver s) t Ir) as (zt & -> & (S1 & S2 & S3 & S4) & X).
    eexists _, _, None, [], []. split_and!; [done|done| |by left].
    simpl. rewrite app_nil_r. split; simpl; try done; by rewrite ?S2, ?S3. }
  inversion_clear If as [|? ? Hp Hf]. simpl in Hp. rewrite <- Im in Hp.
  destruct (serial_recvmsg_prefix (lreceiver s) t lr _ (stream fl) chan dat Ir Hp (eq_sym Ib))
    as (zt & (S1 & S2 & S3 & S4) & P).
  destruct (Nat.leb_spec (length (frame chan dat)) (length lr)) as [Hl|Hl]; destruct P as [-> X].
  - eexists _, _, _, _, fl. split_and!; [done|done| |done].
    split; simpl; try done; rewrite ?S2, ?S3; try done.
    + by rewrite Ia, <- app_assoc.
    + by eapply app_cut.
  - eexists _, _, None, lr, _. split_and!; [done|done| |right; unfold stream; cbn [map concat fst snd]; rewrite length_app; lia].
    simpl. rewrite app_nil_r. split; simpl; try done; rewrite ?S2, ?S3; try done.
    constructor; [by rewrite <- Im|done].
Qed.

Definition reach (s : link) : Prop := exists s0, link_start s0 /\ rtc link_step s0 s.

Lemma link_inv_reach s : reach s -> exists ls lr fl, link_inv s ls lr fl.
Proof.
  intros (s0 & Hs & Hr). pose proof (link_inv_start _ Hs) as I.
  assert (exists ls lr fl, link_inv s0 ls lr fl) as I0 by eauto. clear I Hs.
  induction Hr as [s|s1 s2 s3 St _ IH]; [done|]. apply IH. clear IH.
  destruct I0 as (ls & lr & fl & I). destruct St as [m zt rc Hm E|zt rc E|bs v Hb Hv|zt rc E|t zt rc om E].
  - destruct (link_send _ _ _ _ _ _ _ I Hm E). eauto.
  - destruct (link_tx _ _ _ _ _ _ I E). eauto.
  - eauto using link_wire.
  - destruct (link_rx _ _ _ _ _ _ I E). eauto.
  - destruct (link_recv _ _ _ _ t I) as (zt' & rc' & om' & lr' & fl' & E' & _ & I' & _).
    rewrite E in E'. injection E' as -> -> ->. eauto.
Qed.
End Link.

(** ** The properties *)

(** sending over the serial transport is atomic on the byte ring.  A message whose
    channel is longer than ZCM_CHANNEL_MAXLEN or whose data exceed the MTU is refused with
    ZCM_EINVALID; otherwise the whole frame is appended and ZCM_EOK returned exactly when
    the frame, escapes included, fits in the room left, and ZCM_EAGAIN leaves the bytes
    waiting to be sent as they were, also when the lack of room shows only at an escape
    byte in the middle of the channel or of the data. *)
Theorem serial_send_atomic {U} (zt : zcm_trans_generic_serial_t U) l msg :
  rep (sendBuffer zt) l -> bytes_ok (buf msg) -> len msg = Z.of_nat (length (buf msg)) ->
  exists zt' rc, serial_sendmsg zt msg = Some (zt', rc) /\
    recvBuffer zt' = recvBuffer zt /\ usr zt' = usr zt /\ mtu zt' = mtu zt /\
    if (ZCM_CHANNEL_MAXLEN <? length (channel msg)) || (mtu zt <? length (buf msg)) then
      rc = ZCM_EINVALID /\ rep (sendBuffer zt') l
    else if length l + length (frame (channel msg) (buf msg)) <? capacity (sendBuffer zt) then
      rc = ZCM_EOK /\ rep (sendBuffer zt') (l ++ frame (channel msg) (buf msg))
    else rc = ZCM_EAGAIN /\ rep (sendBuffer zt') l.
Proof.
  intros R Hb Hl. destruct (serial_sendmsg_rep zt l msg R Hb Hl) as (cb & rc & E & _ & H).
  exists (with_send zt cb), rc. split_and!; (done || exact H).
Qed.

(** C17: receiving over the serial transport is safe on any bytes, however corrupted: it
    is defined, so it writes only inside the channel and data buffers; it ends (every
    failed pass drops a byte); it returns either ZCM_EAGAIN with no message or ZCM_EOK with
    a message no longer than the MTU, and drops only bytes at the front.  It uses no byte
    that has not been received: from any other ring with the same received bytes, at
    whatever position and with whatever stale bytes around them, the same call on the same
    buffers and clock gives the same result and the same message, drops as many bytes and
    leaves the same buffers. *)
Theorem serial_recv_safe {U} (zt : zcm_trans_generic_serial_t U) l t : rx_ok zt l ->
  exists zt' rc om k, serial_recvmsg zt t = Some (zt', rc, om) /\
    k <= length l /\ rx_ok zt' (drop k l) /\ tx_same zt zt' /\
    match om with
    | Some m => rc = ZCM_EOK /\ length (buf m) <= mtu zt /\ len m = Z.of_nat (length (buf m))
    | None => rc = ZCM_EAGAIN
    end /\
    forall zt2, rx_ok zt2 l -> rx_agree zt zt2 ->
      exists zt2', serial_recvmsg zt2 t = Some (zt2', rc, om) /\ rx_ok zt2' (drop k l) /\ rx_agree zt' zt2'.
Proof.
  intros X. destruct (serial_recv_total zt l t X) as (zt' & rc & om & k & E & Hk & X' & S & Ho).
  exists zt', rc, om, k. split_and!; [done..|]. intros zt2 X2 A. exact (serial_recv_agree zt zt2 zt' l t rc om k X X2 A E Hk X').
Qed.

(** C10: a serial link loses, duplicates, reorders and alters nothing.  Whatever amounts the
    callbacks move and however the calls of the two sides interleave, the messages received
    are a prefix of those accepted for sending, a receive is always defined, and once the
    send ring, the wire and the receiver's source are drained, a receive that finds nothing
    means that every accepted message has been delivered. *)
Theorem serial_link_fifo {U V} `{ByteSink U} `{ByteSource V} (s : link (U := U) (V := V)) t :
  reach s ->
  got s `prefix_of` accepted s /\
  exists zt rc om, serial_recvmsg (lreceiver s) t = Some (zt, rc, om) /\
    (cb_size (sendBuffer (lsender s)) = 0 -> on_wire s = [] ->
     pending (usr (lreceiver s)) = [] -> om = None -> got s = accepted s).
Proof.
  intros (ls & lr & fl & I)%link_inv_reach. split.
  { exists fl. apply (li_msgs _ _ _ _ I). }
  destruct (link_recv _ _ _ _ t I) as (zt & rc & om & lr' & fl' & -> & _ & _ & D).
  exists zt, rc, om. split; [done|]. intros Hs Hw Hp Ho.
  rewrite (cb_size_rep _ _ (li_send _ _ _ _ I)) in Hs. apply nil_length_inv in Hs as ->.
  rewrite (li_msgs _ _ _ _ I). destruct (D Ho) as [->|Hl]; [by rewrite app_nil_r|].
  rewrite (li_bytes _ _ _ _ I), Hp, Hw in Hl. simpl in Hl. rewrite app_nil_r in Hl. lia.
Qed.

(** The smallest buffer [zcm_trans_generic_serial_create] admits is too small for its MTU.
    The check counts neither the channel nor the ring's spare byte, so with bufSize equal to
    FRAME_BYTES + MTU a message of MTU bytes is within the MTU and yet refused with
    ZCM_EAGAIN by a transport whose send buffer is empty, however often it is retried. *)
Theorem serial_mtu_unsendable {U} (u : U) times MTU zt chan dat :
  zcm_trans_generic_serial_create u times MTU (FRAME_BYTES + MTU) true true true true = Some zt ->
  length chan <= ZCM_CHANNEL_MAXLEN -> length dat = MTU ->
  serial_sendmsg zt (mkMsg 0 chan (Z.of_nat MTU) dat) = Some (zt, ZCM_EAGAIN).
Proof.
  unfold zcm_trans_generic_serial_create. destruct (_ || _); [done|]. cbn [negb]. intros E Hc Hd.
  destruct (cb_init true (FRAME_BYTES + MTU)) as [cb|] eqn:Ei; cbn in E; [|done].
  injection E as <-. unfold serial_sendmsg. cbn [channel len mtu sendBuffer].
  rewrite (proj2 (Nat.ltb_ge _ _) Hc), Z.ltb_irrefl, (cb_room_rep _ _ (rep_init _ _ Ei)).
  assert (capacity cb = FRAME_BYTES + MTU) as ->.
  { unfold cb_init in Ei. cbn in Ei. by injection Ei as <-. }
  rewrite (proj2 (Z.ltb_lt _ _)); [done|]. unfold FRAME_BYTES. cbn [length]. lia.
Qed.

(** ** Concrete runs *)

Lemma serial_mtu_unsendable_witness : exists zt,
  zcm_trans_generic_serial_create tt [] 4 13 true true true true = Some zt /\
  serial_sendmsg zt (mkMsg 0 [65]%Z 4 [1; 2; 3; 4]%Z) = Some (zt, ZCM_EAGAIN).
Proof.
  eexists. split; [reflexivity|].
  apply (serial_mtu_unsendable tt [] 4); [reflexivity|cbn; unfold ZCM_CHANNEL_MAXLEN; lia|reflexivity].
Defined.

(** A wire end that takes all it is given, and one that gives all it has. *)
#[refine] Instance eager_sink : ByteSink (list byte) :=
  {| write := fun u d => (u ++ d, length d); sunk := fun u => u |}.
Proof. - done. - intros u d. simpl. by rewrite firstn_all. Defined.

#[refine] Instance eager_source : ByteSource (list byte) :=
  {| read := fun u n => (drop n u, take n u); pending := fun u => u |}.
Proof.
  - intros u n. simpl. rewrite length_take. lia.
  - intros u n. simpl. by rewrite take_drop.
Defined.

Definition sample_serial : zcm_trans_generic_serial_t (list byte) :=
  default (mkSerial (mkCB [] 0 0 0) (mkCB [] 0 0 0) [] 0 [] [] [])
    (zcm_trans_generic_serial_create [] [7%Z; 8%Z] 4 24 true true true true).

Definition sample_msg : zcm_msg_t := mkMsg 0 [65; 66]%Z 3 [1; ESC; 2]%Z.

Lemma sample_rep cb : cb = mkCB (replicate 24 0%Z) 24 0 0 -> rep cb [].
Proof. intros ->. by apply (rep_init 24). Qed.

Lemma serial_send_atomic_witness :
  exists zt' rc, serial_sendmsg sample_serial sample_msg = Some (zt', rc) /\
    rc = ZCM_EOK /\ rep (sendBuffer zt') (frame [65; 66]%Z [1; ESC; 2]%Z).
Proof.
  destruct (serial_send_atomic sample_serial [] sample_msg) as (zt' & rc & E & _ & _ & _ & H).
  - by apply sample_rep.
  - repeat constructor; unfold ESC; lia.
  - done.
  - exists zt', rc. split; [exact E|exact H].
Defined.

(** The same three bytes received, at two places of a ring with other stale bytes. *)
Definition ring_zeros : circBuffer_t := mkCB ([ESC; 0; 1]%Z ++ replicate 21 0%Z) 24 0 3.
Definition ring_escapes : circBuffer_t := mkCB (replicate 22 ESC ++ [0; 1]%Z) 24 21 0.

Lemma rings_rep : rep ring_zeros [ESC; 0; 1]%Z /\ rep ring_escapes [ESC; 0; 1]%Z.
Proof. split; split; try done; try (cbn; lia); by intros [|[|[|]]] a [= <-]. Qed.

Lemma serial_recv_safe_witness :
  exists zt' zt2', serial_recvmsg (with_recv sample_serial ring_zeros) 0 = Some (zt', ZCM_EAGAIN, None) /\
    serial_recvmsg (with_recv sample_serial ring_escapes) 0 = Some (zt2', ZCM_EAGAIN, None) /\ rx_agree zt' zt2'.
Proof.
  destruct rings_rep as [R1 R2].
  assert (bytes_ok [ESC; 0; 1]%Z) as B by (repeat constructor; unfold ESC; lia).
  destruct (serial_recv_safe (with_recv sample_serial ring_zeros) [ESC; 0; 1]%Z 0)
    as (zt' & rc & om & k & E & _ & _ & _ & _ & A); [by split|].
  destruct (A (with_recv sample_serial ring_escapes)) as (zt2' & E2 & _ & A2); [by split|by split|].
  vm_compute in E. injection E as <- <- <-. eexists _, zt2'. split; [reflexivity|]. split; [exact E2|exact A2].
Defined.

(** One message over the link: accepted, written out, carried, read in. *)
Definition sample_start : link := mkLink (U := list byte) (V := list byte) sample_serial sample_serial 0 [] [].

Lemma sample_link_start : link_start sample_start.
Proof.
  split; [|by split_and!]. exists [], [7; 8]%Z, 4, 24, [], [7; 8]%Z, 24.
  split_and!; reflexivity || lia.
Qed.

Lemma serial_link_fifo_witness :
  exists s : link (U := list byte) (V := list byte), reach s /\
    accepted s = [([65; 66]%Z, [1; ESC; 2]%Z)] /\ got s = accepted s.
Proof.
  destruct (serial_sendmsg sample_serial sample_msg) as [[z1 rc1]|] eqn:E1; [|vm_compute in E1; done].
  set (s1 := mkLink (V := list byte) z1 sample_serial 0
    ([] ++ packets (if (rc1 =? ZCM_EOK)%Z then Some sample_msg else None)) []).
  destruct (serial_update_tx z1) as [z2 rc2] eqn:E2.
  set (s2 := mkLink z2 sample_serial 0 (accepted s1) []).
  set (w := sunk (usr z2)).
  set (s3 := mkLink z2 (with_usr sample_serial w) (0 + length w) (accepted s1) []).
  destruct (serial_update_rx (with_usr sample_serial w)) as [z4 rc4] eqn:E4.
  set (s4 := mkLink z2 z4 (0 + length w) (accepted s1) []).
  destruct (serial_recvmsg z4 0) as [[[z5 rc5] om5]|] eqn:E5.
  2: { vm_compute in E1. injection E1 as <- <-. vm_compute in E2. injection E2 as <- <-.
       vm_compute in E4. injection E4 as <- <-. vm_compute in E5. done. }
  set (s5 := mkLink z2 z5 (0 + length w) (accepted s1) ([] ++ packets om5)).
  assert (reach s5) as Hr.
  { exists sample_start. split.
    - exact sample_link_start.
    - apply (rtc_l _ sample_start s1 s5).
      { apply (LSend sample_start sample_msg z1 rc1); [|exact E1].
        split_and!; [repeat constructor; lia|repeat constructor; unfold ESC; lia|done]. }
      apply (rtc_l _ s1 s2 s5); [exact (LTx s1 z2 rc2 E2)|].
      apply (rtc_l _ s2 s3 s5).
      { apply (LWire s2 w w); [|done]. unfold on_wire. by rewrite drop_0. }
      apply (rtc_l _ s3 s4 s5); [exact (LRx s3 z4 rc4 E4)|].
      apply rtc_once. exact (LRecv s4 0 z5 rc5 om5 E5). }
  exists s5. destruct (serial_link_fifo s5 0 Hr) as [_ (zt & rc & om & E & D)].
  vm_compute in E1. injection E1 as <- <-. vm_compute in E2. injection E2 as <- <-.
  vm_compute in E4. injection E4 as <- <-. vm_compute in E5. injection E5 as <- <- <-.
  split; [exact Hr|]. split; [done|]. apply D; [done..|]. vm_compute in E. congruence.
Defined.
