(* ===== verification/Inproc.v ===== *)
(** * The in-process transport (zcm/transport/transport_inproc.cpp)

    A deque of copied messages.  [FifoTransport] is what the core modules may
    rely on: the transport holds a queue that [sendmsg] extends at the back and
    [recvmsg] serves from the front. *)
From S2P Require Import Prelude Bytes Transport.
Local Open Scope Z_scope.

(** [inFlight] is the channel and the data of the message handed out last,
    which stay allocated until the next one is. *)
Record inproc := mkInproc {
  inproc_type : zcm_type;
  msgs : list zcm_msg_t;
  inFlight : option (cstr * list byte);
  utimes : list Z       (* what the successive calls of TimeUtil::utime return *)
}.

Definition MTU : Z := 2 ^ 28.

Definition inproc_create (blocking : bool) (times : list Z) : inproc :=
  mkInproc (if blocking then ZCM_BLOCKING else ZCM_NONBLOCKING) [] None times.

(** The loop that measures the channel: it stops at the terminator, or one byte
    past the longest channel allowed. *)
Fixpoint chan_scan (fuel : nat) (channel : cstr) : nat :=
  match fuel, channel with
  | S fuel, _ :: rest => S (chan_scan fuel rest)
  | _, _ => 0
  end%nat.

Definition inproc_sendmsg (t : inproc) (msg : zcm_msg_t) : option (inproc * Z) :=
  let chanLen := chan_scan (ZCM_CHANNEL_MAXLEN + 1) (channel msg) in
  if (ZCM_CHANNEL_MAXLEN <? chanLen)%nat then Some (t, ZCM_EINVALID) else
  if MTU <? len msg then Some (t, ZCM_EINVALID) else
  check (len msg <=? Z.of_nat (length (buf msg))) ;;
  let newMsg := mkMsg (utime msg) (channel msg) (len msg) (take (Z.to_nat (len msg)) (buf msg)) in
  Some (mkInproc (inproc_type t) (msgs t ++ [newMsg]) (inFlight t) (utimes t), ZCM_EOK).

Definition inproc_recvmsg_enable (t : inproc) (channel : cstr) (enable : bool) : inproc * Z :=
  (t, ZCM_EOK).

(** The blocking kind waits for [timeout] and finds the queue as it is then; a
    send during the wait is a send before this step. *)
Definition inproc_recvmsg (t : inproc) (timeout : Z) : option (inproc * Z * option zcm_msg_t) :=
  match msgs t with
  | [] => Some (t, ZCM_EAGAIN, None)
  | m :: rest =>
      let msg := mkMsg (default 0 (head (utimes t))) (channel m) (len m) (buf m) in
      Some (mkInproc (inproc_type t) rest (Some (channel msg, buf msg)) (tail (utimes t)),
            ZCM_EOK, Some msg)
  end.

#[export] Instance inproc_transport : Transport inproc :=
  {| trans_type := inproc_type;
     get_mtu _ := MTU;
     sendmsg := inproc_sendmsg;
     recvmsg_enable := inproc_recvmsg_enable;
     recvmsg := inproc_recvmsg;
     query_drops := None;
     update t := Some (t, ZCM_EOK) |}.

(** ** First-in first-out transports *)

(** A message as its receiver sees it: the time stamp is the receiver's. *)
Definition payload (m : zcm_msg_t) : cstr * list byte := (channel m, take (Z.to_nat (len m)) (buf m)).

Definition sendable (mtu : Z) (m : zcm_msg_t) : Prop :=
  (length (channel m) <= ZCM_CHANNEL_MAXLEN)%nat /\ 0 <= len m <= mtu /\
  len m <= Z.of_nat (length (buf m)).

(** [same t t'] keeps the MTU and [fifo_ok], the transport's own invariant. *)
Class FifoTransport (T : Type) `{Transport T} := {
  queue : T -> list (cstr * list byte);
  fifo_ok : T -> Prop;
  same (t t' : T) : Prop := fifo_ok t' /\ get_mtu t' = get_mtu t;
  fifo_send : forall t m, fifo_ok t -> sendable (get_mtu t) m -> exists t',
    sendmsg t m = Some (t', ZCM_EOK) /\ queue t' = queue t ++ [payload m] /\ same t t';
  fifo_enable : forall t ch b, fifo_ok t -> exists t',
    recvmsg_enable t ch b = (t', ZCM_EOK) /\ queue t' = queue t /\ same t t';
  fifo_recv_nil : forall t timeout, fifo_ok t -> queue t = [] -> exists t' rc,
    recvmsg t timeout = Some (t', rc, None) /\ rc <> ZCM_EOK /\ queue t' = [] /\ same t t';
  fifo_recv_cons : forall t timeout p q, fifo_ok t -> queue t = p :: q -> exists t' m,
    recvmsg t timeout = Some (t', ZCM_EOK, Some m) /\ (channel m, buf m) = p /\
    len m = Z.of_nat (length (buf m)) /\ queue t' = q /\ same t t';
  fifo_update : forall t, fifo_ok t -> exists t' rc,
    update t = Some (t', rc) /\ queue t' = queue t /\ same t t'
}.

Lemma chan_scan_length n c : chan_scan n c = Nat.min n (length c).
Proof. revert c. induction n; intros [|? c]; simpl; [done..|]. by rewrite IHn. Qed.

(** Messages in the deque hold exactly their [len] bytes. *)
Definition inproc_ok (t : inproc) : Prop :=
  Forall (fun m => len m = Z.of_nat (length (buf m))) (msgs t).

Lemma inproc_send_ok t m : sendable MTU m ->
  inproc_sendmsg t m = Some (mkInproc (inproc_type t)
    (msgs t ++ [mkMsg (utime m) (channel m) (len m) (take (Z.to_nat (len m)) (buf m))])
    (inFlight t) (utimes t), ZCM_EOK).
Proof.
  intros (Hc & [Hl Hm] & Hb). unfold inproc_sendmsg. rewrite chan_scan_length.
  rewrite (proj2 (Nat.ltb_ge _ _)) by lia. rewrite (proj2 (Z.ltb_ge _ _) Hm).
  by rewrite (proj2 (Z.leb_le _ _) Hb).
Qed.

#[refine, export] Instance inproc_fifo : FifoTransport inproc :=
  {| queue t := (fun m => (channel m, buf m)) <$> msgs t; fifo_ok := inproc_ok |}.
Proof.
  - intros t m Hok Hs. eexists. split; [by apply inproc_send_ok|]. split.
    + simpl. by rewrite fmap_app.
    + split; [|done]. apply Forall_app. split; [done|]. constructor; [|constructor].
      simpl. rewrite length_take. destruct Hs as (_ & Hl & Hb). lia.
  - intros t ch b Hok. by exists t.
  - intros t timeout Hok Hq. apply fmap_nil_inv in Hq. exists t, ZCM_EAGAIN.
    unfold recvmsg. simpl. unfold inproc_recvmsg. by rewrite Hq.
  - intros t timeout p q Hok Hq. apply fmap_cons_inv in Hq as (m & l & -> & -> & Hq).
    unfold recvmsg. simpl. unfold inproc_recvmsg, inproc_ok in *. rewrite Hq in *.
    inversion_clear Hok. eexists _, _. by split_and!.
  - intros t Hok. by exists t, ZCM_EOK.
Defined.
