(* ===== verification/Nonblocking.v ===== *)
(** * The non-blocking core (zcm/nonblocking.c)

    A fixed table of subscriptions over a transport.  The handlers are the
    user's: a call of one is an event ([delivery]), and the operations return
    the events in the order they happen.  [None] marks undefined behaviour of
    the transport, or a flush whose transport never runs dry. *)
From S2P Require Import Prelude Bytes Transport Inproc.
Local Open Scope Z_scope.

Definition ZCM_NONBLOCK_SUBS_MAX : nat := 512.

Record zcm_sub_t := mkSub {
  sub_channel : cstr;
  callback : nat;       (* which handler *)
  sub_usr : nat         (* its user pointer *)
}.

Record zcm_recv_buf_t := mkRbuf { recv_utime : Z; rdata : list byte; data_size : Z }.

(** A call [callback(&rbuf, channel, usr)]. *)
Record delivery := mkDelivery { dcallback : nat; dusr : nat; dchannel : cstr; drbuf : zcm_recv_buf_t }.

Record zcm_nonblocking {T : Type} := mkNB {
  zt : T;
  subs : list zcm_sub_t;
  subInUse : list bool;
  subIsRegex : list bool;
  subInUseEnd : nat
}.
Arguments zcm_nonblocking : clear implicits.
Arguments mkNB {T}.

(** ** Channels and patterns *)

Definition regexChar (c : byte) : bool :=
  (c =? 40) || (c =? 41) || (c =? 124) || (c =? 46) || (c =? 42) || (c =? 43).

Fixpoint isRegexChannel (c : cstr) : bool :=
  match c with [] => false | x :: c => if regexChar x then true else isRegexChannel c end.

Definition plainChar (c : byte) : bool :=
  ((97 <=? c) && (c <=? 122)) || ((65 <=? c) && (c <=? 90)) ||
  ((48 <=? c) && (c <=? 57)) || (c =? 95).

Definition isSupportedRegex (c : cstr) : bool :=
  let clen := length c in
  if negb (isRegexChannel c) then true else
  if (clen <? 2)%nat then false else
  if negb (default 0 (c !! (clen - 1)%nat) =? 42) then false else
  if negb (default 0 (c !! (clen - 2)%nat) =? 46) then false else
  forallb plainChar (take (clen - 2) c).

(** [strncmp(a, b, n) == 0] *)
Fixpoint strncmp_eq (a b : cstr) (n : nat) {struct n} : bool :=
  match n with
  | O => true
  | S n => match a, b with
           | x :: a, y :: b => (x =? y) && strncmp_eq a b n
           | [], [] => true
           | _, _ => false
           end
  end.

(** What [strncpy(dst, s, ZCM_CHANNEL_MAXLEN)] with the terminator after it leaves. *)
Definition copy_channel (s : cstr) : cstr := take ZCM_CHANNEL_MAXLEN s.

Section Nonblocking.
Context {T : Type} `{Transport T}.
Notation nb := (zcm_nonblocking T).

Definition with_zt (z : nb) (t : T) : nb :=
  mkNB t (subs z) (subInUse z) (subIsRegex z) (subInUseEnd z).

(** The table comes from malloc: its channels are whatever they are. *)
Definition zcm_nonblocking_try_create (type : zcm_type) (t : T) (mem : bool) : Z * option nb :=
  if negb (bool_decide (type = ZCM_NONBLOCKING)) then (ZCM_EINVALID, None) else
  if negb mem then (ZCM_EMEMORY, None) else
  (ZCM_EOK, Some (mkNB t (replicate ZCM_NONBLOCK_SUBS_MAX (mkSub [] 0 0))
                       (replicate ZCM_NONBLOCK_SUBS_MAX false)
                       (replicate ZCM_NONBLOCK_SUBS_MAX false) 0)).

(** The message's time stamp is not set in the code; here it is 0, and no theorem
    depends on it. *)
Definition zcm_nonblocking_publish (z : nb) (channel : cstr) (data : list byte) (len : Z)
  : option (nb * Z) :=
  '(t, rc) <- zcm_trans_sendmsg (zt z) (mkMsg 0 channel len data) ;;
  Some (with_zt z t, rc).

Definition in_use (z : nb) (i : nat) : bool := default false (subInUse z !! i).

(** The loop over the slots from [i]; [room] counts those left. *)
Fixpoint subscribe_loop (room i : nat) (z : nb) (channel : cstr) (cb usr : nat) : nb * option nat :=
  match room with
  | O => (z, None)
  | S room =>
      if (subInUseEnd z <? i)%nat then (z, None) else
      if in_use z i then subscribe_loop room (i + 1) z channel cb usr else
      let sub := mkSub (copy_channel channel) cb usr in
      let re := isRegexChannel (sub_channel sub) in
      let z := mkNB (zt z) (<[i := sub]> (subs z)) (subInUse z) (<[i := re]> (subIsRegex z))
                    (subInUseEnd z) in
      if re && negb (isSupportedRegex (sub_channel sub)) then (z, None) else
      (mkNB (zt z) (subs z) (<[i := true]> (subInUse z)) (subIsRegex z)
            (if (i =? subInUseEnd z)%nat then subInUseEnd z + 1 else subInUseEnd z)%nat,
       Some i)
  end.

(** A subscription is identified by its slot, [sub - zcm->subs]. *)
Definition zcm_nonblocking_subscribe (z : nb) (channel : cstr) (cb usr : nat) : nb * option nat :=
  let '(t, rc) := zcm_trans_recvmsg_enable (zt z) channel true in
  let z := with_zt z t in
  if negb (rc =? ZCM_EOK) then (z, None) else
  subscribe_loop ZCM_NONBLOCK_SUBS_MAX 0 z channel cb usr.

Definition channel_at (z : nb) (i : nat) : cstr :=
  match subs z !! i with Some s => sub_channel s | None => [] end.

(** Whether another subscription in use has the channel. *)
Fixpoint other_sub (room i : nat) (z : nb) (match_idx : nat) : bool :=
  match room with
  | O => false
  | S room =>
      if in_use z i && negb (match_idx =? i)%nat &&
         strncmp_eq (channel_at z match_idx) (channel_at z i) ZCM_CHANNEL_MAXLEN
      then true else other_sub room (i + 1) z match_idx
  end.

(** [while (subInUseEnd > 0 && !subInUse[subInUseEnd - 1]) --subInUseEnd;] *)
Fixpoint shrink (inUse : list bool) (e : nat) : nat :=
  match e with
  | O => O
  | S e' => if default false (inUse !! e') then e else shrink inUse e'
  end.

Definition zcm_nonblocking_unsubscribe (z : nb) (match_idx : Z) : nb * Z :=
  if (match_idx <? 0) || (Z.of_nat (subInUseEnd z) <=? match_idx) then (z, ZCM_EINVALID) else
  let i := Z.to_nat match_idx in
  if negb (in_use z i) then (z, ZCM_EINVALID) else
  let '(z, rc) :=
    if other_sub (subInUseEnd z) 0 z i then (z, ZCM_EOK) else
    let '(t, rc) := zcm_trans_recvmsg_enable (zt z) (channel_at z i) false in (with_zt z t, rc) in
  let inUse := <[i := false]> (subInUse z) in
  (mkNB (zt z) (subs z) inUse (subIsRegex z) (shrink inUse (subInUseEnd z)), rc).

Definition zcm_nonblocking_query_drops (z : nb) : Z * Z := zcm_trans_query_drops (zt z).

Definition shouldDispatch (sub : zcm_sub_t) (isRegex : bool) (chan : cstr) : bool :=
  if isRegex then
    (2 <=? length (sub_channel sub))%nat &&
    strncmp_eq (sub_channel sub) chan (length (sub_channel sub) - 2)
  else strncmp_eq (sub_channel sub) chan ZCM_CHANNEL_MAXLEN.

Definition deliver (sub : zcm_sub_t) (msg : zcm_msg_t) : delivery :=
  mkDelivery (callback sub) (sub_usr sub) (channel msg) (mkRbuf (utime msg) (buf msg) (wrapu 32 (len msg))).

(** The loop over the slots; [room] is [subInUseEnd - i]. *)
Fixpoint dispatch_loop (room i : nat) (z : nb) (msg : zcm_msg_t) : list delivery :=
  match room with
  | O => []
  | S room =>
      let rest := dispatch_loop room (i + 1) z msg in
      if negb (in_use z i) then rest else
      match subs z !! i with
      | Some sub =>
          if shouldDispatch sub (default false (subIsRegex z !! i)) (channel msg)
          then deliver sub msg :: rest else rest
      | None => rest
      end
  end.

Definition dispatch_message (z : nb) (msg : zcm_msg_t) : list delivery :=
  dispatch_loop (subInUseEnd z) 0 z msg.

Definition zcm_nonblocking_handle_nonblock (z : nb) : option (nb * Z * list delivery) :=
  '(t, _) <- zcm_trans_update (zt z) ;;
  '(t, ret, om) <- zcm_trans_recvmsg t 0 ;;
  let z := with_zt z t in
  if negb (ret =? ZCM_EOK) then Some (z, ret, []) else
  msg <- om ;;
  Some (z, ZCM_EOK, dispatch_message z msg).

(** [fuel] bounds the messages received by one flush; a queue of [fuel - 1]
    messages is emptied ([flush_loop_fifo]). *)
Fixpoint flush_loop (fuel : nat) (z : nb) : option (nb * list delivery) :=
  match fuel with
  | O => None
  | S fuel =>
      '(t, ret, om) <- zcm_trans_recvmsg (zt z) 0 ;;
      let z := with_zt z t in
      if negb (ret =? ZCM_EOK) then Some (z, []) else
      msg <- om ;;
      '(z', ds) <- flush_loop fuel z ;;
      Some (z', dispatch_message z msg ++ ds)
  end.

Definition zcm_nonblocking_flush (fuel : nat) (z : nb) : option (nb * list delivery) :=
  '(t, _) <- zcm_trans_update (zt z) ;;
  '(t, _) <- zcm_trans_update t ;;
  flush_loop fuel (with_zt z t).

Definition zcm_nonblocking_write_topology (TRACK_TRAFFIC_TOPOLOGY : bool) : Z :=
  if TRACK_TRAFFIC_TOPOLOGY then ZCM_EUNKNOWN else ZCM_EINVALID.
End Nonblocking.
