(* ===== verification/NonblockingProps.v ===== *)
(** * Correctness of the non-blocking core

    The table of subscriptions is a partial map from slots to subscriptions
    ([slot]); subscribing fills the first free slot, unsubscribing empties one,
    and a message goes to exactly the subscriptions whose channel or pattern
    it matches, in slot order. *)
From S2P Require Import Prelude Bytes Transport Inproc Nonblocking.
Local Open Scope Z_scope.

(** ** Matching *)

(** What a subscription's channel stands for: a pattern [p.*] every channel that
    starts with [p], any other channel itself (as much of it as is kept). *)
Definition channel_matches (pat chan : cstr) : Prop :=
  if isRegexChannel pat then exists p, pat = p ++ str ".*" /\ p `prefix_of` chan
  else pat = copy_channel chan.

#[export] Instance channel_matches_dec pat chan : Decision (channel_matches pat chan).
Proof.
  unfold channel_matches. destruct (isRegexChannel pat); [|apply _].
  destruct (decide (drop (length pat - 2) pat = str ".*" /\ take (length pat - 2) pat `prefix_of` chan))
    as [[E P]|N]; [left|right].
  - exists (take (length pat - 2) pat). split; [|done]. by rewrite <- E, take_drop.
  - intros (p & -> & P). apply N. rewrite length_app.
    change (length (str ".*")) with 2%nat. rewrite Nat.add_sub.
    by rewrite drop_app_length, take_app_length.
Defined.

Lemma strncmp_eq_spec n : forall a b, strncmp_eq a b n = bool_decide (take n a = take n b).
Proof.
  induction n as [|n IH]; intros a b; cbn [strncmp_eq]; [by symmetry; apply bool_decide_true|].
  destruct a as [|x a], b as [|y b]; cbn [take];
    [by symmetry; apply bool_decide_true|by symmetry; apply bool_decide_false..|].
  rewrite IH. destruct (Z.eqb_spec x y) as [->|Hne]; simpl.
  - apply bool_decide_ext. split; [by intros ->|by intros [= ?]].
  - symmetry. apply bool_decide_false. congruence.
Qed.

Lemma isRegexChannel_take c n : isRegexChannel c = false -> isRegexChannel (take n c) = false.
Proof.
  revert n. induction c as [|x c IH]; intros [|n]; simpl; try done.
  destruct (regexChar x); [done|]. apply IH.
Qed.

Lemma supported_shape c : isRegexChannel c = true -> isSupportedRegex c = true ->
  exists p, c = p ++ str ".*" /\ forallb plainChar p = true.
Proof.
  intros Hr. unfold isSupportedRegex. rewrite Hr. simpl.
  repeat case_test; try done.
  intros Hp. exists (take (length c - 2) c). split; [|done].
  rewrite <- (take_drop (length c - 2) c) at 1. f_equal.
  destruct (lookup_lt_is_Some_2 c (length c - 2)) as [x Ex]; [lia|].
  destruct (lookup_lt_is_Some_2 c (length c - 1)) as [y Ey]; [lia|].
  rewrite Ex in *. rewrite Ey in *. simpl in *. subst.
  rewrite (drop_S _ _ _ Ex). replace (S (length c - 2)) with (length c - 1)%nat by lia.
  rewrite (drop_S _ _ _ Ey), drop_ge by lia. done.
Qed.

(** The test of [dispatch_message] decides the matching. *)
Lemma shouldDispatch_spec sub chan :
  isSupportedRegex (sub_channel sub) = true -> (length (sub_channel sub) <= ZCM_CHANNEL_MAXLEN)%nat ->
  shouldDispatch sub (isRegexChannel (sub_channel sub)) chan
    = bool_decide (channel_matches (sub_channel sub) chan).
Proof.
  intros Hs Hl. apply eq_true_iff_eq. rewrite bool_decide_eq_true.
  unfold shouldDispatch, channel_matches.
  destruct (isRegexChannel (sub_channel sub)) eqn:Hr; rewrite strncmp_eq_spec.
  - destruct (supported_shape _ Hr Hs) as (p & -> & _). rewrite length_app.
    change (length (str ".*")) with 2%nat. rewrite Nat.add_sub, take_app_length.
    rewrite (proj2 (Nat.leb_le 2 _)), andb_true_l, bool_decide_eq_true by lia. split.
    + intros E. exists p. split; [done|]. rewrite E. apply prefix_take.
    + intros (p' & E & [q ->]). apply app_inv_tail in E as <-. by rewrite take_app_length.
  - unfold copy_channel. by rewrite bool_decide_eq_true, take_ge.
Qed.

(** The size of the table never has to be computed with. *)
Local Opaque ZCM_NONBLOCK_SUBS_MAX.

Section Props.
Context {T : Type} `{Transport T}.
Notation nb := (zcm_nonblocking T).

(** ** The table *)

Definition slot (z : nb) (i : nat) : option zcm_sub_t := if in_use z i then subs z !! i else None.

Definition sub_ok (s : zcm_sub_t) : Prop :=
  (length (sub_channel s) <= ZCM_CHANNEL_MAXLEN)%nat /\ isSupportedRegex (sub_channel s) = true.

Record nb_inv (z : nb) : Prop := {
  nb_subs : length (subs z) = ZCM_NONBLOCK_SUBS_MAX;
  nb_used : length (subInUse z) = ZCM_NONBLOCK_SUBS_MAX;
  nb_regex : length (subIsRegex z) = ZCM_NONBLOCK_SUBS_MAX;
  nb_end : (subInUseEnd z <= ZCM_NONBLOCK_SUBS_MAX)%nat;
  nb_below : forall i, in_use z i = true -> (i < subInUseEnd z)%nat;
  nb_tight : subInUseEnd z = 0%nat \/ in_use z (subInUseEnd z - 1) = true;
  nb_slots : forall i s, slot z i = Some s ->
    sub_ok s /\ subIsRegex z !! i = Some (isRegexChannel (sub_channel s))
}.

Lemma in_use_lt z i : nb_inv z -> in_use z i = true -> (i < ZCM_NONBLOCK_SUBS_MAX)%nat.
Proof. intros I Hi. pose proof (nb_below _ I i Hi). pose proof (nb_end _ I). lia. Qed.

Lemma slot_used z i : nb_inv z -> (in_use z i = true <-> slot z i <> None).
Proof.
  intros I. unfold slot. split.
  - intros Hi. rewrite Hi. destruct (lookup_lt_is_Some_2 (subs z) i) as [s ->]; [|done].
    rewrite (nb_subs _ I). by apply (in_use_lt z).
  - by destruct (in_use z i).
Qed.

Lemma slot_free z i : nb_inv z -> (in_use z i = false <-> slot z i = None).
Proof.
  intros I. pose proof (slot_used z i I). destruct (in_use z i), (slot z i); intuition congruence.
Qed.

Lemma nb_inv_with_zt z t : nb_inv z -> nb_inv (with_zt z t).
Proof. intros []. by split. Qed.

Lemma nb_inv_create t z : zcm_nonblocking_try_create ZCM_NONBLOCKING t true = (ZCM_EOK, Some z) ->
  nb_inv z /\ forall i, slot z i = None.
Proof.
  unfold zcm_nonblocking_try_create. cbn [negb]. rewrite bool_decide_true by done. cbn [negb].
  intros [= <-].
  assert (forall i, default false (replicate ZCM_NONBLOCK_SUBS_MAX false !! i) = false) as U.
  { intros i. destruct (_ !! i) eqn:E; [|done]. by apply lookup_replicate in E as [-> _]. }
  split; [split|]; simpl subs; simpl subInUse; simpl subIsRegex; unfold slot, in_use; simpl;
    rewrite ?length_replicate; try done.
  - lia.
  - intros i. by rewrite U.
  - by left.
  - intros i s. by rewrite U.
  - intros i. by rewrite U.
Qed.

Lemma in_use_insert z t ss rs e i j b : nb_inv z -> (i < ZCM_NONBLOCK_SUBS_MAX)%nat ->
  in_use (mkNB t ss (<[i := b]> (subInUse z)) rs e : nb) j = if decide (j = i) then b else in_use z j.
Proof.
  intros I Hi. unfold in_use. simpl. destruct (decide (j = i)) as [->|Hne].
  - by rewrite list_lookup_insert_eq by (by rewrite (nb_used _ I)).
  - by rewrite list_lookup_insert_ne.
Qed.

(** What subscribing does to the table: [fill z i s] puts [s] in slot [i]. *)
Definition fill (z : nb) (i : nat) (s : zcm_sub_t) : nb :=
  mkNB (zt z) (<[i := s]> (subs z)) (<[i := true]> (subInUse z))
    (<[i := isRegexChannel (sub_channel s)]> (subIsRegex z))
    (if (i =? subInUseEnd z)%nat then subInUseEnd z + 1 else subInUseEnd z)%nat.

Lemma slot_fill z i s j : nb_inv z -> (i < ZCM_NONBLOCK_SUBS_MAX)%nat ->
  slot (fill z i s) j = if decide (j = i) then Some s else slot z j.
Proof.
  intros I Hi. unfold slot, fill. rewrite in_use_insert by done. simpl.
  destruct (decide (j = i)) as [->|Hne].
  - by rewrite list_lookup_insert_eq by (by rewrite (nb_subs _ I)).
  - by rewrite list_lookup_insert_ne.
Qed.

Lemma fill_inv z i s : nb_inv z -> (i < ZCM_NONBLOCK_SUBS_MAX)%nat -> (i <= subInUseEnd z)%nat ->
  sub_ok s -> nb_inv (fill z i s).
Proof.
  intros I Hi He Hs. pose proof I as [I1 I2 I3 I4 I5 I6 I7].
  split; try (unfold fill; simpl; by rewrite length_insert).
  - unfold fill. simpl. case_test; lia.
  - intros j. unfold fill. rewrite in_use_insert by done. simpl.
    destruct (decide (j = i)) as [->|]; [case_test; lia|].
    intros Hj%I5. case_test; lia.
  - right. unfold fill at 1. rewrite in_use_insert by done. unfold fill. simpl.
    destruct (Nat.eqb_spec i (subInUseEnd z)).
    + rewrite decide_True by lia. done.
    + destruct (decide _); [done|]. destruct I6; [lia|done].
  - intros j s'. rewrite slot_fill by done. unfold fill. simpl.
    destruct (decide (j = i)) as [->|Hne].
    + intros [= <-]. split; [done|]. by rewrite list_lookup_insert_eq by (by rewrite I3).
    + rewrite list_lookup_insert_ne by done. apply I7.
Qed.

(** An abandoned attempt writes only to a slot not in use. *)
Definition scribble (z : nb) (i : nat) (s : zcm_sub_t) : nb :=
  mkNB (zt z) (<[i := s]> (subs z)) (subInUse z)
    (<[i := isRegexChannel (sub_channel s)]> (subIsRegex z)) (subInUseEnd z).

Lemma slot_scribble z i s j : in_use z i = false -> slot (scribble z i s) j = slot z j.
Proof.
  intros Hi. unfold slot, scribble, in_use in *. simpl.
  destruct (decide (j = i)) as [->|]; [by rewrite Hi|by rewrite list_lookup_insert_ne].
Qed.

Lemma scribble_inv z i s : nb_inv z -> in_use z i = false -> nb_inv (scribble z i s).
Proof.
  intros I Hi. pose proof I as [I1 I2 I3 I4 I5 I6 I7].
  split; try done; try (unfold scribble; simpl; by rewrite length_insert).
  intros j s'. rewrite slot_scribble by done. intros Hj. split; [by eapply I7|].
  unfold scribble. simpl. rewrite list_lookup_insert_ne; [by apply I7|].
  intros ->. unfold slot in Hj. by rewrite Hi in Hj.
Qed.

Lemma supported_plain c : isRegexChannel c && negb (isSupportedRegex c) = negb (isSupportedRegex c).
Proof.
  destruct (isSupportedRegex c) eqn:E; simpl; [apply andb_false_r|].
  unfold isSupportedRegex in E. by destruct (isRegexChannel c).
Qed.

Lemma subscribe_loop_spec room : forall i z ch cb usr, nb_inv z ->
  (i + room = ZCM_NONBLOCK_SUBS_MAX)%nat -> (forall j, (j < i)%nat -> in_use z j = true) ->
  let s := mkSub (copy_channel ch) cb usr in
  (exists k, (i <= k < ZCM_NONBLOCK_SUBS_MAX)%nat /\ (k <= subInUseEnd z)%nat /\
    in_use z k = false /\ (forall j, (j < k)%nat -> in_use z j = true) /\
    subscribe_loop room i z ch cb usr =
      if isSupportedRegex (copy_channel ch) then (fill z k s, Some k) else (scribble z k s, None)) \/
  ((forall j, (j < ZCM_NONBLOCK_SUBS_MAX)%nat -> in_use z j = true) /\
   subscribe_loop room i z ch cb usr = (z, None)).
Proof.
  induction room as [|room IH]; intros i z ch cb usr I Hr Hu s; simpl subscribe_loop.
  { right. split; [|done]. intros j Hj. apply Hu. lia. }
  destruct (Nat.ltb_spec (subInUseEnd z) i) as [Hlt|Hge].
  { exfalso. pose proof (nb_below _ I (subInUseEnd z) (Hu _ Hlt)). lia. }
  destruct (in_use z i) eqn:Ei.
  - destruct (IH (i + 1)%nat z ch cb usr I) as [(k & Hk & Hrest)|Hfull]; [lia| | |by right].
    + intros j Hj. destruct (decide (j = i)) as [->|]; [done|]. apply Hu. lia.
    + left. exists k. split; [lia|done].
  - left. exists i. split_and!; [lia|lia|done|done|done|].
    cbv zeta. rewrite supported_plain. by destruct (isSupportedRegex (copy_channel ch)).
Qed.

Lemma copy_channel_ok ch cb usr : isSupportedRegex (copy_channel ch) = true ->
  sub_ok (mkSub (copy_channel ch) cb usr).
Proof. intros E. split; [|done]. cbn [sub_channel]. unfold copy_channel. rewrite length_take. lia. Qed.

Lemma subscribe_inv z ch cb usr : nb_inv z -> nb_inv (zcm_nonblocking_subscribe z ch cb usr).1.
Proof.
  intros I. unfold zcm_nonblocking_subscribe.
  destruct (zcm_trans_recvmsg_enable (zt z) ch true) as [t rc].
  apply (nb_inv_with_zt _ t) in I. destruct (negb (rc =? ZCM_EOK)); [done|].
  destruct (subscribe_loop_spec ZCM_NONBLOCK_SUBS_MAX 0 (with_zt z t) ch cb usr I)
    as [(k & Hk & He & Hf & Hu & ->)|[Hu ->]]; [lia|lia| |done].
  destruct (isSupportedRegex (copy_channel ch)) eqn:Es.
  - apply fill_inv; [done|lia|done|by apply copy_channel_ok].
  - by apply scribble_inv.
Qed.

(** ** Unsubscribing *)

Lemma shrink_spec used e : let e' := shrink used e in (e' <= e)%nat /\
  (forall j, (e' <= j < e)%nat -> default false (used !! j) = false) /\
  (e' = 0%nat \/ default false (used !! (e' - 1)%nat) = true).
Proof.
  induction e as [|e IH]; simpl; [split_and!; [lia|lia|by left]|].
  destruct (default false (used !! e)) eqn:E.
  - split_and!; [lia|lia|right]. simpl. by rewrite Nat.sub_0_r.
  - destruct IH as (H1 & H2 & H3). split_and!; [lia| |done].
    intros j Hj. destruct (decide (j = e)) as [->|]; [done|apply H2; lia].
Qed.

Definition clear (z : nb) (i : nat) : nb :=
  let inUse := <[i := false]> (subInUse z) in
  mkNB (zt z) (subs z) inUse (subIsRegex z) (shrink inUse (subInUseEnd z)).

Lemma slot_clear z i j : nb_inv z -> (i < ZCM_NONBLOCK_SUBS_MAX)%nat ->
  slot (clear z i) j = if decide (j = i) then None else slot z j.
Proof.
  intros I Hi. unfold slot, clear. rewrite in_use_insert by done. by destruct (decide (j = i)).
Qed.

Lemma clear_inv z i : nb_inv z -> (i < ZCM_NONBLOCK_SUBS_MAX)%nat -> nb_inv (clear z i).
Proof.
  intros I Hi. pose proof I as [I1 I2 I3 I4 I5 I6 I7].
  destruct (shrink_spec (<[i := false]> (subInUse z)) (subInUseEnd z)) as (S1 & S2 & S3).
  split; try done; try (unfold clear; simpl; by rewrite length_insert).
  - unfold clear. simpl. lia.
  - intros j Hj. change (subInUseEnd (clear z i)) with (shrink (<[i := false]> (subInUse z)) (subInUseEnd z)).
    destruct (Nat.lt_ge_cases j (shrink (<[i := false]> (subInUse z)) (subInUseEnd z))) as [|Hge]; [done|].
    assert (j < subInUseEnd z)%nat as Hlt.
    { apply I5. unfold clear in Hj. rewrite in_use_insert in Hj by done. by destruct (decide (j = i)). }
    specialize (S2 j (conj Hge Hlt)). unfold in_use, clear in Hj. simpl in Hj. congruence.
  - intros j s'. rewrite slot_clear by done. destruct (decide (j = i)); [done|]. apply I7.
Qed.

Lemma other_sub_spec z i s : nb_inv z -> slot z i = Some s -> forall room k,
  other_sub room k z i = true <->
  exists j s', (k <= j < k + room)%nat /\ j <> i /\ slot z j = Some s' /\ sub_channel s = sub_channel s'.
Proof.
  intros I Es. induction room as [|room IH]; intros k; cbn [other_sub].
  { split; [done|]. intros (j & s' & Hj & _). lia. }
  assert (channel_at z i = sub_channel s) as Ec.
  { unfold channel_at. unfold slot in Es. by destruct (in_use z i); [rewrite Es|]. }
  destruct (in_use z k && negb (i =? k)%nat && strncmp_eq (channel_at z i) (channel_at z k) ZCM_CHANNEL_MAXLEN) eqn:E.
  - apply andb_prop in E as [E Hc]. bool_prop. split; [intros _|intros _; reflexivity].
    destruct (slot z k) as [s'|] eqn:Ek; [|by apply slot_free in Ek; [congruence|]].
    exists k, s'. split_and!; [lia|lia|lia|done|].
    assert (channel_at z k = sub_channel s') as Ec'.
    { unfold channel_at. unfold slot in Ek. by destruct (in_use z k); [rewrite Ek|]. }
    rewrite strncmp_eq_spec in Hc. apply bool_decide_eq_true in Hc. rewrite Ec, Ec' in Hc.
    destruct (nb_slots _ I _ _ Es) as [[Hl _] _]. destruct (nb_slots _ I _ _ Ek) as [[Hl' _] _].
    by rewrite !take_ge in Hc.
  - rewrite IH. split; intros (j & s' & Hj & Hne & Hs' & Hc); exists j, s'; split_and!; try done; try lia.
    destruct (decide (j = k)) as [->|]; [|lia]. exfalso.
    assert (in_use z k = true) as Hu by (apply slot_used; [done|congruence]).
    assert (channel_at z k = sub_channel s') as Ec'.
    { unfold channel_at. unfold slot in Hs'. rewrite Hu in Hs'. by rewrite Hs'. }
    rewrite Hu, Ec, Ec', Hc, strncmp_eq_spec, bool_decide_true in E by done.
    rewrite (proj2 (Nat.eqb_neq i k)) in E by done. done.
Qed.

(** ** Dispatching *)

Definition active (z : nb) : list zcm_sub_t := omap (slot z) (seq 0 ZCM_NONBLOCK_SUBS_MAX).

(** The subscriptions a message is for, in slot order. *)
Definition receivers (z : nb) (chan : cstr) : list zcm_sub_t :=
  filter (fun s => channel_matches (sub_channel s) chan) (active z).

Lemma dispatch_loop_spec z msg : nb_inv z -> forall room i,
  dispatch_loop room i z msg =
  (fun s => deliver s msg) <$>
    filter (fun s => channel_matches (sub_channel s) (channel msg)) (omap (slot z) (seq i room)).
Proof.
  intros I. induction room as [|room IH]; intros i; [done|]. cbn [dispatch_loop seq omap list_omap].
  rewrite Nat.add_1_r, IH. destruct (in_use z i) eqn:E; cbn [negb].
  2: { apply slot_free in E; [|done]. by rewrite E. }
  destruct (slot z i) as [s|] eqn:Es; [|by apply slot_free in Es; [congruence|]].
  destruct (nb_slots _ I _ _ Es) as [[Hl Hs] Hr]. rewrite Hr.
  unfold slot in Es. rewrite E in Es. rewrite Es. cbn [default].
  cbn [from_option]. unfold id. rewrite (shouldDispatch_spec s _ Hs Hl), filter_cons.
  destruct (decide (channel_matches (sub_channel s) (channel msg))) as [M|M].
  - by rewrite bool_decide_true.
  - by rewrite bool_decide_false.
Qed.

Lemma dispatch_spec z msg : nb_inv z ->
  dispatch_message z msg = (fun s => deliver s msg) <$> receivers z (channel msg).
Proof.
  intros I. unfold dispatch_message, receivers, active. rewrite dispatch_loop_spec by done.
  f_equal. f_equal. pose proof (nb_end _ I).
  replace ZCM_NONBLOCK_SUBS_MAX with (subInUseEnd z + (ZCM_NONBLOCK_SUBS_MAX - subInUseEnd z))%nat by lia.
  rewrite seq_app, omap_app. simpl.
  assert (forall l, Forall (fun i => subInUseEnd z <= i)%nat l -> omap (slot z) l = []) as N.
  { induction 1 as [|i l Hi _ IH]; [done|]. cbn [omap list_omap].
    assert (slot z i = None) as ->; [|done].
    apply slot_free; [done|]. destruct (in_use z i) eqn:E; [|done].
    apply (nb_below _ I) in E. lia. }
  rewrite (N (seq (subInUseEnd z) _)) by (apply Forall_seq; lia). by rewrite app_nil_r.
Qed.

Lemma receivers_with_zt z t chan : receivers (with_zt z t) chan = receivers z chan.
Proof. reflexivity. Qed.

(** What a handler sees of a message, the time stamp apart. *)
Definition view (d : delivery) : nat * nat * cstr * list byte :=
  (dcallback d, dusr d, dchannel d, rdata (drbuf d)).

Definition expected (z : nb) (p : cstr * list byte) : list (nat * nat * cstr * list byte) :=
  (fun s => (callback s, sub_usr s, p.1, p.2)) <$> receivers z p.1.

Lemma dispatch_view z msg : nb_inv z ->
  view <$> dispatch_message z msg = expected z (channel msg, buf msg).
Proof. intros I. rewrite dispatch_spec by done. unfold expected. by rewrite <- list_fmap_compose. Qed.
End Props.

(** The size that a handler is given is that of the bytes. *)
Definition sized (d : delivery) : Prop := data_size (drbuf d) = wrapu 32 (Z.of_nat (length (rdata (drbuf d)))).

Section Fifo.
Context {T : Type} `{FifoTransport T}.
Notation nb := (zcm_nonblocking T).

Lemma dispatch_sized (z : nb) msg : nb_inv z -> len msg = Z.of_nat (length (buf msg)) -> Forall sized (dispatch_message z msg).
Proof. intros I E. rewrite dispatch_spec by done. apply Forall_fmap, Forall_true. intros s. unfold sized. cbn. by rewrite E. Qed.

Lemma flush_loop_fifo q : forall fuel (z : nb), nb_inv z -> fifo_ok (zt z) -> queue (zt z) = q ->
  (length q < fuel)%nat ->
  exists t ds, flush_loop fuel z = Some (with_zt z t, ds) /\ queue t = [] /\ fifo_ok t /\
    view <$> ds = concat (expected z <$> q) /\ Forall sized ds.
Proof.
  induction q as [|p q IH]; intros [|fuel] z I F Q Hf; simpl in Hf; try lia;
    cbn [flush_loop]; unfold zcm_trans_recvmsg.
  - destruct (fifo_recv_nil (zt z) 0 F Q) as (t & rc & -> & Hrc & Qt & Ft & _).
    rewrite (proj2 (Z.eqb_neq _ _) Hrc). cbn [negb]. exists t, []. by split_and!.
  - destruct (fifo_recv_cons (zt z) 0 p q F Q) as (t & m & -> & Hm & Hlen & Qt & Ft & _).
    cbn [negb Z.eqb ZCM_EOK].
    destruct (IH fuel (with_zt z t)) as (t' & ds & -> & Qt' & Ft' & Hds & Hz);
      [by apply nb_inv_with_zt|done|done|lia|].
    exists t', (dispatch_message (with_zt z t) m ++ ds). split_and!; [reflexivity|assumption..| |].
    + rewrite fmap_app, Hds, dispatch_view, Hm by (by apply nb_inv_with_zt). unfold expected. reflexivity.
    + apply Forall_app. split; [apply dispatch_sized; [by apply nb_inv_with_zt|done]|done].
Qed.

(** Publishing a list of messages. *)
Fixpoint publish_all (z : nb) (ms : list zcm_msg_t) : option nb :=
  match ms with
  | [] => Some z
  | m :: ms => '(z, _) <- zcm_nonblocking_publish z (channel m) (buf m) (len m) ;; publish_all z ms
  end.

Lemma publish_all_fifo ms : forall z : nb, fifo_ok (zt z) -> Forall (sendable (get_mtu (zt z))) ms ->
  exists t, publish_all z ms = Some (with_zt z t) /\ fifo_ok t /\
    queue t = queue (zt z) ++ (payload <$> ms).
Proof.
  induction ms as [|m ms IH]; intros z F Hs; cbn [publish_all].
  { exists (zt z). rewrite app_nil_r. by destruct z. }
  inversion_clear Hs as [|? ? Hm Hms].
  unfold zcm_nonblocking_publish, zcm_trans_sendmsg.
  destruct (fifo_send (zt z) (mkMsg 0 (channel m) (len m) (buf m)) F Hm) as (t & -> & Q & Ft & Mt).
  destruct (IH (with_zt z t)) as (t' & -> & Ft' & Q'); [done|cbn; by rewrite Mt|].
  exists t'. split_and!; [reflexivity|assumption|]. cbn in Q'. by rewrite Q', Q, <- app_assoc.
Qed.

(** A flush behind a list of messages. *)
Lemma publish_flush_fifo (z : nb) (ms : list zcm_msg_t) :
  nb_inv z -> fifo_ok (zt z) -> queue (zt z) = [] -> Forall (sendable (get_mtu (zt z))) ms ->
  exists t t' ds, publish_all z ms = Some (with_zt z t) /\
    zcm_nonblocking_flush (S (length ms)) (with_zt z t) = Some (with_zt z t', ds) /\
    queue t' = [] /\ view <$> ds = concat (expected z <$> (payload <$> ms)) /\ Forall sized ds.
Proof.
  intros I F Q Hs. destruct (publish_all_fifo ms z F Hs) as (t & -> & Ft & Qt).
  rewrite Q in Qt. cbn in Qt. exists t. unfold zcm_nonblocking_flush, zcm_trans_update.
  destruct (fifo_update t Ft) as (t1 & rc1 & E1 & Q1 & F1 & _).
  destruct (fifo_update t1 F1) as (t2 & rc2 & E2 & Q2 & F2 & _).
  cbn [zt with_zt]. rewrite E1, E2.
  destruct (flush_loop_fifo (payload <$> ms) (S (length ms)) (with_zt (with_zt z t) t2))
    as (t3 & ds & -> & Q3 & F3 & Hds & Hz).
  - by apply nb_inv_with_zt, nb_inv_with_zt.
  - done.
  - cbn [zt with_zt]. by rewrite Q2, Q1, Qt.
  - rewrite length_fmap. lia.
  - by exists t3, ds.
Qed.

End Fifo.

(** ** The properties *)

(** subscribing to the non-blocking core.  With the transport willing, the subscription,
    its channel cut to ZCM_CHANNEL_MAXLEN bytes, takes the first free slot of the table and
    changes no other; it is refused, with the table unchanged, exactly when the table is full
    or the channel is a pattern other than a plain prefix followed by [.*].  The invariant of
    the table is kept either way. *)
Theorem nb_subscribe_spec {T} `{Transport T} (z : zcm_nonblocking T) ch cb usr t :
  nb_inv z -> zcm_trans_recvmsg_enable (zt z) ch true = (t, ZCM_EOK) ->
  let '(z', r) := zcm_nonblocking_subscribe z ch cb usr in
  nb_inv z' /\ zt z' = t /\
  match r with
  | Some i => (i < ZCM_NONBLOCK_SUBS_MAX)%nat /\ slot z i = None /\
      (forall j, (j < i)%nat -> slot z j <> None) /\
      isSupportedRegex (copy_channel ch) = true /\
      forall j, slot z' j = if decide (j = i) then Some (mkSub (copy_channel ch) cb usr) else slot z j
  | None => (forall j, slot z' j = slot z j) /\
      ((forall j, (j < ZCM_NONBLOCK_SUBS_MAX)%nat -> slot z j <> None) \/
       isSupportedRegex (copy_channel ch) = false)
  end.
Proof.
  intros I E. pose proof (subscribe_inv z ch cb usr I) as I'. revert I'.
  unfold zcm_nonblocking_subscribe. rewrite E. cbn [negb Z.eqb ZCM_EOK].
  set (z1 := with_zt z t). assert (nb_inv z1) as I1 by (by apply nb_inv_with_zt).
  assert (forall j, slot z1 j = slot z j) as S1 by done.
  destruct (subscribe_loop_spec ZCM_NONBLOCK_SUBS_MAX 0 z1 ch cb usr I1)
    as [(k & Hk & He & Hf & Hu & ->)|[Hu ->]]; [lia|lia| |].
  - destruct (isSupportedRegex (copy_channel ch)) eqn:Es.
    + intros I'. split; [exact I'|split; [done|]].
      split_and!; [lia|by apply (slot_free z1)| |done|].
      * intros j Hj. rewrite <- S1. apply slot_used; auto.
      * intros j. rewrite slot_fill by (done || lia). by rewrite S1.
    + intros I'. split; [exact I'|split; [done|]]. split; [|by right].
      intros j. by rewrite slot_scribble.
  - intros I'. split; [done|split; [done|]]. split; [done|left].
    intros j Hj. rewrite <- S1. apply slot_used; auto.
Qed.

(** unsubscribing from the non-blocking core.  A slot outside the table or not in use is
    refused with ZCM_EINVALID and nothing changes; otherwise exactly that slot is emptied,
    and the transport is told to disable the channel if and only if no other subscription in
    use has the same channel, its answer being the return code. *)
Theorem nb_unsubscribe_spec {T} `{Transport T} (z : zcm_nonblocking T) (idx : Z) :
  nb_inv z ->
  let '(z', rc) := zcm_nonblocking_unsubscribe z idx in
  nb_inv z' /\
  match (if decide (0 <= idx) then slot z (Z.to_nat idx) else None) with
  | None => z' = z /\ rc = ZCM_EINVALID
  | Some s =>
      (forall j, slot z' j = if decide (j = Z.to_nat idx) then None else slot z j) /\
      ((exists j s', j <> Z.to_nat idx /\ slot z j = Some s' /\ sub_channel s = sub_channel s') /\
       zt z' = zt z /\ rc = ZCM_EOK \/
       (forall j s', j <> Z.to_nat idx -> slot z j = Some s' -> sub_channel s <> sub_channel s') /\
       (zt z', rc) = zcm_trans_recvmsg_enable (zt z) (sub_channel s) false)
  end.
Proof.
  intros I. unfold zcm_nonblocking_unsubscribe.
  destruct (Z.ltb_spec idx 0) as [Hneg|Hpos]; cbn [orb].
  { split; [done|]. by rewrite decide_False by lia. }
  rewrite decide_True by done. set (i := Z.to_nat idx).
  destruct (Z.leb_spec (Z.of_nat (subInUseEnd z)) idx) as [Hle|Hlt].
  { split; [done|]. destruct (slot z i) eqn:Es; [|done].
    assert (in_use z i = true) as Hu by (apply slot_used; [done|congruence]).
    apply (nb_below _ I) in Hu. lia. }
  destruct (in_use z i) eqn:Eu; cbn [negb].
  2: { split; [done|]. apply slot_free in Eu; [|done]. by rewrite Eu. }
  destruct (slot z i) as [s|] eqn:Es; [|by apply slot_free in Es; [congruence|]].
  assert (i < ZCM_NONBLOCK_SUBS_MAX)%nat as Hi by (by apply (in_use_lt z)).
  pose proof (other_sub_spec z i s I Es (subInUseEnd z) 0) as O.
  assert (channel_at z i = sub_channel s) as Ec.
  { unfold channel_at. unfold slot in Es. rewrite Eu in Es. by rewrite Es. }
  destruct (other_sub (subInUseEnd z) 0 z i).
  - split; [by apply (clear_inv z)|]. split; [intros j; by apply (slot_clear z)|left].
    destruct (proj1 O eq_refl) as (j & s' & _ & Hne & Hs & Hc). split; [|done]. by exists j, s'.
  - rewrite Ec. destruct (zcm_trans_recvmsg_enable (zt z) (sub_channel s) false) as [t rc].
    pose proof (nb_inv_with_zt z t I) as I2.
    split; [by apply (clear_inv (with_zt z t))|].
    split; [intros j; by apply (slot_clear (with_zt z t))|right]. split; [|done].
    intros j s' Hne Hs Hc. enough (false = true) by done. apply O. exists j, s'.
    split_and!; [lia| |done..].
    assert (in_use z j = true) as Hu by (apply slot_used; [done|congruence]).
    apply (nb_below _ I) in Hu. lia.
Qed.

(** C16: the non-blocking core delivers every message to exactly the subscriptions it is for.
    Over a first-in first-out transport whose queue is empty, publishing messages and then
    flushing calls, message after message in the order of publication, the handler of each
    subscription whose channel equals the message's channel or whose pattern [p.*] it starts
    with, in slot order, with the message's channel and bytes, and nothing else; the flush
    ends and empties the transport. *)
Theorem nb_publish_flush {T} `{FifoTransport T} (z : zcm_nonblocking T) (ms : list zcm_msg_t) :
  nb_inv z -> fifo_ok (zt z) -> queue (zt z) = [] -> Forall (sendable (get_mtu (zt z))) ms ->
  exists z1 z2 ds, publish_all z ms = Some z1 /\
    zcm_nonblocking_flush (S (length ms)) z1 = Some (z2, ds) /\
    queue (zt z2) = [] /\ nb_inv z2 /\
    view <$> ds = concat (expected z <$> (payload <$> ms)).
Proof.
  intros I F Q Hs. destruct (publish_flush_fifo z ms I F Q Hs) as (t & t' & ds & -> & E & Qt & V & _).
  exists (with_zt z t), (with_zt z t'), ds. split_and!; [done..| |done]. by apply nb_inv_with_zt.
Qed.

(** ** Concrete runs *)

Definition sample_nb : zcm_nonblocking inproc :=
  match zcm_nonblocking_try_create ZCM_NONBLOCKING (inproc_create false [5; 6; 7]) true with
  | (_, Some z) => z
  | (_, None) => mkNB (inproc_create false []) [] [] [] 0
  end.

Lemma sample_nb_inv : nb_inv sample_nb.
Proof. by eapply (nb_inv_create (inproc_create false [5; 6; 7])). Qed.

(** Two subscriptions, to a channel and to a pattern. *)
Definition sample_nb2 : zcm_nonblocking inproc :=
  (zcm_nonblocking_subscribe
    (zcm_nonblocking_subscribe sample_nb (str "POSE") 1 10).1 (str "PO.*") 2 20).1.

Lemma nb_subscribe_spec_witness : nb_inv sample_nb2 /\ slot sample_nb2 1 = Some (mkSub (str "PO.*") 2 20).
Proof.
  pose proof (nb_subscribe_spec sample_nb (str "POSE") 1 10 _ sample_nb_inv eq_refl) as S1.
  destruct (zcm_nonblocking_subscribe sample_nb (str "POSE") 1 10) as [z1 r1] eqn:E1.
  destruct S1 as (I1 & _ & _).
  pose proof (nb_subscribe_spec z1 (str "PO.*") 2 20 _ I1 eq_refl) as S2.
  unfold sample_nb2. rewrite E1. cbn [fst].
  destruct (zcm_nonblocking_subscribe z1 (str "PO.*") 2 20) as [z2 r2] eqn:E2.
  destruct S2 as (I2 & _ & R). cbn [fst]. split; [exact I2|].
  assert (r2 = Some 1%nat) as ->.
  { replace z1 with (zcm_nonblocking_subscribe sample_nb (str "POSE") 1 10).1 in E2 by (by rewrite E1).
    apply (f_equal snd) in E2. cbn [snd] in E2. rewrite <- E2. vm_compute. reflexivity. }
  destruct R as (_ & _ & _ & _ & R). rewrite R. reflexivity.
Defined.

Lemma sample_nb2_inv : nb_inv sample_nb2.
Proof. by apply subscribe_inv, subscribe_inv, sample_nb_inv. Qed.

Lemma nb_unsubscribe_spec_witness :
  exists z', zcm_nonblocking_unsubscribe sample_nb2 0 = (z', ZCM_EOK) /\
    nb_inv z' /\ slot z' 0 = None /\ slot z' 1 = slot sample_nb2 1.
Proof.
  pose proof (nb_unsubscribe_spec sample_nb2 0 sample_nb2_inv) as S.
  destruct (zcm_nonblocking_unsubscribe sample_nb2 0) as [z' rc] eqn:E. exists z'.
  assert (rc = ZCM_EOK) as ->.
  { apply (f_equal snd) in E. cbn [snd] in E. rewrite <- E. vm_compute. reflexivity. }
  destruct S as (I & R). rewrite decide_True in R by lia.
  assert (slot sample_nb2 (Z.to_nat 0) = Some (mkSub (str "POSE") 1 10)) as Es
    by (vm_compute; reflexivity).
  rewrite Es in R. destruct R as [R _]. split_and!; [done..| |]; by rewrite R.
Defined.

Lemma nb_publish_flush_witness :
  exists z1 z2 ds,
    publish_all sample_nb2 [mkMsg 0 (str "POSE") 2 [1; 2]; mkMsg 0 (str "PORT") 1 [3]] = Some z1 /\
    zcm_nonblocking_flush 3 z1 = Some (z2, ds) /\
    view <$> ds = [(1%nat, 10%nat, str "POSE", [1; 2]); (2%nat, 20%nat, str "POSE", [1; 2]);
                   (2%nat, 20%nat, str "PORT", [3])].
Proof.
  destruct (nb_publish_flush sample_nb2 [mkMsg 0 (str "POSE") 2 [1; 2]; mkMsg 0 (str "PORT") 1 [3]])
    as (z1 & z2 & ds & E1 & E2 & _ & _ & V).
  - exact sample_nb2_inv.
  - constructor.
  - reflexivity.
  - repeat constructor; vm_compute; congruence || lia.
  - exists z1, z2, ds. split_and!; [exact E1|exact E2|]. rewrite V. vm_compute. reflexivity.
Defined.
