(* ===== verification/Blocking.v ===== *)
(** * The blocking core (zcm/blocking.cpp)

    The methods of [zcm_blocking] run concurrently: the user's threads call
    them, and the send, receive and handle threads run [sendThreadFunc],
    [recvThreadFunc] and [hndlThreadFunc].  A method is a program ([prog]) of
    atomic actions: locking and unlocking one of the object's mutexes, reading
    or writing one of its flags, one call on a ThreadsafeQueue (itself one
    critical section), one call of the transport, starting or joining a thread.
    [machine] runs the threads in any interleaving, and a crash is an outcome
    of its own.

    Not part of the state: the storage of messages, which BufferPool models,
    and the traffic topology, which is compiled out by default.  Notifying a
    condition variable changes no state: a waiting thread may go on as soon as
    its predicate holds. *)
From S2P Require Import Prelude Bytes Queue Transport Nonblocking.

(** ** State *)

Inductive RecvMode := RECV_MODE_NONE | RECV_MODE_RUN | RECV_MODE_SPAWN | RECV_MODE_HANDLE.

Inductive ThreadState :=
  THREAD_STATE_STOPPED | THREAD_STATE_RUNNING | THREAD_STATE_HALTING | THREAD_STATE_HALTED.

#[export] Instance RecvMode_eq_dec : EqDecision RecvMode.
Proof. solve_decision. Defined.
#[export] Instance ThreadState_eq_dec : EqDecision ThreadState.
Proof. solve_decision. Defined.

Inductive mutex :=
  | recvModeMutex | sendOneMutex | dispOneMutex | subDispMutex | subRecvMutex
  | sendStateMutex | recvStateMutex | hndlStateMutex.

#[export] Instance mutex_eq_dec : EqDecision mutex.
Proof. solve_decision. Defined.

Inductive queueName := sendQueue | recvQueue.
#[export] Instance queueName_eq_dec : EqDecision queueName.
Proof. solve_decision. Defined.

(** The std::thread members. *)
Inductive threadName := sendThread | recvThread | hndlThread.
#[export] Instance threadName_eq_dec : EqDecision threadName.
Proof. solve_decision. Defined.

(** The flags, each with its type. *)
Inductive field : Type -> Type :=
  | recvMode : field RecvMode
  | sendThreadState : field ThreadState
  | recvThreadState : field ThreadState
  | hndlThreadState : field ThreadState
  | paused : field bool.

Record flags := mkFlags {
  f_recvMode : RecvMode;
  f_send : ThreadState;
  f_recv : ThreadState;
  f_hndl : ThreadState;
  f_paused : bool
}.

Definition get_flag {B} (f : field B) (c : flags) : B :=
  match f with
  | recvMode => f_recvMode c
  | sendThreadState => f_send c
  | recvThreadState => f_recv c
  | hndlThreadState => f_hndl c
  | paused => f_paused c
  end.

Definition set_flag {B} (f : field B) : B -> flags -> flags :=
  match f in field B return B -> flags -> flags with
  | recvMode => fun v c => mkFlags v (f_send c) (f_recv c) (f_hndl c) (f_paused c)
  | sendThreadState => fun v c => mkFlags (f_recvMode c) v (f_recv c) (f_hndl c) (f_paused c)
  | recvThreadState => fun v c => mkFlags (f_recvMode c) (f_send c) v (f_hndl c) (f_paused c)
  | hndlThreadState => fun v c => mkFlags (f_recvMode c) (f_send c) (f_recv c) v (f_paused c)
  | paused => fun v c => mkFlags (f_recvMode c) (f_send c) (f_recv c) (f_hndl c) v
  end.

(** *** Subscriptions *)

(** A subscription object; [regexobj] is the pattern its regex was built from. *)
Record bsub := mkBSub {
  bs_channel : cstr;
  bs_regexobj : option cstr;
  bs_callback : nat;
  bs_usr : nat
}.

Definition bs_regex (s : bsub) : bool := match bs_regexobj s with Some _ => true | None => false end.

(** The two maps hold pointers to the objects of [heap]. *)
Record subtab := mkTab {
  heap : gmap nat bsub;
  subs : gmap cstr (list nat);
  subsRegex : gmap cstr (list nat);
  nextSub : nat
}.

Section Subscriptions.

(** The standard library's [regex_match], the test whether a pattern compiles
    (the constructor throws otherwise), and the iteration order of an
    [unordered_map]. *)
Context (regex_match : cstr -> cstr -> bool) (regex_valid : cstr -> bool)
        (iterate : gmap cstr (list nat) -> list (cstr * list nat)).

(** Enter a new subscription, under its whole channel name. *)
Definition add_sub (channel : cstr) (cb usr : nat) (t : subtab) : option (subtab * nat) :=
  let id := nextSub t in
  let name := copy_channel channel in
  if isRegexChannel channel then
    check regex_valid channel ;;
    Some (mkTab (<[id := mkBSub name (Some channel) cb usr]> (heap t)) (subs t)
                (<[channel := default [] (subsRegex t !! channel) ++ [id]]> (subsRegex t)) (id + 1), id)
  else
    Some (mkTab (<[id := mkBSub name None cb usr]> (heap t))
                (<[channel := default [] (subs t !! channel) ++ [id]]> (subs t)) (subsRegex t) (id + 1), id).

(** The loop of [deleteFromSubList]: the last pointer takes the place of the one
    removed. *)
Fixpoint find_sub (slist : list nat) (sub i : nat) : option nat :=
  match slist with
  | [] => None
  | x :: slist => if x =? sub then Some i else find_sub slist sub (i + 1)
  end.

Definition deleteFromSubList (slist : list nat) (sub : nat) : option (list nat) :=
  i <- find_sub slist sub 0 ;;
  let last := length slist - 1 in
  Some (take last (<[i := default 0 (slist !! last)]> slist)).

(** [unsubscribe] up to [deleteSubEntry]: [Some None] is its failure, and
    otherwise the channel and the number of entries left; the object must be
    alive. *)
Definition remove_sub (sub : nat) (t : subtab) : option (subtab * option (cstr * nat)) :=
  s <- heap t !! sub ;;
  let subsSelected := if bs_regex s then subsRegex t else subs t in
  match subsSelected !! bs_channel s with
  | None => Some (t, None)
  | Some slist =>
      match deleteFromSubList slist sub with
      | None => Some (t, None)
      | Some slist' =>
          let m := <[bs_channel s := slist']> subsSelected in
          Some (if bs_regex s then mkTab (heap t) (subs t) m (nextSub t)
                else mkTab (heap t) m (subsRegex t) (nextSub t),
                Some (bs_channel s, length slist'))
      end
  end.

Definition delete_sub (sub : nat) (t : subtab) : option (subtab * unit) :=
  _ <- heap t !! sub ;;
  Some (mkTab (delete sub (heap t)) (subs t) (subsRegex t) (nextSub t), tt).

Definition regex_hit (t : subtab) (chan : cstr) (id : nat) : bool :=
  match heap t !! id with
  | Some s => match bs_regexobj s with Some pat => regex_match pat chan | None => false end
  | None => false
  end.

(** Whether the receive thread keeps a message of channel [chan]. *)
Definition wanted (t : subtab) (chan : cstr) : bool :=
  match subs t !! chan with
  | Some _ => true
  | None => existsb (fun e => existsb (regex_hit t chan) e.2) (iterate (subsRegex t))
  end.

Definition call_sub (t : subtab) (m : zcm_msg_t) (id : nat) : list delivery :=
  match heap t !! id with
  | Some s => [mkDelivery (bs_callback s) (bs_usr s) (channel m)
                 (mkRbuf (utime m) (buf m) (wrapu 32 (len m)))]
  | None => []
  end.

(** The handler calls of [dispatchMsg]. *)
Definition dispatchMsg_calls (t : subtab) (m : zcm_msg_t) : list delivery :=
  (match subs t !! channel m with Some slist => slist ≫= call_sub t m | None => [] end) ++
  (iterate (subsRegex t) ≫= fun e =>
     e.2 ≫= fun id => if regex_hit t (channel m) id then call_sub t m id else []).
End Subscriptions.

(** *** The shared object *)

(** The last four fields are histories: the messages put in each queue, those
    handed to the transport, those dispatched with the handler calls made. *)
Record zb {T : Type} := mkZB {
  zt : T;
  mtu : Z;
  sendQ : TSQ.t zcm_msg_t;
  recvQ : TSQ.t zcm_msg_t;
  flg : flags;
  tab : subtab;
  clock : list Z;
  accepted : list zcm_msg_t;
  sent : list zcm_msg_t;
  received : list zcm_msg_t;
  dispatched : list (zcm_msg_t * list delivery)
}.
Arguments zb : clear implicits.
Arguments mkZB {T}.

(** ** Programs *)

Inductive act : Type -> Type :=
  | Lock (m : mutex) : act unit
  | TryLock (m : mutex) : act bool
  | Unlock (m : mutex) : act unit
  | LockWhen (m : mutex) (q : queueName) (p : flags -> bool -> bool) : act unit
      (* wake up from a condition variable: the mutex is free and [p] holds of
         the flags and of whether the queue is enabled *)
  | Get {B} (f : field B) : act B
  | Set_ {B} (f : field B) (v : B) : act unit
  | QOp (q : queueName) (o : TSQ.op zcm_msg_t) : act (TSQ.res zcm_msg_t)
  | ReadSubs {B} (f : subtab -> B) : act B
  | EditSubs {B} (f : subtab -> option (subtab * B)) : act B
  | Now : act Z
  | Mtu : act Z
  | TSend (m : zcm_msg_t) : act Z
  | TRecv (timeout : Z) : act (Z * option zcm_msg_t)
  | TEnable (ch : cstr) (on : bool) : act Z
  | TDrops : act (Z * Z)
  | Dispatch (m : zcm_msg_t) : act unit
  | Spawn (n : threadName) : act unit
  | Join (n : threadName) : act unit.

(** [While body k] runs [body] until it answers [false], then [k]. *)
Inductive prog (A : Type) : Type :=
  | Ret (a : A)
  | Do {B} (a : act B) (k : B -> prog A)
  | While (body : prog bool) (k : prog A).
Arguments Ret {A} a.
Arguments Do {A B} a k.
Arguments While {A} body k.

Fixpoint bind {A B : Type} (p : prog A) (f : A -> prog B) : prog B :=
  match p with
  | Ret a => f a
  | Do a k => Do a (fun b => bind (k b) f)
  | While body k => While body (bind k f)
  end.

Declare Scope prog_scope.
Delimit Scope prog_scope with prog.
Notation "'let!' x := p 'in' k" := (bind p (fun x => k))
  (at level 200, x pattern, right associativity) : prog_scope.
Notation "p ;; k" := (bind p (fun _ => k))
  (at level 100, right associativity) : prog_scope.
Bind Scope prog_scope with prog.

Definition call {B} (a : act B) : prog B := Do a Ret.
Definition skip : prog unit := Ret tt.

Section Methods.
Context (regex_match : cstr -> cstr -> bool) (regex_valid : cstr -> bool)
        (iterate : gmap cstr (list nat) -> list (cstr * list nat)).

Local Open Scope prog_scope.

Definition lock m := call (Lock m).
Definition unlock m := call (Unlock m).
Definition get {B} (f : field B) := call (Get f).
Definition set {B} (f : field B) (v : B) := call (Set_ f v).

Definition enable (q : queueName) : prog unit := let! _ := call (QOp q TSQ.Enable) in skip.
Definition disable (q : queueName) : prog unit := let! _ := call (QOp q TSQ.Disable) in skip.
Definition queue_top (q : queueName) : prog (option zcm_msg_t) :=
  let! r := call (QOp q TSQ.Top) in
  Ret (match r with TSQ.RElt o => o | _ => None end).
Definition queue_pop (q : queueName) : prog unit := let! _ := call (QOp q TSQ.Pop) in skip.
Definition queue_num (q : queueName) : prog nat :=
  let! r := call (QOp q TSQ.NumMessages) in
  Ret (match r with TSQ.RNat n => n | _ => 0 end).
Definition queue_capacity (q : queueName) : prog nat :=
  let! r := call (QOp q TSQ.GetCapacity) in
  Ret (match r with TSQ.RNat n => n | _ => 0 end).
Definition queue_flag (q : queueName) (o : TSQ.op zcm_msg_t) : prog bool :=
  let! r := call (QOp q o) in
  Ret (match r with TSQ.RBool b => b | _ => false end).

(** [cond.wait(lk, p)] with [lk] holding [m]. *)
Definition wait (m : mutex) (q : queueName) (p : flags -> bool -> bool) : prog unit :=
  unlock m ;; call (LockWhen m q p).

Definition is_ {A} `{EqDecision A} (x y : A) : bool := bool_decide (x = y).

(** *** One message *)

Definition sendOneMessage (returnIfPaused : bool) : prog bool :=
  let! m := queue_top sendQueue in
  match m with
  | None => Ret false
  | Some msg =>
      let! quit :=
        if returnIfPaused then
          lock sendStateMutex ;;
          let! p := get paused in
          let! st := get sendThreadState in
          unlock sendStateMutex ;;
          Ret (p || is_ st THREAD_STATE_HALTING)
        else Ret false in
      if quit then Ret false else
      let! _ := call (TSend msg) in
      queue_pop sendQueue ;;
      Ret true
  end.

Definition dispatchMsg (msg : zcm_msg_t) : prog unit :=
  lock subDispMutex ;;
  call (Dispatch msg) ;;
  unlock subDispMutex.

Definition dispatchOneMessage (returnIfPaused : bool) : prog bool :=
  let! m := queue_top recvQueue in
  match m with
  | None => Ret false
  | Some msg =>
      let! quit :=
        if returnIfPaused then
          lock hndlStateMutex ;;
          let! p := get paused in
          let! st := get hndlThreadState in
          unlock hndlStateMutex ;;
          Ret (p || is_ st THREAD_STATE_HALTING)
        else Ret false in
      if quit then Ret false else
      dispatchMsg msg ;;
      queue_pop recvQueue ;;
      Ret true
  end.

(** *** The threads *)

Definition sendThreadFunc : prog unit :=
  While (
    lock sendStateMutex ;;
    wait sendStateMutex sendQueue
      (fun c enabled => negb (f_paused c) && enabled || is_ (f_send c) THREAD_STATE_HALTING) ;;
    let! st := get sendThreadState in
    unlock sendStateMutex ;;
    if is_ st THREAD_STATE_HALTING then Ret false else
    lock sendOneMutex ;;
    let! _ := sendOneMessage true in
    unlock sendOneMutex ;;
    Ret true)
  (lock sendStateMutex ;;
   set sendThreadState THREAD_STATE_HALTED ;;
   unlock sendStateMutex).

Definition RECV_TIMEOUT : Z := 100.

Definition recvThreadFunc : prog unit :=
  While (
    lock recvStateMutex ;;
    let! st := get recvThreadState in
    unlock recvStateMutex ;;
    if is_ st THREAD_STATE_HALTING then Ret false else
    let! r := call (TRecv RECV_TIMEOUT) in
    match r with
    | (rc, Some msg) =>
        if (rc =? ZCM_EOK)%Z then
          lock subRecvMutex ;;
          let! keep := call (ReadSubs (fun t => wanted regex_match iterate t (channel msg))) in
          unlock subRecvMutex ;;
          if (keep : bool) then
            let! _ := call (QOp recvQueue (TSQ.Push msg)) in Ret true
          else Ret true
        else Ret true
    | (_, None) => Ret true
    end)
  (lock recvStateMutex ;;
   set recvThreadState THREAD_STATE_HALTED ;;
   unlock recvStateMutex).

Definition hndlThreadFunc : prog unit :=
  lock recvStateMutex ;;
  set recvThreadState THREAD_STATE_RUNNING ;;
  call (Spawn recvThread) ;;
  unlock recvStateMutex ;;
  While (
    lock hndlStateMutex ;;
    wait hndlStateMutex recvQueue
      (fun c enabled => negb (f_paused c) && enabled || is_ (f_hndl c) THREAD_STATE_HALTING) ;;
    let! st := get hndlThreadState in
    unlock hndlStateMutex ;;
    if is_ st THREAD_STATE_HALTING then Ret false else
    lock dispOneMutex ;;
    let! _ := dispatchOneMessage true in
    unlock dispOneMutex ;;
    Ret true)
  (lock recvStateMutex ;;
   set recvThreadState THREAD_STATE_HALTING ;;
   disable recvQueue ;;
   unlock recvStateMutex ;;
   call (Join recvThread) ;;
   lock hndlStateMutex ;;
   set hndlThreadState THREAD_STATE_HALTED ;;
   unlock hndlStateMutex).

Definition thread_main (n : threadName) : prog unit :=
  match n with
  | sendThread => sendThreadFunc
  | recvThread => recvThreadFunc
  | hndlThread => hndlThreadFunc
  end.

(** *** Running and stopping *)

Definition run : prog unit :=
  lock recvModeMutex ;;
  let! mode := get recvMode in
  if negb (is_ mode RECV_MODE_NONE) then unlock recvModeMutex else
  set recvMode RECV_MODE_RUN ;;
  lock hndlStateMutex ;;
  unlock recvModeMutex ;;
  set hndlThreadState THREAD_STATE_RUNNING ;;
  enable recvQueue ;;
  unlock hndlStateMutex ;;
  hndlThreadFunc ;;
  lock recvModeMutex ;;
  set recvMode RECV_MODE_NONE ;;
  unlock recvModeMutex.

Definition start : prog unit :=
  lock recvModeMutex ;;
  let! mode := get recvMode in
  if negb (is_ mode RECV_MODE_NONE) then unlock recvModeMutex else
  set recvMode RECV_MODE_SPAWN ;;
  lock hndlStateMutex ;;
  unlock recvModeMutex ;;
  set hndlThreadState THREAD_STATE_RUNNING ;;
  enable recvQueue ;;
  call (Spawn hndlThread) ;;
  unlock hndlStateMutex.

(** Halt a thread that is running, and wait for it when [join]. *)
Definition halt (m : mutex) (f : field ThreadState) (q : queueName) (n : threadName) (join : bool)
  : prog unit :=
  lock m ;;
  let! st := get f in
  if is_ st THREAD_STATE_RUNNING then
    set f THREAD_STATE_HALTING ;;
    disable q ;;
    unlock m ;;
    if join then call (Join n) ;; lock m ;; set f THREAD_STATE_STOPPED ;; unlock m
    else skip
  else unlock m.

(** After a stop that did not wait: [false] while the thread is still halting. *)
Definition reap (m : mutex) (f : field ThreadState) (n : threadName) : prog bool :=
  lock m ;;
  let! st := get f in
  if is_ st THREAD_STATE_HALTING then unlock m ;; Ret false else
  if is_ st THREAD_STATE_HALTED then
    call (Join n) ;; set f THREAD_STATE_STOPPED ;; unlock m ;; Ret true
  else unlock m ;; Ret true.

Definition stop (block : bool) : prog Z :=
  lock recvModeMutex ;;
  let! mode := get recvMode in
  (match mode with
   | RECV_MODE_RUN | RECV_MODE_SPAWN =>
       halt hndlStateMutex hndlThreadState recvQueue hndlThread (block && is_ mode RECV_MODE_SPAWN)
   | RECV_MODE_HANDLE => halt recvStateMutex recvThreadState recvQueue recvThread block
   | RECV_MODE_NONE => skip
   end) ;;
  halt sendStateMutex sendThreadState sendQueue sendThread block ;;
  let! done :=
    if block then Ret true else
    let! ok :=
      match mode with
      | RECV_MODE_SPAWN => reap hndlStateMutex hndlThreadState hndlThread
      | RECV_MODE_HANDLE => reap recvStateMutex recvThreadState recvThread
      | _ => Ret true
      end in
    if (ok : bool) then reap sendStateMutex sendThreadState sendThread else Ret false in
  if (done : bool) then
    set recvMode RECV_MODE_NONE ;; unlock recvModeMutex ;; Ret ZCM_EOK
  else unlock recvModeMutex ;; Ret ZCM_EAGAIN.

Definition startRecvThread : prog bool :=
  lock recvModeMutex ;;
  let! mode := get recvMode in
  if negb (is_ mode RECV_MODE_NONE) && negb (is_ mode RECV_MODE_HANDLE) then
    unlock recvModeMutex ;; Ret false
  else if is_ mode RECV_MODE_NONE then
    set recvMode RECV_MODE_HANDLE ;;
    lock recvStateMutex ;;
    unlock recvModeMutex ;;
    set recvThreadState THREAD_STATE_RUNNING ;;
    enable recvQueue ;;
    call (Spawn recvThread) ;;
    unlock recvStateMutex ;;
    Ret true
  else unlock recvModeMutex ;; Ret true.

Definition handle : prog Z :=
  let! ok := startRecvThread in
  if negb ok then Ret ZCM_EINVALID else
  lock dispOneMutex ;;
  let! ok := dispatchOneMessage true in
  unlock dispOneMutex ;;
  Ret (if (ok : bool) then ZCM_EOK else ZCM_EAGAIN).

Definition handle_nonblock : prog Z :=
  let! ok := startRecvThread in
  if negb ok then Ret ZCM_EINVALID else
  lock dispOneMutex ;;
  let! has := queue_flag recvQueue TSQ.HasMessage in
  if negb has then unlock dispOneMutex ;; Ret ZCM_EAGAIN else
  let! ok := dispatchOneMessage true in
  unlock dispOneMutex ;;
  Ret (if (ok : bool) then ZCM_EOK else ZCM_EAGAIN).

Definition pause : prog unit :=
  lock sendStateMutex ;;
  lock hndlStateMutex ;;
  set paused true ;;
  unlock hndlStateMutex ;;
  unlock sendStateMutex.

Definition resume : prog unit :=
  lock sendStateMutex ;;
  lock hndlStateMutex ;;
  set paused false ;;
  unlock hndlStateMutex ;;
  unlock sendStateMutex.

(** *** Messages and subscriptions *)

Definition publish (channel : cstr) (data : list byte) (len : Z) : prog Z :=
  let! mtu := call Mtu in
  if (mtu <? len)%Z then Ret ZCM_EINVALID else
  if ZCM_CHANNEL_MAXLEN <? length channel then Ret ZCM_EINVALID else
  lock sendStateMutex ;;
  let! st := get sendThreadState in
  (if is_ st THREAD_STATE_STOPPED then
     set sendThreadState THREAD_STATE_RUNNING ;; call (Spawn sendThread)
   else skip) ;;
  unlock sendStateMutex ;;
  let! utime := call Now in
  let! success := queue_flag sendQueue (TSQ.PushIfRoom (mkMsg utime channel len data)) in
  Ret (if (success : bool) then ZCM_EOK else ZCM_EAGAIN).

(** Take both subscription locks, or neither. *)
Definition lock_subs (block : bool) : prog bool :=
  if block then lock subDispMutex ;; lock subRecvMutex ;; Ret true else
  let! a := call (TryLock subDispMutex) in
  if negb a then Ret false else
  let! b := call (TryLock subRecvMutex) in
  if negb b then unlock subDispMutex ;; Ret false else Ret true.

Definition unlock_subs : prog unit := unlock subRecvMutex ;; unlock subDispMutex.

Definition subscribe (channel : cstr) (cb usr : nat) (block : bool) : prog (option nat) :=
  let! ok := lock_subs block in
  if negb ok then Ret None else
  let! rc := call (TEnable channel true) in
  if negb (rc =? ZCM_EOK)%Z then unlock_subs ;; Ret None else
  let! sub := call (EditSubs (add_sub regex_valid channel cb usr)) in
  unlock_subs ;;
  Ret (Some sub).

Definition unsubscribe (sub : nat) (block : bool) : prog Z :=
  let! ok := lock_subs block in
  if negb ok then Ret ZCM_EAGAIN else
  let! r := call (EditSubs (remove_sub sub)) in
  match r with
  | None => unlock_subs ;; Ret ZCM_EINVALID
  | Some (channel, nentriesleft) =>
      let! rc := if nentriesleft =? 0 then call (TEnable channel false) else Ret ZCM_EOK in
      call (EditSubs (delete_sub sub)) ;;
      unlock_subs ;;
      Ret (if (rc =? ZCM_EOK)%Z then ZCM_EOK else ZCM_EINVALID)
  end.

(** [for (size_t i = 0; i < n; ++i) p;] *)
Fixpoint times (n : nat) (p : prog bool) : prog unit :=
  match n with
  | 0 => skip
  | S n => let! _ := p in times n p
  end.

(** One half of [flush]: empty [q] under the mutex [m]; [false] when a
    non-blocking call does not get the mutex. *)
Definition drain (q : queueName) (m : mutex) (one : prog bool) (block : bool) : prog bool :=
  disable q ;;
  let! ok := if block then lock m ;; Ret true else call (TryLock m) in
  if negb ok then enable q ;; Ret false else
  enable q ;;
  let! n := queue_num q in
  times n one ;;
  unlock m ;;
  Ret true.

Definition flush (block : bool) : prog Z :=
  let! ok := drain sendQueue sendOneMutex (sendOneMessage false) block in
  if negb ok then Ret ZCM_EAGAIN else
  let! ok := drain recvQueue dispOneMutex (dispatchOneMessage false) block in
  Ret (if (ok : bool) then ZCM_EOK else ZCM_EAGAIN).

Definition resize (q : queueName) (m : mutex) (numMsgs : nat) (block : bool) : prog bool :=
  let! cap := queue_capacity q in
  if cap =? numMsgs then Ret true else
  disable q ;;
  let! ok := if block then lock m ;; Ret true else call (TryLock m) in
  if negb ok then enable q ;; Ret false else
  let! _ := call (QOp q (TSQ.SetCapacity numMsgs)) in
  enable q ;;
  unlock m ;;
  Ret true.

Definition setQueueSize (numMsgs : nat) (block : bool) : prog Z :=
  let! ok := resize sendQueue sendOneMutex numMsgs block in
  if negb ok then Ret ZCM_EAGAIN else
  let! ok := resize recvQueue dispOneMutex numMsgs block in
  Ret (if (ok : bool) then ZCM_EOK else ZCM_EAGAIN).

Definition queryDrops : prog (Z * Z) := call TDrops.
End Methods.

(** ** The machine *)

(** Why a run may end badly: a queue used outside its contract, a mutex unlocked
    by a thread that does not hold it, a dead subscription object or a pattern
    that does not compile, a transport outside its own contract, a std::thread
    assigned to or joined in the wrong state (std::terminate). *)
Inductive crash := QueueCrash | MutexCrash | SubCrash | TransportCrash | ThreadCrash.

Section Machine.
Context {T : Type} `{Transport T}.
Context (regex_match : cstr -> cstr -> bool) (regex_valid : cstr -> bool)
        (iterate : gmap cstr (list nat) -> list (cstr * list nat)).

(** [owner] says who holds each mutex, [joinable] which thread each std::thread
    member stands for. *)
Record machine := mkMachine {
  obj : zb T;
  owner : mutex -> option nat;
  pool : gmap nat (prog unit);
  joinable : threadName -> option nat;
  nextThread : nat
}.

Inductive outcome (B : Type) := Blocked | Crashed (w : crash) | Next (m : machine) (b : B).
Arguments Blocked {B}.
Arguments Crashed {B} w.
Arguments Next {B} m b.

Definition with_obj (M : machine) (z : zb T) : machine :=
  mkMachine z (owner M) (pool M) (joinable M) (nextThread M).
Definition with_owner (M : machine) (m : mutex) (o : option nat) : machine :=
  mkMachine (obj M) (fun m' => if decide (m' = m) then o else owner M m') (pool M) (joinable M)
            (nextThread M).
Definition with_pool (M : machine) (t : nat) (p : prog unit) : machine :=
  mkMachine (obj M) (owner M) (<[t := p]> (pool M)) (joinable M) (nextThread M).

Definition queue_of (q : queueName) (z : zb T) : TSQ.t zcm_msg_t :=
  match q with sendQueue => sendQ z | recvQueue => recvQ z end.

Definition set_queue (q : queueName) (s : TSQ.t zcm_msg_t) (z : zb T) : zb T :=
  match q with
  | sendQueue => mkZB (zt z) (mtu z) s (recvQ z) (flg z) (tab z) (clock z)
                      (accepted z) (sent z) (received z) (dispatched z)
  | recvQueue => mkZB (zt z) (mtu z) (sendQ z) s (flg z) (tab z) (clock z)
                      (accepted z) (sent z) (received z) (dispatched z)
  end.

(** A message pushed joins the history of its queue. *)
Definition log_push (q : queueName) (o : TSQ.op zcm_msg_t) (r : TSQ.res zcm_msg_t) (z : zb T) : zb T :=
  match o, r with
  | (TSQ.Push m | TSQ.PushIfRoom m), TSQ.RBool true =>
      match q with
      | sendQueue => mkZB (zt z) (mtu z) (sendQ z) (recvQ z) (flg z) (tab z) (clock z)
                          (accepted z ++ [m]) (sent z) (received z) (dispatched z)
      | recvQueue => mkZB (zt z) (mtu z) (sendQ z) (recvQ z) (flg z) (tab z) (clock z)
                          (accepted z) (sent z) (received z ++ [m]) (dispatched z)
      end
  | _, _ => z
  end.

Definition set_zt (t : T) (z : zb T) : zb T :=
  mkZB t (mtu z) (sendQ z) (recvQ z) (flg z) (tab z) (clock z) (accepted z) (sent z) (received z) (dispatched z).
Definition set_flags (c : flags) (z : zb T) : zb T :=
  mkZB (zt z) (mtu z) (sendQ z) (recvQ z) c (tab z) (clock z) (accepted z) (sent z) (received z) (dispatched z).
Definition set_tab (t : subtab) (z : zb T) : zb T :=
  mkZB (zt z) (mtu z) (sendQ z) (recvQ z) (flg z) t (clock z) (accepted z) (sent z) (received z) (dispatched z).
Definition set_clock (c : list Z) (z : zb T) : zb T :=
  mkZB (zt z) (mtu z) (sendQ z) (recvQ z) (flg z) (tab z) c (accepted z) (sent z) (received z) (dispatched z).
Definition log_sent (m : zcm_msg_t) (z : zb T) : zb T :=
  mkZB (zt z) (mtu z) (sendQ z) (recvQ z) (flg z) (tab z) (clock z) (accepted z) (sent z ++ [m]) (received z) (dispatched z).
Definition log_dispatched (m : zcm_msg_t) (ds : list delivery) (z : zb T) : zb T :=
  mkZB (zt z) (mtu z) (sendQ z) (recvQ z) (flg z) (tab z) (clock z) (accepted z) (sent z) (received z)
       (dispatched z ++ [(m, ds)]).

Definition is_finished (p : prog unit) : bool := match p with Ret _ => true | _ => false end.

(** One action of thread [t]. *)
Definition exec {B} (t : nat) (a : act B) (M : machine) : outcome B :=
  let z := obj M in
  match a in act B return outcome B with
  | Lock m =>
      match owner M m with None => Next (with_owner M m (Some t)) tt | Some _ => Blocked end
  | TryLock m =>
      match owner M m with None => Next (with_owner M m (Some t)) true | Some _ => Next M false end
  | Unlock m =>
      if decide (owner M m = Some t) then Next (with_owner M m None) tt else Crashed MutexCrash
  | LockWhen m q p =>
      match owner M m with
      | None => if p (flg z) (TSQ.isEnabled (queue_of q z)) then Next (with_owner M m (Some t)) tt
                else Blocked
      | Some _ => Blocked
      end
  | Get f => Next M (get_flag f (flg z))
  | Set_ f v => Next (with_obj M (set_flags (set_flag f v (flg z)) z)) tt
  | QOp q o =>
      match TSQ.exec o (queue_of q z) with
      | None => Crashed QueueCrash
      | Some (_, TSQ.RBlocked) => Blocked
      | Some (s, r) => Next (with_obj M (log_push q o r (set_queue q s z))) r
      end
  | ReadSubs f => Next M (f (tab z))
  | EditSubs f =>
      match f (tab z) with
      | None => Crashed SubCrash
      | Some (t', b) => Next (with_obj M (set_tab t' z)) b
      end
  | Now => Next (with_obj M (set_clock (tail (clock z)) z)) (default 0%Z (head (clock z)))
  | Mtu => Next M (mtu z)
  | TSend m =>
      match zcm_trans_sendmsg (zt z) m with
      | None => Crashed TransportCrash
      | Some (tr, rc) => Next (with_obj M (log_sent m (set_zt tr z))) rc
      end
  | TRecv timeout =>
      match zcm_trans_recvmsg (zt z) timeout with
      | None => Crashed TransportCrash
      | Some (tr, rc, om) => Next (with_obj M (set_zt tr z)) (rc, om)
      end
  | TEnable ch on =>
      let '(tr, rc) := zcm_trans_recvmsg_enable (zt z) ch on in
      Next (with_obj M (set_zt tr z)) rc
  | TDrops => Next M (zcm_trans_query_drops (zt z))
  | Dispatch m =>
      Next (with_obj M (log_dispatched m (dispatchMsg_calls regex_match iterate (tab z) m) z)) tt
  | Spawn n =>
      match joinable M n with
      | Some _ => Crashed ThreadCrash
      | None =>
          let t' := nextThread M in
          Next (mkMachine z (owner M) (<[t' := thread_main regex_match iterate n]> (pool M))
                  (fun n' => if decide (n' = n) then Some t' else joinable M n') (t' + 1)) tt
      end
  | Join n =>
      match joinable M n with
      | None => Crashed ThreadCrash
      | Some t' =>
          match pool M !! t' with
          | Some p =>
              if is_finished p then
                Next (mkMachine z (owner M) (pool M)
                        (fun n' => if decide (n' = n) then None else joinable M n') (nextThread M)) tt
              else Blocked
          | None => Blocked
          end
      end
  end.

(** One step of thread [t]: [None] when it is blocked or finished. *)
Definition step (t : nat) (M : machine) : option (machine + crash) :=
  match pool M !! t with
  | None | Some (Ret _) => None
  | Some (Do a k) =>
      match exec t a M with
      | Blocked => None
      | Crashed w => Some (inr w)
      | Next M' b => Some (inl (with_pool M' t (k b)))
      end
  | Some (While body k) =>
      Some (inl (with_pool M t (bind body (fun b => if (b : bool) then While body k else k))))
  end.

(** A run under a schedule; a thread that cannot move loses its turn. *)
Fixpoint run_schedule (ts : list nat) (M : machine) : machine + crash :=
  match ts with
  | [] => inl M
  | t :: ts =>
      match step t M with
      | None => run_schedule ts M
      | Some (inl M') => run_schedule ts M'
      | Some (inr w) => inr w
      end
  end.

(** ** The interface *)

(** The calls of the C interface. *)
Inductive api :=
  | Apublish (channel : cstr) (data : list byte) (len : Z)
  | Asubscribe (channel : cstr) (cb usr : nat) (block : bool)
  | Aunsubscribe (sub : nat) (block : bool)
  | Aflush (block : bool)
  | Arun | Astart | Astop (block : bool)
  | Apause | Aresume
  | Ahandle | Ahandle_nonblock
  | Aset_queue_size (n : nat) (block : bool)
  | Aquery_drops.

Definition ignore {A} (p : prog A) : prog unit := bind p (fun _ => skip).

Definition api_prog (c : api) : prog unit :=
  match c with
  | Apublish channel data len => ignore (publish channel data len)
  | Asubscribe channel cb usr block => ignore (subscribe regex_valid channel cb usr block)
  | Aunsubscribe sub block => ignore (unsubscribe sub block)
  | Aflush block => ignore (flush block)
  | Arun => run
  | Astart => start
  | Astop block => ignore (stop block)
  | Apause => pause
  | Aresume => resume
  | Ahandle => ignore handle
  | Ahandle_nonblock => ignore handle_nonblock
  | Aset_queue_size n block => ignore (setQueueSize n block)
  | Aquery_drops => ignore queryDrops
  end.

(** A user's thread makes calls one after the other. *)
Fixpoint user (cs : list api) : prog unit :=
  match cs with
  | [] => skip
  | c :: cs => bind (api_prog c) (fun _ => user cs)
  end.

Definition QUEUE_SIZE : nat := 16.

(** A new object, with the user's threads about to run. *)
Definition zcm_blocking_create (t : T) (times : list Z) : zb T :=
  mkZB t (zcm_trans_get_mtu t) (TSQ.create QUEUE_SIZE) (TSQ.create QUEUE_SIZE)
    (mkFlags RECV_MODE_NONE THREAD_STATE_STOPPED THREAD_STATE_STOPPED THREAD_STATE_STOPPED false)
    (mkTab ∅ ∅ ∅ 0) times [] [] [] [].

Definition boot (t : T) (times : list Z) (users : list (list api)) : machine :=
  mkMachine (zcm_blocking_create t times) (fun _ => None)
    (list_to_map (zip (seq 0 (length users)) (user <$> users))) (fun _ => None) (length users).
End Machine.
