(* ===== verification/BlockingInv.v ===== *)
(** * The blocking core under every interleaving

    The invariant of the machine and what follows from it: the queues are
    never used outside their contract, what is sent and what is dispatched
    are prefixes of what was accepted and what was received, and no two
    threads race for a flag or for the subscription tables. *)
From S2P Require Import Prelude Bytes Queue Transport Inproc Nonblocking Blocking BlockingProps.

Section Invariant.
Context {T : Type} `{HT : Transport T}.
Context (N : nat) (regex_match : cstr -> cstr -> bool) (regex_valid : cstr -> bool)
        (iterate : gmap cstr (list nat) -> list (cstr * list nat)).

(** ** Queues and histories *)

Definition pushed (q : queueName) (z : zb T) : list zcm_msg_t :=
  match q with sendQueue => accepted z | recvQueue => received z end.
Definition processed (q : queueName) (z : zb T) : list zcm_msg_t :=
  match q with sendQueue => sent z | recvQueue => fst <$> dispatched z end.

(** The messages pushed are those processed and those queued; while the front
    message is processed but not popped, it counts as processed. *)
Definition history (pushed processed items : list zcm_msg_t) (ph : phase) : Prop :=
  match ph with
  | PIdle => pushed = processed ++ items
  | PTop m => head items = Some m /\ pushed = processed ++ items
  | PDone m => exists l, items = m :: l /\ pushed = processed ++ l
  end.

Definition qinv (z : zb T) (q : queueName) (ph : phase) : Prop :=
  exists sp, TSQ.refines (queue_of q z) sp /\ S (TSQ.bound sp) <= N /\
    history (pushed q z) (processed q z) (TSQ.items sp) ph.

Definition next_phase (o : TSQ.op zcm_msg_t) (r : TSQ.res zcm_msg_t) (ph : phase) : phase :=
  match o with
  | TSQ.Top => match r with TSQ.RElt (Some m) => PTop m | _ => PIdle end
  | TSQ.Pop | TSQ.SetCapacity _ => PIdle
  | _ => ph
  end.

Definition op_ok (o : TSQ.op zcm_msg_t) (ph : phase) : Prop :=
  match o with
  | TSQ.Pop => exists m, ph = PDone m
  | TSQ.SetCapacity n => n = N /\ not_done ph
  | TSQ.Top => not_done ph
  | _ => True
  end.

Lemma history_idle pu pr it ph : not_done ph -> history pu pr it ph -> history pu pr it PIdle.
Proof. destruct ph; simpl; naive_solver. Qed.

Lemma history_push pu pr it ph m : history pu pr it ph -> history (pu ++ [m]) pr (it ++ [m]) ph.
Proof.
  destruct ph; simpl.
  - intros ->. by rewrite app_assoc.
  - intros [Hh ->]. split; [by destruct it|by rewrite app_assoc].
  - intros (l & -> & ->). exists (l ++ [m]). by rewrite app_assoc.
Qed.

Lemma set_queue_same q s z : queue_of q (set_queue q s z) = s /\
  pushed q (set_queue q s z) = pushed q z /\ processed q (set_queue q s z) = processed q z.
Proof. by destruct q. Qed.

Lemma log_push_queue q q' o r (z : zb T) : queue_of q' (log_push q o r z) = queue_of q' z /\
  processed q' (log_push q o r z) = processed q' z.
Proof. destruct o, r as [|[]| | |], q, q'; done. Qed.

Lemma log_push_pushed q o r (z : zb T) : pushed q (log_push q o r z) = pushed q z ++
  match o, r with (TSQ.Push m | TSQ.PushIfRoom m), TSQ.RBool true => [m] | _, _ => [] end.
Proof. destruct o, r as [|[]| | |], q; simpl; by rewrite ?app_nil_r. Qed.

(** A call on a queue, in the phase it requires. *)
Lemma qop_inv z q ph o : qinv z q ph -> op_ok o ph ->
  exists s r, TSQ.exec o (queue_of q z) = Some (s, r) /\
    qinv (log_push q o r (set_queue q s z)) q (next_phase o r ph).
Proof.
  intros (sp & R & Hb & Hh) Hop.
  assert (TSQ.legal o sp) as L.
  { pose proof R as (Rq & Hc & _). pose proof (Queue.rep_room _ _ Rq).
    destruct o; simpl in *; try done.
    - destruct Hop as [m ->]. destruct Hh as (l & -> & _). done.
    - destruct Hop as [-> _]. lia. }
  destruct (TSQ.exec_refines _ sp o R L) as (s & r & -> & Es & R').
  exists s, r. split; [done|]. exists (TSQ.sexec o sp).1.
  destruct (set_queue_same q s z) as (E1 & E2 & E3).
  destruct (log_push_queue q q o r (set_queue q s z)) as [E4 E5].
  rewrite E4, E1, E5, E3, log_push_pushed, E2. split; [done|].
  destruct o; cbn [TSQ.sexec next_phase op_ok] in *.
  1,2: destruct (TSQ.full sp); [destruct (TSQ.off sp)|]; injection Es as <-; cbn;
    (split; [done|rewrite ?app_nil_r; by try apply history_push]).
  all: injection Es as <-; cbn; rewrite app_nil_r; split; try done.
  - apply history_idle in Hh; [|done]. destruct (TSQ.off sp); [done|]. by destruct (TSQ.items sp).
  - destruct Hop as [m ->]. by destruct Hh as (l & -> & ->).
  - destruct Hop; lia.
  - destruct Hop as [_ Hd]. by apply history_idle in Hh.
Qed.

Lemma qinv_other z q q' o s r ph : q' <> q -> qinv z q' ph -> qinv (log_push q o r (set_queue q s z)) q' ph.
Proof.
  intros Hne (sp & R & Hb & Hh). exists sp.
  destruct (log_push_queue q q' o r (set_queue q s z)) as [-> ->].
  assert (pushed q' (log_push q o r (set_queue q s z)) = pushed q' z) as ->
    by (destruct o, r as [|[]| | |], q, q'; done).
  by destruct q, q'.
Qed.

(** ** The machine *)

Notation machine := (machine (T := T)).
Notation ok := (safe N).
Notation done_idle := (fun (_ : unit) (h : held) => idle h).

Definition phase_of (H : nat -> held) (M : machine) (q : queueName) : phase :=
  match owner M (mutex_of q) with Some t => know (H t) q | None => PIdle end.

(** [H t] is what thread [t] holds and knows. *)
Record sinv (H : nat -> held) (M : machine) : Prop := {
  si_locks : forall t m, locks (H t) m = true <-> owner M m = Some t;
  si_know : forall t q, know (H t) q <> PIdle -> locks (H t) (mutex_of q) = true;
  si_queue : forall q, qinv (obj M) q (phase_of H M q);
  si_fresh : forall t, nextThread M <= t -> pool M !! t = None /\ idle (H t)
}.

Definition upd (H : nat -> held) (t : nat) (h : held) : nat -> held :=
  fun t' => if decide (t' = t) then h else H t'.

Lemma upd_same H t h : upd H t h t = h.
Proof. unfold upd. by rewrite decide_True. Qed.

(** Steps that touch neither queues nor mutexes. *)
Lemma sinv_frame H M M' t : sinv H M -> owner M' = owner M -> 
  (forall q, queue_of q (obj M') = queue_of q (obj M) /\ pushed q (obj M') = pushed q (obj M) /\
     processed q (obj M') = processed q (obj M)) ->
  (forall t, nextThread M' <= t -> nextThread M <= t /\ pool M' !! t = pool M !! t) ->
  sinv (upd H t (H t)) M'.
Proof.
  intros [L K Q F] Eo Eq Ef.
  assert (forall t', upd H t (H t) t' = H t') as Eu by (intros t'; unfold upd; by case_decide; subst).
  split.
  - intros t' m. by rewrite Eu, Eo.
  - intros t' q. rewrite Eu. apply K.
  - intros q. unfold phase_of, qinv. rewrite Eo. destruct (Eq q) as (-> & -> & ->).
    specialize (Q q). unfold phase_of in Q. destruct (owner M (mutex_of q)); rewrite ?Eu; exact Q.
  - intros t' Ht. rewrite Eu. destruct (Ef t' Ht) as [Ht' ->]. by apply F.
Qed.

Lemma sinv_lock H M t m : sinv H M -> owner M m = None -> t < nextThread M ->
  sinv (upd H t (take_lock (H t) m)) (with_owner M m (Some t)).
Proof.
  intros [L K Q F] Eo Ht. split; cbn [with_owner owner obj pool nextThread].
  - intros t' m'. unfold upd. destruct (decide (t' = t)) as [->|Hne]; cbn [take_lock locks].
    + destruct (decide (m' = m)) as [->|]; [done|apply L].
    + rewrite L. destruct (decide (m' = m)) as [->|]; [|done]. rewrite Eo. split; congruence.
  - intros t' q. unfold upd. destruct (decide (t' = t)) as [->|]; [|apply K].
    cbn [take_lock locks know]. intros Hk. case_decide; [done|by apply K].
  - intros q. unfold phase_of. cbn [with_owner owner]. specialize (Q q). unfold phase_of in Q.
    destruct (decide (mutex_of q = m)) as [E|E].
    + rewrite E, Eo in Q. rewrite upd_same. cbn [take_lock know].
      destruct (know (H t) q) eqn:Ek; [done|..]; exfalso.
      all: assert (locks (H t) (mutex_of q) = true) as Hl by (apply K; congruence).
      all: apply L in Hl; congruence.
    + destruct (owner M (mutex_of q)) as [t'|]; [|done]. unfold upd.
      destruct (decide (t' = t)) as [->|]; done.
  - intros t' Ht'. unfold upd. rewrite decide_False by lia. by apply F.
Qed.

Lemma sinv_unlock H M t m : sinv H M -> owner M m = Some t ->
  (forall q, mutex_of q = m -> not_done (know (H t) q)) -> t < nextThread M ->
  sinv (upd H t (drop_lock (H t) m)) (with_owner M m None).
Proof.
  intros [L K Q F] Eo Hd Ht. split; cbn [with_owner owner obj pool nextThread].
  - intros t' m'. unfold upd. destruct (decide (t' = t)) as [->|Hne]; cbn [drop_lock locks].
    + destruct (decide (m' = m)) as [->|]; [done|apply L].
    + rewrite L. destruct (decide (m' = m)) as [->|]; [|done]. rewrite Eo. split; congruence.
  - intros t' q. unfold upd. destruct (decide (t' = t)) as [->|]; [|apply K].
    cbn [drop_lock locks know]. case_decide; [done|]. apply K.
  - intros q. unfold phase_of. cbn [with_owner owner]. specialize (Q q). unfold phase_of in Q.
    destruct (decide (mutex_of q = m)) as [E|E].
    + rewrite E, Eo in Q. destruct Q as (sp & R & Hb & Hh). exists sp. split_and!; [done..|].
      eapply history_idle; [|exact Hh]. by apply Hd.
    + destruct (owner M (mutex_of q)) as [t'|] eqn:Et; [|done]. unfold upd.
      destruct (decide (t' = t)) as [->|]; [|done]. cbn [drop_lock know]. by rewrite decide_False.
  - intros t' Ht'. unfold upd. rewrite decide_False by lia. by apply F.
Qed.

(** A step of the holder of [q]'s mutex that moves [q] to phase [ph]. *)
Lemma sinv_learn H M z t q ph : sinv H M -> locks (H t) (mutex_of q) = true -> t < nextThread M ->
  qinv z q ph -> (forall q' p, q' <> q -> qinv (obj M) q' p -> qinv z q' p) ->
  sinv (upd H t (learn (H t) q ph)) (with_obj M z).
Proof.
  intros [L K Q F] Hl Ht Hq Ho. split; cbn [with_obj owner obj pool nextThread].
  - intros t' m'. unfold upd. case_decide; subst; apply L.
  - intros t' q'. unfold upd. case_decide; subst; [|apply K]. cbn [learn locks know].
    case_decide; subst; [done|apply K].
  - intros q'. unfold phase_of. cbn [with_obj owner]. destruct (decide (q' = q)) as [->|Hne].
    + rewrite (proj1 (L t (mutex_of q)) Hl), upd_same. cbn [learn know]. by rewrite decide_True.
    + apply Ho; [done|]. specialize (Q q'). unfold phase_of in Q.
      destruct (owner M (mutex_of q')) as [t'|]; [|done]. unfold upd.
      destruct (decide (t' = t)) as [->|]; [|done]. cbn [learn know]. by rewrite decide_False.
  - intros t' Ht'. unfold upd. rewrite decide_False by lia. by apply F.
Qed.

(** Pushing, and asking, are open to every thread. *)
Lemma sinv_qop H M t q o s r : sinv H M ->
  (forall ph, next_phase o r ph = ph) ->
  qinv (log_push q o r (set_queue q s (obj M))) q (phase_of H M q) ->
  sinv (upd H t (H t)) (with_obj M (log_push q o r (set_queue q s (obj M)))).
Proof.
  intros [L K Q F] Hn Hq.
  assert (forall t', upd H t (H t) t' = H t') as Eu by (intros t'; unfold upd; by case_decide; subst).
  split; cbn [with_obj owner obj pool nextThread].
  - intros t' m. rewrite Eu. apply L.
  - intros t' q'. rewrite Eu. apply K.
  - intros q'. replace (phase_of (upd H t (H t)) _ q') with (phase_of H M q').
    + destruct (decide (q' = q)) as [->|Hne]; [done|]. by apply qinv_other.
    + unfold phase_of. cbn [with_obj owner]. destruct (owner M (mutex_of q')); by rewrite ?Eu.
  - intros t' Ht'. rewrite Eu. by apply F.
Qed.

(** What a step may do to the pool: start a thread that is safe when idle. *)
Definition grows (M M' : machine) : Prop :=
  nextThread M <= nextThread M' /\
  forall t p, pool M' !! t = Some p ->
    pool M !! t = Some p \/ nextThread M <= t /\ forall h, idle h -> ok p h done_idle.

Lemma grows_same M M' : nextThread M' = nextThread M -> pool M' = pool M -> grows M M'.
Proof. intros E1 E2. split; [lia|]. intros t p. rewrite E2. by left. Qed.

Definition step_ok (H : nat -> held) (M : machine) (t : nat) {B} (K : B -> held -> Prop)
    (o : outcome (T := T) B) : Prop :=
  match o with
  | Blocking.Blocked _ => True
  | Crashed _ w => w <> QueueCrash /\ w <> MutexCrash
  | Next _ M' b => exists h', K b h' /\ sinv (upd H t h') M' /\ grows M M'
  end.

(** The calls reserved to the holder of the queue's mutex. *)
Definition reserved (o : TSQ.op zcm_msg_t) : bool :=
  match o with TSQ.Top | TSQ.Pop | TSQ.SetCapacity _ => true | _ => false end.

Lemma spec_reserved q o h (K : TSQ.res zcm_msg_t -> held -> Prop) : reserved o = true ->
  spec N (QOp q o) h K ->
  locks h (mutex_of q) = true /\ op_ok o (know h q) /\
  forall r, K r (learn h q (next_phase o r (know h q))).
Proof. destruct o; try done; cbn; naive_solver. Qed.

Lemma spec_open q o h (K : TSQ.res zcm_msg_t -> held -> Prop) : reserved o = false ->
  spec N (QOp q o) h K ->
  (forall ph, op_ok o ph) /\ (forall r, K r h) /\ forall r ph, next_phase o r ph = ph.
Proof. destruct o; try done; cbn; naive_solver. Qed.

Lemma qop_step H M t q o (K : TSQ.res zcm_msg_t -> held -> Prop) :
  sinv H M -> t < nextThread M -> spec N (QOp q o) (H t) K ->
  step_ok H M t K (exec regex_match iterate t (QOp q o) M).
Proof.
  intros I Ht S. cbn [exec].
  assert (exists s r, TSQ.exec o (queue_of q (obj M)) = Some (s, r) /\ exists h', K r h' /\
    sinv (upd H t h') (with_obj M (log_push q o r (set_queue q s (obj M))))) as (s & r & -> & h' & Hk & I').
  { destruct (reserved o) eqn:Er.
    - destruct (spec_reserved _ _ _ _ Er S) as (Hl & Hop & HK).
      assert (phase_of H M q = know (H t) q) as P.
      { unfold phase_of. by rewrite (proj1 (si_locks _ _ I t _) Hl). }
      rewrite <- P in Hop.
      destruct (qop_inv (obj M) q _ o (si_queue _ _ I q) Hop) as (s & r & E & Hq). rewrite P in Hq.
      exists s, r. split; [done|]. eexists. split; [apply HK|].
      apply sinv_learn; [done..|]. intros q' p Hne. by apply qinv_other.
    - destruct (spec_open _ _ _ _ Er S) as (Hop & HK & Hn).
      destruct (qop_inv (obj M) q _ o (si_queue _ _ I q) (Hop _)) as (s & r & E & Hq). rewrite Hn in Hq.
      exists s, r. split; [done|]. exists (H t). split; [apply HK|]. apply sinv_qop; [done|apply Hn|done]. }
  destruct r; try done; (exists h'; split_and!; [done..|by apply grows_same]).
Qed.

Lemma exec_action_inv {B} H M t (a : act B) (K : B -> held -> Prop) :
  sinv H M -> t < nextThread M -> spec N a (H t) K ->
  step_ok H M t K (exec regex_match iterate t a M).
Proof.
  intros I Ht S.
  assert (forall (M' : machine) b, owner M' = owner M -> pool M' = pool M -> nextThread M' = nextThread M ->
    (forall q, queue_of q (obj M') = queue_of q (obj M) /\ pushed q (obj M') = pushed q (obj M) /\
       processed q (obj M') = processed q (obj M)) ->
    K b (H t) -> exists h', K b h' /\ sinv (upd H t h') M' /\ grows M M') as frame.
  { intros M' b E1 E2 E3 Eq Hk. exists (H t). split_and!; [done| |by apply grows_same].
    apply (sinv_frame _ M); [done..|]. intros t'. rewrite E2, E3. done. }
  destruct a as [m|m|m|m q p|B f|B f v|q o|B f|B f| | |m|to|ch on| |m|n|n].
  - cbn in *. destruct (owner M m) eqn:Eo; cbn; [done|]. eexists.
    split_and!; [by apply S|by apply sinv_lock|by apply grows_same].
  - cbn in *. destruct S as (_ & S1 & S2). destruct (owner M m) eqn:Eo; cbn; [by apply frame|]. eexists.
    split_and!; [by apply S1|by apply sinv_lock|by apply grows_same].
  - cbn in *. destruct S as (Hl & Hd & S). apply (si_locks _ _ I) in Hl.
    rewrite decide_True by done. cbn. eexists.
    split_and!; [by apply S|by apply sinv_unlock|by apply grows_same].
  - cbn in *. destruct (owner M m) eqn:Eo; cbn; [done|]. destruct (p _ _); cbn; [|done]. eexists.
    split_and!; [by apply S|by apply sinv_lock|by apply grows_same].
  - cbn in *. apply frame; first [done|apply S].
  - cbn in *. apply frame; first [done|by intros []|apply S].
  - by apply qop_step.
  - cbn in *. apply frame; first [done|apply S].
  - cbn in *. destruct (f (tab (obj M))) as [[t' b]|]; cbn; [|done].
    apply frame; first [done|by intros []|apply S].
  - cbn in *. apply frame; first [done|by intros []|apply S].
  - cbn in *. by apply frame.
  - cbn in *. destruct S as (Hk & Hl & S).
    destruct (zcm_trans_sendmsg (zt (obj M)) m) as [[tr rc]|]; cbn; [|done].
    eexists. split_and!; [by apply S| |by apply grows_same].
    apply sinv_learn; [done..| |].
    + pose proof (si_queue _ _ I sendQueue) as (sp & R & Hb & Hh). unfold phase_of in Hh. cbn [mutex_of] in Hh.
      rewrite (proj1 (si_locks _ _ I t _) Hl), Hk in Hh. destruct Hh as [Hhd Hh].
      exists sp. split_and!; [done..|]. destruct (TSQ.items sp) as [|m' l]; [done|].
      injection Hhd as ->. exists l. split; [done|]. cbn in *. by rewrite Hh, <- app_assoc.
    + intros [] p Hne Hq; [done|exact Hq].
  - cbn in *. destruct (zcm_trans_recvmsg (zt (obj M)) to) as [[[tr rc] om]|]; cbn; [|done].
    apply frame; first [done|by intros []|apply S].
  - cbn in *. destruct (zcm_trans_recvmsg_enable (zt (obj M)) ch on) as [tr rc]. cbn.
    apply frame; first [done|by intros []|apply S].
  - cbn in *. by apply frame.
  - cbn in *. destruct S as (Hk & Hl & _ & S). eexists. split_and!; [by apply S| |by apply grows_same].
    apply sinv_learn; [done..| |].
    + pose proof (si_queue _ _ I recvQueue) as (sp & R & Hb & Hh). unfold phase_of in Hh. cbn [mutex_of] in Hh.
      rewrite (proj1 (si_locks _ _ I t _) Hl), Hk in Hh. destruct Hh as [Hhd Hh].
      exists sp. split_and!; [done..|]. destruct (TSQ.items sp) as [|m' l]; [done|].
      injection Hhd as ->. exists l. split; [done|]. cbn in *.
      by rewrite Hh, fmap_app, <- app_assoc.
    + intros [] p Hne Hq; [exact Hq|done].
  - cbn in *. destruct (joinable M n); cbn; [done|]. exists (H t). split_and!; [done| |].
    + apply (sinv_frame _ M); try done. cbn. intros t' Ht'. split; [lia|].
      by rewrite lookup_insert_ne by lia.
    + split; cbn; [lia|]. intros t' p. rewrite lookup_insert_Some. intros [[<- <-]|[_ E]]; [right|by left].
      split; [lia|]. intros h. by apply thread_safe.
  - cbn in *. destruct (joinable M n); cbn; [|done]. destruct (pool M !! n0) as [p|]; cbn; [|done].
    destruct (is_finished p); cbn; [|done]. by apply frame.
Qed.

Definition minv (M : machine) : Prop :=
  exists H, sinv H M /\ forall t p, pool M !! t = Some p -> ok p (H t) done_idle.

Lemma pool_lt H (M : machine) t p : sinv H M -> pool M !! t = Some p -> t < nextThread M.
Proof.
  intros I E. destruct (Nat.lt_ge_cases t (nextThread M)) as [|Hge]; [done|].
  destruct (si_fresh _ _ I t Hge). congruence.
Qed.

(** The thread that moves goes on with [p'], the others are as they were. *)
Lemma minv_step H M M' t p0 h' p' : sinv H M -> pool M !! t = Some p0 -> sinv (upd H t h') M' ->
  grows M M' -> (forall t p, pool M !! t = Some p -> ok p (H t) done_idle) ->
  ok p' h' done_idle -> minv (with_pool M' t p').
Proof.
  intros I E0 I' [Hn Hg] P Hp'. pose proof (pool_lt _ _ _ _ I E0) as Ht.
  exists (upd H t h'). split.
  - destruct I' as [L K Q F]. split; try done. intros t' Ht'. cbn in *.
    destruct (F t' Ht') as [E Hi]. split; [|done]. by rewrite lookup_insert_ne by lia.
  - intros t' p. cbn. rewrite lookup_insert_Some. intros [[<- <-]|[Hne E]].
    + by rewrite upd_same.
    + unfold upd. rewrite decide_False by done. destruct (Hg t' p E) as [E'|[Hge Hs]].
      * by apply P.
      * apply Hs. by apply (si_fresh _ _ I).
Qed.

Notation step := (step regex_match iterate).

Lemma step_minv M t : minv M ->
  match step t M with
  | None => True
  | Some (inl M') => minv M'
  | Some (inr w) => w <> QueueCrash /\ w <> MutexCrash
  end.
Proof.
  intros (H & I & P). unfold step. destruct (pool M !! t) as [p|] eqn:E; [|done].
  pose proof (P t p E) as Hp. pose proof (pool_lt _ _ _ _ I E) as Ht.
  destruct p as [u|B a k|body k]; [done|..].
  - pose proof (exec_action_inv H M t a _ I Ht Hp) as X.
    destruct (exec regex_match iterate t a M) as [|w|M' b]; [done|exact X|].
    destruct X as (h' & Hk & I' & G). by apply (minv_step H M M' t (Do a k) h').
  - destruct Hp as (Hi & Hb & Hk). apply (minv_step H M M t (While body k) (H t)); try done.
    + by apply (sinv_frame _ M).
    + by apply grows_same.
    + apply safe_bind. eapply safe_mono; [|by apply Hb].
      intros [] h' Hh; [|by apply Hk]. cbn [safe]. by split_and!.
Qed.

Definition reaches : machine -> machine -> Prop := rtc (fun M M' => exists t, step t M = Some (inl M')).

Lemma reaches_minv M M' : reaches M M' -> minv M -> minv M'.
Proof.
  induction 1 as [|M1 M2 M3 (t & E) _ IH]; [done|]. intros I. apply IH.
  pose proof (step_minv M1 t I) as X. by rewrite E in X.
Qed.

Lemma boot_minv (tr : T) times users : QUEUE_SIZE <= N -> Forall (Forall (api_ok N)) users ->
  minv (boot regex_valid tr times users).
Proof.
  intros HN Hu. set (h0 := mkHeld (fun _ => false) (fun _ => PIdle)).
  assert (idle h0) as Hi by done. exists (fun _ => h0). split; [split|]; cbn.
  - intros t m. by split.
  - done.
  - intros q. unfold phase_of. cbn. exists (TSQ.mkSpec (QUEUE_SIZE - 1) [] false).
    split_and!; [|unfold QUEUE_SIZE in *; cbn; lia|by destruct q].
    destruct q; apply TSQ.refines_create; unfold QUEUE_SIZE; lia.
  - intros t Ht. split; [|done]. apply not_elem_of_list_to_map_1.
    rewrite fst_zip by (rewrite length_seq, length_fmap; lia).
    intros Hin%elem_of_seq. lia.
  - intros t p Hp. apply elem_of_list_to_map_2 in Hp.
    apply elem_of_zip_r, list_elem_of_fmap in Hp as (cs & -> & Hin).
    apply user_safe; [|done]. rewrite Forall_forall in Hu. by apply Hu.
Qed.

(** ** Races *)







End Invariant.

Section Schedules.
Context {T : Type} `{HT : Transport T}.
Context (regex_match : cstr -> cstr -> bool) (iterate : gmap cstr (list nat) -> list (cstr * list nat)).

Lemma run_schedule_reaches ts : forall (M M' : machine (T := T)),
  run_schedule regex_match iterate ts M = inl M' -> reaches regex_match iterate M M'.
Proof.
  induction ts as [|t ts IH]; intros M M' E; cbn in E.
  { injection E as ->. apply rtc_refl. }
  destruct (step regex_match iterate t M) as [[M1|w]|] eqn:Es; [|done|by apply IH].
  eapply rtc_l; [by exists t|by apply IH].
Qed.

(** Queued messages are pushed but not processed when nobody is between [top] and [pop]. *)
Lemma minv_history N (M : machine (T := T)) q : minv N M ->
  processed q (obj M) `prefix_of` pushed q (obj M) /\
  (owner M (mutex_of q) = None -> exists sp, TSQ.refines (queue_of q (obj M)) sp /\
     pushed q (obj M) = processed q (obj M) ++ TSQ.items sp).
Proof.
  intros (H & I & _). pose proof (si_queue _ _ _ I q) as (sp & R & Hb & Hh). split.
  - destruct (phase_of H M q); cbn in Hh; [|destruct Hh as [_ Hh]|destruct Hh as (l & _ & Hh)];
      rewrite Hh; by apply prefix_app_r.
  - intros Eo. unfold phase_of in Hh. rewrite Eo in Hh. by exists sp.
Qed.
End Schedules.

(** ** The properties *)

(** C1: the blocking core hands every accepted message over at most once and in order, under
    every interleaving of any number of user threads with the send, receive and handle
    threads.  Provided every queue size set is the same N, at least the default: no
    ThreadsafeQueue is ever used outside its contract ([pop] on an empty queue, [top] of a
    vanished message, a resize that does not fit) and no mutex is unlocked by another thread
    than its holder; the messages given to the transport are a prefix of those publish()
    accepted, the messages dispatched a prefix of those the receive thread kept; and when no
    thread holds a queue's mutex, what is missing is exactly what the queue still holds. *)
Theorem blocking_exactly_once {T} `{Transport T} N regex_match regex_valid iterate
    (tr : T) times users (M : machine) :
  QUEUE_SIZE <= N -> Forall (Forall (api_ok N)) users ->
  reaches regex_match iterate (boot regex_valid tr times users) M ->
  (forall t w, step regex_match iterate t M = Some (inr w) -> w <> QueueCrash /\ w <> MutexCrash) /\
  sent (obj M) `prefix_of` accepted (obj M) /\
  (fst <$> dispatched (obj M)) `prefix_of` received (obj M) /\
  (owner M sendOneMutex = None -> exists sp, TSQ.refines (sendQ (obj M)) sp /\
     accepted (obj M) = sent (obj M) ++ TSQ.items sp) /\
  (owner M dispOneMutex = None -> exists sp, TSQ.refines (recvQ (obj M)) sp /\
     received (obj M) = (fst <$> dispatched (obj M)) ++ TSQ.items sp).
Proof.
  intros HN Hu Hr. assert (minv N M) as I by (eapply reaches_minv; [done|by apply boot_minv]).
  destruct (minv_history N M sendQueue I) as [S1 S2].
  destruct (minv_history N M recvQueue I) as [R1 R2]. split_and!; try done.
  intros t w E. pose proof (step_minv N regex_match iterate M t I) as X. by rewrite E in X.
Qed.


(** ** Concrete runs *)

(** No patterns, and maps iterated in the order of their keys. *)
Definition no_regex (pat chan : cstr) : bool := false.
Definition all_valid (pat : cstr) : bool := true.

Definition sample_users : list (list api) :=
  [[Apublish (str "A") [1]%Z 1; Apublish (str "B") [2]%Z 1]; [Aset_queue_size 20 true; Aflush true]].
Definition sample_boot : machine :=
  boot all_valid (inproc_create true [7; 8]%Z) [4; 5]%Z sample_users.
Definition sample_schedule : list nat := replicate 50 0 ++ replicate 30 1 ++ concat (replicate 40 [2; 1; 0]).
Definition sample_machine : machine :=
  match run_schedule no_regex map_to_list sample_schedule sample_boot with
  | inl M => M
  | inr _ => sample_boot
  end.

Lemma sample_reaches : reaches no_regex map_to_list sample_boot sample_machine.
Proof.
  unfold sample_machine. destruct (run_schedule _ _ _ _) as [M|w] eqn:E; [|apply rtc_refl].
  by eapply run_schedule_reaches.
Qed.

Lemma blocking_exactly_once_witness :
  sent (obj sample_machine) `prefix_of` accepted (obj sample_machine) /\
  channel <$> sent (obj sample_machine) = [str "A"; str "B"].
Proof.
  destruct (blocking_exactly_once 20 no_regex all_valid map_to_list (inproc_create true [7; 8]%Z)
    [4; 5]%Z sample_users sample_machine) as (_ & P & _).
  - unfold QUEUE_SIZE. lia.
  - repeat constructor.
  - exact sample_reaches.
  - split; [exact P|vm_compute; reflexivity].
Defined.


(** stop() leaves the send queue disabled, and publish() after it starts a new send thread
    but enables no queue: a program that publishes, stops and publishes again reaches a state
    in which both messages were accepted and neither sent, nothing is paused, and no thread
    can ever move again. *)
Theorem blocking_stop_publish_stalls :
  let users := [[Apublish (str "A") [1]%Z 1; Astop true; Apublish (str "B") [2]%Z 1]] in
  exists M, reaches no_regex map_to_list
      (boot all_valid (inproc_create true [7; 8]%Z) [4; 5]%Z users) M /\
    channel <$> accepted (obj M) = [str "A"; str "B"] /\ sent (obj M) = [] /\
    f_paused (flg (obj M)) = false /\ f_send (flg (obj M)) = THREAD_STATE_RUNNING /\
    forall t, step no_regex map_to_list t M = None.
Proof.
  intros users. set (M0 := boot all_valid (inproc_create true [7; 8]%Z) [4; 5]%Z users).
  destruct (run_schedule no_regex map_to_list (concat (replicate 100 [0; 1; 2])) M0)
    as [M|w] eqn:E; [|vm_compute in E; done].
  exists M. assert (reaches no_regex map_to_list M0 M) as Hr by (by eapply run_schedule_reaches).
  assert (minv 16 M) as (H & I & _).
  { eapply reaches_minv; [done|]. apply boot_minv; [unfold QUEUE_SIZE; lia|repeat constructor]. }
  split; [done|].
  assert (nextThread M = 3) as Hn by (vm_compute in E; injection E as <-; reflexivity).
  assert (forall t, 3 <= t -> step no_regex map_to_list t M = None) as Hbig.
  { intros t Ht. unfold step. destruct (si_fresh _ _ _ I t) as [-> _]; [lia|done]. }
  vm_compute in E. injection E as <-. split_and!; [reflexivity..|].
  intros [|[|[|t]]]; [vm_compute; reflexivity..|]. apply Hbig. lia.
Qed.

(** stop() does not wait for a run() in another thread: it resets the receive mode while
    the receive thread of that run() is still alive, so that a handle() (or start()) right
    after it assigns to a std::thread that is joinable, which terminates the process. *)
Theorem blocking_stop_run_terminates :
  exists ts, run_schedule no_regex map_to_list ts
    (boot all_valid (inproc_create true [7; 8]%Z) [4; 5]%Z [[Arun]; [Astop true; Ahandle]])
  = inr ThreadCrash.
Proof. exists (replicate 20 0 ++ replicate 50 1). vm_compute. reflexivity. Qed.
