(* ===== verification/BlockingSubs.v ===== *)
(** * The subscription tables of the blocking core

    [tab_inv] ties the two maps of pointers to the objects they point to and to the
    requests that have not been taken back: the object of each is in exactly one list,
    that of the channel or pattern that was asked for.  Subscribing and unsubscribing
    keep it, and dispatching calls exactly the subscriptions a message is for. *)
From S2P Require Import Prelude Bytes Transport Nonblocking Blocking.

(** All the pointers of a map. *)
Definition flat (m : gmap cstr (list nat)) : list nat := concat (snd <$> map_to_list m).

Lemma flat_lookup m k : flat m ≡ₚ default [] (m !! k) ++ flat (delete k m).
Proof.
  destruct (m !! k) as [l|] eqn:E; cbn.
  - unfold flat. rewrite <- (insert_delete_id m k l E) at 1.
    rewrite map_to_list_insert by (by rewrite lookup_delete_eq). done.
  - by rewrite delete_id.
Qed.

Lemma flat_insert m k l : flat (<[k := l]> m) ≡ₚ l ++ flat (delete k m).
Proof. rewrite (flat_lookup _ k), lookup_insert_eq, delete_insert_eq. done. Qed.

Lemma elem_of_flat m id : id ∈ flat m <-> exists k l, m !! k = Some l /\ id ∈ l.
Proof.
  unfold flat. rewrite list_elem_of_In, in_concat. split.
  - intros (l & Hl & Hid). apply list_elem_of_In, list_elem_of_fmap in Hl as ([k l'] & -> & Hm).
    apply elem_of_map_to_list in Hm. exists k, l'. split; [done|]. by apply list_elem_of_In.
  - intros (k & l & Hm & Hid). exists l. split; [|by apply list_elem_of_In].
    apply list_elem_of_In, list_elem_of_fmap. exists (k, l). split; [done|].
    by apply elem_of_map_to_list.
Qed.

Section Tables.
Context (regex_match : cstr -> cstr -> bool) (regex_valid : cstr -> bool)
        (iterate : gmap cstr (list nat) -> list (cstr * list nat)).

(** What was asked for: the channel, the handler and its data. *)
Record request := mkReq { rq_channel : cstr; rq_callback : nat; rq_usr : nat }.

(** The object that a request makes. *)
Definition object_of (e : request) : bsub :=
  mkBSub (copy_channel (rq_channel e)) (if isRegexChannel (rq_channel e) then Some (rq_channel e) else None)
         (rq_callback e) (rq_usr e).

(** [live] has the requests that have not been taken back.  The object of each is in one
    list, that of the channel that was asked for, which may be longer than the channel in
    the object. *)
Record tab_inv (t : subtab) (live : gmap nat request) : Prop := {
  ti_heap : forall id, heap t !! id = object_of <$> live !! id;
  ti_subs : forall key l id, subs t !! key = Some l -> id ∈ l ->
    exists cb usr, live !! id = Some (mkReq key cb usr) /\ isRegexChannel key = false;
  ti_regex : forall key l id, subsRegex t !! key = Some l -> id ∈ l ->
    exists cb usr, live !! id = Some (mkReq key cb usr) /\ isRegexChannel key = true;
  ti_once : flat (subs t) ++ flat (subsRegex t) ≡ₚ (map_to_list live).*1;
  ti_fresh : forall id e, live !! id = Some e -> id < nextSub t
}.

Lemma tab_inv_empty : tab_inv (mkTab ∅ ∅ ∅ 0) ∅.
Proof. split; try done. Qed.

Lemma insert_entry (P : cstr -> nat -> Prop) (m : gmap cstr (list nat)) ch n key l id :
  (forall key l id, m !! key = Some l -> id ∈ l -> P key id) ->
  <[ch := default [] (m !! ch) ++ [n]]> m !! key = Some l -> id ∈ l ->
  id = n /\ key = ch \/ P key id.
Proof.
  intros Hm. destruct (decide (key = ch)) as [->|Hne].
  - rewrite lookup_insert_eq. intros [= <-]. rewrite elem_of_app, list_elem_of_singleton.
    intros [Hin| ->]; [right|by left].
    destruct (m !! ch) as [l'|] eqn:Em; [by eapply Hm|by apply not_elem_of_nil in Hin].
  - rewrite lookup_insert_ne by done. intros Hk Hin. right. by eapply Hm.
Qed.

Lemma flat_push (m : gmap cstr (list nat)) ch n :
  flat (<[ch := default [] (m !! ch) ++ [n]]> m) ≡ₚ n :: flat m.
Proof. rewrite flat_insert, (flat_lookup m ch). solve_Permutation. Qed.

(** Subscribing adds one entry, under the channel. *)
Lemma add_sub_inv ch cb usr t t' id live : tab_inv t live ->
  add_sub regex_valid ch cb usr t = Some (t', id) ->
  live !! id = None /\ tab_inv t' (<[id := mkReq ch cb usr]> live).
Proof.
  intros [Hh Hs Hr Ho Hf] E. unfold add_sub in E.
  assert (live !! nextSub t = None) as Hn.
  { destruct (live !! nextSub t) as [e|] eqn:Ee; [|done]. apply Hf in Ee. lia. }
  assert (forall re (P : gmap cstr (list nat)) key l i, (forall key l i, P !! key = Some l -> i ∈ l ->
      exists cb usr, live !! i = Some (mkReq key cb usr) /\ isRegexChannel key = re) ->
    P !! key = Some l -> i ∈ l -> exists cb' usr', <[nextSub t := mkReq ch cb usr]> live !! i = Some (mkReq key cb' usr') /\ isRegexChannel key = re) as Hold.
  { intros re P key l i HP Hk Hin. destruct (HP _ _ _ Hk Hin) as (c & u & El & Er). exists c, u.
    rewrite lookup_insert_ne; [done|congruence]. }
  assert (forall s', s' = object_of (mkReq ch cb usr) -> forall i, <[nextSub t := s']> (heap t) !! i = object_of <$> <[nextSub t := mkReq ch cb usr]> live !! i) as Hheap.
  { intros s' -> i. destruct (decide (i = nextSub t)) as [->|]; [by rewrite !lookup_insert_eq|by rewrite !lookup_insert_ne]. }
  assert (forall i e, <[nextSub t := mkReq ch cb usr]> live !! i = Some e -> i < nextSub t + 1) as Hfr.
  { intros i e [[<- _]|[_ Hi%Hf]]%lookup_insert_Some; lia. }
  destruct (isRegexChannel ch) eqn:Er.
  - destruct (regex_valid ch); [|done]. injection E as <- <-. split; [done|]. split; cbn; [apply Hheap; unfold object_of; cbn [rq_channel rq_callback rq_usr]; by rewrite Er| | | |done].
    + intros key l i. by apply Hold.
    + intros key l i Hk Hin. destruct (insert_entry _ _ _ _ _ _ _ (fun k l i => Hold true _ k l i Hr) Hk Hin) as [[-> ->]|He]; [|done].
      exists cb, usr. by rewrite lookup_insert_eq.
    + rewrite map_to_list_insert by done. cbn. rewrite flat_push, <- Ho. solve_Permutation.
  - injection E as <- <-. split; [done|]. split; cbn; [apply Hheap; unfold object_of; cbn [rq_channel rq_callback rq_usr]; by rewrite Er| | | |done].
    + intros key l i Hk Hin. destruct (insert_entry _ _ _ _ _ _ _ (fun k l i => Hold false _ k l i Hs) Hk Hin) as [[-> ->]|He]; [|done].
      exists cb, usr. by rewrite lookup_insert_eq.
    + intros key l i. by apply Hold.
    + rewrite map_to_list_insert by done. cbn. rewrite flat_push, <- Ho. solve_Permutation.
Qed.

Lemma find_sub_spec l id : forall i, id ∈ l ->
  exists l1 l2, l = l1 ++ id :: l2 /\ find_sub l id i = Some (i + length l1).
Proof.
  induction l as [|x l IH]; intros i Hin; [by apply not_elem_of_nil in Hin|]. cbn.
  destruct (Nat.eqb_spec x id) as [->|Hne].
  - exists [], l. split; [done|]. cbn. f_equal. lia.
  - apply elem_of_cons in Hin as [->|Hin]; [done|].
    destruct (IH (i + 1) Hin) as (l1 & l2 & -> & ->). exists (x :: l1), l2.
    split; [done|]. cbn. f_equal. lia.
Qed.

Lemma list_lookup_middle_app (l1 l2 : list nat) x :
  (l1 ++ l2 ++ [x]) !! (length l1 + length l2) = Some x.
Proof. rewrite app_assoc. apply list_lookup_middle. by rewrite length_app. Qed.

(** The swap with the last pointer removes exactly one. *)
Lemma deleteFromSubList_spec l id : id ∈ l ->
  exists l', deleteFromSubList l id = Some l' /\ l ≡ₚ id :: l'.
Proof.
  intros Hin. destruct (find_sub_spec l id 0 Hin) as (l1 & l2 & -> & E).
  unfold deleteFromSubList. rewrite E. eexists. split; [done|]. cbn [Nat.add].
  rewrite length_app. cbn [length].
  destruct l2 as [|x l2 _] using rev_ind.
  - cbn [length]. replace (length l1 + 1 - 1) with (length l1) by lia.
    rewrite insert_app_r_alt, take_app_length by lia. solve_Permutation.
  - rewrite length_app. cbn [length].
    replace (length l1 + S (length l2 + 1) - 1) with (length l1 + S (length l2)) by lia.
    assert ((l1 ++ id :: l2 ++ [x]) !! (length l1 + S (length l2)) = Some x) as ->.
    { change (l1 ++ id :: l2 ++ [x]) with (l1 ++ (id :: l2) ++ [x]).
      exact (list_lookup_middle_app l1 (id :: l2) x). }
    cbn [default from_option]. unfold Datatypes.id.
    rewrite insert_app_r_alt, Nat.sub_diag by lia. cbn [insert list_insert].
    rewrite take_app_ge by lia.
    replace (length l1 + S (length l2) - length l1) with (S (length l2)) by lia.
    cbn [take]. rewrite take_app_length. solve_Permutation.
Qed.

Lemma find_sub_in l id : forall i j, find_sub l id i = Some j -> id ∈ l.
Proof.
  induction l as [|x l IH]; intros i j E; [done|]. cbn in E.
  destruct (Nat.eqb_spec x id) as [->|]; [by left|]. right. by eapply IH.
Qed.

Lemma tab_nodup t live : tab_inv t live -> NoDup (flat (subs t) ++ flat (subsRegex t)).
Proof. intros O. rewrite (ti_once _ _ O). apply NoDup_fst_map_to_list. Qed.

(** A live request: its object is in the list of its channel. *)
Lemma live_entry t live id ch cb usr : tab_inv t live -> live !! id = Some (mkReq ch cb usr) ->
  exists l, (if isRegexChannel ch then subsRegex t else subs t) !! ch = Some l /\ id ∈ l.
Proof.
  intros O E.
  assert (id ∈ flat (subs t) ++ flat (subsRegex t)) as Hin.
  { rewrite (ti_once _ _ O). apply list_elem_of_fmap. exists (id, mkReq ch cb usr). split; [done|].
    by apply elem_of_map_to_list. }
  apply elem_of_app in Hin as [Hin|Hin]; apply elem_of_flat in Hin as (k & l & Hk & Hin).
  - destruct (ti_subs _ _ O _ _ _ Hk Hin) as (c & u & E' & Er). rewrite E in E'. injection E' as <- <- <-.
    rewrite Er. by exists l.
  - destruct (ti_regex _ _ O _ _ _ Hk Hin) as (c & u & E' & Er). rewrite E in E'. injection E' as <- <- <-.
    rewrite Er. by exists l.
Qed.

(** Replacing a list by one without [id]. *)
Lemma replace_entry (m : gmap cstr (list nat)) key l l' id : m !! key = Some l -> l ≡ₚ id :: l' ->
  flat m ≡ₚ id :: flat (<[key := l']> m) /\
  forall k x i, <[key := l']> m !! k = Some x -> i ∈ x -> exists y, m !! k = Some y /\ i ∈ y.
Proof.
  intros E P. split.
  - rewrite flat_insert, (flat_lookup m key), E. cbn. by rewrite P.
  - intros k x i. destruct (decide (k = key)) as [->|]; [|rewrite lookup_insert_ne by done; eauto].
    rewrite lookup_insert_eq. intros [= <-] Hi. exists l. split; [done|]. rewrite P. by right.
Qed.

(** Taking [id] out of the lists of one table, and then its object. *)
Lemma taken_out (re : bool) (t : subtab) (live : gmap nat request) (m : gmap cstr (list nat)) (id : nat) : tab_inv t live ->
  flat (if re then subsRegex t else subs t) ≡ₚ id :: flat m ->
  (forall k x i, m !! k = Some x -> i ∈ x -> exists y : list nat, (if re then subsRegex t else subs t : gmap cstr (list nat)) !! k = Some y /\ i ∈ y) ->
  tab_inv (mkTab (delete id (heap t)) (if re then subs t else m) (if re then m else subsRegex t) (nextSub t)) (delete id live).
Proof.
  intros O Pf Pe. pose proof (tab_nodup t live O) as ND. pose proof O as [Oh Os Or Oo Of].
  assert (id ∉ flat (if re then subs t else subsRegex t) /\ id ∉ flat m) as [N1 N2].
  { destruct re; rewrite Pf in ND.
    - apply NoDup_app in ND as (_ & N & ND). apply NoDup_cons in ND as [N2 _]. split; [|done].
      intros Hi. apply (N _ Hi). by left.
    - apply NoDup_app in ND as (ND & N & _). apply NoDup_cons in ND as [N2 _]. split; [|done]. apply N. by left. }
  assert (exists e, live !! id = Some e) as [e Ee].
  { assert (id ∈ (map_to_list live).*1) as Hin by (rewrite <- Oo; destruct re; rewrite Pf, elem_of_app; [right|left]; by left).
    apply list_elem_of_fmap in Hin as ([i e] & -> & Hin). exists e. by apply elem_of_map_to_list. }
  assert (forall k x i (P : gmap cstr (list nat)), P !! k = Some x -> i ∈ x -> id ∉ flat P -> delete id live !! i = live !! i) as Hne.
  { intros k x i P Hk Hi N. rewrite lookup_delete_ne; [done|]. intros ->. apply N, elem_of_flat. eauto. }
  split; cbn [heap subs subsRegex nextSub].
  - intros i. destruct (decide (i = id)) as [->|]; [by rewrite !lookup_delete_eq|by rewrite !lookup_delete_ne].
  - intros k x i Hk Hi. destruct re; rewrite (Hne _ _ _ _ Hk Hi) by done; [by eapply Os|].
    destruct (Pe _ _ _ Hk Hi) as (y & Hy & Hiy). by eapply Os.
  - intros k x i Hk Hi. destruct re; rewrite (Hne _ _ _ _ Hk Hi) by done; [|by eapply Or].
    destruct (Pe _ _ _ Hk Hi) as (y & Hy & Hiy). by eapply Or.
  - apply (Permutation_cons_inv (a := id)). rewrite <- (map_to_list_delete live id e Ee) in Oo. cbn in Oo.
    rewrite <- Oo. destruct re; rewrite Pf; solve_Permutation.
  - intros i e'. rewrite lookup_delete_Some. intros [_ Hi]. by eapply Of.
Qed.

(** Unsubscribing takes back the request, or leaves everything as it was. *)
Lemma remove_sub_inv t live id t1 r : tab_inv t live -> remove_sub id t = Some (t1, r) ->
  match r with
  | None => t1 = t
  | Some _ => exists t2, delete_sub id t1 = Some (t2, tt) /\ tab_inv t2 (delete id live)
  end.
Proof.
  intros O E. unfold remove_sub in E. destruct (heap t !! id) as [s|] eqn:Es; [|done].
  set (m := if bs_regex s then subsRegex t else subs t) in *.
  destruct (m !! bs_channel s) as [l|] eqn:El; [|by injection E as <- <-].
  destruct (deleteFromSubList l id) as [l'|] eqn:Ed; [|by injection E as <- <-].
  assert (id ∈ l) as Hin by (unfold deleteFromSubList in Ed; destruct (find_sub l id 0) eqn:Ef; [by eapply find_sub_in|done]).
  destruct (deleteFromSubList_spec l id Hin) as (l'' & Ed' & P). rewrite Ed in Ed'. injection Ed' as <-.
  injection E as <- <-. destruct (replace_entry _ _ _ _ _ El P) as [Pf Pe].
  pose proof (taken_out (bs_regex s) t live _ id O Pf Pe) as O2. unfold delete_sub.
  destruct (bs_regex s); cbn [heap subs subsRegex nextSub]; rewrite Es; by eexists.
Qed.

(** With a channel that fits, it succeeds. *)
Lemma remove_sub_short t live id ch cb usr : tab_inv t live -> live !! id = Some (mkReq ch cb usr) -> length ch <= ZCM_CHANNEL_MAXLEN ->
  exists t1 left l, remove_sub id t = Some (t1, Some (ch, left)) /\
    (if isRegexChannel ch then subsRegex t else subs t) !! ch = Some l /\ length l = S left.
Proof.
  intros O E Hl. destruct (live_entry t live id ch cb usr O E) as (l & El & Hin).
  destruct (deleteFromSubList_spec l id Hin) as (l' & Ed & P).
  unfold remove_sub. rewrite (ti_heap _ _ O), E. cbn [fmap option_fmap option_map]. unfold object_of. cbn [rq_channel rq_callback rq_usr].
  assert (copy_channel ch = ch) as -> by (unfold copy_channel; by rewrite take_ge).
  assert (length l = S (length l')) as Hlen by (by rewrite P). cbn [bs_regex bs_regexobj bs_channel].
  destruct (isRegexChannel ch); cbn [bs_regex bs_regexobj bs_channel]; rewrite El, Ed; by eexists _, (length l'), l.
Qed.

(** ** Dispatching *)

(** Whether a message of channel [chan] is what was asked for. *)
Definition is_for (e : request) (chan : cstr) : bool :=
  if isRegexChannel (rq_channel e) then regex_match (rq_channel e) chan
  else bool_decide (rq_channel e = chan).

(** The call that hands the message to a request. *)
Definition answer (m : zcm_msg_t) (e : request) : delivery :=
  mkDelivery (rq_callback e) (rq_usr e) (channel m) (mkRbuf (utime m) (buf m) (wrapu 32 (len m))).

(** The calls a message has to lead to. *)
Definition wanted_calls (live : gmap nat request) (m : zcm_msg_t) : list delivery :=
  answer m <$> filter (fun e => is_for e (channel m) = true) (map_to_list live).*2.

Definition call_if (live : gmap nat request) (m : zcm_msg_t) (id : nat) : list delivery :=
  match live !! id with
  | Some e => if is_for e (channel m) then [answer m e] else []
  | None => []
  end.

Lemma call_sub_live t live m id e : tab_inv t live -> live !! id = Some e -> call_sub t m id = [answer m e].
Proof. intros O E. unfold call_sub. by rewrite (ti_heap _ _ O), E. Qed.

Lemma regex_hit_live t live chan id e : tab_inv t live -> live !! id = Some e -> isRegexChannel (rq_channel e) = true ->
  regex_hit regex_match t chan id = is_for e chan.
Proof.
  intros O E Er. unfold regex_hit, is_for. rewrite (ti_heap _ _ O), E. cbn [fmap option_fmap option_map].
  unfold object_of. cbn [bs_regexobj]. by rewrite Er.
Qed.

Lemma bind_ext {A B} (f g : A -> list B) l : (forall x, x ∈ l -> f x = g x) -> l ≫= f = l ≫= g.
Proof.
  induction l as [|x l IH]; intros E; [done|]. cbn. rewrite E by left. f_equal. apply IH.
  intros y Hy. apply E. by right.
Qed.

Lemma bind_nil {A B} (f : A -> list B) l : (forall x, x ∈ l -> f x = []) -> l ≫= f = [].
Proof. intros E. rewrite (bind_ext f (fun _ => []) l E). clear. by induction l. Qed.

Lemma flat_bind {B} (f : nat -> list B) m : map_to_list m ≫= (fun e => e.2 ≫= f) = flat m ≫= f.
Proof.
  unfold flat. induction (map_to_list m) as [|[k l] ls IH]; [done|]. cbn.
  rewrite bind_app. f_equal. exact IH.
Qed.

Lemma subs_calls t live m : tab_inv t live ->
  match subs t !! channel m with Some l => l ≫= call_sub t m | None => [] end ≡ₚ flat (subs t) ≫= call_if live m.
Proof.
  intros O. rewrite (flat_lookup (subs t) (channel m)), bind_app.
  rewrite (bind_nil _ (flat (delete _ _))), app_nil_r.
  - destruct (subs t !! channel m) as [l|] eqn:E; [|done]. cbn. erewrite bind_ext; [done|].
    intros id Hin. destruct (ti_subs _ _ O _ _ _ E Hin) as (cb & usr & Ee & Er).
    rewrite (call_sub_live _ _ _ _ _ O Ee). unfold call_if, is_for. rewrite Ee. cbn [rq_channel].
    by rewrite Er, bool_decide_true.
  - intros id Hin. apply elem_of_flat in Hin as (k & l & Hk & Hin).
    apply lookup_delete_Some in Hk as [Hne Hk].
    destruct (ti_subs _ _ O _ _ _ Hk Hin) as (cb & usr & Ee & Er).
    unfold call_if, is_for. rewrite Ee. cbn [rq_channel]. by rewrite Er, bool_decide_false.
Qed.

Lemma regex_calls t live m : tab_inv t live -> (forall r, iterate r ≡ₚ map_to_list r) ->
  (iterate (subsRegex t) ≫= fun e => e.2 ≫= fun id => if regex_hit regex_match t (channel m) id then call_sub t m id else [])
  ≡ₚ flat (subsRegex t) ≫= call_if live m.
Proof.
  intros O Hi. rewrite (Hi (subsRegex t)), flat_bind. erewrite bind_ext; [done|].
  intros id Hin. apply elem_of_flat in Hin as (k & l & Hk & Hin).
  destruct (ti_regex _ _ O _ _ _ Hk Hin) as (cb & usr & Ee & Er).
  rewrite (regex_hit_live _ _ _ _ _ O Ee Er), (call_sub_live _ _ _ _ _ O Ee). unfold call_if. by rewrite Ee.
Qed.

Lemma live_calls live m : (map_to_list live).*1 ≫= call_if live m = wanted_calls live m.
Proof.
  unfold wanted_calls. assert (forall p, p ∈ map_to_list live -> live !! p.1 = Some p.2) as F
    by (intros [i e]; apply elem_of_map_to_list).
  revert F. generalize (map_to_list live). intros ps. induction ps as [|[i e] ps IH]; intros F; [done|].
  cbn [fmap list_fmap fst snd mbind list_bind]. rewrite IH by (intros p Hp; apply F; by right).
  unfold call_if. pose proof (F (i, e) ltac:(left)) as Fe. cbn [fst snd] in Fe. rewrite Fe. rewrite filter_cons.
  destruct (is_for e (channel m)); [by rewrite decide_True|by rewrite decide_False].
Qed.

Lemma dispatch_calls t live m : tab_inv t live -> (forall r, iterate r ≡ₚ map_to_list r) ->
  dispatchMsg_calls regex_match iterate t m ≡ₚ wanted_calls live m.
Proof.
  intros O Hi. unfold dispatchMsg_calls. rewrite (subs_calls t live), (regex_calls t live) by done.
  rewrite <- bind_app, <- live_calls. by rewrite (ti_once _ _ O).
Qed.

Lemma wanted_for t live chan id e : tab_inv t live -> (forall r, iterate r ≡ₚ map_to_list r) ->
  live !! id = Some e -> is_for e chan = true -> wanted regex_match iterate t chan = true.
Proof.
  intros O Hi E Hm. destruct e as [ch cb usr]. destruct (live_entry t live id ch cb usr O E) as (l & Hl & Hin).
  unfold wanted. pose proof Hm as Hm'. unfold is_for in Hm'. cbn [rq_channel] in Hm'.
  destruct (isRegexChannel ch) eqn:Er.
  - destruct (subs t !! chan); [done|]. apply existsb_exists. exists (ch, l). split.
    + apply list_elem_of_In. rewrite (Hi (subsRegex t)). by apply elem_of_map_to_list.
    + apply existsb_exists. exists id. split; [by apply list_elem_of_In|].
      by rewrite (regex_hit_live t live chan id (mkReq ch cb usr) O E Er).
  - apply bool_decide_eq_true in Hm'. subst chan. by rewrite Hl.
Qed.

(** ** What a program can reach *)

(** The calls of [subscribe] and [unsubscribe] that get to the tables, with the requests
    that are live: an unsubscription that fails leaves its request live. *)
Inductive table_step : subtab * gmap nat request -> subtab * gmap nat request -> Prop :=
  | TSubscribe t live t' id ch cb usr : add_sub regex_valid ch cb usr t = Some (t', id) ->
      table_step (t, live) (t', <[id := mkReq ch cb usr]> live)
  | TUnsubscribe t live id t1 name left t2 : remove_sub id t = Some (t1, Some (name, left)) ->
      delete_sub id t1 = Some (t2, tt) -> table_step (t, live) (t2, delete id live)
  | TUnsubscribeFails t live id t1 : remove_sub id t = Some (t1, None) -> table_step (t, live) (t1, live).

Definition table_reach (t : subtab) (live : gmap nat request) : Prop :=
  rtc table_step (mkTab ∅ ∅ ∅ 0, ∅) (t, live).

Lemma table_step_inv s s' : table_step s s' -> tab_inv s.1 s.2 -> tab_inv s'.1 s'.2.
Proof.
  intros [t live t' id ch cb usr E|t live id t1 name left t2 E E2|t live id t1 E] O; cbn [fst snd] in *.
  - by eapply add_sub_inv.
  - destruct (remove_sub_inv _ _ _ _ _ O E) as (t3 & E3 & O3). rewrite E2 in E3. by injection E3 as <-.
  - by rewrite (remove_sub_inv _ _ _ _ _ O E).
Qed.

Lemma table_reach_inv t live : table_reach t live -> tab_inv t live.
Proof.
  intros R. change (tab_inv (t, live).1 (t, live).2).
  apply (rtc_ind_r (fun s => tab_inv s.1 s.2) (mkTab ∅ ∅ ∅ 0, ∅)) with (3 := R); [exact tab_inv_empty|].
  intros s1 s2 _ St. by apply table_step_inv.
Qed.
End Tables.

(** ** The properties *)

(** C18: a message the blocking core dispatches is given to exactly the subscriptions it is
    for.  After any calls of [subscribe] and [unsubscribe], with any channels, failed ones
    included, the handler calls for a message are, up to the order of the unordered_map, one
    for each request that has not been taken back and whose channel equals the message's or
    whose regular expression matches it, with its own handler and data and the message's
    bytes; the receive thread keeps every message that leads to a call; and unsubscribing
    finds and frees every live request whose channel has at most ZCM_CHANNEL_MAXLEN bytes
    (with a longer one it may fail, and the request stays live).
    It is assumed that iterating over an unordered_map visits each entry once. *)
Theorem blocking_dispatch_exact regex_match regex_valid iterate (t : subtab) (live : gmap nat request) (m : zcm_msg_t) :
  (forall r, iterate r ≡ₚ map_to_list r) -> table_reach regex_valid t live ->
  dispatchMsg_calls regex_match iterate t m ≡ₚ wanted_calls regex_match live m /\
  (dispatchMsg_calls regex_match iterate t m <> [] -> wanted regex_match iterate t (channel m) = true) /\
  (forall id e, live !! id = Some e -> length (rq_channel e) <= ZCM_CHANNEL_MAXLEN ->
     exists t1 left t2, remove_sub id t = Some (t1, Some (rq_channel e, left)) /\ delete_sub id t1 = Some (t2, tt)).
Proof.
  intros Hi R. pose proof (table_reach_inv _ _ _ R) as O.
  pose proof (dispatch_calls regex_match iterate t live m O Hi) as D. split_and!; [done| |].
  - intros Hne. destruct (wanted_calls regex_match live m) as [|d ds] eqn:Ew; [by apply Permutation_nil_r in D|].
    assert (d ∈ wanted_calls regex_match live m) as Hd by (rewrite Ew; left).
    apply list_elem_of_fmap in Hd as (e & _ & [Hf He]%list_elem_of_filter).
    apply list_elem_of_fmap in He as ([id e'] & -> & Hin%elem_of_map_to_list). by eapply wanted_for.
  - intros id [ch cb usr] E Hl. destruct (remove_sub_short t live id ch cb usr O E Hl) as (t1 & left & l & Er & _).
    destruct (remove_sub_inv _ _ _ _ _ O Er) as (t2 & Ed & _). by exists t1, left, t2.
Qed.

(** Subscribing and unsubscribing keep the tables of the blocking core consistent.  A
    subscription creates one new object and enters it in the one list of its channel or
    pattern; unsubscribing a request with a channel of at most ZCM_CHANNEL_MAXLEN bytes
    finds it, frees exactly it, and reports how many entries its channel has left, which
    decides whether the transport is told to disable the channel. *)
Theorem blocking_subs_tables regex_valid ch cb usr (t t1 : subtab) (live : gmap nat request) id :
  tab_inv t live -> add_sub regex_valid ch cb usr t = Some (t1, id) ->
  live !! id = None /\ tab_inv t1 (<[id := mkReq ch cb usr]> live) /\
  forall id' e, <[id := mkReq ch cb usr]> live !! id' = Some e -> length (rq_channel e) <= ZCM_CHANNEL_MAXLEN ->
    exists t2 t3 left l, remove_sub id' t1 = Some (t2, Some (rq_channel e, left)) /\
      delete_sub id' t2 = Some (t3, tt) /\ tab_inv t3 (delete id' (<[id := mkReq ch cb usr]> live)) /\
      (if isRegexChannel (rq_channel e) then subsRegex t1 else subs t1) !! rq_channel e = Some l /\ length l = S left.
Proof.
  intros O E. destruct (add_sub_inv regex_valid ch cb usr t t1 id live O E) as [Hn O1].
  split_and!; [done..|]. intros id' [ch' cb' usr'] Ee Hl.
  destruct (remove_sub_short t1 _ id' ch' cb' usr' O1 Ee Hl) as (t2 & left & l & Er & El & Ell).
  destruct (remove_sub_inv _ _ _ _ _ O1 Er) as (t3 & Ed & O3). by exists t2, t3, left, l.
Qed.

(** Unsubscribing the last subscription of a channel leaves an empty list under the
    channel's name, so the receive thread goes on keeping that channel's messages and filling
    the receive queue with them, although no handler is ever called for them. *)
Theorem blocking_unsubscribe_keeps_receiving regex_match iterate (t t1 t2 : subtab) id s ch left :
  heap t !! id = Some s -> bs_regex s = false ->
  remove_sub id t = Some (t1, Some (ch, left)) -> delete_sub id t1 = Some (t2, tt) ->
  wanted regex_match iterate t2 ch = true.
Proof.
  intros E Er H1 H2. unfold remove_sub in H1. rewrite E, Er in H1.
  destruct (subs t !! bs_channel s); [|done]. destruct (deleteFromSubList _ _); [|done]. injection H1 as <- <- _.
  unfold delete_sub in H2. cbn in H2. rewrite E in H2. injection H2 as <-.
  unfold wanted. cbn. by rewrite lookup_insert_eq.
Qed.

(** A subscription to a channel longer than ZCM_CHANNEL_MAXLEN is entered under its whole
    name but looked up under its first ZCM_CHANNEL_MAXLEN bytes when it is unsubscribed, so
    unless another subscription happens to have that shorter name, unsubscribing fails with
    ZCM_EINVALID and the subscription stays. *)
Theorem blocking_unsubscribe_long regex_valid ch cb usr (t t1 : subtab) id :
  ZCM_CHANNEL_MAXLEN < length ch -> isRegexChannel ch = false ->
  subs t !! copy_channel ch = None ->
  add_sub regex_valid ch cb usr t = Some (t1, id) ->
  remove_sub id t1 = Some (t1, None).
Proof.
  intros Hl Hr Hn E. unfold add_sub in E. rewrite Hr in E. injection E as <- <-.
  unfold remove_sub. cbn [heap]. rewrite lookup_insert_eq. cbn [bs_regex bs_regexobj bs_channel subs].
  rewrite lookup_insert_ne, Hn; [done|]. intros Ec. apply (f_equal length) in Ec.
  unfold copy_channel in Ec. rewrite length_take in Ec. lia.
Qed.

(** ** Concrete tables *)

Definition one_sub : subtab * nat :=
  default (mkTab ∅ ∅ ∅ 0, 0) (add_sub (fun _ => true) (str "POSE") 1 10 (mkTab ∅ ∅ ∅ 0)).

Lemma one_sub_eq : add_sub (fun _ => true) (str "POSE") 1 10 (mkTab ∅ ∅ ∅ 0) = Some one_sub.
Proof. reflexivity. Qed.

Definition one_request : gmap nat request := {[0 := mkReq (str "POSE") 1 10]}.

Lemma one_sub_reach : table_reach (fun _ => true) one_sub.1 one_request.
Proof. apply rtc_once. exact (TSubscribe (fun _ => true) (mkTab ∅ ∅ ∅ 0) ∅ one_sub.1 0 (str "POSE") 1 10 eq_refl). Qed.

(** A second subscription, whose channel is too long: unsubscribing it fails, and it stays. *)
Definition long_name : cstr := replicate 40 65%Z.

Definition two_subs : subtab :=
  (default (mkTab ∅ ∅ ∅ 0, 0) (add_sub (fun _ => true) long_name 2 20 one_sub.1)).1.

Lemma two_subs_reach : table_reach (fun _ => true) two_subs (<[1 := mkReq long_name 2 20]> one_request).
Proof.
  eapply rtc_r; [eapply rtc_r; [exact one_sub_reach|exact (TSubscribe (fun _ => true) one_sub.1 one_request two_subs 1 long_name 2 20 eq_refl)]|].
  exact (TUnsubscribeFails (fun _ => true) two_subs _ 1 two_subs eq_refl).
Qed.

Lemma blocking_dispatch_exact_witness :
  length (dispatchMsg_calls (fun _ _ => false) map_to_list two_subs (mkMsg 3 long_name 1 [9]%Z)) = 1 /\
  wanted (fun _ _ => false) map_to_list two_subs long_name = true /\
  exists t1 left t2, remove_sub 0 two_subs = Some (t1, Some (str "POSE", left)) /\ delete_sub 0 t1 = Some (t2, tt).
Proof.
  destruct (blocking_dispatch_exact (fun _ _ => false) (fun _ => true) map_to_list two_subs
    (<[1 := mkReq long_name 2 20]> one_request) (mkMsg 3 long_name 1 [9]%Z)) as (P & W & U); [done|exact two_subs_reach|].
  split; [rewrite P; vm_compute; reflexivity|]. split; [apply W; vm_compute; discriminate|].
  apply (U 0 (mkReq (str "POSE") 1 10)); [reflexivity|cbn; unfold ZCM_CHANNEL_MAXLEN; lia].
Defined.

Lemma blocking_subs_tables_witness :
  exists t2 t3 left, remove_sub 0 one_sub.1 = Some (t2, Some (str "POSE", left)) /\ delete_sub 0 t2 = Some (t3, tt) /\ tab_inv t3 ∅.
Proof.
  destruct (blocking_subs_tables (fun _ => true) (str "POSE") 1 10 (mkTab ∅ ∅ ∅ 0) one_sub.1 ∅ 0)
    as (_ & _ & R); [exact tab_inv_empty|reflexivity|].
  destruct (R 0 (mkReq (str "POSE") 1 10)) as (t2 & t3 & left & l & E1 & E2 & O3 & _);
    [reflexivity|cbn; unfold ZCM_CHANNEL_MAXLEN; lia|].
  rewrite delete_insert_id in O3 by done. by exists t2, t3, left.
Defined.

Definition gone_sub : subtab * option (cstr * nat) :=
  default (mkTab ∅ ∅ ∅ 0, None) (remove_sub 0 one_sub.1).

Lemma blocking_unsubscribe_keeps_receiving_witness : exists t2,
  delete_sub 0 gone_sub.1 = Some (t2, tt) /\ heap t2 = ∅ /\
  wanted (fun _ _ => false) map_to_list t2 (str "POSE") = true.
Proof.
  eexists. split_and!; [reflexivity|vm_compute; reflexivity|].
  apply (blocking_unsubscribe_keeps_receiving (fun _ _ => false) map_to_list one_sub.1 gone_sub.1 _ 0
    (mkBSub (str "POSE") None 1 10) (str "POSE") 0); reflexivity.
Defined.

Lemma blocking_unsubscribe_long_witness : exists t1,
  add_sub (fun _ => true) long_name 1 10 (mkTab ∅ ∅ ∅ 0) = Some (t1, 0) /\
  remove_sub 0 t1 = Some (t1, None).
Proof.
  eexists. split; [reflexivity|].
  apply (blocking_unsubscribe_long (fun _ => true) long_name 1 10 (mkTab ∅ ∅ ∅ 0));
    [unfold ZCM_CHANNEL_MAXLEN; cbn; lia|reflexivity..].
Defined.
