(* ===== verification/Udp.v ===== *)
(** * The UDP transport (zcm/transport/udp/{udp,buffers}.cpp, buffers.hpp)

    Messages that fit a datagram travel as short packets, longer ones as
    numbered fragments that the receiver collects in a [FragBuf] per sender and
    sequence number.  Sockets are outside: [sendmsg] yields the datagrams it
    hands to sendBuffers, and received datagrams are arguments.  A FragBuf
    pointer is the index of the FragBuf in the pool's vector. *)
From S2P Require Import Prelude Bytes Transport.

Definition MTU : Z := (2 ^ 28)%Z.
Definition ZCM_MAGIC_SHORT : Z := 0x4c433032%Z.
Definition ZCM_MAGIC_LONG : Z := 0x4c433033%Z.
Definition SHORT_HEADER : nat := 8.   (* sizeof(MsgHeaderShort) *)
Definition LONG_HEADER : nat := 20.   (* sizeof(MsgHeaderLong) *)
Definition MAX_FRAG_BUF_TOTAL_SIZE : Z := (2 ^ 24)%Z.
Definition MAX_NUM_FRAG_BUFS : nat := 1000.

(** ** Packets *)

(** Network byte order: [htonl], [ntohl] and their 16-bit versions. *)
Definition htonl (v : nat) : list byte := be_split 4 (Z.of_nat v).
Definition htons (v : nat) : list byte := be_split 2 (Z.of_nat v).
Definition ntohl (l : list byte) (pos : nat) : nat := Z.to_nat (be_combine (slice l pos 4)).
Definition ntohs (l : list byte) (pos : nat) : nat := Z.to_nat (be_combine (slice l pos 2)).

(** A received datagram: [pbytes] are the bytes received, [pstale] what is left
    in the buffer behind them. *)
Record Packet := mkPacket {
  pbytes : list byte;
  pstale : list byte;
  pfrom : nat;          (* the sender's address *)
  putime : Z
}.

Definition getMagic (l : list byte) : Z := be_combine (slice l 0 4).

Definition long_header (msg_seqno msg_size fragment_offset fragment_no fragments_in_msg : nat) : list byte :=
  be_split 4 ZCM_MAGIC_LONG ++ htonl msg_seqno ++ htonl msg_size ++ htonl fragment_offset ++
  htons fragment_no ++ htons fragments_in_msg.

Definition short_header (msg_seqno : nat) : list byte :=
  be_split 4 ZCM_MAGIC_SHORT ++ htonl msg_seqno.

(** ** Sending *)

(** The two size limits depend on the platform. *)
Record limits := mkLimits { ZCM_SHORT_MESSAGE_MAX_SIZE : nat; ZCM_FRAGMENT_MAX_PAYLOAD : nat }.

(** What sendBuffers answers: [None] when it sends the whole packet, so that the
    status is the packet's size, or else another status.  An exhausted list
    answers [None]. *)
Notation status := (option Z) (only parsing).

(** The status of the call that is next. *)
Definition answer (sts : list status) : status :=
  match sts with st :: _ => st | [] => None end.

(** The loop over the fragments after the first, with [status] the answer to the
    packet before; [todo] is [nfragments - frag_no].  The packets, the last
    status and the final offset. *)
Fixpoint send_rest (fragment_size seqno nfragments : nat) (buf : list byte) (sts : list status)
    (status : status) (todo frag_no fragment_offset : nat) : list (list byte) * option Z * nat :=
  match status, todo with
  | None, S todo =>
      let fraglen := Nat.min fragment_size (length buf - fragment_offset) in
      let pkt := long_header seqno (length buf) fragment_offset frag_no nfragments ++
                 slice buf fragment_offset fraglen in
      let '(pkts, st, off) :=
        send_rest fragment_size seqno nfragments buf (tail sts) (answer sts) todo (frag_no + 1)
          (fragment_offset + fraglen) in
      (pkt :: pkts, st, off)
  | _, _ => ([], status, fragment_offset)
  end.

(** The new sequence number, the return code and the packets handed to the
    socket.  [None] is a failed assertion.  The message's buffer has [len]
    bytes, and [len] is at most the MTU the core checks. *)
Definition sendmsg (L : limits) (msg_seqno : nat) (channel : cstr) (buf : list byte)
    (sts : list status) : option (nat * Z * list (list byte)) :=
  let channel_size := length channel in
  if ZCM_CHANNEL_MAXLEN <? channel_size then Some (msg_seqno, ZCM_EINVALID, []) else
  let payload_size := channel_size + 1 + length buf in
  let next := Z.to_nat (u32 (Z.of_nat msg_seqno + 1)) in
  if payload_size <=? ZCM_SHORT_MESSAGE_MAX_SIZE L then
    let pkt := short_header msg_seqno ++ channel ++ [0%Z] ++ buf in
    Some (next, match answer sts with Some e => e | None => 0%Z end, [pkt])
  else
    let fragment_size := ZCM_FRAGMENT_MAX_PAYLOAD L in
    let nfragments := payload_size / fragment_size +
                      (if payload_size mod fragment_size =? 0 then 0 else 1) in
    if (65535 <? Z.of_nat nfragments)%Z then Some (msg_seqno, (-1)%Z, []) else
    check (channel_size + 1 <=? fragment_size) && (fragment_size - (channel_size + 1) <=? length buf) ;;
    let firstfrag_datasize := fragment_size - (channel_size + 1) in
    let pkt := long_header msg_seqno (length buf) 0 0 nfragments ++ channel ++ [0%Z] ++
               slice buf 0 firstfrag_datasize in
    let '(pkts, status, fragment_offset) :=
      send_rest fragment_size msg_seqno nfragments buf (tail sts) (answer sts) (nfragments - 1) 1
        firstfrag_datasize in
    check bool_decide (status <> Some 0%Z) || (fragment_offset =? length buf) ;;
    Some (next, 0%Z, pkt :: pkts).

(** ** Messages and fragment buffers *)

Record Message := mkMessage {
  m_utime : Z;
  m_channel : cstr;
  m_channellen : nat;
  m_data : list byte;     (* from the data pointer to the end of the buffer *)
  m_datalen : Z
}.

Record Fragment := mkFragment { offset : nat; size : nat; received : bool }.

Record FragBuf := mkFragBuf {
  last_packet_utime : Z;
  fb_msg_seqno : nat;
  fb_data_size : nat;
  fragments_remaining : nat;
  fb_channellen : nat;
  from : nat;
  fragments : list Fragment;
  allocated_size : Z;
  last_progress : Z;
  fbuf : list byte
}.

Record MessagePool := mkPool {
  fragbufs : list FragBuf;
  maxSize : Z;
  maxBuffers : nat;
  totalSize : Z
}.

Section Pool.
(** The sizes of the two structures, and what a fresh buffer of the allocator
    holds. *)
Context (sizeof_FragBuf sizeof_Fragment : Z) (alloc : nat -> list byte).

Definition pool_create : MessagePool := mkPool [] MAX_FRAG_BUF_TOTAL_SIZE MAX_NUM_FRAG_BUFS 0.

(** Remove the element at [index], the last one taking its place. *)
Definition _removeFragBuf (p : MessagePool) (index : nat) : option MessagePool :=
  f <- fragbufs p !! index ;;
  let lastIdx := length (fragbufs p) - 1 in
  l <- fragbufs p !! lastIdx ;;
  Some (mkPool (take lastIdx (<[index := l]> (fragbufs p))) (maxSize p) (maxBuffers p)
               (totalSize p - allocated_size f)).

(** The index of the least recently updated fragment buffer. *)
Fixpoint eldest_loop (l : list FragBuf) (i : nat) (best : option (nat * Z)) : option nat :=
  match l with
  | [] => fst <$> best
  | f :: l =>
      eldest_loop l (i + 1)
        (match best with
         | None => Some (i, last_packet_utime f)
         | Some (idx, u) => if (last_packet_utime f <? u)%Z then Some (i, last_packet_utime f) else best
         end)
  end.

(** The eviction loop of [addFragBuf]: each turn removes one buffer, so [fuel]
    is the number of buffers. *)
Fixpoint evict (fuel : nat) (p : MessagePool) (need : Z) : option MessagePool :=
  if negb (length (fragbufs p) =? 0) &&
     ((maxSize p <? totalSize p + need)%Z || (maxBuffers p <=? length (fragbufs p))) then
    match fuel with
    | 0 => None
    | S fuel =>
        idx <- eldest_loop (fragbufs p) 0 None ;;
        p <- _removeFragBuf p idx ;;
        evict fuel p need
    end
  else Some p.

(** A new fragment buffer at the end of the vector; its fields are zero, its
    bytes are not. *)
Definition addFragBuf (p : MessagePool) (data_size fragments_in_msg : nat) (now : Z)
  : option (MessagePool * nat) :=
  let allocated := (Z.of_nat data_size + sizeof_FragBuf + Z.of_nat fragments_in_msg * sizeof_Fragment)%Z in
  p <- evict (length (fragbufs p)) p allocated ;;
  let f := mkFragBuf 0 0 0 0 0 0 (replicate fragments_in_msg (mkFragment 0 0 false)) allocated now
             (alloc data_size) in
  Some (mkPool (fragbufs p ++ [f]) (maxSize p) (maxBuffers p) (totalSize p + allocated),
        length (fragbufs p)).

Fixpoint lookupFragBuf (l : list FragBuf) (key msg_seqno : nat) (i : nat) : option nat :=
  match l with
  | [] => None
  | f :: l => if (from f =? key) && (fb_msg_seqno f =? msg_seqno) then Some i
              else lookupFragBuf l key msg_seqno (i + 1)
  end.

Definition FIVE_SECONDS : Z := 5000000000.  (* in nanoseconds *)

(** The loop of [expireFragBufs]; every turn passes or removes one buffer. *)
Fixpoint expire_loop (fuel : nat) (p : MessagePool) (now : Z) (i : nat) : option MessagePool :=
  match fuel with
  | 0 => Some p
  | S fuel =>
      match fragbufs p !! i with
      | None => Some p
      | Some f =>
          if (FIVE_SECONDS <=? now - last_progress f)%Z then
            p <- _removeFragBuf p i ;; expire_loop fuel p now i
          else expire_loop fuel p now (i + 1)
      end
  end.

Definition expireFragBufs (p : MessagePool) (now : Z) : option MessagePool :=
  expire_loop (length (fragbufs p)) p now 0.

Definition set_fragbuf (p : MessagePool) (i : nat) (f : FragBuf) : MessagePool :=
  mkPool (<[i := f]> (fragbufs p)) (maxSize p) (maxBuffers p) (totalSize p).

(** ** Receiving *)

(** The distance to the first zero byte among the first [n], as memchr finds it. *)
Fixpoint memchr0 (l : list byte) (n : nat) : option nat :=
  match n, l with
  | S n, b :: l => if (b =? 0)%Z then Some 0 else S <$> memchr0 l n
  | _, _ => None
  end.

(** [strlen] over memory that ends with the buffer. *)
Fixpoint strlen (l : list byte) : option nat :=
  match l with
  | [] => None
  | b :: l => if (b =? 0)%Z then Some 0 else S <$> strlen l
  end.

(** The result of a packet: [Some m] a message, or a packet dropped or stored;
    [bad] says that it was counted as discarded. *)
Definition recvShort (pkt : Packet) : option (option Message * bool) :=
  let mem := pbytes pkt ++ pstale pkt in
  clen <- strlen (drop SHORT_HEADER mem) ;;
  if ZCM_CHANNEL_MAXLEN <? clen then Some (None, true) else
  let data_offset := SHORT_HEADER + clen + 1 in
  Some (Some (mkMessage (putime pkt) (slice mem SHORT_HEADER clen) clen (drop data_offset mem)
                (wrapu 64 (Z.of_nat (length (pbytes pkt)) - Z.of_nat data_offset))), false).

(** Copy into the fragment buffer; a copy outside it is undefined. *)
Definition memcpy (dst : list byte) (pos : nat) (src : list byte) : option (list byte) :=
  check pos + length src <=? length dst ;; Some (write_at dst pos src).

(** The header fields of a fragment and its bytes, after the checks that need
    no fragment buffer; the channel is that of fragment zero. *)
Record frag := mkFrag {
  g_seqno : nat; g_data_size : nat; g_offset : nat; g_no : nat; g_count : nat;
  g_payload_offset : nat; g_channel : cstr; g_data : list byte
}.

Definition parse_fragment (bytes : list byte) : option frag :=
  let sz := length bytes in
  if sz <? LONG_HEADER then None else
  let msg_seqno := ntohl bytes 4 in
  let data_size := ntohl bytes 8 in
  let fragment_offset := ntohl bytes 12 in
  let fragment_no := ntohs bytes 16 in
  let fragments_in_msg := ntohs bytes 18 in
  let data_start := drop LONG_HEADER bytes in
  if (MTU <? Z.of_nat data_size)%Z || (fragments_in_msg =? 0) || (fragments_in_msg <=? fragment_no)
  then None else
  let payload_offset := Z.to_nat (Z.min (Z.of_nat ZCM_CHANNEL_MAXLEN + 1) (MTU - Z.of_nat data_size)) in
  '(channel, data) <-
    (if fragment_no =? 0 then
       match memchr0 data_start payload_offset with
       | None => None
       | Some channel_sz =>
           if negb (fragment_offset =? 0) then None
           else Some (take channel_sz data_start, drop (channel_sz + 1) data_start)
       end
     else Some ([], data_start)) ;;
  let frag_size := length data in
  if (data_size <? fragment_offset) || (data_size - fragment_offset <? frag_size) ||
     (negb (fragment_no =? 0) && (frag_size =? 0)) ||
     ((fragment_no + 1 =? fragments_in_msg) && negb (fragment_offset + frag_size =? data_size))
  then None
  else Some (mkFrag msg_seqno data_size fragment_offset fragment_no fragments_in_msg payload_offset
               channel data).

(** The first place a received duplicate may differ from what is stored. *)
Definition same_fragment (fb : FragBuf) (fr : Fragment) (g : frag) : bool :=
  (offset fr =? g_offset g) && (size fr =? length (g_data g)) &&
  bool_decide (slice (fbuf fb) (g_payload_offset g + g_offset g) (length (g_data g)) = g_data g) &&
  (negb (g_no g =? 0) ||
   (fb_channellen fb =? length (g_channel g)) &&
   bool_decide (slice (fbuf fb) 0 (length (g_channel g) + 1) = g_channel g ++ [0%Z])).

(** The neighbours already received touch this fragment. *)
Definition adjacent (fb : FragBuf) (g : frag) : bool :=
  ((g_no g =? 0) ||
   match fragments fb !! (g_no g - 1) with
   | Some prev => negb (received prev) || (offset prev + size prev =? g_offset g)
   | None => false
   end) &&
  (negb (g_no g + 1 <? g_count g) ||
   match fragments fb !! (g_no g + 1) with
   | Some next => negb (received next) || (g_offset g + length (g_data g) =? offset next)
   | None => false
   end).

(** Copy the fragment into the buffer. *)
Definition store_fragment (fb : FragBuf) (g : frag) (utime now : Z) : option FragBuf :=
  b <- (if g_no g =? 0 then memcpy (fbuf fb) 0 (g_channel g ++ [0%Z]) else Some (fbuf fb)) ;;
  b <- memcpy b (g_payload_offset g + g_offset g) (g_data g) ;;
  Some (mkFragBuf utime (fb_msg_seqno fb) (fb_data_size fb) (fragments_remaining fb - 1)
          (if g_no g =? 0 then length (g_channel g) else fb_channellen fb) (from fb)
          (<[g_no g := mkFragment (g_offset g) (length (g_data g)) true]> (fragments fb))
          (allocated_size fb) now b).

(** The second half of [recvFragment], with the buffer at hand. *)
Definition accept_fragment (p : MessagePool) (i : nat) (pkt : Packet) (g : frag) (now : Z)
  : option (MessagePool * option Message * bool) :=
  fb <- fragbufs p !! i ;;
  fr <- fragments fb !! g_no g ;;
  if received fr then
    if same_fragment fb fr g then Some (p, None, false)
    else p <- _removeFragBuf p i ;; Some (p, None, true)
  else if negb (adjacent fb g) then p <- _removeFragBuf p i ;; Some (p, None, true)
  else
    fb <- store_fragment fb g (putime pkt) now ;;
    let p := set_fragbuf p i fb in
    if 0 <? fragments_remaining fb then Some (p, None, false) else
    let msg := mkMessage (last_packet_utime fb) (cstring (fbuf fb)) (fb_channellen fb)
                 (drop (g_payload_offset g) (fbuf fb)) (Z.of_nat (g_data_size g)) in
    p <- _removeFragBuf p i ;;
    Some (p, Some msg, false).

Definition recvFragment (p : MessagePool) (pkt : Packet) (now : Z)
  : option (MessagePool * option Message * bool) :=
  match parse_fragment (pbytes pkt) with
  | None => Some (p, None, true)
  | Some g =>
      match lookupFragBuf (fragbufs p) (pfrom pkt) (g_seqno g) 0 with
      | Some i =>
          fb <- fragbufs p !! i ;;
          if negb (fb_data_size fb =? g_data_size g) || negb (length (fragments fb) =? g_count g) then
            p <- _removeFragBuf p i ;; Some (p, None, true)
          else accept_fragment p i pkt g now
      | None =>
          '(p, i) <- addFragBuf p (g_payload_offset g + g_data_size g) (g_count g) now ;;
          fb <- fragbufs p !! i ;;
          accept_fragment
            (set_fragbuf p i
               (mkFragBuf (last_packet_utime fb) (g_seqno g) (g_data_size g) (g_count g)
                  (fb_channellen fb) (pfrom pkt) (fragments fb) (allocated_size fb)
                  (last_progress fb) (fbuf fb)))
            i pkt g now
      end
  end.

(** ** The transport *)

(** [udp_m] is the message handed out last; the counters are those of the
    struct. *)
Record UDP := mkUDP {
  pool : MessagePool;
  udp_rx : Z;
  udp_discarded_bad : Z;
  msg_seqno : nat;
  udp_m : option Message
}.

(** One packet, or the failure of the receive, as the loop of [readMessage]
    treats it. *)
Definition readPacket (u : UDP) (pkt : option Packet) (now : Z) : option (UDP * option Message) :=
  let bad u := mkUDP (pool u) (udp_rx u) (u32 (udp_discarded_bad u + 1)) (msg_seqno u) (udp_m u) in
  match pkt with
  | None => Some (bad u, None)
  | Some pkt =>
      p <- expireFragBufs (pool u) now ;;
      let u := mkUDP p (udp_rx u) (udp_discarded_bad u) (msg_seqno u) (udp_m u) in
      if length (pbytes pkt) <? SHORT_HEADER then Some (bad u, None) else
      let magic := getMagic (pbytes pkt) in
      if (magic =? ZCM_MAGIC_SHORT)%Z then
        '(om, isbad) <- recvShort pkt ;;
        if (isbad : bool) then Some (bad u, om) else
        Some (mkUDP (pool u) (u32 (udp_rx u + 1)) (udp_discarded_bad u) (msg_seqno u) (udp_m u), om)
      else if (magic =? ZCM_MAGIC_LONG)%Z then
        '(p, om, isbad) <- recvFragment (pool u) pkt now ;;
        let u := mkUDP p (udp_rx u) (udp_discarded_bad u) (msg_seqno u) (udp_m u) in
        Some (if (isbad : bool) then bad u else u, om)
      else Some (bad u, None)
  end.

(** The loop of [readMessage] over what arrives before the timeout. *)
Fixpoint read_loop (u : UDP) (arrivals : list (option Packet * Z)) : option (UDP * option Message) :=
  match arrivals with
  | [] => Some (u, None)
  | (pkt, now) :: arrivals =>
      '(u, om) <- readPacket u pkt now ;;
      match om with
      | Some m => Some (u, Some m)
      | None => read_loop u arrivals
      end
  end.

Definition readMessage (u : UDP) (now : Z) (arrivals : list (option Packet * Z))
  : option (UDP * option Message) :=
  p <- expireFragBufs (pool u) now ;;
  read_loop (mkUDP p (udp_rx u) (udp_discarded_bad u) (msg_seqno u) (udp_m u)) arrivals.

Definition udp_recvmsg (u : UDP) (now : Z) (arrivals : list (option Packet * Z))
  : option (UDP * Z * option zcm_msg_t) :=
  '(u, om) <- readMessage u now arrivals ;;
  let u := mkUDP (pool u) (udp_rx u) (udp_discarded_bad u) (msg_seqno u) om in
  match om with
  | None => Some (u, ZCM_EAGAIN, None)
  | Some m => Some (u, ZCM_EOK,
                Some (mkMsg (m_utime m) (m_channel m) (m_datalen m) (take (Z.to_nat (m_datalen m)) (m_data m))))
  end.
End Pool.
