(* ===== verification/UdpProps.v ===== *)
(** * Reassembly in the UDP transport

    What a fragment buffer holds is described by the list of the fragments it
    accepted, in order of arrival ([fb_rep]); the pool's accounting and the
    bounds of its buffers follow ([pool_rep]). *)
From S2P Require Import Prelude Bytes Transport Udp.

#[export] Instance frag_eq_dec : EqDecision frag.
Proof. solve_decision. Defined.

Definition payload_offset (data_size : nat) : nat :=
  Z.to_nat (Z.min (Z.of_nat ZCM_CHANNEL_MAXLEN + 1) (MTU - Z.of_nat data_size)).

Definition g_end (g : frag) : nat := g_offset g + length (g_data g).

(** What the checks on a single fragment establish. *)
Record frag_ok (g : frag) : Prop := {
  go_size : (Z.of_nat (g_data_size g) <= MTU)%Z;
  go_no : g_no g < g_count g;
  go_off : g_payload_offset g = payload_offset (g_data_size g);
  go_chan : g_no g = 0 -> Forall (fun b => b <> 0%Z) (g_channel g) /\
                          length (g_channel g) < payload_offset (g_data_size g) /\ g_offset g = 0;
  go_end : g_end g <= g_data_size g;
  go_data : g_no g <> 0 -> 0 < length (g_data g);
  go_last : g_no g + 1 = g_count g -> g_end g = g_data_size g
}.

Lemma memchr0_Some l n k : memchr0 l n = Some k ->
  k < n /\ k < length l /\ Forall (fun b => b <> 0%Z) (take k l) /\ l !! k = Some 0%Z.
Proof.
  revert n k. induction l as [|b l IH]; intros [|n] k; simpl; try done.
  destruct (b =? 0)%Z eqn:E; bool_prop.
  - intros [= <-]. subst. repeat split; try lia; constructor.
  - destruct (memchr0 l n) as [j|] eqn:Ej; [|done]. intros [= <-].
    destruct (IH _ _ Ej) as (?&?&?&?). repeat split; simpl; try lia; auto.
Qed.

Lemma parse_fragment_ok bytes g : parse_fragment bytes = Some g -> frag_ok g.
Proof.
  unfold parse_fragment. cbv zeta. intros H. destruct (_ <? LONG_HEADER); [done|].
  revert H. generalize (ntohl bytes 4) (ntohl bytes 8) (ntohl bytes 12) (ntohs bytes 16) (ntohs bytes 18).
  intros sq ds off no n H. destruct ((MTU <? _)%Z || _ || _) eqn:E1; [done|]. bool_prop.
  fold (payload_offset ds) in H.
  destruct (no =? 0) eqn:E2; bool_prop; simpl in H.
  - destruct (memchr0 _ _) as [k|] eqn:Ek; [|done]. apply memchr0_Some in Ek as (?&?&?&?).
    destruct (negb (off =? 0)) eqn:E3; [done|]. bool_prop.
    case_match eqn:E4; [done|]. injection H as <-.
    apply orb_false_elim in E4 as [E4 E5]. rewrite orb_false_r in E4. bool_prop.
    constructor; unfold g_end; simpl in *; intros; try lia.
    + split; [done|]. rewrite length_take. split; lia.
    + apply andb_false_iff in E5 as [?|?]; bool_prop; lia.
  - case_match eqn:E4; [done|]. injection H as <-. bool_prop.
    constructor; unfold g_end; simpl in *; intros; try lia.
    match goal with H : _ && _ = false |- _ => apply andb_false_iff in H as [?|?]; bool_prop; lia end.
Qed.

(** ** The bytes of a fragment buffer *)

(** The writes of one accepted fragment. *)
Definition put_frag (b : list byte) (g : frag) : list byte :=
  write_at (if g_no g =? 0 then write_at b 0 (g_channel g ++ [0%Z]) else b)
    (g_payload_offset g + g_offset g) (g_data g).

Definition fits (ds n : nat) (g : frag) : Prop :=
  frag_ok g /\ g_data_size g = ds /\ g_count g = n.

Lemma chan_bound ds n g : fits ds n g -> g_no g = 0 ->
  length (g_channel g ++ [0%Z]) <= payload_offset ds.
Proof. intros (G&<-&_) E. rewrite length_app. simpl. destruct (go_chan _ G E). lia. Qed.

Lemma data_bound ds n g : fits ds n g ->
  g_payload_offset g + g_offset g + length (g_data g) <= payload_offset ds + ds.
Proof. intros (G&<-&_). rewrite (go_off _ G). pose proof (go_end _ G). unfold g_end in *. lia. Qed.

Lemma length_put_frag ds n b g : fits ds n g -> length b = payload_offset ds + ds ->
  length (put_frag b g) = length b.
Proof.
  intros F L. pose proof (data_bound _ _ _ F). unfold put_frag. destruct (g_no g =? 0) eqn:E; bool_prop.
  - pose proof (chan_bound _ _ _ F E).
    rewrite length_write_at; rewrite length_write_at; simpl; lia.
  - apply length_write_at. lia.
Qed.

Lemma length_put_frags ds n ws b : Forall (fits ds n) ws -> length b = payload_offset ds + ds ->
  length (foldl put_frag b ws) = payload_offset ds + ds.
Proof.
  intros F. revert b. induction F as [|g ws Hg _ IH]; intros b L; simpl; [done|].
  apply IH. by rewrite (length_put_frag ds n).
Qed.

(** A byte the fragment does not write keeps its value. *)
Lemma lookup_put_frag_ne ds n b g i : fits ds n g -> length b = payload_offset ds + ds ->
  (g_no g <> 0 \/ length (g_channel g) < i) ->
  (i < payload_offset ds + g_offset g \/ payload_offset ds + g_end g <= i) ->
  put_frag b g !! i = b !! i.
Proof.
  intros F L Hc Hi. pose proof (data_bound _ _ _ F). unfold put_frag.
  assert (g_payload_offset g = payload_offset ds) as Ep by (destruct F as (G&<-&_); apply (go_off _ G)).
  unfold g_end in *. rewrite Ep in *. destruct (g_no g =? 0) eqn:E; bool_prop.
  - pose proof (chan_bound _ _ _ F E) as Hb. rewrite length_app in Hb. simpl in Hb.
    assert (length (write_at b 0 (g_channel g ++ [0%Z])) = length b) as L'.
    { apply length_write_at. rewrite length_app. simpl. lia. }
    rewrite lookup_write_at_ne, lookup_write_at_ne; [done|..]; rewrite ?length_app; simpl; lia.
  - apply lookup_write_at_ne; lia.
Qed.

Lemma slice_ext (b b' : list byte) pos n : length b = length b' ->
  (forall i, pos <= i < pos + n -> b !! i = b' !! i) -> slice b pos n = slice b' pos n.
Proof.
  intros L H. unfold slice. apply list_eq. intros i.
  destruct (decide (i < n)).
  - rewrite !lookup_take_lt, !lookup_drop by lia. apply H. lia.
  - rewrite !lookup_take_ge by lia. done.
Qed.

Lemma slice_put_frag_ne ds n b g pos k : fits ds n g -> length b = payload_offset ds + ds ->
  (g_no g <> 0 \/ length (g_channel g) < pos) ->
  (pos + k <= payload_offset ds + g_offset g \/ payload_offset ds + g_end g <= pos) ->
  slice (put_frag b g) pos k = slice b pos k.
Proof.
  intros F L Hc Hi. apply slice_ext; [by apply (length_put_frag ds n)|].
  intros. apply (lookup_put_frag_ne ds n); auto; lia.
Qed.

Lemma slice_put_frags_ne ds n ws b pos k : Forall (fits ds n) ws -> length b = payload_offset ds + ds ->
  (forall g, g ∈ ws -> (g_no g <> 0 \/ length (g_channel g) < pos) /\
    (pos + k <= payload_offset ds + g_offset g \/ payload_offset ds + g_end g <= pos)) ->
  slice (foldl put_frag b ws) pos k = slice b pos k.
Proof.
  intros F. revert b. induction F as [|g ws Hg _ IH]; intros b L H; simpl; [done|].
  rewrite IH.
  - apply (slice_put_frag_ne ds n); auto; apply (H g); left.
  - by rewrite (length_put_frag ds n).
  - intros g' E. apply H. by right.
Qed.

Lemma slice_put_frag ds n b g : fits ds n g -> length b = payload_offset ds + ds ->
  slice (put_frag b g) (payload_offset ds + g_offset g) (length (g_data g)) = g_data g.
Proof.
  intros F L. pose proof (data_bound _ _ _ F).
  assert (g_payload_offset g = payload_offset ds) as Ep by (destruct F as (G&<-&_); apply (go_off _ G)).
  unfold put_frag. rewrite Ep in *. apply slice_write_at.
  destruct (g_no g =? 0) eqn:E; bool_prop; [|lia].
  pose proof (chan_bound _ _ _ F E). rewrite length_write_at; lia.
Qed.

Lemma slice_put_chan ds n b g : fits ds n g -> length b = payload_offset ds + ds -> g_no g = 0 ->
  slice (put_frag b g) 0 (length (g_channel g) + 1) = g_channel g ++ [0%Z].
Proof.
  intros F L E. pose proof (data_bound _ _ _ F). pose proof (chan_bound _ _ _ F E) as Hb.
  assert (g_payload_offset g = payload_offset ds) as Ep by (destruct F as (G&<-&_); apply (go_off _ G)).
  rewrite length_app in Hb. simpl in Hb.
  transitivity (slice (write_at b 0 (g_channel g ++ [0%Z])) 0 (length (g_channel g ++ [0%Z]))).
  - rewrite length_app. simpl. apply slice_ext.
    + rewrite (length_put_frag ds n), length_write_at; auto; rewrite ?length_app; simpl; lia.
    + intros i Hi. unfold put_frag. rewrite E. simpl.
      apply lookup_write_at_ne; rewrite ?length_write_at; rewrite ?length_app; simpl; lia.
  - apply slice_write_at. rewrite length_app. simpl. lia.
Qed.

(** ** Fragments that do not overlap *)

Definition ordered (ws : list frag) : Prop :=
  forall g g', g ∈ ws -> g' ∈ ws -> g_no g < g_no g' -> g_end g <= g_offset g'.

Lemma NoDup_later (l1 l2 : list frag) g g' : NoDup (g_no <$> l1 ++ g :: l2) -> g' ∈ l2 -> g_no g' <> g_no g.
Proof.
  rewrite fmap_app. intros (_&_&N)%NoDup_app H E. simpl in N. apply NoDup_cons in N as [N _].
  apply N. rewrite <- E. by apply list_elem_of_fmap_2.
Qed.

Section Ordered.
Context (ds n : nat) (ws : list frag) (F : Forall (fits ds n) ws) (N : NoDup (g_no <$> ws)).
Context (b : list byte) (Lb : length b = payload_offset ds + ds).

(** Each fragment is found where it was written, whatever the order. *)
Lemma slice_ordered g : ordered ws -> g ∈ ws ->
  slice (foldl put_frag b ws) (payload_offset ds + g_offset g) (length (g_data g)) = g_data g.
Proof.
  intros O Hg. destruct (list_elem_of_split _ _ Hg) as (l1&l2&E). rewrite E in F, N, O, Hg |- *.
  rewrite foldl_app. simpl. apply Forall_app in F as [F1 F2]. apply Forall_cons in F2 as [Fg F2].
  assert (length (foldl put_frag b l1) = payload_offset ds + ds) as L1 by (by apply (length_put_frags ds n)).
  rewrite (slice_put_frags_ne ds n); [by apply (slice_put_frag ds n)|done| |].
  - by rewrite (length_put_frag ds n).
  - intros g' Hg'. pose proof (NoDup_later _ _ _ _ N Hg') as Hne.
    assert (g' ∈ l1 ++ g :: l2) as Hg2 by set_solver. split.
    + destruct (decide (g_no g' = 0)) as [E0|?]; [right|by left].
      assert (fits ds n g') as (G&<-&_) by (rewrite Forall_forall in F2; auto).
      destruct (go_chan _ G E0) as (_&?&_). lia.
    + unfold g_end. destruct (decide (g_no g' < g_no g)).
      * right. pose proof (O g' g Hg2 Hg ltac:(done)). unfold g_end in *. lia.
      * left. pose proof (O g g' Hg Hg2 ltac:(lia)). unfold g_end in *. lia.
Qed.

Lemma chan_ordered g : g ∈ ws -> g_no g = 0 ->
  slice (foldl put_frag b ws) 0 (length (g_channel g) + 1) = g_channel g ++ [0%Z].
Proof.
  intros Hg E0. destruct (list_elem_of_split _ _ Hg) as (l1&l2&E). rewrite E in F, N |- *.
  rewrite foldl_app. simpl. apply Forall_app in F as [F1 F2]. apply Forall_cons in F2 as [Fg F2].
  assert (length (foldl put_frag b l1) = payload_offset ds + ds) as L1 by (by apply (length_put_frags ds n)).
  pose proof (chan_bound _ _ _ Fg E0) as Hb. rewrite length_app in Hb. simpl in Hb.
  rewrite (slice_put_frags_ne ds n); [by apply (slice_put_chan ds n)|done| |].
  - by rewrite (length_put_frag ds n).
  - intros g' Hg'. pose proof (NoDup_later _ _ _ _ N Hg'). split; [left|]; lia.
Qed.
End Ordered.

(** ** Complete sets of fragments *)

(** Neighbours meet, the check made when the second of two arrives. *)
Definition chain (ws : list frag) : Prop :=
  forall g g', g ∈ ws -> g' ∈ ws -> g_no g' = g_no g + 1 -> g_end g = g_offset g'.

Definition payload (gs : list frag) : list byte := mjoin (g_data <$> gs).

Lemma payload_app gs1 gs2 : payload (gs1 ++ gs2) = payload gs1 ++ payload gs2.
Proof. unfold payload. by rewrite fmap_app, join_app. Qed.

(** As many distinct fragments as the message has, put in their order. *)
Lemma sort_frags ds n ws : Forall (fits ds n) ws -> NoDup (g_no <$> ws) -> length ws = n ->
  exists gs, gs ≡ₚ ws /\ g_no <$> gs = seq 0 n.
Proof.
  intros F N L.
  assert (seq 0 n ≡ₚ g_no <$> ws) as P.
  { symmetry. apply submseteq_length_Permutation; [|by rewrite length_seq, length_fmap, L].
    apply NoDup_submseteq; [done|]. intros i (g&->&Hg)%list_elem_of_fmap.
    apply elem_of_seq. rewrite Forall_forall in F. destruct (F _ Hg) as (G&_&<-).
    pose proof (go_no _ G). lia. }
  apply Permutation_map_inv in P as (gs&E&P). by exists gs.
Qed.

Lemma nos_lookup (gs : list frag) n i g : g_no <$> gs = seq 0 n -> gs !! i = Some g -> g_no g = i.
Proof.
  intros E H. assert ((g_no <$> gs) !! i = Some (g_no g)) as H' by (by rewrite list_lookup_fmap, H).
  rewrite E in H'. apply lookup_seq in H'. lia.
Qed.

Section Complete.
Context (ds n : nat) (gs : list frag).
Context (F : Forall (fits ds n) gs) (Nos : g_no <$> gs = seq 0 n) (C : chain gs).

(** The fragments lie one behind the other. *)
Lemma offset_payload i g : gs !! i = Some g -> g_offset g = length (payload (take i gs)).
Proof.
  revert g. induction i as [|i IH]; intros g H.
  - simpl. assert (fits ds n g) as (G&_) by (eapply Forall_lookup_1; eauto).
    by apply (go_chan _ G), (nos_lookup gs n).
  - destruct (lookup_lt_is_Some_2 gs i) as [g' H'].
    { apply lookup_lt_Some in H. lia. }
    rewrite (take_S_r _ _ _ H'), payload_app, length_app, <- (IH _ H').
    unfold payload. simpl. rewrite app_nil_r. symmetry. apply C.
    + by eapply list_elem_of_lookup_2.
    + by eapply list_elem_of_lookup_2.
    + rewrite (nos_lookup gs n i g' Nos H'), (nos_lookup gs n (S i) g Nos H). lia.
Qed.

Lemma end_payload i g : gs !! i = Some g -> g_end g = length (payload (take (S i) gs)).
Proof.
  intros H. rewrite (take_S_r _ _ _ H), payload_app, length_app, <- (offset_payload _ _ H).
  unfold payload. simpl. by rewrite app_nil_r.
Qed.

Lemma payload_take_le i j : i <= j -> length (payload (take i gs)) <= length (payload (take j gs)).
Proof.
  intros H. replace (take i gs) with (take i (take j gs)) by (rewrite take_take; f_equal; lia).
  rewrite <- (take_drop i (take j gs)) at 2. rewrite payload_app, length_app. lia.
Qed.

Lemma frags_disjoint g g' : g ∈ gs -> g' ∈ gs -> g_no g < g_no g' -> g_end g <= g_offset g'.
Proof.
  intros [i H]%list_elem_of_lookup_1 [j H']%list_elem_of_lookup_1.
  rewrite (nos_lookup gs n i g Nos H), (nos_lookup gs n j g' Nos H').
  intros. rewrite (end_payload _ _ H), (offset_payload _ _ H'). apply payload_take_le. lia.
Qed.

Lemma payload_size : 0 < n -> length (payload gs) = ds.
Proof.
  intros Hn. assert (length gs = n) as L by (rewrite <- (length_fmap g_no), Nos; apply length_seq).
  destruct (lookup_lt_is_Some_2 gs (n - 1)) as [g H]; [lia|].
  pose proof (end_payload _ _ H) as E. rewrite take_ge in E by lia. rewrite <- E.
  assert (fits ds n g) as (G&<-&En) by (eapply Forall_lookup_1; eauto).
  apply (go_last _ G). rewrite (nos_lookup gs n _ _ Nos H). lia.
Qed.

Context (ws : list frag) (P : gs ≡ₚ ws) (b : list byte) (Lb : length b = payload_offset ds + ds).

Lemma ws_fits : Forall (fits ds n) ws.
Proof. by rewrite <- P. Qed.

(** No later fragment disturbs what one wrote. *)
Lemma slice_final g : g ∈ gs ->
  slice (foldl put_frag b ws) (payload_offset ds + g_offset g) (length (g_data g)) = g_data g.
Proof.
  intros Hg. apply (slice_ordered ds n); auto using ws_fits.
  - rewrite <- P, Nos. apply NoDup_seq.
  - intros x y. rewrite <- P. apply frags_disjoint.
  - by rewrite <- P.
Qed.

Lemma slice_prefix i : i <= length gs ->
  slice (foldl put_frag b ws) (payload_offset ds) (length (payload (take i gs))) = payload (take i gs).
Proof.
  induction i as [|i IH]; intros Hi; [done|].
  destruct (lookup_lt_is_Some_2 gs i) as [g H]; [lia|].
  rewrite (take_S_r _ _ _ H), payload_app, length_app, slice_app, IH by lia. f_equal.
  rewrite <- (offset_payload _ _ H). unfold payload. simpl. rewrite app_nil_r.
  apply slice_final. by eapply list_elem_of_lookup_2.
Qed.

(** The buffer holds the payloads one behind the other. *)
Lemma data_final : 0 < n -> drop (payload_offset ds) (foldl put_frag b ws) = payload gs.
Proof.
  intros Hn. pose proof (slice_prefix (length gs) ltac:(done)) as H. rewrite firstn_all in H.
  rewrite <- H. unfold slice. symmetry. apply take_ge.
  rewrite length_drop, (length_put_frags ds n) by auto using ws_fits. rewrite payload_size by done. lia.
Qed.

End Complete.

(** ** The pool *)

Section PoolInv.
Context (sizeof_FragBuf sizeof_Fragment : Z) (alloc : nat -> list byte).
Context (alloc_length : forall n, length (alloc n) = n).
Context (fb_pos : (0 < sizeof_FragBuf)%Z) (fr_nonneg : (0 <= sizeof_Fragment)%Z).

(** The fragment came in a datagram of the history, from this sender. *)
Definition came (H : list Packet) (sender seqno : nat) (g : frag) : Prop :=
  g_seqno g = seqno /\ exists pkt, pkt ∈ H /\ pfrom pkt = sender /\ parse_fragment (pbytes pkt) = Some g.

(** [ws] are the fragments the buffer accepted, in order of arrival. *)
Record fb_rep (H : list Packet) (fb : FragBuf) (ws : list frag) : Prop := {
  fr_fits : Forall (fits (fb_data_size fb) (length (fragments fb))) ws;
  fr_came : Forall (came H (from fb) (fb_msg_seqno fb)) ws;
  fr_nodup : NoDup (g_no <$> ws);
  fr_chain : chain ws;
  fr_stored : forall g, g ∈ ws ->
    fragments fb !! g_no g = Some (mkFragment (g_offset g) (length (g_data g)) true);
  fr_received : forall i fr, fragments fb !! i = Some fr -> received fr = true -> i ∈ g_no <$> ws;
  fr_remaining : fragments_remaining fb + length ws = length (fragments fb);
  fr_size : (Z.of_nat (fb_data_size fb) <= MTU)%Z;
  fr_bytes : fbuf fb = foldl put_frag (alloc (payload_offset (fb_data_size fb) + fb_data_size fb)) ws;
  fr_channellen : forall g, g ∈ ws -> g_no g = 0 -> fb_channellen fb = length (g_channel g);
  fr_allocated : allocated_size fb =
    (Z.of_nat (payload_offset (fb_data_size fb) + fb_data_size fb) + sizeof_FragBuf +
     Z.of_nat (length (fragments fb)) * sizeof_Fragment)%Z
}.

(** A buffer of the pool still waits for a fragment. *)
Definition fb_inv (H : list Packet) (fb : FragBuf) : Prop :=
  0 < fragments_remaining fb /\ exists ws, fb_rep H fb ws.

Definition allocated (l : list FragBuf) : Z := foldr (fun fb z => (allocated_size fb + z)%Z) 0%Z l.

Record pool_rep (H : list Packet) (p : MessagePool) : Prop := {
  pr_bufs : Forall (fb_inv H) (fragbufs p);
  pr_total : totalSize p = allocated (fragbufs p);
  pr_limits : maxSize p = MAX_FRAG_BUF_TOTAL_SIZE /\ maxBuffers p = MAX_NUM_FRAG_BUFS;
  pr_budget : (totalSize p <= maxSize p)%Z \/ length (fragbufs p) <= 1;
  pr_count : length (fragbufs p) <= maxBuffers p
}.

Lemma came_mono H pkt s q g : came H s q g -> came (pkt :: H) s q g.
Proof. intros (E&p'&?&?&?). split; [done|]. exists p'. split; [by right|done]. Qed.

Lemma fb_rep_mono H pkt fb ws : fb_rep H fb ws -> fb_rep (pkt :: H) fb ws.
Proof.
  intros []. constructor; auto. eapply Forall_impl; [eassumption|]. intros g. apply came_mono.
Qed.

Lemma pool_rep_mono H pkt p : pool_rep H p -> pool_rep (pkt :: H) p.
Proof.
  intros []. constructor; auto. eapply Forall_impl; [eassumption|].
  intros fb (?&ws&?). split; [done|]. exists ws. by apply fb_rep_mono.
Qed.

Lemma pool_rep_create : pool_rep [] pool_create.
Proof. constructor; simpl; auto; unfold MAX_FRAG_BUF_TOTAL_SIZE, MAX_NUM_FRAG_BUFS; lia. Qed.

Lemma allocated_app l1 l2 : allocated (l1 ++ l2) = (allocated l1 + allocated l2)%Z.
Proof. unfold allocated. induction l1; simpl; [done|]. rewrite IHl1. lia. Qed.

Lemma allocated_perm l1 l2 : l1 ≡ₚ l2 -> allocated l1 = allocated l2.
Proof. induction 1; simpl; lia. Qed.

Lemma fb_inv_allocated H fb : fb_inv H fb -> (0 < allocated_size fb)%Z.
Proof. intros (_&ws&[]). rewrite fr_allocated0. nia. Qed.

Lemma allocated_nonneg H l : Forall (fb_inv H) l -> (0 <= allocated l)%Z.
Proof.
  induction 1 as [|fb l Hf _ IH]; simpl; [done|]. pose proof (fb_inv_allocated _ _ Hf). lia.
Qed.

(** Removing a buffer removes just that one, up to order. *)
Lemma removeFragBuf_perm p i fb : fragbufs p !! i = Some fb ->
  exists p', _removeFragBuf p i = Some p' /\ fb :: fragbufs p' ≡ₚ fragbufs p /\
    totalSize p' = (totalSize p - allocated_size fb)%Z /\
    maxSize p' = maxSize p /\ maxBuffers p' = maxBuffers p.
Proof.
  intros E. unfold _removeFragBuf. rewrite E. pose proof (lookup_lt_Some _ _ _ E) as Hi.
  destruct (exists_last (l := fragbufs p)) as (l&x&El); [by intros E'; rewrite E' in E|].
  rewrite El in E, Hi |- *. rewrite length_app in Hi |- *. simpl in *.
  replace (length l + 1 - 1) with (length l) by lia.
  rewrite (list_lookup_middle l [] x (length l)) by done. eexists. split; [done|]. simpl.
  split; [|done]. destruct (decide (i = length l)) as [->|Hne].
  - rewrite (list_lookup_middle l [] x (length l)) in E by done. injection E as ->.
    rewrite take_insert_ge, take_app_length by lia. apply Permutation_cons_append.
  - rewrite insert_app_l by lia. rewrite take_app_length' by (by rewrite length_insert).
    rewrite lookup_app_l in E by lia.
    rewrite (Permutation_app_comm l [x]). simpl.
    rewrite insert_take_drop by lia. rewrite <- (take_drop_middle l i fb E) at 3.
    rewrite <- !Permutation_middle. apply perm_swap.
Qed.

Lemma removeFragBuf_rep H p i fb : pool_rep H p -> fragbufs p !! i = Some fb ->
  exists p', _removeFragBuf p i = Some p' /\ pool_rep H p' /\ S (length (fragbufs p')) = length (fragbufs p).
Proof.
  intros R E. destruct (removeFragBuf_perm p i fb E) as (p'&Ep&P&T&M1&M2).
  exists p'. split; [done|]. pose proof (Permutation_length P) as L. simpl in L.
  split; [|done]. destruct R. assert (Forall (fb_inv H) (fb :: fragbufs p')) as [Fb F']%Forall_cons by (by rewrite P).
  pose proof (fb_inv_allocated _ _ Fb). constructor; rewrite ?M1, ?M2; auto.
  - apply allocated_perm in P. simpl in P. lia.
  - destruct pr_budget0; [left|right]; lia.
  - lia.
Qed.

Lemma eldest_loop_bound l i best : best = None /\ 0 < length l \/ (exists k u, best = Some (k, u) /\ k < i) ->
  exists k, eldest_loop l i best = Some k /\ k < i + length l.
Proof.
  revert i best. induction l as [|f l IH]; intros i best Hb; simpl.
  - destruct Hb as [[_ ?]|(k&u&->&?)]; [simpl in *; lia|]. exists k. simpl. split; [done|lia].
  - edestruct IH as (k&->&?); [|exists k; split; [done|lia]]. right.
    destruct Hb as [[-> _]|(k&u&->&?)]; [exists i; eexists; split; [done|lia]|].
    case_match; [exists i|exists k]; eexists; (split; [done|lia]).
Qed.

(** Eviction ends with room for the new buffer, or with no buffer at all. *)
Lemma evict_rep H need fuel : forall p, pool_rep H p -> length (fragbufs p) <= fuel ->
  exists p', evict fuel p need = Some p' /\ pool_rep H p' /\
    (fragbufs p' = [] \/ ((totalSize p' + need <= maxSize p')%Z /\ length (fragbufs p') < maxBuffers p')).
Proof.
  induction fuel as [|fuel IH]; intros p R Hf; simpl.
  - assert (fragbufs p = []) as E by (apply length_zero_iff_nil; lia). rewrite E. simpl. eauto.
  - destruct (negb _ && _) eqn:E; bool_prop.
    + destruct (eldest_loop_bound (fragbufs p) 0 None) as (k&->&?); [left; split; [done|lia]|].
      destruct (lookup_lt_is_Some_2 (fragbufs p) k) as [fb Hk]; [lia|].
      destruct (removeFragBuf_rep H p k fb R Hk) as (p'&->&R'&L). apply IH; [done|lia].
    + exists p. split; [done|]. split; [done|]. apply andb_false_iff in E as [E|E]; bool_prop.
      * left. apply length_zero_iff_nil. lia.
      * right. lia.
Qed.

Lemma expire_rep H now fuel : forall p i, pool_rep H p ->
  exists p', expire_loop fuel p now i = Some p' /\ pool_rep H p'.
Proof.
  induction fuel as [|fuel IH]; intros p i R; simpl; [eauto|].
  destruct (fragbufs p !! i) as [fb|] eqn:E; [|eauto]. case_match.
  - destruct (removeFragBuf_rep H p i fb R E) as (p'&->&R'&_). by apply IH.
  - by apply IH.
Qed.

Lemma addFragBuf_rep H p ds n now sender seqno : pool_rep H p -> 0 < n -> (Z.of_nat ds <= MTU)%Z ->
  exists p' fb, addFragBuf sizeof_FragBuf sizeof_Fragment alloc p (payload_offset ds + ds) n now =
      Some (p', length (fragbufs p') - 1) /\
    0 < length (fragbufs p') /\
    fragbufs p' !! (length (fragbufs p') - 1) = Some fb /\
    let fb' := mkFragBuf (last_packet_utime fb) seqno ds n (fb_channellen fb) sender (fragments fb)
                 (allocated_size fb) (last_progress fb) (fbuf fb) in
    length (fragments fb) = n /\ fb_rep H fb' [] /\
    pool_rep H (set_fragbuf p' (length (fragbufs p') - 1) fb') /\
    (fragbufs p = [] -> fragbufs p' = [fb]) /\ last_progress fb = now.
Proof.
  intros R Hn Hds. unfold addFragBuf.
  destruct (evict_rep H (Z.of_nat (payload_offset ds + ds) + sizeof_FragBuf +
    Z.of_nat n * sizeof_Fragment) (length (fragbufs p)) p R ltac:(done)) as (p0&E&R0&Room).
  rewrite E. match goal with |- context [mkPool (fragbufs p0 ++ [?f]) ?a ?b ?c] =>
    exists (mkPool (fragbufs p0 ++ [f]) a b c), f end.
  cbn [fragbufs]. rewrite length_app. cbn [length].
  replace (length (fragbufs p0) + 1 - 1) with (length (fragbufs p0)) by lia.
  split; [done|]. split; [lia|]. split; [by apply list_lookup_middle|].
  cbn [fragments last_packet_utime fb_channellen allocated_size last_progress fbuf].
  split; [apply length_replicate|].
  match goal with |- fb_rep _ ?f _ /\ _ => set (fb' := f) end.
  assert (fb_rep H fb' []) as Rf.
  { constructor; simpl; auto; try (intros; set_solver).
    - constructor.
    - intros g ? Hg. set_solver.
    - intros i fr [-> _]%lookup_replicate. done.
    - by rewrite length_replicate.
    - by rewrite length_replicate. }
  split; [done|]. split.
  - unfold set_fragbuf. simpl.
    replace (<[length (fragbufs p0) := fb']> (fragbufs p0 ++ [_])) with (fragbufs p0 ++ [fb'])
      by (rewrite insert_app_r_alt, Nat.sub_diag by lia; done).
    destruct R0. constructor; simpl; auto.
    + apply Forall_app. split; [done|]. repeat constructor; [done|]. by exists [].
    + rewrite allocated_app, pr_total0. simpl. lia.
    + rewrite length_app. simpl. destruct Room as [->|[? _]]; [right; simpl; lia|left; lia].
    + rewrite length_app. simpl. destruct Room as [->|[_ ?]]; simpl; [|lia].
      rewrite (proj2 pr_limits0). unfold MAX_NUM_FRAG_BUFS. lia.
  - split; [|done]. intros E0. rewrite E0 in E. simpl in E. rewrite E0 in E. simpl in E.
    injection E as <-. by rewrite E0.
Qed.

Lemma store_fragment_rep H fb ws pkt g fr now : fb_rep H fb ws -> 0 < fragments_remaining fb ->
  parse_fragment (pbytes pkt) = Some g -> pfrom pkt = from fb -> g_seqno g = fb_msg_seqno fb ->
  g_data_size g = fb_data_size fb -> g_count g = length (fragments fb) ->
  fragments fb !! g_no g = Some fr -> received fr = false -> adjacent fb g = true ->
  exists fb', store_fragment fb g (putime pkt) now = Some fb' /\ fb_rep (pkt :: H) fb' (ws ++ [g]) /\
    fragments_remaining fb' = fragments_remaining fb - 1 /\ allocated_size fb' = allocated_size fb /\
    fb_data_size fb' = fb_data_size fb /\ length (fragments fb') = length (fragments fb) /\
    from fb' = from fb /\ fb_msg_seqno fb' = fb_msg_seqno fb.
Proof.
  intros R Hrem Hp Hfrom Hseq Hds Hn Hfr Hrec Hadj.
  pose proof (parse_fragment_ok _ _ Hp) as G.
  assert (fits (fb_data_size fb) (length (fragments fb)) g) as Fg by done.
  assert (length (fbuf fb) = payload_offset (fb_data_size fb) + fb_data_size fb) as Lb.
  { rewrite (fr_bytes _ _ _ R). eapply length_put_frags; [apply R|]. apply alloc_length. }
  assert (g_no g ∉ g_no <$> ws) as Hnew.
  { intros (g'&E'&Hg')%list_elem_of_fmap. pose proof (fr_stored _ _ _ R g' Hg') as E.
    rewrite <- E', Hfr in E. injection E as ->. done. }
  pose proof (data_bound _ _ _ Fg) as Bd.
  assert (exists b1, (if g_no g =? 0 then memcpy (fbuf fb) 0 (g_channel g ++ [0%Z]) else Some (fbuf fb)) = Some b1 /\
    b1 = (if g_no g =? 0 then write_at (fbuf fb) 0 (g_channel g ++ [0%Z]) else fbuf fb) /\ length b1 = length (fbuf fb))
    as (b1&E1&Eb1&L1).
  { destruct (g_no g =? 0) eqn:E; bool_prop; [|eauto]. pose proof (chan_bound _ _ _ Fg E).
    unfold memcpy. rewrite (proj2 (Nat.leb_le _ _)) by lia. eexists; split; [done|]. split; [done|].
    apply length_write_at. lia. }
  unfold store_fragment. rewrite E1. unfold memcpy. rewrite (proj2 (Nat.leb_le _ _)) by lia.
  eexists. split; [done|]. cbn. rewrite length_insert. split; [|done].
  assert (g_no g < length (fragments fb)) by (rewrite <- Hn; apply (go_no _ G)).
  destruct R. constructor; cbn; rewrite ?length_insert; auto.
  - apply Forall_app. auto.
  - apply Forall_app. split; [eapply Forall_impl; [eassumption|intros; by apply came_mono]|].
    constructor; [|done]. split; [done|]. exists pkt. split; [left|done].
  - rewrite fmap_app. apply NoDup_app. split; [done|]. split; [|apply NoDup_singleton].
    intros x Hx Hx'. apply list_elem_of_singleton in Hx' as ->. done.
  - unfold adjacent in Hadj. apply andb_prop in Hadj as [A1 A2].
    intros x y [Hx|Hx%list_elem_of_singleton]%elem_of_app [Hy|Hy%list_elem_of_singleton]%elem_of_app E.
    + by apply fr_chain0.
    + subst y. rewrite E in A1. rewrite (proj2 (Nat.eqb_neq _ _)) in A1 by lia. simpl in A1.
      replace (g_no x + 1 - 1) with (g_no x) in A1 by lia.
      rewrite (fr_stored0 _ Hx) in A1. simpl in A1. by apply Nat.eqb_eq in A1.
    + subst x. rewrite Forall_forall in fr_fits0. destruct (fr_fits0 _ Hy) as (Gy&_&En).
      pose proof (go_no _ Gy). rewrite (proj2 (Nat.ltb_lt _ _)) in A2 by lia. simpl in A2.
      rewrite <- E, (fr_stored0 _ Hy) in A2. simpl in A2. by apply Nat.eqb_eq in A2.
    + subst. lia.
  - intros x [Hx|Hx]%elem_of_app; [|apply list_elem_of_singleton in Hx as ->].
    + rewrite list_lookup_insert_ne; [auto|]. intros E. apply Hnew. rewrite E. by apply list_elem_of_fmap_2.
    + by rewrite list_lookup_insert_eq.
  - intros i f Hi Hr. rewrite fmap_app. apply elem_of_app. destruct (decide (i = g_no g)) as [->|Hne].
    + right. by left.
    + left. rewrite list_lookup_insert_ne in Hi by done. eauto.
  - rewrite length_app. simpl. lia.
  - rewrite foldl_app. simpl. rewrite <- fr_bytes0. unfold put_frag. by rewrite <- Eb1.
  - intros x [Hx|Hx]%elem_of_app E; [|apply list_elem_of_singleton in Hx as ->].
    + rewrite (proj2 (Nat.eqb_neq _ _)); [by apply fr_channellen0|]. intros E'. apply Hnew.
      rewrite E', <- E. by apply list_elem_of_fmap_2.
    + by rewrite E.
Qed.

Lemma lookupFragBuf_Some l key q i k : lookupFragBuf l key q i = Some k ->
  i <= k /\ exists fb, l !! (k - i) = Some fb /\ from fb = key /\ fb_msg_seqno fb = q.
Proof.
  revert i. induction l as [|f l IH]; intros i; simpl; [done|].
  destruct (_ && _) eqn:E; bool_prop.
  - intros [= ->]. split; [done|]. exists f. by rewrite Nat.sub_diag.
  - intros (?&fb&H&?)%IH. split; [lia|]. exists fb. split; [|done].
    replace (k - i) with (S (k - (i + 1))) by lia. done.
Qed.

Lemma set_fragbuf_rep H p i fb fb' : pool_rep H p -> fragbufs p !! i = Some fb -> fb_inv H fb' ->
  allocated_size fb' = allocated_size fb -> pool_rep H (set_fragbuf p i fb').
Proof.
  intros [] E I A. constructor; simpl; rewrite ?length_insert; auto.
  - by apply Forall_insert.
  - rewrite pr_total0, insert_take_drop by (by apply lookup_lt_Some in E).
    rewrite <- (take_drop_middle (fragbufs p) i fb E) at 1.
    rewrite !allocated_app. simpl. lia.
Qed.

Lemma remove_set_fragbuf p i fb fb' : fragbufs p !! i = Some fb -> allocated_size fb' = allocated_size fb ->
  _removeFragBuf (set_fragbuf p i fb') i = _removeFragBuf p i.
Proof.
  intros E A. pose proof (lookup_lt_Some _ _ _ E). unfold _removeFragBuf. simpl.
  rewrite list_lookup_insert_eq, E, length_insert, A by done.
  destruct (decide (i = length (fragbufs p) - 1)) as [->|Hne].
  - rewrite list_lookup_insert_eq, E, !take_insert_ge by lia. done.
  - rewrite list_lookup_insert_ne by done. case_match; [|done]. by rewrite list_insert_insert_eq.
Qed.

(** The message is the concatenation of all the fragments one sender sent under
    one sequence number, and each of them was received. *)
Definition assembled (H : list Packet) (m : Message) : Prop :=
  exists sender seqno g0 gs,
    Forall (fun g => came H sender seqno g /\ g_count g = S (length gs) /\
                     Z.of_nat (g_data_size g) = m_datalen m) (g0 :: gs) /\
    g_no <$> g0 :: gs = seq 0 (S (length gs)) /\
    m_channel m = g_channel g0 /\ m_channellen m = length (g_channel g0) /\
    m_data m = payload (g0 :: gs) /\ m_datalen m = Z.of_nat (length (m_data m)).

Lemma cstring_nonzero s block : Forall (fun b => b <> 0%Z) s -> cstring (s ++ 0%Z :: block) = s.
Proof.
  induction 1 as [|b s Hb _ IH]; [done|]. simpl. rewrite (proj2 (Z.eqb_neq b 0)) by lia. by rewrite IH.
Qed.

Lemma complete_assembled H fb ws : fb_rep H fb ws -> fragments_remaining fb = 0 -> 0 < length (fragments fb) ->
  assembled H (mkMessage (last_packet_utime fb) (cstring (fbuf fb)) (fb_channellen fb)
    (drop (payload_offset (fb_data_size fb)) (fbuf fb)) (Z.of_nat (fb_data_size fb))).
Proof.
  intros [] Hrem Hn. set (ds := fb_data_size fb) in *. set (n := length (fragments fb)) in *.
  destruct (sort_frags ds n ws) as (gs&P&Nos); [done|done|lia|].
  assert (Forall (fits ds n) gs) as F by (by rewrite P).
  assert (chain gs) as C by (intros g g'; rewrite P; apply fr_chain0).
  assert (Forall (came H (from fb) (fb_msg_seqno fb)) gs) as Cm by (by rewrite P).
  assert (length gs = n) as L by (rewrite (Permutation_length P); lia).
  assert (length (alloc (payload_offset ds + ds)) = payload_offset ds + ds) as La by apply alloc_length.
  pose proof (data_final ds n gs F Nos C ws P _ La Hn) as D.
  destruct gs as [|g0 gs]; [simpl in L; lia|].
  assert (g_no g0 = 0) as N0 by (by apply (nos_lookup (g0 :: gs) n 0)).
  pose proof (chan_ordered ds n ws fr_fits0 fr_nodup0 _ La g0 ltac:(rewrite <- P; left) N0) as Ch.
  exists (from fb), (fb_msg_seqno fb), g0, gs. simpl. rewrite <- fr_bytes0 in D, Ch. rewrite D.
  repeat split.
  - rewrite Forall_forall in Cm, F |- *. intros g Hg. destruct (F _ Hg) as (?&->&->). simpl in L. auto.
  - rewrite <- L in Nos. exact Nos.
  - assert (fits ds n g0) as (G&_) by (by inversion F).
    rewrite <- (take_drop (length (g_channel g0) + 1) (fbuf fb)).
    change (take ?k (fbuf fb)) with (slice (fbuf fb) 0 k). rewrite Ch, <- app_assoc. simpl.
    apply cstring_nonzero. by apply (go_chan _ G).
  - apply fr_channellen0; [rewrite <- P; left|done].
  - rewrite (payload_size ds n) by done. done.
Qed.

(** One accepted fragment, or one that is discarded: no undefined behaviour, the
    pool's invariant, and only whole messages come out. *)
Lemma accept_rep H p i pkt g now fb : pool_rep H p -> parse_fragment (pbytes pkt) = Some g ->
  fragbufs p !! i = Some fb -> from fb = pfrom pkt -> fb_msg_seqno fb = g_seqno g ->
  fb_data_size fb = g_data_size g -> length (fragments fb) = g_count g ->
  exists p' om bad, accept_fragment p i pkt g now = Some (p', om, bad) /\ pool_rep (pkt :: H) p' /\
    (forall m, om = Some m -> assembled (pkt :: H) m).
Proof.
  intros R Hp Hi Hf Hq Hds Hn. pose proof (parse_fragment_ok _ _ Hp) as G.
  pose proof (go_no _ G). unfold accept_fragment. rewrite Hi.
  destruct (lookup_lt_is_Some_2 (fragments fb) (g_no g)) as [fr Hfr]; [lia|]. rewrite Hfr.
  apply (pool_rep_mono _ pkt) in R as R'.
  destruct (removeFragBuf_rep _ p i fb R' Hi) as (pr&Er&Rr&_).
  destruct (received fr) eqn:Erec.
  { destruct (same_fragment fb fr g); [|rewrite Er]; by do 3 eexists. }
  destruct (adjacent fb g) eqn:Eadj; simpl; [|rewrite Er; by do 3 eexists].
  assert (fb_inv H fb) as (Hrem&ws&Rf) by (eapply Forall_lookup_1; [apply R|done]).
  destruct (store_fragment_rep H fb ws pkt g fr now Rf Hrem Hp) as (fb'&->&Rf'&Erem&Eall&Eds&En&_); try congruence.
  destruct (0 <? fragments_remaining fb') eqn:Ez; bool_prop.
  - do 3 eexists. split; [done|]. split; [|done]. eapply set_fragbuf_rep; eauto. split; [done|by exists (ws ++ [g])].
  - rewrite (remove_set_fragbuf p i fb fb'), Er by done. do 3 eexists. split; [done|]. split; [done|].
    intros m [= <-]. rewrite (go_off _ G), <- Hds, <- Eds.
    eapply complete_assembled; [done|lia|lia].
Qed.

Lemma recvFragment_rep H p pkt now : pool_rep H p ->
  exists p' om bad, recvFragment sizeof_FragBuf sizeof_Fragment alloc p pkt now = Some (p', om, bad) /\
    pool_rep (pkt :: H) p' /\ (forall m, om = Some m -> assembled (pkt :: H) m).
Proof.
  intros R. unfold recvFragment. destruct (parse_fragment _) as [g|] eqn:Eg.
  2: { do 3 eexists. split; [done|]. split; [by apply pool_rep_mono|done]. }
  pose proof (parse_fragment_ok _ _ Eg) as G.
  destruct (lookupFragBuf _ _ _ 0) as [i|] eqn:El.
  - apply lookupFragBuf_Some in El as (_&fb&Hi&Hf&Hq). rewrite Nat.sub_0_r in Hi. rewrite Hi.
    destruct (_ || _) eqn:E; bool_prop.
    + destruct (removeFragBuf_rep _ p i fb R Hi) as (p'&->&R'&_).
      do 3 eexists. split; [done|]. split; [by apply pool_rep_mono|done].
    + by apply (accept_rep H p i pkt g now fb).
  - rewrite (go_off _ G).
    destruct (addFragBuf_rep H p (g_data_size g) (g_count g) now (pfrom pkt) (g_seqno g) R)
      as (p'&fb&->&Hl&Hi&Hn&_&R'&_).
    { pose proof (go_no _ G). lia. }
    { apply (go_size _ G). }
    rewrite Hi. eapply (accept_rep H _ _ _ _ _ _ R' Eg);
      [apply list_lookup_insert_eq; lia|simpl; done..].
Qed.

End PoolInv.
