(* ===== verification/UdpLink.v ===== *)
(** * The UDP transport end to end

    What one transport's [sendmsg] hands to the network, another one delivers,
    whatever the order of the datagrams; and what is delivered was sent. *)
From S2P Require Import Prelude Bytes Transport Udp UdpProps.

(** ** What a sender puts into its datagrams *)

Lemma ntoh_split k v : (Z.of_nat v < 256 ^ Z.of_nat k)%Z -> Z.to_nat (be_combine (be_split k (Z.of_nat v))) = v.
Proof. intros. rewrite be_combine_split, Z.mod_small by lia. lia. Qed.

Lemma be_split_4 v : exists a b c d, be_split 4 v = [a; b; c; d].
Proof. by do 4 eexists. Qed.

Lemma be_split_2 v : exists a b, be_split 2 v = [a; b].
Proof. by do 2 eexists. Qed.

(** The header's fields are read back. *)
Lemma long_header_fields s ds off no n body :
  (Z.of_nat s < 2 ^ 32)%Z -> (Z.of_nat ds < 2 ^ 32)%Z -> (Z.of_nat off < 2 ^ 32)%Z ->
  (Z.of_nat no < 2 ^ 16)%Z -> (Z.of_nat n < 2 ^ 16)%Z ->
  let l := long_header s ds off no n ++ body in
  getMagic l = ZCM_MAGIC_LONG /\ ntohl l 4 = s /\ ntohl l 8 = ds /\ ntohl l 12 = off /\
  ntohs l 16 = no /\ ntohs l 18 = n /\ drop LONG_HEADER l = body /\ length l = LONG_HEADER + length body.
Proof.
  intros H1 H2 H3 H4 H5 l. subst l. unfold long_header, getMagic, ntohl, ntohs, htonl, htons.
  destruct (be_split_4 ZCM_MAGIC_LONG) as (a0&b0&c0&d0&E0). destruct (be_split_4 (Z.of_nat s)) as (a1&b1&c1&d1&E1).
  destruct (be_split_4 (Z.of_nat ds)) as (a2&b2&c2&d2&E2). destruct (be_split_4 (Z.of_nat off)) as (a3&b3&c3&d3&E3).
  destruct (be_split_2 (Z.of_nat no)) as (a4&b4&E4). destruct (be_split_2 (Z.of_nat n)) as (a5&b5&E5).
  rewrite E0, E1, E2, E3, E4, E5. cbn [app]. unfold slice, LONG_HEADER. cbn [take drop]. rewrite take_0, drop_0.
  rewrite <- E0, <- E1, <- E2, <- E3, <- E4, <- E5, !ntoh_split by done.
  rewrite be_combine_split. done.
Qed.

Lemma memchr0_app (chan t : list byte) k : Forall (fun b => b <> 0%Z) chan -> length chan < k ->
  memchr0 (chan ++ 0%Z :: t) k = Some (length chan).
Proof.
  intros Hc. revert k. induction Hc as [|b l Hb _ IH]; intros k Hk; destruct k; simpl in *; try lia; [done|].
  rewrite (proj2 (Z.eqb_neq b 0)) by done. rewrite IH; [done|lia].
Qed.

Lemma length_slice_le (l : list byte) pos k : length (slice l pos k) = Nat.min k (length l - pos).
Proof. unfold slice. by rewrite length_take, length_drop. Qed.

Lemma slice_length (l : list byte) pos k : slice l pos k = slice l pos (length (slice l pos k)).
Proof. unfold slice. rewrite length_take, <- take_take, (take_ge (drop pos l) (length _)) by lia. done. Qed.

Section Sender.
Context (F s n : nat) (chan : cstr) (buf : list byte).
Local Abbreviation c1 := (length chan + 1).
Local Abbreviation ds := (length buf).

(** The fragment numbered [i]. *)
Definition sent_frag (i : nat) : frag :=
  mkFrag s ds (i * F - c1) i n (payload_offset ds) (if i =? 0 then chan else [])
    (if i =? 0 then slice buf 0 (F - c1) else slice buf (i * F - c1) F).

Definition sent_packet (i : nat) : list byte :=
  long_header s ds (i * F - c1) i n ++
  (if i =? 0 then chan ++ [0%Z] ++ slice buf 0 (F - c1) else slice buf (i * F - c1) F).

Definition sent : list frag := sent_frag <$> seq 0 n.

Lemma sent_lookup i : i < n -> sent !! i = Some (sent_frag i).
Proof. intros. unfold sent. rewrite list_lookup_fmap, lookup_seq_lt by done. done. Qed.

Lemma elem_of_sent g : g ∈ sent <-> exists i, i < n /\ g = sent_frag i.
Proof.
  unfold sent. rewrite list_elem_of_fmap. split.
  - intros (i&->&H%elem_of_seq). exists i. split; [lia|done].
  - intros (i&?&->). exists i. split; [done|]. apply elem_of_seq. lia.
Qed.

Lemma sent_nos : g_no <$> sent = seq 0 n.
Proof. unfold sent. rewrite <- list_fmap_compose. apply list_fmap_id. Qed.

Context (Hs : (Z.of_nat s < 2 ^ 32)%Z) (Hc : Forall (fun b => b <> 0%Z) chan) (Hlen : length chan <= ZCM_CHANNEL_MAXLEN).
Context (Hmtu : (Z.of_nat (c1 + ds) <= MTU)%Z).
Context (HF : c1 <= F) (Hfirst : F - c1 <= ds) (Hn : (Z.of_nat n <= 65535)%Z) (Hlo : (n - 1) * F < c1 + ds) (Hhi : c1 + ds <= n * F) (Hpos : 0 < n).

Lemma chan_fits : c1 <= payload_offset ds.
Proof. unfold payload_offset, ZCM_CHANNEL_MAXLEN in *. lia. Qed.

Lemma parse_sent i : i < n -> parse_fragment (sent_packet i) = Some (sent_frag i).
Proof.
  intros Hi. assert (i * F <= (n - 1) * F) as Hm by nia.
  assert (MTU < 2 ^ 32)%Z by done.
  destruct (long_header_fields s ds (i * F - c1) i n
    (if i =? 0 then chan ++ [0%Z] ++ slice buf 0 (F - c1) else slice buf (i * F - c1) F)) as (_&E1&E2&E3&E4&E5&E6&E7);
    [lia..|].
  unfold parse_fragment, sent_packet. rewrite E1, E2, E3, E4, E5, E6, E7.
  rewrite (proj2 (Nat.ltb_ge _ _)) by lia. cbv zeta.
  rewrite (proj2 (Z.ltb_ge _ _)), (proj2 (Nat.eqb_neq n 0)), (proj2 (Nat.leb_gt n i)) by lia.
  fold (payload_offset ds). cbn [orb]. unfold sent_frag. destruct (i =? 0) eqn:Ei; bool_prop; subst; cbn [negb andb orb].
  - simpl app. rewrite memchr0_app by (pose proof chan_fits; first [done|lia]).
    rewrite Nat.mul_0_l, Nat.sub_0_l. cbn -[Nat.add Nat.ltb Nat.eqb].
    rewrite take_app_length, (Nat.eqb_refl 0). cbn [negb andb orb]. rewrite ?orb_false_r.
    replace (drop c1 (chan ++ 0%Z :: slice buf 0 (F - c1))) with (slice buf 0 (F - c1))
      by (rewrite cons_middle, app_assoc; symmetry; apply drop_app_length'; rewrite length_app; done).
    rewrite length_slice_le. case_match eqn:E; [|done]. exfalso.
    repeat (apply orb_prop in E as [E|E]); bool_prop; try done; try lia.
  - rewrite length_slice_le. case_match eqn:E; [|done]. exfalso.
    assert (1 * F <= i * F) by (apply Nat.mul_le_mono_r; lia).
    assert (i + 1 < n -> (i + 1) * F <= (n - 1) * F) by (intros; apply Nat.mul_le_mono_r; lia).
    assert (i + 1 = n -> (i + 1) * F = n * F) by (intros ->; done).
    repeat (apply orb_prop in E as [E|E]); bool_prop; lia.
Qed.

Lemma sent_fits : Forall (fits ds n) sent.
Proof.
  apply Forall_forall. intros g (i&Hi&->)%elem_of_sent. split; [|done].
  by apply (parse_fragment_ok (sent_packet i)), parse_sent.
Qed.

Lemma sent_chain : chain sent.
Proof.
  intros g g' (i&Hi&->)%elem_of_sent (j&Hj&->)%elem_of_sent. simpl. intros ->.
  unfold g_end. simpl. assert ((i + 1) * F <= (n - 1) * F) by (apply Nat.mul_le_mono_r; lia).
  case_match; bool_prop; rewrite length_slice_le; [subst; lia|].
  assert (1 * F <= i * F) by (apply Nat.mul_le_mono_r; lia). lia.
Qed.

Lemma payload_sent_take i : i <= n -> payload (take i sent) = take (length (payload (take i sent))) buf.
Proof.
  induction i as [|i IH]; intros Hi; [done|].
  pose proof (sent_lookup i ltac:(lia)) as E. rewrite (take_S_r _ _ _ E), payload_app, length_app.
  rewrite IH at 1 by lia. change (take ?k buf) with (slice buf 0 k). rewrite slice_app. f_equal.
  rewrite <- (offset_payload ds n sent sent_fits sent_nos sent_chain _ _ E).
  unfold payload. simpl. rewrite app_nil_r.
  destruct (i =? 0) eqn:Ei; bool_prop; subst; apply slice_length.
Qed.
End Sender.

Lemma send_rest_sent F s n chan buf todo : forall i off st,
  length chan + 1 <= F -> 0 < i -> i + todo = n -> (n - 1) * F < length chan + 1 + length buf ->
  off = i * F - (length chan + 1) -> st = None ->
  fst (fst (send_rest F s n buf [] st todo i off)) = sent_packet F s n chan buf <$> seq i todo.
Proof.
  induction todo as [|todo IH]; intros i off st HF Hi Hn Hlo -> ->; [done|]. simpl.
  assert (1 * F <= i * F) by (apply Nat.mul_le_mono_r; lia).
  assert (todo <> 0 -> (i + 1) * F <= (n - 1) * F) by (intros; apply Nat.mul_le_mono_r; lia).
  assert (length buf - (i * F - (length chan + 1)) < F -> todo = 0) as Hlast
    by (intros; destruct todo; [done|]; lia).
  set (o := i * F - (length chan + 1)) in *.
  assert (fst (fst (send_rest F s n buf [] None todo (i + 1) (o + Nat.min F (length buf - o)))) =
    sent_packet F s n chan buf <$> seq (S i) todo) as E.
  { destruct (decide (todo = 0)) as [->|]; [done|].
    replace (S i) with (i + 1) by lia. apply IH; try lia; done. }
  destruct (send_rest _ _ _ _ _ _ _ _ _) as [[pkts st'] off']. simpl in *. subst pkts. f_equal.
  unfold sent_packet. rewrite (proj2 (Nat.eqb_neq i 0)) by lia. fold o. f_equal.
  rewrite (slice_length buf o F), length_slice_le. done.
Qed.

(** A long message leaves as the packets [sent_packet] describes. *)
Lemma sendmsg_fragments L s chan buf next pkts :
  sendmsg L s chan buf [] = Some (next, ZCM_EOK, pkts) ->
  ZCM_SHORT_MESSAGE_MAX_SIZE L < length chan + 1 + length buf ->
  exists n, let F := ZCM_FRAGMENT_MAX_PAYLOAD L in
    pkts = sent_packet F s n chan buf <$> seq 0 n /\ length chan <= ZCM_CHANNEL_MAXLEN /\
    length chan + 1 <= F /\ F - (length chan + 1) <= length buf /\ (Z.of_nat n <= 65535)%Z /\
    (n - 1) * F < length chan + 1 + length buf /\ length chan + 1 + length buf <= n * F /\ 0 < n.
Proof.
  unfold sendmsg. cbv zeta. intros H Hs. case_match eqn:E1; [discriminate|]. bool_prop.
  rewrite (proj2 (Nat.leb_gt _ _)) in H by lia. revert H.
  set (P := length chan + 1 + length buf) in *. set (F := ZCM_FRAGMENT_MAX_PAYLOAD L).
  set (n := P / F + _). case_match eqn:E2; [discriminate|]. bool_prop.
  case_match eqn:E3; [|discriminate]. bool_prop.
  destruct (send_rest _ _ _ _ _ _ _ _ _) as [[ps st] off] eqn:Er. case_match; [|discriminate].
  intros [= <- <-]. exists n. cbv zeta.
  assert (P = F * (P / F) + P mod F) as Ed by (apply Nat.div_mod; lia).
  pose proof (Nat.mod_upper_bound P F ltac:(lia)).
  assert (0 < n /\ (n - 1) * F < P /\ P <= n * F) as (Hn&Hlo&Hhi).
  { subst n. destruct (P mod F =? 0) eqn:E0; bool_prop.
    - assert (0 < P / F) by (destruct (P / F); lia). repeat split; nia.
    - repeat split; nia. }
  repeat split; try lia.
  pose proof (send_rest_sent F s n chan buf (n - 1) 1 (F - (length chan + 1)) None) as Hr.
  simpl in Er. rewrite Er in Hr. simpl in Hr. rewrite Hr by (first [done|lia]).
  destruct n; [lia|]. simpl. rewrite Nat.sub_0_r. done.
Qed.

(** ** Receiving the fragments of one message *)

Section Receiver.
Context (sizeof_FragBuf sizeof_Fragment : Z) (alloc : nat -> list byte).
Context (alloc_length : forall n, length (alloc n) = n).
Context (fb_pos : (0 < sizeof_FragBuf)%Z) (fr_nonneg : (0 <= sizeof_Fragment)%Z).
Context (F s n : nat) (chan : cstr) (buf : list byte) (sender : nat) (t0 : Z).
Context (Hs : (Z.of_nat s < 2 ^ 32)%Z) (Hc : Forall (fun b => b <> 0%Z) chan) (Hlen : length chan <= ZCM_CHANNEL_MAXLEN).
Context (Hmtu : (Z.of_nat (length chan + 1 + length buf) <= MTU)%Z).
Context (HF : length chan + 1 <= F) (Hfirst : F - (length chan + 1) <= length buf) (Hn : (Z.of_nat n <= 65535)%Z).
Context (Hlo : (n - 1) * F < length chan + 1 + length buf) (Hhi : length chan + 1 + length buf <= n * F) (Hpos : 0 < n).

Local Abbreviation rep := (fb_rep sizeof_FragBuf sizeof_Fragment alloc).
Local Abbreviation prep := (pool_rep sizeof_FragBuf sizeof_Fragment alloc).
Local Abbreviation Gs := (sent F s n chan buf).

Definition in_time (t : Z) : Prop := (t0 <= t < t0 + FIVE_SECONDS)%Z.

(** The pool holds one buffer, which collected the fragments [ws]. *)
Definition partial (H : list Packet) (p : MessagePool) (ws : list frag) : Prop :=
  prep H p /\ exists fb, fragbufs p = [fb] /\ from fb = sender /\ fb_msg_seqno fb = s /\
    fb_data_size fb = length buf /\ length (fragments fb) = n /\ rep H fb ws /\ ws ⊆ Gs /\
    in_time (last_progress fb).

Lemma Gs_fits : Forall (fits (length buf) n) Gs.
Proof. by apply sent_fits. Qed.

Lemma Gs_ordered : ordered Gs.
Proof. intros g g'. eapply frags_disjoint; [apply Gs_fits|apply sent_nos|by apply sent_chain]. Qed.

Lemma Gs_inj g g' : g ∈ Gs -> g' ∈ Gs -> g_no g = g_no g' -> g = g'.
Proof. intros (i&_&->)%elem_of_sent (j&_&->)%elem_of_sent. simpl. by intros ->. Qed.

Lemma Gs_NoDup : NoDup Gs.
Proof. apply (NoDup_fmap_1 g_no). rewrite sent_nos. apply NoDup_seq. Qed.

Lemma payload_Gs : payload Gs = buf.
Proof.
  pose proof (payload_sent_take F s n chan buf Hs Hc Hlen Hmtu HF Hfirst Hn Hlo Hhi Hpos n ltac:(done)) as E.
  rewrite take_ge in E by (unfold sent; rewrite length_fmap, length_seq; done). rewrite E.
  apply take_ge. rewrite (payload_size (length buf) n Gs); auto using Gs_fits, sent_nos, sent_chain.
Qed.

(** A duplicate of a fragment that is already stored changes nothing. *)
Lemma accept_duplicate H p ws pkt g now : partial H p ws -> parse_fragment (pbytes pkt) = Some g ->
  g ∈ ws -> accept_fragment p 0 pkt g now = Some (p, None, false).
Proof.
  intros (R&fb&Ep&_&_&Hds&Hnf&Rf&Hsub&_) Hp Hg. unfold accept_fragment. rewrite Ep. simpl.
  rewrite (fr_stored _ _ _ _ _ _ Rf g Hg). simpl.
  assert (fits (length buf) n g) as (G&Eds&_) by (eapply Forall_forall; [apply Gs_fits|auto]).
  assert (length (alloc (payload_offset (length buf) + length buf)) = payload_offset (length buf) + length buf)
    as La by apply alloc_length.
  assert (Forall (fits (length buf) n) ws) as Fw by (rewrite <- Hds, <- Hnf; apply Rf).
  assert (ordered ws) as O by (intros x y ? ?; apply Gs_ordered; auto).
  assert (same_fragment fb (mkFragment (g_offset g) (length (g_data g)) true) g = true) as ->; [|done].
  unfold same_fragment. simpl. rewrite !Nat.eqb_refl. simpl.
  rewrite (fr_bytes _ _ _ _ _ _ Rf), Hds, (go_off _ G), Eds.
  rewrite (slice_ordered (length buf) n ws) by (auto; apply Rf).
  rewrite (bool_decide_eq_true_2 (g_data g = _)) by done. simpl.
  destruct (g_no g =? 0) eqn:E0; bool_prop; [|done]. simpl.
  rewrite (fr_channellen _ _ _ _ _ _ Rf g Hg E0), Nat.eqb_refl.
  rewrite (chan_ordered (length buf) n ws) by (auto; apply Rf). by apply bool_decide_eq_true_2.
Qed.

(** The neighbours of a fragment of the message fit. *)
Lemma adjacent_honest H ws fb g : rep H fb ws -> ws ⊆ Gs -> g ∈ Gs -> length (fragments fb) = n ->
  adjacent fb g = true.
Proof.
  intros Rf Hsub Hg Hnf. assert (chain Gs) as C by (by apply sent_chain).
  assert (forall i fr, fragments fb !! i = Some fr -> received fr = true ->
    exists g', g' ∈ Gs /\ g_no g' = i /\ fr = mkFragment (g_offset g') (length (g_data g')) true) as Hst.
  { intros i fr Hi Hr. pose proof (fr_received _ _ _ _ _ _ Rf i fr Hi Hr) as (g'&->&Hg')%list_elem_of_fmap.
    pose proof (fr_stored _ _ _ _ _ _ Rf g' Hg') as E. rewrite E in Hi. injection Hi as <-.
    exists g'. auto. }
  assert (fits (length buf) n g) as (G&_&Ec) by (eapply Forall_forall; [apply Gs_fits|done]).
  pose proof (go_no _ G). unfold adjacent. apply andb_true_intro. split.
  - destruct (g_no g =? 0) eqn:E0; [done|]. bool_prop. simpl.
    destruct (lookup_lt_is_Some_2 (fragments fb) (g_no g - 1)) as [fr Hfr]; [lia|]. rewrite Hfr.
    destruct (received fr) eqn:Er; [|done]. simpl. destruct (Hst _ _ Hfr Er) as (g'&Hg'&Eno&->). simpl.
    apply Nat.eqb_eq. apply C; auto. lia.
  - destruct (g_no g + 1 <? g_count g) eqn:E1; [|done]. bool_prop. simpl.
    destruct (lookup_lt_is_Some_2 (fragments fb) (g_no g + 1)) as [fr Hfr]; [lia|]. rewrite Hfr.
    destruct (received fr) eqn:Er; [|done]. simpl. destruct (Hst _ _ Hfr Er) as (g'&Hg'&Eno&->). simpl.
    apply Nat.eqb_eq. apply C; auto.
Qed.

Definition whole (pkt : Packet) : Message :=
  mkMessage (putime pkt) chan (length chan) buf (Z.of_nat (length buf)).

Lemma head_Gs : exists gs, Gs = sent_frag F s n chan buf 0 :: gs.
Proof. unfold sent. destruct n as [|k]; [lia|]. simpl. eauto. Qed.

(** A new fragment is stored; the last one completes the message. *)
Lemma accept_new H p ws pkt g now : partial H p ws -> parse_fragment (pbytes pkt) = Some g ->
  pfrom pkt = sender -> in_time now -> g ∈ Gs -> g ∉ ws ->
  exists p', partial (pkt :: H) p' (ws ++ [g]) /\ length ws + 1 < n /\
      accept_fragment p 0 pkt g now = Some (p', None, false) \/
    length ws + 1 = n /\ fragbufs p' = [] /\ accept_fragment p 0 pkt g now = Some (p', Some (whole pkt), false).
Proof.
  intros (R&fb&Ep&Hf&Hq&Hds&Hnf&Rf&Hsub&_) Hp Hfrom Ht HgG Hg. unfold accept_fragment. rewrite Ep. simpl.
  assert (fits (length buf) n g) as (G&Eds&Ec) by (eapply Forall_forall; [apply Gs_fits|done]).
  assert (g_seqno g = s) as Es by (apply elem_of_sent in HgG as (i&_&->); done).
  destruct (lookup_lt_is_Some_2 (fragments fb) (g_no g)) as [fr Hfr]; [pose proof (go_no _ G); lia|]. rewrite Hfr.
  assert (received fr = false) as Hrec.
  { apply not_true_is_false. intros Hr.
    pose proof (fr_received _ _ _ _ _ _ Rf _ _ Hfr Hr) as (g'&E&Hg')%list_elem_of_fmap.
    apply Hg. by rewrite (Gs_inj g g' HgG (Hsub _ Hg') E). }
  rewrite Hrec. pose proof (adjacent_honest H ws fb g Rf Hsub HgG Hnf) as Hadj. rewrite Hadj. simpl.
  assert (0 < fragments_remaining fb) as Hrem.
  { pose proof (pr_bufs _ _ _ _ _ R) as Rb. rewrite Ep in Rb. apply Forall_cons in Rb as [[] _]. done. }
  destruct (store_fragment_rep _ _ _ alloc_length H fb ws pkt g fr now Rf Hrem Hp)
    as (fb'&Est&Rf'&Erem&Eall&Eds'&En&Efrom&Eseq); try congruence.
  pose proof (fr_remaining _ _ _ _ _ _ Rf). rewrite Est.
  destruct (0 <? fragments_remaining fb') eqn:Ez; bool_prop.
  - eexists. left. split; [|split; [lia|done]]. split.
    + eapply (set_fragbuf_rep _ _ _ (pkt :: H) p 0 fb); [by apply pool_rep_mono|by rewrite Ep| |done].
      split; [done|by exists (ws ++ [g])].
    + exists fb'. unfold set_fragbuf. rewrite Ep. simpl. do 5 (split; [congruence|]). split; [done|]. split.
      * intros x [?|Hx]%elem_of_app; [by auto|]. by apply list_elem_of_singleton in Hx as ->.
      * unfold store_fragment in Est. do 2 (case_opt; [|done]). injection Est as <-. apply Ht.
  - rewrite (remove_set_fragbuf p 0 fb fb') by (rewrite ?Ep; done).
    destruct (removeFragBuf_perm p 0 fb) as (p'&->&P&_); [by rewrite Ep|].
    exists p'. right. split; [lia|]. split.
    { apply Permutation_length in P. rewrite Ep in P. simpl in P. apply length_zero_iff_nil. lia. }
    do 3 f_equal. rewrite (go_off _ G), Eds. unfold whole.
    assert (NoDup (ws ++ [g])) as Nw by (eapply (NoDup_fmap_1 g_no), Rf').
    assert (Gs ≡ₚ ws ++ [g]) as PG.
    { symmetry. apply submseteq_length_Permutation.
      - apply NoDup_submseteq; [done|]. intros x [?|Hx]%elem_of_app; [by auto|].
        by apply list_elem_of_singleton in Hx as ->.
      - unfold sent. rewrite length_fmap, length_seq, length_app. simpl. lia. }
    assert (length (alloc (payload_offset (length buf) + length buf)) = payload_offset (length buf) + length buf)
      as La by apply alloc_length.
    pose proof (data_final (length buf) n Gs Gs_fits (sent_nos _ _ _ _ _) ltac:(by apply sent_chain) _ PG _ La Hpos) as D.
    pose proof (fr_bytes _ _ _ _ _ _ Rf') as Eb. rewrite Eds', Hds in Eb. rewrite <- Eb, payload_Gs in D. rewrite D.
    assert (sent_frag F s n chan buf 0 ∈ ws ++ [g]) as Hh
      by (rewrite <- PG; destruct head_Gs as [gs ->]; left).
    pose proof (chan_ordered (length buf) n (ws ++ [g]) ltac:(rewrite <- PG; apply Gs_fits)
      (fr_nodup _ _ _ _ _ _ Rf') _ La _ Hh eq_refl) as Ch. rewrite <- Eb in Ch. simpl in Ch.
    do 2 f_equal.
    + unfold store_fragment in Est. do 2 (case_opt; [|done]). by injection Est as <-.
    + rewrite <- (take_drop (length chan + 1) (fbuf fb')).
      change (take ?k (fbuf fb')) with (slice (fbuf fb') 0 k). rewrite Ch, <- app_assoc. simpl.
      by apply cstring_nonzero.
    + by apply (fr_channellen _ _ _ _ _ _ Rf' _ Hh).
Qed.

(** What the pool knows of the message: nothing yet, or a part of it. *)
Definition collecting (H : list Packet) (p : MessagePool) (ws : list frag) : Prop :=
  ws = [] /\ prep H p /\ fragbufs p = [] \/ partial H p ws.

Lemma recv_collecting H p ws pkt i now : collecting H p ws -> i < n ->
  pbytes pkt = sent_packet F s n chan buf i -> pfrom pkt = sender -> in_time now ->
  exists p', partial H p' ws /\ recvFragment sizeof_FragBuf sizeof_Fragment alloc p pkt now =
    accept_fragment p' 0 pkt (sent_frag F s n chan buf i) now.
Proof.
  intros C Hi Hb Hfrom Ht. unfold recvFragment. rewrite Hb, parse_sent by done. simpl.
  destruct C as [(->&R&Ep)|(R&fb&Ep&Hf&Hq&Hds&Hnf&C)].
  - rewrite Ep. simpl.
    destruct (addFragBuf_rep _ _ _ alloc_length fb_pos fr_nonneg H p (length buf) n now sender s R Hpos)
      as (p'&fb&->&_&Hfb&Hnf&Rf&R'&E1&Elp); [unfold MTU in *; lia|].
    rewrite Hfb. specialize (E1 Ep). rewrite E1 in *. simpl in *. eexists. rewrite Hfrom. split; [|done].
    split; [done|]. eexists. unfold set_fragbuf. rewrite E1. simpl. split; [done|]. simpl.
    do 4 (split; [done|]). split; [done|]. split; [set_solver|]. rewrite Elp. apply Ht.
  - exists p. split; [by split; [|exists fb]|]. rewrite Ep. simpl.
    rewrite Hf, Hq, Hfrom, !Nat.eqb_refl. simpl. rewrite Hds, Hnf, !Nat.eqb_refl. done.
Qed.

Lemma expire_collecting H p ws now : collecting H p ws -> in_time now -> expireFragBufs p now = Some p.
Proof.
  unfold expireFragBufs. intros [(_&_&->)|(_&fb&Ep&_&_&_&_&_&_&T)] Ht; [done|]. rewrite Ep. simpl.
  rewrite Ep. simpl. unfold in_time in *. rewrite (proj2 (Z.leb_gt _ _)) by lia. done.
Qed.

Lemma sent_packet_header i : i < n ->
  SHORT_HEADER <= length (sent_packet F s n chan buf i) /\
  getMagic (sent_packet F s n chan buf i) = ZCM_MAGIC_LONG.
Proof.
  intros Hi. assert (i * F <= (n - 1) * F) by (apply Nat.mul_le_mono_r; lia).
  assert (MTU < 2 ^ 32)%Z by done. unfold sent_packet.
  match goal with |- context [long_header _ _ _ _ _ ++ ?b] =>
    destruct (long_header_fields s (length buf) (i * F - (length chan + 1)) i n b) as (E&_&_&_&_&_&_&L); [lia..|] end.
  rewrite E, L. unfold SHORT_HEADER, LONG_HEADER. split; [lia|done].
Qed.

Lemma readPacket_collecting H u ws pkt i now : collecting H (pool u) ws -> i < n ->
  pbytes pkt = sent_packet F s n chan buf i -> pfrom pkt = sender -> in_time now ->
  exists p', partial H p' ws /\ readPacket sizeof_FragBuf sizeof_Fragment alloc u (Some pkt) now =
    ('(p, om, bad) <- accept_fragment p' 0 pkt (sent_frag F s n chan buf i) now ;;
     Some (mkUDP p (udp_rx u) (if (bad : bool) then u32 (udp_discarded_bad u + 1) else udp_discarded_bad u)
             (msg_seqno u) (udp_m u), om)).
Proof.
  intros C Hi Hb Hfrom Ht. destruct (recv_collecting H (pool u) ws pkt i now C Hi Hb Hfrom Ht) as (p'&Hp'&E).
  exists p'. split; [done|]. unfold readPacket. rewrite (expire_collecting H (pool u) ws now C Ht).
  destruct (sent_packet_header i Hi) as [L M]. rewrite Hb, (proj2 (Nat.ltb_ge _ _)), M by lia.
  rewrite (proj2 (Z.eqb_neq ZCM_MAGIC_LONG ZCM_MAGIC_SHORT)), Z.eqb_refl by done. simpl. rewrite E.
  destruct (accept_fragment _ _ _ _ _) as [[[p om] [|]]|]; done.
Qed.

(** An arrival that is one of the message's datagrams. *)
Definition arrives (a : option Packet * Z) (i : nat) : Prop :=
  exists pkt, fst a = Some pkt /\ i < n /\ pbytes pkt = sent_packet F s n chan buf i /\
    pfrom pkt = sender /\ in_time (snd a).

Lemma read_loop_collects arrivals : forall H u ws idx, collecting H (pool u) ws ->
  Forall2 arrives arrivals idx ->
  forall last t k, arrives (Some last, t) k -> sent_frag F s n chan buf k ∉ ws -> k ∉ idx ->
  (forall i, i < n -> i = k \/ i ∈ idx \/ sent_frag F s n chan buf i ∈ ws) ->
  exists u', read_loop sizeof_FragBuf sizeof_Fragment alloc u (arrivals ++ [(Some last, t)]) =
      Some (u', Some (whole last)) /\
    fragbufs (pool u') = [] /\ udp_discarded_bad u' = udp_discarded_bad u.
Proof.
  induction arrivals as [|[o ta] arrivals IH]; intros H u ws idx C Fa last t k La Hk Hki Hall;
    cbn [app read_loop].
  - destruct La as (pkt&[= ->]&Hkn&Hb&Hfrom&Ht). apply Forall2_nil_inv_l in Fa as ->.
    destruct (readPacket_collecting H u ws pkt k t C Hkn Hb Hfrom Ht) as (p'&Hp'&->).
    assert (parse_fragment (pbytes pkt) = Some (sent_frag F s n chan buf k)) as Hp
      by (by rewrite Hb, parse_sent).
    destruct (accept_new H p' ws pkt _ t Hp' Hp Hfrom Ht) as (p''&[(Hw&Hl&_)|(_&Ef&->)]).
    { apply elem_of_sent. eauto. } { done. }
    + exfalso. assert (length Gs <= length (ws ++ [sent_frag F s n chan buf k])) as Hle.
      { apply submseteq_length, NoDup_submseteq; [apply Gs_NoDup|]. intros g (i&Hi&->)%elem_of_sent.
        destruct (Hall i Hi) as [->|[?|?]]; set_solver. }
      unfold sent in Hle. rewrite length_fmap, length_seq, length_app in Hle. simpl in Hle. lia.
    + eexists. split; [done|]. split; done.
  - apply Forall2_cons_inv_l in Fa as (i&idx'&Ha&Fa&->).
    destruct Ha as (pkt&[= ->]&Hin&Hb&Hfrom&Ht). simpl in Ht.
    destruct (readPacket_collecting H u ws pkt i ta C Hin Hb Hfrom Ht) as (p'&Hp'&->).
    assert (parse_fragment (pbytes pkt) = Some (sent_frag F s n chan buf i)) as Hp
      by (by rewrite Hb, parse_sent).
    assert (k <> i) as Hki' by set_solver.
    destruct (decide (sent_frag F s n chan buf i ∈ ws)) as [Hd|Hd].
    + rewrite (accept_duplicate H p' ws) by done. simpl.
      edestruct (IH H) as (u'&->&?&?); [right; exact Hp'|exact Fa|exact La|done|set_solver| |by eexists].
      intros j Hj. destruct (Hall j Hj) as [?|[?|?]]; [by auto| |by auto]. set_solver.
    + destruct (accept_new H p' ws pkt _ ta Hp' Hp Hfrom Ht) as (p''&[(Hw&Hl&->)|(Hl&_&_)]).
      { apply elem_of_sent. eauto. } { done. }
      * simpl. edestruct (IH (pkt :: H)) as (u'&->&?&?); [right; exact Hw|exact Fa|exact La| |set_solver| |by eexists].
        -- intros [?|Hx]%elem_of_app; [done|]. apply list_elem_of_singleton in Hx. by injection Hx.
        -- intros j Hj. destruct (Hall j Hj) as [?|[?|?]]; set_solver.
      * exfalso. destruct La as (_&_&Hkn&_).
        destruct Hp' as (_&fb&_&_&_&_&_&Rf&Hsub&_).
        assert (NoDup ws) as Nw by (eapply (NoDup_fmap_1 g_no), Rf).
        assert (length (sent_frag F s n chan buf k :: sent_frag F s n chan buf i :: ws) <= length Gs) as Hle.
        { apply submseteq_length, NoDup_submseteq.
          - apply NoDup_cons. split; [|by apply NoDup_cons]. intros [Hx|?]%elem_of_cons; [|done].
            by injection Hx.
          - intros x [->|[->|?]%elem_of_cons]%elem_of_cons; [apply elem_of_sent; eauto..|auto]. }
        unfold sent in Hle. rewrite length_fmap, length_seq in Hle. simpl in Hle. lia.
Qed.
End Receiver.

(** ** The theorems *)

Section Theorems.
(** The sizes of the two structures are positive, and a buffer has the size
    that was asked for. *)
Context (sizeof_FragBuf sizeof_Fragment : Z) (alloc : nat -> list byte).

Definition sane : Prop :=
  (0 < sizeof_FragBuf)%Z /\ (0 <= sizeof_Fragment)%Z /\ forall n, length (alloc n) = n.

Definition udp_create : UDP := mkUDP pool_create 0 0 0 None.

(** The states the transport reaches, with the datagrams it has received. *)
Inductive reach : list Packet -> UDP -> Prop :=
| reach_create : reach [] udp_create
| reach_expire H u u' now : reach H u ->
    readMessage sizeof_FragBuf sizeof_Fragment alloc u now [] = Some (u', None) -> reach H u'
| reach_packet H u u' pkt now om : reach H u ->
    readPacket sizeof_FragBuf sizeof_Fragment alloc u (Some pkt) now = Some (u', om) -> reach (pkt :: H) u'
| reach_failed H u u' now om : reach H u ->
    readPacket sizeof_FragBuf sizeof_Fragment alloc u None now = Some (u', om) -> reach H u'.

Lemma readPacket_rep H u pkt now u' om : sane -> pool_rep sizeof_FragBuf sizeof_Fragment alloc H (pool u) ->
  readPacket sizeof_FragBuf sizeof_Fragment alloc u (Some pkt) now = Some (u', om) ->
  pool_rep sizeof_FragBuf sizeof_Fragment alloc (pkt :: H) (pool u').
Proof.
  intros (S1&S2&S3) R. unfold readPacket, expireFragBufs.
  destruct (expire_rep _ _ _ S1 S2 H now (length (fragbufs (pool u))) (pool u) 0 R) as (p&->&R').
  apply (pool_rep_mono _ _ _ _ pkt) in R' as R2.
  destruct (_ <? _); [by intros [= <- <-]|]. destruct (_ =? _)%Z.
  { destruct (recvShort pkt) as [[? [|]]|]; [by intros [= <- <-]..|done]. }
  destruct (_ =? _)%Z; [|by intros [= <- <-]]. simpl.
  destruct (recvFragment_rep _ _ _ S3 S1 S2 H p pkt now R') as (p'&o&bad&->&R3&_).
  destruct bad; by intros [= <- <-].
Qed.

Lemma reach_rep H u : sane -> reach H u -> pool_rep sizeof_FragBuf sizeof_Fragment alloc H (pool u).
Proof.
  intros S. induction 1 as [|H u u' now _ IH E|H u u' pkt now om _ IH E|H u u' now om _ IH E].
  - apply pool_rep_create.
  - destruct S as (S1&S2&S3). unfold readMessage, expireFragBufs in E.
    destruct (expire_rep _ _ _ S1 S2 H now (length (fragbufs (pool u))) (pool u) 0 IH) as (p&Ep&R').
    rewrite Ep in E. injection E as <-. done.
  - by eapply readPacket_rep.
  - by injection E as <- <-.
Qed.

(** C14: Fragment datagrams with any content, from any number of senders and in
    any order, are handled without undefined behaviour: no copy leaves the
    buffer of its message and no index its vector.  The pool stays within
    [MAX_NUM_FRAG_BUFS] buffers and within [MAX_FRAG_BUF_TOTAL_SIZE] bytes, a
    single larger message apart.  And a message is only delivered when every
    one of its fragments was received from one sender under one sequence
    number: its data is their concatenation in order, without gap or overlap,
    and its channel is that of fragment zero. *)
Theorem udp_reassembly_sound H u pkt now : sane -> reach H u ->
  SHORT_HEADER <= length (pbytes pkt) -> getMagic (pbytes pkt) = ZCM_MAGIC_LONG ->
  exists u' om, readPacket sizeof_FragBuf sizeof_Fragment alloc u (Some pkt) now = Some (u', om) /\
    length (fragbufs (pool u')) <= MAX_NUM_FRAG_BUFS /\
    ((totalSize (pool u') <= MAX_FRAG_BUF_TOTAL_SIZE)%Z \/ length (fragbufs (pool u')) <= 1) /\
    totalSize (pool u') = allocated (fragbufs (pool u')) /\
    (forall m, om = Some m -> assembled (pkt :: H) m).
Proof.
  intros S R L M. assert (exists u' om, readPacket sizeof_FragBuf sizeof_Fragment alloc u (Some pkt) now =
    Some (u', om) /\ forall m, om = Some m -> assembled (pkt :: H) m) as (u'&om&E&A).
  { destruct S as (S1&S2&S3) eqn:ES. pose proof (reach_rep H u S R) as Rp. unfold readPacket, expireFragBufs.
    destruct (expire_rep _ _ _ S1 S2 H now (length (fragbufs (pool u))) (pool u) 0 Rp) as (p&->&R').
    rewrite (proj2 (Nat.ltb_ge _ _)), M by done.
    rewrite (proj2 (Z.eqb_neq ZCM_MAGIC_LONG ZCM_MAGIC_SHORT)), Z.eqb_refl by done. simpl.
    destruct (recvFragment_rep _ _ _ S3 S1 S2 H p pkt now R') as (p'&o&bad&->&_&A). eauto. }
  exists u', om. split; [done|]. pose proof (reach_rep _ _ S (reach_packet _ _ _ _ _ _ R E)) as [B T [M1 M2] Bu Cn].
  rewrite M1, M2 in *. auto.
Qed.

Lemma arrivals_indices F s n chan buf sender t0 (arrivals : list (option Packet * Z)) :
  Forall (fun a => exists pkt, fst a = Some pkt /\ pbytes pkt ∈ sent_packet F s n chan buf <$> seq 0 n /\
    pfrom pkt = sender /\ in_time t0 (snd a)) arrivals ->
  exists idx, Forall2 (arrives F s n chan buf sender t0) arrivals idx.
Proof.
  induction 1 as [|a l (pkt&E&(i&Eb&Hi%elem_of_seq)%list_elem_of_fmap&Hf&Ht) _ (idx&IH)]; [by exists []|].
  exists (i :: idx). constructor; [|done]. exists pkt. repeat split; auto; try lia; apply Ht.
Qed.

(** C13: A message too long for one datagram is split by [sendmsg] into fragments,
    and a transport that receives those datagrams, in any order, any of them
    more than once, and all within five seconds, delivers the message with its
    channel and its data exactly when the last missing one arrives; nothing is
    counted as bad and no buffer is left behind. *)
Theorem udp_fragments_delivered L s chan buf next pkts H u now arrivals last t sender t0 : sane ->
  sendmsg L s chan buf [] = Some (next, ZCM_EOK, pkts) ->
  ZCM_SHORT_MESSAGE_MAX_SIZE L < length chan + 1 + length buf ->
  (Z.of_nat s < 2 ^ 32)%Z -> cstr_ok chan -> (Z.of_nat (length chan + 1 + length buf) <= MTU)%Z ->
  reach H u -> fragbufs (pool u) = [] ->
  Forall (fun a => exists pkt, fst a = Some pkt /\ pbytes pkt ∈ pkts /\ pfrom pkt = sender /\ in_time t0 (snd a))
    (arrivals ++ [(Some last, t)]) ->
  (forall b, b ∈ pkts -> exists a pkt, a ∈ arrivals ++ [(Some last, t)] /\ fst a = Some pkt /\ pbytes pkt = b) ->
  Forall (fun a => forall pkt, fst a = Some pkt -> pbytes pkt <> pbytes last) arrivals ->
  exists u', udp_recvmsg sizeof_FragBuf sizeof_Fragment alloc u now (arrivals ++ [(Some last, t)]) =
      Some (u', ZCM_EOK, Some (mkMsg (putime last) chan (Z.of_nat (length buf)) buf)) /\
    udp_discarded_bad u' = udp_discarded_bad u /\ fragbufs (pool u') = [].
Proof.
  intros S Hsend Hlong Hs Hc Hmtu R Hempty Fa Hcover Hfresh.
  destruct (sendmsg_fragments _ _ _ _ _ _ Hsend Hlong) as (n&->&Hlen&HF&Hfirst&Hn&Hlo&Hhi&Hpos).
  set (F := ZCM_FRAGMENT_MAX_PAYLOAD L) in *.
  assert (Forall (fun b => b <> 0%Z) chan) as Hnz by (eapply Forall_impl; [exact Hc|simpl; lia]).
  destruct (arrivals_indices _ _ _ _ _ _ _ _ Fa) as (idx0&Fi0).
  apply Forall2_app_inv_l in Fi0 as (idx&ks&Fi&Fk&->). apply Forall2_cons_inv_l in Fk as (k&ks'&Lk&Fk&->).
  apply Forall2_nil_inv_l in Fk as ->.
  pose proof (reach_rep H u S R) as Rp. destruct S as (S1&S2&S3).
  assert (forall i j, i < n -> j < n -> sent_packet F s n chan buf i = sent_packet F s n chan buf j -> i = j) as Inj.
  { intros i j Hi Hj E. assert (Some (sent_frag F s n chan buf i) = Some (sent_frag F s n chan buf j)) as E'
      by (rewrite <- !parse_sent by done; by rewrite E). by injection E'. }
  edestruct (read_loop_collects sizeof_FragBuf sizeof_Fragment alloc S3 S1 S2 F s n chan buf sender t0
    Hs Hnz Hlen Hmtu HF Hfirst Hn Hlo Hhi Hpos arrivals H u [] idx) as (u'&E&Ef&Eb);
    [left; by auto|exact Fi|exact Lk|set_solver| | |].
  - intros [j Hj]%list_elem_of_lookup_1. destruct (Forall2_lookup_r _ _ _ _ _ Fi Hj) as (a&Ha&pkt&Ea&_&Eb&_).
    destruct Lk as (pkt'&[= <-]&_&Eb'&_).
    eapply Forall_lookup_1 in Hfresh; [|exact Ha]. apply (Hfresh _ Ea). congruence.
  - intros i Hi. destruct (Hcover (sent_packet F s n chan buf i)) as (a&pkt&Ha&Ea&Eb).
    { apply list_elem_of_fmap_2, elem_of_seq. lia. }
    apply elem_of_app in Ha as [Ha|Ha].
    + right. left. apply list_elem_of_lookup_1 in Ha as [j Ha].
      destruct (Forall2_lookup_l _ _ _ _ _ Fi Ha) as (i'&Hi'&pkt'&Ea'&Hlt&Eb'&_).
      assert (i = i') as -> by (apply Inj; congruence). by eapply list_elem_of_lookup_2.
    + left. apply list_elem_of_singleton in Ha as ->. destruct Lk as (pkt'&[= <-]&Hlt&Eb'&_).
      injection Ea as <-. apply Inj; congruence.
  - exists (mkUDP (pool u') (udp_rx u') (udp_discarded_bad u') (msg_seqno u') (Some (whole chan buf last))).
    unfold udp_recvmsg, readMessage, expireFragBufs. rewrite Hempty. cbn [length expire_loop].
    destruct u. cbn in *. rewrite E. cbn. rewrite Nat2Z.id, firstn_all. done.
Qed.
End Theorems.

Section Short.
Context (sizeof_FragBuf sizeof_Fragment : Z) (alloc : nat -> list byte).

Lemma strlen_app (s t : list byte) : Forall (fun b => b <> 0%Z) s -> strlen (s ++ 0%Z :: t) = Some (length s).
Proof.
  induction 1 as [|b s Hb _ IH]; [done|]. simpl. rewrite (proj2 (Z.eqb_neq b 0)) by done. by rewrite IH.
Qed.

Lemma short_header_magic s t : getMagic (short_header s ++ t) = ZCM_MAGIC_SHORT.
Proof.
  unfold getMagic, slice, short_header. rewrite drop_0, <- app_assoc, take_app_length'
    by (by rewrite length_be_split). apply be_combine_split.
Qed.

Lemma length_short_header s : length (short_header s) = SHORT_HEADER.
Proof. unfold short_header, htonl. by rewrite length_app, !length_be_split. Qed.

Lemma recvShort_spec s name t1 t2 stale sender ut : Forall (fun b => b <> 0%Z) name ->
  t1 ++ stale = name ++ 0%Z :: t2 -> length name <= ZCM_CHANNEL_MAXLEN ->
  recvShort (mkPacket (short_header s ++ t1) stale sender ut) =
    Some (Some (mkMessage ut name (length name) t2
      (wrapu 64 (Z.of_nat (length t1) - Z.of_nat (length name + 1)))), false).
Proof.
  intros Hn E Hl. unfold recvShort. cbn [pbytes pstale putime]. rewrite <- app_assoc, E.
  rewrite drop_app_length' by (by rewrite length_short_header). rewrite strlen_app by done. cbv beta iota zeta.
  rewrite (proj2 (Nat.ltb_ge _ _)) by done. do 4 f_equal.
  - unfold slice. rewrite drop_app_length' by (by rewrite length_short_header). apply take_app_length.
  - rewrite drop_app_ge by (rewrite length_short_header; lia).
    rewrite length_short_header, cons_middle, app_assoc. apply drop_app_length'. rewrite length_app. simpl. lia.
  - rewrite length_app, length_short_header. f_equal. lia.
Qed.

(** A message that fits one datagram arrives with its channel and its data,
    whatever is left in the packet buffer behind it. *)
Theorem udp_short_delivered L s chan buf H u now t stale sender ut :
  sane sizeof_FragBuf sizeof_Fragment alloc -> cstr_ok chan -> length chan <= ZCM_CHANNEL_MAXLEN ->
  length chan + 1 + length buf <= ZCM_SHORT_MESSAGE_MAX_SIZE L -> (Z.of_nat (length buf) < 2 ^ 64)%Z ->
  reach sizeof_FragBuf sizeof_Fragment alloc H u ->
  exists next pkt u', sendmsg L s chan buf [] = Some (next, ZCM_EOK, [pkt]) /\
    udp_recvmsg sizeof_FragBuf sizeof_Fragment alloc u now [(Some (mkPacket pkt stale sender ut), t)] =
      Some (u', ZCM_EOK, Some (mkMsg ut chan (Z.of_nat (length buf)) buf)) /\
    udp_rx u' = u32 (udp_rx u + 1).
Proof.
  intros S Hc Hlen Hshort Hsz R. pose proof (reach_rep _ _ _ H u S R) as Rp. destruct S as (S1&S2&S3).
  assert (Forall (fun b => b <> 0%Z) chan) as Hnz by (eapply Forall_impl; [exact Hc|simpl; lia]).
  destruct (expire_rep _ _ _ S1 S2 H now (length (fragbufs (pool u))) (pool u) 0 Rp) as (p&Ep&R').
  destruct (expire_rep _ _ _ S1 S2 H t (length (fragbufs p)) p 0 R') as (p2&Ep2&_).
  eexists _, _, _. split.
  { unfold sendmsg. rewrite (proj2 (Nat.ltb_ge _ _)), (proj2 (Nat.leb_le _ _)) by done. done. }
  unfold udp_recvmsg, readMessage, expireFragBufs. rewrite Ep.
  cbn [read_loop]. unfold readPacket, expireFragBufs. cbn [pool]. rewrite Ep2.
  cbn [pbytes]. rewrite (proj2 (Nat.ltb_ge _ _)) by (rewrite length_app, length_short_header; lia).
  rewrite short_header_magic, Z.eqb_refl.
  erewrite (recvShort_spec s chan _ (buf ++ stale)); [|done| |done]; [|by rewrite <- !app_assoc].
  cbn -[wrapu].
  assert (wrapu 64 (Z.of_nat (length (chan ++ 0%Z :: buf)) - Z.of_nat (length chan + 1)) = Z.of_nat (length buf))
    as -> by (rewrite length_app; cbn [length]; rewrite wrapu_id by (unfold in_u; lia); lia).
  rewrite Nat2Z.id, take_app_length. by split.
Qed.

(** A short packet whose channel is not terminated within the datagram is
    not rejected: the channel runs on into what an earlier packet left in the
    buffer, and the data length, computed without a check, wraps around below
    zero to almost 2^64. *)
Theorem udp_short_unterminated s name extra rest u H t sender ut :
  sane sizeof_FragBuf sizeof_Fragment alloc -> reach sizeof_FragBuf sizeof_Fragment alloc H u ->
  Forall (fun b => b <> 0%Z) (name ++ extra) -> length (name ++ extra) <= ZCM_CHANNEL_MAXLEN ->
  exists u' m,
    read_loop sizeof_FragBuf sizeof_Fragment alloc u
      [(Some (mkPacket (short_header s ++ name) (extra ++ 0%Z :: rest) sender ut), t)] = Some (u', Some m) /\
    m_channel m = name ++ extra /\ (m_datalen m = 2 ^ 64 - 1 - Z.of_nat (length extra))%Z /\
    (Z.of_nat (length (m_data m)) < 2 ^ 63 -> Z.of_nat (length (m_data m)) < m_datalen m)%Z.
Proof.
  intros S R Hnz Hl. pose proof (reach_rep _ _ _ H u S R) as Rp. destruct S as (S1&S2&S3).
  cbn [read_loop]. unfold readPacket, expireFragBufs.
  destruct (expire_rep _ _ _ S1 S2 H t (length (fragbufs (pool u))) (pool u) 0 Rp) as (p&->&R').
  cbn [pbytes]. rewrite (proj2 (Nat.ltb_ge _ _)) by (rewrite length_app, length_short_header; lia).
  rewrite short_header_magic, Z.eqb_refl.
  rewrite (recvShort_spec s (name ++ extra) _ rest) by (first [done|by rewrite <- !app_assoc]).
  eexists _, _. split; [done|]. cbn -[wrapu]. split; [done|].
  rewrite length_app in *. unfold ZCM_CHANNEL_MAXLEN in Hl.
  assert (wrapu 64 (Z.of_nat (length name) - Z.of_nat (length name + length extra + 1)) =
    2 ^ 64 - 1 - Z.of_nat (length extra))%Z as ->.
  { unfold wrapu. rewrite <- (Z.mod_add _ 1) by done. rewrite Z.mod_small; lia. }
  lia.
Qed.
End Short.

(** ** Witnesses *)

Definition ex_alloc (n : nat) : list byte := replicate n 170%Z.

Lemma ex_sane : sane 112 12 ex_alloc.
Proof. repeat split; try done. intros. apply length_replicate. Qed.

Definition ex_limits : limits := mkLimits 10 5.
Definition ex_buf : list byte := [1; 2; 3; 4; 5; 6; 7; 8]%Z.

(** Three fragments, the last one first, and one of them twice. *)
Definition ex_packet (i : nat) : Packet := mkPacket (sent_packet 5 7 3 (str "ab") ex_buf i) [] 1 (Z.of_nat i).

Lemma udp_fragments_delivered_witness :
  exists u', udp_recvmsg 112 12 ex_alloc udp_create 0
      [(Some (ex_packet 2), 100%Z); (Some (ex_packet 0), 200%Z); (Some (ex_packet 2), 300%Z); (Some (ex_packet 1), 400%Z)] =
    Some (u', ZCM_EOK, Some (mkMsg 1 (str "ab") 8 ex_buf)) /\
    udp_discarded_bad u' = 0%Z /\ fragbufs (pool u') = [].
Proof.
  apply (udp_fragments_delivered 112 12 ex_alloc ex_limits 7 (str "ab") ex_buf 8 (pbytes <$> (ex_packet <$> seq 0 3)) [] udp_create 0
    [(Some (ex_packet 2), 100%Z); (Some (ex_packet 0), 200%Z); (Some (ex_packet 2), 300%Z)] (ex_packet 1) 400%Z 1 50%Z).
  - apply ex_sane.
  - by vm_compute.
  - vm_compute. lia.
  - done.
  - repeat constructor.
  - done.
  - constructor.
  - done.
  - repeat (apply Forall_cons; split); [..|apply Forall_nil; done]; eexists; (split; [done|]);
      (split; [eapply (bool_decide_unpack _); vm_compute; exact I|done]).
  - intros b Hb. apply list_elem_of_fmap in Hb as (pk&->&Hp).
    apply list_elem_of_fmap in Hp as (i&->&Hi%elem_of_seq).
    destruct i as [|[|[|i]]]; [exists (Some (ex_packet 0), 200%Z)|exists (Some (ex_packet 1), 400%Z)
      |exists (Some (ex_packet 2), 100%Z)|lia]; eexists; (split; [set_solver|done]).
  - repeat (apply Forall_cons; split); [..|apply Forall_nil; done]; intros pk [= <-]; by vm_compute.
Defined.

Lemma udp_reassembly_sound_witness :
  exists u' om, readPacket 112 12 ex_alloc udp_create (Some (ex_packet 1)) 5 = Some (u', om) /\
    length (fragbufs (pool u')) <= MAX_NUM_FRAG_BUFS /\
    ((totalSize (pool u') <= MAX_FRAG_BUF_TOTAL_SIZE)%Z \/ length (fragbufs (pool u')) <= 1) /\
    totalSize (pool u') = allocated (fragbufs (pool u')) /\
    (forall m, om = Some m -> assembled [ex_packet 1] m).
Proof.
  apply (udp_reassembly_sound 112 12 ex_alloc [] udp_create (ex_packet 1) 5).
  - apply ex_sane.
  - constructor.
  - vm_compute. lia.
  - by vm_compute.
Defined.

Lemma udp_short_delivered_witness :
  exists next pkt u', sendmsg (mkLimits 100 50) 3 (str "ab") ex_buf [] = Some (next, ZCM_EOK, [pkt]) /\
    udp_recvmsg 112 12 ex_alloc udp_create 0 [(Some (mkPacket pkt [9; 9]%Z 1 77%Z), 5%Z)] =
      Some (u', ZCM_EOK, Some (mkMsg 77 (str "ab") 8 ex_buf)) /\ udp_rx u' = 1%Z.
Proof.
  apply (udp_short_delivered 112 12 ex_alloc (mkLimits 100 50) 3 (str "ab") ex_buf [] udp_create 0 5 [9; 9]%Z 1 77%Z).
  - apply ex_sane.
  - repeat constructor.
  - vm_compute. lia.
  - vm_compute. lia.
  - done.
  - constructor.
Defined.

Lemma udp_short_unterminated_witness :
  exists u' m, read_loop 112 12 ex_alloc udp_create
      [(Some (mkPacket (short_header 1 ++ str "ab") (str "xyz" ++ 0%Z :: [5%Z]) 1 7%Z), 3%Z)] = Some (u', Some m) /\
    m_channel m = str "ab" ++ str "xyz" /\ (m_datalen m = 2 ^ 64 - 1 - Z.of_nat (length (str "xyz")))%Z /\
    (Z.of_nat (length (m_data m)) < 2 ^ 63 -> Z.of_nat (length (m_data m)) < m_datalen m)%Z.
Proof.
  apply (udp_short_unterminated 112 12 ex_alloc 1 (str "ab") (str "xyz") [5%Z] udp_create [] 3%Z 1 7%Z).
  - apply ex_sane.
  - constructor.
  - repeat constructor; done.
  - vm_compute. lia.
Defined.
