(* ===== verification/Filter.v ===== *)
(** * The second-order filter (zcm/util/Filter.hpp)

    A [double] is an IEEE 754 binary64 number and every operation rounds to
    nearest even; the filter estimates the rate and the jitter of a tracker's
    messages. *)
From Stdlib Require Import SpecFloat.
From S2P Require Import Prelude.
Local Open Scope Z_scope.

(** ** Doubles *)

Abbreviation double := spec_float (only parsing).

Definition dadd : double -> double -> double := SFadd 53 1024.
Definition dsub : double -> double -> double := SFsub 53 1024.
Definition dmul : double -> double -> double := SFmul 53 1024.
Definition ddiv : double -> double -> double := SFdiv 53 1024.
Definition dsqrt : double -> double := SFsqrt 53 1024.
Definition dlt : double -> double -> bool := SFltb.
Definition dle : double -> double -> bool := SFleb.
Definition dneg : double -> double := SFopp.

(** The conversion of an integer, as the language converts a [uint64_t]. *)
Definition of_Z (z : Z) : double := binary_normalize 53 1024 z 0 false.
Definition zero : double := S754_zero false.

(** The decimal literal [n / d], correctly rounded when both are exact. *)
Definition lit (n d : Z) : double := ddiv (of_Z n) (of_Z d).

(** The conversion to [uint64_t]; outside its range it is undefined. *)
Definition to_u64 (x : double) : option Z :=
  match x with
  | S754_zero _ => Some 0
  | S754_finite s m e =>
      let z := if e <? 0 then Z.pos m / 2 ^ (- e) else Z.pos m * 2 ^ e in
      let z := if s then - z else z in
      check ((0 <=? z) && (z <? 2 ^ 64)) ;; Some z
  | _ => None
  end.

(** ** The filter *)

Record Filter := mkFilter {
  obs : double;
  x1 : double;
  x2 : double;
  natFreq : double;
  damping : double;
  natFreq2 : double;
  natFreqDamping_times2 : double;
  initialized : bool
}.

Definition with_state (f : Filter) (o a b : double) (init : bool) : Filter :=
  mkFilter o a b (natFreq f) (damping f) (natFreq2 f) (natFreqDamping_times2 f) init.

Definition reset (f : Filter) : Filter := with_state f zero zero zero false.

(** The two assertions of the constructor. *)
Definition filter_create (naturalFreq dampingFactor : double) : option Filter :=
  check (dlt zero naturalFreq && dlt zero dampingFactor) ;;
  Some (reset (mkFilter zero zero zero naturalFreq dampingFactor (dmul naturalFreq naturalFreq)
                 (dmul (dmul (of_Z 2) naturalFreq) dampingFactor) false)).

Definition convergenceTimeToNatFreq (riseTime damping : double) : option double :=
  check (dlt (lit 7 10) damping) ;;
  Some (ddiv (dadd (dsub (dmul (dmul (lit 2230 1000) damping) damping) (dmul (lit 78 1000) damping))
                   (lit 112 100)) riseTime).

Definition initialize (f : Filter) (o : double) : Filter :=
  with_state f o (ddiv o (natFreq2 f)) zero true.

Definition newObs (f : Filter) (o dt : double) : Filter :=
  if negb (initialized f) then initialize f o else
  let dx1 := x2 f in
  let dx2 := dadd (dsub (dmul (dneg (natFreq2 f)) (x1 f)) (dmul (natFreqDamping_times2 f) (x2 f))) o in
  with_state f o (dadd (x1 f) (dmul dt dx1)) (dadd (x2 f) (dmul dt dx2)) true.

Definition lowPass (f : Filter) : double := dmul (natFreq2 f) (x1 f).
Definition bandPass (f : Filter) : double := dmul (natFreqDamping_times2 f) (x2 f).
Definition highPass (f : Filter) : double := dsub (obs f) (dadd (lowPass f) (bandPass f)).

Inductive FilterMode := LOW_PASS | BAND_PASS | HIGH_PASS.

Definition filter_get (f : Filter) (m : FilterMode) : double :=
  match m with
  | LOW_PASS => lowPass f
  | BAND_PASS => bandPass f
  | HIGH_PASS => highPass f
  end.

(** A filter's gain is a finite, positive number. *)
Definition gain_ok (f : Filter) : Prop :=
  match natFreq2 f with S754_finite false _ _ | S754_zero false => True | _ => False end.

Lemma gain_with_state f o a b i : gain_ok (with_state f o a b i) <-> gain_ok f.
Proof. done. Qed.

Lemma gain_newObs f o dt : gain_ok f -> gain_ok (newObs f o dt).
Proof. unfold newObs. by destruct (negb _). Qed.

(** A filter that is reset has a low-pass output of zero. *)
Lemma lowPass_reset f : gain_ok f -> lowPass (reset f) = zero.
Proof. unfold gain_ok, lowPass. simpl. destruct (natFreq2 f) as [[]| | |[]]; done. Qed.

Lemma filter_create_reset a b f : filter_create a b = Some f -> exists g, f = reset g.
Proof.
  unfold filter_create. destruct (dlt zero a && dlt zero b); [|done]. intros H.
  eexists. apply (inj Some). symmetry. exact H.
Qed.
