(* ===== verification/Tracker.v ===== *)
(** * Message trackers (zcm/message_tracker.hpp)

    A tracker keeps the latest messages of a channel and answers queries by
    time; a synchronizer pairs the messages of one tracker with those of
    another.  An object of the code's [MsgType] carries a number here, so that
    two copies of equal messages are told apart. *)
From Stdlib Require Import SpecFloat.
From S2P Require Import Prelude Bytes Filter.
Local Open Scope Z_scope.

Definition UINT64_MAX : Z := 2 ^ 64 - 1.

(** ** Messages with a time *)

(** What a message type provides: its [utime] field or [getUtime] function if it
    has one, and the two virtual functions a tracker may override. *)
Record Traits (T : Type) := mkTraits {
  own_utime : option (T -> Z);
  virtual_getMsgUtime : T -> Z;
  virtual_interpolate : Z -> T -> Z -> T -> Z -> T
}.
Arguments own_utime {T} _.
Arguments virtual_getMsgUtime {T} _ _.
Arguments virtual_interpolate {T} _ _ _ _ _ _.

(** The implementations a tracker inherits. *)
Definition getMsgUtime_default {T} (msg : T) : Z := UINT64_MAX.
Definition interpolate_default {T} (utimeTarget : Z) (A : T) (utimeA : Z) (B : T) (utimeB : Z) : T :=
  if wrapu 64 (utimeTarget - utimeA) <? wrapu 64 (utimeB - utimeTarget) then A else B.

Record MsgType (T : Type) := mkMsgType { id : nat; msg : T; host_utime : Z }.
Arguments mkMsgType {T} _ _ _.
Arguments id {T} _.
Arguments msg {T} _.
Arguments host_utime {T} _.

Section Tracker.
Context {T : Type} (R : Traits T).

(** [MsgType::getUtime] *)
Definition getUtime (m : MsgType T) : Z :=
  match own_utime R with Some f => f (msg m) | None => host_utime m end.

Definition getMsgUtime (m : MsgType T) : Z :=
  let tmp := virtual_getMsgUtime R (msg m) in
  if negb (tmp =? UINT64_MAX) then tmp else getUtime m.

(** ** The tracker *)

(** [thr] says that there is a callback thread; its state is below. *)
Record Tracker := mkTracker {
  maxTimeErr_us : Z;
  bufMax : nat;
  buf : list (MsgType T);
  lastHostUtime : Z;
  hzFilter : Filter;
  jitterFilter : Filter;
  nextId : nat
}.

Definition with_buf (t : Tracker) (b : list (MsgType T)) : Tracker :=
  mkTracker (maxTimeErr_us t) (bufMax t) b (lastHostUtime t) (hzFilter t) (jitterFilter t) (nextId t).

Definition tracker_create (maxTimeErr : spec_float) (maxMsgs : nat) (freqEstConvergenceNumMsgs : spec_float)
  : option Tracker :=
  err <- to_u64 (dmul maxTimeErr (of_Z 1000000)) ;;
  hzFreq <- convergenceTimeToNatFreq freqEstConvergenceNumMsgs (lit 8 10) ;;
  hz <- filter_create hzFreq (lit 8 10) ;;
  jitterFreq <- convergenceTimeToNatFreq freqEstConvergenceNumMsgs (of_Z 1) ;;
  jitter <- filter_create jitterFreq (of_Z 1) ;;
  check (0 <? maxMsgs)%nat ;;
  Some (mkTracker err maxMsgs [] UINT64_MAX hz jitter 0).

Definition get_last (t : Tracker) : option T := msg <$> last (buf t).

(** The linear search of [get]: the closest messages at or before, and at or
    after, the time asked for. *)
Fixpoint search (utime : Z) (l : list (MsgType T)) (m0 m1 : option (T * Z)) : option (T * Z) * option (T * Z) :=
  match l with
  | [] => (m0, m1)
  | m :: l =>
      let mUtime := getMsgUtime m in
      let mUtime := if mUtime =? UINT64_MAX then getUtime m else mUtime in
      let m0' :=
        if (mUtime <=? utime) && (match m0 with None => true | Some (_, m0Utime) => m0Utime <? mUtime end)
        then Some (msg m, mUtime) else m0 in
      let m1' :=
        if (utime <=? mUtime) && (match m1 with None => true | Some (_, m1Utime) => mUtime <? m1Utime end)
        then Some (msg m, mUtime) else m1 in
      search utime l m0' m1'
  end.

Definition get_iter (maxTimeErr_us : Z) (utime : Z) (l : list (MsgType T)) : option T :=
  let '(m0, m1) := search utime l None None in
  let m0 := match m0 with
            | Some (m, m0Utime) => if maxTimeErr_us <? utime - m0Utime then None else Some (m, m0Utime)
            | None => None
            end in
  let m1 := match m1 with
            | Some (m, m1Utime) => if maxTimeErr_us <? m1Utime - utime then None else Some (m, m1Utime)
            | None => None
            end in
  match m0, m1 with
  | Some (m0, m0Utime), Some (m1, m1Utime) =>
      if m0Utime =? m1Utime then Some m0
      else Some (virtual_interpolate R utime m0 m0Utime m1 m1Utime)
  | Some (m0, _), None => Some m0
  | None, Some (m1, _) => Some m1
  | None, None => None
  end.

Definition get (t : Tracker) (utime : Z) : option T := get_iter (maxTimeErr_us t) utime (buf t).

Fixpoint range_loop (utimeA utimeB : Z) (l : list (MsgType T)) (ret : list T) : list T :=
  match l with
  | [] => ret
  | m :: l =>
      let mUtime := getMsgUtime m in
      range_loop utimeA utimeB l
        (if (utimeA <=? mUtime) && (mUtime <=? utimeB) then ret ++ [msg m] else ret)
  end.

Definition getRange (t : Tracker) (utimeA utimeB : Z) : list T := range_loop utimeA utimeB (buf t) [].

(** The two loops of [expireBefore]: drop old messages at the front, then erase
    the others. *)
Fixpoint expire_front (utime : Z) (l : list (MsgType T)) (ret : nat) : list (MsgType T) * nat :=
  match l with
  | [] => ([], ret)
  | m :: l' => if utime <=? getMsgUtime m then (l, ret) else expire_front utime l' (ret + 1)
  end.

Fixpoint expire_rest (utime : Z) (l : list (MsgType T)) (ret : nat) : list (MsgType T) * nat :=
  match l with
  | [] => ([], ret)
  | m :: l' =>
      if getMsgUtime m <? utime then expire_rest utime l' (ret + 1)
      else let '(r, n) := expire_rest utime l' ret in (m :: r, n)
  end.

Definition expireBefore (t : Tracker) (utime : Z) : Tracker * nat :=
  let '(l, ret) := expire_front utime (buf t) 0 in
  let '(l, ret) := expire_rest utime l ret in
  (with_buf t l, ret).

(** The estimate of frequency and jitter, [lastHostUtime] being known. *)
Definition run_filters (t : Tracker) (hostUtime : Z) : Filter * Filter :=
  if lastHostUtime t =? UINT64_MAX then (hzFilter t, jitterFilter t)
  else if hostUtime <? lastHostUtime t then (reset (hzFilter t), jitterFilter t)
  else
    let obs := of_Z (hostUtime - lastHostUtime t) in
    let hz := newObs (hzFilter t) obs (of_Z 1) in
    let jitterObs := dsub obs (filter_get hz LOW_PASS) in
    let jitterObsSq := dmul jitterObs jitterObs in
    (hz, newObs (jitterFilter t) jitterObsSq (of_Z 1)).

(** The part of [newMsg] under [bufLock]. *)
Definition newMsg (t : Tracker) (m : T) (hostUtime : Z) : Tracker * Z :=
  let tmp := mkMsgType (nextId t) m hostUtime in
  let tmpUtime := getMsgUtime tmp in
  let b := if (length (buf t) =? bufMax t)%nat then tail (buf t) else buf t in
  let '(hz, jitter) := run_filters t hostUtime in
  (mkTracker (maxTimeErr_us t) (bufMax t) (b ++ [tmp]) hostUtime hz jitter (S (nextId t)), tmpUtime).

Definition getHz (t : Tracker) : spec_float :=
  let lp := filter_get (hzFilter t) LOW_PASS in
  if dle lp (lit 1 1000000000) then of_Z (-1) else ddiv (of_Z 1000000) lp.

Definition lastMsgHostUtime (t : Tracker) : Z :=
  match buf t with [] => UINT64_MAX | _ => lastHostUtime t end.

Definition getJitterUs (t : Tracker) : spec_float := dsqrt (filter_get (jitterFilter t) LOW_PASS).
End Tracker.
Arguments Tracker : clear implicits.

(** ** The callback thread

    [callbackLock] is held by the callback thread while it is in [onMsg], and
    free while it waits.  [handed] are the objects given to [onMsg], which owns
    them from then on; [deleted] those the tracker deleted itself. *)
Inductive CallbackState := CbWaiting | CbInCallback (m : nat) | CbExited.

Record Callbacks := mkCallbacks {
  cb_thread : CallbackState;
  callbackMsg : option nat;
  done : bool;
  handed : list nat;
  deleted : list nat;
  allocated : nat
}.

Definition callbacks_create : Callbacks := mkCallbacks CbWaiting None false [] [] 0.

(** The thread wakes up with the lock: it leaves, or calls [onMsg], or waits on. *)
Definition cb_wake (c : Callbacks) : option Callbacks :=
  match cb_thread c with
  | CbWaiting =>
      if done c then Some (mkCallbacks CbExited (callbackMsg c) true (handed c) (deleted c) (allocated c))
      else match callbackMsg c with
           | Some m => Some (mkCallbacks (CbInCallback m) (Some m) false (handed c ++ [m]) (deleted c) (allocated c))
           | None => None
           end
  | _ => None
  end.

(** [onMsg] returns; the loop goes back to waiting, or ends. *)
Definition cb_return (c : Callbacks) : option Callbacks :=
  match cb_thread c with
  | CbInCallback _ =>
      Some (mkCallbacks (if done c then CbExited else CbWaiting) None (done c) (handed c) (deleted c) (allocated c))
  | _ => None
  end.

(** The dispatch at the end of [newMsg]; [inside] says that the caller is the
    callback itself, for which the recursive lock is free. *)
Definition cb_dispatch (inside : bool) (c : Callbacks) : Callbacks :=
  let locked := match cb_thread c with CbInCallback _ => negb inside | _ => false end in
  if locked then c else
  mkCallbacks (cb_thread c) (Some (allocated c)) (done c) (handed c)
    (match callbackMsg c with Some m => deleted c ++ [m] | None => deleted c end) (S (allocated c)).

(** The destructor: its first half takes the lock, its second one runs when the
    thread has been joined. *)
Definition cb_shutdown (c : Callbacks) : option Callbacks :=
  match cb_thread c with
  | CbInCallback _ => None
  | th => Some (mkCallbacks th (callbackMsg c) true (handed c) (deleted c) (allocated c))
  end.

Definition cb_destroy (c : Callbacks) : option Callbacks :=
  match cb_thread c with
  | CbExited =>
      Some (mkCallbacks CbExited None (done c) (handed c)
        (match callbackMsg c with Some m => deleted c ++ [m] | None => deleted c end) (allocated c))
  | _ => None
  end.

(** ** The synchronizer *)

Section Synchronizer.
Context {T1 T2 : Type} (R1 : Traits T1) (R2 : Traits T2).

Record Dispatcher := mkDispatcher { t1 : Tracker T1; t2 : Tracker T2 }.

(** The loop of [process] from an iterator on: what stays in the first tracker
    and the pairs given to [onSynchronizedMsg]. *)
Fixpoint process_loop (t2 : Tracker T2) (t2Utime : Z) (l : list (MsgType T1))
  : list (MsgType T1) * list (MsgType T1 * T2) :=
  match l with
  | [] => ([], [])
  | m :: l =>
      let '(rest, out) := process_loop t2 t2Utime l in
      let t1Utime := getMsgUtime R1 m in
      if t1Utime <=? t2Utime then
        match get R2 t2 t1Utime with
        | Some msg2 => (rest, (m, msg2) :: out)
        | None => (m :: rest, out)
        end
      else (m :: rest, out)
  end.

(** [process] from position [begin] of the first tracker. *)
Definition process (d : Dispatcher) (begin : nat) : Dispatcher * list (MsgType T1 * T2) :=
  match last (buf (t2 d)) with
  | None => (d, [])
  | Some m2 =>
      let '(rest, out) := process_loop (t2 d) (getMsgUtime R2 m2) (drop begin (buf (t1 d))) in
      (mkDispatcher (with_buf (t1 d) (take begin (buf (t1 d)) ++ rest)) (t2 d), out)
  end.

(** [TrackerOverride1::handle]: only the new message is looked at. *)
Definition handle1 (d : Dispatcher) (m : T1) (hostUtime : Z) : Dispatcher * list (MsgType T1 * T2) :=
  let '(t, _) := newMsg R1 (t1 d) m hostUtime in
  let d := mkDispatcher t (t2 d) in
  match buf t with
  | [] => (d, [])
  | _ => process d (length (buf t) - 1)
  end.

(** [TrackerOverride2::handle] *)
Definition handle2 (d : Dispatcher) (m : T2) (hostUtime : Z) : Dispatcher * list (MsgType T1 * T2) :=
  let '(t, _) := newMsg R2 (t2 d) m hostUtime in
  process (mkDispatcher (t1 d) t) 0.

Inductive input := Type1Msg (m : T1) (hostUtime : Z) | Type2Msg (m : T2) (hostUtime : Z).

Definition sync_step (d : Dispatcher) (i : input) : Dispatcher * list (MsgType T1 * T2) :=
  match i with
  | Type1Msg m h => handle1 d m h
  | Type2Msg m h => handle2 d m h
  end.

Fixpoint sync_run (d : Dispatcher) (l : list input) : Dispatcher * list (MsgType T1 * T2) :=
  match l with
  | [] => (d, [])
  | i :: l =>
      let '(d, out) := sync_step d i in
      let '(d, out') := sync_run d l in
      (d, out ++ out')
  end.
End Synchronizer.
