(* ===== verification/TrackerProps.v ===== *)
(** * Trackers: queries, callbacks and synchronization *)
From Stdlib Require Import SpecFloat Sorted.
From S2P Require Import Prelude Bytes Filter Tracker.
Local Open Scope Z_scope.

Section Queries.
Context {T : Type} (R : Traits T).
Local Abbreviation time := (getMsgUtime R).

(** The second fallback of [get] never changes the time. *)
Lemma time_fallback m : (if time m =? UINT64_MAX then getUtime R m else time m) = time m.
Proof.
  destruct (time m =? UINT64_MAX) eqn:E; [|done]. bool_prop. unfold getMsgUtime in *.
  destruct (negb _) eqn:E'; bool_prop; congruence.
Qed.

(** [m] is a latest message at or before [u], an earliest one at or after it. *)
Definition latest_before (u : Z) (l : list (MsgType T)) (m : MsgType T) : Prop :=
  m ∈ l /\ time m <= u /\ forall m', m' ∈ l -> time m' <= u -> time m' <= time m.
Definition earliest_after (u : Z) (l : list (MsgType T)) (m : MsgType T) : Prop :=
  m ∈ l /\ u <= time m /\ forall m', m' ∈ l -> u <= time m' -> time m <= time m'.

Definition found (P : MsgType T -> Prop) (Q : MsgType T -> Prop) (l : list (MsgType T)) (a : option (T * Z)) : Prop :=
  match a with
  | None => forall m, m ∈ l -> ~ Q m
  | Some (x, ux) => exists m, P m /\ x = msg m /\ ux = time m
  end.

Definition found_before u l := found (latest_before u l) (fun m => time m <= u) l.
Definition found_after u l := found (earliest_after u l) (fun m => u <= time m) l.

Lemma found_before_step u l m a : found_before u l a ->
  found_before u (l ++ [m]) (if (time m <=? u) && (match a with None => true | Some (_, v) => v <? time m end)
                             then Some (msg m, time m) else a).
Proof.
  unfold found_before, found, latest_before. intros H.
  destruct (time m <=? u) eqn:E; bool_prop; destruct a as [[x v]|]; simpl; [destruct (v <? time m) eqn:E2| | |]; bool_prop.
  - destruct H as (m0&(?&?&H)&->&->). exists m. repeat split; [set_solver|done|].
    intros m' [Hm| ->%list_elem_of_singleton]%elem_of_app ?; [|lia]. specialize (H _ Hm). lia.
  - destruct H as (m0&(?&?&H)&->&->). exists m0. repeat split; [set_solver|done|].
    intros m' [Hm|Hm]%elem_of_app ?; [auto|]. apply list_elem_of_singleton in Hm as ->. lia.
  - exists m. repeat split; [set_solver|done|].
    intros m' [Hm|Hm]%elem_of_app ?; [by apply H in Hm|]. apply list_elem_of_singleton in Hm as ->. lia.
  - destruct H as (m0&(?&?&H)&->&->). exists m0. repeat split; [set_solver|done|].
    intros m' [Hm|Hm]%elem_of_app ?; [auto|]. apply list_elem_of_singleton in Hm as ->. lia.
  - intros m' [Hm|Hm]%elem_of_app; [auto|]. apply list_elem_of_singleton in Hm as ->. lia.
Qed.

Lemma found_after_step u l m a : found_after u l a ->
  found_after u (l ++ [m]) (if (u <=? time m) && (match a with None => true | Some (_, v) => time m <? v end)
                            then Some (msg m, time m) else a).
Proof.
  unfold found_after, found, earliest_after. intros H.
  destruct (u <=? time m) eqn:E; bool_prop; destruct a as [[x v]|]; simpl; [destruct (time m <? v) eqn:E2| | |]; bool_prop.
  - destruct H as (m0&(?&?&H)&->&->). exists m. repeat split; [set_solver|done|].
    intros m' [Hm|Hm]%elem_of_app ?; [specialize (H _ Hm); lia|]. apply list_elem_of_singleton in Hm as ->. lia.
  - destruct H as (m0&(?&?&H)&->&->). exists m0. repeat split; [set_solver|done|].
    intros m' [Hm|Hm]%elem_of_app ?; [auto|]. apply list_elem_of_singleton in Hm as ->. lia.
  - exists m. repeat split; [set_solver|done|].
    intros m' [Hm|Hm]%elem_of_app ?; [by apply H in Hm|]. apply list_elem_of_singleton in Hm as ->. lia.
  - destruct H as (m0&(?&?&H)&->&->). exists m0. repeat split; [set_solver|done|].
    intros m' [Hm|Hm]%elem_of_app ?; [auto|]. apply list_elem_of_singleton in Hm as ->. lia.
  - intros m' [Hm|Hm]%elem_of_app; [auto|]. apply list_elem_of_singleton in Hm as ->. lia.
Qed.

Lemma search_found u l : forall pre a b, found_before u pre a -> found_after u pre b ->
  found_before u (pre ++ l) (search R u l a b).1 /\ found_after u (pre ++ l) (search R u l a b).2.
Proof.
  induction l as [|m l IH]; intros pre a b Ha Hb; simpl; [by rewrite app_nil_r|].
  rewrite time_fallback, cons_middle, app_assoc.
  apply IH; [by apply found_before_step|by apply found_after_step].
Qed.

(** The cases of [get]. *)
Definition get_spec (e u : Z) (l : list (MsgType T)) (r : option T) : Prop :=
  match r with
  | None => forall m, m ∈ l -> e < Z.abs (time m - u)
  | Some x =>
      (exists m, latest_before u l m /\ u - time m <= e /\ x = msg m /\
         (time m = u \/ forall m', m' ∈ l -> u <= time m' -> e < time m' - u)) \/
      (exists m, earliest_after u l m /\ time m - u <= e /\ x = msg m /\
         forall m', m' ∈ l -> time m' <= u -> e < u - time m') \/
      (exists m0 m1, latest_before u l m0 /\ earliest_after u l m1 /\
         time m0 < u < time m1 /\ u - time m0 <= e /\ time m1 - u <= e /\
         x = virtual_interpolate R u (msg m0) (time m0) (msg m1) (time m1))
  end.

Lemma get_iter_spec e u l : 0 <= e -> get_spec e u l (get_iter R e u l).
Proof.
  intros He. unfold get_iter.
  destruct (search_found u l [] None None) as [H0 H1]; [intros m; set_solver..|]. simpl in H0, H1.
  destruct (search R u l None None) as [a b]. simpl in H0, H1. unfold found_before, found_after, found in *.
  destruct a as [[x0 u0]|]; [destruct H0 as (m0&B0&->&->); pose proof B0 as (I0&L0&M0)|];
  (destruct b as [[x1 u1]|]; [destruct H1 as (m1&B1&->&->); pose proof B1 as (I1&L1&M1)|]);
  repeat (destruct (_ <? _) eqn:?; bool_prop); try (destruct (_ =? _) eqn:?; bool_prop); simpl.
  all: try (intros m Hm; destruct (decide (time m <= u));
      [try (pose proof (M0 m Hm ltac:(done)))|try (pose proof (M1 m Hm ltac:(lia)))];
      first [lia|exfalso; eapply H0; [exact Hm|simpl; lia]|exfalso; eapply H1; [exact Hm|simpl; lia]]).
  - right. left. exists m1. repeat split; auto; try apply B1. intros m' Hm' ?. specialize (M0 m' Hm'). lia.
  - left. exists m0. repeat split; auto; try apply B0. right. intros m' Hm' ?. specialize (M1 m' Hm'). lia.
  - left. exists m0. repeat split; auto; try apply B0. left. lia.
  - right. right. pose proof (M0 _ I1). pose proof (M1 _ I0).
    exists m0, m1. repeat split; auto; try apply B0; try apply B1; lia.
  - left. exists m0. repeat split; auto; try apply B0. right. intros m' Hm' ?. exfalso. by eapply H1.
  - right. left. exists m1. repeat split; auto; try apply B1. intros m' Hm' ?. exfalso. by eapply H0.
Qed.
End Queries.

Section Buffers.
Context {T : Type} (R : Traits T).
Local Abbreviation time := (getMsgUtime R).

Lemma range_loop_filter a b l : forall ret,
  range_loop R a b l ret = ret ++ (msg <$> filter (fun m => a <= time m <= b) l).
Proof.
  induction l as [|m l IH]; intros ret; simpl; [by rewrite app_nil_r|]. rewrite IH, filter_cons.
  destruct (decide (a <= time m <= b)) as [H|H].
  - rewrite (proj2 (Z.leb_le _ _)), (proj2 (Z.leb_le _ _)) by lia. simpl. by rewrite <- app_assoc.
  - destruct ((a <=? time m) && (time m <=? b)) eqn:E; [|done]. bool_prop. lia.
Qed.

Lemma expire_rest_filter u l : forall n,
  expire_rest R u l n = (filter (fun m => u <= time m) l, (n + length (filter (fun m => ~ (u <= time m)%Z) l))%nat).
Proof.
  induction l as [|m l IH]; intros n; simpl; [by rewrite Nat.add_0_r|].
  rewrite !filter_cons. destruct (time m <? u) eqn:E; bool_prop.
  - rewrite IH, (decide_False (P := u <= time m)), decide_True by lia. simpl. f_equal. lia.
  - rewrite IH, (decide_True (P := u <= time m)), (decide_False (P := ~ u <= time m)) by lia. done.
Qed.

Lemma expire_front_filter u l : forall n, exists k,
  expire_front R u l n = (drop k l, (n + k)%nat) /\ (k <= length l)%nat /\
  Forall (fun m => time m < u) (take k l).
Proof.
  induction l as [|m l IH]; intros n; simpl.
  - exists 0%nat. split; [by rewrite Nat.add_0_r|]. split; [done|constructor].
  - destruct (u <=? time m) eqn:E; bool_prop.
    + exists 0%nat. split; [by rewrite Nat.add_0_r|]. split; [lia|constructor].
    + destruct (IH (n + 1)%nat) as (k&->&?&?). exists (S k). split; [simpl; f_equal; lia|].
      split; [lia|]. by constructor.
Qed.

Lemma filter_all_False (P : MsgType T -> Prop) `{!forall m, Decision (P m)} l :
  Forall (fun m => ~ P m) l -> filter P l = [].
Proof. induction 1; simpl; [done|]. by rewrite filter_cons_False. Qed.

Lemma filter_all_True (P : MsgType T -> Prop) `{!forall m, Decision (P m)} l :
  Forall P l -> filter P l = l.
Proof. induction 1 as [|m l Hm _ IH]; simpl; [done|]. rewrite filter_cons_True by done. by rewrite IH. Qed.

Lemma expireBefore_filter t u : expireBefore R t u =
  (with_buf t (filter (fun m => u <= time m) (buf t)), length (filter (fun m => ~ u <= time m) (buf t))).
Proof.
  unfold expireBefore. destruct (expire_front_filter u (buf t) 0) as (k&->&Hk&F). simpl.
  rewrite expire_rest_filter.
  assert (filter (fun m => u <= time m) (buf t) = filter (fun m => u <= time m) (drop k (buf t))) as ->.
  { rewrite <- (take_drop k (buf t)) at 1. rewrite filter_app, (filter_all_False _ (take k _)); [done|].
    eapply Forall_impl; [exact F|simpl; lia]. }
  assert (filter (fun m => ~ u <= time m) (buf t) = take k (buf t) ++ filter (fun m => ~ u <= time m) (drop k (buf t))) as ->.
  { rewrite <- (take_drop k (buf t)) at 1. rewrite filter_app, (filter_all_True _ (take k _)); [done|].
    eapply Forall_impl; [exact F|simpl; lia]. }
  f_equal. rewrite length_app, length_take. lia.
Qed.

(** The last [k] elements of a list. *)
Definition lastn {A} (k : nat) (l : list A) : list A := drop (length l - k) l.

Fixpoint feed (t : Tracker T) (ms : list (T * Z)) : Tracker T :=
  match ms with
  | [] => t
  | (m, h) :: ms => feed (newMsg R t m h).1 ms
  end.

Lemma tail_drop_1 {A} (l : list A) : tail l = drop 1 l.
Proof. by destruct l. Qed.

Lemma lastn_snoc {A} k (l : list A) x : (0 < k)%nat ->
  lastn k (l ++ [x]) = (if (length (lastn k l) =? k)%nat then tail (lastn k l) else lastn k l) ++ [x].
Proof.
  intros Hk. unfold lastn. rewrite length_app, length_drop. simpl.
  destruct (_ =? k)%nat eqn:E; bool_prop.
  - rewrite drop_app_le by lia. f_equal. rewrite tail_drop_1, drop_drop. f_equal. lia.
  - rewrite drop_app_le by lia. f_equal. f_equal. lia.
Qed.

Lemma feed_window ms : forall t old, (0 < bufMax t)%nat ->
  (fun m => (msg m, host_utime m)) <$> buf t = lastn (bufMax t) old ->
  (fun m => (msg m, host_utime m)) <$> buf (feed t ms) = lastn (bufMax t) (old ++ ms) /\
  bufMax (feed t ms) = bufMax t.
Proof.
  induction ms as [|[m h] ms IH]; intros t old Hk E; simpl; [by rewrite app_nil_r|].
  rewrite cons_middle, app_assoc. unfold newMsg. destruct (run_filters t h) as [f1 f2]. simpl.
  apply (IH (mkTracker _ (bufMax t) _ h f1 f2 _)); [done|]. simpl.
  rewrite fmap_app, lastn_snoc, <- E, length_fmap by done. simpl. f_equal.
  destruct (_ =? _)%nat; [|done]. by destruct (buf t).
Qed.

Lemma run_filters_gain (t : Tracker T) h : gain_ok (hzFilter t) -> gain_ok (run_filters t h).1.
Proof.
  intros G. unfold run_filters. destruct (_ =? _); [done|]. destruct (_ <? _); [done|]. by apply gain_newObs.
Qed.
End Buffers.

(** ** The callback thread *)

Definition pending (c : Callbacks) : list nat :=
  match cb_thread c, callbackMsg c with
  | CbInCallback _, _ => []
  | _, Some m => [m]
  | _, None => []
  end.

Record cb_inv (c : Callbacks) : Prop := {
  ci_all : handed c ++ deleted c ++ pending c ≡ₚ seq 0 (allocated c);
  ci_order : StronglySorted lt (handed c ++ pending c);
  ci_current : forall m, cb_thread c = CbInCallback m -> callbackMsg c = Some m /\ m ∈ handed c
}.

(** What happens to a tracker with a callback; the last step of the destructor
    is apart. *)
Inductive cb_op := OpWake | OpReturn | OpNewMsg | OpShutdown.

Definition cb_exec (c : Callbacks) (o : cb_op) : option Callbacks :=
  match o with
  | OpWake => cb_wake c
  | OpReturn => cb_return c
  | OpNewMsg => Some (cb_dispatch false c)
  | OpShutdown => cb_shutdown c
  end.

Fixpoint cb_run (c : Callbacks) (l : list cb_op) : option Callbacks :=
  match l with
  | [] => Some c
  | o :: l => c <- cb_exec c o ;; cb_run c l
  end.

Lemma sorted_snoc l x : Forall (fun y => y < x)%nat l -> StronglySorted lt l -> StronglySorted lt (l ++ [x]).
Proof.
  intros F S. induction S as [|y l S IH Fy]; simpl; [repeat constructor|].
  apply Forall_cons in F as [? F]. constructor; [auto|]. apply Forall_app. auto.
Qed.

Lemma sorted_prefix (l l' : list nat) : StronglySorted lt (l ++ l') -> StronglySorted lt l.
Proof.
  induction l as [|x l IH]; simpl; [constructor|]. intros H.
  apply StronglySorted_inv in H as [H F]. apply Forall_app in F as [F _]. constructor; auto.
Qed.

Lemma ids_below c : cb_inv c -> Forall (fun y => y < allocated c)%nat (handed c).
Proof.
  intros [P _ _]. apply Forall_forall. intros y Hy.
  assert (y ∈ seq 0 (allocated c)) as H%elem_of_seq by (rewrite <- P; set_solver). lia.
Qed.

Lemma cb_inv_exec c o c' : cb_inv c -> cb_exec c o = Some c' -> cb_inv c'.
Proof.
  intros I. pose proof (ids_below c I) as B. destruct I as [P S Cu].
  destruct c as [th cm d h del al]. unfold pending in *. simpl in *. destruct o; simpl; intros E.
  - unfold cb_wake in E. simpl in E. destruct th; try done. destruct d; [|destruct cm as [m|]; [|done]];
      injection E as <-; constructor; unfold pending; simpl; try done; try (by rewrite app_nil_r).
    + rewrite app_nil_r, <- app_assoc. simpl. rewrite <- P. f_equiv. apply Permutation_cons_append.
    + intros m' [= <-]. split; [done|]. set_solver.
  - unfold cb_return in E. simpl in E. destruct th; try done. injection E as <-.
    constructor; unfold pending; simpl; destruct d; done.
  - injection E as <-. pose proof (sorted_prefix _ _ S) as Sh. unfold cb_dispatch.
    destruct th as [|m|]; simpl; [|by constructor|];
      (constructor; unfold pending; cbn [cb_thread callbackMsg handed deleted allocated];
        [|by apply sorted_snoc|done]);
      rewrite seq_S, <- P; destruct cm; by rewrite ?app_nil_r, <- ?app_assoc.
  - unfold cb_shutdown in E. simpl in E. destruct th; try done; injection E as <-; by constructor.
Qed.


Lemma cb_run_inv l c : cb_run callbacks_create l = Some c -> cb_inv c.
Proof.
  assert (cb_inv callbacks_create) as I by (repeat constructor; done). revert I.
  generalize callbacks_create. induction l as [|o l IH]; intros c0 I; simpl; [by intros [= <-]|].
  case_opt; [|done]. apply IH. by eapply cb_inv_exec.
Qed.

(** ** The synchronizer *)

Section Sync.
Context {T1 T2 : Type} (R1 : Traits T1) (R2 : Traits T2).
Local Abbreviation time1 := (getMsgUtime R1).
Local Abbreviation time2 := (getMsgUtime R2).
Local Abbreviation Disp := (@Dispatcher T1 T2).

Definition ids (l : list (MsgType T1 * T2)) : list nat := id <$> (fst <$> l).

(** No waiting message could be paired now. *)
Definition settled (t2 : Tracker T2) (l : list (MsgType T1)) : Prop :=
  forall m2 m, last (buf t2) = Some m2 -> m ∈ l -> time1 m <= time2 m2 -> get R2 t2 (time1 m) = None.

Definition paired (t2 : Tracker T2) (p : MsgType T1 * T2) : Prop :=
  exists m2, last (buf t2) = Some m2 /\ time1 p.1 <= time2 m2 /\ get R2 t2 (time1 p.1) = Some p.2.

Lemma settled_nil t2 : settled t2 [].
Proof. intros m2 m _ Hm. by apply elem_of_nil in Hm. Qed.

Lemma process_loop_spec (t2 : Tracker T2) m2 l : last (buf t2) = Some m2 ->
  let r := process_loop R1 R2 t2 (time2 m2) l in
  (fst <$> r.2) ++ r.1 ≡ₚ l /\ settled t2 r.1 /\ Forall (paired t2) r.2.
Proof.
  intros E. induction l as [|m l IH]; simpl; [split; [done|split; [apply settled_nil|constructor]]|].
  destruct (process_loop R1 R2 t2 (time2 m2) l) as [rest out]. simpl in *. destruct IH as (P&S&F).
  assert (settled t2 (m :: rest) <-> (time1 m <= time2 m2 -> get R2 t2 (time1 m) = None)) as Sm.
  { split; [intros H; apply (H m2 m E); left|]. intros H m2' m' E' [-> |Hm]%elem_of_cons; [|by apply S].
    assert (m2' = m2) as -> by congruence. done. }
  destruct (time1 m <=? time2 m2) eqn:Et; bool_prop; [destruct (get R2 t2 (time1 m)) as [x|] eqn:Eg|]; simpl.
  - split; [by rewrite P|]. split; [done|]. constructor; [|done]. by exists m2.
  - split; [by rewrite <- Permutation_middle, P|]. split; [by apply Sm|done].
  - split; [by rewrite <- Permutation_middle, P|]. split; [apply Sm; lia|done].
Qed.

Definition waiting (d : Disp) : list nat := id <$> buf (t1 d).

Record sync_inv (d : Disp) (done : list nat) : Prop := {
  si_once : NoDup (done ++ waiting d);
  si_fresh : Forall (fun i => i < nextId (t1 d))%nat (done ++ waiting d);
  si_settled : settled (t2 d) (buf (t1 d))
}.

Lemma settled_sub t2 l l' : settled t2 l -> l' ⊆ l -> settled t2 l'.
Proof. intros S H m2 m E Hm. by apply S, H. Qed.

Lemma sync_inv_ids (d d' : Disp) done done' : sync_inv d done ->
  done' ++ waiting d' ≡ₚ done ++ waiting d -> nextId (t1 d') = nextId (t1 d) ->
  settled (t2 d') (buf (t1 d')) -> sync_inv d' done'.
Proof.
  intros [N F _] P E S. constructor; [by rewrite P|by rewrite P, E|done].
Qed.

(** A run of [process] over a part of the first tracker, the rest being settled. *)
Lemma process_inv (d d' : Disp) done out k :
  NoDup (done ++ waiting d) -> Forall (fun i => i < nextId (t1 d))%nat (done ++ waiting d) ->
  settled (t2 d) (take k (buf (t1 d))) -> process R1 R2 d k = (d', out) ->
  sync_inv d' (done ++ ids out) /\ Forall (paired (t2 d')) out /\ nextId (t1 d') = nextId (t1 d).
Proof.
  intros N Fr S. unfold process. destruct (last (buf (t2 d))) as [m2|] eqn:E.
  - destruct (process_loop_spec (t2 d) m2 (drop k (buf (t1 d))) E) as (P&S'&F).
    destruct (process_loop R1 R2 (t2 d) (time2 m2) (drop k (buf (t1 d)))) as [rest o]. simpl in *.
    intros [= <- <-]. split; [|done].
    assert ((done ++ ids o) ++ (id <$> take k (buf (t1 d)) ++ rest) ≡ₚ done ++ waiting d) as PP.
    { unfold ids, waiting. rewrite <- app_assoc. f_equiv. rewrite <- (take_drop k (buf (t1 d))) at 2.
      rewrite !fmap_app, <- P, fmap_app, !(Permutation_app_comm (id <$> take k (buf (t1 d)))), app_assoc. done. }
    constructor; simpl; [by rewrite PP|by rewrite PP|].
    intros m2' m E' [Hm|Hm]%elem_of_app; [by apply S|by apply S'].
  - intros [= <- <-]. split; [|done]. unfold ids. simpl. rewrite app_nil_r.
    constructor; [done|done|]. intros m2 m E'. congruence.
Qed.

Lemma newMsg_ids (t : Tracker T1) m h :
  let t' := (newMsg R1 t m h).1 in
  (exists b, buf t' = b ++ [mkMsgType (nextId t) m h] /\ b `sublist_of` buf t) /\ nextId t' = S (nextId t).
Proof.
  unfold newMsg. destruct (run_filters t h). simpl. split; [|done]. eexists. split; [done|].
  destruct (_ =? _)%nat; [|done]. destruct (buf t); [done|]. by apply sublist_cons.
Qed.

Lemma sync_step_inv d done i d' out : sync_inv d done -> sync_step R1 R2 d i = (d', out) ->
  sync_inv d' (done ++ ids out) /\ Forall (paired (t2 d')) out.
Proof.
  intros [N F S]. destruct i as [m h|m h]; simpl; unfold handle1, handle2.
  - destruct (newMsg_ids (t1 d) m h) as ((b&Eb&Sb)&En).
    destruct (newMsg R1 (t1 d) m h) as [t u]. simpl in Eb, En. rewrite Eb.
    destruct (b ++ [_]) eqn:Ed; [by destruct b|]. rewrite <- Ed in *. clear Ed. intros E.
    assert (done ++ (id <$> b) `sublist_of` done ++ waiting d) as Sub
      by (apply sublist_app; [done|by apply fmap_sublist]).
    apply process_inv with (done := done) in E as (?&?&_); [done|..]; simpl.
    + unfold waiting. simpl. rewrite Eb, fmap_app, app_assoc. apply NoDup_app. split; [by eapply sublist_NoDup|].
      split; [|apply NoDup_singleton]. intros x Hx Hx'. apply list_elem_of_singleton in Hx' as ->.
      assert (nextId (t1 d) ∈ done ++ waiting d) as H by (by eapply elem_of_sublist).
      rewrite Forall_forall in F. specialize (F _ H). simpl in F. lia.
    + unfold waiting. simpl. rewrite Eb, fmap_app, app_assoc, En. apply Forall_app. split.
      * apply Forall_forall. intros x Hx. rewrite Forall_forall in F.
        assert (x ∈ done ++ waiting d) as H by (by eapply elem_of_sublist). specialize (F _ H). lia.
      * repeat constructor.
    + rewrite Eb, length_app, take_app_le by (simpl; lia). eapply settled_sub; [exact S|].
      intros x Hx. eapply elem_of_sublist; [|exact Sb]. eapply elem_of_sublist; [exact Hx|apply sublist_take].
  - destruct (newMsg R2 (t2 d) m h) as [t u]. intros E.
    apply process_inv with (done := done) in E as (?&?&_); [done|done..|].
    apply settled_nil.
Qed.

Lemma sync_run_inv l : forall d done d' out, sync_inv d done -> sync_run R1 R2 d l = (d', out) ->
  sync_inv d' (done ++ ids out).
Proof.
  induction l as [|i l IH]; intros d done d' out I; simpl.
  - intros [= <- <-]. unfold ids. simpl. by rewrite app_nil_r.
  - destruct (sync_step R1 R2 d i) as [d1 o1] eqn:E1. destruct (sync_run R1 R2 d1 l) as [d2 o2] eqn:E2.
    intros [= <- <-]. apply sync_step_inv with (done := done) in E1 as [I1 _]; [|done].
    apply IH with (done := done ++ ids o1) in E2; [|done].
    unfold ids in *. by rewrite !fmap_app, app_assoc.
Qed.
End Sync.

(** ** The theorems *)

Definition tracker_ok {T} (t : Tracker T) : Prop :=
  0 <= maxTimeErr_us t /\ (0 < bufMax t)%nat.

(** C37: [get] answers with the messages that bracket the time asked for.  It
    answers nothing exactly when no message is within [maxTimeErr]; a message of
    exactly that time, or the closest message of the only side that is near
    enough, as it is; and the interpolation of the closest earlier and the
    closest later message when both are near enough.  The times of the messages
    need not be ordered. *)
Theorem tracker_get_correct {T} (R : Traits T) (t : Tracker T) (u : Z) : tracker_ok t ->
  get_spec R (maxTimeErr_us t) u (buf t) (get R t u).
Proof. intros [He _]. by apply get_iter_spec. Qed.

(** A tracker that inherits [interpolate] returns a message closest in time
    to the one asked for, and nothing exactly when even that is farther away
    than [maxTimeErr]. *)
Theorem tracker_get_nearest {T} (R : Traits T) (t : Tracker T) (u : Z) : tracker_ok t ->
  virtual_interpolate R = interpolate_default ->
  (forall m, m ∈ buf t -> in_u 64 (getMsgUtime R m)) ->
  match get R t u with
  | Some x => exists m, m ∈ buf t /\ x = msg m /\ Z.abs (getMsgUtime R m - u) <= maxTimeErr_us t /\
      forall m', m' ∈ buf t -> Z.abs (getMsgUtime R m - u) <= Z.abs (getMsgUtime R m' - u)
  | None => forall m, m ∈ buf t -> maxTimeErr_us t < Z.abs (getMsgUtime R m - u)
  end.
Proof.
  intros [He _] HI Hr. pose proof (get_iter_spec R (maxTimeErr_us t) u (buf t) He) as H.
  fold (get R t u) in H. destruct (get R t u) as [x|]; [|exact H]. simpl in H.
  assert (forall m m0, latest_before R u (buf t) m0 -> m ∈ buf t -> getMsgUtime R m <= u ->
    Z.abs (getMsgUtime R m0 - u) <= Z.abs (getMsgUtime R m - u)) as Hb.
  { intros m m0 (?&?&Hm) Hin Hle. specialize (Hm m Hin Hle). lia. }
  assert (forall m m1, earliest_after R u (buf t) m1 -> m ∈ buf t -> u <= getMsgUtime R m ->
    Z.abs (getMsgUtime R m1 - u) <= Z.abs (getMsgUtime R m - u)) as Ha.
  { intros m m1 (?&?&Hm) Hin Hle. specialize (Hm m Hin Hle). lia. }
  destruct H as [(m&B&Hd&->&Hx)|[(m&B&Hd&->&Hx)|(m0&m1&B0&B1&Ht&Hd0&Hd1&->)]].
  - exists m. pose proof B as (?&?&_). repeat split; [done|lia|]. intros m' Hm'.
    destruct (decide (getMsgUtime R m' <= u)); [by apply Hb|].
    destruct Hx as [?|Hx]; [lia|]. specialize (Hx m' Hm'). lia.
  - exists m. pose proof B as (?&?&_). repeat split; [done|lia|]. intros m' Hm'.
    destruct (decide (u <= getMsgUtime R m')); [by apply Ha|]. specialize (Hx m' Hm'). lia.
  - rewrite HI. unfold interpolate_default. pose proof B0 as (I0&_). pose proof B1 as (I1&_).
    pose proof (Hr _ I0). pose proof (Hr _ I1). unfold in_u in *.
    rewrite !wrapu_id by (unfold in_u; lia).
    destruct (_ <? _) eqn:E; bool_prop; [exists m0|exists m1]; (repeat split; [done|lia|]); intros m' Hm';
      (destruct (decide (getMsgUtime R m' <= u)); [specialize (Hb m' m0 B0 Hm')|specialize (Ha m' m1 B1 Hm')]); lia.
Qed.

(** a tracker fed with messages keeps the last [maxMsgs] of them, in order
    and with their receive times; [getRange] returns those of its messages whose
    time lies in the interval, in order, and [expireBefore] removes exactly
    those that are older and counts them, also when the times are not ordered. *)
Theorem tracker_window {T} (R : Traits T) err k freq (t : Tracker T) (ms : list (T * Z)) (a b : Z) :
  tracker_create err k freq = Some t ->
  let t' := feed R t ms in
  (fun m => (msg m, host_utime m)) <$> buf t' = drop (length ms - k) ms /\
  getRange R t' a b = msg <$> filter (fun m => a <= getMsgUtime R m <= b) (buf t') /\
  expireBefore R t' a =
    (with_buf t' (filter (fun m => a <= getMsgUtime R m) (buf t')),
     length (filter (fun m => ~ a <= getMsgUtime R m) (buf t'))).
Proof.
  intros E. unfold tracker_create in E. do 5 (case_opt; [|done]). destruct (0 <? k)%nat eqn:Ek; [|done].
  bool_prop. injection E as <-. cbv zeta.
  destruct (feed_window R ms (mkTracker z k [] UINT64_MAX f f0 0) [] Ek eq_refl) as [W _].
  split; [exact W|]. split; [|apply expireBefore_filter]. unfold getRange. by rewrite range_loop_filter.
Qed.

(** As long as the callback does not itself give messages to its tracker,
    every message object made for it has exactly one owner, whatever the timing:
    it is handed to the callback, deleted because a newer one replaced it, or
    pending.  The callback sees messages in the order of arrival and none twice,
    and after the destructor nothing is pending: no object leaks, none is
    deleted twice, and none that the callback owns is deleted. *)
Theorem tracker_callback_ownership (l : list cb_op) (c : Callbacks) : cb_run callbacks_create l = Some c ->
  handed c ++ deleted c ++ pending c ≡ₚ seq 0 (allocated c) /\ StronglySorted lt (handed c) /\
  forall c', cb_destroy c = Some c' -> handed c' ++ deleted c' ≡ₚ seq 0 (allocated c').
Proof.
  intros E. pose proof (cb_run_inv l c E) as [P S _].
  split; [done|]. split; [by eapply sorted_prefix|]. intros c'. unfold cb_destroy, pending in *.
  destruct (cb_thread c) eqn:Et; try done. intros [= <-]. simpl. destruct (callbackMsg c); rewrite <- P; [done|].
  by rewrite app_nil_r.
Qed.

(** A callback that gives a message to its own tracker breaks that
    ownership.  The lock is recursive, so the dispatch goes through: it deletes
    the very message the callback owns, and the new message is overwritten with
    a null pointer when the callback returns, neither handed over nor deleted. *)
Theorem tracker_callback_reentrant (l : list cb_op) (c : Callbacks) (m : nat) :
  cb_run callbacks_create l = Some c -> cb_thread c = CbInCallback m ->
  let c1 := cb_dispatch true c in
  m ∈ handed c1 /\ m ∈ deleted c1 /\
  exists c2, cb_return c1 = Some c2 /\ allocated c2 = S (allocated c) /\
    allocated c ∉ handed c2 ++ deleted c2 ++ pending c2.
Proof.
  intros E Et. pose proof (cb_run_inv l c E) as [P S Cu].
  destruct (Cu m Et) as [Ec Hm]. unfold cb_dispatch. rewrite Et, Ec. simpl.
  split; [done|]. split; [set_solver|]. eexists. split; [done|]. split; [done|].
  assert (allocated c ∉ handed c ++ deleted c ++ pending c) as Hn by (rewrite P, elem_of_seq; lia).
  unfold pending in *. rewrite Et in Hn. simpl.
  assert (m <> allocated c) by (intros ->; apply Hn; set_solver). destruct (done c); set_solver.
Qed.

(** a synchronizer pairs every message of the first tracker at most once, and
    only with what the second tracker answers for its time when a message no
    older has arrived there last; and after every step no message is left
    waiting that could be paired: each one is newer than the last message of the
    second tracker or has no counterpart within its time error. *)
Theorem sync_pairs {T1 T2} (R1 : Traits T1) (R2 : Traits T2) (d0 d d' : Dispatcher) (pre : list input) (i : input)
    (out0 out : list (MsgType T1 * T2)) :
  buf (t1 d0) = [] -> sync_run R1 R2 d0 pre = (d, out0) -> sync_step R1 R2 d i = (d', out) ->
  NoDup (ids out0 ++ ids out ++ (id <$> buf (t1 d'))) /\
  Forall (paired R1 R2 (t2 d')) out /\ settled R1 R2 (t2 d') (buf (t1 d')).
Proof.
  intros E0 E1 E2. assert (sync_inv R1 R2 d0 []) as I0.
  { constructor; unfold waiting; rewrite ?E0; [constructor|constructor|apply settled_nil]. }
  apply sync_run_inv with (done := []) in E1; [|done].
  apply sync_step_inv with (done := ids out0) in E2 as [[N _ S] F]; [|done].
  split; [|done]. by rewrite app_assoc.
Qed.

Lemma getHz_reset {T} (t : Tracker T) f : gain_ok f -> hzFilter t = reset f -> getHz t = of_Z (-1).
Proof.
  intros G E. unfold getHz. rewrite E. unfold filter_get. rewrite lowPass_reset by done.
  assert (dle zero (lit 1 1000000000) = true) as -> by (by vm_compute). reflexivity.
Qed.

(** A tracker reports the frequency -1, unknown, before its second message
    and again right after a message whose receive time lies before that of the
    one preceding it. *)
Theorem tracker_hz_unknown {T} (R : Traits T) err k freq (t t1 : Tracker T) (m m1 : T) (h h1 : Z) :
  tracker_create err k freq = Some t -> gain_ok (hzFilter t) ->
  getHz t = of_Z (-1) /\ getHz (newMsg R t m h).1 = of_Z (-1) /\
  (gain_ok (hzFilter t1) -> lastHostUtime t1 <> UINT64_MAX -> h1 < lastHostUtime t1 ->
   getHz (newMsg R t1 m1 h1).1 = of_Z (-1)).
Proof.
  intros E G. unfold tracker_create in E. do 2 (case_opt; [|done]).
  destruct (filter_create s (lit 8 10)) as [hz|] eqn:Ef; [|done]. do 2 (case_opt; [|done]). case_test; [|done].
  apply filter_create_reset in Ef as [g ->]. injection E as <-. cbn [hzFilter] in G.
  split; [by eapply getHz_reset|]. split; [by eapply getHz_reset|].
  intros G1 Hl Hh. unfold newMsg, run_filters. rewrite (proj2 (Z.eqb_neq _ _)), (proj2 (Z.ltb_lt _ _)) by done.
  by eapply getHz_reset.
Qed.

(** ** Witnesses *)

Definition ex_traits : Traits nat := mkTraits nat None getMsgUtime_default interpolate_default.
Definition ex_tracker : option (Tracker nat) := tracker_create (lit 25 100) 3 (of_Z 10).
Definition ex_filled : Tracker nat :=
  match ex_tracker with
  | Some t => feed ex_traits t [(1%nat, 1000); (2%nat, 400000); (3%nat, 300000); (4%nat, 900000)]
  | None => mkTracker 0 0 [] 0 (mkFilter zero zero zero zero zero zero zero false) (mkFilter zero zero zero zero zero zero zero false) 0
  end.

Lemma tracker_get_correct_witness :
  get_spec ex_traits 250000 350000 (buf ex_filled) (get ex_traits ex_filled 350000) /\
  get ex_traits ex_filled 340000 = Some 3%nat.
Proof.
  split; [|by vm_compute]. apply (tracker_get_correct ex_traits ex_filled 350000).
  split; vm_compute; [discriminate|lia].
Defined.

Lemma tracker_get_nearest_witness :
  match get ex_traits ex_filled 340000 with
  | Some x => exists m, m ∈ buf ex_filled /\ x = msg m /\ Z.abs (getMsgUtime ex_traits m - 340000) <= 250000 /\
      forall m', m' ∈ buf ex_filled ->
        Z.abs (getMsgUtime ex_traits m - 340000) <= Z.abs (getMsgUtime ex_traits m' - 340000)
  | None => forall m, m ∈ buf ex_filled -> 250000 < Z.abs (getMsgUtime ex_traits m - 340000)
  end.
Proof.
  apply (tracker_get_nearest ex_traits ex_filled 340000).
  - split; vm_compute; [discriminate|lia].
  - done.
  - intros m Hm. assert (Forall (fun m => 0 <= getMsgUtime ex_traits m < 2 ^ 64) (buf ex_filled)) as F
      by (eapply (bool_decide_unpack _); vm_compute; exact I).
    rewrite Forall_forall in F. exact (F m Hm).
Defined.

Lemma tracker_window_witness :
  match ex_tracker with
  | Some t => (fun m => (msg m, host_utime m)) <$>
        buf (feed ex_traits t [(1%nat, 10); (2%nat, 30); (3%nat, 20); (4%nat, 40)]) =
      [(2%nat, 30); (3%nat, 20); (4%nat, 40)]
  | None => False
  end.
Proof.
  destruct ex_tracker as [t|] eqn:E; [|by vm_compute in E].
  exact (proj1 (tracker_window ex_traits (lit 25 100) 3 (of_Z 10) t
    [(1%nat, 10); (2%nat, 30); (3%nat, 20); (4%nat, 40)] 0 0 E)).
Defined.

Lemma tracker_callback_ownership_witness :
  exists c, cb_run callbacks_create [OpNewMsg; OpNewMsg; OpWake; OpNewMsg; OpReturn; OpNewMsg; OpShutdown; OpWake] = Some c /\
    handed c ++ deleted c ++ pending c ≡ₚ seq 0 (allocated c) /\ handed c = [1%nat] /\ deleted c = [0%nat] /\ pending c = [2%nat].
Proof.
  eexists. split; [by vm_compute|]. split; [|by vm_compute].
  apply (tracker_callback_ownership [OpNewMsg; OpNewMsg; OpWake; OpNewMsg; OpReturn; OpNewMsg; OpShutdown; OpWake] _ eq_refl).
Defined.

Lemma tracker_callback_reentrant_witness :
  exists c, cb_run callbacks_create [OpNewMsg; OpWake] = Some c /\ 0%nat ∈ deleted (cb_dispatch true c).
Proof.
  eexists. split; [by vm_compute|].
  apply (tracker_callback_reentrant [OpNewMsg; OpWake] _ 0%nat eq_refl eq_refl).
Defined.

Lemma sync_pairs_witness :
  match ex_tracker with
  | Some t =>
      let r := sync_run ex_traits ex_traits (mkDispatcher t t) [Type1Msg 1%nat 1000; Type1Msg 2%nat 600000] in
      let r' := sync_step ex_traits ex_traits r.1 (Type2Msg 7%nat 100000) in
      NoDup (ids r.2 ++ ids r'.2 ++ (id <$> buf (t1 r'.1))) /\ snd <$> r'.2 = [7%nat] /\
      (msg <$> buf (t1 r'.1)) = [2%nat]
  | None => False
  end.
Proof.
  destruct ex_tracker as [t|] eqn:E; [|by vm_compute in E]. split; [|vm_compute in E; injection E as <-; by vm_compute].
  eapply (sync_pairs ex_traits ex_traits (mkDispatcher t t) _ _ [Type1Msg 1%nat 1000; Type1Msg 2%nat 600000] (Type2Msg 7%nat 100000));
    [vm_compute in E; injection E as <-; done|by apply surjective_pairing..].
Defined.

Lemma tracker_hz_unknown_witness :
  match ex_tracker with
  | Some t => getHz (newMsg ex_traits t 5%nat 1000).1 = of_Z (-1)
  | None => False
  end.
Proof.
  destruct ex_tracker as [t|] eqn:E; [|by vm_compute in E].
  assert (gain_ok (hzFilter t)) as G by (vm_compute in E; injection E as <-; exact I).
  exact (proj1 (proj2 (tracker_hz_unknown ex_traits (lit 25 100) 3 (of_Z 10) t t 5%nat 5%nat 1000 1000 E G))).
Defined.
