(* ===== verification/MemPool.v ===== *)
(** * The block allocator of the UDP transport (zcm/transport/udp/mempool.cpp)

    Blocks of a power of two bytes, from 2^16 to 2^28, kept in one list per size
    once they are freed.  A block is the number of the malloc that made it, and
    [heap] records the size each of them got. *)
From S2P Require Import Prelude.
Local Open Scope Z_scope.

Definition NUMLISTS : nat := 13.

Record MemPool := mkMemPool {
  sizelists : list (list nat);
  heap : list Z
}.

Definition mempool_create : MemPool := mkMemPool (replicate NUMLISTS []) [].

Definition fitsInU32 (v : Z) : bool := Z.land v 0xffffffff =? v.

(** [31 - __builtin_clz(v)] is the position of the highest bit; it is undefined
    for zero, and so are the shifts of an [int] past its width. *)
Definition computeSlot (v : Z) : option nat :=
  check (fitsInU32 v) ;;
  check (0 <? v) ;;
  let bits := Z.log2 v in
  check (bits <? 31) ;;
  let bits := if 2 ^ bits =? v then bits else bits + 1 in
  check ((0 <? bits) && (bits <? 31)) ;;
  check ((2 ^ (bits - 1) <? v) && (v <=? 2 ^ bits)) ;;
  let bits := Z.max bits 16 in
  Some (Z.to_nat (bits - 16)).

Definition slotToSize (slot : nat) : Z := 2 ^ (Z.of_nat slot + 16).

Definition slot_of (sz : Z) : option nat :=
  check (sz <=? 2 ^ 28) ;;
  check (fitsInU32 sz) ;;
  slot <- computeSlot sz ;;
  check (slot <? NUMLISTS)%nat ;;
  Some slot.

Definition alloc (p : MemPool) (sz : Z) : option (MemPool * nat) :=
  slot <- slot_of sz ;;
  l <- sizelists p !! slot ;;
  match l with
  | mem :: next => Some (mkMemPool (<[slot := next]> (sizelists p)) (heap p), mem)
  | [] => Some (mkMemPool (sizelists p) (heap p ++ [slotToSize slot]), length (heap p))
  end.

Definition free (p : MemPool) (mem : nat) (sz : Z) : option MemPool :=
  slot <- slot_of sz ;;
  l <- sizelists p !! slot ;;
  Some (mkMemPool (<[slot := mem :: l]> (sizelists p)) (heap p)).

(** ** Correctness *)

Lemma computeSlot_spec v : 1 < v <= 2 ^ 28 ->
  exists slot, slot_of v = Some slot /\ (slot < NUMLISTS)%nat /\
    v <= slotToSize slot /\ (slotToSize slot < 2 * v \/ slotToSize slot = 2 ^ 16).
Proof.
  intros Hv. assert (fitsInU32 v = true) as Hf.
  { unfold fitsInU32. apply Z.eqb_eq. change 0xffffffff with (Z.ones 32).
    rewrite Z.land_ones by lia. apply Z.mod_small. lia. }
  pose proof (Z.log2_spec v ltac:(lia)) as [L1 L2].
  assert (0 <= Z.log2 v) as L0 by apply Z.log2_nonneg.
  assert (Z.log2 v <= 28) as L3 by (rewrite <- (Z.log2_pow2 28) by lia; apply Z.log2_le_mono; lia).
  set (k := if 2 ^ Z.log2 v =? v then Z.log2 v else Z.log2 v + 1).
  assert (0 < k <= 28 /\ 2 ^ (k - 1) < v <= 2 ^ k) as (Hk&Hlo&Hhi).
  { subst k. destruct (_ =? v) eqn:E; bool_prop.
    - assert (0 < Z.log2 v) by (destruct (Z.eq_dec (Z.log2 v) 0) as [E0|]; [rewrite E0 in E; lia|lia]).
      split; [lia|]. split; [|lia]. rewrite <- E at 2. apply Z.pow_lt_mono_r; lia.
    - replace (Z.log2 v + 1 - 1) with (Z.log2 v) by lia. rewrite <- Z.add_1_r in L2.
      split; [|lia]. split; [lia|]. destruct (Z.eq_dec (Z.log2 v) 28) as [E28|]; [rewrite E28 in *; lia|lia]. }
  exists (Z.to_nat (Z.max k 16 - 16)). unfold slot_of, computeSlot. rewrite Hf. fold k.
  rewrite (proj2 (Z.leb_le v _)), (proj2 (Z.ltb_lt 0 v)), (proj2 (Z.ltb_lt (Z.log2 v) 31)), (proj2 (Z.ltb_lt 0 k)),
    (proj2 (Z.ltb_lt k 31)), (proj2 (Z.ltb_lt _ v)), (proj2 (Z.leb_le v _)) by lia. cbn [andb].
  assert ((Z.to_nat (Z.max k 16 - 16) < NUMLISTS)%nat) as Hs by (unfold NUMLISTS; lia).
  rewrite (proj2 (Nat.ltb_lt _ _)) by done. split; [done|]. split; [done|]. unfold slotToSize.
  replace (Z.of_nat (Z.to_nat (Z.max k 16 - 16)) + 16) with (Z.max k 16) by lia.
  destruct (Z.max_spec k 16) as [[? ->]|[? ->]].
  - split; [|by right]. transitivity (2 ^ k); [done|]. apply Z.pow_le_mono_r; lia.
  - split; [done|left]. replace k with (k - 1 + 1) by lia. rewrite Z.pow_add_r by lia. lia.
Qed.

(** What a client does: [live] are the blocks it holds, with the size it asked
    for, which it also gives when it frees them. *)
Inductive op := OAlloc (sz : Z) | OFree (mem : nat).

Abbreviation live := (gmap nat Z) (only parsing).

Definition exec (s : MemPool * live) (o : op) : option (MemPool * live) :=
  let '(p, l) := s in
  match o with
  | OAlloc sz => '(p, mem) <- alloc p sz ;; Some (p, <[mem := sz]> l)
  | OFree mem => sz <- l !! mem ;; p <- free p mem sz ;; Some (p, delete mem l)
  end.

Fixpoint run (s : MemPool * live) (ops : list op) : option (MemPool * live) :=
  match ops with
  | [] => Some s
  | o :: ops => s <- exec s o ;; run s ops
  end.

(** Sizes a block may have, and blocks the client holds. *)
Definition op_ok (s : MemPool * live) (o : op) : Prop :=
  match o with
  | OAlloc sz => 1 < sz <= 2 ^ 28
  | OFree mem => is_Some (s.2 !! mem)
  end.

Fixpoint ops_ok (s : MemPool * live) (ops : list op) : Prop :=
  match ops with
  | [] => True
  | o :: ops => op_ok s o /\ forall s', exec s o = Some s' -> ops_ok s' ops
  end.

Record pool_inv (s : MemPool * live) : Prop := {
  mi_lists : length (sizelists s.1) = NUMLISTS;
  mi_free : forall slot l mem, sizelists s.1 !! slot = Some l -> mem ∈ l ->
    heap s.1 !! mem = Some (slotToSize slot) /\ s.2 !! mem = None;
  mi_nodup : forall slot l, sizelists s.1 !! slot = Some l -> NoDup l;
  mi_live : forall mem sz, s.2 !! mem = Some sz -> exists slot,
    slot_of sz = Some slot /\ heap s.1 !! mem = Some (slotToSize slot) /\ 1 < sz <= 2 ^ 28
}.

Lemma slotToSize_inj a b : slotToSize a = slotToSize b -> a = b.
Proof. unfold slotToSize. intros H%Z.pow_inj_r; lia. Qed.

Lemma alloc_inv p l sz : pool_inv (p, l) -> 1 < sz <= 2 ^ 28 ->
  exists p' mem, alloc p sz = Some (p', mem) /\ l !! mem = None /\ pool_inv (p', <[mem := sz]> l) /\
    exists c, heap p' !! mem = Some c /\ sz <= c /\ (c < 2 * sz \/ c = 2 ^ 16).
Proof.
  intros [ML MF MN MV] Hsz. simpl in *. destruct (computeSlot_spec sz Hsz) as (slot&Es&Hs&Hc). unfold alloc.
  rewrite Es. destruct (lookup_lt_is_Some_2 (sizelists p) slot) as [fl Efl]; [lia|]. rewrite Efl.
  destruct fl as [|mem next].
  - assert (l !! length (heap p) = None) as Hn.
    { destruct (l !! length (heap p)) eqn:E; [|done]. destruct (MV _ _ E) as (?&_&H&_).
      apply lookup_lt_Some in H. lia. }
    eexists _, _. split; [done|]. split; [done|]. split; [|exists (slotToSize slot); split; [|done]].
    + constructor; simpl; [done| |done|].
      * intros s' fl mem Hl Hm. destruct (MF _ _ _ Hl Hm) as [Hh Hln].
        assert (mem <> length (heap p)) by (apply lookup_lt_Some in Hh; lia).
        rewrite lookup_app_l by (by apply lookup_lt_Some in Hh). by rewrite lookup_insert_ne by done.
      * intros mem z. destruct (decide (mem = length (heap p))) as [->|Hne].
        -- rewrite lookup_insert_eq. intros [= <-]. exists slot. split; [done|]. by rewrite list_lookup_middle.
        -- rewrite lookup_insert_ne by done. intros (s'&?&Hh&?)%MV. exists s'. split; [done|].
           rewrite lookup_app_l; [done|]. by apply lookup_lt_Some in Hh.
    + simpl. by apply list_lookup_middle.
  - destruct (MF _ _ mem Efl ltac:(left)) as [Hh Hn]. pose proof (MN _ _ Efl) as [Nm Nn]%NoDup_cons.
    eexists _, _. split; [done|]. split; [done|]. split; [|exists (slotToSize slot); done].
    constructor; simpl; [by rewrite length_insert| | |].
    + intros s' fl mem' Hl Hm. assert (exists fl', sizelists p !! s' = Some fl' /\ mem' ∈ fl' /\ mem' <> mem) as (fl'&El&Hm'&Hne).
      { destruct (decide (s' = slot)) as [->|Hne].
        - rewrite list_lookup_insert_eq in Hl by lia. injection Hl as <-. exists (mem :: next).
          split; [done|]. split; [by right|]. intros ->. done.
        - rewrite list_lookup_insert_ne in Hl by done. exists fl. split; [done|]. split; [done|]. intros ->.
          destruct (MF _ _ _ Hl Hm) as [Hh' _]. rewrite Hh in Hh'. injection Hh' as ?%slotToSize_inj. done. }
      rewrite lookup_insert_ne by done. by apply (MF _ _ _ El).
    + intros s' fl Hl. destruct (decide (s' = slot)) as [->|Hne].
      * rewrite list_lookup_insert_eq in Hl by lia. by injection Hl as <-.
      * rewrite list_lookup_insert_ne in Hl by done. eauto.
    + intros mem' z. destruct (decide (mem' = mem)) as [->|Hne].
      * rewrite lookup_insert_eq. intros [= <-]. by exists slot.
      * rewrite lookup_insert_ne by done. apply MV.
Qed.

Lemma free_inv p l mem sz : pool_inv (p, l) -> l !! mem = Some sz ->
  exists p', free p mem sz = Some p' /\ pool_inv (p', delete mem l) /\ heap p' = heap p.
Proof.
  intros [ML MF MN MV] Hl. simpl in *. destruct (MV _ _ Hl) as (slot&Es&Hh&Hsz). unfold free. rewrite Es.
  destruct (computeSlot_spec sz Hsz) as (slot'&Es'&Hs&_). assert (slot' = slot) as -> by congruence.
  destruct (lookup_lt_is_Some_2 (sizelists p) slot) as [fl Efl]; [lia|]. rewrite Efl. eexists. split; [done|].
  split; [|done]. constructor; simpl; [by rewrite length_insert| | |].
  - intros s' fl' mem' Hl' Hm. destruct (decide (mem' = mem)) as [->|Hne].
    + rewrite lookup_delete_eq. split; [|done]. destruct (decide (s' = slot)) as [->|Hne]; [done|].
      rewrite list_lookup_insert_ne in Hl' by done. destruct (MF _ _ _ Hl' Hm). congruence.
    + rewrite lookup_delete_ne by done. destruct (decide (s' = slot)) as [->|Hne'].
      * rewrite list_lookup_insert_eq in Hl' by lia. injection Hl' as <-.
        apply elem_of_cons in Hm as [->|Hm]; [done|]. eauto.
      * rewrite list_lookup_insert_ne in Hl' by done. eauto.
  - intros s' fl' Hl'. destruct (decide (s' = slot)) as [->|Hne].
    + rewrite list_lookup_insert_eq in Hl' by lia. injection Hl' as <-. constructor; [|eauto].
      intros Hm. destruct (MF _ _ _ Efl Hm). congruence.
    + rewrite list_lookup_insert_ne in Hl' by done. eauto.
  - intros mem' z. rewrite lookup_delete_Some. intros [_ H]. by apply MV.
Qed.

Lemma mempool_create_inv : pool_inv (mempool_create, ∅).
Proof.
  constructor; cbn [fst snd mempool_create sizelists heap]; [done| | |].
  - intros slot l mem [-> _]%lookup_replicate Hm. by apply elem_of_nil in Hm.
  - intros slot l [-> _]%lookup_replicate. constructor.
  - intros mem sz. by rewrite lookup_empty.
Qed.

Lemma exec_pool_inv s o : pool_inv s -> op_ok s o -> exists s', exec s o = Some s' /\ pool_inv s'.
Proof.
  destruct s as [p l]. intros I. destruct o as [sz|mem]; simpl.
  - intros Hsz. destruct (alloc_inv p l sz I Hsz) as (p'&mem&->&_&I'&_). eauto.
  - intros [sz E]. rewrite E. destruct (free_inv p l mem sz I E) as (p'&->&I'&_). eauto.
Qed.

Lemma run_pool_inv ops : forall s, pool_inv s -> ops_ok s ops -> exists s', run s ops = Some s' /\ pool_inv s'.
Proof.
  induction ops as [|o ops IH]; intros s I; simpl; [eauto|]. intros [Ho H].
  destruct (exec_pool_inv s o I Ho) as (s'&E&I'). rewrite E. apply IH; auto.
Qed.

(** the block allocator of the UDP transport, used with sizes from 2 to 2^28
    and freed with the sizes that were asked for, fails no assertion; a block it
    hands out is not held by anyone, is at least as large as asked for and less
    than twice as large (or 2^16 bytes); and no block is ever held and on a
    list, or on two lists, at once. *)
Theorem mempool_correct (ops : list op) (sz : Z) : ops_ok (mempool_create, ∅) ops -> 1 < sz <= 2 ^ 28 ->
  exists p l p' mem c, run (mempool_create, ∅) ops = Some (p, l) /\ alloc p sz = Some (p', mem) /\
    l !! mem = None /\ heap p' !! mem = Some c /\ sz <= c /\ (c < 2 * sz \/ c = 2 ^ 16) /\
    (forall slot fl m, sizelists p' !! slot = Some fl -> m ∈ fl -> m <> mem /\ l !! m = None) /\
    (forall s1 s2 f1 f2 m, sizelists p' !! s1 = Some f1 -> sizelists p' !! s2 = Some f2 ->
       m ∈ f1 -> m ∈ f2 -> s1 = s2 /\ NoDup f1).
Proof.
  intros Hops Hsz. destruct (run_pool_inv ops _ mempool_create_inv Hops) as ([p l]&E&I).
  destruct (alloc_inv p l sz I Hsz) as (p'&mem&Ea&Hn&[_ MF MN _]&c&Hc&Hle&Hlt). simpl in *.
  exists p, l, p', mem, c. repeat (split; [done|]). split.
  - intros slot fl m Hl Hm. destruct (MF _ _ _ Hl Hm) as [_ H]. apply lookup_insert_None in H as [? ?]. done.
  - intros s1 s2 f1 f2 m H1 H2 M1 M2. destruct (MF _ _ _ H1 M1) as [E1 _]. destruct (MF _ _ _ H2 M2) as [E2 _].
    split; [|eauto]. apply slotToSize_inj. congruence.
Qed.

Lemma mempool_correct_witness :
  exists p l p' mem c, run (mempool_create, ∅) [OAlloc 70000; OFree 0] = Some (p, l) /\
    alloc p (2 ^ 17) = Some (p', mem) /\ mem = 0%nat /\ heap p' !! mem = Some c /\ c = 2 ^ 17.
Proof.
  destruct (mempool_correct [OAlloc 70000; OFree 0] (2 ^ 17)) as (p&l&p'&mem&c&E&Ea&_&Hc&_).
  - split; [done|]. intros s' E. vm_compute in E. injection E as <-. split; [by eexists|]. done.
  - done.
  - vm_compute in E. injection E as <- <-. vm_compute in Ea. injection Ea as <- <-.
    vm_compute in Hc. injection Hc as <-. do 5 eexists. by repeat split.
Defined.
