(* ===== verification/EventLog.v ===== *)
(** * Event logs (zcm/eventlog.c, zcm/util/ioutils.h)

    A log is a file of records: a magic number, the number and the time of the
    event, the lengths of its channel and data, and both.  A file has its bytes,
    a position for reading and, for writing, the number of bytes the device
    still takes; memory is allocated without failure. *)
From Stdlib Require Import SpecFloat.
From S2P Require Import Prelude Bytes Filter.
Local Open Scope Z_scope.

(** ** Files *)

Record FILE := mkFILE { content : list byte; fpos : nat; room : nat }.

Definition seek (f : FILE) (p : nat) : FILE := mkFILE (content f) p (room f).

Definition fgetc (f : FILE) : option byte * FILE :=
  match content f !! fpos f with
  | Some b => (Some b, seek f (fpos f + 1))
  | None => (None, f)
  end.

Definition fread (n : nat) (f : FILE) : list byte * FILE :=
  let bs := slice (content f) (fpos f) n in (bs, seek f (fpos f + length bs)).

(** Writing appends what fits. *)
Definition fwrite (bs : list byte) (f : FILE) : nat * FILE :=
  let n := Nat.min (length bs) (room f) in
  (n, mkFILE (content f ++ take n bs) (fpos f) (room f - n)).

(** ** zcm/util/ioutils.h *)

Definition fwrite32 (f : FILE) (v : Z) : bool * FILE :=
  let '(n, f) := fwrite (be_split 4 v) f in ((n =? 4)%nat, f).

Definition fwrite64 (f : FILE) (v64 : Z) : bool * FILE :=
  let '(ok, f) := fwrite32 f (wraps 32 (Z.shiftr (wrapu 64 v64) 32)) in
  if ok then fwrite32 f (wraps 32 (Z.land v64 0xffffffff)) else (false, f).

Definition fread32 (f : FILE) : option Z * FILE :=
  let '(bs, f) := fread 4 f in
  (if (length bs =? 4)%nat then Some (wraps 32 (be_combine bs)) else None, f).

Definition fread64 (f : FILE) : option Z * FILE :=
  let '(v1, f) := fread32 f in
  match v1 with
  | None => (None, f)
  | Some v1 =>
      let '(v2, f) := fread32 f in
      match v2 with
      | None => (None, f)
      | Some v2 => (Some (Z.lor (wraps 64 (Z.shiftl (wrapu 64 v1) 32)) (Z.land v2 0xffffffff)), f)
      end
  end.

(** ** Logs *)

Definition MAGIC : Z := wraps 32 0xEDA1DA01.
Definition magic_bytes : list byte := be_split 4 MAGIC.

Record event := mkEvent {
  eventnum : Z;
  timestamp : Z;
  channellen : Z;
  datalen : Z;
  channel : list byte;
  data : list byte
}.

#[export] Instance event_eq_dec : EqDecision event.
Proof. solve_decision. Defined.

Record eventlog := mkLog { lfile : FILE; eventcount : Z }.

Definition set_file (l : eventlog) (f : FILE) : eventlog := mkLog f (eventcount l).

(** [true] is the return value 0.  Fewer bytes than the lengths say are read
    past their end. *)
Definition zcm_eventlog_write_event (l : eventlog) (le : event) : option (bool * eventlog) :=
  let fail f := Some (false, set_file l f) in
  let '(ok, f) := fwrite32 (lfile l) MAGIC in
  if negb ok then fail f else
  let '(ok, f) := fwrite64 f (eventcount l) in
  if negb ok then fail f else
  let '(ok, f) := fwrite64 f (timestamp le) in
  if negb ok then fail f else
  let '(ok, f) := fwrite32 f (channellen le) in
  if negb ok then fail f else
  let '(ok, f) := fwrite32 f (datalen le) in
  if negb ok then fail f else
  check ((0 <=? channellen le) && (channellen le <=? Z.of_nat (length (channel le)))) ;;
  let '(n, f) := fwrite (take (Z.to_nat (channellen le)) (channel le)) f in
  if negb (Z.of_nat n =? channellen le) then fail f else
  check ((0 <=? datalen le) && (datalen le <=? Z.of_nat (length (data le)))) ;;
  let '(n, f) := fwrite (take (Z.to_nat (datalen le)) (data le)) f in
  if negb (Z.of_nat n =? datalen le) then fail f else
  Some (true, mkLog f (eventcount l + 1)).

(** The loop over the bytes at the position: how many it read until the last four were the magic number. *)
Fixpoint sync_loop (rest : list byte) (magic : Z) (n : nat) : option nat :=
  match rest with
  | [] => None
  | r :: rest =>
      let magic := Z.lor (wrapu 32 (Z.shiftl magic 8)) r in
      if wraps 32 magic =? MAGIC then Some (S n) else sync_loop rest magic (S n)
  end.

(** [true] is the return value 0. *)
Definition sync_stream (l : eventlog) : bool * eventlog :=
  let f := lfile l in
  match sync_loop (drop (fpos f) (content f)) 0 0 with
  | Some n => (true, set_file l (seek f (fpos f + n)))
  | None => (false, set_file l (seek f (Nat.max (fpos f) (length (content f)))))
  end.

(** The result of [sync_stream_backwards]: -1, 1 or 0. *)
Inductive sync_back := BackStart | BackEof | BackFound.

Fixpoint sync_back_loop (fuel : nat) (f : FILE) (magic : Z) : sync_back * FILE :=
  match fuel with
  | O => (BackStart, f)
  | S fuel =>
      if (fpos f <? 2)%nat then (BackStart, f) else
      let '(r, f) := fgetc (seek f (fpos f - 2)) in
      match r with
      | None => (BackEof, f)
      | Some r =>
          let magic := Z.lor (Z.land (Z.shiftr magic 8) 0x00ffffff) (Z.land (wrapu 32 (Z.shiftl r 24)) 0xff000000) in
          if wraps 32 magic =? MAGIC then (BackFound, seek f (fpos f + 3)) else sync_back_loop fuel f magic
      end
  end.

(** Every turn goes back by one byte. *)
Definition sync_stream_backwards (l : eventlog) : sync_back * eventlog :=
  let '(r, f) := sync_back_loop (S (fpos (lfile l))) (lfile l) 0 in (r, set_file l f).

(** What follows the magic number: the event, or [None], and the file behind what was read. *)
Definition read_record (f : FILE) : option (option event * FILE) :=
  let '(num, f) := fread64 f in
  match num with None => Some (None, f) | Some num =>
  let '(time, f) := fread64 f in
  match time with None => Some (None, f) | Some time =>
  let '(clen, f) := fread32 f in
  match clen with None => Some (None, f) | Some clen =>
  let '(dlen, f) := fread32 f in
  match dlen with None => Some (None, f) | Some dlen =>
  if (clen <=? 0) || (1000 <=? clen) then Some (None, f) else
  if dlen <? 0 then Some (None, f) else
  let '(chan, f) := fread (Z.to_nat clen) f in
  if negb (Z.of_nat (length chan) =? clen) then Some (None, f) else
  (* the allocation of datalen + 1 bytes *)
  check (dlen + 1 <? 2 ^ 31) ;;
  let '(dat, f) := fread (Z.to_nat dlen) f in
  if negb (Z.of_nat (length dat) =? dlen) then Some (None, f) else
  let le := mkEvent num time clen dlen chan dat in
  let '(next_magic, f) := fread32 f in
  match next_magic with
  | Some m => if negb (m =? MAGIC) then Some (None, f) else Some (Some le, seek f (fpos f - 4))
  | None => Some (Some le, f)
  end end end end end.

Definition zcm_event_read_helper (l : eventlog) (rewindWhenDone : bool) : option (option event * eventlog) :=
  let startOffset := fpos (lfile l) in
  '(le, f) <- read_record (lfile l) ;;
  let numRead := (fpos f - startOffset)%nat in
  let f :=
    if rewindWhenDone then seek f (fpos f - (numRead + 4))
    else match le with None => seek f (fpos f - numRead) | Some _ => f end in
  Some (le, set_file l f).

(** An event, [None] at the end, or the loop is not finished. *)
Inductive read_result := Read (le : option event) (l : eventlog) | ReadUndef | ReadOutOfFuel.

Fixpoint read_next_loop (fuel : nat) (l : eventlog) : read_result :=
  match fuel with
  | O => ReadOutOfFuel
  | S fuel =>
      let '(ok, l) := sync_stream l in
      if negb ok then Read None l else
      match zcm_event_read_helper l false with
      | None => ReadUndef
      | Some (Some le, l) => Read (Some le) l
      | Some (None, l) => read_next_loop fuel l
      end
  end.

(** Every turn passes a magic number. *)
Definition zcm_eventlog_read_next_event (l : eventlog) : read_result :=
  read_next_loop (S (length (content (lfile l)))) l.

Definition zcm_eventlog_read_event_at_offset (l : eventlog) (offset : nat) : read_result :=
  zcm_eventlog_read_next_event (set_file l (seek (lfile l) offset)).

Fixpoint read_prev_loop (fuel : nat) (l : eventlog) : read_result :=
  match fuel with
  | O => ReadOutOfFuel
  | S fuel =>
      let '(r, l) := sync_stream_backwards l in
      match r with
      | BackStart => Read None l
      | _ =>
          match zcm_event_read_helper l true with
          | None => ReadUndef
          | Some (Some le, l) => Read (Some le) l
          | Some (None, l) => read_prev_loop fuel l
          end
      end
  end.

Definition zcm_eventlog_read_prev_event (l : eventlog) : read_result :=
  read_prev_loop (S (fpos (lfile l))) l.

(** The time of the next event, or -1; the position goes back to its magic number. *)
Definition get_next_event_time (l : eventlog) : Z * eventlog :=
  let '(ok, l) := sync_stream l in
  if negb ok then (-1, l) else
  let '(event_num, f) := fread64 (lfile l) in
  match event_num with None => (-1, set_file l f) | Some event_num =>
  let '(time, f) := fread64 f in
  match time with None => (-1, set_file l f) | Some time =>
  (time, mkLog (seek f (fpos f - 20)) event_num) end end.

(** The bisection over the fraction of the file; [None] when it takes more than
    [fuel] turns or leaves the range of file offsets. *)
Fixpoint seek_loop (fuel : nat) (l : eventlog) (file_len : Z) (target : Z) (frac1 frac2 prev_frac : spec_float)
  : option (bool * eventlog) :=
  match fuel with
  | O => None
  | S fuel =>
      let frac := dmul (lit 1 2) (dadd frac1 frac2) in
      offset <- to_u64 (dmul frac (of_Z file_len)) ;;
      let '(cur_time, l) := get_next_event_time (set_file l (seek (lfile l) (Z.to_nat offset))) in
      if cur_time <? 0 then Some (false, l) else
      if dlt frac2 frac || dlt frac frac1 || dle frac2 frac1 then Some (true, l) else
      let df := dsub frac prev_frac in
      let df := if dlt df zero then dneg df else df in
      if dlt df (lit 1 (10 ^ 12)) then Some (true, l) else
      if cur_time =? target then Some (true, l) else
      if cur_time <? target then seek_loop fuel l file_len target frac frac2 frac
      else seek_loop fuel l file_len target frac1 frac frac
  end.

Definition zcm_eventlog_seek_to_timestamp (fuel : nat) (l : eventlog) (target : Z) : option (bool * eventlog) :=
  seek_loop fuel l (Z.of_nat (length (content (lfile l)))) target zero (of_Z 1) (of_Z (-1)).
