(* ===== verification/EventLogProps.v ===== *)
(** * Event logs: what is written is read back

    The records of a log, reading them in order, from any offset and after a
    write that failed half way. *)
From Stdlib Require Import SpecFloat.
From S2P Require Import Prelude Bytes Filter EventLog.
Local Open Scope Z_scope.

(** ** Records *)

Definition encode64 (v : Z) : list byte :=
  be_split 4 (wraps 32 (Z.shiftr (wrapu 64 v) 32)) ++ be_split 4 (wraps 32 (Z.land v 0xffffffff)).

Definition encode_body (k : Z) (e : event) : list byte :=
  encode64 k ++ encode64 (timestamp e) ++ be_split 4 (channellen e) ++ be_split 4 (datalen e) ++ channel e ++ data e.

Definition encode_event (k : Z) (e : event) : list byte := magic_bytes ++ encode_body k e.

Fixpoint encode_log (k : Z) (es : list event) : list byte :=
  match es with
  | [] => []
  | e :: es => encode_event k e ++ encode_log (k + 1) es
  end.

(** The event as it comes back: with its number in the log. *)
Definition numbered (k : Z) (e : event) : event :=
  mkEvent k (timestamp e) (channellen e) (datalen e) (channel e) (data e).

Fixpoint numbered_all (k : Z) (es : list event) : list event :=
  match es with
  | [] => []
  | e :: es => numbered k e :: numbered_all (k + 1) es
  end.

Record valid (e : event) : Prop := mkValid {
  v_time : in_s 64 (timestamp e);
  v_channel : channellen e = Z.of_nat (length (channel e));
  v_data : datalen e = Z.of_nat (length (data e));
  v_bytes : bytes_ok (channel e ++ data e);
  v_clen : 0 < channellen e < 1000;
  v_dlen : datalen e < 2 ^ 31 - 1
}.

(** ** Writing *)

(** Writing all of the bytes. *)
Definition put_bytes (bs : list byte) (f : FILE) : bool * FILE :=
  let '(n, f) := fwrite bs f in ((n =? length bs)%nat, f).

Lemma put_app b1 b2 f :
  (let '(ok, f1) := put_bytes b1 f in if negb ok then (false, f1) else put_bytes b2 f1) = put_bytes (b1 ++ b2) f.
Proof.
  unfold put_bytes, fwrite. cbn [room content fpos]. rewrite length_app.
  destruct (Nat.min (length b1) (room f) =? length b1)%nat eqn:E; cbn [negb]; bool_prop.
  - assert (length b1 <= room f)%nat by lia. rewrite (Nat.min_l (length b1)), firstn_all by done.
    replace (Nat.min (length b1 + length b2) (room f)) with (length b1 + Nat.min (length b2) (room f - length b1))%nat by lia.
    rewrite take_app_add', <- app_assoc by done.
    f_equal; [|f_equal; lia]. destruct (_ =? length b2)%nat eqn:E2; bool_prop; symmetry; [apply Nat.eqb_eq|apply Nat.eqb_neq]; lia.
  - assert (room f < length b1)%nat by lia. rewrite !Nat.min_r, take_app_le by lia. f_equal. symmetry. apply Nat.eqb_neq. lia.
Qed.

Lemma fwrite32_put f v : fwrite32 f v = put_bytes (be_split 4 v) f.
Proof. unfold fwrite32, put_bytes. destruct (fwrite _ f). by rewrite length_be_split. Qed.

Lemma fwrite64_put f v : fwrite64 f v = put_bytes (encode64 v) f.
Proof.
  unfold fwrite64, encode64. rewrite <- put_app, fwrite32_put. destruct (put_bytes _ f) as [[] f1]; [|done].
  apply fwrite32_put.
Qed.

Lemma eqb_of_nat n m : (Z.of_nat n =? Z.of_nat m) = (n =? m)%nat.
Proof. destruct (Nat.eqb_spec n m); [apply Z.eqb_eq|apply Z.eqb_neq]; lia. Qed.

(** The event is written as its record, as far as there is room. *)
Lemma write_event_put l e : valid e ->
  zcm_eventlog_write_event l e =
  let '(ok, f) := put_bytes (encode_event (eventcount l) e) (lfile l) in
  Some (ok, mkLog f (if ok then eventcount l + 1 else eventcount l)).
Proof.
  intros [_ Hc Hd _ ? ?]. unfold zcm_eventlog_write_event, encode_event, encode_body, set_file.
  rewrite <- put_app, fwrite32_put. fold magic_bytes. destruct (put_bytes magic_bytes _) as [[] f0]; cbn [negb]; [|done].
  rewrite <- put_app, fwrite64_put. destruct (put_bytes _ f0) as [[] f1]; cbn [negb]; [|done].
  rewrite <- put_app, fwrite64_put. destruct (put_bytes _ f1) as [[] f2]; cbn [negb]; [|done].
  rewrite <- put_app, fwrite32_put. destruct (put_bytes _ f2) as [[] f3]; cbn [negb]; [|done].
  rewrite <- put_app, fwrite32_put. destruct (put_bytes _ f3) as [[] f4]; cbn [negb]; [|done].
  rewrite <- put_app. rewrite Hc, Hd, !Nat2Z.id, !firstn_all.
  rewrite !(proj2 (Z.leb_le _ _)) by lia. cbn [andb]. unfold put_bytes at 1.
  destruct (fwrite (channel e) f4) as [n f5]. rewrite (eqb_of_nat n). destruct (n =? _)%nat; cbn [negb]; [|done].
  unfold put_bytes.
  destruct (fwrite (data e) f5) as [n' f6]. rewrite (eqb_of_nat n'). destruct (n' =? _)%nat; cbn [negb]; [|done]. done.
Qed.

(** ** Reading numbers *)

Lemma drop_more {A} (c : list A) p bs rest : drop p c = bs ++ rest -> drop (p + length bs) c = rest.
Proof. intros E. rewrite <- drop_drop, E. apply drop_app_length. Qed.

Lemma fread_bytes c p r bs rest : drop p c = bs ++ rest ->
  fread (length bs) (mkFILE c p r) = (bs, mkFILE c (p + length bs) r).
Proof. intros E. unfold fread, slice. cbn [content fpos]. by rewrite E, take_app_length. Qed.

Lemma wraps_mod w z : 0 < w -> wraps w (z mod 2 ^ w) = wraps w z.
Proof. intros. unfold wraps. by rewrite Zplus_mod_idemp_l. Qed.

Lemma wraps_eq w z z' : 0 < w -> in_s w z' -> z mod 2 ^ w = z' mod 2 ^ w -> wraps w z = z'.
Proof. intros Hw Hz E. rewrite <- wraps_mod, E, wraps_mod by done. by apply wraps_id. Qed.

Lemma fread32_value c p r v rest : drop p c = be_split 4 v ++ rest ->
  fread32 (mkFILE c p r) = (Some (wraps 32 v), mkFILE c (p + 4) r).
Proof.
  intros E. unfold fread32. pose proof (fread_bytes c p r _ _ E) as F. rewrite length_be_split in F.
  rewrite F, length_be_split, be_combine_split. change (256 ^ Z.of_nat 4) with (2 ^ 32). by rewrite wraps_mod by lia.
Qed.

Lemma halves v : in_s 64 v ->
  Z.lor (wraps 64 (Z.shiftl (wrapu 64 (wraps 32 (wraps 32 (Z.shiftr (wrapu 64 v) 32)))) 32))
    (Z.land (wraps 32 (wraps 32 (Z.land v 0xffffffff))) 0xffffffff) = v.
Proof.
  intros Hv. rewrite !(wraps_id 32 (wraps 32 _)) by (lia || by apply wraps_range).
  change 0xffffffff with (Z.ones 32). rewrite !Z.land_ones, Z.shiftl_mul_pow2, Z.shiftr_div_pow2 by lia.
  assert (forall z, wraps 32 z mod 2 ^ 32 = z mod 2 ^ 32) as W.
  { intros z. unfold wraps. rewrite Zminus_mod_idemp_l. f_equal. lia. }
  rewrite W, Z.mod_mod by lia.
  assert (wraps 64 (wrapu 64 (wraps 32 (wrapu 64 v / 2 ^ 32)) * 2 ^ 32) = v / 2 ^ 32 * 2 ^ 32) as ->.
  { unfold in_s in Hv. pose proof (Z.div_mod v (2 ^ 32) ltac:(lia)). pose proof (Z.mod_pos_bound v (2 ^ 32) ltac:(lia)).
    apply wraps_eq; [lia|unfold in_s; lia|]. unfold wrapu at 1. rewrite Zmult_mod_idemp_l.
    change (2 ^ 64) with (2 ^ 32 * 2 ^ 32) at 1 2. rewrite !Zmult_mod_distr_r, W. f_equal.
    unfold wrapu. change (2 ^ 64) with (2 ^ 32 * 2 ^ 32). rewrite Z.rem_mul_r by lia.
    rewrite (Z.mul_comm (2 ^ 32)), Z.div_add, (Z.div_small (v mod _)), Z.add_0_l, Z.mod_mod by lia. done. }
  rewrite lor_disjoint by (lia || apply Z.mod_pos_bound; lia). pose proof (Z.div_mod v (2 ^ 32) ltac:(lia)). lia.
Qed.

Lemma fread64_value c p r v rest : in_s 64 v -> drop p c = encode64 v ++ rest ->
  fread64 (mkFILE c p r) = (Some v, mkFILE c (p + 8) r).
Proof.
  intros Hv E. unfold encode64 in E. rewrite <- app_assoc in E. unfold fread64.
  rewrite (fread32_value _ _ _ _ _ E). apply drop_more in E. rewrite length_be_split in E.
  rewrite (fread32_value _ _ _ _ _ E), halves, <- Nat.add_assoc by done. done.
Qed.

(** Too few bytes. *)
Lemma fread32_cases c p r : exists q o, fread32 (mkFILE c p r) = (o, mkFILE c q r) /\ (p <= q)%nat /\
  ((length (drop p c) < 4)%nat /\ o = None \/ (4 <= length (drop p c))%nat /\ q = (p + 4)%nat /\ o <> None).
Proof.
  unfold fread32, fread, slice, seek. cbn [content fpos room]. rewrite length_take. destruct (_ =? 4)%nat eqn:E; bool_prop.
  - do 2 eexists. split; [done|]. split; [lia|right]. rewrite E. split; [lia|done].
  - do 2 eexists. split; [done|]. split; [lia|left]. split; [lia|done].
Qed.

Lemma fread64_cases c p r : exists q o, fread64 (mkFILE c p r) = (o, mkFILE c q r) /\ (p <= q)%nat /\
  ((length (drop p c) < 8)%nat /\ o = None \/ (8 <= length (drop p c))%nat /\ q = (p + 8)%nat /\ o <> None).
Proof.
  unfold fread64. destruct (fread32_cases c p r) as (q&o&->&?&[[H ->]|(H&->&Ho)]).
  { do 2 eexists. split; [done|]. split; [done|left]. split; [lia|done]. }
  destruct o as [v1|]; [|done]. destruct (fread32_cases c (p + 4) r) as (q'&o'&->&?&D).
  rewrite length_drop in D. rewrite length_drop in *. destruct D as [[H' ->]|(H'&->&Ho')].
  - do 2 eexists. split; [done|]. split; [lia|left]. split; [lia|done].
  - destruct o'; [|done]. do 2 eexists. split; [done|]. split; [lia|right]. split; [lia|]. split; [lia|done].
Qed.

(** ** Reading a record *)

Lemma length_encode64 v : length (encode64 v) = 8%nat.
Proof. unfold encode64. by rewrite length_app, !length_be_split. Qed.

Lemma length_body k e : valid e -> Z.of_nat (length (encode_body k e)) = 24 + channellen e + datalen e.
Proof. intros []. unfold encode_body. rewrite !length_app, !length_encode64, !length_be_split. lia. Qed.

(** The position behind a record that [rest] follows: fewer than four bytes are swallowed. *)
Definition swallow (rest : list byte) : nat := if (length rest <? 4)%nat then length rest else 0%nat.

Definition follows (rest : list byte) : Prop := (length rest < 4)%nat \/ exists r, rest = magic_bytes ++ r.

Lemma next_magic_spec c p r rest : drop p c = rest -> follows rest ->
  exists o f, fread32 (mkFILE c p r) = (o, f) /\
  match o with Some m => (m =? MAGIC) = true /\ seek f (fpos f - 4) = mkFILE c (p + swallow rest) r
  | None => f = mkFILE c (p + swallow rest) r end.
Proof.
  intros E [H|[r' Hr]]; unfold swallow.
  - rewrite (proj2 (Nat.ltb_lt _ _)) by done. unfold fread32, fread, slice, seek. cbn [content fpos room].
    rewrite E, length_take, Nat.min_r by lia. rewrite (proj2 (Nat.eqb_neq (length rest) 4)) by lia.
    do 2 eexists. split; [done|]. done.
  - rewrite Hr in E. erewrite fread32_value by exact E. do 2 eexists. split; [done|]. split; [done|].
    unfold seek. cbn [content fpos room]. rewrite Hr. change (length (magic_bytes ++ r') <? 4)%nat with false. f_equal. lia.
Qed.

Lemma read_record_ok c p r k e rest : in_s 64 k -> valid e -> drop p c = encode_body k e ++ rest -> follows rest ->
  read_record (mkFILE c p r) =
  Some (Some (numbered k e), mkFILE c (p + length (encode_body k e) + swallow rest) r).
Proof.
  intros Hk V E Hf. pose proof V as [Ht Hc Hd _ Hcl Hdl]. unfold read_record. unfold encode_body in *. rewrite <- !app_assoc in E.
  rewrite (fread64_value _ _ _ _ _ Hk E). apply drop_more in E. rewrite length_encode64 in E.
  rewrite (fread64_value _ _ _ _ _ Ht E). apply drop_more in E. rewrite length_encode64 in E.
  rewrite (fread32_value _ _ _ _ _ E). apply drop_more in E. rewrite length_be_split in E.
  rewrite (fread32_value _ _ _ _ _ E). apply drop_more in E. rewrite length_be_split in E.
  rewrite !(wraps_id 32) by (unfold in_s; lia).
  rewrite (proj2 (Z.leb_gt _ _)), (proj2 (Z.leb_gt _ _)), (proj2 (Z.ltb_ge _ _)) by lia. cbn [orb].
  rewrite Hc at 1. rewrite Nat2Z.id, (fread_bytes _ _ _ _ _ E). apply drop_more in E.
  rewrite Hc at 1. rewrite Z.eqb_refl, (proj2 (Z.ltb_lt _ _)) by lia. cbn [negb].
  rewrite Hd at 1. rewrite Nat2Z.id, (fread_bytes _ _ _ _ _ E). apply drop_more in E.
  rewrite Hd at 1. rewrite Z.eqb_refl. cbn [negb].
  destruct (next_magic_spec _ _ r _ E Hf) as (o&f&->&H). destruct o as [m|].
  - destruct H as [-> H]. cbn [negb]. rewrite H. unfold numbered. do 3 f_equal.
    rewrite !length_app, !length_encode64, !length_be_split. lia.
  - rewrite H. unfold numbered. do 3 f_equal. rewrite !length_app, !length_encode64, !length_be_split. lia.
Qed.

Lemma fread_any n c p r : exists bs, fread n (mkFILE c p r) = (bs, mkFILE c (p + length bs) r) /\
  length bs = Nat.min n (length (drop p c)).
Proof. eexists. split; [done|]. unfold slice. apply length_take. Qed.

(** What is read does not depend on being complete: the file stays, the position moves on. *)
Lemma read_record_header_cut c p r : (length (drop p c) < 24)%nat ->
  exists q, read_record (mkFILE c p r) = Some (None, mkFILE c q r) /\ (p <= q)%nat.
Proof.
  intros H. unfold read_record.
  destruct (fread64_cases c p r) as (q1&o1&->&?&[[_ ->]|(L1&->&N1)]); [eexists; split; [done|lia]|].
  destruct o1; [|done]. destruct (fread64_cases c (p + 8) r) as (q2&o2&->&?&[[_ ->]|(L2&->&N2)]); [eexists; split; [done|lia]|].
  destruct o2; [|done]. destruct (fread32_cases c (p + 8 + 8) r) as (q3&o3&->&?&[[_ ->]|(L3&->&N3)]); [eexists; split; [done|lia]|].
  destruct o3; [|done]. destruct (fread32_cases c (p + 8 + 8 + 4) r) as (q4&o4&->&?&[[_ ->]|(L4&->&N4)]); [eexists; split; [done|lia]|].
  rewrite !length_drop in *. lia.
Qed.

(** A record that is cut off is no record. *)
Lemma read_record_cut c p r k e t : in_s 64 k -> valid e -> drop p c = t -> t `prefix_of` encode_body k e ->
  (length t < length (encode_body k e))%nat -> exists q, read_record (mkFILE c p r) = Some (None, mkFILE c q r) /\ (p <= q)%nat.
Proof.
  intros Hk V E [u Hu] Hl. destruct (decide (length t < 24)%nat).
  { apply read_record_header_cut. by rewrite E. }
  pose proof V as [Ht Hc Hd _ Hcl Hdl]. pose proof (length_body k e V) as Lb.
  assert (exists t', t = encode64 k ++ encode64 (timestamp e) ++ be_split 4 (channellen e) ++ be_split 4 (datalen e) ++ t')
    as [t' Et].
  { exists (drop 24 t). rewrite <- (take_drop 24 t) at 1.
    assert (take 24 t = take 24 (encode_body k e)) as -> by (rewrite Hu, take_app_le by lia; done).
    unfold encode_body. rewrite !app_assoc. f_equal. }
  rewrite Et in *. unfold read_record.
  rewrite (fread64_value _ _ _ _ _ Hk E). apply drop_more in E. rewrite length_encode64 in E.
  rewrite (fread64_value _ _ _ _ _ Ht E). apply drop_more in E. rewrite length_encode64 in E.
  rewrite (fread32_value _ _ _ _ _ E). apply drop_more in E. rewrite length_be_split in E.
  rewrite (fread32_value _ _ _ _ _ E). apply drop_more in E. rewrite length_be_split in E.
  rewrite !(wraps_id 32) by (unfold in_s; lia).
  rewrite !length_app, !length_encode64, !length_be_split in Hl.
  rewrite (proj2 (Z.leb_gt _ _)), (proj2 (Z.leb_gt _ _)), (proj2 (Z.ltb_ge _ _)) by lia. cbn [orb].
  destruct (fread_any (Z.to_nat (channellen e)) c (p + 8 + 8 + 4 + 4) r) as (bs&->&Lc). rewrite E in Lc.
  destruct (negb _) eqn:Ec; [eexists; split; [done|lia]|]. bool_prop. rewrite (proj2 (Z.ltb_lt _ _)) by lia.
  destruct (fread_any (Z.to_nat (datalen e)) c (p + 8 + 8 + 4 + 4 + length bs) r) as (bs'&->&Ld).
  rewrite <- drop_drop, E, length_drop in Ld.
  destruct (negb _) eqn:Ed; [eexists; split; [done|lia]|]. bool_prop. lia.
Qed.

(** ** Synchronising *)

Definition no_magic (s : list byte) : Prop := forall a b, s <> a ++ magic_bytes ++ b.

Lemma no_magic_suffix s s' : no_magic (s ++ s') -> no_magic s'.
Proof. intros H a b ->. apply (H (s ++ a) b). by rewrite <- app_assoc. Qed.

Lemma be_combine_snoc s r : be_combine (s ++ [r]) = be_combine s * 256 + r.
Proof. unfold be_combine. rewrite reverse_snoc. cbn [le_combine]. lia. Qed.

(** The register holds the last four bytes. *)
Definition register (seen : list byte) : Z := wrapu 32 (be_combine seen).

Lemma register_step seen r : 0 <= r < 256 ->
  Z.lor (wrapu 32 (Z.shiftl (register seen) 8)) r = register (seen ++ [r]).
Proof.
  intros Hr. unfold register. rewrite be_combine_snoc, Z.shiftl_mul_pow2 by lia. generalize (be_combine seen) as x. intros x.
  unfold wrapu. rewrite Zmult_mod_idemp_l. change (2 ^ 8) with 256.
  pose proof (Z.div_mod x (2 ^ 24) ltac:(lia)) as Dx. pose proof (Z.mod_pos_bound x (2 ^ 24) ltac:(lia)) as Bx.
  assert ((x * 256) mod 2 ^ 32 = x mod 2 ^ 24 * 2 ^ 8) as ->
    by (symmetry; apply (Z.mod_unique _ _ (x / 2 ^ 24)); lia).
  rewrite lor_disjoint by lia. apply (Z.mod_unique _ _ (x / 2 ^ 24)); lia.
Qed.

(** The register is the magic number exactly behind its four bytes. *)
Lemma register_magic s : bytes_ok s -> (wraps 32 (register s) =? MAGIC) = true <-> exists a, s = a ++ magic_bytes.
Proof.
  intros B. unfold register. rewrite Z.eqb_eq. unfold wrapu. rewrite wraps_mod by lia. split.
  - intros E. assert (be_combine s mod 2 ^ 32 = 0xEDA1DA01) as Em.
    { unfold MAGIC, wraps in E. change (2 ^ (32 - 1)) with (2 ^ 31) in E.
      assert ((be_combine s + 2 ^ 31) mod 2 ^ 32 = (0xEDA1DA01 + 2 ^ 31) mod 2 ^ 32) as E' by lia.
      pose proof (Z.mod_pos_bound (be_combine s) (2 ^ 32) ltac:(lia)).
      rewrite <- Zplus_mod_idemp_l in E'. change ((0xEDA1DA01 + 2 ^ 31) mod 2 ^ 32) with 0x6DA1DA01 in E'.
      destruct (decide (be_combine s mod 2 ^ 32 < 2 ^ 31)).
      - rewrite Z.mod_small in E' by lia. lia.
      - rewrite <- (Z_mod_plus_full _ (-1)), Z.mod_small in E' by lia. lia. }
    destruct (decide (length s < 4)%nat) as [L|L].
    { pose proof (be_combine_range s B) as R. assert (256 ^ Z.of_nat (length s) <= 256 ^ 3) by (apply Z.pow_le_mono_r; lia).
      rewrite Z.mod_small in Em by lia. lia. }
    exists (take (length s - 4) s). rewrite <- (take_drop (length s - 4) s) at 1. f_equal.
    set (t := drop (length s - 4) s). assert (length t = 4%nat) as Lt by (unfold t; rewrite length_drop; lia).
    assert (bytes_ok t) as Bt by (by apply Forall_drop).
    rewrite <- (be_split_combine t Bt), Lt. unfold magic_bytes.
    assert (be_combine t = 0xEDA1DA01) as ->; [|done].
    pose proof (be_combine_range t Bt) as R. rewrite Lt in R. change (256 ^ Z.of_nat 4) with (2 ^ 32) in R.
    rewrite <- Em, <- (take_drop (length s - 4) s). fold t. clearbody t. generalize (take (length s - 4) s) as a. intros a.
    destruct t as [|b0 [|b1 [|b2 [|b3 [|]]]]]; try done.
    replace (a ++ [b0; b1; b2; b3]) with ((((a ++ [b0]) ++ [b1]) ++ [b2]) ++ [b3]) by (by rewrite <- !app_assoc).
    change [b0; b1; b2; b3] with (((([] ++ [b0]) ++ [b1]) ++ [b2]) ++ [b3]) in *.
    rewrite !be_combine_snoc in *. change (be_combine []) with 0 in *.
    apply (Z.mod_unique _ _ (be_combine a)); lia.
  - intros [a ->]. unfold magic_bytes.
    change (be_split 4 MAGIC) with [237; 161; 218; 1].
    replace (a ++ [237; 161; 218; 1]) with ((((a ++ [237]) ++ [161]) ++ [218]) ++ [1]) by (by rewrite <- !app_assoc).
    rewrite !be_combine_snoc. apply wraps_eq; [lia|by vm_compute|].
    change (MAGIC mod 2 ^ 32) with 0xEDA1DA01. symmetry. apply (Z.mod_unique _ _ (be_combine a)); lia.
Qed.

(** No magic number ends within the bytes: the loop passes them. *)
Lemma sync_pass a b : forall seen n, bytes_ok (seen ++ a) ->
  (forall i, (0 < i <= length a)%nat -> forall x, seen ++ take i a <> x ++ magic_bytes) ->
  sync_loop (a ++ b) (register seen) n = sync_loop b (register (seen ++ a)) (n + length a).
Proof.
  induction a as [|r a IH]; intros seen n B H; cbn [app].
  - rewrite app_nil_r. f_equal. simpl. lia.
  - cbn [sync_loop length]. pose proof B as Br. apply Forall_app in Br as [Bs [Hr Ba]%Forall_cons].
    rewrite register_step by done. destruct (wraps 32 _ =? MAGIC) eqn:E.
    { apply register_magic in E as [x Ex]; [|apply Forall_app; split; [done|by apply Forall_singleton]].
      exfalso. apply (H 1%nat ltac:(simpl; lia) x). done. }
    rewrite IH, <- app_assoc.
    + f_equal. lia.
    + by rewrite <- app_assoc.
    + intros i Hi x Ex. apply (H (S i) ltac:(simpl; lia) x). cbn [take]. by rewrite <- Ex, <- app_assoc.
Qed.

Lemma no_magic_take s i x : no_magic s -> take i s <> x ++ magic_bytes.
Proof. intros H E. apply (H x (drop i s)). rewrite app_assoc, <- E. by rewrite take_drop. Qed.

Lemma sync_none junk : bytes_ok junk -> no_magic junk -> sync_loop junk 0 0 = None.
Proof.
  intros B H. rewrite <- (app_nil_r junk). change 0 with (register []) at 1.
  rewrite sync_pass; [done|done|]. intros i _ x. by apply no_magic_take.
Qed.

(** The magic number does not overlap itself, so that no bytes in front of it hide it. *)
Lemma sync_found junk rest : bytes_ok junk -> no_magic junk ->
  sync_loop (junk ++ magic_bytes ++ rest) 0 0 = Some (length junk + 4)%nat.
Proof.
  intros B H. change (magic_bytes ++ rest) with ([237; 161; 218] ++ 1 :: rest). rewrite app_assoc.
  change 0 with (register []) at 1. assert (bytes_ok (junk ++ [237; 161; 218])) as B3.
  { apply Forall_app. split; [done|]. by repeat constructor. }
  rewrite sync_pass; [|done|].
  - cbn [sync_loop app]. rewrite register_step by lia. rewrite (proj2 (register_magic ((junk ++ [237; 161; 218]) ++ [1]) ltac:(apply Forall_app; split; [done|by repeat constructor]))).
    + rewrite length_app. f_equal. simpl. lia.
    + exists junk. by rewrite <- app_assoc.
  - intros i [Hi Hl] x. cbn [app]. rewrite length_app in Hl. destruct (decide (i <= length junk)%nat).
    { rewrite take_app_le by done. by apply no_magic_take. }
    rewrite take_app_ge by lia. intros E. apply (f_equal last) in E.
    rewrite !last_app in E. change (last magic_bytes) with (Some 1) in E. simpl in Hl.
    assert (i - length junk = 1 \/ i - length junk = 2 \/ i - length junk = 3)%nat as [Ei|[Ei|Ei]] by lia; by rewrite Ei in E.
Qed.

(** ** Logs *)

(** A record has no magic number but its own. *)
Definition clean (k : Z) (e : event) : Prop := no_magic (drop 1 (encode_event k e)).

Fixpoint clean_log (k : Z) (es : list event) : Prop :=
  match es with
  | [] => True
  | e :: es => clean k e /\ clean_log (k + 1) es
  end.

Lemma encode_event_ok k e : valid e -> bytes_ok (encode_event k e).
Proof.
  intros []. unfold encode_event, encode_body, encode64. repeat apply Forall_app_2; try apply be_split_ok;
    by apply Forall_app in v_bytes0 as [].
Qed.

Definition log_at (c : list byte) (p r : nat) (n : Z) : eventlog := mkLog (mkFILE c p r) n.

Lemma magic_bytes_ok : bytes_ok magic_bytes.
Proof. by repeat constructor. Qed.

(** Past bytes without a magic number the next record is read, if there is one. *)
Lemma read_next_record fuel c p r n junk k e rest : bytes_ok junk -> no_magic junk -> in_s 64 k -> valid e ->
  drop p c = junk ++ encode_event k e ++ rest -> follows rest ->
  read_next_loop (S fuel) (log_at c p r n) =
  Read (Some (numbered k e)) (log_at c (p + length junk + length (encode_event k e) + swallow rest) r n).
Proof.
  intros B H Hk V E Hf. unfold encode_event in *. rewrite <- !app_assoc in E. cbn [read_next_loop].
  unfold sync_stream, log_at. cbn [lfile fpos content]. rewrite E, sync_found by done. cbn [negb].
  unfold zcm_event_read_helper, set_file, seek. cbn [lfile fpos content room eventcount].
  assert (drop (p + (length junk + 4)) c = encode_body k e ++ rest) as E'.
  { apply drop_more in E. apply drop_more in E. by rewrite Nat.add_assoc. }
  rewrite (read_record_ok _ _ _ _ _ _ Hk V E' Hf). cbn. do 3 f_equal. rewrite ?length_app. simpl. lia.
Qed.

(** Nothing is found behind the last record. *)
Lemma read_next_end fuel c p r n junk : bytes_ok junk -> no_magic junk -> drop p c = junk ->
  exists q, read_next_loop (S fuel) (log_at c p r n) = Read None (log_at c q r n).
Proof.
  intros B H E. cbn [read_next_loop]. unfold sync_stream, log_at. cbn [lfile fpos content].
  rewrite E, sync_none by done. by eexists.
Qed.

(** A record that was cut off is passed over. *)
Lemma read_next_cut fuel c p r n k e t : in_s 64 k -> valid e -> clean k e -> drop p c = t ->
  t `prefix_of` encode_event k e -> (length t < length (encode_event k e))%nat ->
  exists q, read_next_loop (S (S fuel)) (log_at c p r n) = Read None (log_at c q r n).
Proof.
  intros Hk V N E Hp Hl. pose proof (encode_event_ok k e V) as B. unfold clean in N. pose proof Hp as [u Hu]. unfold encode_event in *.
  destruct (decide (length t < 4)%nat) as [L|L].
  { eapply (read_next_end _ _ _ _ _ t); [rewrite Hu in B; by apply Forall_app in B as []| |done].
    intros a b Eb. rewrite Eb, !length_app in L. change (length magic_bytes) with 4%nat in L. lia. }
  assert (exists t', t = magic_bytes ++ t' /\ encode_body k e = t' ++ u) as (t'&Et&Eb).
  { exists (drop 4 t). rewrite <- (take_drop 4 t) at 1 2. assert (take 4 t = magic_bytes) as ->.
    { rewrite <- (take_app_le t u 4) by lia. by rewrite <- Hu. }
    split; [done|]. apply (f_equal (drop 4)) in Hu. rewrite (drop_app_le t u 4) in Hu by lia. done. }
  rewrite Et in E, Hl. rewrite !length_app in Hl. cbn [read_next_loop]. unfold sync_stream at 1, log_at. cbn [lfile fpos content].
  rewrite E. change (magic_bytes ++ t') with ([] ++ magic_bytes ++ t'). rewrite sync_found; [|constructor|by intros []].
  unfold zcm_event_read_helper, set_file, seek. cbn [lfile fpos content room eventcount negb length].
  apply drop_more in E. change (length magic_bytes) with 4%nat in *. change (0 + 4)%nat with 4%nat.
  destruct (read_record_cut c (p + 4) r k e t' Hk V E) as (q&->&Hq); [by exists u|lia|].
  cbn. replace (q - (q - (p + 4)))%nat with (p + 4)%nat.
  - apply (read_next_end fuel c (p + 4) r n t'); [|  |done].
    + rewrite Eb in B. apply Forall_app in B as [_ B]. by apply Forall_app in B as [].
    + rewrite Eb in N. intros a b ->. apply (N ([161; 218; 1] ++ a) (b ++ u)). simpl. by rewrite <- !app_assoc.
  - lia.
Qed.

(** ** In order *)

(** Reading until there is nothing left. *)
Fixpoint read_all (fuel : nat) (l : eventlog) : list event :=
  match fuel with
  | O => []
  | S fuel =>
      match zcm_eventlog_read_next_event l with
      | Read (Some le) l => le :: read_all fuel l
      | _ => []
      end
  end.

(** Writing until a write fails: how many succeeded. *)
Fixpoint write_all (l : eventlog) (es : list event) : option (nat * eventlog) :=
  match es with
  | [] => Some (0%nat, l)
  | e :: es =>
      '(ok, l) <- zcm_eventlog_write_event l e ;;
      if (ok : bool) then '(n, l) <- write_all l es ;; Some (S n, l) else Some (0%nat, l)
  end.

Definition empty_log (room : nat) : eventlog := mkLog (mkFILE [] 0 room) 0.

(** The log from its start. *)
Definition rewound (l : eventlog) : eventlog := set_file l (seek (lfile l) 0).

(** What a failed write leaves: part of a record. *)
Definition cut (k : Z) (t : list byte) : Prop :=
  t = [] \/ exists e, valid e /\ clean k e /\ t `prefix_of` encode_event k e /\ (length t < length (encode_event k e))%nat.

Lemma write_all_content es : forall l, Forall valid es -> clean_log (eventcount l) es -> exists n l' t,
  write_all l es = Some (n, l') /\ (n <= length es)%nat /\
  content (lfile l') = content (lfile l) ++ encode_log (eventcount l) (take n es) ++ t /\
  cut (eventcount l + Z.of_nat n) t /\
  (n = length es \/ (room (lfile l) < length (encode_log (eventcount l) es))%nat).
Proof.
  induction es as [|e es IH]; intros l V C.
  - exists 0%nat, l, []. cbn. rewrite app_nil_r. repeat split; auto. by left.
  - apply Forall_cons in V as [Ve V]. destruct C as [Ce C]. cbn [write_all]. rewrite write_event_put by done.
    unfold put_bytes, fwrite. destruct (_ =? length (encode_event _ e))%nat eqn:E; bool_prop.
    + rewrite Nat.min_l, firstn_all by lia.
      destruct (IH (mkLog (mkFILE (content (lfile l) ++ encode_event (eventcount l) e) (fpos (lfile l))
        (room (lfile l) - length (encode_event (eventcount l) e))) (eventcount l + 1)) V C) as (n&l'&t&->&Hn&Hc&Ht&Hr).
      cbn [lfile content eventcount room] in *. exists (S n), l', t. split; [done|]. split; [simpl; lia|]. split.
      { rewrite Hc. cbn [take encode_log]. by rewrite <- !app_assoc. }
      split; [replace (eventcount l + Z.of_nat (S n)) with (eventcount l + 1 + Z.of_nat n) by lia; done|].
      cbn [length encode_log]. rewrite length_app. destruct Hr; [left; lia|right; lia].
    + assert (room (lfile l) < length (encode_event (eventcount l) e))%nat by lia.
      rewrite Nat.min_r by lia. eexists 0%nat, _, _. split; [done|]. split; [lia|]. cbn [lfile content take encode_log app].
      split; [done|]. split.
      { right. exists e. rewrite Z.add_0_r. split; [done|]. split; [done|]. split; [apply prefix_take|].
        rewrite length_take. lia. }
      right. rewrite length_app. lia.
Qed.

Lemma log_follows k es t : cut (k + Z.of_nat (length es)) t -> follows (encode_log k es ++ t).
Proof.
  intros Ht. destruct es as [|e es]; [|right; eexists; cbn [encode_log]; unfold encode_event; by rewrite <- !app_assoc].
  cbn. destruct Ht as [->|(e&_&_&[u Hu]&_)]; [left; simpl; lia|].
  destruct (decide (length t < 4)%nat); [by left|right]. exists (drop 4 t). rewrite <- (take_drop 4 t) at 1. f_equal.
  rewrite <- (take_app_le t u 4) by lia. by rewrite <- Hu.
Qed.

(** What the reader sees from a record boundary, or from the end when too few bytes are left. *)
Definition left_over (s : list byte) : list byte := if (length s <? 4)%nat then [] else s.

Lemma drop_swallow c p s : drop p c = s -> drop (p + swallow s) c = left_over s.
Proof.
  intros E. unfold swallow, left_over. destruct (_ <? 4)%nat; [|by rewrite Nat.add_0_r].
  rewrite <- drop_drop, E. apply drop_all.
Qed.

Lemma left_over_or s : left_over s = s \/ left_over s = [].
Proof. unfold left_over. case_match; auto. Qed.

(** The reader is at a record boundary: [s] follows. *)
Definition at_boundary (c : list byte) (p : nat) (s : list byte) : Prop := drop p c = s \/ drop p c = left_over s.

(** Behind the last whole record nothing more is read. *)
Lemma read_next_none c p r n k t : cut k t -> in_s 64 k -> at_boundary c p t ->
  exists q, zcm_eventlog_read_next_event (log_at c p r n) = Read None (log_at c q r n).
Proof.
  intros Ht Hk E. unfold zcm_eventlog_read_next_event. cbn [log_at lfile content].
  destruct (decide (drop p c = [])) as [E0|N0].
  { apply (read_next_end _ _ _ _ _ []); [constructor|by intros []|done]. }
  assert (drop p c = t) as Et by (destruct (left_over_or t) as [El|El]; destruct E as [E|E]; congruence).
  destruct Ht as [->|(e&Ve&Ce&Hp&Hl)]; [done|].
  destruct c as [|b c]; [by rewrite drop_nil in N0|]. cbn [length].
  by apply (read_next_cut _ _ _ _ _ k e t).
Qed.

(** A whole record is read, and the reader is at the next boundary. *)
Lemma read_next_some c p r n k e es t : valid e -> in_s 64 k -> cut (k + 1 + Z.of_nat (length es)) t ->
  at_boundary c p (encode_log k (e :: es) ++ t) -> exists p',
  zcm_eventlog_read_next_event (log_at c p r n) = Read (Some (numbered k e)) (log_at c p' r n) /\
  at_boundary c p' (encode_log (k + 1) es ++ t) /\ (es <> [] -> p' = p + length (encode_event k e))%nat /\
  drop p c = encode_event k e ++ encode_log (k + 1) es ++ t.
Proof.
  intros Ve Hk Ht E. assert (drop p c = encode_event k e ++ (encode_log (k + 1) es ++ t)) as E1.
  { unfold at_boundary, left_over in E. cbn [encode_log] in E. rewrite <- app_assoc in E.
    change (length (encode_event k e ++ encode_log (k + 1) es ++ t) <? 4)%nat with false in E. by destruct E. }
  eexists. split; [|split; [|split]].
  - apply (read_next_record _ c p r n [] k e _ ltac:(constructor) ltac:(by intros []) Hk Ve E1). by apply log_follows.
  - right. apply drop_swallow. cbn [length]. rewrite Nat.add_0_r. by apply drop_more.
  - intros N. destruct es as [|e' es]; [done|]. cbn [length encode_log]. unfold swallow, encode_event. simpl. lia.
  - done.
Qed.

Lemma read_all_log fuel es : forall c p r n k t, Forall valid es -> 0 <= k -> k + Z.of_nat (length es) < 2 ^ 63 ->
  cut (k + Z.of_nat (length es)) t -> (length es < fuel)%nat -> at_boundary c p (encode_log k es ++ t) ->
  read_all fuel (log_at c p r n) = numbered_all k es.
Proof.
  revert fuel. induction es as [|e es IH]; intros [|fuel] c p r n k t V H0 Hk Ht Hf E; [simpl in Hf; lia| |simpl in Hf; lia|];
    cbn [read_all length] in *.
  - destruct (read_next_none c p r n _ t Ht) as [l ->]; [unfold in_s; lia|done|done].
  - apply Forall_cons in V as [Ve V].
    replace (k + Z.of_nat (S (length es))) with (k + 1 + Z.of_nat (length es)) in * by lia.
    destruct (read_next_some c p r n k e es t Ve) as (p'&->&E'&_); [unfold in_s; lia|done..|].
    cbn [numbered_all]. f_equal. apply (IH fuel _ _ _ _ _ t V); auto; lia.
Qed.

(** C25: a log of valid events without the sync word in their records gives back what was
    written to it: after writing the events until there are no more or the device is full,
    reading from the start returns exactly the events whose writing succeeded, in order,
    numbered from 0, with their times, channels and data, even when a failed write has
    left part of a record behind; with enough room all writes succeed.  An event is valid
    when its channel has 1 to 999 bytes and its data fewer than 2^31 - 1 bytes, its
    lengths are those of its channel and data, and its time fits in 64 bits ([valid]): an
    event with an empty channel is written with success and not read back.  The log is
    clean when the magic number of the sync occurs in no record but at its start
    ([clean_log]), as the reader finds a record by looking for it. *)
Theorem log_roundtrip (es : list event) (size : nat) : Forall valid es -> clean_log 0 es ->
  Z.of_nat (length es) < 2 ^ 63 ->
  exists n l, write_all (empty_log size) es = Some (n, l) /\
  (forall fuel, (n < fuel)%nat -> read_all fuel (rewound l) = numbered_all 0 (take n es)) /\
  ((length (encode_log 0 es) <= size)%nat -> n = length es).
Proof.
  intros V C L. destruct (write_all_content es (empty_log size) V C) as (n&l&t&E&Hn&Hc&Ht&Hr).
  exists n, l. split; [done|]. cbn [empty_log lfile content room eventcount app] in *. split.
  - intros fuel Hf. destruct l as [[c p r] k]. cbn [lfile content] in Hc. unfold rewound, set_file, seek.
    cbn [lfile content room eventcount]. assert (length (take n es) = n) as Ln by (rewrite length_take; lia).
    apply (read_all_log _ _ _ _ _ _ 0 t); [by apply Forall_take|lia|lia|by rewrite Ln|lia|]. left. by rewrite drop_0.
  - intros Hs. destruct Hr; [done|lia].
Qed.

(** ** From an offset *)

(** The first event whose record starts [o] bytes or more further on. *)
Fixpoint next_event (o : nat) (k : Z) (es : list event) : option event :=
  match es with
  | [] => None
  | e :: es => if (o =? 0)%nat then Some (numbered k e) else next_event (o - length (encode_event k e)) (k + 1) es
  end.

Lemma next_event_0 k es : next_event 0 k es = numbered k <$> head es.
Proof. by destruct es. Qed.

Lemma read_from fuel c p r n junk k es : bytes_ok junk -> no_magic junk -> Forall valid es ->
  0 <= k -> k + Z.of_nat (length es) < 2 ^ 63 -> drop p c = junk ++ encode_log k es ->
  exists l, read_next_loop (S fuel) (log_at c p r n) = Read (next_event 0 k es) l.
Proof.
  intros B N V H0 Hk E. rewrite next_event_0. destruct es as [|e es].
  - rewrite app_nil_r in E. destruct (read_next_end fuel c p r n junk B N E) as [q ->]. by eexists.
  - apply Forall_cons in V as [Ve V]. cbn [encode_log length] in *. eexists.
    apply (read_next_record fuel c p r n junk k e (encode_log (k + 1) es)); auto; [unfold in_s; lia|].
    rewrite <- (app_nil_r (encode_log _ _)). apply log_follows. by left.
Qed.

Lemma read_offset fuel r n es : forall pre k o, Forall valid es -> clean_log k es -> 0 <= k ->
  k + Z.of_nat (length es) < 2 ^ 63 -> exists l,
  read_next_loop (S fuel) (log_at (pre ++ encode_log k es) (length pre + o) r n) = Read (next_event o k es) l.
Proof.
  induction es as [|e es IH]; intros pre k o V C H0 Hk.
  - cbn [encode_log]. rewrite app_nil_r.
    destruct (read_next_end fuel pre (length pre + o) r n []) as [q ->]; [constructor|by intros []|apply drop_ge; lia|].
    by eexists.
  - destruct (decide (o = 0)%nat) as [->|No].
    { apply read_from with (junk := []); [constructor|by intros []|done..|]. by rewrite Nat.add_0_r, drop_app_length. }
    apply Forall_cons in V as [Ve V]. destruct C as [Ce C]. cbn [next_event encode_log length] in *.
    rewrite (proj2 (Nat.eqb_neq o 0)) by done. destruct (decide (length (encode_event k e) <= o)%nat).
    + destruct (IH (pre ++ encode_event k e) (k + 1) (o - length (encode_event k e))%nat V C ltac:(lia) ltac:(lia)) as [l' El].
      exists l'. rewrite <- app_assoc, length_app in El.
      by replace (length pre + length (encode_event k e) + (o - length (encode_event k e)))%nat with (length pre + o)%nat in El by lia.
    + replace (o - length (encode_event k e))%nat with 0%nat by lia. pose proof (encode_event_ok k e Ve) as B.
      apply read_from with (junk := drop o (encode_event k e)); [by apply Forall_drop| |done|lia|lia|].
      * destruct o as [|o]; [done|]. apply (no_magic_suffix (take o (drop 1 (encode_event k e)))).
        replace (drop (S o) (encode_event k e)) with (drop o (drop 1 (encode_event k e))) by (by rewrite drop_drop).
        by rewrite take_drop.
      * rewrite <- drop_drop, drop_app_length. by rewrite drop_app_le by lia.
Qed.

(** reading from any offset of a log, also from the middle of a record,
    returns the first event whose record starts there or later, and nothing when
    there is none; the search ends. *)
Theorem log_resync (es : list event) (offset r : nat) (n : Z) : Forall valid es -> clean_log 0 es ->
  Z.of_nat (length es) < 2 ^ 63 -> exists l,
  zcm_eventlog_read_event_at_offset (mkLog (mkFILE (encode_log 0 es) 0 r) n) offset = Read (next_event offset 0 es) l.
Proof. intros V C L. apply (read_offset _ r n es [] 0 offset V C); lia. Qed.

(** ** Examples *)

Definition example_event : event := mkEvent 0 1500 2 3 [72; 73] [1; 2; 3].

Lemma example_valid : Forall valid [example_event; example_event].
Proof. assert (valid example_event) by (constructor; first [by vm_compute|by repeat constructor]). by repeat constructor. Qed.

Lemma no_magic_absent s : 237 ∉ s -> no_magic s.
Proof. intros H a b ->. apply H, elem_of_app. right. by left. Qed.

Lemma example_clean : clean_log 0 [example_event; example_event].
Proof. repeat split; apply no_magic_absent; vm_compute; set_solver. Qed.

(** Room for one record and part of the next. *)
Lemma log_roundtrip_witness : exists n l,
  write_all (empty_log 50) [example_event; example_event] = Some (n, l) /\
  (forall fuel, (n < fuel)%nat -> read_all fuel (rewound l) = numbered_all 0 (take n [example_event; example_event])) /\
  ((length (encode_log 0 [example_event; example_event]) <= 50)%nat -> n = 2%nat).
Proof. apply (log_roundtrip _ 50 example_valid example_clean). vm_compute. reflexivity. Defined.

Lemma log_resync_witness : exists l,
  zcm_eventlog_read_event_at_offset (mkLog (mkFILE (encode_log 0 [example_event; example_event]) 0 0) 0) 5 =
  Read (next_event 5 0 [example_event; example_event]) l.
Proof. apply (log_resync _ 5 0 0 example_valid example_clean). vm_compute. reflexivity. Defined.

(** The time of the only event of a log is not found: the bisection begins in the
    middle of its record and sees no magic number. *)
Lemma seek_single_event_fails target : exists l,
  zcm_eventlog_seek_to_timestamp 1 (mkLog (mkFILE (encode_log 0 [example_event]) 0 0) 0) target = Some (false, l).
Proof. eexists. unfold zcm_eventlog_seek_to_timestamp. cbn [seek_loop]. vm_compute. reflexivity. Qed.

(** With two events the second one is found. *)
Lemma seek_second_event : exists l,
  zcm_eventlog_seek_to_timestamp 60
    (mkLog (mkFILE (encode_log 0 [example_event; mkEvent 0 1600 2 3 [72; 73] [1; 2; 3]]) 0 0) 0) 1600 = Some (true, l) /\
  exists l', zcm_eventlog_read_next_event l = Read (Some (mkEvent 1 1600 2 3 [72; 73] [1; 2; 3])) l'.
Proof. eexists. split; [vm_compute; reflexivity|]. eexists. vm_compute. reflexivity. Qed.
