(* ===== verification/LfPool.v ===== *)
(** * The lock-free pool (zcm/transport/lockfree/lf_pool.c)

    A stack of free elements whose links are stored in the elements themselves.
    Any number of threads acquire and release elements; every access to shared
    memory is one step, and the steps of the threads interleave in any order.
    Memory is sequentially consistent, an aligned reference of 16 bytes is read
    and written at once, the memory has room for the elements, and the 64-bit
    tags do not wrap within the life of a pool. *)
From S2P Require Import Prelude.
Local Open Scope Z_scope.

(** ** References (zcm/transport/lockfree/lf_util.h) *)

Record lf_ref := mkRef { rtag : Z; rval : Z }.

#[export] Instance lf_ref_eq_dec : EqDecision lf_ref.
Proof. solve_decision. Defined.

Definition LF_REF_SZ : Z := 16.
Definition LF_REF_NULL : lf_ref := mkRef 0 0.
Definition LF_IS_POW2 (s : Z) : bool := negb (s =? 0) && (Z.land s (s - 1) =? 0).
Definition LF_ALIGN_UP (s a : Z) : Z := Z.land (s + (a - 1)) (Z.lnot (a - 1)).

(** ** The pool *)

Definition LF_POOL_ALIGN : Z := 4096.

(** Where a thread stands: about to do the access that is named. *)
Inductive pool_pc :=
  | PIdle
  | AcqHead
  | AcqNext (cur : lf_ref)
  | AcqCas (cur next : lf_ref)
  | RelInc (elt : Z)
  | RelHead (elt : Z) (next : lf_ref)
  | RelWrite (elt : Z) (next cur : lf_ref)
  | RelCas (elt : Z) (next cur : lf_ref).

#[export] Instance pool_pc_eq_dec : EqDecision pool_pc.
Proof. solve_decision. Defined.

(** A thread and the elements it has acquired. *)
Record pthread := mkPThread { ppc : pool_pc; pheld : list Z }.

(** [links] are the first 16 bytes of the elements, by their offset. *)
Record pool := mkPool {
  phead : lf_ref;
  tag_next : Z;
  links : gmap Z lf_ref;
  pthreads : list pthread
}.

Definition link (m : gmap Z lf_ref) (elt : Z) : lf_ref := default LF_REF_NULL (m !! elt).

(** What a thread does next: begin a call, write to an element it holds, or go on with its call. *)
Inductive pcmd := CallAcquire | CallRelease (elt : Z) | UserWrite (elt : Z) (bytes : lf_ref) | PoolNext.

Definition set_pthread (p : pool) (i : nat) (t : pthread) : pool :=
  mkPool (phead p) (tag_next p) (links p) (<[i := t]> (pthreads p)).

Definition remove_one (x : Z) (l : list Z) : list Z := filter (fun y => y <> x) l.

(** One step of a call of [lf_pool_acquire] or [lf_pool_release]. *)
Definition pool_access (p : pool) (i : nat) (t : pthread) : option pool :=
  match ppc t with
  | PIdle => None
  | AcqHead =>
      let cur := phead p in
      if bool_decide (cur = LF_REF_NULL) then Some (set_pthread p i (mkPThread PIdle (pheld t)))
      else Some (set_pthread p i (mkPThread (AcqNext cur) (pheld t)))
  | AcqNext cur => Some (set_pthread p i (mkPThread (AcqCas cur (link (links p) (rval cur))) (pheld t)))
  | AcqCas cur next =>
      if bool_decide (phead p = cur) then
        Some (set_pthread (mkPool next (tag_next p) (links p) (pthreads p)) i (mkPThread PIdle (rval cur :: pheld t)))
      else Some (set_pthread p i (mkPThread AcqHead (pheld t)))
  | RelInc elt =>
      let tag := tag_next p + 1 in
      Some (set_pthread (mkPool (phead p) tag (links p) (pthreads p)) i (mkPThread (RelHead elt (mkRef tag elt)) (pheld t)))
  | RelHead elt next => Some (set_pthread p i (mkPThread (RelWrite elt next (phead p)) (pheld t)))
  | RelWrite elt next cur =>
      Some (set_pthread (mkPool (phead p) (tag_next p) (<[elt := cur]> (links p)) (pthreads p)) i
        (mkPThread (RelCas elt next cur) (pheld t)))
  | RelCas elt next cur =>
      if bool_decide (phead p = cur) then
        Some (set_pthread (mkPool next (tag_next p) (links p) (pthreads p)) i (mkPThread PIdle (pheld t)))
      else Some (set_pthread p i (mkPThread (RelHead elt next) (pheld t)))
  end.

(** A step; [None] when the thread cannot do it.  A thread releases and writes
    only what it holds. *)
Definition pool_step (p : pool) (a : nat * pcmd) : option pool :=
  t <- pthreads p !! a.1 ;;
  match a.2 with
  | PoolNext => pool_access p a.1 t
  | CallAcquire =>
      check (match ppc t with PIdle => true | _ => false end) ;;
      Some (set_pthread p a.1 (mkPThread AcqHead (pheld t)))
  | CallRelease elt =>
      check (match ppc t with PIdle => bool_decide (elt ∈ pheld t) | _ => false end) ;;
      Some (set_pthread p a.1 (mkPThread (RelInc elt) (remove_one elt (pheld t))))
  | UserWrite elt bytes =>
      check (match ppc t with PIdle => bool_decide (elt ∈ pheld t) | _ => false end) ;;
      Some (set_pthread (mkPool (phead p) (tag_next p) (<[elt := bytes]> (links p)) (pthreads p)) a.1 t)
  end.

Fixpoint pool_run (p : pool) (sched : list (nat * pcmd)) : option pool :=
  match sched with
  | [] => Some p
  | a :: sched => p <- pool_step p a ;; pool_run p sched
  end.

(** The size and the alignment of the memory of a pool, if the parameters are accepted. *)
Definition lf_pool_footprint (num_elts elt_sz elt_align : Z) : option (Z * Z) :=
  if elt_sz =? 0 then None
  else if LF_POOL_ALIGN <? elt_align then None
  else if negb (LF_IS_POW2 elt_align) then None
  else if negb (elt_sz mod elt_align =? 0) then None
  else Some (wrapu 64 (LF_POOL_ALIGN + elt_sz * num_elts), LF_POOL_ALIGN).

(** A release while nobody else uses the pool. *)
Definition release_alone (p : pool) (elt : Z) : pool :=
  mkPool (mkRef (tag_next p + 1) elt) (tag_next p + 1) (<[elt := phead p]> (links p)) (pthreads p).

(** The elements lie behind the header, one after another; the last is released first. *)
Fixpoint release_all (p : pool) (elt_sz : Z) (i : nat) : pool :=
  match i with
  | O => p
  | S i => release_all (release_alone p (LF_POOL_ALIGN + Z.of_nat i * elt_sz)) elt_sz i
  end.

Definition lf_pool_mem_init (num_elts : nat) (elt_sz elt_align : Z) (threads : nat) : option pool :=
  _ <- lf_pool_footprint (Z.of_nat num_elts) elt_sz elt_align ;;
  Some (release_all (mkPool LF_REF_NULL 0 ∅ (replicate threads (mkPThread PIdle []))) elt_sz num_elts).

(** ** Who has an element *)

Definition pc_owned (pc : pool_pc) : list Z :=
  match pc with
  | RelInc elt | RelHead elt _ | RelWrite elt _ _ | RelCas elt _ _ => [elt]
  | _ => []
  end.

(** The elements of a thread: those it holds and the one it is releasing. *)
Definition towned (t : pthread) : list Z := pc_owned (ppc t) ++ pheld t.
Definition owned (ts : list pthread) : list Z := ts ≫= towned.

(** The references that are about to be pushed. *)
Definition pc_pending (pc : pool_pc) : list lf_ref :=
  match pc with
  | RelHead _ next | RelWrite _ next _ | RelCas _ next _ => [next]
  | _ => []
  end.
Definition pending (ts : list pthread) : list lf_ref := ts ≫= fun t => pc_pending (ppc t).

(** The stack below a reference. *)
Fixpoint linked (m : gmap Z lf_ref) (r : lf_ref) (l : list lf_ref) : Prop :=
  match l with
  | [] => r = LF_REF_NULL
  | r' :: l => r = r' /\ linked m (link m (rval r')) l
  end.

(** What a thread in the middle of a call knows. *)
Definition pc_ok (p : pool) (l : list lf_ref) (pc : pool_pc) : Prop :=
  match pc with
  | AcqNext cur => cur <> LF_REF_NULL /\ rtag cur <= tag_next p /\ cur ∉ pending (pthreads p)
  | AcqCas cur next =>
      cur <> LF_REF_NULL /\ rtag cur <= tag_next p /\ cur ∉ pending (pthreads p) /\ (cur ∈ l -> link (links p) (rval cur) = next)
  | RelHead elt next | RelWrite elt next _ => rtag next <= tag_next p /\ rval next = elt
  | RelCas elt next cur => rtag next <= tag_next p /\ rval next = elt /\ link (links p) elt = cur
  | _ => True
  end.

(** The invariant, with the stack [l] and all elements [es]. *)
Record pool_ok (es : list Z) (l : list lf_ref) (p : pool) : Prop := mkPoolOk {
  ok_linked : linked (links p) (phead p) l;
  ok_perm : (rval <$> l) ++ owned (pthreads p) ≡ₚ es;
  ok_tags : Forall (fun r => rtag r <= tag_next p) l;
  ok_pcs : Forall (fun t => pc_ok p l (ppc t)) (pthreads p)
}.

(** ** The steps keep the invariant *)

Lemma owned_insert ts i t t' : ts !! i = Some t -> owned (<[i := t']> ts) ++ towned t ≡ₚ owned ts ++ towned t'.
Proof.
  intros H. pose proof (lookup_lt_Some _ _ _ H). rewrite <- (take_drop_middle ts i t H) at 2.
  rewrite insert_take_drop by done. unfold owned. rewrite !bind_app. cbn [mbind list_bind]. solve_Permutation.
Qed.

Lemma pending_insert ts i t' r : r ∈ pending (<[i := t']> ts) -> r ∈ pc_pending (ppc t') \/ r ∈ pending ts.
Proof.
  unfold pending. rewrite !list_elem_of_bind. intros (t&Hr&[j Hj]%list_elem_of_lookup).
  apply list_lookup_insert_Some in Hj as [(_&->&_)|[_ Hj]]; [by left|right].
  exists t. split; [done|]. by eapply list_elem_of_lookup_2.
Qed.

Lemma owned_lookup ts i t x : ts !! i = Some t -> x ∈ towned t -> x ∈ owned ts.
Proof. intros H Hx. apply list_elem_of_bind. exists t. split; [done|]. by eapply list_elem_of_lookup_2. Qed.

Lemma pending_owned es l p r : pool_ok es l p -> r ∈ pending (pthreads p) -> rval r ∈ owned (pthreads p).
Proof.
  intros [_ _ _ F] (t&Hr&[i Hi]%list_elem_of_lookup)%list_elem_of_bind.
  eapply owned_lookup; [done|]. rewrite Forall_lookup in F. specialize (F _ _ Hi). unfold towned.
  destruct (ppc t); cbn [pc_pending pc_ok pc_owned] in *; try set_solver;
    apply list_elem_of_singleton in Hr as ->; destruct F as [_ F]; set_solver.
Qed.

Lemma two_owners ts i j ti tj x : NoDup (owned ts) -> ts !! i = Some ti -> ts !! j = Some tj -> i <> j ->
  x ∈ towned ti -> x ∉ towned tj.
Proof.
  intros N Hi Hj Hij Xi Xj. pose proof (owned_insert ts i ti (mkPThread PIdle []) Hi) as P.
  rewrite app_nil_r in P. rewrite <- P in N. apply NoDup_app in N as (_&N&_).
  apply (N x); [|done]. eapply (owned_lookup _ j tj); [|done]. by rewrite list_lookup_insert_ne.
Qed.

(** Cells outside of the stack do not matter to it. *)
Lemma linked_frame m m' r k : linked m r k -> (forall x, x ∈ k -> link m' (rval x) = link m (rval x)) -> linked m' r k.
Proof.
  revert r. induction k as [|x k IH]; intros r; cbn [linked]; [done|]. intros [-> L] H. split; [done|].
  rewrite H by set_solver. apply IH; [done|]. set_solver.
Qed.

Lemma link_insert m elt r x : link (<[elt := r]> m) x = if bool_decide (x = elt) then r else link m x.
Proof. unfold link. case_bool_decide; [subst; by rewrite lookup_insert_eq|by rewrite lookup_insert_ne]. Qed.

Section Step.
Context (es : list Z) (l : list lf_ref) (p : pool) (Hok : pool_ok es l p) (Nd : NoDup es).

Lemma stack_not_owned r : r ∈ l -> rval r ∉ owned (pthreads p).
Proof.
  intros Hr. destruct Hok as [_ P _ _]. rewrite <- P in Nd. apply NoDup_app in Nd as (_&N&_). apply N.
  by apply list_elem_of_fmap_2.
Qed.

Lemma owned_nodup : NoDup (owned (pthreads p)).
Proof. destruct Hok as [_ P _ _]. rewrite <- P in Nd. by apply NoDup_app in Nd as (_&_&?). Qed.

(** The other threads are not disturbed: the tags grow, what is pushed was
    pending, new references are fresh, and only a cell of this thread changes. *)
Lemma others_ok i t p' l' t' : pthreads p !! i = Some t -> pthreads p' = <[i := t']> (pthreads p) ->
  tag_next p <= tag_next p' ->
  (forall r, r ∈ pc_pending (ppc t') -> r ∈ pending (pthreads p) \/ tag_next p < rtag r) ->
  (forall r, r ∈ l' -> r ∈ l \/ r ∈ pending (pthreads p)) ->
  (forall x, x ∉ towned t -> link (links p') x = link (links p) x) ->
  pc_ok p' l' (ppc t') -> Forall (fun t => pc_ok p' l' (ppc t)) (pthreads p').
Proof.
  intros Hi Et Ht Hp Hl Hm Hok'. rewrite Et. apply Forall_lookup_2. intros j tj Hj.
  apply list_lookup_insert_Some in Hj as [(_&<-&_)|[Hij Hj]]; [done|].
  destruct Hok as [_ _ _ F]. rewrite Forall_lookup in F. specialize (F j tj Hj).
  assert (forall cur, rtag cur <= tag_next p -> cur ∉ pending (pthreads p) -> cur ∉ pending (pthreads p')) as K.
  { intros cur Hc Hn. rewrite Et. intros [H|H]%pending_insert; [|done]. destruct (Hp _ H) as [?|?]; [done|lia]. }
  destruct (ppc tj) eqn:Ej; cbn [pc_ok] in *.
  - done.
  - done.
  - destruct F as (F0&F1&F2). split; [done|]. split; [lia|auto].
  - destruct F as (F0&F1&F2&F3). split; [done|]. split; [lia|]. split; [auto|]. intros Hc. destruct (Hl _ Hc) as [Hc'|?]; [|done].
    rewrite Hm; [auto|]. intros Hx. by apply (stack_not_owned _ Hc'), (owned_lookup _ i t).
  - done.
  - destruct F. split; [lia|done].
  - destruct F. split; [lia|done].
  - destruct F as (F1&F2&F3). split; [lia|]. split; [done|]. rewrite Hm; [done|]. intros Hx.
    refine (two_owners _ i j t tj elt owned_nodup Hi Hj Hij Hx _). unfold towned. rewrite Ej. set_solver.
Qed.
End Step.

(** Only the thread and the tag counter change. *)
Lemma set_tag_ok es l p i t t' tag : NoDup es -> pool_ok es l p -> pthreads p !! i = Some t -> towned t' ≡ₚ towned t ->
  tag_next p <= tag -> (forall r, r ∈ pc_pending (ppc t') -> r ∈ pending (pthreads p) \/ tag_next p < rtag r) ->
  let p' := set_pthread (mkPool (phead p) tag (links p) (pthreads p)) i t' in
  pc_ok p' l (ppc t') -> pool_ok es l p'.
Proof.
  intros Nd Hok Hi Ho Ht Hp p' Hpc. pose proof Hok as [L P T F]. constructor; [done| | |].
  - rewrite <- P. f_equiv. cbn [p' set_pthread pthreads]. pose proof (owned_insert _ _ _ t' Hi) as O. rewrite Ho in O.
    by apply Permutation_app_inv_r in O.
  - eapply Forall_impl; [exact T|]. cbn. intros. lia.
  - eapply (others_ok es l p Hok Nd i t); try done; auto.
Qed.

Lemma set_pthread_ok es l p i t t' : NoDup es -> pool_ok es l p -> pthreads p !! i = Some t -> towned t' ≡ₚ towned t ->
  (forall r, r ∈ pc_pending (ppc t') -> r ∈ pending (pthreads p)) ->
  pc_ok (set_pthread p i t') l (ppc t') -> pool_ok es l (set_pthread p i t').
Proof. intros. destruct p as [h tag m ts]. apply (set_tag_ok es l (mkPool h tag m ts) i t t' tag); auto; done. Qed.

Lemma linked_cons m r l : linked m r l -> r <> LF_REF_NULL -> exists l', l = r :: l' /\ linked m (link m (rval r)) l'.
Proof. destruct l as [|r' l]; cbn [linked]; [done|]. intros [-> ?] _. eauto. Qed.

Lemma pending_lookup ts i t r : ts !! i = Some t -> r ∈ pc_pending (ppc t) -> r ∈ pending ts.
Proof. intros H Hr. apply list_elem_of_bind. exists t. split; [done|]. by eapply list_elem_of_lookup_2. Qed.

Lemma pool_pc_ok es l p i t : pool_ok es l p -> pthreads p !! i = Some t -> pc_ok p l (ppc t).
Proof. intros [_ _ _ F] H. by eapply Forall_lookup_1 in F. Qed.

(** A successful acquire pops the stack. *)
Lemma acquire_ok es l p i t cur next : NoDup es -> pool_ok es l p -> pthreads p !! i = Some t -> ppc t = AcqCas cur next ->
  phead p = cur ->
  exists l', pool_ok es l' (set_pthread (mkPool next (tag_next p) (links p) (pthreads p)) i (mkPThread PIdle (rval cur :: pheld t))).
Proof.
  intros Nd Hok Hi Ec Hh. pose proof Hok as [L P T F]. rewrite Hh in L.
  pose proof (pool_pc_ok _ _ _ _ _ Hok Hi) as K. rewrite Ec in K. destruct K as (Hn&_&_&K).
  destruct (linked_cons _ _ _ L Hn) as (l'&->&L'). rewrite K in L' by set_solver. exists l'. constructor.
  - done.
  - cbn [set_pthread pthreads]. rewrite <- P. pose proof (owned_insert _ _ _ (mkPThread PIdle (rval cur :: pheld t)) Hi) as O.
    unfold towned in O. rewrite Ec in O. cbn [ppc pheld pc_owned app] in O. cbn [fmap list_fmap].
    apply (Permutation_app_inv_r (pheld t)). rewrite <- app_assoc, O. cbn [fmap list_fmap app]. solve_Permutation.
  - cbn [set_pthread tag_next]. by apply Forall_cons in T as [].
  - eapply (others_ok es _ p Hok Nd i t); try done; [set_solver|set_solver].
Qed.

(** A successful release pushes its reference. *)
Lemma release_ok es l p i t elt next cur : NoDup es -> pool_ok es l p -> pthreads p !! i = Some t ->
  ppc t = RelCas elt next cur -> phead p = cur ->
  pool_ok es (next :: l) (set_pthread (mkPool next (tag_next p) (links p) (pthreads p)) i (mkPThread PIdle (pheld t))).
Proof.
  intros Nd Hok Hi Ec Hh. pose proof Hok as [L P T F]. pose proof (pool_pc_ok _ _ _ _ _ Hok Hi) as K. rewrite Ec in K.
  destruct K as (K1&<-&K3). constructor.
  - cbn [set_pthread phead links linked]. split; [done|]. by rewrite K3, <- Hh.
  - cbn [set_pthread pthreads]. rewrite <- P. pose proof (owned_insert _ _ _ (mkPThread PIdle (pheld t)) Hi) as O.
    unfold towned in O. rewrite Ec in O. cbn [ppc pheld pc_owned app] in O. cbn [fmap list_fmap app].
    apply (Permutation_app_inv_r (pheld t)).
    transitivity ((rval <$> l) ++ (owned (<[i := mkPThread PIdle (pheld t)]> (pthreads p)) ++ rval next :: pheld t)).
    + solve_Permutation.
    + rewrite O. solve_Permutation.
  - cbn [set_pthread tag_next]. by constructor.
  - eapply (others_ok es _ p Hok Nd i t); try done; [set_solver|].
    intros r [->|?]%elem_of_cons; [right|by left]. eapply pending_lookup; [done|]. rewrite Ec. set_solver.
Qed.

(** A cell that the thread owns may be written. *)
Lemma write_ok es l p i t t' elt v : NoDup es -> pool_ok es l p -> pthreads p !! i = Some t -> elt ∈ towned t ->
  towned t' ≡ₚ towned t -> (forall r, r ∈ pc_pending (ppc t') -> r ∈ pending (pthreads p)) ->
  let p' := set_pthread (mkPool (phead p) (tag_next p) (<[elt := v]> (links p)) (pthreads p)) i t' in
  pc_ok p' l (ppc t') -> pool_ok es l p'.
Proof.
  intros Nd Hok Hi He Ho Hp p' Hpc. pose proof Hok as [L P T F]. constructor.
  - eapply linked_frame; [exact L|]. intros x Hx. cbn [p' set_pthread links]. rewrite link_insert, bool_decide_eq_false_2; [done|].
    intros E. apply (stack_not_owned es l p Hok Nd x Hx). rewrite E. by eapply owned_lookup.
  - rewrite <- P. f_equiv. cbn [p' set_pthread pthreads]. pose proof (owned_insert _ _ _ t' Hi) as O. rewrite Ho in O.
    by apply Permutation_app_inv_r in O.
  - done.
  - eapply (others_ok es _ p Hok Nd i t); try done; [by left; auto|by left|].
    intros x Hx. cbn [p' set_pthread links]. rewrite link_insert, bool_decide_eq_false_2; [done|]. by intros ->.
Qed.

(** A step inside a call. *)
Lemma pool_access_ok es l p i t p' : NoDup es -> pool_ok es l p -> pthreads p !! i = Some t ->
  pool_access p i t = Some p' -> exists l', pool_ok es l' p'.
Proof.
  intros Nd Hok Hi. pose proof (pool_pc_ok _ _ _ _ _ Hok Hi) as K. unfold pool_access.
  destruct (ppc t) as [| |cur|cur next|elt|elt next|elt next cur|elt next cur] eqn:Ec; cbn [pc_ok] in K.
  - done.
  - case_bool_decide as Hn; intros [= <-]; exists l; apply (set_pthread_ok _ _ _ _ t); try done;
      try (unfold towned; rewrite Ec; done); [set_solver|set_solver|].
    pose proof Hok as [L P T F]. destruct (linked_cons _ _ _ L Hn) as (l'&->&_). split; [done|].
    split; [by apply Forall_cons in T as []|]. intros [?|H]%pending_insert; [set_solver|].
    eapply (stack_not_owned _ _ _ Hok Nd (phead p)); [set_solver|]. by eapply pending_owned.
  - intros [= <-]. exists l. apply (set_pthread_ok _ _ _ _ t); try done; [unfold towned; by rewrite Ec|set_solver|].
    destruct K as (K1&K2&K3). split; [done|]. split; [done|]. split; [|done].
    intros [?|?]%pending_insert; [set_solver|done].
  - case_bool_decide as Hh; intros [= <-]; [by eapply acquire_ok|]. exists l.
    apply (set_pthread_ok _ _ _ _ t); try done; [unfold towned; by rewrite Ec|set_solver].
  - intros [= <-]. exists l. apply (set_tag_ok _ _ _ _ t); try done; [unfold towned; by rewrite Ec|lia|].
    intros r ->%list_elem_of_singleton. right. cbn [rtag]. lia.
  - intros [= <-]. exists l. apply (set_pthread_ok _ _ _ _ t); try done; [unfold towned; by rewrite Ec|].
    intros r Hr. eapply pending_lookup; [done|]. by rewrite Ec.
  - intros [= <-]. exists l. apply (write_ok _ _ _ _ t); try done; unfold towned; rewrite ?Ec; try set_solver.
    + intros r Hr. eapply pending_lookup; [done|]. by rewrite Ec.
    + destruct K as [K1 K2]. split; [done|]. split; [done|]. cbn [set_pthread links]. by rewrite link_insert, bool_decide_eq_true_2.
  - case_bool_decide as Hh; intros [= <-]; [eexists; by eapply release_ok|]. exists l.
    apply (set_pthread_ok _ _ _ _ t); try done; [unfold towned; by rewrite Ec| |].
    + intros r Hr. eapply pending_lookup; [done|]. by rewrite Ec.
    + destruct K as (?&?&?). done.
Qed.

Lemma remove_one_perm x l : NoDup l -> x ∈ l -> x :: remove_one x l ≡ₚ l.
Proof.
  intros N (l1&l2&->)%list_elem_of_split. apply NoDup_app in N as (_&N1&N2). apply NoDup_cons in N2 as [N2 _].
  unfold remove_one. rewrite filter_app, filter_cons_False by naive_solver.
  assert (forall k : list Z, x ∉ k -> filter (fun y => y <> x) k = k) as E.
  { induction k as [|y k IH]; [done|]. intros Hx. rewrite filter_cons_True by set_solver. rewrite IH; set_solver. }
  rewrite !E; [solve_Permutation|done|]. intros ?. by eapply N1, list_elem_of_here.
Qed.

Lemma held_nodup es l p i t : NoDup es -> pool_ok es l p -> pthreads p !! i = Some t -> NoDup (pheld t).
Proof.
  intros Nd Hok Hi. pose proof (owned_nodup _ _ _ Hok Nd) as N. rewrite <- (app_nil_r (owned _)) in N.
  change [] with (towned (mkPThread PIdle [])) in N. rewrite <- (owned_insert _ i t (mkPThread PIdle []) Hi) in N.
  apply NoDup_app in N as (_&_&N). unfold towned in N. by apply NoDup_app in N as (_&_&N).
Qed.

Lemma pool_step_ok es l p a p' : NoDup es -> pool_ok es l p -> pool_step p a = Some p' -> exists l', pool_ok es l' p'.
Proof.
  intros Nd Hok. destruct a as [i c]. unfold pool_step. cbn [fst snd]. destruct (pthreads p !! i) as [t|] eqn:Hi; [|done].
  cbn [mbind option_bind]. destruct c as [|elt|elt bytes|].
  - destruct (ppc t) eqn:Ec; try done. intros [= <-]. exists l.
    apply (set_pthread_ok _ _ _ _ t); try done; [unfold towned; by rewrite Ec|set_solver].
  - destruct (ppc t) eqn:Ec; try done. case_bool_decide as He; [|done]. intros [= <-]. exists l.
    apply (set_pthread_ok _ _ _ _ t); try done; [|set_solver]. unfold towned. rewrite Ec. cbn [ppc pheld pc_owned app].
    apply remove_one_perm; [|done].
    by eapply held_nodup.
  - destruct (ppc t) eqn:Ec; try done. case_bool_decide as He; [|done]. intros [= <-]. exists l.
    apply (write_ok _ _ _ _ t); try done; [unfold towned; set_solver|rewrite Ec; set_solver|by rewrite Ec].
  - intros. by eapply pool_access_ok.
Qed.

Lemma pool_run_ok es l p sched p' : NoDup es -> pool_ok es l p -> pool_run p sched = Some p' -> exists l', pool_ok es l' p'.
Proof.
  intros Nd. revert p l. induction sched as [|a sched IH]; intros p l Hok; cbn [pool_run]; [intros [= <-]; eauto|].
  destruct (pool_step p a) as [p1|] eqn:E; [|done]. cbn [mbind option_bind]. intros H.
  destruct (pool_step_ok _ _ _ _ _ Nd Hok E) as [l1 Hok1]. eauto.
Qed.

(** ** Buffers that enter and leave *)

(** A thread gains or loses elements outside of a call. *)
Lemma move_ok es es' l p i t t' : NoDup es -> pool_ok es l p -> pthreads p !! i = Some t ->
  es' ++ towned t ≡ₚ es ++ towned t' -> pc_pending (ppc t') = [] -> pc_ok (set_pthread p i t') l (ppc t') ->
  pool_ok es' l (set_pthread p i t').
Proof.
  intros Nd Hok Hi He Hp Hpc. pose proof Hok as [L P T F]. constructor; [done| |done|].
  - apply (Permutation_app_inv_r (towned t)). rewrite He, <- P, <- !app_assoc. f_equiv.
    cbn [set_pthread pthreads]. by apply owned_insert.
  - eapply (others_ok es l p Hok Nd i t); try done; [|auto]. rewrite Hp. set_solver.
Qed.

Definition is_rel (pc : pool_pc) : bool :=
  match pc with RelInc _ | RelHead _ _ | RelWrite _ _ _ | RelCas _ _ _ => true | _ => false end.
Definition is_acq (pc : pool_pc) : bool :=
  match pc with AcqHead | AcqNext _ | AcqCas _ _ => true | _ => false end.

(** A step of a call concerns its own thread and the elements of that thread. *)
Lemma pool_access_frame p i t p' : pool_access p i t = Some p' ->
  (exists t', pthreads p' = <[i := t']> (pthreads p) /\
    (is_rel (ppc t) -> pheld t' = pheld t /\ (is_rel (ppc t') \/ ppc t' = PIdle)) /\
    (is_acq (ppc t) -> is_acq (ppc t') \/ ppc t' = PIdle)) /\
  forall x, x ∉ towned t -> link (links p') x = link (links p) x.
Proof.
  unfold pool_access, towned. destruct (ppc t); try case_bool_decide; intros E; simplify_eq/=;
    (split; [eexists; split; [reflexivity|cbn [is_rel is_acq ppc pheld]; naive_solver]|]); try done.
  intros x Hx. rewrite link_insert, bool_decide_eq_false_2; set_solver.
Qed.

(** So does the beginning of a call, and a write to an element. *)
Lemma pool_call_frame p i t c p' : pthreads p !! i = Some t -> c <> PoolNext -> pool_step p (i, c) = Some p' ->
  ppc t = PIdle /\
  pthreads p' = <[i := match c with
                      | CallAcquire => mkPThread AcqHead (pheld t)
                      | CallRelease elt => mkPThread (RelInc elt) (remove_one elt (pheld t))
                      | _ => t
                      end]> (pthreads p) /\
  forall x, x ∉ towned t -> link (links p') x = link (links p) x.
Proof.
  intros Hi Hc. unfold pool_step. cbn [fst snd]. rewrite Hi. destruct c as [|elt|elt bytes|]; [..|done].
  - destruct (ppc t); try done. by intros [= <-].
  - destruct (ppc t); try done. case_bool_decide; [|done]. by intros [= <-].
  - destruct (ppc t) eqn:Ec; try done. case_bool_decide; [|done]. intros [= <-]. split_and!; try done.
    intros x Hx. cbn [set_pthread links]. rewrite link_insert, bool_decide_eq_false_2; [done|]. unfold towned in Hx. set_solver.
Qed.

(** ** Initialisation *)

Definition elt_offs (elt_sz : Z) (n : nat) : list Z := (fun i => LF_POOL_ALIGN + Z.of_nat i * elt_sz) <$> seq 0 n.

Lemma idle_owned n : owned (replicate n (mkPThread PIdle [])) = [].
Proof. induction n as [|n IH]; [done|exact IH]. Qed.

(** A release while nobody else uses the pool puts the element on the stack. *)
Lemma release_alone_ok es l p elt : Forall (fun t => ppc t = PIdle) (pthreads p) -> pool_ok es l p -> elt ∉ es ->
  pool_ok (elt :: es) (mkRef (tag_next p + 1) elt :: l) (release_alone p elt).
Proof.
  intros Hidle [L P T F] He. constructor; cbn [release_alone phead tag_next links pthreads].
  - cbn [linked rval]. split; [done|]. rewrite link_insert, bool_decide_eq_true_2 by done. eapply linked_frame; [exact L|].
    intros x Hx. rewrite link_insert, bool_decide_eq_false_2; [done|]. intros E. apply He. rewrite <- P, <- E. set_solver.
  - cbn [fmap list_fmap rval app]. by rewrite P.
  - constructor; [done|]. eapply Forall_impl; [exact T|]. cbn. lia.
  - eapply Forall_impl; [exact Hidle|]. cbn beta. by intros t ->.
Qed.

Lemma elt_offs_fresh elt_sz n i : elt_sz <> 0 -> (n <= i)%nat -> LF_POOL_ALIGN + Z.of_nat i * elt_sz ∉ elt_offs elt_sz n.
Proof. intros Hs Hi (j&E&Hj%elem_of_seq)%list_elem_of_fmap. nia. Qed.

Lemma release_all_ok es l p elt_sz n : elt_sz <> 0 -> Forall (fun t => ppc t = PIdle) (pthreads p) -> pool_ok es l p ->
  (forall i, (i < n)%nat -> LF_POOL_ALIGN + Z.of_nat i * elt_sz ∉ es) ->
  exists l', pool_ok (elt_offs elt_sz n ++ es) l' (release_all p elt_sz n).
Proof.
  intros Hs. revert es l p. induction n as [|n IH]; intros es l p Hidle Hok He; cbn [release_all]; [eauto|].
  destruct (IH _ _ (release_alone p (LF_POOL_ALIGN + Z.of_nat n * elt_sz)) Hidle (release_alone_ok _ _ _ _ Hidle Hok (He n ltac:(lia)))) as [l' H].
  - intros i Hi. apply not_elem_of_cons. split; [nia|apply He; lia].
  - exists l'. destruct H as [L P T F]. constructor; try done. rewrite P. unfold elt_offs. rewrite seq_S, fmap_app. cbn [fmap list_fmap Nat.add].
    by rewrite <- app_assoc.
Qed.

Lemma release_all_threads p elt_sz n : pthreads (release_all p elt_sz n) = pthreads p.
Proof. revert p. induction n as [|n IH]; intros p; cbn [release_all]; [done|]. by rewrite IH. Qed.

Lemma lf_pool_mem_init_ok n elt_sz elt_align threads p : lf_pool_mem_init n elt_sz elt_align threads = Some p ->
  elt_sz <> 0 /\ exists l, pool_ok (elt_offs elt_sz n) l p.
Proof.
  unfold lf_pool_mem_init. destruct (lf_pool_footprint _ elt_sz elt_align) eqn:E; [|done]. intros [= <-].
  unfold lf_pool_footprint in E. assert (elt_sz <> 0) as Hs by (intros ->; done). split; [done|].
  rewrite <- (app_nil_r (elt_offs _ _)). apply (release_all_ok [] []); try done.
  - by apply Forall_replicate.
  - constructor; cbn [phead tag_next links pthreads]; [done|by rewrite idle_owned|done|by apply Forall_replicate].
  - intros. apply not_elem_of_nil.
Qed.

Lemma elt_offs_nodup elt_sz n : elt_sz <> 0 -> NoDup (elt_offs elt_sz n).
Proof. intros Hs. apply NoDup_fmap_2_strong; [intros i j _ _; nia|apply NoDup_seq]. Qed.

(** ** What the pool promises *)

(** A call by a thread that runs alone, from the state it is called in. *)
Definition acquire_solo (p : pool) (i : nat) : option pool := pool_run p [(i, CallAcquire); (i, PoolNext); (i, PoolNext); (i, PoolNext)].
Definition release_solo (p : pool) (i : nat) (elt : Z) : option pool :=
  pool_run p [(i, CallRelease elt); (i, PoolNext); (i, PoolNext); (i, PoolNext); (i, PoolNext)].

Lemma solo_release p i held elt : pthreads p !! i = Some (mkPThread PIdle held) -> elt ∈ held ->
  release_solo p i elt = Some (set_pthread (release_alone p elt) i (mkPThread PIdle (remove_one elt held))).
Proof.
  intros Hi He. pose proof (lookup_lt_Some _ _ _ Hi). destruct p as [h tag m ts]. cbn [pthreads] in *.
  unfold release_solo, pool_run, pool_step. cbn [fst snd pthreads]. rewrite Hi. cbn [mbind option_bind ppc pheld].
  rewrite bool_decide_eq_true_2 by done.
  repeat (cbn [mbind option_bind set_pthread pthreads pool_access ppc pheld phead tag_next links];
    rewrite ?(bool_decide_eq_true_2 (h = h)), ?list_insert_insert_eq, ?list_lookup_insert_eq by (rewrite ?length_insert; done)).
  unfold set_pthread. cbn [pthreads phead tag_next links release_alone]. by rewrite list_insert_insert_eq.
Qed.

(** A thread that runs alone pops the stack. *)
Lemma solo_acquire es l p i held : 0 ∉ es -> pool_ok es l p -> pthreads p !! i = Some (mkPThread PIdle held) ->
  match l with
  | [] => pool_run p [(i, CallAcquire); (i, PoolNext)] = Some p
  | top :: _ => exists p', acquire_solo p i = Some p' /\ pthreads p' !! i = Some (mkPThread PIdle (rval top :: held))
  end.
Proof.
  intros Z0 [L P _ _] Hi. pose proof (lookup_lt_Some _ _ _ Hi). destruct p as [h tag m ts]. cbn [pthreads phead links] in *.
  unfold acquire_solo, pool_run, pool_step. cbn [fst snd pthreads]. rewrite Hi. cbn [mbind option_bind ppc pheld].
  destruct l as [|top l]; cbn [linked] in L.
  - subst h. cbn [set_pthread pthreads]. rewrite list_lookup_insert_eq by done.
    cbn [mbind option_bind pool_access ppc pheld phead set_pthread tag_next links pthreads]. rewrite bool_decide_eq_true_2 by done.
    unfold set_pthread. cbn [mbind option_bind pthreads phead tag_next links]. by rewrite list_insert_insert_eq, list_insert_id.
  - destruct L as [-> L]. assert (top <> LF_REF_NULL) as Hn by (intros ->; apply Z0; rewrite <- P; set_solver).
    repeat (cbn [mbind option_bind set_pthread pthreads pool_access ppc pheld phead tag_next links];
      rewrite ?(bool_decide_eq_false_2 (top = LF_REF_NULL)), ?(bool_decide_eq_true_2 (top = top)),
        ?list_insert_insert_eq, ?list_lookup_insert_eq by (rewrite ?length_insert; done)).
    eexists. split; [reflexivity|]. unfold set_pthread. cbn [pthreads]. by rewrite list_lookup_insert_eq by (by rewrite length_insert).
Qed.

(** C23: A pool of [num_elts] elements that have room for a link, used by any number of threads whose
    accesses interleave in any way (acquiring, releasing what they hold, and
    overwriting what they hold), never hands out an element twice: the free
    elements, which are those linked from the head, and the elements of the
    threads are always all elements, each once; and from every reachable state
    a thread that runs alone acquires the top of the stack if an element is
    free, and gets NULL when none is. *)
Theorem lf_pool_exclusive num_elts elt_sz elt_align threads p0 sched p :
  LF_REF_SZ <= elt_sz -> lf_pool_mem_init num_elts elt_sz elt_align threads = Some p0 ->
  pool_run p0 sched = Some p ->
  exists free, linked (links p) (phead p) free /\
    (rval <$> free) ++ owned (pthreads p) ≡ₚ elt_offs elt_sz num_elts /\
    NoDup ((rval <$> free) ++ owned (pthreads p)) /\
    forall i held, pthreads p !! i = Some (mkPThread PIdle held) ->
      match free with
      | [] => pool_run p [(i, CallAcquire); (i, PoolNext)] = Some p
      | top :: _ => exists p', acquire_solo p i = Some p' /\ pthreads p' !! i = Some (mkPThread PIdle (rval top :: held))
      end.
Proof.
  intros Hsz Hinit Hrun. destruct (lf_pool_mem_init_ok _ _ _ _ _ Hinit) as [Hs [l0 H0]].
  pose proof (elt_offs_nodup elt_sz num_elts Hs) as Nd. destruct (pool_run_ok _ _ _ _ _ Nd H0 Hrun) as [l Hok].
  exists l. pose proof Hok as [L P _ _]. split; [done|]. split; [done|]. split; [by rewrite P|].
  intros i held Hi. eapply solo_acquire; [|done..]. intros (j&E&_)%list_elem_of_fmap. unfold LF_POOL_ALIGN, LF_REF_SZ in *. lia.
Qed.

(** Two threads compete for two elements: the second thread reads the head
    before the first takes it, takes it back and releases it under a new tag,
    so that its compare-and-swap fails and it tries again. *)
Definition aba_sched : list (nat * pcmd) :=
  [(1%nat, CallAcquire); (1%nat, PoolNext); (1%nat, PoolNext)] ++
  [(0%nat, CallAcquire); (0%nat, PoolNext); (0%nat, PoolNext); (0%nat, PoolNext)] ++
  [(0%nat, CallAcquire); (0%nat, PoolNext); (0%nat, PoolNext); (0%nat, PoolNext)] ++
  [(0%nat, UserWrite 4096 (mkRef 7 7)); (0%nat, CallRelease 4096)] ++ replicate 4 (0%nat, PoolNext) ++
  replicate 4 (1%nat, PoolNext).

Lemma lf_pool_exclusive_witness : exists p0 p free,
  lf_pool_mem_init 2 64 16 2 = Some p0 /\ pool_run p0 aba_sched = Some p /\
  pthreads p = [mkPThread PIdle [4160]; mkPThread PIdle [4096]] /\
  linked (links p) (phead p) free /\ NoDup ((rval <$> free) ++ owned (pthreads p)).
Proof.
  destruct (lf_pool_mem_init 2 64 16 2) as [p0|] eqn:E0; [|vm_compute in E0; discriminate].
  destruct (pool_run p0 aba_sched) as [p|] eqn:E1; [|vm_compute in E0; injection E0 as <-; vm_compute in E1; discriminate].
  destruct (lf_pool_exclusive 2 64 16 2 p0 aba_sched p ltac:(done) E0 E1) as (free&L&_&N&_).
  exists p0, p, free. split; [done|]. split; [done|]. split; [|done].
  vm_compute in E0. injection E0 as <-. vm_compute in E1. by injection E1 as <-.
Defined.

(** An element may be smaller than the 16-byte link that is written to it. *)
Lemma footprint_smaller_than_link : lf_pool_footprint 4 8 8 = Some (4128, 4096).
Proof. done. Qed.
