(* ===== verification/LfBcast.v ===== *)
(** * The lock-free broadcast queue (zcm/transport/lockfree/lf_bcast.c)

    Publishers append buffers to a ring of slots, dropping the oldest when the
    ring is full; subscribers read the slots without taking the buffers out and
    find out afterwards whether what they read was still valid.  Buffers come
    from a lock-free pool ([LfPool]).  Every access to shared memory is one
    step, and the steps of all publishers and subscribers interleave in any
    order.  Memory is sequentially consistent, references of 16 bytes are read
    and written at once, and the 64-bit indices do not wrap (the comment of
    [wait] says why).  Waiting is a retry: the futex has no other effect on the
    queue. *)
From S2P Require Import Prelude LfPool.
Local Open Scope Z_scope.

Definition LF_BCAST_ALIGN : Z := 4096.

(** Where a publisher stands: about to do the access that is named.  [Pub...]
    are the steps of [lf_bcast_pub], [Buf...] of [lf_bcast_buf_acquire] and
    [BufRel] of [lf_bcast_buf_release]. *)
Inductive bpc :=
  | BIdle
  | PubHead (buf : Z)
  | PubTail (buf head : Z)
  | PubSlot (buf head tail : Z)
  | PubFix (buf tail : Z)
  | PubDropSlot (buf head : Z)
  | PubDropCas (buf head : Z) (cur : lf_ref)
  | PubDropRel (buf : Z)
  | PubCas (buf tail : Z) (cur : lf_ref)
  | PubBump (tail : Z)
  | BufPool
  | BufHead
  | BufTail (head : Z)
  | BufSlot (head : Z)
  | BufCas (head : Z) (cur : lf_ref)
  | BufRel
  | BAborted.

(** What a subscriber has read of a buffer: its first 16 bytes, which the pool
    uses for its link, or a byte behind them. *)
Inductive piece := PFirst | PByte (k : nat).
Inductive obs := ObsFirst (r : lf_ref) | ObsByte (k : nat) (v : option Z).

(** Where a subscriber stands; [SActive] is the flag [active] with the buffer
    and what has been read of it. *)
Inductive spc := SIdle | STail | SSlot | SActive (buf : Z) (seen : list obs).

(** A subscriber.  [s_start] and [s_hist] record, for the theorems, the index
    it began at and what became of every message since: what was read of it if
    it was consumed and found valid, nothing if it was counted as a drop. *)
Record sub_impl := mkSub {
  s_pc : spc;
  s_idx : Z;
  s_drops : Z;
  s_start : Z;
  s_hist : list (option (list obs))
}.

(** A published message, with the contents of the buffer. *)
Record entry := mkEntry { e_buf : Z; e_first : lf_ref; e_body : gmap (Z * nat) Z }.

(** The shared memory and the threads.  [body] holds the bytes of the buffers
    behind their first 16.  [blog] records, for the theorems, all messages in
    the order in which they were put into the slots. *)
Record lf_bcast := mkBcast {
  depth_mask : Z;
  elt_sz : Z;
  head_idx : Z;
  tail_idx : Z;
  pool_off : Z;
  slots : gmap Z lf_ref;
  bpool : pool;
  body : gmap (Z * nat) Z;
  blog : list entry;
  bpcs : list bpc;
  subs : list sub_impl
}.

(** ** Accesses *)

Definition slot_of (b : lf_bcast) (idx : Z) : Z := Z.land idx (depth_mask b).
Definition slot (b : lf_bcast) (idx : Z) : lf_ref := default LF_REF_NULL (slots b !! slot_of b idx).

Definition set_head (b : lf_bcast) (v : Z) : lf_bcast :=
  mkBcast (depth_mask b) (elt_sz b) v (tail_idx b) (pool_off b) (slots b) (bpool b) (body b) (blog b) (bpcs b) (subs b).
Definition set_tail (b : lf_bcast) (v : Z) : lf_bcast :=
  mkBcast (depth_mask b) (elt_sz b) (head_idx b) v (pool_off b) (slots b) (bpool b) (body b) (blog b) (bpcs b) (subs b).
Definition set_pool (b : lf_bcast) (v : pool) : lf_bcast :=
  mkBcast (depth_mask b) (elt_sz b) (head_idx b) (tail_idx b) (pool_off b) (slots b) v (body b) (blog b) (bpcs b) (subs b).
Definition set_body (b : lf_bcast) (v : gmap (Z * nat) Z) : lf_bcast :=
  mkBcast (depth_mask b) (elt_sz b) (head_idx b) (tail_idx b) (pool_off b) (slots b) (bpool b) v (blog b) (bpcs b) (subs b).
Definition set_pc (b : lf_bcast) (i : nat) (pc : bpc) : lf_bcast :=
  mkBcast (depth_mask b) (elt_sz b) (head_idx b) (tail_idx b) (pool_off b) (slots b) (bpool b) (body b) (blog b)
    (<[i := pc]> (bpcs b)) (subs b).
Definition set_sub (b : lf_bcast) (j : nat) (s : sub_impl) : lf_bcast :=
  mkBcast (depth_mask b) (elt_sz b) (head_idx b) (tail_idx b) (pool_off b) (slots b) (bpool b) (body b) (blog b)
    (bpcs b) (<[j := s]> (subs b)).

(** [LF_U64_CAS(&b->tail_idx, tail, tail+1)] *)
Definition cas_tail (b : lf_bcast) (tail : Z) : lf_bcast := if tail_idx b =? tail then set_tail b (tail + 1) else b.

(** Buffers are named by their offset in the pool; slots hold offsets from the queue. *)
Definition buf_off (b : lf_bcast) (buf : Z) : Z := pool_off b + buf.
Definition buf_at (b : lf_bcast) (off : Z) : Z := off - pool_off b.

(** A message goes into the slot of its index and leaves its publisher. *)
Definition commit (b : lf_bcast) (tail buf : Z) : lf_bcast :=
  mkBcast (depth_mask b) (elt_sz b) (head_idx b) (tail_idx b) (pool_off b)
    (<[slot_of b tail := mkRef tail (buf_off b buf)]> (slots b)) (bpool b) (body b)
    (blog b ++ [mkEntry buf (link (links (bpool b)) buf) (body b)]) (bpcs b) (subs b).

(** A thread loses or gains a buffer, or starts to release one. *)
Definition pool_take (p : pool) (i : nat) (t : pthread) (buf : Z) : pool :=
  set_pthread p i (mkPThread (ppc t) (remove_one buf (pheld t))).
Definition pool_give (p : pool) (i : nat) (t : pthread) (buf : Z) : pool :=
  set_pthread p i (mkPThread (ppc t) (buf :: pheld t)).
Definition pool_give_release (p : pool) (i : nat) (t : pthread) (buf : Z) : pool :=
  set_pthread p i (mkPThread (RelInc buf) (pheld t)).

Definition pool_call_acquire (p : pool) (i : nat) (t : pthread) : pool := set_pthread p i (mkPThread AcqHead (pheld t)).

(** How a call of the pool goes on: it is still running, or it returns (an
    acquire: with a buffer or NULL). *)
Inductive pool_outcome := PRunning | PReturned | PReturnedNull.
Definition outcome (before after : pool_pc) : pool_outcome :=
  match before, after with
  | AcqHead, PIdle => PReturnedNull
  | _, PIdle => PReturned
  | _, _ => PRunning
  end.

Definition pool_next (b : lf_bcast) (i : nat) (t : pthread) : option (lf_bcast * pool_outcome) :=
  p <- pool_access (bpool b) i t ;;
  t' <- pthreads p !! i ;;
  Some (set_pool b p, outcome (ppc t) (ppc t')).

(** ** Publishers *)

Section Publish.
(** Whether assertions are compiled out. *)
Context (ndebug : bool).

(** What a trial of [lf_bcast_pub] does with what it has loaded. *)
Definition pub_decide (buf head tail : Z) (cur : lf_ref) : bpc :=
  if rtag cur =? tail then PubFix buf tail
  else if tail <=? rtag cur then PubHead buf
  else if head <=? rtag cur then
    if negb ndebug && negb (head =? rtag cur) then BAborted else PubDropSlot buf head
  else PubCas buf tail cur.

(** The next access of [lf_bcast_buf_acquire] and [lf_bcast_buf_release]. *)
Definition buf_next (b : lf_bcast) (i : nat) (t : pthread) (pc : bpc) : option lf_bcast :=
  match pc with
  | BufPool =>
      '(b, o) <- pool_next b i t ;;
      Some (set_pc b i (match o with PRunning => BufPool | PReturned => BIdle | PReturnedNull => BufHead end))
  | BufHead => Some (set_pc b i (BufTail (head_idx b)))
  | BufTail head => Some (set_pc b i (if head =? tail_idx b then BIdle else BufSlot head))
  | BufSlot head => Some (set_pc b i (BufCas head (slot b head)))
  | BufCas head cur =>
      if head_idx b =? head then
        let b := set_head b (head + 1) in
        Some (set_pc (set_pool b (pool_give (bpool b) i t (buf_at b (rval cur)))) i BIdle)
      else Some (set_pc (set_pool b (pool_call_acquire (bpool b) i t)) i BufPool)
  | BufRel =>
      '(b, o) <- pool_next b i t ;;
      Some (set_pc b i (match o with PRunning => BufRel | _ => BIdle end))
  | _ => None
  end.

(** The next access of a publisher in the middle of a call. *)
Definition pub_next (b : lf_bcast) (i : nat) (t : pthread) (pc : bpc) : option lf_bcast :=
  match pc with
  | BIdle | BAborted => None
  | PubHead buf => Some (set_pc b i (PubTail buf (head_idx b)))
  | PubTail buf head => Some (set_pc b i (PubSlot buf head (tail_idx b)))
  | PubSlot buf head tail => Some (set_pc b i (pub_decide buf head tail (slot b tail)))
  | PubFix buf tail => Some (set_pc (cas_tail b tail) i (PubHead buf))
  | PubDropSlot buf head => Some (set_pc b i (PubDropCas buf head (slot b head)))
  | PubDropCas buf head cur =>
      if head_idx b =? head then
        let b := set_head b (head + 1) in
        Some (set_pc (set_pool b (pool_give_release (bpool b) i t (buf_at b (rval cur)))) i (PubDropRel buf))
      else Some (set_pc b i (PubHead buf))
  | PubDropRel buf =>
      '(b, o) <- pool_next b i t ;;
      Some (set_pc b i (match o with PRunning => PubDropRel buf | _ => PubHead buf end))
  | PubCas buf tail cur =>
      if bool_decide (slot b tail = cur) then
        let b := commit b tail buf in
        Some (set_pc (set_pool b (pool_take (bpool b) i t buf)) i (PubBump tail))
      else Some (set_pc b i (PubHead buf))
  | PubBump tail => Some (set_pc (cas_tail b tail) i BIdle)
  | _ => buf_next b i t pc
  end.

(** A publisher begins a call, writes to a buffer it has, or goes on with its
    call.  It publishes, releases and writes only what it has. *)
Inductive bcmd :=
  | BufAcquire
  | BufRelease (buf : Z)
  | Publish (buf : Z)
  | WriteFirst (buf : Z) (r : lf_ref)
  | WriteByte (buf : Z) (k : nat) (v : Z)
  | BNext.

Definition pub_call (b : lf_bcast) (i : nat) (t : pthread) (c : bcmd) : option lf_bcast :=
  match c with
  | BufAcquire => Some (set_pc (set_pool b (pool_call_acquire (bpool b) i t)) i BufPool)
  | BufRelease buf =>
      check (bool_decide (buf ∈ pheld t)) ;;
      p <- pool_step (bpool b) (i, CallRelease buf) ;;
      Some (set_pc (set_pool b p) i BufRel)
  | Publish buf =>
      check (bool_decide (buf ∈ pheld t)) ;;
      Some (set_pc b i (PubHead buf))
  | WriteFirst buf r =>
      p <- pool_step (bpool b) (i, UserWrite buf r) ;;
      Some (set_pool b p)
  | WriteByte buf k v =>
      check (bool_decide (buf ∈ pheld t) && (LF_REF_SZ + Z.of_nat k <? elt_sz b)) ;;
      Some (set_body b (<[(buf, k) := v]> (body b)))
  | BNext => None
  end.

(** ** Subscribers *)

(** [lf_bcast_sub_init] *)
Definition lf_bcast_sub_init (b : lf_bcast) : sub_impl := mkSub SIdle (tail_idx b) 0 (tail_idx b) [].

(** A subscriber begins to consume, goes on ([wait] says whether time is left
    when nothing has arrived), reads a piece of the buffer, or ends. *)
Inductive scmd := ConsumeBegin | SNext (wait : bool) | Read (x : piece) | ConsumeEnd.

Definition observe (b : lf_bcast) (buf : Z) (x : piece) : obs :=
  match x with
  | PFirst => ObsFirst (link (links (bpool b)) buf)
  | PByte k => ObsByte k (body b !! (buf, k))
  end.

Definition with_pc (s : sub_impl) (pc : spc) : sub_impl := mkSub pc (s_idx s) (s_drops s) (s_start s) (s_hist s).

(** The loop of [lf_bcast_sub_consume_begin]. *)
Definition consume_next (b : lf_bcast) (s : sub_impl) (wait : bool) : option sub_impl :=
  match s_pc s with
  | STail =>
      if s_idx s =? tail_idx b then Some (with_pc s (if wait then STail else SIdle))
      else Some (with_pc s SSlot)
  | SSlot =>
      let ref := slot b (s_idx s) in
      if negb (rtag ref =? s_idx s) then
        Some (mkSub STail (s_idx s + 1) (s_drops s + 1) (s_start s) (s_hist s ++ [None]))
      else Some (with_pc s (SActive (buf_at b (rval ref)) []))
  | _ => None
  end.

Definition lf_bcast_sub_consume_end (b : lf_bcast) (s : sub_impl) (seen : list obs) : sub_impl * bool :=
  let valid := head_idx b <=? s_idx s in
  (mkSub SIdle (s_idx s + 1) (if valid then s_drops s else s_drops s + 1) (s_start s)
     (s_hist s ++ [if valid then Some seen else None]), valid).

Definition sub_step (b : lf_bcast) (s : sub_impl) (c : scmd) : option sub_impl :=
  match c, s_pc s with
  | ConsumeBegin, SIdle => Some (with_pc s STail)
  | SNext wait, _ => consume_next b s wait
  | Read x, SActive buf seen => Some (with_pc s (SActive buf (seen ++ [observe b buf x])))
  | ConsumeEnd, SActive buf seen => Some (lf_bcast_sub_consume_end b s seen).1
  | _, _ => None
  end.

(** ** Runs *)

Inductive action := Pub (i : nat) (c : bcmd) | NewSub | Sub (j : nat) (c : scmd).

Definition bcast_step (b : lf_bcast) (a : action) : option lf_bcast :=
  match a with
  | Pub i c =>
      pc <- bpcs b !! i ;;
      t <- pthreads (bpool b) !! i ;;
      match c, pc with
      | BNext, _ => pub_next b i t pc
      | _, BIdle => pub_call b i t c
      | _, _ => None
      end
  | NewSub =>
      Some (mkBcast (depth_mask b) (elt_sz b) (head_idx b) (tail_idx b) (pool_off b) (slots b) (bpool b) (body b) (blog b) (bpcs b)
        (subs b ++ [lf_bcast_sub_init b]))
  | Sub j c =>
      s <- subs b !! j ;;
      s <- sub_step b s c ;;
      Some (set_sub b j s)
  end.

Fixpoint bcast_run (b : lf_bcast) (sched : list action) : option lf_bcast :=
  match sched with
  | [] => Some b
  | a :: sched => b <- bcast_step b a ;; bcast_run b sched
  end.
End Publish.

(** ** Creation *)

Definition lf_bcast_footprint (depth elt_sz elt_align : Z) : option (Z * Z) :=
  if negb (LF_IS_POW2 depth) then None else
  '(pool_size, pool_align) <- lf_pool_footprint depth elt_sz elt_align ;;
  let size := LF_ALIGN_UP (LF_BCAST_ALIGN + depth * LF_REF_SZ) pool_align in
  Some (wrapu 64 (size + pool_size), LF_BCAST_ALIGN).

Definition lf_bcast_mem_init (depth : nat) (elt_sz elt_align : Z) (threads : nat) : option lf_bcast :=
  _ <- lf_bcast_footprint (Z.of_nat depth) elt_sz elt_align ;;
  '(_, pool_align) <- lf_pool_footprint (Z.of_nat depth) elt_sz elt_align ;;
  let size := LF_BCAST_ALIGN + Z.of_nat depth * LF_REF_SZ in
  pool <- lf_pool_mem_init depth elt_sz elt_align threads ;;
  Some (mkBcast (Z.of_nat depth - 1) elt_sz 1 1 (LF_ALIGN_UP size pool_align) ∅ pool ∅ [] (replicate threads BIdle) []).
