(* ===== verification/LfBcastProps.v ===== *)
(** * Correctness of the lock-free broadcast queue

    The invariant of the shared memory, of the publishers in the middle of a
    call and of the subscribers, its preservation by every access, and what
    follows from it. *)
From S2P Require Import Prelude LfPool LfBcast.
Local Open Scope Z_scope.

(** ** The invariant *)

Definition published (b : lf_bcast) : Z := Z.of_nat (length (blog b)).
Definition entry_at (b : lf_bcast) (i : Z) : option entry := if i <? 1 then None else blog b !! Z.to_nat (i - 1).

(** What the slot of index [i] holds when [i] is the last message put there. *)
Definition ref_at (b : lf_bcast) (i : Z) : lf_ref :=
  match entry_at b i with Some e => mkRef i (buf_off b (e_buf e)) | None => LF_REF_NULL end.

(** The buffers of the messages that are in the queue. *)
Definition queued (b : lf_bcast) : list Z := e_buf <$> drop (Z.to_nat (head_idx b - 1)) (blog b).

(** A buffer still has the contents it was published with. *)
Definition intact (b : lf_bcast) (e : entry) : Prop :=
  link (links (bpool b)) (e_buf e) = e_first e /\ forall k, body b !! (e_buf e, k) = e_body e !! (e_buf e, k).

Definition agrees (e : entry) (o : obs) : Prop :=
  match o with ObsFirst r => r = e_first e | ObsByte k v => v = e_body e !! (e_buf e, k) end.

(** The shared memory: [all] are the buffers, [es] those that the pool and the
    publishers have, [l] is the stack of the pool. *)
Record core (k : Z) (all es : list Z) (l : list lf_ref) (b : lf_bcast) : Prop := mkCore {
  co_mask : depth_mask b = 2 ^ k - 1;
  co_pool : pool_ok es l (bpool b);
  co_bufs : es ++ queued b ≡ₚ all;
  co_head : 1 <= head_idx b <= tail_idx b;
  co_tail : published b <= tail_idx b <= published b + 1;
  co_room : published b - 2 ^ k < head_idx b;
  co_slots : forall i, published b - 2 ^ k < i <= published b -> slot b i = ref_at b i;
  co_intact : forall i e, head_idx b <= i -> entry_at b i = Some e -> intact b e
}.

(** The head as a publisher found it: a message that it may drop. *)
Definition droppable (b : lf_bcast) (h : Z) : Prop := h <= head_idx b /\ h <= published b /\ h < tail_idx b.

Definition bpc_ok (b : lf_bcast) (pc : bpc) : Prop :=
  match pc with
  | PubTail _ h | BufTail h => h <= head_idx b
  | PubSlot _ h t => h <= head_idx b /\ 1 <= t <= tail_idx b
  | PubFix _ t | PubBump t => t <= published b
  | PubDropSlot _ h | BufSlot h => droppable b h
  | PubDropCas _ h cur | BufCas h cur => droppable b h /\ (head_idx b = h -> cur = ref_at b h)
  | PubCas _ t cur => 1 <= t <= tail_idx b /\ rtag cur < t /\ rtag cur < head_idx b
  | _ => True
  end.

Definition pub_buf (pc : bpc) : option Z :=
  match pc with
  | PubHead buf | PubTail buf _ | PubSlot buf _ _ | PubFix buf _ | PubDropSlot buf _ | PubDropCas buf _ _ | PubDropRel buf
  | PubCas buf _ _ => Some buf
  | _ => None
  end.

(** The calls that a publisher makes to the pool. *)
Definition pool_mode (pc : bpc) (p : pool_pc) : Prop :=
  match pc with
  | PubDropRel _ | BufRel => is_rel p
  | BufPool => is_acq p
  | _ => p = PIdle
  end.

Definition pub_rel (pc : bpc) (t : pthread) : Prop :=
  pool_mode pc (ppc t) /\ forall buf, pub_buf pc = Some buf -> buf ∈ pheld t.

Definition pcs_ok (b : lf_bcast) : Prop :=
  forall i pc, bpcs b !! i = Some pc -> bpc_ok b pc /\ exists t, pthreads (bpool b) !! i = Some t /\ pub_rel pc t.

(** What became of a message that a subscriber is through with. *)
Definition fate_ok (b : lf_bcast) (i : Z) (o : option (list obs)) : Prop :=
  match o with
  | Some seen => exists e, entry_at b i = Some e /\ Forall (agrees e) seen
  | None => i < head_idx b
  end.

Definition spc_ok (b : lf_bcast) (idx : Z) (pc : spc) : Prop :=
  match pc with
  | SSlot => idx < tail_idx b
  | SActive buf seen =>
      idx < tail_idx b /\ exists e, entry_at b idx = Some e /\ buf = e_buf e /\ (head_idx b <= idx -> Forall (agrees e) seen)
  | _ => True
  end.

Record sub_ok (b : lf_bcast) (s : sub_impl) : Prop := mkSubOk {
  su_start : 1 <= s_start s;
  su_idx : s_idx s = s_start s + Z.of_nat (length (s_hist s));
  su_tail : s_idx s <= tail_idx b;
  su_drops : s_drops s = Z.of_nat (length (filter (fun o => o = None) (s_hist s)));
  su_hist : forall n o, s_hist s !! n = Some o -> fate_ok b (s_start s + Z.of_nat n) o;
  su_pc : spc_ok b (s_idx s) (s_pc s)
}.

Definition binv (k : Z) (all : list Z) (b : lf_bcast) : Prop :=
  (exists es l, core k all es l b) /\ pcs_ok b /\ Forall (sub_ok b) (subs b).

(** ** Growth: what publishers and subscribers know stays true *)

Record grows (b b' : lf_bcast) : Prop := mkGrows {
  gr_head : head_idx b <= head_idx b';
  gr_tail : tail_idx b <= tail_idx b';
  gr_log : blog b `prefix_of` blog b';
  gr_off : pool_off b' = pool_off b
}.

Lemma grows_refl b : grows b b.
Proof. by constructor. Qed.

Section Grows.
Context (b b' : lf_bcast) (G : grows b b').

Lemma published_grows : published b <= published b'.
Proof. destruct G as [_ _ [x E] _]. unfold published. rewrite E, length_app. lia. Qed.

Lemma entry_grows i e : entry_at b i = Some e -> entry_at b' i = Some e.
Proof. destruct G as [_ _ P _]. unfold entry_at. case_match; [done|]. intros. by eapply prefix_lookup_Some. Qed.

Lemma entry_some i : 1 <= i <= published b -> exists e, entry_at b i = Some e.
Proof. unfold entry_at, published. intros. case_match; [lia|]. apply lookup_lt_is_Some_2. lia. Qed.

Lemma ref_grows i : 1 <= i <= published b -> ref_at b' i = ref_at b i.
Proof.
  intros Hi. unfold ref_at, buf_off. destruct (entry_some i Hi) as [e E]. rewrite E, (entry_grows _ _ E).
  by rewrite (gr_off _ _ G).
Qed.

Lemma droppable_grows h : droppable b h -> droppable b' h.
Proof. pose proof published_grows. destruct G. unfold droppable. lia. Qed.

Lemma bpc_grows pc : 1 <= head_idx b -> bpc_ok b pc -> bpc_ok b' pc.
Proof.
  intros H1. pose proof published_grows. pose proof G as [G1 G2 _ _]. 
  assert (forall h cur, droppable b h /\ (head_idx b = h -> cur = ref_at b h) ->
    droppable b' h /\ (head_idx b' = h -> cur = ref_at b' h)) as D.
  { intros h cur [D C]. split; [by apply droppable_grows|]. intros E. unfold droppable in D.
    rewrite ref_grows by lia. apply C. lia. }
  destruct pc; cbn [bpc_ok]; auto using droppable_grows; lia.
Qed.

Lemma fate_grows i o : fate_ok b i o -> fate_ok b' i o.
Proof.
  destruct o as [seen|]; cbn [fate_ok]; [|destruct G; lia]. intros (e&E&F). exists e. by rewrite (entry_grows _ _ E).
Qed.

Lemma sub_grows s : sub_ok b s -> sub_ok b' s.
Proof.
  intros [S1 S2 S3 S4 S5 S6]. pose proof G as [G1 G2 _ _]. constructor; [done|done|lia|done|eauto using fate_grows|].
  destruct (s_pc s); cbn [spc_ok] in *; [done..|lia|]. destruct S6 as (S6&e&E&B&F). split; [lia|].
  exists e. rewrite (entry_grows _ _ E). split; [done|]. split; [done|]. intros. apply F. lia.
Qed.

(** A publisher has done a step. *)
Lemma pcs_step i pc' t' : pcs_ok b -> 1 <= head_idx b -> bpcs b' = <[i := pc']> (bpcs b) ->
  (forall j, j <> i -> pthreads (bpool b') !! j = pthreads (bpool b) !! j) ->
  bpc_ok b' pc' -> pthreads (bpool b') !! i = Some t' -> pub_rel pc' t' -> pcs_ok b'.
Proof.
  intros P H1 Eb Et Hpc Hi R j pc Hj. rewrite Eb in Hj.
  apply list_lookup_insert_Some in Hj as [(<-&<-&_)|[Hij Hj]]; [by eauto|].
  destruct (P _ _ Hj) as [Hok Hr]. split; [by apply bpc_grows|]. by rewrite Et.
Qed.
End Grows.

(** ** The slots *)

Section Core.
Context (k : Z) (all : list Z) (Hk : 0 <= k) (Nd : NoDup all).

Lemma slot_of_mod b i : depth_mask b = 2 ^ k - 1 -> slot_of b i = i mod 2 ^ k.
Proof. intros E. unfold slot_of. rewrite E. rewrite <- Z.land_ones by done. f_equal. by rewrite Z.ones_equiv. Qed.

Lemma ref_tag b i : 1 <= i <= published b -> rtag (ref_at b i) = i.
Proof. intros Hi. unfold ref_at. by destruct (entry_some b i Hi) as [e ->]. Qed.

Lemma ref_old b i : i < 1 -> ref_at b i = LF_REF_NULL.
Proof. intros Hi. unfold ref_at, entry_at. rewrite (proj2 (Z.ltb_lt i 1)) by done. done. Qed.

Section Slots.
Context (es : list Z) (l : list lf_ref) (b : lf_bcast) (C : core k all es l b).

Lemma slot_cong i j : i mod 2 ^ k = j mod 2 ^ k -> slot b i = slot b j.
Proof. intros E. unfold slot. rewrite !(slot_of_mod b) by apply C. by rewrite E. Qed.

(** The slot of a published message holds it or a later one. *)
Lemma slot_latest x : 1 <= x <= published b ->
  exists i, x <= i <= published b /\ published b - 2 ^ k < i /\ slot b x = ref_at b i.
Proof.
  intros Hx. pose proof (pow2_pos k Hk) as Hp. pose proof (Z.div_mod (published b - x) (2 ^ k) ltac:(lia)) as D.
  pose proof (Z.mod_pos_bound (published b - x) (2 ^ k) Hp) as M. 
  pose proof (Z.div_pos (published b - x) (2 ^ k) ltac:(lia) Hp) as Q.
  exists (x + (published b - x) / 2 ^ k * 2 ^ k). split; [nia|]. split; [nia|].
  rewrite <- (co_slots _ _ _ _ _ C) by nia. apply slot_cong. by rewrite Z.mod_add by lia.
Qed.

Lemma slot_tag x : 1 <= x <= published b ->
  x <= rtag (slot b x) /\ (rtag (slot b x) = x -> slot b x = ref_at b x) /\ (rtag (slot b x) <> x -> x < head_idx b).
Proof.
  intros Hx. destruct (decide (published b - 2 ^ k < x)) as [Hw|Hw].
  - rewrite (co_slots _ _ _ _ _ C) by lia. rewrite ref_tag by done. split_and!; [lia|done|done].
  - destruct (slot_latest x Hx) as (i&Hi&Hwi&->). rewrite ref_tag by lia. pose proof (co_room _ _ _ _ _ C). lia.
Qed.

(** The slot of the next message. *)
Lemma slot_next : rtag (slot b (published b + 1)) < published b + 1 /\ rtag (slot b (published b + 1)) <= head_idx b /\
  (rtag (slot b (published b + 1)) < head_idx b -> published b + 1 - 2 ^ k < head_idx b).
Proof.
  pose proof (pow2_pos k Hk) as Hp. pose proof (co_head _ _ _ _ _ C). pose proof (co_room _ _ _ _ _ C).
  assert (slot b (published b + 1) = ref_at b (published b + 1 - 2 ^ k)) as ->.
  { rewrite <- (co_slots _ _ _ _ _ C) by lia. apply slot_cong.
    symmetry. rewrite <- (Z.mod_add _ 1 (2 ^ k)) by lia. f_equal. lia. }
  destruct (decide (published b + 1 - 2 ^ k < 1)) as [Ho|Ho].
  - rewrite ref_old by done. cbn [rtag LF_REF_NULL]. assert (0 <= published b) by (unfold published; lia). lia.
  - rewrite ref_tag by lia. lia.
Qed.

Lemma entry_queued i e : head_idx b <= i -> entry_at b i = Some e -> e_buf e ∈ queued b.
Proof.
  intros Hi E. unfold entry_at in E. destruct (i <? 1) eqn:?; [done|]. pose proof (co_head _ _ _ _ _ C).
  apply list_elem_of_fmap_2, (list_elem_of_lookup_2 _ (Z.to_nat (i - head_idx b))). rewrite lookup_drop. rewrite <- E. f_equal. lia.
Qed.

Lemma core_nodup : NoDup (es ++ queued b).
Proof. rewrite (co_bufs _ _ _ _ _ C). exact Nd. Qed.

Lemma es_nodup : NoDup es.
Proof. pose proof core_nodup as N. by apply NoDup_app in N as []. Qed.

(** The queued buffers are out of reach of the pool and the publishers. *)
Lemma queued_not_es x : x ∈ es -> x ∉ queued b.
Proof. pose proof core_nodup as N. apply NoDup_app in N as (_&N&_). auto. Qed.

Lemma owned_es i t x : pthreads (bpool b) !! i = Some t -> x ∈ towned t -> x ∈ es.
Proof. intros Hi Hx. destruct C as [_ [_ P _ _] _ _ _ _ _ _]. rewrite <- P. apply elem_of_app. right. by eapply owned_lookup. Qed.

(** ** Accesses to the shared memory *)

Lemma core_pc i pc : core k all es l (set_pc b i pc).
Proof. by destruct C. Qed.

Lemma core_sub j s : core k all es l (set_sub b j s).
Proof. by destruct C. Qed.

Lemma core_cas_tail t : t <= published b -> core k all es l (cas_tail b t).
Proof.
  intros Ht. unfold cas_tail. destruct (tail_idx b =? t) eqn:E; [|done]. apply Z.eqb_eq in E. destruct C.
  constructor; try done; cbn [set_tail head_idx tail_idx]; [lia|]. change (published (set_tail b (t + 1))) with (published b). lia.
Qed.

(** The pool does a step. *)
Lemma core_set_pool l' p : pool_ok es l' p -> (forall x, x ∉ es -> link (links p) x = link (links (bpool b)) x) ->
  core k all es l' (set_pool b p).
Proof.
  intros Hp Hl. pose proof C as [C1 C2 C3 C4 C5 C6 C7 C8]. constructor; try done.
  intros i e Hi E. destruct (C8 i e Hi E) as [F B]. split; [|done]. cbn [set_pool bpool]. rewrite Hl; [done|].
  intros Hx%queued_not_es. by apply Hx, (entry_queued i).
Qed.

(** A publisher writes to its buffer. *)
Lemma core_write buf n v : buf ∈ es -> core k all es l (set_body b (<[(buf, n) := v]> (body b))).
Proof.
  intros Hb. pose proof C as [C1 C2 C3 C4 C5 C6 C7 C8]. constructor; try done.
  intros i e Hi E. destruct (C8 i e Hi E) as [F B]. split; [done|]. intros n'. cbn [set_body body].
  rewrite lookup_insert_ne; [done|]. intros [= -> ->]. by apply (queued_not_es _ Hb), (entry_queued i).
Qed.

(** The head is dequeued: its buffer goes to a thread. *)
Lemma core_dequeue i t t' h : head_idx b = h -> droppable b h -> pthreads (bpool b) !! i = Some t ->
  let buf := buf_at b (rval (ref_at b h)) in
  towned t' ≡ₚ buf :: towned t -> pc_pending (ppc t') = [] -> pc_ok (set_pthread (bpool b) i t') l (ppc t') ->
  core k all (buf :: es) l (set_pool (set_head b (h + 1)) (set_pthread (bpool b) i t')).
Proof.
  intros Hh (_&Hn&Ht) Hi buf Ho Hp Hpc. pose proof C as [C1 C2 C3 C4 C5 C6 C7 C8].
  destruct (entry_some b h ltac:(lia)) as [e E]. 
  assert (buf = e_buf e) as Hb by (unfold buf, ref_at, buf_at, buf_off; rewrite E; cbn [rval]; lia).
  constructor; try done; cbn [set_pool set_head head_idx tail_idx bpool].
  - apply (move_ok es _ _ _ i t); try done; [apply es_nodup|]. rewrite Ho. solve_Permutation.
  - rewrite <- C3. unfold queued. cbn [set_pool set_head head_idx blog]. rewrite Hb, Hh.
    unfold entry_at in E. destruct (h <? 1) eqn:?; [done|]. rewrite (drop_S _ _ _ E). 
    replace (Z.to_nat (h + 1 - 1)) with (S (Z.to_nat (h - 1))) by lia. cbn [fmap list_fmap]. solve_Permutation.
  - lia.
  - change (published (set_pool _ _)) with (published b). lia.
  - intros j e' Hj E'. destruct (C8 j e' ltac:(lia) E'). done.
Qed.

Lemma entry_commit tail buf p j : let b' := set_pool (commit b tail buf) p in
  entry_at b' j = if decide (j = published b + 1) then Some (mkEntry buf (link (links (bpool b)) buf) (body b)) else entry_at b j.
Proof.
  intros b'. unfold entry_at, published. cbn [b' set_pool commit blog]. destruct (decide _) as [->|Hj].
  - destruct (Z.ltb_spec (Z.of_nat (length (blog b)) + 1) 1); [lia|]. apply list_lookup_middle. lia.
  - destruct (Z.ltb_spec j 1); [done|]. destruct (decide (j <= published b)) as [Hle|Hgt]; unfold published in *.
    + apply lookup_app_l. lia.
    + rewrite (lookup_ge_None_2 (blog b)) by lia. apply lookup_ge_None_2. rewrite length_app. cbn [length]. lia.
Qed.

Lemma slot_commit buf p j : published b + 1 - 2 ^ k < j <= published b + 1 ->
  let b' := set_pool (commit b (published b + 1) buf) p in
  slot b' j = ref_at b' j.
Proof.
  intros Hj b'. pose proof (pow2_pos k Hk). unfold ref_at, b'. rewrite (entry_commit (published b + 1) buf p j).
  unfold slot, slot_of. cbn [set_pool commit slots depth_mask]. fold (slot_of b j) (slot_of b (published b + 1)).
  destruct (decide _) as [->|Hn]; [by rewrite lookup_insert_eq|].
  rewrite lookup_insert_ne; [by apply (co_slots _ _ _ _ _ C); lia|].
  rewrite !slot_of_mod by apply C. intros E.
  pose proof (Z.div_mod j (2 ^ k) ltac:(lia)). pose proof (Z.div_mod (published b + 1) (2 ^ k) ltac:(lia)).
  destruct (Z.lt_trichotomy (j / 2 ^ k) ((published b + 1) / 2 ^ k)) as [?|[?|?]]; nia.
Qed.

(** A message is put into its slot. *)
Lemma core_commit i t buf tail : pthreads (bpool b) !! i = Some t -> ppc t = PIdle -> buf ∈ pheld t ->
  1 <= tail <= tail_idx b -> rtag (slot b tail) < tail -> rtag (slot b tail) < head_idx b ->
  tail = published b + 1 /\
  exists es', core k all es' l (set_pool (commit b tail buf) (pool_take (bpool b) i t buf)).
Proof.
  intros Hi Hidle Hb Ht Hs Hh. pose proof C as [C1 C2 C3 C4 C5 C6 C7 C8].
  assert (tail = published b + 1) as ->.
  { destruct (decide (tail <= published b)); [|lia]. destruct (slot_tag tail ltac:(lia)). lia. }
  split; [done|]. pose proof (proj2 (proj2 slot_next) Hh) as Hroom. pose proof (owned_es i t buf Hi) as Hbe.
  destruct (proj1 (elem_of_Permutation es buf)) as [es' He]; [apply Hbe; unfold towned; set_solver|].
  exists es'. set (b' := set_pool _ _). assert (published b' = published b + 1) as Hpub.
  { unfold published. cbn [b' set_pool commit blog]. rewrite length_app. cbn [length]. lia. }
  constructor; rewrite ?Hpub; try done; cbn [b' set_pool commit head_idx tail_idx bpool].
  - apply (move_ok es _ _ _ i t); try done; [apply es_nodup| |by rewrite Hidle|by rewrite Hidle].
    rewrite He. unfold towned. rewrite Hidle. cbn [ppc pheld pc_owned app].
    rewrite <- (remove_one_perm buf (pheld t)) at 1; [solve_Permutation| |done].
    by apply (held_nodup _ _ _ _ _ es_nodup C2 Hi).
  - rewrite <- C3, He. unfold queued. cbn [b' set_pool commit head_idx blog]. rewrite drop_app_le by (unfold published in *; lia).
    rewrite fmap_app. cbn [fmap list_fmap e_buf]. solve_Permutation.
  - lia.
  - intros j Hj. by apply slot_commit.
  - intros j e Hj E. unfold b' in E. rewrite entry_commit in E. destruct (decide _) as [->|_]; [by simplify_eq|by apply (C8 j)].
Qed.
End Slots.

(** ** Publishers *)

Lemma binv_pub b b' i pc' t' : binv k all b -> (exists es l, core k all es l b') -> grows b b' -> subs b' = subs b ->
  bpcs b' = <[i := pc']> (bpcs b) -> (forall j, j <> i -> pthreads (bpool b') !! j = pthreads (bpool b) !! j) ->
  bpc_ok b' pc' -> pthreads (bpool b') !! i = Some t' -> pub_rel pc' t' -> binv k all b'.
Proof.
  intros ((es&l&C)&P&S) C' G Es Eb Et Hpc Hi R. split; [done|]. split.
  - eapply pcs_step; try done. apply C.
  - rewrite Es. eapply Forall_impl; [exact S|]. intros s. by apply sub_grows.
Qed.

(** Only the publisher moves. *)
Lemma binv_pc b i t pc' : binv k all b -> pthreads (bpool b) !! i = Some t -> bpc_ok b pc' -> pub_rel pc' t ->
  binv k all (set_pc b i pc').
Proof.
  intros I Hi Hpc R. pose proof I as ((es&l&C)&_). apply (binv_pub b _ i pc' t); try done.
  exists es, l. by apply core_pc.
Qed.

Lemma binv_cas_tail b i t tail pc' : binv k all b -> pthreads (bpool b) !! i = Some t -> tail <= published b ->
  bpc_ok b pc' -> pub_rel pc' t -> binv k all (set_pc (cas_tail b tail) i pc').
Proof.
  intros I Hi Ht Hpc R. pose proof I as ((es&l&C)&_).
  assert (grows b (cas_tail b tail)) as G.
  { unfold cas_tail. destruct (Z.eqb_spec (tail_idx b) tail); [|apply grows_refl]. constructor; try done. cbn. lia. }
  apply (binv_pub b _ i pc' t); try done.
  - exists es, l. apply core_pc. by apply core_cas_tail.
  - by destruct G.
  - by unfold cas_tail; case_match.
  - by unfold cas_tail; case_match.
  - by unfold cas_tail; case_match.
  - change (bpc_ok (cas_tail b tail) pc'). eapply bpc_grows; [done| |done]. apply C.
  - by unfold cas_tail; case_match.
Qed.

(** The pool does a step of the call of a publisher. *)
Lemma pool_next_inv b i t b' o : binv k all b -> pthreads (bpool b) !! i = Some t -> pool_next b i t = Some (b', o) ->
  exists p t', b' = set_pool b p /\ (exists es l, core k all es l b') /\ pthreads p = <[i := t']> (pthreads (bpool b)) /\
    o = outcome (ppc t) (ppc t') /\
    (is_rel (ppc t) -> pheld t' = pheld t /\ (is_rel (ppc t') \/ ppc t' = PIdle)) /\
    (is_acq (ppc t) -> is_acq (ppc t') \/ ppc t' = PIdle).
Proof.
  intros ((es&l&C)&_) Hi. unfold pool_next. destruct (pool_access (bpool b) i t) as [p|] eqn:Ea; [|done].
  destruct (pool_access_frame _ _ _ _ Ea) as [(t'&Et&Hr&Hq) Hl]. rewrite Et, list_lookup_insert_eq by (by eapply lookup_lt_Some).
  intros [= <- <-]. exists p, t'. split_and!; try done.
  destruct (pool_access_ok es l (bpool b) i t p) as [l' Hp]; [by eapply es_nodup|apply C|done|done|].
  exists es, l'. apply core_set_pool with l; [done|done|]. intros x Hx. apply Hl. intros Hx'. by eapply Hx, owned_es.
Qed.

Lemma outcome_running a c : c <> PIdle -> outcome a c = PRunning.
Proof. by destruct a, c. Qed.
Lemma outcome_idle a : outcome a PIdle <> PRunning.
Proof. by destruct a. Qed.

(** The pool goes on with a call; the publisher goes on with [pc'] when it returns. *)
Lemma binv_pool_next b i t b' o pc pc' : binv k all b -> pthreads (bpool b) !! i = Some t ->
  pool_next b i t = Some (b', o) -> pub_rel pc t -> is_rel (ppc t) \/ is_acq (ppc t) ->
  (o = PRunning -> pc' = pc) -> (o <> PRunning -> pool_mode pc' PIdle) ->
  pub_buf pc' = None \/ (pub_buf pc' = pub_buf pc /\ is_rel (ppc t)) -> bpc_ok b' pc' -> binv k all (set_pc b' i pc').
Proof.
  intros I Hi Hn [Rm Rb] Hc Hrun Hfin Hbuf Hpc. destruct (pool_next_inv _ _ _ _ _ I Hi Hn) as (p&t'&->&(es&l&C)&Et&->&Hr&Hq).
  pose proof (lookup_lt_Some _ _ _ Hi). apply (binv_pub b _ i pc' t'); try done.
  - exists es, l. by apply core_pc.
  - intros j Hj. cbn [set_pc set_pool bpool]. by rewrite Et, list_lookup_insert_ne.
  - cbn [set_pc set_pool bpool]. by rewrite Et, list_lookup_insert_eq.
  - split.
    + destruct (decide (ppc t' = PIdle)) as [E|E].
      * rewrite E in Hfin |- *. apply Hfin, outcome_idle.
      * rewrite Hrun by (by apply outcome_running).
        destruct pc; cbn [pool_mode] in *; try (rewrite Rm in Hc; naive_solver); naive_solver.
    + destruct Hbuf as [->|[-> Hrel]]; [done|]. destruct (Hr Hrel) as [-> _]. done.
Qed.

(** A publisher takes the head out of the queue. *)
Lemma binv_dequeue b i t t' h cur pc' : binv k all b -> pthreads (bpool b) !! i = Some t ->
  head_idx b = h -> droppable b h -> cur = ref_at b h ->
  towned t' ≡ₚ buf_at b (rval cur) :: towned t -> pc_pending (ppc t') = [] -> (forall p l, pc_ok p l (ppc t')) ->
  (forall b, bpc_ok b pc') -> pub_rel pc' t' ->
  binv k all (set_pc (set_pool (set_head b (h + 1)) (set_pthread (bpool b) i t')) i pc').
Proof.
  intros I Hi Hh Hd -> Ho Hp Hpc Hb R. pose proof I as ((es&l&C)&_). pose proof (lookup_lt_Some _ _ _ Hi).
  apply (binv_pub b _ i pc' t'); try done.
  - eexists _, l. apply core_pc. by eapply core_dequeue.
  - constructor; try done. cbn. lia.
  - intros j Hj. cbn. by rewrite list_lookup_insert_ne.
  - cbn. by rewrite list_lookup_insert_eq.
Qed.

(** A publisher appends its message. *)
Lemma binv_commit b i t buf tail : binv k all b -> pthreads (bpool b) !! i = Some t -> ppc t = PIdle -> buf ∈ pheld t ->
  1 <= tail <= tail_idx b -> rtag (slot b tail) < tail -> rtag (slot b tail) < head_idx b ->
  binv k all (set_pc (set_pool (commit b tail buf) (pool_take (bpool b) i t buf)) i (PubBump tail)).
Proof.
  intros I Hi Hidle Hb Ht H1 H2. pose proof I as ((es&l&C)&_). pose proof (lookup_lt_Some _ _ _ Hi).
  destruct (core_commit es l b C i t buf tail) as [-> [es' C']]; try done.
  apply (binv_pub b _ i (PubBump (published b + 1)) (mkPThread (ppc t) (remove_one buf (pheld t)))); try done.
  - exists es', l. by apply core_pc.
  - constructor; try done. by apply prefix_app_r.
  - intros j Hj. cbn. by rewrite list_lookup_insert_ne.
  - cbn [bpc_ok]. unfold published. cbn [set_pc set_pool commit blog]. rewrite length_app. cbn [length]. lia.
  - cbn. by rewrite list_lookup_insert_eq.
Qed.

(** What a trial decides is right for what it has loaded. *)
Lemma pub_decide_ok ndebug b buf h tail t : (exists es l, core k all es l b) -> h <= head_idx b -> 1 <= tail <= tail_idx b ->
  ppc t = PIdle -> buf ∈ pheld t ->
  let pc' := pub_decide ndebug buf h tail (slot b tail) in bpc_ok b pc' /\ pub_rel pc' t.
Proof.
  intros (es&l&C) Hh Ht Hidle Hb. pose proof (co_tail _ _ _ _ _ C) as Hn. pose proof (slot_next es l b C) as [Hs _].
  assert (forall pc, pool_mode pc PIdle -> pub_buf pc = Some buf \/ pub_buf pc = None -> pub_rel pc t) as R.
  { intros pc Hm Hp. split; [by rewrite Hidle|]. intros buf' Hb'. destruct Hp as [Hp|Hp]; rewrite Hp in Hb'; by simplify_eq. }
  unfold pub_decide. destruct (Z.eqb_spec (rtag (slot b tail)) tail) as [E|E].
  { split; [|by apply R; cbn; auto]. cbn [bpc_ok]. destruct (decide (tail = published b + 1)) as [->|]; lia. }
  destruct (Z.leb_spec tail (rtag (slot b tail))); [split; [done|by apply R; cbn; auto]|].
  destruct (Z.leb_spec h (rtag (slot b tail))).
  - destruct (negb ndebug && _); (split; [|by apply R; cbn; auto]); cbn [bpc_ok]; [done|]. unfold droppable. lia.
  - split; [|by apply R; cbn; auto]. cbn [bpc_ok]. lia.
Qed.

(** A publisher calls the pool, or writes to the first bytes of a buffer. *)
Lemma binv_call b i t c p : binv k all b -> pthreads (bpool b) !! i = Some t -> c <> PoolNext ->
  pool_step (bpool b) (i, c) = Some p ->
  exists t', pthreads p !! i = Some t' /\
    t' = match c with
         | CallAcquire => mkPThread AcqHead (pheld t)
         | CallRelease elt => mkPThread (RelInc elt) (remove_one elt (pheld t))
         | _ => t
         end /\
    forall pc', (forall b, bpc_ok b pc') -> pub_rel pc' t' -> binv k all (set_pc (set_pool b p) i pc').
Proof.
  intros I Hi Hc Hs. pose proof I as ((es&l&C)&_). pose proof (lookup_lt_Some _ _ _ Hi).
  destruct (pool_call_frame _ _ _ _ _ Hi Hc Hs) as (_&Et&Hl). eexists. rewrite Et. rewrite list_lookup_insert_eq by done.
  split; [done|]. split; [done|]. intros pc' Hpc R.
  destruct (pool_step_ok es l (bpool b) (i, c) p) as [l' Hp]; [by eapply es_nodup|apply C|done|].
  eapply (binv_pub b _ i pc'); try done.
  - exists es, l'. apply core_pc, core_set_pool with l; [done|done|]. intros x Hx. apply Hl. intros Hx'. by eapply Hx, owned_es.
  - intros j Hj. cbn [set_pc set_pool bpool]. by rewrite Et, list_lookup_insert_ne.
  - cbn [set_pc set_pool bpool]. by rewrite Et, list_lookup_insert_eq.
Qed.

(** Entering [lf_pool_acquire]. *)
Lemma binv_call_acquire b i t : binv k all b -> pthreads (bpool b) !! i = Some t -> ppc t = PIdle ->
  binv k all (set_pc (set_pool b (pool_call_acquire (bpool b) i t)) i BufPool).
Proof.
  intros I Hi Hidle. destruct (binv_call b i t CallAcquire (pool_call_acquire (bpool b) i t) I Hi) as (t'&_&->&H).
  - done.
  - unfold pool_step. cbn [fst snd]. by rewrite Hi, Hidle.
  - by apply H.
Qed.

Lemma pub_next_ok ndebug b i t pc b' : binv k all b -> bpcs b !! i = Some pc -> pthreads (bpool b) !! i = Some t ->
  pub_next ndebug b i t pc = Some b' -> binv k all b'.
Proof.
  intros I Hpc Hi. pose proof I as ((es&l&C)&P&_). destruct (P _ _ Hpc) as (Hok&t0&Ht0&R). rewrite Hi in Ht0.
  injection Ht0 as <-. pose proof (co_head _ _ _ _ _ C) as Hh. pose proof R as [Rm Rb].
  pose proof (co_tail _ _ _ _ _ C) as Ht. pose proof (co_room _ _ _ _ _ C) as Hr.
  assert (forall pc', bpc_ok b pc' -> pub_rel pc' t -> binv k all (set_pc b i pc')) as Move by (intros; by apply (binv_pc b i t)).
  assert (forall h, droppable b h -> head_idx b = h -> slot b h = ref_at b h) as Slot.
  { intros h (D1&D2&D3) <-. apply (co_slots _ _ _ _ _ C). lia. }
  destruct pc; cbn [pub_next buf_next bpc_ok pool_mode pub_buf] in *; try done.
  - intros [= <-]. apply Move; [cbn; lia|exact R].
  - intros [= <-]. apply Move; [cbn; lia|exact R].
  - intros [= <-]. destruct (pub_decide_ok ndebug b buf head tail t) as [? ?]; naive_solver.
  - intros [= <-]. by apply (binv_cas_tail _ _ t).
  - intros [= <-]. apply Move; [split; auto|exact R].
  - destruct (Z.eqb_spec (head_idx b) head) as [E|E]; intros [= <-]; [|apply Move; [done|exact R]]. destruct Hok as [Hd Hc].
    apply (binv_dequeue b i t _ head cur); try done; [by apply Hc|]. unfold towned. by rewrite Rm.
  - destruct (pool_next b i t) as [[b1 o]|] eqn:E; [|done]. intros [= <-].
    eapply binv_pool_next; try done; [by left|by intros ->|by destruct o|right; by destruct o|by destruct o].
  - case_bool_decide as E; intros [= <-]; [|apply Move; [done|exact R]]. subst cur. apply binv_commit; naive_solver.
  - intros [= <-]. by apply (binv_cas_tail _ _ t).
  - destruct (pool_next b i t) as [[b1 o]|] eqn:E; [|done]. intros [= <-].
    eapply binv_pool_next; try done; [by right|by intros ->|by destruct o|left; by destruct o|by destruct o].
  - intros [= <-]. apply Move; [cbn; lia|exact R].
  - intros [= <-]. apply Move; [|by case_match]. destruct (Z.eqb_spec head (tail_idx b)); cbn [bpc_ok]; [done|].
    unfold droppable. lia.
  - intros [= <-]. apply Move; [split; auto|exact R].
  - destruct (Z.eqb_spec (head_idx b) head) as [E|E]; intros [= <-].
    + destruct Hok as [Hd Hc]. apply (binv_dequeue b i t _ head cur); try done; [by apply Hc| |by rewrite Rm|by rewrite Rm].
      unfold towned. by rewrite Rm.
    + by apply binv_call_acquire.
  - destruct (pool_next b i t) as [[b1 o]|] eqn:E; [|done]. intros [= <-].
    eapply binv_pool_next; try done; [by left|by intros ->|by destruct o|left; by destruct o|by destruct o].
Qed.

Lemma set_pc_id b i pc : bpcs b !! i = Some pc -> set_pc b i pc = b.
Proof. intros H. destruct b. unfold set_pc. cbn in *. by rewrite list_insert_id. Qed.

Lemma pub_call_ok b i t c b' : binv k all b -> bpcs b !! i = Some BIdle -> pthreads (bpool b) !! i = Some t ->
  pub_call b i t c = Some b' -> binv k all b'.
Proof.
  intros I Hpc Hi. pose proof I as ((es&l&C)&P&S). destruct (P _ _ Hpc) as (_&t0&Ht0&[Hidle _]). rewrite Hi in Ht0.
  injection Ht0 as <-. cbn [pool_mode] in Hidle. destruct c as [|buf|buf|buf r|buf n v|]; cbn [pub_call]; [..|done].
  - intros [= <-]. by apply binv_call_acquire.
  - case_bool_decide; [|done]. destruct (pool_step _ _) as [p|] eqn:Ep; [|done]. intros [= <-].
    destruct (binv_call b i t (CallRelease buf) p I Hi ltac:(done) Ep) as (t'&_&->&H'). by apply H'.
  - case_bool_decide; [|done]. intros [= <-]. apply (binv_pc _ _ t); try done. split; [done|]. intros ? [= <-]. done.
  - destruct (pool_step _ _) as [p|] eqn:Ep; [|done]. intros [= <-].
    destruct (binv_call b i t (UserWrite buf r) p I Hi ltac:(done) Ep) as (t'&_&->&H').
    rewrite <- (set_pc_id (set_pool b p) i BIdle Hpc). by apply H'.
  - case_bool_decide as Hb; [|done]. destruct (_ <? _); [|done]. intros [= <-]. rewrite <- (set_pc_id (set_body b _) i BIdle Hpc).
    apply (binv_pub b _ i BIdle t); try done. exists es, l. apply core_pc, core_write; [done|].
    eapply owned_es; [done..|]. unfold towned. set_solver.
Qed.

(** ** Subscribers *)

(** A subscriber is through with a message. *)
Lemma sub_done b s o pc drops : sub_ok b s -> s_idx s < tail_idx b -> fate_ok b (s_idx s) o ->
  drops = s_drops s + (match o with None => 1 | Some _ => 0 end) -> (forall i, spc_ok b i pc) ->
  sub_ok b (mkSub pc (s_idx s + 1) drops (s_start s) (s_hist s ++ [o])).
Proof.
  intros [S1 S2 S3 S4 S5 S6] Hlt Ho -> Hpc. constructor; cbn [s_idx s_start s_drops s_hist s_pc]; try done.
  - rewrite length_app. cbn [length]. lia.
  - lia.
  - rewrite filter_app, length_app, S4.
    destruct o; [rewrite filter_cons_False by done|rewrite filter_cons_True by done]; rewrite filter_nil; cbn [length]; lia.
  - intros n o' [Hn|[Hn E]]%lookup_app_Some; [by apply S5|]. destruct (n - length (s_hist s))%nat eqn:En; [|done].
    injection E as <-. by replace (s_start s + Z.of_nat n) with (s_idx s) by lia.
Qed.

(** What is read of a buffer is what was published, unless the head has passed it. *)
Lemma observe_agrees es l b i e x : core k all es l b -> entry_at b i = Some e -> head_idx b <= i -> agrees e (observe b (e_buf e) x).
Proof.
  intros C E Hi. destruct (co_intact _ _ _ _ _ C i e Hi E) as [F B]. destruct x; cbn [observe agrees]; [done|]. apply B.
Qed.

Lemma sub_with_pc b s pc : sub_ok b s -> spc_ok b (s_idx s) pc -> sub_ok b (with_pc s pc).
Proof. intros [S1 S2 S3 S4 S5 S6] H. by constructor. Qed.

Lemma consume_next_ok b s wait s' : (exists es l, core k all es l b) -> sub_ok b s -> consume_next b s wait = Some s' -> sub_ok b s'.
Proof.
  intros (es&l&C) S. pose proof S as [S1 S2 S3 _ _ S6]. pose proof (co_tail _ _ _ _ _ C) as Ht. unfold consume_next.
  destruct (s_pc s) as [| | |] eqn:Ep; cbn [spc_ok] in S6; try done.
  - destruct (Z.eqb_spec (s_idx s) (tail_idx b)); intros [= <-]; apply sub_with_pc; try done; [by destruct wait|cbn; lia].
  - destruct (slot_tag es l b C (s_idx s) ltac:(lia)) as (T1&T2&T3).
    destruct (Z.eqb_spec (rtag (slot b (s_idx s))) (s_idx s)) as [E|E]; cbn [negb]; intros [= <-].
    + apply sub_with_pc; [done|]. cbn [spc_ok]. split; [done|]. destruct (entry_some b (s_idx s)) as [e He]; [lia|].
      exists e. split; [done|]. split; [|by constructor]. rewrite T2 by done. unfold ref_at, buf_at, buf_off. rewrite He. cbn [rval]. lia.
    + apply sub_done; [done|done|cbn; by apply T3|done|done].
Qed.

Lemma sub_step_ok b s c s' : (exists es l, core k all es l b) -> sub_ok b s -> sub_step b s c = Some s' -> sub_ok b s'.
Proof.
  intros C S. pose proof S as [_ _ _ _ _ S6]. destruct c; cbn [sub_step]; [| |destruct (s_pc s) as [| | |buf seen]..]; try done.
  - destruct (s_pc s); try done. intros [= <-]. by apply sub_with_pc.
  - by apply consume_next_ok.
  - intros [= <-]. cbn [spc_ok] in S6. destruct C as (es&l&C), S6 as (Hlt&e&E&->&F). apply sub_with_pc; [done|].
    split; [done|]. exists e. split; [done|]. split; [done|]. intros Hh. apply Forall_app. split; [by apply F|].
    apply Forall_singleton. by apply (observe_agrees es l b (s_idx s)).
  - intros [= <-]. cbn [spc_ok] in S6. destruct S6 as (Hlt&e&E&_&F). unfold lf_bcast_sub_consume_end. cbn [fst].
    destruct (Z.leb_spec (head_idx b) (s_idx s)) as [Hv|Hv]; apply sub_done; cbn; try done; try lia.
    exists e. auto.
Qed.

(** ** Runs *)

Lemma bcast_step_ok ndebug b a b' : binv k all b -> bcast_step ndebug b a = Some b' -> binv k all b'.
Proof.
  intros I. pose proof I as (C&P&S). destruct a as [i c| |j c]; cbn [bcast_step].
  - destruct (bpcs b !! i) as [pc|] eqn:Hpc; [|done]. destruct (pthreads (bpool b) !! i) as [t|] eqn:Hi; [|done].
    destruct c; try (destruct pc; [by eapply pub_call_ok|done..]). by eapply pub_next_ok.
  - intros [= <-]. destruct C as (es&l&C). split; [exists es, l; by destruct C|]. split; [exact P|]. cbn [subs].
    apply Forall_app. split; [eapply Forall_impl; [exact S|]; intros s Hs; by destruct Hs|]. apply Forall_singleton.
    pose proof (co_head _ _ _ _ _ C). constructor; cbn; try done; lia.
  - destruct (subs b !! j) as [s|] eqn:Hs; [|done]. destruct (sub_step b s c) as [s'|] eqn:E; [|done]. intros [= <-].
    assert (sub_ok b s') as Hs' by (eapply sub_step_ok; [done| |done]; by eapply Forall_lookup_1 in S).
    split; [destruct C as (es&l&C); exists es, l; by apply core_sub|]. split; [exact P|].
    cbn [set_sub subs]. apply Forall_insert; [|by destruct Hs']. eapply Forall_impl; [exact S|]. intros x Hx. by destruct Hx.
Qed.

Lemma bcast_run_ok ndebug b sched b' : binv k all b -> bcast_run ndebug b sched = Some b' -> binv k all b'.
Proof.
  revert b. induction sched as [|a sched IH]; intros b I; cbn [bcast_run]; [by intros [= <-]|].
  destruct (bcast_step ndebug b a) as [b1|] eqn:E; [|done]. intros H. eapply IH; [|exact H]. by eapply bcast_step_ok.
Qed.
End Core.

(** ** Creation *)

Lemma is_pow2 s : 0 <= s -> LF_IS_POW2 s = true -> exists k, 0 <= k /\ s = 2 ^ k.
Proof.
  intros Hs H. unfold LF_IS_POW2 in H. apply andb_true_iff in H as [H1 H2]. apply negb_true_iff, Z.eqb_neq in H1.
  apply Z.eqb_eq in H2. exists (Z.log2 s). pose proof (Z.log2_nonneg s). split; [done|].
  pose proof (Z.log2_spec s ltac:(lia)) as [L U]. destruct (decide (s = 2 ^ Z.log2 s)) as [E|E]; [done|exfalso].
  assert (Z.log2 (s - 1) = Z.log2 s) as E1 by (apply Z.log2_unique; [done|lia]).
  pose proof (Z.bit_log2 s ltac:(lia)) as B. pose proof (Z.bit_log2 (s - 1) ltac:(lia)) as B1. rewrite E1 in B1.
  pose proof (Z.land_spec s (s - 1) (Z.log2 s)) as A. by rewrite H2, B, B1, Z.bits_0 in A.
Qed.

Lemma lf_bcast_mem_init_ok depth elt_sz elt_align threads b : lf_bcast_mem_init depth elt_sz elt_align threads = Some b ->
  exists k, 0 <= k /\ Z.of_nat depth = 2 ^ k /\ NoDup (elt_offs elt_sz depth) /\ binv k (elt_offs elt_sz depth) b.
Proof.
  unfold lf_bcast_mem_init, lf_bcast_footprint. destruct (LF_IS_POW2 (Z.of_nat depth)) eqn:E2; [|done]. cbn [negb].
  destruct (lf_pool_footprint (Z.of_nat depth) elt_sz elt_align) as [[ps pa]|]; [|done].
  destruct (lf_pool_mem_init depth elt_sz elt_align threads) as [p|] eqn:Ep; [|done]. intros [= <-].
  destruct (is_pow2 (Z.of_nat depth) ltac:(lia) E2) as (k&Hk&Ek). exists k. split; [done|]. split; [done|].
  destruct (lf_pool_mem_init_ok _ _ _ _ _ Ep) as [Hs [l Hp]]. split; [by apply elt_offs_nodup|].
  assert (pthreads p = replicate threads (mkPThread PIdle [])) as Et.
  { unfold lf_pool_mem_init in Ep. case_match; [|done]. injection Ep as <-. by rewrite release_all_threads. }
  split_and!; [|intros i pc (->&Hi)%lookup_replicate|done].
  - exists (elt_offs elt_sz depth), l. constructor; try done.
    + cbn [depth_mask]. lia.
    + unfold queued. cbn [blog]. by rewrite drop_nil, app_nil_r.
    + pose proof (pow2_pos k Hk). unfold published. cbn [head_idx blog length]. lia.
    + intros i Hi. unfold slot, ref_at, entry_at. cbn [slots blog]. rewrite lookup_empty, lookup_nil. by destruct (i <? 1).
    + intros i e _ E. unfold entry_at in E. cbn [blog] in E. rewrite lookup_nil in E. by destruct (i <? 1).
  - split; [done|]. exists (mkPThread PIdle []). cbn [bpool]. rewrite Et. split; [by apply lookup_replicate|by split].
Qed.

(** ** What the queue promises *)

(** C20: Whatever the interleaving of the accesses of any number of publishers
    and subscribers (publishers acquire, fill, publish and release buffers, and
    may stop for ever at any point), a subscriber is through with every message
    since it was created once and in order: it has consumed the message, and
    everything that it read of the buffer between [lf_bcast_sub_consume_begin]
    and a [lf_bcast_sub_consume_end] that returned true is what was published
    under that index; or it has counted the message as a drop, and the message
    has indeed been rolled off the queue. *)
Theorem bcast_delivery depth elt_sz elt_align threads ndebug b0 sched b :
  LF_REF_SZ <= elt_sz -> lf_bcast_mem_init depth elt_sz elt_align threads = Some b0 ->
  bcast_run ndebug b0 sched = Some b ->
  forall j s, subs b !! j = Some s ->
    s_idx s = s_start s + Z.of_nat (length (s_hist s)) /\ s_idx s <= tail_idx b /\
    s_drops s = Z.of_nat (length (filter (fun o => o = None) (s_hist s))) /\
    forall n fate, s_hist s !! n = Some fate ->
      match fate with
      | Some seen => exists e, entry_at b (s_start s + Z.of_nat n) = Some e /\ Forall (agrees e) seen
      | None => s_start s + Z.of_nat n < head_idx b
      end.
Proof.
  intros _ Hinit Hrun j s Hj. destruct (lf_bcast_mem_init_ok _ _ _ _ _ Hinit) as (k&Hk&_&Nd&I).
  pose proof (bcast_run_ok k _ Hk Nd _ _ _ _ I Hrun) as (_&_&S). rewrite Forall_lookup in S. destruct (S _ _ Hj) as [S1 S2 S3 S4 S5 _].
  split; [done|]. split; [done|]. split; [done|]. intros n fate Hn. exact (S5 n fate Hn).
Qed.

(** C21: In every reachable state each buffer is in exactly one place: free in
    the pool, with one publisher, or in the queue; the queue holds at most
    [depth] messages, the newest ones, each in the slot of its index and with
    the contents it was published with; and the tail index is at the newest
    message or behind it. *)
Theorem bcast_buffers depth elt_sz elt_align threads ndebug b0 sched b :
  LF_REF_SZ <= elt_sz -> lf_bcast_mem_init depth elt_sz elt_align threads = Some b0 ->
  bcast_run ndebug b0 sched = Some b ->
  (exists free, linked (links (bpool b)) (phead (bpool b)) free /\
    (rval <$> free) ++ owned (pthreads (bpool b)) ++ queued b ≡ₚ elt_offs elt_sz depth) /\
  NoDup (elt_offs elt_sz depth) /\
  1 <= head_idx b <= tail_idx b /\ published b <= tail_idx b <= published b + 1 /\
  published b + 1 - head_idx b <= Z.of_nat depth /\
  forall i, head_idx b <= i <= published b -> exists e, entry_at b i = Some e /\ slot b i = mkRef i (buf_off b (e_buf e)) /\ intact b e.
Proof.
  intros _ Hinit Hrun. destruct (lf_bcast_mem_init_ok _ _ _ _ _ Hinit) as (k&Hk&Hd&Nd&I).
  pose proof (bcast_run_ok k _ Hk Nd _ _ _ _ I Hrun) as ((es&l&[_ [L P _ _] B Hh Ht Hr Hs Hi])&_&_).
  split; [|split_and!; [done|lia|lia|lia|lia|lia|]].
  - exists l. split; [done|]. by rewrite app_assoc, P.
  - intros i Hi'. destruct (entry_some b i) as [e E]; [lia|]. exists e. split; [done|]. split; [|apply (Hi i e); [lia|done]].
    rewrite Hs by lia. unfold ref_at. by rewrite E.
Qed.

(** ** Schedules *)

(** A publisher that runs alone: acquiring from the pool, acquiring from a
    queue whose pool is empty, writing a byte and publishing. *)
Definition acquire_pool (i : nat) : list action := Pub i BufAcquire :: replicate 3 (Pub i BNext).
Definition acquire_queue (i : nat) : list action := Pub i BufAcquire :: replicate 5 (Pub i BNext).
Definition write_publish (i : nat) (buf v : Z) : list action :=
  Pub i (WriteByte buf 0 v) :: Pub i (Publish buf) :: replicate 5 (Pub i BNext).

(** A subscriber consumes a message. *)
Definition consume_start (j : nat) : list action := [Sub j ConsumeBegin; Sub j (SNext false); Sub j (SNext false)].
Definition consume (j : nat) : list action := consume_start j ++ [Sub j (Read (PByte 0)); Sub j ConsumeEnd].

(** One publisher with a queue of two messages.  The subscriber consumes the
    first message, then begins to consume the second, reads it after it has
    been overwritten, learns so, and consumes the last. *)
Definition slow_sched : list action :=
  NewSub :: acquire_pool 0 ++ write_publish 0 4096 7 ++ consume 0 ++
  acquire_pool 0 ++ write_publish 0 4160 8 ++ consume_start 0 ++
  acquire_queue 0 ++ write_publish 0 4096 9 ++ acquire_queue 0 ++ [Pub 0 (WriteByte 4160 0 10); Sub 0 (Read (PByte 0))] ++
  [Pub 0 (Publish 4160)] ++ replicate 5 (Pub 0 BNext) ++ [Sub 0 ConsumeEnd] ++ consume 0.

(** What is seen of the queue at the end of a schedule. *)
Definition outcome_of {A} (elt_sz elt_align : Z) (ndebug : bool) (threads : nat) (sched : list action) (f : lf_bcast -> A) : option A :=
  b0 <- lf_bcast_mem_init 2 elt_sz elt_align threads ;; b <- bcast_run ndebug b0 sched ;; Some (f b).

Lemma outcome_run {A} elt_sz elt_align ndebug threads sched (f : lf_bcast -> A) x : outcome_of elt_sz elt_align ndebug threads sched f = Some x ->
  exists b0 b, lf_bcast_mem_init 2 elt_sz elt_align threads = Some b0 /\ bcast_run ndebug b0 sched = Some b /\ f b = x.
Proof.
  unfold outcome_of. destruct (lf_bcast_mem_init 2 elt_sz elt_align threads) as [b0|]; [|done].
  destruct (bcast_run ndebug b0 sched) as [b|] eqn:E; [|done]. intros [= <-]. by exists b0, b.
Qed.

Lemma bcast_delivery_witness : exists b0 b s e,
  lf_bcast_mem_init 2 64 16 1 = Some b0 /\ bcast_run false b0 slow_sched = Some b /\ subs b !! 0%nat = Some s /\
  s_hist s = [Some [ObsByte 0 (Some 7)]; None; Some [ObsByte 0 (Some 9)]] /\ s_drops s = 1 /\
  entry_at b 3 = Some e /\ Forall (agrees e) [ObsByte 0 (Some 9)].
Proof.
  destruct (outcome_run 64 16 false 1 slow_sched (fun b => subs b)
    [mkSub SIdle 4 1 1 [Some [ObsByte 0 (Some 7)]; None; Some [ObsByte 0 (Some 9)]]]) as (b0&b&E0&E1&Es); [vm_compute; reflexivity|].
  destruct (bcast_delivery 2 64 16 1 false b0 slow_sched b ltac:(done) E0 E1 0%nat _ ltac:(by rewrite Es)) as (_&_&_&F).
  destruct (F 2%nat _ eq_refl) as (e&E&Fa). eexists b0, b, _, e. rewrite Es. by split_and!.
Defined.

Lemma bcast_buffers_witness : exists b0 b,
  lf_bcast_mem_init 2 64 16 1 = Some b0 /\ bcast_run false b0 slow_sched = Some b /\ queued b = [4096; 4160] /\
  exists e, entry_at b 4 = Some e /\ intact b e.
Proof.
  destruct (outcome_run 64 16 false 1 slow_sched (fun b => (queued b, head_idx b, published b)) ([4096; 4160], 3, 4))
    as (b0&b&E0&E1&Es); [vm_compute; reflexivity|]. injection Es as Eq Eh Ep.
  destruct (bcast_buffers 2 64 16 1 false b0 slow_sched b ltac:(done) E0 E1) as (_&_&_&_&_&F).
  destruct (F 4 ltac:(lia)) as (e&E&_&I). exists b0, b. split_and!; try done. by exists e.
Defined.

(** The assertion [head_idx == tail_cur.tag] of [lf_bcast_pub] can fail:
    a publisher loads the head index, others publish past it, and the slot of
    the tail index that it loads next has a later message than the head it
    remembers.  It aborts, although nothing is wrong with the queue; when
    assertions are compiled out it tries again and publishes. *)
Theorem bcast_pub_assert_fails :
  let sched := acquire_pool 0 ++ [Pub 0 (Publish 4096); Pub 0 BNext] ++ acquire_pool 1 ++ write_publish 1 4160 1 ++
    acquire_queue 1 ++ write_publish 1 4160 2 ++ acquire_queue 1 ++ write_publish 1 4160 3 ++ [Pub 0 BNext; Pub 0 BNext] in
  exists b0 b b', lf_bcast_mem_init 2 64 16 2 = Some b0 /\
    bcast_run false b0 sched = Some b /\ bpcs b = [BAborted; BIdle] /\
    bcast_run true b0 (sched ++ replicate 7 (Pub 0 BNext)) = Some b' /\ bpcs b' = [BIdle; BIdle] /\
    e_buf <$> blog b' = [4160; 4160; 4160; 4096].
Proof.
  intros sched.
  assert (outcome_of 64 16 false 2 sched (fun b => bpcs b) = Some [BAborted; BIdle]) as H1 by (vm_compute; reflexivity).
  assert (outcome_of 64 16 true 2 (sched ++ replicate 7 (Pub 0 BNext)) (fun b => (bpcs b, e_buf <$> blog b)) =
    Some ([BIdle; BIdle], [4160; 4160; 4160; 4096])) as H2 by (vm_compute; reflexivity).
  apply outcome_run in H1 as (b0&b&E0&E1&H1). apply outcome_run in H2 as (b0'&b'&E0'&E1'&H2).
  rewrite E0 in E0'. injection E0' as <-. injection H2 as H2 H3. exists b0, b, b'. by split_and!.
Qed.
