(* ===== verification/LfBcastLive.v ===== *)
(** * A publisher that runs alone gets its message into the queue

    From every reachable state, whatever other publishers left unfinished,
    [lf_bcast_pub] completes in a bounded number of its own accesses. *)
From S2P Require Import Prelude LfPool LfBcast LfBcastProps.
Local Open Scope Z_scope.

Section Alone.
Context (ndebug : bool) (i : nat).

(** [n] accesses of publisher [i]. *)
Definition alone (b : lf_bcast) (n : nat) : option lf_bcast := bcast_run ndebug b (replicate n (Pub i BNext)).

(** Where the publisher and its part of the pool stand. *)
Definition stands (b : lf_bcast) (pc : bpc) (t : pthread) : Prop :=
  bpcs b !! i = Some pc /\ pthreads (bpool b) !! i = Some t.

Lemma stands_pc b pc t pc' : stands b pc t -> stands (set_pc b i pc') pc' t.
Proof. intros [H1 H2]. split; [|done]. cbn. apply list_lookup_insert_eq. by eapply lookup_lt_Some. Qed.

Lemma stands_pool b pc t t' p : stands b pc t -> pthreads p = <[i := t']> (pthreads (bpool b)) -> stands (set_pool b p) pc t'.
Proof. intros [H1 H2] E. split; [done|]. cbn. rewrite E. apply list_lookup_insert_eq. by eapply lookup_lt_Some. Qed.

Lemma alone_next b pc t b' n : stands b pc t -> pub_next ndebug b i t pc = Some b' -> alone b (S n) = alone b' n.
Proof. intros [H1 H2] E. unfold alone. cbn [replicate bcast_run bcast_step]. by rewrite H1, H2, E. Qed.

Lemma alone_app b n m b' : alone b n = Some b' -> alone b (n + m) = alone b' m.
Proof.
  unfold alone. rewrite replicate_add. generalize (replicate n (Pub i BNext)) as s. intros s. revert b.
  induction s as [|a s IH]; intros b; cbn [app bcast_run]; [by intros [= ->]|]. destruct (bcast_step ndebug b a); [apply IH|done].
Qed.

(** The three loads at the start of a trial. *)
Lemma trial_loads b buf t n : stands b (PubHead buf) t ->
  alone b (3 + n) = alone (set_pc b i (pub_decide ndebug buf (head_idx b) (tail_idx b) (slot b (tail_idx b)))) n.
Proof.
  intros S. cbn [Nat.add].
  rewrite (alone_next _ _ _ _ _ S eq_refl). pose proof (stands_pc _ _ _ (PubTail buf (head_idx b)) S) as S1.
  rewrite (alone_next _ _ _ _ _ S1 eq_refl). pose proof (stands_pc _ _ _ (PubSlot buf (head_idx b) (tail_idx b)) S1) as S2.
  rewrite (alone_next _ _ _ _ _ S2 eq_refl). unfold set_pc. cbn. by rewrite !list_insert_insert_eq.
Qed.

(** The slot of the tail is taken: the tail is advanced. *)
Lemma trial_fix b buf t : stands b (PubHead buf) t -> rtag (slot b (tail_idx b)) = tail_idx b ->
  exists b', alone b 4 = Some b' /\ stands b' (PubHead buf) t /\ tail_idx b' = tail_idx b + 1 /\ blog b' = blog b.
Proof.
  intros S E. change 4%nat with (3 + 1)%nat. rewrite (trial_loads b buf t 1 S).
  unfold pub_decide. rewrite E, Z.eqb_refl. pose proof (stands_pc _ _ _ (PubFix buf (tail_idx b)) S) as S2.
  rewrite (alone_next _ _ _ _ 0 S2 eq_refl). eexists. split; [reflexivity|]. split; [|].
  - eapply stands_pc. unfold cas_tail. cbn. rewrite Z.eqb_refl. exact S2.
  - unfold cas_tail. cbn. by rewrite Z.eqb_refl.
Qed.

(** The slot is free: the message is put there. *)
Lemma trial_commit b buf t : stands b (PubHead buf) t -> rtag (slot b (tail_idx b)) < tail_idx b ->
  rtag (slot b (tail_idx b)) < head_idx b ->
  exists b' e, alone b 5 = Some b' /\ bpcs b' !! i = Some BIdle /\ blog b' = blog b ++ [e] /\ e_buf e = buf.
Proof.
  intros S H1 H2. change 5%nat with (3 + 2)%nat. rewrite (trial_loads b buf t 2 S). unfold pub_decide.
  rewrite (proj2 (Z.eqb_neq _ _)), (proj2 (Z.leb_gt _ _)), (proj2 (Z.leb_gt _ _)) by lia.
  pose proof (stands_pc _ _ _ (PubCas buf (tail_idx b) (slot b (tail_idx b))) S) as S1.
  rewrite (alone_next _ _ _ (set_pc (set_pool (commit (set_pc b i (PubCas buf (tail_idx b) (slot b (tail_idx b)))) (tail_idx b) buf)
    (pool_take (bpool b) i t buf)) i (PubBump (tail_idx b))) 1 S1).
  2: { cbn [pub_next]. by rewrite bool_decide_eq_true_2. }
  set (b1 := set_pc (set_pool _ _) _ _).
  assert (stands b1 (PubBump (tail_idx b)) (mkPThread (ppc t) (remove_one buf (pheld t)))) as S2.
  { eapply stands_pc, stands_pool; [|reflexivity]. exact S1. }
  rewrite (alone_next _ _ _ _ 0 S2 eq_refl). eexists _, _. split; [reflexivity|]. split; [|split].
  - refine (proj1 (stands_pc _ (PubBump (tail_idx b)) _ BIdle _)). unfold cas_tail. case_match; exact S2.
  - unfold cas_tail. by case_match.
  - done.
Qed.

(** Nothing but the pool and the publishers has changed. *)
Definition same_queue (b b' : lf_bcast) : Prop :=
  head_idx b' = head_idx b /\ tail_idx b' = tail_idx b /\ slots b' = slots b /\ depth_mask b' = depth_mask b /\ blog b' = blog b.

(** An access of the release of a dropped buffer. *)
Lemma drop_next b buf t p t' : stands b (PubDropRel buf) t -> pool_access (bpool b) i t = Some p ->
  pthreads p = <[i := t']> (pthreads (bpool b)) ->
  let pc' := match outcome (ppc t) (ppc t') with PRunning => PubDropRel buf | _ => PubHead buf end in
  exists b', alone b 1 = Some b' /\ stands b' pc' t' /\ bpool b' = p /\ same_queue b b'.
Proof.
  intros S E Et pc'. pose proof S as [_ Hi]. exists (set_pc (set_pool b p) i pc'). split.
  - rewrite (alone_next _ _ _ (set_pc (set_pool b p) i pc') 0 S); [done|]. cbn [pub_next]. unfold pool_next.
    rewrite E, Et, list_lookup_insert_eq; [done|]. by eapply lookup_lt_Some.
  - split; [by eapply stands_pc, stands_pool|]. by split_and!.
Qed.

(** The release of a dropped buffer by a publisher that runs alone. *)
Lemma drop_release b buf elt held : stands b (PubDropRel buf) (mkPThread (RelInc elt) held) ->
  exists b', alone b 4 = Some b' /\ stands b' (PubHead buf) (mkPThread PIdle held) /\ same_queue b b'.
Proof.
  intros S0.
  destruct (drop_next _ _ _ _ _ S0 eq_refl eq_refl) as (b1&E1&S1&P1&Q1). cbn [outcome ppc] in S1.
  destruct (drop_next _ _ _ _ _ S1 eq_refl eq_refl) as (b2&E2&S2&P2&Q2). cbn [outcome ppc] in S2.
  destruct (drop_next _ _ _ _ _ S2 eq_refl eq_refl) as (b3&E3&S3&P3&Q3). cbn [outcome ppc] in S3.
  assert (phead (bpool b3) = phead (bpool b1)) as Eh by (rewrite P3; cbn [set_pthread phead]; by rewrite P2).
  eassert (pool_access (bpool b3) i (mkPThread (RelCas elt _ (phead (bpool b1))) held) = Some _) as Ea
    by (cbn [pool_access ppc]; rewrite bool_decide_eq_true_2 by done; reflexivity).
  destruct (drop_next _ _ _ _ _ S3 Ea eq_refl) as (b4&E4&S4&P4&Q4).
  exists b4. split; [|split; [exact S4|unfold same_queue in *; intuition congruence]].
  etransitivity; [exact (alone_app b 1 3 b1 E1)|]. etransitivity; [exact (alone_app b1 1 2 b2 E2)|].
  etransitivity; [exact (alone_app b2 1 1 b3 E3)|exact E4].
Qed.

(** The queue is full: the head is dropped. *)
Lemma trial_drop b buf t : stands b (PubHead buf) t -> ppc t = PIdle -> rtag (slot b (tail_idx b)) < tail_idx b ->
  rtag (slot b (tail_idx b)) = head_idx b ->
  exists b', alone b 9 = Some b' /\ stands b' (PubHead buf) t /\ head_idx b' = head_idx b + 1 /\ tail_idx b' = tail_idx b /\
    slot b' (tail_idx b') = slot b (tail_idx b) /\ blog b' = blog b.
Proof.
  intros S Hidle H1 H2. change 9%nat with (3 + 6)%nat. rewrite (trial_loads b buf t 6 S). unfold pub_decide.
  rewrite (proj2 (Z.eqb_neq _ _)), (proj2 (Z.leb_gt _ _)) by lia. rewrite H2, Z.leb_refl, Z.eqb_refl, andb_false_r.
  pose proof (stands_pc _ _ _ (PubDropSlot buf (head_idx b)) S) as S1. rewrite (alone_next _ _ _ _ 5 S1 eq_refl).
  pose proof (stands_pc _ _ _ (PubDropCas buf (head_idx b) (slot b (head_idx b))) S1) as S2.
  set (b2 := set_pc _ i (PubDropCas _ _ _)) in S2.
  assert (exists b3, pub_next ndebug b2 i t (PubDropCas buf (head_idx b) (slot b (head_idx b))) = Some b3 /\
    stands b3 (PubDropRel buf) (mkPThread (RelInc (buf_at b (rval (slot b (head_idx b))))) (pheld t)) /\
    head_idx b3 = head_idx b + 1 /\ tail_idx b3 = tail_idx b /\ slots b3 = slots b /\ depth_mask b3 = depth_mask b /\
    blog b3 = blog b) as (b3&E3&S3&Q3).
  { cbn [pub_next b2 set_pc head_idx]. rewrite Z.eqb_refl. eexists. split; [reflexivity|]. split; [|done].
    eapply stands_pc, stands_pool; [|reflexivity]. exact S2. }
  change (set_pc (set_pc b i _) i _) with b2. rewrite (alone_next _ _ _ _ 4 S2 E3).
  destruct (drop_release _ _ _ _ S3) as (b4&E4&S4&Q4). exists b4. split; [done|]. destruct t as [pc held]. cbn in Hidle. subst pc.
  split; [exact S4|]. destruct Q3 as (Q31&Q32&Q33&Q34&Q35), Q4 as (Q41&Q42&Q43&Q44&Q45). split_and!; try congruence.
  unfold slot, slot_of. congruence.
Qed.

(** ** A whole publication *)

Section Reachable.
Context (k : Z) (all : list Z) (Hk : 0 <= k) (Nd : NoDup all).

(** A tail index that another publisher has left behind is advanced. *)
Lemma settle_tail b buf t : binv k all b -> stands b (PubHead buf) t ->
  exists n b', (n <= 4)%nat /\ alone b n = Some b' /\ stands b' (PubHead buf) t /\ tail_idx b' = published b' + 1 /\ blog b' = blog b.
Proof.
  intros ((es&l&C)&_&_) S. pose proof (co_tail _ _ _ _ _ C). pose proof (co_head _ _ _ _ _ C). pose proof (pow2_pos k Hk).
  destruct (decide (tail_idx b = published b + 1)); [by exists 0%nat, b; split_and!; [lia|..]|].
  destruct (trial_fix b buf t S) as (b'&E&S'&T'&Q').
  - rewrite (co_slots _ _ _ _ _ C) by lia. rewrite ref_tag; lia.
  - exists 4%nat, b'. split_and!; try done. unfold published in *. rewrite Q'. lia.
Qed.

(** A full queue loses its head. *)
Lemma make_room b buf t : binv k all b -> stands b (PubHead buf) t -> ppc t = PIdle -> tail_idx b = published b + 1 ->
  exists n b', (n <= 9)%nat /\ alone b n = Some b' /\ stands b' (PubHead buf) t /\
    rtag (slot b' (tail_idx b')) < tail_idx b' /\ rtag (slot b' (tail_idx b')) < head_idx b' /\ blog b' = blog b.
Proof.
  intros ((es&l&C)&_&_) S Hidle T. pose proof (slot_next k all Hk es l b C) as (N1&N2&_). rewrite <- T in N1, N2.
  destruct (decide (rtag (slot b (tail_idx b)) < head_idx b)); [by exists 0%nat, b; split_and!; [lia|..]|].
  destruct (trial_drop b buf t S Hidle N1) as (b'&E&S'&H'&T'&Sl&Q'); [lia|].
  exists 9%nat, b'. rewrite Sl. split_and!; try done; lia.
Qed.

Lemma publish_alone b buf t : binv k all b -> stands b (PubHead buf) t -> ppc t = PIdle ->
  exists n b' e, (n <= 18)%nat /\ alone b n = Some b' /\ bpcs b' !! i = Some BIdle /\ blog b' = blog b ++ [e] /\ e_buf e = buf.
Proof.
  intros I S Hidle. destruct (settle_tail b buf t I S) as (n1&b1&L1&E1&S1&T1&Q1).
  assert (binv k all b1) as I1 by (by eapply bcast_run_ok).
  destruct (make_room b1 buf t I1 S1 Hidle T1) as (n2&b2&L2&E2&S2&T2&H2&Q2).
  destruct (trial_commit b2 buf t S2 T2 H2) as (b3&e&E3&S3&Q3&He).
  exists (n1 + (n2 + 5))%nat, b3, e. split; [lia|]. rewrite (alone_app _ _ _ _ E1), (alone_app _ _ _ _ E2), Q3, Q2, Q1. by split_and!.
Qed.
End Reachable.
End Alone.

(** C24: Publishing cannot fail or be blocked: from every reachable state,
    whatever the other publishers have left unfinished, [lf_bcast_pub] called
    with a buffer of an idle publisher returns after at most 18 accesses of
    that publisher if it runs alone, with the message at the end of the log. *)
Theorem bcast_pub_completes depth elt_sz elt_align threads ndebug b0 sched b i t buf :
  LF_REF_SZ <= elt_sz -> lf_bcast_mem_init depth elt_sz elt_align threads = Some b0 ->
  bcast_run ndebug b0 sched = Some b ->
  bpcs b !! i = Some BIdle -> pthreads (bpool b) !! i = Some t -> buf ∈ pheld t ->
  exists n b' e, (n <= 18)%nat /\
    bcast_run ndebug b (Pub i (Publish buf) :: replicate n (Pub i BNext)) = Some b' /\
    bpcs b' !! i = Some BIdle /\ blog b' = blog b ++ [e] /\ e_buf e = buf.
Proof.
  intros _ Hinit Hrun Hpc Hi Hb. destruct (lf_bcast_mem_init_ok _ _ _ _ _ Hinit) as (k&Hk&_&Nd&I0).
  pose proof (bcast_run_ok k _ Hk Nd _ _ _ _ I0 Hrun) as I.
  assert (ppc t = PIdle) as Hidle.
  { destruct I as (_&P&_). destruct (P _ _ Hpc) as (_&t'&Ht&[Hm _]). by simplify_eq. }
  assert (bcast_step ndebug b (Pub i (Publish buf)) = Some (set_pc b i (PubHead buf))) as Es.
  { cbn [bcast_step pub_call]. by rewrite Hpc, Hi, bool_decide_eq_true_2. }
  destruct (publish_alone ndebug i k _ Hk Nd (set_pc b i (PubHead buf)) buf t) as (n&b'&e&Hn&E&Q).
  - by eapply bcast_step_ok.
  - eapply stands_pc. by split.
  - done.
  - exists n, b', e. split; [done|]. split; [|done]. cbn [bcast_run]. by rewrite Es.
Qed.

(** Another publisher has stopped between putting its
    message into the slot and advancing the tail. *)
Lemma bcast_pub_completes_witness : exists b0 b n b' e,
  lf_bcast_mem_init 2 64 16 2 = Some b0 /\
  bcast_run false b0 (acquire_pool 0 ++ acquire_pool 1 ++ [Pub 0 (Publish 4096)] ++ replicate 4 (Pub 0 BNext)) = Some b /\
  bpcs b = [PubBump 1; BIdle] /\ tail_idx b = published b /\ (n <= 18)%nat /\
  bcast_run false b (Pub 1 (Publish 4160) :: replicate n (Pub 1 BNext)) = Some b' /\ blog b' = blog b ++ [e].
Proof.
  destruct (outcome_run 64 16 false 2 (acquire_pool 0 ++ acquire_pool 1 ++ [Pub 0 (Publish 4096)] ++ replicate 4 (Pub 0 BNext))
    (fun b => (bpcs b, tail_idx b, published b, pthreads (bpool b)))
    ([PubBump 1; BIdle], 1, 1, [mkPThread PIdle []; mkPThread PIdle [4160]])) as (b0&b&E0&E1&Es); [vm_compute; reflexivity|].
  injection Es as Hp Ht Hn Hth.
  destruct (bcast_pub_completes 2 64 16 2 false b0 _ b 1 (mkPThread PIdle [4160]) 4160 ltac:(done) E0 E1) as (n&b'&e&Hn'&E&_&Q&_).
  - by rewrite Hp.
  - by rewrite Hth.
  - by apply list_elem_of_singleton.
  - exists b0, b, n, b', e. split_and!; try done. by rewrite Ht, Hn.
Defined.
