(* ===== verification/Ipcshm.v ===== *)
(** * The shared-memory transport (zcm/transport/transport_ipcshm.cpp)

    The options of the URL, what [sendmsg] writes to a buffer of the broadcast
    queue and what [recvmsg] makes of what it reads.  The buffer is shared and
    may change while it is read, so [recvmsg] is a function of the bytes it
    happened to see; [LfBcastProps] says when these are the published ones.
    The size of a [size_t] is 64 bits; opening the shared-memory file is left
    out. *)
From S2P Require Import Prelude Bytes Transport LfPool LfBcast LfBcastProps.
Local Open Scope Z_scope.

Definition DEFAULT_MSG_PAYLOAD_SZ : Z := 4096.
Definition DEFAULT_DEPTH : Z := 128.

(** [sizeof(Msg)], its alignment, and the offsets of its members. *)
Definition MSG_SZ : Z := 256.
Definition MSG_ALIGN : Z := 256.
Definition CHANNEL_OFF : nat := 8.
Definition CHANNEL_SZ : nat := S ZCM_CHANNEL_MAXLEN.
Definition PAYLOAD_OFF : nat := 256.

(** ** Options *)

(** The loop of [parse_u64]. *)
Fixpoint parse_digits (s : cstr) (num : Z) : option Z :=
  match s with
  | [] => Some num
  | c :: s =>
      if negb ((48 <=? c) && (c <=? 57)) then None else
      let next_num := wrapu 64 (10 * num + (c - 48)) in
      if next_num <? num then None else parse_digits s next_num
  end.

Definition parse_u64 (s : cstr) : option Z := parse_digits s 0.

Record config := mkConfig { msg_payload_sz : Z; queue_depth : Z; mlock : bool }.

Definition default_config : config := mkConfig DEFAULT_MSG_PAYLOAD_SZ DEFAULT_DEPTH true.

Definition apply_opt (c : config) (opt : cstr * cstr) : config :=
  let c := if bool_decide (opt.1 = str "mtu") then
             match parse_u64 opt.2 with Some v => mkConfig v (queue_depth c) (mlock c) | None => c end
           else c in
  let c := if bool_decide (opt.1 = str "depth") then
             match parse_u64 opt.2 with Some v => mkConfig (msg_payload_sz c) v (mlock c) | None => c end
           else c in
  if bool_decide (opt.1 = str "mlock") then
    match parse_u64 opt.2 with
    | Some v => if v =? 0 then mkConfig (msg_payload_sz c) (queue_depth c) false else c
    | None => c
    end
  else c.

Definition configure (opts : list (cstr * cstr)) : config := fold_left apply_opt opts default_config.

(** The size of a buffer. *)
Definition msg_maxsz (c : config) : Z := wrapu 64 (LF_ALIGN_UP (MSG_SZ + msg_payload_sz c) MSG_ALIGN).

(** The size of the region, rounded up to pages.  [None]: the footprint is
    refused, its result is not looked at, and [region_size] is indeterminate. *)
Definition region_size (c : config) (page_size : Z) : option Z :=
  '(size, _) <- lf_bcast_footprint (queue_depth c) (msg_maxsz c) MSG_ALIGN ;;
  Some (wrapu 64 (LF_ALIGN_UP size page_size)).

(** ** Messages *)

(** The buffer behind the three copies of [sendmsg]. *)
Definition fill (img : list byte) (msg : zcm_msg_t) : list byte :=
  let img := write_at img 0 (le_split 8 (len msg)) in
  let img := write_at img CHANNEL_OFF (channel msg ++ [0]) in
  write_at img PAYLOAD_OFF (buf msg).

Inductive send_result := SendCode (code : Z) | SendAbort | SendPublish (img : list byte).

(** [acquired] is the buffer that [lf_bcast_buf_acquire] gives. *)
Definition ipcshm_sendmsg (c : config) (acquired : option (list byte)) (msg : zcm_msg_t) : send_result :=
  if msg_payload_sz c <? len msg then SendCode ZCM_EINVALID
  else if Z.of_nat CHANNEL_SZ <=? Z.of_nat (length (channel msg)) then SendCode ZCM_EINVALID
  else match acquired with
       | None => SendAbort
       | Some img => SendPublish (fill img msg)
       end.

(** [vol] is what was read of the buffer, or nothing if no message came. *)
Definition ipcshm_recvmsg (c : config) (now : Z) (vol : option (list byte)) (ref_valid : bool) : Z * option zcm_msg_t :=
  match vol with
  | None => (ZCM_EAGAIN, None)
  | Some vol =>
      let size := le_combine (slice vol 0 8) in
      if msg_payload_sz c <? size then (ZCM_EAGAIN, None) else
      let channel := slice vol CHANNEL_OFF CHANNEL_SZ in
      let payload := slice vol PAYLOAD_OFF (Z.to_nat size) in
      let channel_valid := existsb (fun b => b =? 0) channel in
      if negb (ref_valid && channel_valid) then (ZCM_EAGAIN, None)
      else (ZCM_EOK, Some (mkMsg now (cstring channel) size payload))
  end.

(** ** What is read of a buffer *)

(** The bytes of a published buffer, [n] of them behind the first 16. *)
Definition image_of (e : entry) (n : nat) : list byte :=
  le_split 8 (rval (e_first e)) ++ le_split 8 (rtag (e_first e)) ++
  ((fun k => default 0 (e_body e !! (e_buf e, k))) <$> seq 0 n).

Fixpoint seen_first (seen : list obs) : option lf_ref :=
  match seen with
  | [] => None
  | ObsFirst r :: _ => Some r
  | _ :: seen => seen_first seen
  end.

Fixpoint seen_byte (seen : list obs) (k : nat) : option Z :=
  match seen with
  | [] => None
  | ObsByte k' v :: seen => if (k' =? k)%nat then Some (default 0 v) else seen_byte seen k
  | _ :: seen => seen_byte seen k
  end.

(** The bytes that a subscriber has copied; those it has not read are zero. *)
Definition copied (seen : list obs) (n : nat) : list byte :=
  let r := default LF_REF_NULL (seen_first seen) in
  le_split 8 (rval r) ++ le_split 8 (rtag r) ++ ((fun k => default 0 (seen_byte seen k)) <$> seq 0 n).

(** It has read what [recvmsg] copies: the size, the channel and the payload. *)
Definition reads_all (seen : list obs) (size : nat) : Prop :=
  is_Some (seen_first seen) /\
  (forall k, (k + 16 < CHANNEL_OFF + CHANNEL_SZ)%nat -> is_Some (seen_byte seen k)) /\
  (forall k, (PAYLOAD_OFF <= k + 16 < PAYLOAD_OFF + size)%nat -> is_Some (seen_byte seen k)).

(** ** Lemmas *)

Lemma seen_first_agrees e seen r : Forall (agrees e) seen -> seen_first seen = Some r -> r = e_first e.
Proof. induction 1 as [|o seen Ho _ IH]; [done|]. destruct o; cbn in *; [by intros [= <-]|exact IH]. Qed.

Lemma seen_byte_agrees e seen k v : Forall (agrees e) seen -> seen_byte seen k = Some v -> v = default 0 (e_body e !! (e_buf e, k)).
Proof.
  induction 1 as [|o seen Ho _ IH]; [done|]. destruct o as [r|k' v']; cbn in *; [exact IH|].
  destruct (Nat.eqb_spec k' k) as [->|]; [|exact IH]. intros [= <-]. by rewrite Ho.
Qed.

Lemma lookup_image (r : lf_ref) (f : nat -> byte) n i :
  (le_split 8 (rval r) ++ le_split 8 (rtag r) ++ (f <$> seq 0 n)) !! i =
  if (i <? 16)%nat then (le_split 8 (rval r) ++ le_split 8 (rtag r)) !! i
  else if (i - 16 <? n)%nat then Some (f (i - 16)%nat) else None.
Proof.
  rewrite app_assoc. destruct (Nat.ltb_spec i 16); [by rewrite lookup_app_l|]. rewrite lookup_app_r by done.
  rewrite list_lookup_fmap. change (length _) with 16%nat. destruct (Nat.ltb_spec (i - 16) n).
  - by rewrite lookup_seq_lt.
  - by rewrite lookup_seq_ge.
Qed.

(** What was read agrees with what was published. *)
Lemma copied_lookup e seen n i : Forall (agrees e) seen -> is_Some (seen_first seen) ->
  ((16 <= i)%nat -> is_Some (seen_byte seen (i - 16))) -> copied seen n !! i = image_of e n !! i.
Proof.
  intros F [r Hr] Hb. unfold copied, image_of. rewrite !lookup_image, Hr. cbn [default from_option id].
  rewrite (seen_first_agrees _ _ _ F Hr). destruct (Nat.ltb_spec i 16); [done|].
  destruct (Hb ltac:(lia)) as [v Hv]. rewrite Hv. cbn [default from_option id]. by rewrite (seen_byte_agrees _ _ _ _ F Hv).
Qed.

Lemma slice_agree (l l' : list byte) pos n : (forall i, (pos <= i < pos + n)%nat -> l !! i = l' !! i) -> slice l pos n = slice l' pos n.
Proof.
  intros H. apply list_eq. intros i. unfold slice. destruct (decide (i < n)%nat).
  - rewrite !lookup_take_lt, !lookup_drop by lia. apply H. lia.
  - by rewrite !lookup_take_ge by lia.
Qed.

Lemma slice_write_after img pos bs p n : (pos + length bs <= length img)%nat -> (p + n <= pos)%nat ->
  slice (write_at img pos bs) p n = slice img p n.
Proof. intros H1 H2. apply slice_agree. intros i Hi. apply lookup_write_at_ne; [done|lia]. Qed.

Lemma existsb_terminator s rest : existsb (fun b => b =? 0) (s ++ 0 :: rest) = true.
Proof. rewrite existsb_app. cbn. by rewrite orb_true_r. Qed.

Lemma length_cstring block : existsb (fun b => b =? 0) block = true -> (length (cstring block) < length block)%nat.
Proof.
  induction block as [|b block IH]; [done|]. cbn. destruct (b =? 0); cbn; [lia|]. intros H. specialize (IH H). lia.
Qed.

(** ** Parsing numbers *)

(** The value of a string of digits. *)
Definition digits_value (s : cstr) (num : Z) : Z := fold_left (fun n c => 10 * n + (c - 48)) s num.

Lemma digits_value_ge s num : Forall (fun c => 48 <= c <= 57) s -> 0 <= num -> num <= digits_value s num.
Proof.
  intros F. revert num. induction F as [|c s Hc _ IH]; intros num Hn; cbn; [lia|]. specialize (IH (10 * num + (c - 48)) ltac:(lia)).
  unfold digits_value in *. lia.
Qed.

(** Numbers that fit are read exactly. *)
Lemma parse_digits_exact s num : Forall (fun c => 48 <= c <= 57) s -> 0 <= num -> digits_value s num < 2 ^ 64 ->
  parse_digits s num = Some (digits_value s num).
Proof.
  intros F. revert num. induction F as [|c s Hc Fs IH]; intros num Hn Hv; cbn [parse_digits digits_value fold_left]; [done|].
  rewrite (proj2 (Z.leb_le 48 c)), (proj2 (Z.leb_le c 57)) by lia. cbn [andb negb].
  pose proof (digits_value_ge s (10 * num + (c - 48)) Fs ltac:(lia)) as G. cbn [digits_value fold_left] in Hv.
  fold (digits_value s (10 * num + (c - 48))) in Hv.
  rewrite wrapu_id by (unfold in_u; lia). rewrite (proj2 (Z.ltb_ge _ _)) by lia. by apply IH; [lia|].
Qed.

(** The overflow check misses products that wrap around to something larger. *)
Lemma parse_u64_wraps : parse_u64 (str "30000000000000000000") = Some 11553255926290448384.
Proof. vm_compute. reflexivity. Qed.

(** A depth that is not a power of two is not refused where it is read. *)
Lemma region_size_indeterminate : region_size (configure [(str "depth", str "100")]) 4096 = None.
Proof. vm_compute. reflexivity. Qed.

(** ** Sending and receiving *)

(** A message as an application hands it over. *)
Definition msg_fits (c : config) (msg : zcm_msg_t) : Prop :=
  cstr_ok (channel msg) /\ (length (channel msg) <= ZCM_CHANNEL_MAXLEN)%nat /\ len msg = Z.of_nat (length (buf msg)) /\
  len msg <= msg_payload_sz c.

(** What [recvmsg] looks at in a filled buffer. *)
Lemma fill_slices img msg : Z.of_nat PAYLOAD_OFF + len msg <= Z.of_nat (length img) -> (length (channel msg) <= ZCM_CHANNEL_MAXLEN)%nat ->
  len msg = Z.of_nat (length (buf msg)) ->
  slice (fill img msg) 0 8 = le_split 8 (len msg) /\
  (exists rest, slice (fill img msg) CHANNEL_OFF CHANNEL_SZ = channel msg ++ 0 :: rest) /\
  slice (fill img msg) PAYLOAD_OFF (Z.to_nat (len msg)) = buf msg.
Proof.
  intros Hi Hc Hb. unfold PAYLOAD_OFF, CHANNEL_SZ, CHANNEL_OFF, ZCM_CHANNEL_MAXLEN in *. unfold fill, PAYLOAD_OFF, CHANNEL_OFF.
  set (A := le_split 8 (len msg)). set (B := channel msg ++ [0]). set (img1 := write_at img 0 A). set (img2 := write_at img1 8 B).
  assert (length A = 8%nat) as LA by done.
  assert (length B = S (length (channel msg))) as LB by (unfold B; rewrite length_app; cbn; lia).
  assert (length img1 = length img) as L1 by (apply length_write_at; lia).
  assert (length img2 = length img) as L2 by (unfold img2; rewrite length_write_at; lia).
  split_and!.
  - rewrite slice_write_after by lia. unfold img2. rewrite slice_write_after by lia. rewrite <- LA at 1. apply slice_write_at. lia.
  - rewrite slice_write_after by lia. replace 33%nat with (length B + (33 - length B))%nat by lia.
    rewrite slice_app. unfold img2 at 1. rewrite slice_write_at by lia. unfold B at 1. rewrite <- app_assoc. eexists. reflexivity.
  - rewrite Hb, Nat2Z.id. apply slice_write_at. lia.
Qed.

Lemma recvmsg_fill c now img msg : msg_fits c msg -> Z.of_nat PAYLOAD_OFF + len msg <= Z.of_nat (length img) -> len msg < 2 ^ 64 ->
  ipcshm_recvmsg c now (Some (fill img msg)) true = (ZCM_EOK, Some (mkMsg now (channel msg) (len msg) (buf msg))).
Proof.
  intros (Hc&Hl&Hb&Hm) Hi H64. destruct (fill_slices img msg Hi Hl Hb) as (E1&[rest E2]&E3).
  unfold ipcshm_recvmsg. rewrite E1, le_combine_split, Z.mod_small by (change (256 ^ Z.of_nat 8) with (2 ^ 64); lia).
  rewrite (proj2 (Z.ltb_ge _ _)) by done. rewrite E2, E3, existsb_terminator. cbn [andb negb]. by rewrite cstring_app.
Qed.

(** [recvmsg] depends on nothing but what it copies. *)
Lemma recvmsg_slices c now vol vol' valid : slice vol 0 8 = slice vol' 0 8 ->
  slice vol CHANNEL_OFF CHANNEL_SZ = slice vol' CHANNEL_OFF CHANNEL_SZ ->
  slice vol PAYLOAD_OFF (Z.to_nat (le_combine (slice vol' 0 8))) = slice vol' PAYLOAD_OFF (Z.to_nat (le_combine (slice vol' 0 8))) ->
  ipcshm_recvmsg c now (Some vol) valid = ipcshm_recvmsg c now (Some vol') valid.
Proof. intros E1 E2 E3. unfold ipcshm_recvmsg. by rewrite E1, E2, E3. Qed.

(** C22: A message that [sendmsg] accepted and published in shared memory under
    some index is received unchanged by every [recvmsg] that consumed that index
    and found it valid, whatever other senders and receivers did meanwhile and
    whatever the buffer held before. *)
Theorem ipcshm_delivery c depth threads ndebug b0 sched b j s n seen e img msg now :
  let room := (Z.to_nat (msg_maxsz c) - 16)%nat in
  lf_bcast_mem_init depth (msg_maxsz c) MSG_ALIGN threads = Some b0 -> bcast_run ndebug b0 sched = Some b ->
  msg_fits c msg -> Z.of_nat PAYLOAD_OFF + len msg <= Z.of_nat (length img) -> len msg < 2 ^ 64 ->
  entry_at b (s_start s + Z.of_nat n) = Some e -> ipcshm_sendmsg c (Some img) msg = SendPublish (image_of e room) ->
  subs b !! j = Some s -> s_hist s !! n = Some (Some seen) -> reads_all seen (Z.to_nat (len msg)) ->
  ipcshm_recvmsg c now (Some (copied seen room)) true = (ZCM_EOK, Some (mkMsg now (channel msg) (len msg) (buf msg))).
Proof.
  intros room Hinit Hrun Hfit Hroom H64 He Hsend Hj Hn (Rf&Rc&Rp).
  assert (image_of e room = fill img msg) as Ei.
  { destruct Hfit as (_&Hl&_&Hm). unfold ipcshm_sendmsg in Hsend. rewrite (proj2 (Z.ltb_ge _ _)) in Hsend by done.
    rewrite (proj2 (Z.leb_gt _ _)) in Hsend by (unfold CHANNEL_SZ; lia). symmetry. exact (f_equal (fun r => match r with SendPublish x => x | _ => [] end) Hsend). }
  destruct (lf_bcast_mem_init_ok _ _ _ _ _ Hinit) as (k&Hk&_&Nd&I). pose proof (bcast_run_ok k _ Hk Nd _ _ _ _ I Hrun) as (_&_&S).
  rewrite Forall_lookup in S. destruct (su_hist _ _ (S _ _ Hj) _ _ Hn) as (e'&He'&F). rewrite He in He'. injection He' as <-.
  pose proof Hfit as (_&Hl&Hb&_). destruct (fill_slices img msg Hroom Hl Hb) as (E1&_&E3).
  rewrite <- (recvmsg_fill c now img msg) by done. rewrite <- Ei.
  assert (le_combine (slice (image_of e room) 0 8) = len msg) as Es.
  { rewrite Ei, E1, le_combine_split, Z.mod_small; [done|]. change (256 ^ Z.of_nat 8) with (2 ^ 64). lia. }
  apply recvmsg_slices; [| |rewrite Es]; apply slice_agree; intros i Hi; apply copied_lookup; try done; intros H16.
  - lia.
  - apply Rc. lia.
  - apply Rp. lia.
Qed.

(** A message of two bytes on channel "a" crosses a queue of two buffers. *)
Definition small_config : config := mkConfig 2 2 true.
Definition small_msg : zcm_msg_t := mkMsg 0 (str "a") 2 [7; 8].
Definition small_sched : list action :=
  NewSub :: acquire_pool 0 ++
  [Pub 0 (WriteFirst 4096 (mkRef 97 2)); Pub 0 (WriteByte 4096 240 7); Pub 0 (WriteByte 4096 241 8); Pub 0 (Publish 4096)] ++
  replicate 5 (Pub 0 BNext) ++ consume_start 0 ++
  Sub 0 (Read PFirst) :: ((fun k => Sub 0 (Read (PByte k))) <$> seq 0 25 ++ [240; 241]%nat) ++ [Sub 0 ConsumeEnd].

Lemma ipcshm_delivery_witness : exists b0 b s seen,
  lf_bcast_mem_init 2 512 MSG_ALIGN 1 = Some b0 /\ bcast_run false b0 small_sched = Some b /\ subs b = [s] /\
  s_hist s = [Some seen] /\
  ipcshm_recvmsg small_config 5 (Some (copied seen 496)) true = (ZCM_EOK, Some (mkMsg 5 (str "a") 2 [7; 8])).
Proof.
  pose (seen := ObsFirst (mkRef 97 2) :: ((fun k => ObsByte k None) <$> seq 0 25) ++ [ObsByte 240 (Some 7); ObsByte 241 (Some 8)]).
  pose (s := mkSub SIdle 2 0 1 [Some seen]).
  pose (e := mkEntry 4096 (mkRef 97 2) (<[(4096, 241%nat) := 8]> (<[(4096, 240%nat) := 7]> ∅))).
  destruct (outcome_run 512 MSG_ALIGN false 1 small_sched (fun b => (subs b, blog b)) ([s], [e])) as (b0&b&E0&E1&Es);
    [vm_compute; reflexivity|]. injection Es as Es Ee. exists b0, b, s, seen.
  split; [done|]. split; [done|]. split; [done|]. split; [done|].
  apply (ipcshm_delivery small_config 2 1 false b0 small_sched b 0 s 0 seen e (replicate 512 0) small_msg 5 E0 E1).
  - split_and!; [repeat constructor; done|by apply Nat.leb_le|done|vm_compute; discriminate].
  - vm_compute. discriminate.
  - vm_compute. reflexivity.
  - unfold entry_at. by rewrite Ee.
  - vm_compute. reflexivity.
  - by rewrite Es.
  - done.
  - split; [by eexists|]. split.
    + intros k Hk. assert (k < 25)%nat as Hk' by (unfold CHANNEL_OFF, CHANNEL_SZ, ZCM_CHANNEL_MAXLEN in Hk; lia).
      clear Hk. do 25 (destruct k as [|k]; [by eexists|]). lia.
    + intros k Hk. assert (k = 240 \/ k = 241)%nat as [->| ->]; [unfold PAYLOAD_OFF in Hk; cbn in Hk; lia|by eexists..].
Defined.
