(* ===== verification/Url.v ===== *)
(** * URLs, the transport registry and the return codes
      (zcm/url.cpp, zcm/transport_registrar.c, util/StringUtil.hpp, zcm/zcm.c) *)
From S2P Require Import Prelude Bytes Transport.

(** ** Strings *)

Definition ch (s : string) : byte := default 0%Z (head (str s)).

(** [std::string::find] *)
Fixpoint prefix_of (pat s : cstr) : bool :=
  match pat, s with
  | [], _ => true
  | p :: pat, c :: s => (p =? c)%Z && prefix_of pat s
  | _, [] => false
  end.

Fixpoint find (pat s : cstr) : option nat :=
  if prefix_of pat s then Some 0 else
  match s with
  | [] => None
  | _ :: s => S <$> find pat s
  end.

(** The loop of getline calls in [split]: the token read so far is in [tok]; the
    stream fails when it ends before a first character. *)
Fixpoint getlines (delimiter : byte) (s tok : cstr) (started : bool) : list cstr :=
  match s with
  | [] => if started then [tok] else []
  | c :: s =>
      if (c =? delimiter)%Z then tok :: getlines delimiter s [] false
      else getlines delimiter s (tok ++ [c]) true
  end.

Definition split (s : cstr) (delimiter : byte) : list cstr :=
  getlines delimiter s [] false ++
  match last s with
  | Some c => if (c =? delimiter)%Z then [[]] else []
  | None => []
  end.

(** [StringUtil::join] with a character *)
Fixpoint join (vec : list cstr) (sep : byte) : cstr :=
  match vec with
  | [] => []
  | [s] => s
  | s :: vec => s ++ [sep] ++ join vec sep
  end.

(** ** URLs *)

Record Opt := mkOpt { key : cstr; val : cstr }.

Definition opt_parse (s : cstr) : Opt :=
  match find [ch "="] s with
  | None => mkOpt s []
  | Some sep => mkOpt (take sep s) (drop (sep + 1) s)
  end.

Record zcm_url := mkUrl { protocol : cstr; address : cstr; opts : list Opt }.

Definition url_parse (url : cstr) : zcm_url :=
  match find (str "://") url with
  | None => mkUrl url [] []
  | Some sep =>
      let protocol := take sep url in
      let rest := drop (sep + 3) url in
      match find [ch "?"] rest with
      | None => mkUrl protocol rest []
      | Some sep => mkUrl protocol (take sep rest) (opt_parse <$> split (drop (sep + 1) rest) (ch "&"))
      end
  end.

Definition ZCM_OPTS_MAX : nat := 128.

Definition zcm_url_opts (u : zcm_url) : list (cstr * cstr) :=
  (fun o => (key o, val o)) <$> take ZCM_OPTS_MAX (opts u).

(** ** The registry *)

Section Registry.
Context {C : Type}.

Definition ZCM_TRANSPORTS_MAX : nat := 128.

(** The tables [t_name], [t_desc] and [t_creator] up to [t_index]. *)
Record entry := mkEntry { t_name : cstr; t_desc : cstr; t_creator : C }.

Fixpoint zcm_transport_find (t : list entry) (name : cstr) : option C :=
  match t with
  | [] => None
  | e :: t => if bool_decide (t_name e = name) then Some (t_creator e) else zcm_transport_find t name
  end.

Fixpoint registered (t : list entry) (name : cstr) : bool :=
  match t with
  | [] => false
  | e :: t => if bool_decide (t_name e = name) then true else registered t name
  end.

Definition zcm_transport_register (t : list entry) (name desc : cstr) (creator : C) : list entry * bool :=
  if ZCM_TRANSPORTS_MAX <=? length t then (t, false)
  else if registered t name then (t, false)
  else (t ++ [mkEntry name desc creator], true).

(** ** [zcm_init]: the URL, or that of the environment, chosen by its protocol.
    The creator gives the transport or nothing; [init] is zcm_init_from_trans. *)
Context {Z' : Type} (call : C -> zcm_url -> option Z') (init : Z' -> Z).

Definition zcm_init (t : list entry) (getenv : option cstr) (url : option cstr) : Z :=
  let url := match url with Some (c :: s) => Some (c :: s) | _ => getenv end in
  match url with
  | None => ZCM_EUNKNOWN
  | Some url =>
      let u := url_parse url in
      match zcm_transport_find t (protocol u) with
      | Some creator =>
          match call creator u with
          | Some trans => init trans
          | None => ZCM_ECONNECT
          end
      | None => ZCM_ECONNECT
      end
  end.
End Registry.
Arguments entry : clear implicits.

(** ** Return codes *)

Definition return_codes : list (string * Z * string) :=
  [("ZCM_EOK", ZCM_EOK, "Okay, no errors"); ("ZCM_EINVALID", ZCM_EINVALID, "Invalid arguments");
   ("ZCM_EAGAIN", ZCM_EAGAIN, "Resource unavailable, try again");
   ("ZCM_ECONNECT", ZCM_ECONNECT, "Transport connection failed");
   ("ZCM_EINTR", ZCM_EINTR, "Operation was unexpectedly interrupted");
   ("ZCM_EUNKNOWN", ZCM_EUNKNOWN, "Unknown error"); ("ZCM_EMEMORY", ZCM_EMEMORY, "Out of memory");
   ("ZCM_EUNIMPL", ZCM_EUNIMPL, "Function is not implemented");
   ("ZCM_NUM_RETURN_CODES", ZCM_NUM_RETURN_CODES, "Invalid return code")]%string.

Definition errcode_str : list string := snd <$> return_codes.

Definition zcm_strerrno (err : Z) : option string :=
  let err := if (ZCM_NUM_RETURN_CODES <=? wrapu 32 err)%Z then ZCM_NUM_RETURN_CODES else err in
  errcode_str !! Z.to_nat (wrapu 32 err).

Definition zcm_retcode_name_to_enum (name : string) : Z :=
  match list_find (fun x => x.1.1 = name) return_codes with
  | Some (_, x) => x.1.2
  | None => ZCM_NUM_RETURN_CODES
  end.

(** ** Lemmas *)

Lemma getlines_token d s t tok b : d ∉ t ->
  getlines d (t ++ d :: s) tok b = (tok ++ t) :: getlines d s [] false.
Proof.
  revert tok b. induction t as [|c t IH]; intros tok b H; simpl.
  - by rewrite Z.eqb_refl, app_nil_r.
  - rewrite (proj2 (Z.eqb_neq c d)) by set_solver. rewrite IH by set_solver. by rewrite <- app_assoc.
Qed.

Lemma getlines_end d t tok b : d ∉ t ->
  getlines d t tok b = match t with [] => if b then [tok] else [] | _ => [tok ++ t] end.
Proof.
  revert tok b. induction t as [|c t IH]; intros tok b H; simpl; [done|].
  rewrite (proj2 (Z.eqb_neq c d)) by set_solver. rewrite IH by set_solver.
  destruct t; [done|]. by rewrite <- app_assoc.
Qed.

Lemma last_join d ts t : last (join (ts ++ [t]) d) =
  match last t with Some c => Some c | None => match ts with [] => None | _ => Some d end end.
Proof.
  induction ts as [|s ts IH]; simpl; [by destruct (last t)|].
  destruct (ts ++ [t]) as [|x l] eqn:E; [by destruct ts|]. rewrite <- E in *.
  assert (s ++ d :: join (ts ++ [t]) d = (s ++ [d]) ++ join (ts ++ [t]) d) as -> by (by rewrite <- app_assoc).
  rewrite last_app, IH. destruct (last t); [done|]. destruct ts; [|done]. by rewrite last_snoc.
Qed.

Lemma getlines_join d ts t : Forall (fun s => d ∉ s) ts -> d ∉ t ->
  getlines d (join (ts ++ [t]) d) [] false = ts ++ (match t with [] => [] | _ => [t] end).
Proof.
  intros F Ht. induction F as [|s ts Hs F IH]; simpl; [by rewrite getlines_end|].
  destruct (ts ++ [t]) as [|x l] eqn:E; [by destruct ts|]. rewrite <- E in *.
  rewrite getlines_token by done. by rewrite IH.
Qed.

(** Splitting what was joined gives the tokens back. *)
Lemma split_join d ts : ts <> [] -> ts <> [[]] -> Forall (fun s => d ∉ s) ts -> split (join ts d) d = ts.
Proof.
  intros Hne Hn F. destruct (exists_last Hne) as (l&t&->). apply Forall_app in F as [F Ft].
  apply Forall_cons in Ft as [Ft _]. unfold split. rewrite getlines_join, last_join by done.
  destruct t as [|c t] using rev_ind; simpl; [|rewrite last_snoc].
  - destruct l; [done|]. rewrite Z.eqb_refl. by rewrite app_nil_r.
  - rewrite (proj2 (Z.eqb_neq c d)) by set_solver. destruct (t ++ [c]) eqn:E; [by destruct t|]. by rewrite app_nil_r.
Qed.

(** Joining what was split gives the string back. *)
Lemma getlines_joined d s : forall tok b,
  let l := getlines d s tok b ++ match last s with Some c => if (c =? d)%Z then [[]] else [] | None => [] end in
  join l d = (match s with [] => if b then tok else [] | _ => tok ++ s end) /\ (s <> [] -> l <> []).
Proof.
  induction s as [|c s IH]; intros tok b; simpl; [by destruct b|].
  destruct (c =? d)%Z eqn:E; bool_prop.
  - subst c. destruct (IH [] false) as [IH1 IH2]. destruct s as [|c' s].
    + simpl. rewrite Z.eqb_refl. done.
    + split; [|done]. cbn [app]. rewrite last_cons_cons.
      remember (getlines d (c' :: s) [] false ++ _) as l eqn:El. specialize (IH2 ltac:(done)).
      destruct l as [|x l]; [done|].
      change (tok ++ [d] ++ join (x :: l) d = tok ++ d :: c' :: s). by rewrite IH1.
  - destruct (IH (tok ++ [c]) true) as [IH1 IH2]. destruct s as [|c' s].
    + simpl in *. rewrite (proj2 (Z.eqb_neq c d)) by done. done.
    + rewrite last_cons_cons. split; [|intros _; by apply IH2]. rewrite IH1. by rewrite <- app_assoc.
Qed.

Lemma join_split d s : join (split s d) d = s.
Proof. unfold split. destruct (getlines_joined d s [] false) as [H _]. rewrite H. by destruct s. Qed.

Lemma find_char c s t : c ∉ s -> find [c] (s ++ c :: t) = Some (length s).
Proof.
  induction s as [|x s IH]; intros H; simpl; [by rewrite Z.eqb_refl|].
  rewrite (proj2 (Z.eqb_neq c x)) by set_solver. simpl. rewrite IH by set_solver. done.
Qed.

Lemma find_char_None c s : c ∉ s -> find [c] s = None.
Proof.
  induction s as [|x s IH]; intros H; simpl; [done|].
  rewrite (proj2 (Z.eqb_neq c x)) by set_solver. simpl. by rewrite IH by set_solver.
Qed.

Lemma prefix_of_app pat s : prefix_of pat (pat ++ s) = true.
Proof. induction pat; simpl; [done|]. by rewrite Z.eqb_refl. Qed.

(** A pattern is found behind a string that lacks its first character. *)
Lemma find_pattern c pat s t : c ∉ s -> find (c :: pat) (s ++ c :: pat ++ t) = Some (length s).
Proof.
  induction s as [|x s IH]; intros H; simpl.
  - by rewrite Z.eqb_refl, prefix_of_app.
  - rewrite (proj2 (Z.eqb_neq c x)) by set_solver. simpl. by rewrite IH by set_solver.
Qed.

Definition opt_print (o : Opt) : cstr := key o ++ ch "=" :: val o.

Definition opt_ok (o : Opt) : Prop :=
  ch "=" ∉ key o /\ ch "&" ∉ key o /\ ch "&" ∉ val o.

(** A URL written out. *)
Definition url_print (u : zcm_url) : cstr :=
  protocol u ++ str "://" ++ address u ++
  match opts u with [] => [] | os => ch "?" :: join (opt_print <$> os) (ch "&") end.

Lemma opt_parse_print o : opt_ok o -> opt_parse (opt_print o) = o.
Proof.
  intros (H&_). unfold opt_parse, opt_print. rewrite find_char by done.
  rewrite take_app_length, (cons_middle _ (key o)), app_assoc, drop_app_length' by (by rewrite length_app).
  by destruct o.
Qed.

(** a URL is parsed into the parts it was put together from: a protocol
    without colon, an address without question mark, and any options whose keys
    contain neither [=] nor [&] and whose values contain no [&], in order.  And
    [split] and [join] are inverse to each other. *)
Theorem url_roundtrip (u : zcm_url) (s : cstr) (d : byte) :
  ch ":" ∉ protocol u -> ch "?" ∉ address u -> Forall opt_ok (opts u) ->
  url_parse (url_print u) = u /\
  zcm_url_opts (url_parse (url_print u)) = (fun o => (key o, val o)) <$> take ZCM_OPTS_MAX (opts u) /\
  join (split s d) d = s.
Proof.
  intros Hp Ha Ho. assert (url_parse (url_print u) = u) as E.
  2: { rewrite E. split; [done|]. split; [done|apply join_split]. }
  unfold url_parse, url_print.
  set (rest := address u ++ _).
  assert (find (str "://") (protocol u ++ str "://" ++ rest) = Some (length (protocol u))) as ->
    by (by apply (find_pattern (ch ":") [ch "/"; ch "/"])).
  rewrite take_app_length, drop_app_ge by lia.
  replace (length (protocol u) + 3 - length (protocol u)) with 3 by lia.
  change (drop 3 (str "://" ++ rest)) with rest. subst rest. destruct u as [p a os].
  cbn [protocol address opts] in *.
  destruct os as [|o os]; [by rewrite app_nil_r, find_char_None|].
  rewrite find_char by done. rewrite take_app_length, (cons_middle _ a), app_assoc, drop_app_length' by (by rewrite length_app).
  f_equal. assert (opt_parse <$> (opt_print <$> o :: os) = o :: os) as Er.
  { rewrite <- list_fmap_compose. rewrite <- (list_fmap_id (o :: os)) at 2. apply list_fmap_ext.
    intros i x Hx. apply opt_parse_print. by eapply Forall_lookup_1. }
  rewrite split_join; [exact Er|done| |].
  - destruct os; simpl; [|done]. unfold opt_print. intros [= E]. by destruct (key o).
  - apply Forall_fmap. eapply Forall_impl; [exact Ho|]. intros x (?&?&?). simpl. unfold opt_print.
    rewrite elem_of_app, elem_of_cons. intros [?|[[=]|?]]; done.
Qed.

Lemma url_roundtrip_witness :
  url_parse (str "udpm://239.255.76.67:7667?ttl=1&x=") =
    mkUrl (str "udpm") (str "239.255.76.67:7667") [mkOpt (str "ttl") (str "1"); mkOpt (str "x") []].
Proof.
  apply (url_roundtrip (mkUrl (str "udpm") (str "239.255.76.67:7667") [mkOpt (str "ttl") (str "1"); mkOpt (str "x") []]) [] 0%Z).
  - eapply (bool_decide_unpack _). by vm_compute.
  - eapply (bool_decide_unpack _). by vm_compute.
  - repeat (apply Forall_cons; split); [..|apply Forall_nil; done];
      (split; [|split]); (eapply (bool_decide_unpack _); by vm_compute).
Defined.

Lemma registered_find {C} (t : list (entry C)) name : registered t name = false <-> zcm_transport_find t name = None.
Proof. induction t as [|e t IH]; simpl; [done|]. by destruct (bool_decide _). Qed.

Lemma find_snoc {C} (t : list (entry C)) e name :
  zcm_transport_find (t ++ [e]) name =
  match zcm_transport_find t name with
  | Some c => Some c
  | None => if bool_decide (t_name e = name) then Some (t_creator e) else None
  end.
Proof. induction t as [|x t IH]; simpl; [done|]. by destruct (bool_decide (t_name x = name)). Qed.

(** The registry of transports.  A registration succeeds exactly when the
    table has room and the name is new; the transport is then found under its
    name, and every other name, like every name after a refusal, is found as
    before. *)
Theorem registry_correct {C} (t t' : list (entry C)) name desc creator b :
  zcm_transport_register t name desc creator = (t', b) ->
  (b = true <-> length t < ZCM_TRANSPORTS_MAX /\ zcm_transport_find t name = None) /\
  (b = true -> zcm_transport_find t' name = Some creator) /\
  (forall n, b = false \/ n <> name -> zcm_transport_find t' n = zcm_transport_find t n).
Proof.
  unfold zcm_transport_register. destruct (_ <=? _) eqn:E; bool_prop.
  { intros [= <- <-]. split; [split; [done|lia]|done]. }
  destruct (registered t name) eqn:Er.
  { intros [= <- <-]. split; [|done]. split; [done|]. intros [_ H]. apply registered_find in H. congruence. }
  apply registered_find in Er. intros [= <- <-]. split; [done|]. split.
  - intros _. rewrite find_snoc, Er. simpl. by rewrite bool_decide_eq_true_2.
  - intros n [?|Hn]; [done|]. rewrite find_snoc. simpl. rewrite bool_decide_eq_false_2 by done.
    by destruct (zcm_transport_find t n).
Qed.

Lemma registry_correct_witness :
  zcm_transport_find (zcm_transport_register [mkEntry (str "inproc") [] 1] (str "udpm") [] 2).1 (str "udpm") = Some 2.
Proof. apply (registry_correct [mkEntry (str "inproc") [] 1] _ (str "udpm") [] 2 true eq_refl). done. Defined.

(** No error has a message.  The codes are negative, and [zcm_strerrno]
    compares them as unsigned numbers, so that each of them, although it has an
    entry in the table, is described as an invalid return code. *)
Theorem strerrno_loses_errors (err : Z) : (ZCM_EUNIMPL <= err < ZCM_EOK)%Z ->
  zcm_strerrno err = Some "Invalid return code"%string /\
  exists name s, (name, err, s) ∈ return_codes /\ s <> "Invalid return code"%string /\ zcm_retcode_name_to_enum name = err.
Proof.
  unfold ZCM_EUNIMPL, ZCM_EOK. intros H.
  assert (err = -7 \/ err = -6 \/ err = -5 \/ err = -4 \/ err = -3 \/ err = -2 \/ err = -1)%Z
    as [->|[->|[->|[->|[->|[->| ->]]]]]] by lia; (split; [by vm_compute|]); eexists _, _;
    (split; [unfold return_codes; rewrite !elem_of_cons; naive_solver|]); (split; [done|by vm_compute]).
Qed.

Lemma strerrno_loses_errors_witness : zcm_strerrno ZCM_EAGAIN = Some "Invalid return code"%string.
Proof. apply (strerrno_loses_errors ZCM_EAGAIN). by vm_compute. Defined.
