(* ===== verification/Tokenize.v ===== *)
(** * The tokenizer of the type generator (gen/tokenize.c)

    The characters of the file are a list; a character that is put back is kept
    beside it.  Line and column numbers, which only appear in messages, and the
    growth of the token buffer are left out.  The characters are those of ASCII,
    so that none of them is mistaken for EOF. *)
From S2P Require Import Prelude Bytes Transport Url.
Local Open Scope Z_scope.

Definition EOF : Z := -1.
Definition NEWLINE : Z := 10.

Definition single_char_toks : cstr := str "();" ++ [34] ++ str ",:'[]".
Definition op_chars : cstr := str "!~<>=&|^%*+=".

Definition strchr (s : cstr) (c : Z) : bool := bool_decide (c ∈ s).
Definition isspace (c : Z) : bool := (c =? 32) || ((9 <=? c) && (c <=? 13)).
Definition isdigit (c : Z) : bool := (48 <=? c) && (c <=? 57).

Definition unescape (c : Z) : Z :=
  if c =? ch "n" then 10 else if c =? ch "r" then 13 else if c =? ch "t" then 9 else c.

Inductive zcm_token_type := ZCM_TOK_INVALID | ZCM_TOK_COMMENT | ZCM_TOK_OTHER.

#[export] Instance zcm_token_type_eq_dec : EqDecision zcm_token_type.
Proof. solve_decision. Defined.

Record token := mkToken { ttype : zcm_token_type; text : cstr }.

#[export] Instance token_eq_dec : EqDecision token.
Proof. solve_decision. Defined.

(** The state between two tokens: the character put back, or -1, and the input. *)
Record tokenizer := mkTokenizer { unget_char : Z; input : cstr }.

(** Reading ahead stops at the end of the input without changing the current
    character: putting back [EOF] puts back the character before it. *)
Definition tokenize_next_char (current : Z) (inp : cstr) : Z * Z * cstr :=
  match inp with
  | [] => (EOF, current, [])
  | c :: inp => (c, c, inp)
  end.

(** ** Comments *)

(** Where [tokenize_extended_comment] stands within a line. *)
Inductive comment_state := InLead | InStars | AfterSpace | InContent (last_c : Z).

(** The rest of the line is comment content, unless [c] ends it. *)
Definition enter_content (tok : cstr) (pos_line_start : nat) (c : Z) : cstr * nat * comment_state :=
  if c =? NEWLINE then
    let tok := if (pos_line_start =? length tok)%nat then tok else tok ++ [c] in
    (tok, length tok, InLead)
  else (tok ++ [c], pos_line_start, InContent c).

(** The loop over the characters behind [/*]; [None] is the end of the file. *)
Fixpoint tokenize_extended_comment (inp tok : cstr) (pos_line_start : nat) (st : comment_state)
  : option (cstr * cstr) :=
  match inp with
  | [] => None
  | c :: inp =>
      match st with
      | InLead =>
          if (c =? 32) || (c =? 9) then tokenize_extended_comment inp (tok ++ [c]) pos_line_start InLead
          else if c =? ch "*" then tokenize_extended_comment inp (tok ++ [c]) pos_line_start InStars
          else let '(tok, p, st) := enter_content tok pos_line_start c in tokenize_extended_comment inp tok p st
      | InStars =>
          if c =? ch "*" then tokenize_extended_comment inp (tok ++ [c]) pos_line_start InStars
          else
            let tok := take pos_line_start tok in
            if c =? ch "/" then Some (tok, inp)
            else if c =? 32 then tokenize_extended_comment inp tok pos_line_start AfterSpace
            else let '(tok, p, st) := enter_content tok pos_line_start c in tokenize_extended_comment inp tok p st
      | AfterSpace =>
          let '(tok, p, st) := enter_content tok pos_line_start c in tokenize_extended_comment inp tok p st
      | InContent last_c =>
          if (last_c =? ch "*") && (c =? ch "/") then Some (take (length tok - 1) tok, inp)
          else let '(tok, p, st) := enter_content tok pos_line_start c in tokenize_extended_comment inp tok p st
      end
  end.

(** Reading on while the characters satisfy [p]: what was read, the character
    behind it or [EOF], the current character, the input. *)
Fixpoint read_while (p : Z -> bool) (c current : Z) (inp tok : cstr) : cstr * Z * Z * cstr :=
  if p c then
    match inp with
    | [] => (tok ++ [c], EOF, current, [])
    | c' :: inp => read_while p c' c' inp (tok ++ [c])
    end
  else (tok, c, current, inp).

(** A comment from [//] on: leading slashes, spaces, the rest of the line. *)
Definition line_comment (current : Z) (inp : cstr) : token * tokenizer :=
  let '(c, cur, inp) := tokenize_next_char current inp in
  let '(_, c, cur, inp) := read_while (fun c => c =? ch "/") c cur inp [] in
  let '(_, c, cur, inp) := read_while (fun c => c =? 32) c cur inp [] in
  let '(tok, c, cur, inp) := read_while (fun c => negb (c =? EOF) && negb (c =? NEWLINE)) c cur inp [] in
  (mkToken ZCM_TOK_COMMENT tok, mkTokenizer cur inp).

(** ** Strings *)

(** The characters of a string literal up to the closing quote; escaped
    characters are skipped. *)
Fixpoint read_string (inp tok : cstr) (escape : bool) : cstr * cstr :=
  match inp with
  | [] => (tok, [])
  | c :: inp =>
      if escape then read_string inp tok false
      else if c =? 34 then (tok ++ [c], inp)
      else if c =? 92 then read_string inp tok true
      else read_string inp (tok ++ [c]) false
  end.

(** ** Words *)

(** The loop over an alphanumeric blob, [c] being its next character. *)
Fixpoint read_blob (c : Z) (inp tok : cstr) : cstr * tokenizer :=
  let tok := tok ++ [c] in
  if strchr single_char_toks c then (tok, mkTokenizer EOF inp) else
  match inp with
  | [] => (tok, mkTokenizer EOF [])
  | c' :: inp =>
      if strchr single_char_toks c' || strchr op_chars c' then (tok, mkTokenizer c' inp)
      else if isspace c' then (tok, mkTokenizer EOF inp)
      else read_blob c' inp tok
  end.

Fixpoint skip_space (inp : cstr) : option (Z * cstr) :=
  match inp with
  | [] => None
  | c :: inp => if isspace c then skip_space inp else Some (c, inp)
  end.

(** The next token: the end of the file, a malformed character literal, whose
    token is left unterminated, or a token and the state behind it. *)
Inductive next_result := NextEOF (t : tokenizer) | NextBad | NextToken (k : token) (t : tokenizer).

Definition tokenize_next_internal (t : tokenizer) : next_result :=
  let start :=
    if 0 <=? unget_char t then
      if isspace (unget_char t) then skip_space (input t) else Some (unget_char t, input t)
    else skip_space (input t) in
  match start with
  | None => NextEOF (mkTokenizer EOF [])
  | Some (c, inp) =>
      if c =? ch "'" then
        let '(c1, _, inp) := tokenize_next_char c inp in
        let '(c1, inp) := if c1 =? 92 then let '(c2, _, inp) := tokenize_next_char c1 inp in (unescape c2, inp)
                          else (c1, inp) in
        if c1 =? EOF then NextBad else
        let '(c3, _, inp) := tokenize_next_char c1 inp in
        if negb (c3 =? ch "'") then NextBad else
        NextToken (mkToken ZCM_TOK_OTHER [c; c1; c3]) (mkTokenizer EOF inp)
      else if c =? 34 then
        let '(tok, inp) := read_string inp [c] false in
        NextToken (mkToken ZCM_TOK_INVALID tok) (mkTokenizer EOF inp)
      else if strchr op_chars c then
        let '(tok, c, cur, inp) := read_while (strchr op_chars) c c inp [] in
        NextToken (mkToken ZCM_TOK_OTHER tok) (mkTokenizer cur inp)
      else if c =? ch "/" then
        let '(c1, cur, inp) := tokenize_next_char c inp in
        if c1 =? EOF then NextToken (mkToken ZCM_TOK_OTHER [c]) (mkTokenizer EOF inp)
        else if c1 =? ch "*" then
          match tokenize_extended_comment inp [] 0 InLead with
          | None => NextEOF (mkTokenizer EOF [])
          | Some (tok, inp) => NextToken (mkToken ZCM_TOK_COMMENT tok) (mkTokenizer EOF inp)
          end
        else if c1 =? ch "/" then let '(k, t) := line_comment c1 inp in NextToken k t
        else NextToken (mkToken ZCM_TOK_OTHER [c]) (mkTokenizer cur inp)
      else let '(tok, t) := read_blob c inp [] in NextToken (mkToken ZCM_TOK_OTHER tok) t
  end.

(** The tokens up to the end of the file; [OutOfFuel] when there are more than
    [fuel] calls. *)
Inductive tok_result := Tokens (ks : list token) | Malformed | OutOfFuel.

Fixpoint tokenize_all (fuel : nat) (t : tokenizer) : tok_result :=
  match fuel with
  | O => OutOfFuel
  | S fuel =>
      match tokenize_next_internal t with
      | NextEOF _ => Tokens []
      | NextBad => Malformed
      | NextToken k t =>
          match tokenize_all fuel t with
          | Tokens ks => Tokens (k :: ks)
          | r => r
          end
      end
  end.

Definition tokenize_create (file : cstr) : tokenizer := mkTokenizer EOF file.

(** The tokens of a file; one of [n] characters that ends with a newline has
    fewer than [n] of them. *)
Definition tokenize (file : cstr) : tok_result :=
  tokenize_all (S (length file)) (tokenize_create file).

(** ** Writing tokens and reading them back *)

Definition special (c : Z) : bool := strchr single_char_toks c || strchr op_chars c || isspace c.

(** Words, operators and single-character tokens. *)
Definition word (w : cstr) : Prop :=
  Forall (fun c => 0 <= c /\ special c = false) w /\ exists c w', w = c :: w' /\ c <> ch "/".
Definition operator (w : cstr) : Prop := w <> [] /\ Forall (fun c => strchr op_chars c = true) w.
Definition single (w : cstr) : Prop :=
  exists c, w = [c] /\ strchr single_char_toks c = true /\ c <> ch "'" /\ c <> 34.
Definition plain (w : cstr) : Prop := word w \/ operator w \/ single w.

Definition write (ws : list cstr) : cstr := ws ≫= fun w => w ++ [32].

Lemma op_not_single c : strchr op_chars c = true -> strchr single_char_toks c = false /\ isspace c = false /\
  0 <= c /\ c <> ch "'" /\ c <> 34 /\ c <> ch "/".
Proof.
  unfold strchr. intros H%bool_decide_eq_true_1. unfold op_chars in H. vm_compute in H.
  repeat (apply elem_of_cons in H as [->|H]); [by vm_compute..|]. by apply elem_of_nil in H.
Qed.

Lemma single_not_space c : strchr single_char_toks c = true -> strchr op_chars c = false /\ isspace c = false /\
  0 <= c /\ c <> ch "/".
Proof.
  unfold strchr. intros H%bool_decide_eq_true_1. unfold single_char_toks in H. vm_compute in H.
  repeat (apply elem_of_cons in H as [->|H]); [by vm_compute..|]. by apply elem_of_nil in H.
Qed.

Lemma special_false c : special c = false ->
  strchr single_char_toks c = false /\ strchr op_chars c = false /\ isspace c = false.
Proof. unfold special. intros H. by bool_prop. Qed.

Lemma space_not_op : strchr op_chars 32 = false.
Proof. by vm_compute. Qed.

(** A blob of ordinary characters ends at the space behind it. *)
Lemma read_blob_word w c rest tok : Forall (fun c => 0 <= c /\ special c = false) (c :: w) ->
  read_blob c (w ++ 32 :: rest) tok = (tok ++ c :: w, mkTokenizer EOF rest).
Proof.
  revert c tok. induction w as [|c' w IH]; intros c tok [[_ Hc] F]%Forall_cons;
    apply special_false in Hc as (S1&_&_); cbn [read_blob app].
  - rewrite S1. by vm_compute.
  - rewrite S1. pose proof F as [[_ Hc'] _]%Forall_cons. apply special_false in Hc' as (S2&S3&S4).
    rewrite S2, S3, S4. cbn [orb]. rewrite IH by done. by rewrite <- app_assoc.
Qed.

Lemma read_while_stop p w c rest tok cur x : Forall (fun c => p c = true) (c :: w) -> p x = false ->
  read_while p c cur (w ++ x :: rest) tok = (tok ++ c :: w, x, x, rest).
Proof.
  revert c tok cur. induction w as [|c' w IH]; intros c tok cur [Hc F]%Forall_cons Hx; cbn [read_while app]; rewrite Hc.
  - destruct rest; cbn [read_while]; by rewrite Hx.
  - rewrite IH by done. by rewrite <- app_assoc.
Qed.

(** The state behind a token: the space is gone or put back. *)
Definition behind (t : tokenizer) (rest : cstr) : Prop :=
  t = mkTokenizer EOF rest \/ t = mkTokenizer EOF (32 :: rest) \/ t = mkTokenizer 32 rest.

Lemma next_behind t rest : behind t rest -> tokenize_next_internal t = tokenize_next_internal (mkTokenizer EOF rest).
Proof. intros [->|[->| ->]]; done. Qed.

Lemma next_plain w rest : plain w -> exists t,
  tokenize_next_internal (mkTokenizer EOF (w ++ 32 :: rest)) = NextToken (mkToken ZCM_TOK_OTHER w) t /\ behind t rest.
Proof.
  unfold tokenize_next_internal. cbn [unget_char input]. change (0 <=? EOF) with false. cbv iota.
  intros [(F&c&w'&->&Hs)|[[Hne F]|(c&->&Hs&Hq&Hd)]].
  - pose proof F as [[H0 Hc] _]%Forall_cons. apply special_false in Hc as (S1&S2&S3).
    cbn [app skip_space]. rewrite S3.
    rewrite (proj2 (Z.eqb_neq c (ch "'"))) by (intros ->; by vm_compute in S1).
    rewrite (proj2 (Z.eqb_neq c 34)) by (intros ->; by vm_compute in S1).
    rewrite S2, (proj2 (Z.eqb_neq c (ch "/"))) by done.
    rewrite read_blob_word by done. eexists. split; [done|]. by left.
  - destruct w as [|c w]; [done|]. pose proof F as [Hc _]%Forall_cons.
    destruct (op_not_single c Hc) as (S1&S2&H0&Hq&Hd&Hs). cbn [app skip_space]. rewrite S2.
    rewrite (proj2 (Z.eqb_neq c (ch "'"))), (proj2 (Z.eqb_neq c 34)), Hc by done.
    rewrite (read_while_stop _ w c rest [] c 32 F space_not_op). eexists. split; [done|]. right. by right.
  - destruct (single_not_space c Hs) as (S1&S2&H0&Hsl). cbn [app skip_space]. rewrite S2.
    rewrite (proj2 (Z.eqb_neq c (ch "'"))), (proj2 (Z.eqb_neq c 34)), S1, (proj2 (Z.eqb_neq c (ch "/"))) by done.
    cbn [read_blob]. rewrite Hs. eexists. split; [done|]. right. by left.
Qed.

Lemma tokenize_write ws : Forall plain ws -> forall fuel t, (length ws < fuel)%nat -> behind t (write ws) ->
  tokenize_all fuel t = Tokens (mkToken ZCM_TOK_OTHER <$> ws).
Proof.
  induction 1 as [|w ws Hw _ IH]; intros [|fuel] t Hf B; simpl in Hf; try lia; cbn [tokenize_all];
    rewrite (next_behind _ _ B).
  - done.
  - unfold write. cbn [mbind list_bind]. fold (write ws).
    destruct (next_plain w (write ws) Hw) as (t'&E&B'). rewrite <- app_assoc. cbn [app]. rewrite E.
    rewrite (IH fuel t') by (done || lia). done.
Qed.

Lemma length_write ws : Forall plain ws -> (length ws <= length (write ws))%nat.
Proof.
  induction 1 as [|w ws _ _ IH]; [done|]. unfold write in *. cbn [mbind list_bind]. rewrite !length_app. simpl. lia.
Qed.

(** tokens written one after another, each followed by a space, are read back
    as they were: words, operators and single-character tokens. *)
Theorem tokenize_roundtrip (ws : list cstr) : Forall plain ws ->
  tokenize (write ws) = Tokens (mkToken ZCM_TOK_OTHER <$> ws).
Proof.
  intros F. apply tokenize_write; [done| |by left]. pose proof (length_write ws F). lia.
Qed.

(** ** Termination *)

(** Nothing left, or a last line that is terminated. *)
Definition nl (inp : cstr) : Prop := inp = [] \/ last inp = Some NEWLINE.

Lemma nl_tail c inp : nl (c :: inp) -> nl inp.
Proof. intros [?|H]; [done|]. destruct inp; [by left|right]. by rewrite last_cons_cons in H. Qed.

(** What is left is part of the input and shorter by [k]. *)
Definition rest_of (k : nat) (inp inp' : cstr) : Prop := (k + length inp' <= length inp)%nat /\ (nl inp -> nl inp').

Lemma rest_refl inp : rest_of 0 inp inp.
Proof. by split. Qed.

Lemma rest_cons k c inp inp' : rest_of k inp inp' -> rest_of (S k) (c :: inp) inp'.
Proof. intros [? H]. split; [simpl; lia|]. intros N. apply H. by eapply nl_tail. Qed.

Lemma rest_weaken k k' inp inp' : rest_of k inp inp' -> (k' <= k)%nat -> rest_of k' inp inp'.
Proof. intros [? H] ?. split; [lia|done]. Qed.

#[local] Hint Resolve rest_refl rest_cons : zcm.

Lemma read_string_rest inp : forall tok e, rest_of 0 inp (read_string inp tok e).2.
Proof.
  induction inp as [|c inp IH]; intros tok e; simpl; [apply rest_refl|].
  destruct e; [|destruct (_ =? 34); [|destruct (_ =? 92)]]; simpl; eapply rest_weaken; try apply rest_cons; eauto with zcm; lia.
Qed.

Lemma ext_comment_rest inp : forall tok p st tok' inp',
  tokenize_extended_comment inp tok p st = Some (tok', inp') -> rest_of 1 inp inp'.
Proof.
  induction inp as [|c inp IH]; intros tok p st tok' inp'; cbn [tokenize_extended_comment]; [done|].
  assert (forall tok p st, tokenize_extended_comment inp tok p st = Some (tok', inp') -> rest_of 1 (c :: inp) inp') as IH'.
  { intros tk q s H%IH. by eapply rest_weaken; [apply rest_cons|lia]. }
  unfold enter_content. destruct st; intros E; repeat case_match; simplify_eq; eauto using rest_cons, rest_refl.
Qed.

Lemma read_blob_rest inp : forall c tok tok' t, read_blob c inp tok = (tok', t) -> nl inp -> inp <> [] ->
  nl (input t) /\ (length (input t) + (if (0 <=? unget_char t)%Z then 1 else 0) <= length inp)%nat /\
  (input t = [] -> unget_char t < 0).
Proof.
  induction inp as [|c' inp IH]; intros c tok tok' t; cbn [read_blob]; [done|].
  intros E N _. pose proof (nl_tail _ _ N) as N'. destruct (strchr single_char_toks c).
  { injection E as <- <-. simpl. split; [done|]. split; [lia|done]. }
  destruct (strchr single_char_toks c' || strchr op_chars c') eqn:Es.
  { injection E as <- <-. simpl. split; [done|]. split; [case_match; lia|]. intros ->.
    destruct N as [?|N]; [done|]. injection N as ->. by vm_compute in Es. }
  destruct (isspace c') eqn:Ew.
  { injection E as <- <-. simpl. split; [done|]. split; [lia|done]. }
  destruct inp as [|c2 inp].
  { destruct N as [?|N]; [done|]. injection N as ->. by vm_compute in Ew. }
  destruct (IH c' _ _ _ E N') as (?&?&?); [done|]. split; [done|]. split; [simpl in *; lia|done].
Qed.

Lemma read_while_rest p inp : p NEWLINE = false -> forall c tok, last (c :: inp) = Some NEWLINE ->
  let '(tok', c', cur', inp') := read_while p c c inp tok in
  cur' = c' /\ last (c' :: inp') = Some NEWLINE /\ (length inp' + (if p c then 1 else 0) <= length inp)%nat.
Proof.
  intros Hp. induction inp as [|x inp IH]; intros c tok L; cbn [read_while].
  - injection L as ->. rewrite Hp. simpl. done.
  - destruct (p c) eqn:E; [|simpl; repeat split; [done|lia]]. rewrite last_cons_cons in L.
    specialize (IH x (tok ++ [c]) L). destruct (read_while p x x inp (tok ++ [c])) as [[[tok' c'] cur'] inp'].
    destruct IH as (?&?&?). repeat split; [done|done|]. simpl. destruct (p x); lia.
Qed.

Definition size (t : tokenizer) : nat := length (input t) + (if 0 <=? unget_char t then 1 else 0).

(** The input is terminated, and a character that waits behind its end is a space. *)
Definition good (t : tokenizer) : Prop :=
  nl (input t) /\ (input t = [] -> unget_char t < 0 \/ isspace (unget_char t) = true).

Lemma size_put_back c inp : (size (mkTokenizer c inp) <= S (length inp))%nat.
Proof. unfold size. cbn [input unget_char]. case_match; lia. Qed.

(** A token behind which the rest of the input is read next. *)
Lemma smaller_rest n k inp inp' : nl inp -> rest_of k inp inp' -> (length inp < n)%nat ->
  good (mkTokenizer EOF inp') /\ (size (mkTokenizer EOF inp') < n)%nat.
Proof. intros N [? H] ?. split; [split; [by apply H|by left]|]. unfold size. simpl. lia. Qed.

(** A token behind which the next character was put back. *)
Lemma smaller_put_back n c inp : last (c :: inp) = Some NEWLINE -> (S (length inp) < n)%nat ->
  good (mkTokenizer c inp) /\ (size (mkTokenizer c inp) < n)%nat.
Proof.
  intros L ?. split; [|pose proof (size_put_back c inp); lia]. destruct inp as [|x inp].
  - injection L as ->. split; [by left|]. by right.
  - rewrite last_cons_cons in L. split; [by right|done].
Qed.

Lemma skip_space_start inp c inp' : nl inp -> skip_space inp = Some (c, inp') ->
  isspace c = false /\ last (c :: inp') = Some NEWLINE /\ (length inp' < length inp)%nat.
Proof.
  induction inp as [|x inp IH]; cbn [skip_space length]; [done|].
  intros N. destruct (isspace x) eqn:E.
  - intros H. destruct (IH (nl_tail _ _ N) H) as (?&?&?). repeat split; auto; lia.
  - intros [= -> ->]. destruct N as [N|N]; [done|]. repeat split; [done|done|lia].
Qed.

(** The first character of a token is followed by others. *)
Lemma token_start t c inp : good t ->
  (if 0 <=? unget_char t then if isspace (unget_char t) then skip_space (input t) else Some (unget_char t, input t)
   else skip_space (input t)) = Some (c, inp) ->
  last inp = Some NEWLINE /\ (length inp < size t)%nat.
Proof.
  intros [N U] Es.
  assert (isspace c = false /\ last (c :: inp) = Some NEWLINE /\ (length inp < size t)%nat) as (Hsp&L&?).
  { unfold size. destruct (0 <=? unget_char t) eqn:Eu; [destruct (isspace (unget_char t)) eqn:E|].
    - destruct (skip_space_start _ _ _ N Es) as (?&?&?). repeat split; auto; lia.
    - injection Es as <- <-. split; [done|]. split; [|lia].
      destruct N as [N|N]; [destruct (U N) as [?|?]; [lia|congruence]|]. destruct (input t); [done|].
      by rewrite last_cons_cons.
    - destruct (skip_space_start _ _ _ N Es) as (?&?&?). repeat split; auto; lia. }
  destruct inp; [|by rewrite last_cons_cons in L]. injection L as ->. by vm_compute in Hsp.
Qed.

Lemma line_comment_smaller n cur inp : last inp = Some NEWLINE -> (S (length inp) < n)%nat ->
  good (line_comment cur inp).2 /\ (size (line_comment cur inp).2 < n)%nat.
Proof.
  intros L Hn. destruct inp as [|c inp]; [done|]. unfold line_comment. cbn [tokenize_next_char].
  pose proof (read_while_rest (fun c => c =? ch "/") inp eq_refl c [] L) as R1.
  destruct (read_while (fun c => c =? ch "/") c c inp []) as [[[t1 d1] cur1] i1]. destruct R1 as (->&L1&H1).
  pose proof (read_while_rest (fun c => c =? 32) i1 eq_refl d1 [] L1) as R2.
  destruct (read_while (fun c => c =? 32) d1 d1 i1 []) as [[[t2 d2] cur2] i2]. destruct R2 as (->&L2&H2).
  pose proof (read_while_rest (fun c => negb (c =? EOF) && negb (c =? NEWLINE)) i2 eq_refl d2 [] L2) as R3.
  destruct (read_while _ d2 d2 i2 []) as [[[t3 d3] cur3] i3]. destruct R3 as (->&L3&H3).
  apply smaller_put_back; [done|]. simpl in Hn. lia.
Qed.

Lemma char_literal_smaller n c inp : last inp = Some NEWLINE -> (length inp < n)%nat ->
  let '(c1, _, inp) := tokenize_next_char c inp in
  let '(c1, inp) := if c1 =? 92 then let '(c2, _, inp) := tokenize_next_char c1 inp in (unescape c2, inp)
                    else (c1, inp) in
  let '(c3, _, inp) := tokenize_next_char c1 inp in
  good (mkTokenizer EOF inp) /\ (size (mkTokenizer EOF inp) < n)%nat.
Proof.
  intros L Hn. assert (nl inp) as N by by right.
  assert (forall c inp', rest_of 0 inp inp' -> rest_of 0 inp (tokenize_next_char c inp').2) as T.
  { intros c' [|x l] R; [done|]. destruct R as [? R]. split; [simpl in *; lia|]. intros ?. by eapply nl_tail, R. }
  pose proof (T c inp (rest_refl inp)) as T1. destruct (tokenize_next_char c inp) as [[c1 b1] i1].
  pose proof (T c1 i1 T1) as T2. destruct (c1 =? 92).
  - destruct (tokenize_next_char c1 i1) as [[c2 b2] i2]. pose proof (T (unescape c2) i2 T2) as T3.
    destruct (tokenize_next_char (unescape c2) i2) as [[c3 b3] i3]. by eapply smaller_rest.
  - destruct (tokenize_next_char c1 i1) as [[c3 b3] i3]. by eapply smaller_rest.
Qed.

(** Every token makes the rest smaller. *)
Lemma next_size t : good t ->
  match tokenize_next_internal t with
  | NextToken _ t' => good t' /\ (size t' < size t)%nat
  | _ => True
  end.
Proof.
  intros G. unfold tokenize_next_internal. pose proof (token_start t) as St.
  destruct (if 0 <=? unget_char t then _ else _) as [[c inp]|]; [|done].
  destruct (St c inp G eq_refl) as [L Hs]. clear St. assert (nl inp) as N by by right.
  destruct (c =? ch "'").
  { pose proof (char_literal_smaller (size t) c inp L Hs) as H. repeat (case_match; simplify_eq; try done). }
  destruct (c =? 34).
  { pose proof (read_string_rest inp [c] false) as R. destruct (read_string inp [c] false) as [tok inp'].
    by eapply smaller_rest. }
  destruct (strchr op_chars c) eqn:Eo.
  { assert (last (c :: inp) = Some NEWLINE) as L' by by destruct inp.
    pose proof (read_while_rest (strchr op_chars) inp eq_refl c [] L') as R.
    destruct (read_while (strchr op_chars) c c inp []) as [[[tok c'] cur] inp']. destruct R as (->&?&Hl).
    rewrite Eo in Hl. apply smaller_put_back; [done|lia]. }
  destruct (c =? ch "/").
  { destruct inp as [|c1 inp]; [done|]. cbn [tokenize_next_char]. simpl in Hs.
    assert (rest_of 1 (c1 :: inp) inp) as R by auto with zcm.
    destruct (c1 =? EOF) eqn:E1; [by eapply smaller_rest|]. destruct (c1 =? ch "*").
    { destruct (tokenize_extended_comment inp [] 0 InLead) as [[tok inp']|] eqn:Ec; [|done].
      apply ext_comment_rest in Ec. eapply smaller_rest; [by eapply nl_tail|done|lia]. }
    destruct (c1 =? ch "/") eqn:E2.
    { assert (last inp = Some NEWLINE) as L' by (destruct inp; [injection L as ->; by vm_compute in E2|done]).
      pose proof (line_comment_smaller (size t) c1 inp L' Hs) as H. by destruct (line_comment c1 inp). }
    by apply smaller_put_back. }
  destruct (read_blob c inp []) as [tok t'] eqn:Eb.
  destruct (read_blob_rest inp c [] tok t' Eb N) as (?&?&?); [by intros ->|].
  split; [split; [done|by left; auto]|]. unfold size at 1. lia.
Qed.

Lemma tokenize_all_terminates fuel : forall t, good t -> (size t < fuel)%nat -> tokenize_all fuel t <> OutOfFuel.
Proof.
  induction fuel as [|fuel IH]; intros t G Hf; [lia|]. cbn [tokenize_all].
  pose proof (next_size t G) as H. destruct (tokenize_next_internal t) as [| |k t']; [done|done|].
  destruct H as [G' Hs]. specialize (IH t' G' ltac:(lia)). by destruct (tokenize_all fuel t').
Qed.

(** the tokenizer ends on every file whose last line is terminated: it reads
    at most as many tokens as there are characters before it reports the end of
    the file or a malformed character literal. *)
Theorem tokenize_terminates (file : cstr) : last file = Some NEWLINE ->
  exists ks, tokenize file = Tokens ks \/ tokenize file = Malformed.
Proof.
  intros H. assert (tokenize file <> OutOfFuel) as T.
  { apply tokenize_all_terminates; [split; [by right|by left]|]. unfold size. simpl. lia. }
  destruct (tokenize file) as [ks| |]; [exists ks; by left|exists []; by right|done].
Qed.

(** Reading on either stops at a character or reaches the end, where the
    current character is the last one of the file. *)
Lemma read_while_last p x inp : forall c tok, last (c :: inp) = Some x ->
  let '(_, c', cur', inp') := read_while p c c inp tok in
  cur' = x /\ c' = EOF /\ inp' = [] /\ p x = true \/
  cur' = c' /\ last (c' :: inp') = Some x /\ p c' = false /\ (c' :: inp') ⊆ (c :: inp).
Proof.
  induction inp as [|y inp IH]; intros c tok L; cbn [read_while].
  - injection L as ->. destruct (p x) eqn:E; [by left|by right].
  - destruct (p c) eqn:E; [|by right]. rewrite last_cons_cons in L.
    specialize (IH y (tok ++ [c]) L). destruct (read_while p y y inp (tok ++ [c])) as [[[tok' c'] cur'] inp'].
    destruct IH as [?|(?&?&?&?)]; [by left|right]. set_solver.
Qed.

Lemma line_comment_last cur inp x : last inp = Some x -> NEWLINE ∉ inp -> EOF ∉ inp -> x <> ch "/" -> x <> 32 ->
  exists tok, line_comment cur inp = (mkToken ZCM_TOK_COMMENT tok, mkTokenizer x []).
Proof.
  intros L Hn He Hs Hsp. destruct inp as [|c inp]; [done|]. unfold line_comment. cbn [tokenize_next_char].
  pose proof (read_while_last (fun c => c =? ch "/") x inp c [] L) as R1.
  destruct (read_while _ c c inp []) as [[[t1 d1] cur1] i1]. cbv beta in R1.
  destruct R1 as [(_&_&_&?)|(->&L1&_&S1)]; [lia|].
  pose proof (read_while_last (fun c => c =? 32) x i1 d1 [] L1) as R2.
  destruct (read_while _ d1 d1 i1 []) as [[[t2 d2] cur2] i2]. cbv beta in R2.
  destruct R2 as [(_&_&_&?)|(->&L2&_&S2)]; [lia|].
  pose proof (read_while_last (fun c => negb (c =? EOF) && negb (c =? NEWLINE)) x i2 d2 [] L2) as R3.
  destruct (read_while _ d2 d2 i2 []) as [[[t3 d3] cur3] i3]. cbv beta in R3.
  destruct R3 as [(->&_&->&_)|(_&_&E&S3)]; [by eexists|]. exfalso.
  assert (d3 ∈ c :: inp) by set_solver. destruct (d3 =? EOF) eqn:E1, (d3 =? NEWLINE) eqn:E2; bool_prop; set_solver.
Qed.

Lemma operator_repeats fuel u : u = EOF \/ u = ch "=" -> forall inp, inp = [] /\ u = ch "=" \/ inp = str "=" /\ u = EOF ->
  tokenize_all fuel (mkTokenizer u inp) = OutOfFuel.
Proof.
  induction fuel as [|fuel IH] in u |- *; [done|]. intros _ inp [[-> ->]|[-> ->]]; cbn [tokenize_all].
  - change (tokenize_next_internal (mkTokenizer (ch "=") [])) with (NextToken (mkToken ZCM_TOK_OTHER (str "=")) (mkTokenizer (ch "=") [])).
    cbv iota. rewrite IH; auto.
  - change (tokenize_next_internal (mkTokenizer EOF (str "="))) with (NextToken (mkToken ZCM_TOK_OTHER (str "=")) (mkTokenizer (ch "=") [])).
    cbv iota. rewrite IH; auto.
Qed.

(** At the end of a file that does not end with a newline the tokenizer puts
    back the character it read last instead of the end of the file.  A final
    line comment is followed by a token made of its last letter, and a final
    operator is read again for ever. *)
Theorem tokenize_unterminated (s : cstr) (c : Z) (fuel : nat) : NEWLINE ∉ s -> Forall (fun c => 0 <= c) s ->
  0 <= c -> special c = false -> c <> ch "/" ->
  (exists k t, tokenize_next_internal (mkTokenizer EOF (str "//" ++ s ++ [c])) = NextToken k t /\
     ttype k = ZCM_TOK_COMMENT /\
     tokenize_next_internal t = NextToken (mkToken ZCM_TOK_OTHER [c]) (mkTokenizer EOF [])) /\
  tokenize_all fuel (mkTokenizer EOF (str "=")) = OutOfFuel.
Proof.
  intros Hn Hs H0 Hc Hsl. split; [|apply operator_repeats; auto].
  pose proof (special_false c Hc) as (S1&S2&S3).
  assert (c <> NEWLINE /\ c <> 32) as [Hc1 Hc2] by (split; intros ->; by vm_compute in S3).
  destruct (line_comment_last (ch "/") (s ++ [c]) c) as [tok E]; [by rewrite last_snoc|set_solver| |done..|].
  { rewrite elem_of_app, list_elem_of_singleton. intros [H|H]; [|unfold EOF in *; lia].
    rewrite Forall_forall in Hs. specialize (Hs _ H). by vm_compute in Hs. }
  exists (mkToken ZCM_TOK_COMMENT tok), (mkTokenizer c []). split; [|split; [done|]].
  - change (tokenize_next_internal (mkTokenizer EOF (str "//" ++ s ++ [c]))) with
      (let '(k, t) := line_comment (ch "/") (s ++ [c]) in NextToken k t). by rewrite E.
  - unfold tokenize_next_internal. cbn [unget_char input]. rewrite (proj2 (Z.leb_le 0 c)), S3 by done.
    rewrite (proj2 (Z.eqb_neq c (ch "'"))), (proj2 (Z.eqb_neq c 34)), S2, (proj2 (Z.eqb_neq c (ch "/")))
      by (done || intros ->; by vm_compute in S1). cbn [read_blob]. by rewrite S1.
Qed.

Lemma tokenize_roundtrip_witness : let ws := [str "a_t"; str "<="; str ";"] in
  Forall plain ws /\ tokenize (write ws) = Tokens (mkToken ZCM_TOK_OTHER <$> ws).
Proof.
  intros ws. assert (Forall plain ws) as F; [|split; [exact F|exact (tokenize_roundtrip ws F)]].
  constructor; [left|constructor; [right; left|constructor; [right; right|constructor]]].
  - split; [repeat constructor; vm_compute; congruence|]. by do 2 eexists.
  - split; [done|]. repeat constructor; by vm_compute.
  - by eexists.
Defined.

Lemma tokenize_terminates_witness : let file := str "a//b" ++ [NEWLINE] in
  last file = Some NEWLINE /\ exists ks, tokenize file = Tokens ks \/ tokenize file = Malformed.
Proof. intros file. split; [reflexivity|]. apply (tokenize_terminates file). reflexivity. Defined.

Lemma tokenize_unterminated_witness :
  (exists k t, tokenize_next_internal (mkTokenizer EOF (str "//" ++ str " no" ++ [ch "w"])) = NextToken k t /\
     ttype k = ZCM_TOK_COMMENT /\
     tokenize_next_internal t = NextToken (mkToken ZCM_TOK_OTHER [ch "w"]) (mkTokenizer EOF [])) /\
  tokenize_all 5 (mkTokenizer EOF (str "=")) = OutOfFuel.
Proof.
  apply (tokenize_unterminated (str " no") (ch "w") 5); try by vm_compute.
  - vm_compute. intros H. repeat (apply elem_of_cons in H as [H|H]; [discriminate|]). by apply elem_of_nil in H.
  - repeat constructor; vm_compute; congruence.
Defined.
