(* ===== verification/CNum.v ===== *)
(** * Numbers as text (the C library's conversions and stream output)

    What gen/ZCMGen.cpp uses of strtol, strtoll, strtoull, atoi and strtod, on a
    system where [long] and [long long] have 64 bits, and of the decimal and
    hexadecimal output of streams.  A conversion gives the value, the
    characters behind the number and whether errno became ERANGE; [None] is no
    conversion, where the end pointer is the start of the text. *)
From Stdlib Require Import SpecFloat.
From S2P Require Import Prelude Bytes Transport Url Tokenize.
Local Open Scope Z_scope.

(** ** Integers *)

Definition digit_val (c : Z) : Z :=
  if isdigit c then c - ch "0"
  else if (ch "a" <=? c) && (c <=? ch "z") then c - ch "a" + 10
  else if (ch "A" <=? c) && (c <=? ch "Z") then c - ch "A" + 10
  else 36.

(** The digits in front and their number, most significant first. *)
Fixpoint read_digits (base : Z) (s : cstr) (acc : Z) (n : nat) : Z * nat * cstr :=
  match s with
  | [] => (acc, n, [])
  | c :: s' =>
      if digit_val c <? base then read_digits base s' (acc * base + digit_val c) (S n) else (acc, n, s)
  end.

Fixpoint drop_spaces (s : cstr) : cstr :=
  match s with
  | [] => []
  | c :: s' => if isspace c then drop_spaces s' else s
  end.

Definition read_sign (s : cstr) : bool * cstr :=
  match s with
  | c :: s' => if c =? ch "-" then (true, s') else if c =? ch "+" then (false, s') else (false, s)
  | [] => (false, [])
  end.

(** [0x] counts as a prefix in front of a hexadecimal digit only. *)
Definition hex_prefix (s : cstr) : option cstr :=
  match s with
  | c0 :: c1 :: c2 :: _ =>
      if (c0 =? ch "0") && ((c1 =? ch "x") || (c1 =? ch "X")) && (digit_val c2 <? 16) then Some (drop 2 s) else None
  | _ => None
  end.

(** Base 0 reads the base off the number. *)
Definition read_number (base : Z) (s : cstr) : option (bool * Z * cstr) :=
  let '(neg, s) := read_sign (drop_spaces s) in
  let '(base, s) :=
    if base =? 0 then
      match hex_prefix s with
      | Some s' => (16, s')
      | None => if default 0 (head s) =? ch "0" then (8, s) else (10, s)
      end
    else (base, s) in
  let '(v, n, rest) := read_digits base s 0 0 in
  if (n =? 0)%nat then None else Some (neg, v, rest).

Definition LLONG_MAX : Z := 2 ^ 63 - 1.
Definition LLONG_MIN : Z := - 2 ^ 63.
Definition ULLONG_MAX : Z := 2 ^ 64 - 1.

Definition strtoll (s : cstr) (base : Z) : option (Z * cstr * bool) :=
  '(neg, v, rest) <- read_number base s ;;
  let v := if (neg : bool) then - v else v in
  if v <? LLONG_MIN then Some (LLONG_MIN, rest, true)
  else if LLONG_MAX <? v then Some (LLONG_MAX, rest, true)
  else Some (v, rest, false).

(** A sign negates the number within 64 bits. *)
Definition strtoull (s : cstr) (base : Z) : option (Z * cstr * bool) :=
  '(neg, v, rest) <- read_number base s ;;
  if ULLONG_MAX <? v then Some (ULLONG_MAX, rest, true)
  else Some ((if (neg : bool) then wrapu 64 (- v) else v), rest, false).

(** The value alone, 0 without a conversion, as [strtol] with a null pointer. *)
Definition strtol (s : cstr) (base : Z) : Z :=
  match strtoll s base with Some (v, _, _) => v | None => 0 end.

Definition atoi (s : cstr) : Z := wraps 32 (strtol s 10).

(** ** Output *)

Definition digit_char (d : Z) : Z := if d <? 10 then ch "0" + d else ch "a" + (d - 10).

Fixpoint digits (base : Z) (fuel : nat) (n : Z) : cstr :=
  match fuel with
  | O => []
  | S fuel => (if n <? base then [] else digits base fuel (n / base)) ++ [digit_char (n mod base)]
  end.

(** [ss << v]; a 64-bit number has at most 20 decimal digits. *)
Definition show_dec (v : Z) : cstr := if v <? 0 then ch "-" :: digits 10 20 (- v) else digits 10 20 v.

(** [ss << hex << setfill('0') << setw(w) << v] *)
Definition show_hex (w : nat) (v : Z) : cstr :=
  let s := digits 16 16 v in replicate (w - length s) (ch "0") ++ s.

(** ** Floating-point numbers *)

(** [num / den], rounded once. *)
Definition round_ratio (neg : bool) (num den : positive) : spec_float :=
  SFdiv 53 1024 (S754_finite neg num 0) (S754_finite false den 0).

(** [m * base ^ e] as a ratio, rounded. *)
Definition scaled (neg : bool) (m base e : Z) : spec_float :=
  match m with
  | Z.pos m =>
      if e <? 0 then round_ratio neg m (Z.to_pos (base ^ (- e)))
      else round_ratio neg (Z.to_pos (Z.pos m * base ^ e)) 1
  | _ => S754_zero neg
  end.

(** The range error: an infinity, or a number below the normal ones that is not exact. *)
Definition out_of_range (x : spec_float) (m base e : Z) : bool :=
  match x with
  | S754_infinity _ => true
  | S754_zero _ => negb (m =? 0)
  | S754_finite _ mx ex =>
      (Z.pos mx <? 2 ^ 52) &&
      negb (Z.pos mx * 2 ^ Z.max 0 ex * base ^ Z.max 0 (- e) =? m * base ^ Z.max 0 e * 2 ^ Z.max 0 (- ex))
  | S754_nan => false
  end.

Definition lower (c : Z) : Z := if (ch "A" <=? c) && (c <=? ch "Z") then c + 32 else c.

(** The exponent behind [mark], if there is one with digits. *)
Definition read_exponent (mark : Z) (s : cstr) : Z * cstr :=
  match s with
  | c :: s' =>
      if lower c =? mark then
        let '(neg, s1) := read_sign s' in
        let '(v, n, rest) := read_digits 10 s1 0 0 in
        if (n =? 0)%nat then (0, s) else ((if neg then - v else v), rest)
      else (0, s)
  | [] => (0, [])
  end.

(** The digits before and behind the point: mantissa, number of digits, number
    of them behind the point. *)
Definition read_mantissa (base : Z) (s : cstr) : Z * nat * nat * cstr :=
  let '(v, n, rest) := read_digits base s 0 0 in
  match rest with
  | c :: rest' =>
      if c =? ch "." then
        let '(v', n', rest'') := read_digits base rest' v 0 in
        if (n + n' =? 0)%nat then (0, 0%nat, 0%nat, s) else (v', (n + n')%nat, n', rest'')
      else (v, n, 0%nat, rest)
  | [] => (v, n, 0%nat, [])
  end.

(** A hexadecimal number may begin with the point. *)
Definition hex_float_prefix (s : cstr) : option cstr :=
  match s with
  | c0 :: c1 :: c2 :: c3 :: _ =>
      if (c0 =? ch "0") && ((c1 =? ch "x") || (c1 =? ch "X")) && (c2 =? ch ".") && (digit_val c3 <? 16)
      then Some (drop 2 s) else hex_prefix s
  | _ => hex_prefix s
  end.

Definition strtod (s : cstr) : option (spec_float * cstr * bool) :=
  let '(neg, s) := read_sign (drop_spaces s) in
  let low := lower <$> s in
  if prefix_of (str "infinity") low then Some (S754_infinity neg, drop 8 s, false)
  else if prefix_of (str "inf") low then Some (S754_infinity neg, drop 3 s, false)
  else if prefix_of (str "nan") low then Some (S754_nan, drop 3 s, false)
  else
    match hex_float_prefix s with
    | Some s' =>
        let '(m, n, f, rest) := read_mantissa 16 s' in
        let '(e, rest) := read_exponent (ch "p") rest in
        let e := e - 4 * Z.of_nat f in
        let x := scaled neg m 2 e in
        Some (x, rest, out_of_range x m 2 e)
    | None =>
        let '(m, n, f, rest) := read_mantissa 10 s in
        if (n =? 0)%nat then None else
        let '(e, rest) := read_exponent (ch "e") rest in
        let e := e - Z.of_nat f in
        let x := scaled neg m 10 e in
        Some (x, rest, out_of_range x m 10 e)
    end.

(** ** Decimal numbers are read as they are written *)

Lemma digit_char_val d : 0 <= d < 10 -> digit_val (digit_char d) = d /\ isdigit (digit_char d) = true.
Proof.
  intros H. unfold digit_char, digit_val, isdigit. change (ch "0") with 48.
  rewrite (proj2 (Z.ltb_lt d 10)) by lia.
  rewrite (proj2 (Z.leb_le 48 (48 + d))), (proj2 (Z.leb_le (48 + d) 57)) by lia. split; [simpl; lia|done].
Qed.

Lemma read_digits_snoc base s c : forall acc k a m, read_digits base s acc k = (a, m, []) -> digit_val c < base ->
  read_digits base (s ++ [c]) acc k = (a * base + digit_val c, S m, []).
Proof.
  induction s as [|x s IH]; intros acc k a m; cbn [read_digits app].
  - intros [= <- <-] H. by rewrite (proj2 (Z.ltb_lt _ _)).
  - destruct (_ <? _); [apply IH|done].
Qed.

Lemma digits_read fuel : forall n k, 0 <= n < 10 ^ Z.of_nat fuel -> (0 < fuel)%nat -> exists m,
  read_digits 10 (digits 10 fuel n) 0 k = (n, S m, []) .
Proof.
  induction fuel as [|fuel IH]; intros n k Hn Hf; [lia|]. cbn [digits].
  rewrite Nat2Z.inj_succ, Z.pow_succ_r in Hn by lia.
  pose proof (Z.mod_pos_bound n 10 ltac:(lia)) as Hm. pose proof (Z.div_mod n 10 ltac:(lia)) as Dm.
  destruct (digit_char_val _ Hm) as [V _]. destruct (n <? 10) eqn:E.
  - exists k. cbn [app read_digits]. rewrite V, (proj2 (Z.ltb_lt _ _)) by lia. f_equal. f_equal.
    rewrite Z.mod_small by lia. lia.
  - assert (0 <= n / 10 < 10 ^ Z.of_nat fuel) as Hd by (split; [apply Z.div_pos; lia|apply Z.div_lt_upper_bound; lia]).
    destruct fuel as [|fuel]; [simpl in Hd; lia|]. destruct (IH (n / 10) k Hd ltac:(lia)) as [m Em].
    exists (S m). erewrite read_digits_snoc; [|exact Em|lia]. rewrite V. f_equal. f_equal. lia.
Qed.

Lemma digits_all fuel : forall n, 0 <= n -> Forall (fun c => isdigit c = true) (digits 10 fuel n).
Proof.
  induction fuel as [|fuel IH]; intros n Hn; cbn [digits]; [done|]. apply Forall_app. split.
  - destruct (_ <? _); [done|]. apply IH. apply Z.div_pos; lia.
  - constructor; [|done]. apply digit_char_val. apply Z.mod_pos_bound. lia.
Qed.

(** Only the number 0 begins with a zero. *)
Lemma digits_head fuel : forall n, 0 < n < 10 ^ Z.of_nat fuel -> exists c s,
  digits 10 fuel n = c :: s /\ c <> ch "0".
Proof.
  induction fuel as [|fuel IH]; intros n Hn; [simpl in Hn; lia|]. cbn [digits].
  rewrite Nat2Z.inj_succ, Z.pow_succ_r in Hn by lia. destruct (n <? 10) eqn:E.
  - exists (digit_char (n mod 10)), []. split; [done|]. rewrite Z.mod_small by lia. unfold digit_char.
    rewrite E. change (ch "0") with 48. lia.
  - destruct (IH (n / 10)) as (c&s&->&?); [|by exists c, (s ++ [digit_char (n mod 10)])].
    split; [apply Z.div_str_pos; lia|apply Z.div_lt_upper_bound; lia].
Qed.

Lemma digit_plain c : isdigit c = true -> isspace c = false /\ c <> ch "-" /\ c <> ch "+" /\ c <> ch "x" /\ c <> ch "X".
Proof.
  unfold isdigit, isspace. change (ch "-") with 45. change (ch "+") with 43. change (ch "x") with 120. change (ch "X") with 88.
  intros H. bool_prop. rewrite (proj2 (Z.eqb_neq c 32)), (proj2 (Z.leb_le 9 c)), (proj2 (Z.leb_gt c 13)) by lia. repeat split; lia.
Qed.

Lemma digits_nonempty fuel n : (0 < fuel)%nat -> exists c s, digits 10 fuel n = c :: s.
Proof.
  destruct fuel; [lia|]. intros _. cbn [digits]. destruct (if _ <? _ then _ else _); simpl; eauto.
Qed.

(** The digits alone, whatever base is asked for. *)
Lemma read_unsigned base n : base = 0 \/ base = 10 -> 0 <= n < 10 ^ 20 ->
  let s := digits 10 20 n in
  let '(base, s) := if base =? 0 then
      match hex_prefix s with
      | Some s' => (16, s')
      | None => if default 0 (head s) =? ch "0" then (8, s) else (10, s)
      end else (base, s) in
  exists m, read_digits base s 0 0 = (n, S m, []).
Proof.
  intros [->| ->] Hn s; [|by apply digits_read; [|lia]]. change (0 =? 0) with true. cbv iota.
  assert (hex_prefix s = None) as ->.
  { pose proof (digits_all 20 n ltac:(lia)) as F. fold s in F. destruct s as [|c0 [|c1 [|c2 s]]]; try done.
    apply Forall_cons in F as [_ [F _]%Forall_cons]. apply digit_plain in F as (_&_&_&X1&X2). unfold hex_prefix.
    by rewrite (proj2 (Z.eqb_neq c1 (ch "x"))), (proj2 (Z.eqb_neq c1 (ch "X"))), andb_false_r. }
  destruct (decide (n = 0)) as [E|E]; [subst s; subst n; vm_compute; eauto|].
  destruct (digits_head 20 n ltac:(change (Z.of_nat 20) with 20; lia)) as (c&s'&Es&Hc). fold s in Es.
  rewrite Es. change (default 0 (head (c :: s'))) with c. rewrite (proj2 (Z.eqb_neq c (ch "0"))) by done. rewrite <- Es. by apply digits_read; [|lia].
Qed.

(** A number that was written is read back, in base 10 and in base 0. *)
Lemma read_number_show base v : base = 0 \/ base = 10 -> Z.abs v < 10 ^ 20 ->
  read_number base (show_dec v) = Some (v <? 0, Z.abs v, []).
Proof.
  intros Hb Hv. pose proof (read_unsigned base (Z.abs v) Hb ltac:(lia)) as R. cbv zeta in R.
  assert (read_sign (drop_spaces (show_dec v)) = (v <? 0, digits 10 20 (Z.abs v))) as E.
  { unfold show_dec. destruct (v <? 0) eqn:S; [rewrite Z.abs_neq by lia; reflexivity|]. rewrite Z.abs_eq by lia.
    pose proof (digits_all 20 v ltac:(lia)) as F. destruct (digits_nonempty 20 v ltac:(lia)) as (c&s&Es). rewrite Es in *.
    apply Forall_cons in F as [(Sp&M1&M2&_)%digit_plain _]. cbn [drop_spaces]. rewrite Sp. unfold read_sign.
    by rewrite (proj2 (Z.eqb_neq c (ch "-"))), (proj2 (Z.eqb_neq c (ch "+"))). }
  unfold read_number. rewrite E. destruct (if base =? 0 then _ else _) as [b s]. destruct R as [m ->]. done.
Qed.
