(* ===== verification/Gen.v ===== *)
(** * The type generator: names and signatures (gen/ZCMGen.cpp, gen/ZCMGen.hpp)

    Every message type has a signature, a 64-bit hash over the characters of its
    declaration that sender and receiver compare.  Strings are lists of bytes;
    a [char] is signed. *)
From Stdlib Require Import SpecFloat.
From S2P Require Import Prelude Bytes Transport Url.
Local Open Scope Z_scope.

(** ** Built-in types *)

Definition primitiveTypes : list cstr :=
  str <$> ["int8_t"; "int16_t"; "int32_t"; "int64_t"; "byte"; "float"; "double"; "string"; "boolean"]%string.
Definition arrayDimTypes : list cstr := str <$> ["int8_t"; "int16_t"; "int32_t"; "int64_t"]%string.
Definition constTypes : list cstr :=
  str <$> ["byte"; "int8_t"; "int16_t"; "int32_t"; "int64_t"; "float"; "double"; "string"]%string.
Definition fixedPointTypes : list cstr := str <$> ["byte"; "int8_t"; "int16_t"; "int32_t"; "int64_t"]%string.

Definition primitiveTypeSize : list (cstr * nat) :=
  (fun x => (str x.1, x.2)) <$>
  [("int8_t", 1%nat); ("int16_t", 2%nat); ("int32_t", 4%nat); ("int64_t", 8%nat); ("byte", 1%nat); ("float", 4%nat);
   ("double", 8%nat); ("boolean", 1%nat)]%string.

Definition inArray (ts : list cstr) (t : cstr) : bool := bool_decide (t ∈ ts).
Definition isPrimitiveType (t : cstr) : bool := inArray primitiveTypes t.
Definition isArrayDimType (t : cstr) : bool := inArray arrayDimTypes t.
Definition isLegalConstType (t : cstr) : bool := inArray constTypes t.

(** [None] is the exit for a type without a size. *)
Definition getPrimitiveTypeSize (tn : cstr) : option nat :=
  match list_find (fun x => x.1 = tn) primitiveTypeSize with
  | Some (_, x) => Some x.2
  | None => None
  end.
Definition getPrimitiveTypeNumBits (tn : cstr) : option nat := (fun n => n * 8)%nat <$> getPrimitiveTypeSize tn.

Definition isalpha (c : byte) : bool :=
  ((ch "a" <=? c) && (c <=? ch "z")) || ((ch "A" <=? c) && (c <=? ch "Z")).
(** [t[0]] of an empty string is its terminator. *)
Definition first (t : cstr) : byte := default 0 (head t).
Definition isLegalMemberName (t : cstr) : bool := isalpha (first t) || (first t =? ch "_").
Definition isLegalTypeName (t : cstr) : bool := isLegalMemberName t || (first t =? ch ".").

(** ** The hash *)

(** The mask is computed in an [int]; shifting it further than its width is
    undefined. *)
Definition signExtendedRightShift (val : Z) (nShift : Z) : option Z :=
  if Z.shiftr val 63 =? 0 then Some (Z.shiftr val nShift) else
  check ((0 <=? 64 - nShift) && (64 - nShift <? 31)) ;;
  Some (Z.lor (Z.shiftr val nShift) (wrapu 64 (Z.lnot (Z.shiftl 1 (64 - nShift) - 1)))).

(** The value a [char] holds after being assigned [z]. *)
Definition char (z : Z) : Z := wraps 8 z.

Definition hashUpdate_char (v c : Z) : option Z :=
  s <- signExtendedRightShift v 55 ;;
  Some (wrapu 64 (Z.lxor (wrapu 64 (Z.shiftl v 8)) s + c)).

#[local] Arguments hashUpdate_char : simpl never.

Fixpoint hashUpdate_chars (v : Z) (cs : list Z) : option Z :=
  match cs with
  | [] => Some v
  | c :: cs => v <- hashUpdate_char v c ;; hashUpdate_chars v cs
  end.

Definition hashUpdate_string (v : Z) (s : cstr) : option Z :=
  v <- hashUpdate_char v (char (Z.of_nat (length s))) ;;
  hashUpdate_chars v (char <$> s).

(** ** Declarations *)

Record ZCMTypename := mkTypename {
  fullname : cstr;
  package : cstr;
  shortname : cstr;
  numbits : Z;
  signExtend : bool
}.

Fixpoint rfind_loop (c : byte) (s : cstr) (i : nat) (best : option nat) : option nat :=
  match s with
  | [] => best
  | x :: s => rfind_loop c s (i + 1)%nat (if x =? c then Some i else best)
  end.
(** [name.rfind(c)] *)
Definition rfind (s : cstr) (c : byte) : option nat := rfind_loop c s 0 None.

(** The constructor; [prefix] is the option package-prefix. *)
Definition typename_create (prefix name : cstr) (skipPrefix : bool) : ZCMTypename :=
  let packagePrefix := if skipPrefix then [] else prefix in
  let '(pkg, short) :=
    match rfind name (ch ".") with
    | None => ([], name)
    | Some dot => (take dot name, drop (dot + 1) name)
    end in
  if negb (bool_decide (packagePrefix = [])) && negb (isPrimitiveType short) then
    let pkg := if negb (bool_decide (pkg = [])) then packagePrefix ++ [ch "."] ++ pkg else packagePrefix in
    mkTypename (pkg ++ [ch "."] ++ short) pkg short 0 false
  else mkTypename name pkg short 0 false.

Inductive ZCMDimensionMode := ZCM_CONST | ZCM_VAR.

Record ZCMDimension := mkDim { mode : ZCMDimensionMode; dsize : cstr }.

Record ZCMMember := mkMember {
  mtype : ZCMTypename;
  membername : cstr;
  dimensions : list ZCMDimension;
  mcomment : cstr
}.

(** The member of the union that was written last. *)
Inductive ZCMValue := ValI64 (v : Z) | ValF (v : spec_float) | ValD (v : spec_float) | ValNone.

Record ZCMConstant := mkConstant {
  ctype : cstr;
  cname : cstr;
  cval : ZCMValue;
  valstr : cstr;
  cnumbits : Z;
  csignExtend : bool;
  ccomment : cstr
}.

(** Nested structs, which the parser rejects, are left out. *)
Record ZCMStruct := mkStruct {
  structname : ZCMTypename;
  members : list ZCMMember;
  constants : list ZCMConstant;
  zcmfile : cstr;
  hash : option Z;
  scomment : cstr
}.

Definition mode_char (m : ZCMDimensionMode) : Z := match m with ZCM_CONST => 0 | ZCM_VAR => 1 end.

Definition isConstantSizeArray (m : ZCMMember) : bool :=
  forallb (fun d => match mode d with ZCM_VAR => false | ZCM_CONST => true end) (dimensions m).

Fixpoint findMember (l : list ZCMMember) (name : cstr) : option ZCMMember :=
  match l with
  | [] => None
  | zm :: l => if bool_decide (membername zm = name) then Some zm else findMember l name
  end.

Fixpoint findConst (l : list ZCMConstant) (name : cstr) : option ZCMConstant :=
  match l with
  | [] => None
  | zc :: l => if bool_decide (cname zc = name) then Some zc else findConst l name
  end.

Definition isFixedPoint (type : cstr) : bool := inArray fixedPointTypes type.

Section Hash.
(** The two build options. *)
Context (ENABLE_TYPENAME_HASHING ENABLE_MEMBERNAME_HASHING : bool).

Fixpoint hash_dims (v : Z) (l : list ZCMDimension) : option Z :=
  match l with
  | [] => Some v
  | dim :: l =>
      v <- hashUpdate_char v (mode_char (mode dim)) ;;
      v <- hashUpdate_string v (dsize dim) ;;
      hash_dims v l
  end.

Definition hash_member (v : Z) (m : ZCMMember) : option Z :=
  v <- (if ENABLE_MEMBERNAME_HASHING then hashUpdate_string v (membername m) else Some v) ;;
  v <- (if isPrimitiveType (fullname (mtype m)) then
          v <- hashUpdate_string v (fullname (mtype m)) ;;
          if negb (numbits (mtype m) =? 0) then hashUpdate_char v (char (numbits (mtype m))) else Some v
        else Some v) ;;
  v <- hashUpdate_char v (char (Z.of_nat (length (dimensions m)))) ;;
  hash_dims v (dimensions m).

Fixpoint hash_members (v : Z) (l : list ZCMMember) : option Z :=
  match l with
  | [] => Some v
  | m :: l => v <- hash_member v m ;; hash_members v l
  end.

Definition computeHash (s : ZCMStruct) : option Z :=
  v <- (if ENABLE_TYPENAME_HASHING then hashUpdate_string 0x12345678 (shortname (structname s)) else Some 0x12345678) ;;
  hash_members v (members s).

(** ** The characters that are hashed *)

Definition string_chars (s : cstr) : list Z := char (Z.of_nat (length s)) :: (char <$> s).

Definition member_chars (m : ZCMMember) : list Z :=
  (if ENABLE_MEMBERNAME_HASHING then string_chars (membername m) else []) ++
  (if isPrimitiveType (fullname (mtype m)) then
     string_chars (fullname (mtype m)) ++
     (if negb (numbits (mtype m) =? 0) then [char (numbits (mtype m))] else [])
   else []) ++
  char (Z.of_nat (length (dimensions m))) ::
  (dimensions m ≫= fun d => mode_char (mode d) :: string_chars (dsize d)).

Definition struct_chars (s : ZCMStruct) : list Z :=
  (if ENABLE_TYPENAME_HASHING then string_chars (shortname (structname s)) else []) ++ (members s ≫= member_chars).

Lemma hashUpdate_chars_app l1 l2 v :
  hashUpdate_chars v (l1 ++ l2) = (v' <- hashUpdate_chars v l1 ;; hashUpdate_chars v' l2).
Proof. revert v. induction l1 as [|c l1 IH]; intros v; [done|]. cbn [app hashUpdate_chars]. destruct (hashUpdate_char v c); [apply IH|done]. Qed.

Lemma hash_dims_chars l : forall v,
  hash_dims v l = hashUpdate_chars v (l ≫= fun d => mode_char (mode d) :: string_chars (dsize d)).
Proof.
  induction l as [|d l IH]; intros v; [done|].
  cbn [hash_dims mbind list_bind hashUpdate_chars app]. destruct (hashUpdate_char v _) as [v1|]; [|done].
  unfold hashUpdate_string. cbn [string_chars app hashUpdate_chars].
  destruct (hashUpdate_char v1 _) as [v2|]; [|done].
  rewrite hashUpdate_chars_app. destruct (hashUpdate_chars v2 _); [apply IH|done].
Qed.

Lemma hashUpdate_string_chars v s : hashUpdate_string v s = hashUpdate_chars v (string_chars s).
Proof. done. Qed.

Lemma hash_member_chars v m : hash_member v m = hashUpdate_chars v (member_chars m).
Proof.
  unfold hash_member, member_chars. rewrite hashUpdate_chars_app.
  assert ((if ENABLE_MEMBERNAME_HASHING then hashUpdate_string v (membername m) else Some v) =
    hashUpdate_chars v (if ENABLE_MEMBERNAME_HASHING then string_chars (membername m) else [])) as ->
    by (by destruct ENABLE_MEMBERNAME_HASHING).
  destruct (hashUpdate_chars v _) as [v1|]; [|done]. rewrite hashUpdate_chars_app.
  destruct (isPrimitiveType _).
  - rewrite hashUpdate_chars_app, hashUpdate_string_chars. destruct (hashUpdate_chars v1 _) as [v2|]; [|done].
    destruct (negb _); cbn [hashUpdate_chars]; [destruct (hashUpdate_char v2 _); [|done]|];
      (destruct (hashUpdate_char _ _); [|done]); apply hash_dims_chars.
  - cbn [hashUpdate_chars]. destruct (hashUpdate_char _ _); [|done]. apply hash_dims_chars.
Qed.

Lemma hash_members_chars l : forall v, hash_members v l = hashUpdate_chars v (l ≫= member_chars).
Proof.
  induction l as [|m l IH]; intros v; [done|]. cbn [hash_members mbind list_bind].
  rewrite hashUpdate_chars_app, hash_member_chars. destruct (hashUpdate_chars v _); [apply IH|done].
Qed.

Lemma computeHash_chars s : computeHash s = hashUpdate_chars 0x12345678 (struct_chars s).
Proof.
  unfold computeHash, struct_chars. rewrite hashUpdate_chars_app.
  destruct ENABLE_TYPENAME_HASHING; [rewrite hashUpdate_string_chars|]; cbn [hashUpdate_chars].
  - destruct (hashUpdate_chars _ _); [|done]. apply hash_members_chars.
  - apply hash_members_chars.
Qed.
End Hash.

(** ** The step is a bijection *)

Lemma testbit_u64 v i : in_u 64 v -> 64 <= i -> Z.testbit v i = false.
Proof.
  intros Hv Hi. rewrite <- (Z.mod_small v (2 ^ 64)) by exact Hv. by apply Z.mod_pow2_bits_high.
Qed.

Lemma top_bit v : in_u 64 v -> (Z.shiftr v 63 =? 0) = negb (Z.testbit v 63).
Proof.
  intros Hv. rewrite Z.testbit_odd. unfold in_u in Hv.
  assert (Z.shiftr v 63 = 0 \/ Z.shiftr v 63 = 1) as [->| ->]; [|done..].
  rewrite Z.shiftr_div_pow2 by lia. pose proof (Z.div_pos v (2 ^ 63)).
  assert (v / 2 ^ 63 < 2) by (apply Z.div_lt_upper_bound; lia). lia.
Qed.

(** It shifts like a signed number: the top bit fills in. *)
Lemma sar_bits v s i : in_u 64 v -> signExtendedRightShift v 55 = Some s -> 0 <= i < 64 ->
  Z.testbit s i = Z.testbit v (if i <? 8 then i + 55 else 63).
Proof.
  intros Hv. unfold signExtendedRightShift. rewrite top_bit by done. destruct (Z.testbit v 63) eqn:E63; cbn [negb].
  - change (Z.shiftl 1 (64 - 55) - 1) with (Z.ones 9). intros [= <-] Hi. rewrite Z.lor_spec, Z.shiftr_spec by lia. unfold wrapu.
    rewrite Z.mod_pow2_bits_low, Z.lnot_spec by lia.
    rewrite Z.testbit_ones_nonneg by lia. destruct (i <? 8) eqn:E8, (i <? 9) eqn:E9; bool_prop; try lia; simpl.
    + by rewrite orb_false_r.
    + assert (i = 8) as -> by lia. by rewrite orb_false_r.
    + by rewrite orb_true_r.
  - intros [= <-] Hi. rewrite Z.shiftr_spec by lia. destruct (i <? 8) eqn:E8; bool_prop; [done|].
    destruct (decide (i = 8)) as [->|]; [done|]. rewrite E63. apply testbit_u64; [done|lia].
Qed.

Lemma sar_defined v : exists s, signExtendedRightShift v 55 = Some s.
Proof. unfold signExtendedRightShift. destruct (_ =? _); eauto. Qed.

(** The bits before the character is added. *)
Definition mix (v s : Z) : Z := Z.lxor (wrapu 64 (Z.shiftl v 8)) s.

Lemma mix_bits v s i : in_u 64 v -> signExtendedRightShift v 55 = Some s -> 0 <= i < 64 ->
  Z.testbit (mix v s) i = if i <? 8 then Z.testbit v (i + 55) else xorb (Z.testbit v (i - 8)) (Z.testbit v 63).
Proof.
  intros Hv Hs Hi. unfold mix, wrapu. rewrite Z.lxor_spec, Z.mod_pow2_bits_low, Z.shiftl_spec by lia.
  rewrite (sar_bits v s i Hv Hs Hi). destruct (i <? 8) eqn:E; bool_prop; [|done].
  by rewrite Z.testbit_neg_r, xorb_false_l by lia.
Qed.

Lemma sar_range v s : in_u 64 v -> signExtendedRightShift v 55 = Some s -> in_u 64 s.
Proof.
  intros Hv. unfold signExtendedRightShift. assert (in_u 64 (Z.shiftr v 55)) as Hr.
  { unfold in_u in *. rewrite Z.shiftr_div_pow2 by lia. split; [apply Z.div_pos; lia|].
    apply Z.div_lt_upper_bound; lia. }
  destruct (_ =? 0); [by intros [= <-]|]. intros [= <-]. unfold in_u in *. split; [apply Z.lor_nonneg; split; [lia|by vm_compute]|].
  rewrite <- (Z.mod_small (Z.shiftr v 55) (2 ^ 64)) by done. change (wrapu 64 _) with ((2 ^ 64 - 512) mod 2 ^ 64).
  rewrite <- !Z.land_ones, <- Z.land_lor_distr_l, Z.land_ones by lia. apply Z.mod_pos_bound. lia.
Qed.

Lemma mix_range v s : in_u 64 s -> in_u 64 (mix v s).
Proof.
  intros Hs. unfold mix, wrapu. rewrite <- (Z.mod_small s (2 ^ 64)) by exact Hs.
  rewrite <- !Z.land_ones by lia.
  assert (Z.lxor (Z.land (Z.shiftl v 8) (Z.ones 64)) (Z.land s (Z.ones 64)) = Z.land (Z.lxor (Z.shiftl v 8) s) (Z.ones 64)) as ->.
  { apply Z.bits_inj'. intros i Hi. rewrite !Z.lxor_spec, !Z.land_spec, Z.lxor_spec. by destruct (Z.testbit _ _), (Z.testbit _ _), (Z.testbit _ _). }
  rewrite Z.land_ones by lia. apply Z.mod_pos_bound. lia.
Qed.

Lemma mix_inj v v' s s' : in_u 64 v -> in_u 64 v' ->
  signExtendedRightShift v 55 = Some s -> signExtendedRightShift v' 55 = Some s' -> mix v s = mix v' s' -> v = v'.
Proof.
  intros Hv Hv' Hs Hs' E.
  assert (forall i, 0 <= i < 64 ->
    (if i <? 8 then Z.testbit v (i + 55) else xorb (Z.testbit v (i - 8)) (Z.testbit v 63)) =
    (if i <? 8 then Z.testbit v' (i + 55) else xorb (Z.testbit v' (i - 8)) (Z.testbit v' 63))) as H.
  { intros i Hi. rewrite <- (mix_bits v s), <- (mix_bits v' s') by done. by rewrite E. }
  assert (Z.testbit v 63 = Z.testbit v' 63) as H63.
  { assert (Z.testbit v 55 = Z.testbit v' 55) as H0 by exact (H 0 ltac:(lia)).
    assert (xorb (Z.testbit v 55) (Z.testbit v 63) = xorb (Z.testbit v' 55) (Z.testbit v' 63)) as H1
      by exact (H 63 ltac:(lia)).
    rewrite H0 in H1. revert H1.
    by destruct (Z.testbit v' 55), (Z.testbit v 63), (Z.testbit v' 63). }
  apply Z.bits_inj'. intros i Hi. destruct (decide (64 <= i)); [by rewrite !testbit_u64|].
  destruct (decide (i < 56)).
  - specialize (H (i + 8) ltac:(lia)). rewrite (proj2 (Z.ltb_ge _ _)) in H by lia.
    replace (i + 8 - 8) with i in H by lia. rewrite H63 in H. revert H.
    by destruct (Z.testbit v i), (Z.testbit v' i), (Z.testbit v' 63).
  - destruct (decide (i = 63)) as [->|]; [done|]. specialize (H (i - 55) ltac:(lia)).
    rewrite (proj2 (Z.ltb_lt _ _)) in H by lia. by replace (i - 55 + 55) with i in H by lia.
Qed.

Definition char_ok (c : Z) : Prop := -128 <= c < 128.

Lemma char_range z : char_ok (char z).
Proof. apply (wraps_range 8). lia. Qed.

Lemma hashUpdate_char_defined v c : exists v', hashUpdate_char v c = Some v' /\ in_u 64 v'.
Proof.
  unfold hashUpdate_char. destruct (sar_defined v) as [s ->]. eexists. split; [done|]. by apply wrapu_range.
Qed.

(** Equal results from values that differ need characters that differ. *)
Lemma hashUpdate_char_inj v v' c c' r : in_u 64 v -> in_u 64 v' -> char_ok c -> char_ok c' ->
  hashUpdate_char v c = Some r -> hashUpdate_char v' c' = Some r -> (v = v' <-> c = c').
Proof.
  intros Hv Hv' Hc Hc'. unfold hashUpdate_char.
  destruct (signExtendedRightShift v 55) as [s|] eqn:Es; [|done].
  destruct (signExtendedRightShift v' 55) as [s'|] eqn:Es'; [|done].
  fold (mix v s) (mix v' s'). intros [= E1] [= E2].
  pose proof (mix_range v s (sar_range v s Hv Es)) as M1. pose proof (mix_range v' s' (sar_range v' s' Hv' Es')) as M2.
  assert ((mix v s + c - (mix v' s' + c')) mod 2 ^ 64 = 0) as D.
  { rewrite Zminus_mod. fold (wrapu 64 (mix v s + c)) (wrapu 64 (mix v' s' + c')). by rewrite E1, E2, Z.sub_diag. }
  unfold char_ok, in_u in *. split.
  - intros ->. assert (s' = s) as -> by congruence.
    apply Z.mod_divide in D as [k Hk]; [|lia]. assert (k = 0) by nia. subst k. lia.
  - intros ->. apply (mix_inj v v' s s'); auto.
    apply Z.mod_divide in D as [k Hk]; [|lia]. assert (k = 0) by nia. subst k. lia.
Qed.

Lemma hashUpdate_chars_inj cs : forall v v' r, in_u 64 v -> in_u 64 v' -> Forall char_ok cs ->
  hashUpdate_chars v cs = Some r -> hashUpdate_chars v' cs = Some r -> v = v'.
Proof.
  induction cs as [|c cs IH]; intros v v' r Hv Hv' F; cbn [hashUpdate_chars]; [congruence|].
  apply Forall_cons in F as [Fc F].
  destruct (hashUpdate_char_defined v c) as (w&Ew&Rw). destruct (hashUpdate_char_defined v' c) as (w'&Ew'&Rw').
  rewrite Ew, Ew'. intros E E'. assert (w = w') as <- by (by eapply IH).
  by apply (hashUpdate_char_inj v v' c c w).
Qed.

Lemma hashUpdate_chars_defined cs : forall v, in_u 64 v -> exists r, hashUpdate_chars v cs = Some r /\ in_u 64 r.
Proof.
  induction cs as [|c cs IH]; intros v Hv; cbn [hashUpdate_chars]; [eauto|].
  destruct (hashUpdate_char_defined v c) as (w&->&Rw). auto.
Qed.

Lemma string_chars_ok s : Forall char_ok (string_chars s).
Proof. constructor; [apply char_range|]. apply Forall_fmap, Forall_true. intros c. apply char_range. Qed.

Lemma bind_chars_ok {A} (f : A -> list Z) l : (forall x, Forall char_ok (f x)) -> Forall char_ok (l ≫= f).
Proof. intros H. induction l as [|x l IH]; [done|]. cbn [mbind list_bind]. apply Forall_app. by split. Qed.

#[local] Hint Resolve char_range string_chars_ok : zcm.

Lemma member_chars_ok mh m : Forall char_ok (member_chars mh m).
Proof.
  unfold member_chars. repeat apply Forall_app_2.
  - destruct mh; auto with zcm.
  - destruct (isPrimitiveType _); [|auto]. apply Forall_app_2; [auto with zcm|]. destruct (negb _); auto with zcm.
  - constructor; [apply char_range|]. apply bind_chars_ok. intros d. constructor; [|auto with zcm].
    destruct (mode d); by vm_compute.
Qed.

Lemma struct_chars_ok th mh s : Forall char_ok (struct_chars th mh s).
Proof.
  unfold struct_chars. apply Forall_app_2; [destruct th; auto with zcm|]. apply bind_chars_ok, member_chars_ok.
Qed.

(** every struct has a signature, whatever the build options, and two structs
    whose declarations differ in exactly one of the characters that are hashed, a
    letter of a name, of a type or of an array size, the number of bits of a bit
    field or the kind of a dimension, have different signatures. *)
Theorem hash_single_change th mh (s s' : ZCMStruct) pre c c' post :
  struct_chars th mh s = pre ++ c :: post -> struct_chars th mh s' = pre ++ c' :: post -> c <> c' ->
  exists h h', computeHash th mh s = Some h /\ computeHash th mh s' = Some h' /\ in_u 64 h /\ in_u 64 h' /\ h <> h'.
Proof.
  intros E E' Hc. rewrite !computeHash_chars.
  assert (in_u 64 0x12345678) as I by (unfold in_u; lia).
  destruct (hashUpdate_chars_defined (struct_chars th mh s) _ I) as (h&Hh&R).
  destruct (hashUpdate_chars_defined (struct_chars th mh s') _ I) as (h'&Hh'&R').
  exists h, h'. do 4 (split; [done|]). intros <-.
  pose proof (struct_chars_ok th mh s) as K. rewrite E in K. apply Forall_app in K as [_ [K Kp]%Forall_cons].
  pose proof (struct_chars_ok th mh s') as K'. rewrite E' in K'. apply Forall_app in K' as [_ [K' _]%Forall_cons].
  rewrite E, hashUpdate_chars_app in Hh. rewrite E', hashUpdate_chars_app in Hh'.
  destruct (hashUpdate_chars_defined pre _ I) as (v&Ev&Rv). rewrite Ev in Hh, Hh'. cbn [hashUpdate_chars] in Hh, Hh'.
  destruct (hashUpdate_char_defined v c) as (w&Ew&Rw). destruct (hashUpdate_char_defined v c') as (w'&Ew'&Rw').
  cbn [mbind option_bind hashUpdate_chars] in Hh, Hh'. rewrite Ew in Hh. rewrite Ew' in Hh'.
  assert (w = w') as <- by (by eapply hashUpdate_chars_inj).
  apply Hc. by apply (hashUpdate_char_inj v v c c' w).
Qed.

(** Two declarations of a bit field that differ in the sign extension only. *)
Lemma hash_ignores_sign_extension th mh : exists s s' : ZCMStruct,
  s <> s' /\ computeHash th mh s = computeHash th mh s' /\
  (signExtend ∘ mtype) <$> members s <> (signExtend ∘ mtype) <$> members s'.
Proof.
  set (field := fun e => mkStruct (mkTypename (str "a") [] (str "a") 0 false)
    [mkMember (mkTypename (str "int8_t") [] (str "int8_t") 3 e) (str "x") [] []] [] [] None []).
  exists (field true), (field false). split; [|split]; [|reflexivity|]; intros E; by injection E.
Qed.

Lemma hash_single_change_witness :
  let field x := mkStruct (mkTypename (str "a") [] (str "a") 0 false)
    [mkMember (mkTypename (str "int16_t") [] (str "int16_t") 0 false) x [] []] [] [] None [] in
  exists h h', computeHash false true (field (str "x")) = Some h /\
    computeHash false true (field (str "y")) = Some h' /\ in_u 64 h /\ in_u 64 h' /\ h <> h'.
Proof.
  intros field.
  apply (hash_single_change false true (field (str "x")) (field (str "y")) [1] (ch "x") (ch "y")
    (string_chars (str "int16_t") ++ [0])); by vm_compute.
Defined.
