(* ===== verification/GenParse.v ===== *)
(** * The type generator: the parser (gen/ZCMGen.cpp)

    The parser reads tokens, looking one ahead, and builds the structs of the
    files it is given.  An error prints a message and exits.  The options of the
    command line that matter are the package prefix and, at build time, the two
    choices of the signature.  What [semantic_error] and [parse_error] print is
    left out. *)
From Stdlib Require Import SpecFloat.
From S2P Require Import Prelude Bytes Transport Url Tokenize CNum Gen.
Local Open Scope Z_scope.

(** ** State, errors and tokens *)

(** The tokens that were not consumed, the fields of [ZCMGen] and whether errno
    is ERANGE: nothing resets it. *)
Record parser := mkParser {
  toks : list token;
  structs : list ZCMStruct;
  gpackage : cstr;
  comment : cstr;
  erange : bool
}.

(** A value and the state behind it, [exit(1)], undefined behaviour, or more
    turns of a loop than there was fuel for. *)
Inductive result (A : Type) := Ok (a : A) (p : parser) | Exit | Undef | OutOfFuel.
Arguments Ok {_} _ _.
Arguments Exit {_}.
Arguments Undef {_}.
Arguments OutOfFuel {_}.

Definition M (A : Type) : Type := parser -> result A.

Definition ret {A} (a : A) : M A := fun p => Ok a p.
Definition bind {A B} (m : M A) (k : A -> M B) : M B := fun p =>
  match m p with
  | Ok a p => k a p
  | Exit => Exit
  | Undef => Undef
  | OutOfFuel => OutOfFuel
  end.
Definition error {A} : M A := fun _ => Exit.
Definition undefined {A} : M A := fun _ => Undef.
Definition get_state : M parser := fun p => Ok p p.
Definition lift_exit {A} (o : option A) : M A := match o with Some a => ret a | None => error end.

Declare Scope parse_scope.
Delimit Scope parse_scope with parse.
Notation "'let*' x ':=' m 'in' k" := (bind m (fun x => k))
  (at level 200, x name, m at level 99, k at level 200, right associativity) : parse_scope.
Notation "'guard' b ';' k" := (if b then k else error) (at level 200, b at level 99, k at level 200) : parse_scope.
Local Open Scope parse_scope.

Definition set_toks (p : parser) (ks : list token) : parser :=
  mkParser ks (structs p) (gpackage p) (comment p) (erange p).
Definition set_comment (p : parser) (c : cstr) : parser :=
  mkParser (toks p) (structs p) (gpackage p) c (erange p).
Definition set_package (p : parser) (c : cstr) : parser :=
  mkParser (toks p) (structs p) c (comment p) (erange p).
Definition set_erange (p : parser) (e : bool) : parser :=
  mkParser (toks p) (structs p) (gpackage p) (comment p) e.
Definition push_struct (p : parser) (zs : ZCMStruct) : parser :=
  mkParser (toks p) (structs p ++ [zs]) (gpackage p) (comment p) (erange p).

Definition is_comment (k : token) : bool := bool_decide (ttype k = ZCM_TOK_COMMENT).

(** The next token, or [None] at the end of the file, which stays there. *)
Definition tokenize_next : M (option token) := fun p =>
  match toks p with
  | [] => Ok None p
  | k :: ks => Ok (Some k) (set_toks p ks)
  end.

Fixpoint consume_comments (ks : list token) (c : cstr) : list token * cstr :=
  match ks with
  | k :: ks' =>
      if is_comment k
      then consume_comments ks' ((if bool_decide (c = []) then c else c ++ [NEWLINE]) ++ text k)
      else (ks, c)
  | [] => ([], c)
  end.

(** With [keep] the comments are stored in [zcmgen.comment]. *)
Definition parseTryConsumeComment (keep : bool) : M unit := fun p =>
  let '(ks, c) := consume_comments (toks p) [] in
  let p := set_toks p ks in
  Ok tt (if keep then set_comment p c else p).

Definition parseTryConsume (tok : cstr) : M bool :=
  let* _ := parseTryConsumeComment false in
  fun p => match toks p with
           | [] => Exit
           | k :: ks =>
               if negb (is_comment k) && bool_decide (text k = tok) then Ok true (set_toks p ks) else Ok false p
           end.

Definition parseRequire (tok : cstr) : M unit :=
  let* _ := parseTryConsumeComment false in
  let* k := tokenize_next in
  match k with
  | Some k => guard bool_decide (text k = tok); ret tt
  | None => error
  end.

Definition tokenizeNextOrFail : M cstr :=
  let* k := tokenize_next in
  match k with Some k => ret (text k) | None => error end.

(** [std::swap] with a fresh, empty comment when there is one. *)
Definition take_comment : M cstr := fun p =>
  if bool_decide (comment p = []) then Ok [] p else Ok (comment p) (set_comment p []).

(** ** Constants *)

(** Signed 64-bit arithmetic: a result that does not fit is undefined. *)
Definition long (v : Z) : M Z := if (LLONG_MIN <=? v) && (v <=? LLONG_MAX) then ret v else undefined.

(** The checks on a bit field, the same for constants and members. *)
Definition check_bits (type : cstr) (numbits : Z) (signExtend : bool) : M unit :=
  guard negb (numbits =? 0);
  let* width := lift_exit (getPrimitiveTypeNumBits type) in
  guard negb (Z.of_nat width <? numbits);
  guard negb (bool_decide (type = str "byte") && signExtend);
  guard negb (negb (bool_decide (type = str "byte")) && (numbits =? Z.of_nat width) && negb signExtend);
  ret tt.

(** The bit field of a constant, in a [size_t]. *)
Definition const_bits (type : cstr) : M (Z * bool) :=
  let* b := parseTryConsume (str ":") in
  if negb b then ret (0, false) else
  guard isFixedPoint type;
  let* tok := tokenizeNextOrFail in
  let bits := atoi tok in
  if bits =? - 2 ^ 31 then undefined else
  let '(numbits, signExtend) := if bits <? 0 then (- bits, true) else (bits, false) in
  let* _ := check_bits type numbits signExtend in
  ret (numbits, signExtend).

(** The C type of an integer constant: its width and whether it is signed. *)
Record CType := mkCType { width : Z; signed : bool }.
Definition CTYPE (type : cstr) : option CType :=
  if bool_decide (type = str "byte") then Some (mkCType 8 false)
  else if bool_decide (type = str "int8_t") then Some (mkCType 8 true)
  else if bool_decide (type = str "int16_t") then Some (mkCType 16 true)
  else if bool_decide (type = str "int32_t") then Some (mkCType 32 true)
  else if bool_decide (type = str "int64_t") then Some (mkCType 64 true)
  else None.

Definition cast (ct : CType) (v : Z) : Z := if signed ct then wraps (width ct) v else wrapu (width ct) v.
Definition lowest (ct : CType) : Z := if signed ct then - 2 ^ (width ct - 1) else 0.
Definition highest (ct : CType) : Z := if signed ct then 2 ^ (width ct - 1) - 1 else 2 ^ width ct - 1.

(** [1L << n], which reaches the sign bit for 63. *)
Definition shl1L (n : Z) : Z := wraps 64 (2 ^ n).

Definition is_hex (tok : cstr) : bool :=
  (2 <? length tok)%nat && (default 0 (tok !! 0%nat) =? ch "0") &&
  ((default 0 (tok !! 1%nat) =? ch "x") || (default 0 (tok !! 1%nat) =? ch "X")).

(** The number of an integer constant; a range error, this one or an earlier
    one, makes it read again as an unsigned number. *)
Definition int_value (tok : cstr) : M Z := fun p =>
  let '(v, rest, e) := match strtoll tok 0 with Some (v, rest, e) => (v, Some rest, e) | None => (0, None, false) end in
  let p := set_erange p (erange p || e) in
  let '(v, rest, p) :=
    if erange p then
      match strtoull tok 0 with
      | Some (vU, rest, e) => (wraps 64 vU, Some rest, set_erange p (erange p || e))
      | None => (0, None, p)
      end
    else (v, rest, p) in
  if bool_decide (rest = Some []) then Ok v p else Exit.

(** The checks on the value. *)
Definition int_check (ct : CType) (numbits : Z) (signExtend : bool) (tok : cstr) (v : Z) : M unit :=
  if is_hex tok then
    guard negb (width ct / 8 * 2 + 2 <? Z.of_nat (length tok));
    if negb (numbits =? 0) && negb (numbits =? 64) then
      let* m := long (shl1L numbits - 1) in
      let mask := cast ct (Z.lnot m) in
      let vtop := cast ct (Z.land (cast ct v) mask) in
      guard negb (negb (vtop =? mask) && negb (vtop =? 0)); ret tt
    else ret tt
  else if negb (numbits =? 0) then
    if signExtend then
      let* m := long (- shl1L (numbits - 1)) in
      let min := cast ct m in
      let max := cast ct (Z.lnot min) in
      guard negb ((v <? min) || (max <? v)); ret tt
    else
      let* m := long (shl1L numbits - 1) in
      let max := cast ct m in
      guard negb ((v <? 0) || (max <? v)); ret tt
  else guard negb ((v <? lowest ct) || (highest ct <? v)); ret tt.

(** The value that is stored, and its text.  Shifting a negative number to the
    left shifts its bits. *)
Definition int_store (ct : CType) (numbits : Z) (signExtend : bool) (tok : cstr) (v : Z) : Z * cstr :=
  let shift := width ct - numbits in
  let v := if signExtend then Z.shiftr (cast ct (wraps 64 (Z.shiftl v shift))) shift else cast ct v in
  (v, if is_hex tok then str "0x" ++ show_hex (Z.to_nat (width ct / 8 * 2)) (wrapu (width ct) v) else show_dec v).

(** INT_CASE *)
Definition int_case (ct : CType) (numbits : Z) (signExtend : bool) (tok : cstr) : M (ZCMValue * cstr) :=
  let* v := int_value tok in
  let* _ := int_check ct numbits signExtend tok v in
  let '(v, s) := int_store ct numbits signExtend tok v in
  ret (ValI64 v, s).

Definition FLT_MAX : spec_float := binary_normalize 53 1024 ((2 ^ 24 - 1) * 2 ^ 104) 0 false.
Definition DBL_MAX : spec_float := binary_normalize 53 1024 ((2 ^ 53 - 1) * 2 ^ 971) 0 false.

(** The conversion of a [double] to a [float]. *)
Definition to_float (v : spec_float) : spec_float :=
  match v with S754_finite s m e => binary_round 24 128 s m e | _ => v end.

(** FLT_CASE: the text stays as it is. *)
Definition flt_case (max : spec_float) (store : spec_float -> ZCMValue) (tok : cstr) : M (ZCMValue * cstr) := fun p =>
  match strtod tok with
  | Some (v, rest, e) =>
      if negb (bool_decide (rest = [])) then Exit
      else if SFltb max (SFabs v) || SFltb (SFabs v) (SFopp max) then Exit
      else Ok (store v, tok) (set_erange p (erange p || e))
  | None => Exit
  end.

Definition const_value (type : cstr) (numbits : Z) (signExtend : bool) (tok : cstr) : M (ZCMValue * cstr) :=
  match CTYPE type with
  | Some ct => int_case ct numbits signExtend tok
  | None =>
      if bool_decide (type = str "float") then flt_case FLT_MAX (fun v => ValF (to_float v)) tok
      else if bool_decide (type = str "double") then flt_case DBL_MAX ValD tok
      else if bool_decide (type = str "string") then ret (ValNone, tok) else undefined
  end.

Definition add_const (zs : ZCMStruct) (zc : ZCMConstant) : ZCMStruct :=
  mkStruct (structname zs) (members zs) (constants zs ++ [zc]) (zcmfile zs) (hash zs) (scomment zs).
Definition add_member (zs : ZCMStruct) (zm : ZCMMember) : ZCMStruct :=
  mkStruct (structname zs) (members zs ++ [zm]) (constants zs) (zcmfile zs) (hash zs) (scomment zs).

Definition taken (zs : ZCMStruct) (name : cstr) : bool :=
  match findMember (members zs) name, findConst (constants zs) name with None, None => false | _, _ => true end.

(** One turn of the loop over the constants of a declaration. *)
Definition parse_one_const (zs : ZCMStruct) (type : cstr) (numbits : Z) (signExtend : bool) : M ZCMStruct :=
  let* _ := parseTryConsumeComment false in
  let* name := tokenizeNextOrFail in
  guard isLegalMemberName name;
  guard negb (taken zs name);
  let* _ := parseRequire (str "=") in
  let* _ := parseTryConsumeComment false in
  let* tok := tokenizeNextOrFail in
  let* c := take_comment in
  let* v := const_value type numbits signExtend tok in
  ret (add_const zs (mkConstant type name v.1 v.2 numbits signExtend c)).

(** A loop [do body while (parseTryConsume(t, ","))]. *)
Fixpoint comma_loop (body : ZCMStruct -> M ZCMStruct) (fuel : nat) (zs : ZCMStruct) : M ZCMStruct :=
  match fuel with
  | O => fun _ => OutOfFuel
  | S fuel =>
      let* zs := body zs in
      let* more := parseTryConsume (str ",") in
      if more : bool then comma_loop body fuel zs else ret zs
  end.

Definition parseConst (fuel : nat) (zs : ZCMStruct) : M ZCMStruct :=
  let* _ := parseTryConsumeComment false in
  let* type := tokenizeNextOrFail in
  guard isLegalConstType type;
  let* bits := const_bits type in
  let* zs := comma_loop (fun zs => parse_one_const zs type bits.1 bits.2) fuel zs in
  let* _ := parseRequire (str ";") in
  ret zs.

(** ** Members *)

(** The bit field of a member; its number of bits is a [uint8_t]. *)
Definition member_bits (zt : ZCMTypename) : M ZCMTypename :=
  let* b := parseTryConsume (str ":") in
  if negb b then ret zt else
  guard isFixedPoint (fullname zt);
  let* tok := tokenizeNextOrFail in
  let bits := atoi tok in
  guard negb ((bits <? 0) && bool_decide (fullname zt = str "byte"));
  if bits =? - 2 ^ 31 then undefined else
  let '(numbits, signExtend) := if bits <? 0 then (wrapu 8 (- bits), true) else (wrapu 8 bits, false) in
  let* _ := check_bits (fullname zt) numbits signExtend in
  ret (mkTypename (fullname zt) (package zt) (shortname zt) numbits signExtend).

(** The member that a variable dimension names. *)
Definition index_member (zs : ZCMStruct) (tok : cstr) : M unit :=
  match findMember (members zs) tok with
  | None => error
  | Some thislm =>
      guard bool_decide (dimensions thislm = []);
      guard isArrayDimType (fullname (mtype thislm)); ret tt
  end.

(** The dimension that a token between brackets stands for. *)
Definition parse_dim (zs : ZCMStruct) (tok : cstr) : M ZCMDimension :=
  match findConst (constants zs) tok with
  | Some c => guard isArrayDimType (ctype c); ret (mkDim ZCM_CONST (valstr c))
  | None =>
      if isdigit (first tok) then
        guard negb (wraps 32 (strtol tok 0) <=? 0); ret (mkDim ZCM_CONST tok)
      else
        guard negb (first tok =? ch "]");
        guard isLegalMemberName tok;
        let* _ := index_member zs tok in
        ret (mkDim ZCM_VAR tok)
  end.

Fixpoint dims_loop (fuel : nat) (zs : ZCMStruct) (dims : list ZCMDimension) : M (list ZCMDimension) :=
  match fuel with
  | O => fun _ => OutOfFuel
  | S fuel =>
      let* more := parseTryConsume (str "[") in
      if negb more then ret dims else
      let* _ := parseTryConsumeComment false in
      let* tok := tokenizeNextOrFail in
      let* dim := parse_dim zs tok in
      let* _ := parseRequire (str "]") in
      dims_loop fuel zs (dims ++ [dim])
  end.

(** One turn of the loop over the members of a declaration. *)
Definition parse_one_member (fuel : nat) (zt : ZCMTypename) (zs : ZCMStruct) : M ZCMStruct :=
  let* _ := parseTryConsumeComment false in
  let* name := tokenizeNextOrFail in
  guard isLegalMemberName name;
  guard negb (taken zs name);
  let* c := take_comment in
  let* dims := dims_loop fuel zs [] in
  ret (add_member zs (mkMember zt name dims c)).

Section Parse.
(** The option package-prefix and the build options of the signature. *)
Context (package_prefix : cstr) (ENABLE_TYPENAME_HASHING ENABLE_MEMBERNAME_HASHING : bool).

(** The full name of a member's type. *)
Definition member_type (zs : ZCMStruct) (type : cstr) : cstr :=
  if isPrimitiveType type then type
  else if negb (first type =? ch ".") then
    if negb (bool_decide (package (structname zs) = [])) then package (structname zs) ++ [ch "."] ++ type else type
  else if bool_decide (package_prefix = []) then drop 1 type else package_prefix ++ [ch "."] ++ drop 1 type.

Definition parseMember (fuel : nat) (zs : ZCMStruct) : M ZCMStruct :=
  let* b := parseTryConsume (str "struct") in
  if b : bool then error else
  let* b := parseTryConsume (str "const") in
  if b : bool then parseConst fuel zs else
  let* _ := parseTryConsumeComment false in
  let* type := tokenizeNextOrFail in
  guard isLegalTypeName type;
  guard negb (bool_decide (type = str "int"));
  let* zt := member_bits (typename_create package_prefix (member_type zs type) true) in
  let* zs := comma_loop (parse_one_member fuel zt) fuel zs in
  let* _ := parseRequire (str ";") in
  ret zs.

(** ** Structs and files *)

Fixpoint struct_loop (fuel : nat) (zs : ZCMStruct) : M ZCMStruct :=
  match fuel with
  | O => fun _ => OutOfFuel
  | S fuel' =>
      let* stop := parseTryConsume (str "}") in
      if stop : bool then ret zs else
      let* _ := parseTryConsumeComment true in
      let* stop := parseTryConsume (str "}") in
      if stop : bool then ret zs else
      let* zs := parseMember fuel zs in
      struct_loop fuel' zs
  end.

Definition set_hash (zs : ZCMStruct) : M ZCMStruct :=
  match computeHash ENABLE_TYPENAME_HASHING ENABLE_MEMBERNAME_HASHING zs with
  | Some h => ret (mkStruct (structname zs) (members zs) (constants zs) (zcmfile zs) (Some h) (scomment zs))
  | None => undefined
  end.

Definition parseStruct (fuel : nat) (zcmfile package : cstr) : M ZCMStruct :=
  let* _ := parseTryConsumeComment false in
  let* name := tokenizeNextOrFail in
  let full := if bool_decide (package = []) then name else package ++ [ch "."] ++ name in
  let* c := take_comment in
  let zs := mkStruct (typename_create package_prefix full false) [] [] zcmfile None c in
  let* _ := parseRequire (str "{") in
  let* zs := struct_loop fuel zs in
  set_hash zs.

Fixpoint findStruct (l : list ZCMStruct) (pkg name : cstr) : option ZCMStruct :=
  match l with
  | [] => None
  | zs :: l =>
      if bool_decide (pkg = package (structname zs)) && bool_decide (name = shortname (structname zs))
      then Some zs else findStruct l pkg name
  end.

(** The return value: 0, 1 for a duplicate, [EOF]. *)
Definition parseEntity (fuel : nat) (zcmfile : cstr) : M Z :=
  let* _ := parseTryConsumeComment true in
  let* k := tokenize_next in
  match k with
  | None => ret EOF
  | Some k =>
      if bool_decide (text k = str "package") then
        let* _ := parseTryConsumeComment true in
        let* name := tokenizeNextOrFail in
        let* _ := (fun p => Ok tt (set_package p name)) in
        let* _ := parseRequire (str ";") in
        ret 0
      else
        guard bool_decide (text k = str "struct");
        let* p := get_state in
        let* zs := parseStruct fuel zcmfile (gpackage p) in
        fun p =>
          match findStruct (structs p) (package (structname zs)) (shortname (structname zs)) with
          | Some prior => Ok 1 p
          | None => Ok 0 (set_package (push_struct p zs) [])
          end
  end.

Fixpoint entity_loop (fuel n : nat) (zcmfile : cstr) : M Z :=
  match n with
  | O => fun _ => OutOfFuel
  | S n =>
      let* res := parseEntity fuel zcmfile in
      if res =? 0 then entity_loop fuel n zcmfile else ret res
  end.

(** The file's tokens are parsed until its end or a duplicate; every loop reads
    a token, so that their number is enough fuel. *)
Definition handleFile (zcmfile : cstr) (file : list token) : M Z := fun p =>
  let fuel := S (length file) in
  (let* res := entity_loop fuel fuel zcmfile in
   ret (if (res =? 0) || (res =? EOF) then 0 else res)) (set_toks p file).

(** The files of the command line, up to the first that fails. *)
Fixpoint handleFiles (files : list (cstr * list token)) : M Z :=
  match files with
  | [] => ret 0
  | f :: files => let* res := handleFile f.1 f.2 in if res =? 0 then handleFiles files else ret res
  end.
End Parse.

(** The generator's start. *)
Definition gen_create : parser := mkParser [] [] [] [] false.

(** Bit fields are refused for little-endian encodings. *)
Definition little_endian_supported (p : parser) : bool :=
  forallb (fun s => forallb (fun zm => numbits (mtype zm) =? 0) (members s)) (structs p).
