(* ===== verification/GenProps.v ===== *)
(** * The type generator: what the parser guarantees

    Every file is parsed in a bounded number of steps, and the structs that come
    out are well formed: the emitters may rely on it. *)
From Stdlib Require Import SpecFloat.
From S2P Require Import Prelude Bytes Transport Url Tokenize CNum Gen GenParse.
Local Open Scope Z_scope.
Local Open Scope parse_scope.

(** ** Reasoning about parsers *)

(** The parser has enough fuel, and what it returns satisfies [Q]. *)
Definition runs {A} (m : M A) (p : parser) (Q : A -> parser -> Prop) : Prop :=
  match m p with
  | Ok a p' => Q a p'
  | Exit | Undef => True
  | OutOfFuel => False
  end.

Section Rules.
Context {A B : Type}.
Implicit Types (m : M A) (k : A -> M B) (Q : A -> parser -> Prop).

Lemma runs_ret (a : A) p Q : Q a p -> runs (ret a) p Q.
Proof. done. Qed.

Lemma runs_seq m k p R (Q : B -> parser -> Prop) :
  runs m p R -> (forall a p', R a p' -> runs (k a) p' Q) -> runs (bind m k) p Q.
Proof. unfold runs, bind. intros H K. destruct (m p) as [a p'| | |]; [|done..]. by apply K. Qed.

Lemma runs_mono m p Q Q' : runs m p Q -> (forall a p', Q a p' -> Q' a p') -> runs m p Q'.
Proof. unfold runs. intros H K. destruct (m p); [auto|done..]. Qed.

Lemma runs_guard (b : bool) m p Q : (b = true -> runs m p Q) -> runs (guard b; m) p Q.
Proof. destruct b; auto. intros _. done. Qed.

Lemma runs_lift (o : option A) p Q : (forall a, o = Some a -> Q a p) -> runs (lift_exit o) p Q.
Proof. destruct o; [|done]. intros H. by apply H. Qed.
End Rules.

(** [n] tokens fewer; nothing but errno and the comment has changed, and no comment has come. *)
Record after (n : nat) (p p' : parser) : Prop := mkAfter {
  after_toks : (n + length (toks p') <= length (toks p))%nat;
  after_structs : structs p' = structs p;
  after_package : gpackage p' = gpackage p;
  after_comment : comment p = [] -> comment p' = []
}.

Lemma after_refl p : after 0 p p.
Proof. by constructor. Qed.

Lemma after_trans n n' k p p' p'' : after n p p' -> after n' p' p'' -> (k <= n + n')%nat -> after k p p''.
Proof. intros [] [] ?. constructor; [lia|congruence|congruence|auto]. Qed.

Lemma after_weaken n k p p' : after n p p' -> (k <= n)%nat -> after k p p'.
Proof. intros [] ?. constructor; auto. lia. Qed.

(** Chains of steps. *)
Ltac after_solve :=
  match goal with
  | |- after _ ?p ?p => eapply after_weaken; [apply after_refl|lia]
  | H : after _ ?p ?q |- after _ ?p ?q => eapply after_weaken; [exact H|lia]
  | H : after ?n ?p ?q |- after ?k ?p ?r => refine (after_trans n (k - n) k p q r H _ ltac:(lia)); after_solve
  end.

Ltac step lem := eapply runs_seq; [eapply lem|cbv beta].

(** ** The primitives *)

Definition starts_plain (ks : list token) : Prop := match ks with k :: _ => is_comment k = false | [] => True end.

Lemma consume_comments_spec ks : forall c ks' c', consume_comments ks c = (ks', c') ->
  (length ks' <= length ks)%nat /\ starts_plain ks' /\ (starts_plain ks -> ks' = ks /\ c' = c).
Proof.
  induction ks as [|k ks IH]; intros c ks' c'; cbn [consume_comments length].
  - by intros [= <- <-].
  - destruct (is_comment k) eqn:E.
    + intros (?&?&?)%IH. repeat split; [lia|done|..]; simpl in *; congruence.
    + by intros [= <- <-].
Qed.

Lemma comment_drop p : runs (parseTryConsumeComment false) p (fun _ p' => after 0 p p' /\ starts_plain (toks p')).
Proof.
  unfold runs, parseTryConsumeComment. destruct (consume_comments (toks p) []) as [ks c] eqn:E.
  apply consume_comments_spec in E as (?&?&?). by repeat constructor.
Qed.

Lemma tryConsume_spec tok p : runs (parseTryConsume tok) p (fun b p' =>
  after (if b then 1 else 0) p p' /\ (b = false -> starts_plain (toks p'))).
Proof.
  unfold parseTryConsume. step comment_drop. intros _ p' [H1 H2]. unfold runs.
  destruct (toks p') as [|k ks] eqn:E; [done|]. destruct (negb _ && _).
  - split; [|done]. destruct H1. constructor; simpl; auto. rewrite E in *. simpl in *. lia.
  - split; [done|]. by rewrite E.
Qed.

Lemma next_spec p : runs tokenizeNextOrFail p (fun _ p' => after 1 p p').
Proof.
  unfold runs, tokenizeNextOrFail, bind, tokenize_next. destruct (toks p) as [|k ks] eqn:E; [done|].
  constructor; simpl; auto. rewrite E. simpl. lia.
Qed.

Lemma require_spec tok p : runs (parseRequire tok) p (fun _ p' => after 1 p p').
Proof.
  unfold parseRequire. step comment_drop. intros _ p1 [H1 _].
  unfold runs, bind, tokenize_next. destruct (toks p1) as [|k ks] eqn:E; [done|].
  destruct (bool_decide _); [|done]. eapply (after_trans 0 1 1 p p1); [done| |lia].
  constructor; simpl; auto. rewrite E. simpl. lia.
Qed.

Lemma take_comment_spec p : runs take_comment p (fun c p' => after 0 p p' /\ c = comment p).
Proof.
  unfold runs, take_comment. case_bool_decide as E; [by rewrite E|]. split; [|done]. by constructor.
Qed.

(** ** Well-formed declarations *)

(** No bit field, or one of a fixed-point type that fits; only one that is sign
    extended may use all bits of a signed type. *)
Definition bits_ok (type : cstr) (numbits : Z) (signExtend : bool) : Prop :=
  numbits = 0 /\ signExtend = false \/
  isFixedPoint type = true /\ exists w, getPrimitiveTypeNumBits type = Some w /\ 1 <= numbits <= Z.of_nat w /\
    (type = str "byte" -> signExtend = false) /\ (type <> str "byte" -> numbits = Z.of_nat w -> signExtend = true).

(** The value of an integer constant fits its type, and its bits when it is sign extended. *)
Definition value_ok (c : ZCMConstant) : Prop :=
  match CTYPE (ctype c) with
  | Some ct => exists v, cval c = ValI64 v /\ lowest ct <= v <= highest ct /\
      (csignExtend c = true -> - 2 ^ (cnumbits c - 1) <= v < 2 ^ (cnumbits c - 1))
  | None => True
  end.

Definition const_ok (c : ZCMConstant) : Prop :=
  isLegalConstType (ctype c) = true /\ isLegalMemberName (cname c) = true /\
  bits_ok (ctype c) (cnumbits c) (csignExtend c) /\ value_ok c.

(** A variable dimension is an integer declared earlier; a constant one is the
    value of an integer constant or a number. *)
Definition dim_ok (earlier : list ZCMMember) (consts : list ZCMConstant) (d : ZCMDimension) : Prop :=
  match mode d with
  | ZCM_VAR => exists m, m ∈ earlier /\ membername m = dsize d /\ dimensions m = [] /\
      isArrayDimType (fullname (mtype m)) = true
  | ZCM_CONST =>
      (exists c, c ∈ consts /\ isArrayDimType (ctype c) = true /\ dsize d = valstr c) \/
      (isdigit (first (dsize d)) = true /\ 0 < wraps 32 (strtol (dsize d) 0))
  end.

Definition member_ok (earlier : list ZCMMember) (consts : list ZCMConstant) (m : ZCMMember) : Prop :=
  isLegalMemberName (membername m) = true /\
  bits_ok (fullname (mtype m)) (numbits (mtype m)) (signExtend (mtype m)) /\
  Forall (dim_ok earlier consts) (dimensions m).

Definition names (zs : ZCMStruct) : list cstr := (membername <$> members zs) ++ (cname <$> constants zs).

Record struct_ok (zs : ZCMStruct) : Prop := mkStructOk {
  ok_names : NoDup (names zs);
  ok_consts : Forall const_ok (constants zs);
  ok_members : forall i m, members zs !! i = Some m -> member_ok (take i (members zs)) (constants zs) m
}.

Definition uncommented (zs : ZCMStruct) : Prop :=
  Forall (fun m => mcomment m = []) (members zs) /\ Forall (fun c => ccomment c = []) (constants zs).

(** What holds of a struct while it is parsed. *)
Definition building (zs : ZCMStruct) (p : parser) : Prop := struct_ok zs /\ uncommented zs /\ comment p = [].

(** ** Names *)

Lemma findMember_None l name : findMember l name = None -> name ∉ membername <$> l.
Proof.
  induction l as [|m l IH]; cbn [findMember fmap list_fmap]; [set_solver|]. case_bool_decide; [done|]. set_solver.
Qed.

Lemma findConst_None l name : findConst l name = None -> name ∉ cname <$> l.
Proof.
  induction l as [|m l IH]; cbn [findConst fmap list_fmap]; [set_solver|]. case_bool_decide; [done|]. set_solver.
Qed.

Lemma findMember_Some l name m : findMember l name = Some m -> m ∈ l /\ membername m = name.
Proof.
  induction l as [|m' l IH]; cbn [findMember]; [done|]. case_bool_decide; [intros [= ->]; set_solver|].
  intros [??]%IH. set_solver.
Qed.

Lemma findConst_Some l name c : findConst l name = Some c -> c ∈ l /\ cname c = name.
Proof.
  induction l as [|m' l IH]; cbn [findConst]; [done|]. case_bool_decide; [intros [= ->]; set_solver|].
  intros [??]%IH. set_solver.
Qed.

Lemma not_taken zs name : negb (taken zs name) = true -> name ∉ names zs.
Proof.
  unfold taken, names. destruct (findMember _ _) eqn:E1; [done|]. destruct (findConst _ _) eqn:E2; [done|].
  intros _. apply findMember_None in E1. apply findConst_None in E2. set_solver.
Qed.

Lemma dim_ok_weaken l l' cs cs' d : l ⊆ l' -> cs ⊆ cs' -> dim_ok l cs d -> dim_ok l' cs' d.
Proof. unfold dim_ok. destruct (mode d); set_solver. Qed.

Lemma member_ok_weaken l l' cs cs' m : l ⊆ l' -> cs ⊆ cs' -> member_ok l cs m -> member_ok l' cs' m.
Proof.
  intros ?? (?&?&F). repeat split; auto. eapply Forall_impl; [done|]. intros d. by apply dim_ok_weaken.
Qed.

Lemma add_const_ok zs c : struct_ok zs -> cname c ∉ names zs -> const_ok c -> struct_ok (add_const zs c).
Proof.
  intros [N C Mm] Hn Hc. constructor.
  - unfold names, add_const in *. cbn [members constants]. rewrite fmap_app. cbn [fmap list_fmap].
    rewrite app_assoc. apply NoDup_app. split; [done|]. split; [set_solver|]. apply NoDup_singleton.
  - apply Forall_app. split; [done|]. by apply Forall_singleton.
  - intros i m H. eapply member_ok_weaken; [reflexivity| |by apply Mm]. cbn [add_const constants]. set_solver.
Qed.

Lemma add_member_ok zs m : struct_ok zs -> membername m ∉ names zs -> member_ok (members zs) (constants zs) m ->
  struct_ok (add_member zs m).
Proof.
  intros [N C Mm] Hn Hm. constructor.
  - unfold names, add_member in *. cbn [members constants]. rewrite fmap_app. cbn [fmap list_fmap].
    rewrite <- app_assoc. cbn [app]. rewrite <- Permutation_middle. by constructor.
  - done.
  - cbn [add_member members constants]. intros i m' [H|[H E]]%lookup_app_Some.
    + rewrite take_app_le by (apply Nat.lt_le_incl; by eapply lookup_lt_Some). by apply Mm.
    + apply list_lookup_singleton_Some in E as [E <-]. assert (i = length (members zs)) as -> by lia.
      by rewrite take_app_length.
Qed.

(** ** The parts of a declaration *)

Lemma check_bits_spec type numbits signExtend p : isFixedPoint type = true -> 0 <= numbits ->
  runs (check_bits type numbits signExtend) p (fun _ p' => p' = p /\ bits_ok type numbits signExtend).
Proof.
  intros F P. unfold check_bits. apply runs_guard. intros N.
  step (runs_lift (getPrimitiveTypeNumBits type) p (fun w p' => p' = p /\ getPrimitiveTypeNumBits type = Some w)); [done|].
  intros w p' [-> W]. do 3 (apply runs_guard; intros ?). apply runs_ret. split; [done|].
  right. split; [done|]. exists w. split; [done|]. split; [lia|]. split.
  - intros E. rewrite bool_decide_eq_true_2 in H0 by done. by destruct signExtend.
  - intros E ->. rewrite bool_decide_eq_false_2, Z.eqb_refl in H1 by done. by destruct signExtend.
Qed.

Lemma const_bits_spec type p : runs (const_bits type) p (fun b p' => after 0 p p' /\ bits_ok type b.1 b.2).
Proof.
  unfold const_bits. step tryConsume_spec. intros b p1 [A1 _]. destruct b; cbn [negb].
  2: { apply runs_ret. split; [done|]. by left. }
  apply runs_guard. intros F. step next_spec. intros tok p2 A2. destruct (_ =? - 2 ^ 31); [done|].
  destruct (atoi tok <? 0) eqn:E; (step check_bits_spec; [done|lia|]); intros _ p3 [-> B];
    apply runs_ret; (split; [after_solve|done]).
Qed.

Lemma member_bits_spec zt p : numbits zt = 0 -> signExtend zt = false ->
  runs (member_bits zt) p (fun zt' p' => after 0 p p' /\ bits_ok (fullname zt') (numbits zt') (signExtend zt')).
Proof.
  intros N S. unfold member_bits. step tryConsume_spec. intros b p1 [A1 _]. destruct b; cbn [negb].
  2: { apply runs_ret. split; [done|]. left. by rewrite N, S. }
  apply runs_guard. intros F. step next_spec. intros tok p2 A2. apply runs_guard. intros _.
  destruct (_ =? - 2 ^ 31); [done|].
  assert (forall z, 0 <= wrapu 8 z) as W by (intros z; apply (wrapu_range 8); lia).
  destruct (atoi tok <? 0) eqn:E; (step check_bits_spec; [done|apply W|]); intros _ p3 [-> B];
    apply runs_ret; (split; [after_solve|done]).
Qed.

(** ** Values of constants *)

Definition ctype_ok (ct : CType) : Prop := 8 <= width ct <= 64.

Lemma CTYPE_ok type ct : CTYPE type = Some ct -> ctype_ok ct /\
  getPrimitiveTypeNumBits type = Some (Z.to_nat (width ct)).
Proof.
  unfold CTYPE, ctype_ok. repeat (case_bool_decide; [subst; intros [= <-]; split; [simpl; lia|by vm_compute]|]). done.
Qed.

Lemma cast_range ct v : ctype_ok ct -> lowest ct <= cast ct v <= highest ct.
Proof.
  unfold ctype_ok, lowest, highest, cast. intros ?. destruct (signed ct).
  - pose proof (wraps_range (width ct) v ltac:(lia)) as R. unfold in_s in R. lia.
  - pose proof (wrapu_range (width ct) v ltac:(lia)) as R. unfold in_u in R. lia.
Qed.

Lemma shiftr_range w n z : 1 <= n <= w -> in_s w z -> in_s n (Z.shiftr z (w - n)).
Proof.
  intros Hn Hz. unfold in_s in *. rewrite Z.shiftr_div_pow2 by lia. pose proof (pow2_pos (w - n) ltac:(lia)).
  replace (2 ^ (w - 1)) with (2 ^ (w - n) * 2 ^ (n - 1)) in Hz by (rewrite <- Z.pow_add_r by lia; f_equal; lia).
  split; [apply Z.div_le_lower_bound; lia|apply Z.div_lt_upper_bound; lia].
Qed.

Lemma int_store_ok ct n s tok v : ctype_ok ct -> (s = true -> 1 <= n <= width ct /\ signed ct = true) ->
  lowest ct <= (int_store ct n s tok v).1 <= highest ct /\ (s = true -> in_s n (int_store ct n s tok v).1).
Proof.
  intros Hc Hs. unfold int_store. cbn [fst]. destruct s; [|split; [by apply cast_range|done]].
  destruct (Hs eq_refl) as [Hn Sg]. unfold cast, lowest, highest. rewrite Sg. unfold ctype_ok in Hc.
  pose proof (shiftr_range (width ct) n _ Hn (wraps_range (width ct) (wraps 64 (Z.shiftl v (width ct - n))) ltac:(lia))) as R.
  split; [|done]. unfold in_s in R. pose proof (Z.pow_le_mono_r 2 (n - 1) (width ct - 1) ltac:(lia) ltac:(lia)). lia.
Qed.

Lemma int_value_spec tok p : runs (int_value tok) p (fun _ p' => after 0 p p').
Proof.
  unfold runs, int_value. destruct (match strtoll tok 0 with Some _ => _ | None => _ end) as [[v rest] e].
  destruct (erange _); [destruct (strtoull tok 0) as [[[u r] e']|]|]; case_bool_decide; done.
Qed.

Lemma int_check_spec ct n s tok v p : runs (int_check ct n s tok v) p (fun _ p' => p' = p).
Proof.
  assert (forall z k, (forall a, runs (k a) p (fun _ p' => p' = p)) -> runs (bind (long z) k) p (fun (_ : unit) p' => p' = p)) as L.
  { intros z k K. unfold runs, bind, long. destruct (_ && _); [apply K|done]. }
  unfold int_check. destruct (is_hex tok); [apply runs_guard; intros _; destruct (_ && _); [|done]|
    destruct (negb _); [destruct s|]]; try apply L; intros; by apply runs_guard.
Qed.

Lemma const_value_spec type n s tok p : bits_ok type n s -> runs (const_value type n s tok) p (fun v p' =>
  after 0 p p' /\ forall name c, value_ok (mkConstant type name v.1 v.2 n s c)).
Proof.
  intros B. unfold const_value, value_ok. cbn [ctype cval csignExtend cnumbits]. destruct (CTYPE type) as [ct|] eqn:E.
  - unfold int_case. step int_value_spec. intros v p1 A1. step int_check_spec. intros _ p2 ->.
    destruct (CTYPE_ok type ct E) as [Hc W].
    assert (s = true -> 1 <= n <= width ct /\ signed ct = true) as Hs.
    { intros ->. destruct B as [[_ ?]|(_&w&W'&?&Hb&_)]; [done|]. assert (w = Z.to_nat (width ct)) as -> by congruence.
      unfold ctype_ok in Hc. split; [lia|]. unfold CTYPE in E. case_bool_decide as Eb; [by specialize (Hb Eb)|].
      by repeat (case_bool_decide; [by simplify_eq|]). }
    pose proof (int_store_ok ct n s tok v Hc Hs) as [R1 R2]. destruct (int_store ct n s tok v) as [v' str'].
    apply runs_ret. split; [done|]. intros _ _. exists v'. split; [done|]. by split.
  - assert (forall max st, runs (flt_case max st tok) p (fun _ p' => after 0 p p')) as F.
    { intros max st. unfold runs, flt_case. destruct (strtod tok) as [[[v rest] e]|]; [|done].
      destruct (negb _); [done|]. by destruct (SFltb _ _ || _). }
    repeat (case_bool_decide; [eapply runs_mono; [apply F|done]|]). case_bool_decide; [|done]. by apply runs_ret.
Qed.

(** ** Constants and members *)

Lemma uncommented_const zs c : uncommented zs -> ccomment c = [] -> uncommented (add_const zs c).
Proof. intros [? F] ?. split; [done|]. apply Forall_app. split; [done|]. by apply Forall_singleton. Qed.

Lemma uncommented_member zs m : uncommented zs -> mcomment m = [] -> uncommented (add_member zs m).
Proof. intros [F ?] ?. split; [|done]. apply Forall_app. split; [done|]. by apply Forall_singleton. Qed.

Lemma one_const_spec zs type n s p : building zs p -> isLegalConstType type = true -> bits_ok type n s ->
  runs (parse_one_const zs type n s) p (fun zs' p' => after 1 p p' /\ building zs' p').
Proof.
  intros (S&U&C) L B. unfold parse_one_const. step comment_drop. intros _ p1 [A1 _].
  step next_spec. intros name p2 A2. apply runs_guard. intros Ln. apply runs_guard. intros Nt%not_taken.
  step require_spec. intros _ p3 A3. step comment_drop. intros _ p4 [A4 _]. step next_spec. intros tok p5 A5.
  step take_comment_spec. intros c p6 [A6 ->]. step const_value_spec; [done|]. intros v p7 [A7 V].
  assert (comment p5 = []) as C5 by (apply A5, A4, A3, A2, A1, C). apply runs_ret.
  split; [after_solve|]. split; [|split].
  - apply add_const_ok; [done..|]. repeat split; auto.
  - by apply uncommented_const.
  - by apply A7, A6.
Qed.

(** Enough fuel for a loop whose body reads a token. *)
Lemma comma_loop_spec body bound (J : ZCMStruct -> parser -> Prop) :
  (forall zs p p', J zs p -> after 0 p p' -> J zs p') ->
  (forall zs p, J zs p -> (length (toks p) < bound)%nat -> runs (body zs) p (fun zs' p' => after 1 p p' /\ J zs' p')) ->
  forall fuel zs p, J zs p -> (length (toks p) < fuel)%nat -> (fuel <= bound)%nat ->
  runs (comma_loop body fuel zs) p (fun zs' p' => after 1 p p' /\ J zs' p').
Proof.
  intros St Bd. induction fuel as [|fuel IH]; intros zs p Hj Hf Hb; [lia|]. cbn [comma_loop].
  step Bd; [done|lia|]. intros zs1 p1 [A1 J1]. step tryConsume_spec. intros b p2 [A2 _].
  assert (after 0 p1 p2) as A2' by after_solve. destruct b.
  - pose proof (after_toks _ _ _ A1). pose proof (after_toks _ _ _ A2).
    eapply runs_mono; [apply IH; [by eapply St|lia|lia]|]. intros zs3 p3 [A3 J3]. split; [after_solve|done].
  - apply runs_ret. split; [after_solve|by eapply St].
Qed.

Lemma building_after zs p p' : building zs p -> after 0 p p' -> building zs p'.
Proof. intros (?&?&C) A. split; [done|]. split; [done|]. by apply A. Qed.

Lemma parseConst_spec fuel zs p : building zs p -> (length (toks p) < fuel)%nat ->
  runs (parseConst fuel zs) p (fun zs' p' => after 1 p p' /\ building zs' p').
Proof.
  intros Hb Hf. unfold parseConst. step comment_drop. intros _ p1 [A1 _]. step next_spec. intros type p2 A2.
  apply runs_guard. intros L. step const_bits_spec. intros [n s] p3 [A3 B]. cbn [fst snd] in *.
  assert (after 0 p p3) as A by after_solve. pose proof (after_toks _ _ _ A).
  step (comma_loop_spec (fun zs => parse_one_const zs type n s) fuel building building_after);
    [intros; by apply one_const_spec|by eapply building_after|lia|lia|].
  intros zs4 p4 [A4 B4]. step require_spec. intros _ p5 A5. apply runs_ret.
  split; [after_solve|]. eapply building_after; [done|after_solve].
Qed.

Lemma parse_dim_spec zs tok p : runs (parse_dim zs tok) p (fun d p' => p' = p /\ dim_ok (members zs) (constants zs) d).
Proof.
  unfold parse_dim. destruct (findConst (constants zs) tok) as [c|] eqn:Ec.
  { apply findConst_Some in Ec as [? _]. apply runs_guard. intros ?. apply runs_ret. split; [done|]. left. eauto. }
  destruct (isdigit (first tok)) eqn:Ed.
  { apply runs_guard. intros ?. apply runs_ret. split; [done|]. right. cbn [dsize]. split; [done|lia]. }
  apply runs_guard. intros _. apply runs_guard. intros _. unfold index_member.
  destruct (findMember (members zs) tok) as [m|] eqn:Em; [|done]. apply findMember_Some in Em as [? <-].
  unfold runs, bind. destruct (bool_decide _) eqn:E1; [|done]. destruct (isArrayDimType _) eqn:E2; [|done].
  apply bool_decide_eq_true_1 in E1. split; [done|]. exists m. auto.
Qed.

Lemma dims_loop_spec zs : forall fuel dims p, (length (toks p) < fuel)%nat ->
  Forall (dim_ok (members zs) (constants zs)) dims ->
  runs (dims_loop fuel zs dims) p (fun ds p' => after 0 p p' /\ Forall (dim_ok (members zs) (constants zs)) ds).
Proof.
  induction fuel as [|fuel IH]; intros dims p Hf Hd; [lia|]. cbn [dims_loop].
  step tryConsume_spec. intros b p1 [A1 _]. destruct b; cbn [negb]; [|by apply runs_ret].
  step comment_drop. intros _ p2 [A2 _]. step next_spec. intros tok p3 A3. step parse_dim_spec. intros d p4 [-> D].
  step require_spec. intros _ p5 A5. assert (after 1 p p5) as A by after_solve. pose proof (after_toks _ _ _ A).
  eapply runs_mono; [apply IH; [lia|]|].
  - apply Forall_app. split; [done|]. by apply Forall_singleton.
  - intros ds p6 [A6 D6]. split; [after_solve|done].
Qed.

Definition type_bits_ok (zt : ZCMTypename) : Prop := bits_ok (fullname zt) (numbits zt) (signExtend zt).

Lemma one_member_spec fuel zt zs p : building zs p -> type_bits_ok zt -> (length (toks p) < fuel)%nat ->
  runs (parse_one_member fuel zt zs) p (fun zs' p' => after 1 p p' /\ building zs' p').
Proof.
  intros (S&U&C) B Hf. unfold parse_one_member. step comment_drop. intros _ p1 [A1 _].
  step next_spec. intros name p2 A2. apply runs_guard. intros Ln. apply runs_guard. intros Nt%not_taken.
  step take_comment_spec. intros c p3 [A3 ->].
  assert (after 1 p p3) as A by after_solve. pose proof (after_toks _ _ _ A).
  step dims_loop_spec; [lia|done|]. intros ds p4 [A4 D4].
  assert (comment p2 = []) as C2 by (apply A2, A1, C). assert (comment p4 = []) by (apply A4, A3, C2).
  apply runs_ret. split; [after_solve|]. split; [|split; [by apply uncommented_member|done]].
  apply add_member_ok; [done..|]. by repeat split.
Qed.

Lemma typename_bits prefix name skip : numbits (typename_create prefix name skip) = 0 /\
  signExtend (typename_create prefix name skip) = false.
Proof. unfold typename_create. repeat case_match; done. Qed.

Section Props.
Context (package_prefix : cstr) (th mh : bool).
Abbreviation parseMember := (parseMember package_prefix).

Lemma parseMember_spec fuel zs p : building zs p -> (length (toks p) < fuel)%nat ->
  runs (parseMember fuel zs) p (fun zs' p' => after 1 p p' /\ building zs' p').
Proof.
  intros Hb Hf. unfold GenParse.parseMember. step tryConsume_spec. intros b p1 [A1 _]. destruct b; [done|].
  step tryConsume_spec. intros b p2 [A2 _]. assert (after 0 p p2) as A by after_solve.
  pose proof (after_toks _ _ _ A). destruct b.
  { eapply runs_mono; [apply parseConst_spec; [by eapply building_after|lia]|]. intros zs' p3 [??].
    split; [after_solve|done]. }
  step comment_drop. intros _ p3 [A3 _]. step next_spec. intros type p4 A4. do 2 (apply runs_guard; intros _).
  destruct (typename_bits package_prefix (member_type package_prefix zs type) true) as [T1 T2].
  step member_bits_spec; [done|done|]. intros zt p5 [A5 B5].
  assert (after 1 p2 p5) as A' by after_solve. pose proof (after_toks _ _ _ A').
  step (comma_loop_spec (parse_one_member fuel zt) fuel building building_after);
    [intros; by apply one_member_spec|eapply building_after; [done|after_solve]|lia|lia|].
  intros zs6 p6 [A6 B6]. step require_spec. intros _ p7 A7. apply runs_ret.
  split; [after_solve|]. eapply building_after; [done|after_solve].
Qed.

(** Comments in front of a member were consumed by the test for the closing brace. *)
Lemma comment_keep_nothing p : starts_plain (toks p) ->
  runs (parseTryConsumeComment true) p (fun _ p' => after 0 p p' /\ comment p' = []).
Proof.
  intros H. unfold runs, parseTryConsumeComment. destruct (consume_comments (toks p) []) as [ks c] eqn:E.
  apply consume_comments_spec in E as (_&_&E). destruct (E H) as [-> ->]. by repeat constructor.
Qed.

Lemma struct_loop_spec : forall fuel zs p, struct_ok zs -> uncommented zs -> (length (toks p) < fuel)%nat ->
  runs (struct_loop package_prefix fuel zs) p (fun zs' p' => after 0 p p' /\ struct_ok zs' /\ uncommented zs').
Proof.
  induction fuel as [|fuel IH]; intros zs p Hs Hu Hf; [lia|]. cbn [struct_loop].
  step tryConsume_spec. intros b p1 [A1 P1]. destruct b; [apply runs_ret; split; [after_solve|done]|].
  step comment_keep_nothing; [auto|]. intros _ p2 [A2 C2]. step tryConsume_spec. intros b p3 [A3 _].
  destruct b; [apply runs_ret; split; [after_solve|done]|].
  assert (after 0 p p3) as A by after_solve. pose proof (after_toks _ _ _ A).
  step parseMember_spec; [by split; [|split; [|apply A3]]|lia|]. intros zs4 p4 [A4 (?&?&?)].
  pose proof (after_toks _ _ _ A4). eapply runs_mono; [apply IH; [done|done|lia]|].
  intros zs5 p5 [A5 ?]. split; [after_solve|done].
Qed.

(** A struct of the result: well formed, with its signature. *)
Definition finished (zs : ZCMStruct) : Prop :=
  struct_ok zs /\ uncommented zs /\ exists h, hash zs = Some h /\ computeHash th mh zs = Some h.

Lemma parseStruct_spec fuel file pkg p : (length (toks p) < fuel)%nat ->
  runs (parseStruct package_prefix th mh fuel file pkg) p (fun zs' p' => after 1 p p' /\ finished zs').
Proof.
  intros Hf. unfold parseStruct. step comment_drop. intros _ p1 [A1 _]. step next_spec. intros name p2 A2.
  step take_comment_spec. intros c p3 [A3 _]. step require_spec. intros _ p4 A4.
  assert (after 1 p p4) as A by after_solve. pose proof (after_toks _ _ _ A).
  step struct_loop_spec; [| |lia|].
  { by constructor; [constructor|constructor|]. }
  { split; constructor. }
  intros zs p5 [A5 [S U]]. unfold set_hash. destruct (computeHash th mh zs) as [h|] eqn:E; [|done]. apply runs_ret.
  split; [after_solve|]. split; [by destruct S|]. split; [done|]. exists h. by split.
Qed.

Definition type_key (zs : ZCMStruct) : cstr * cstr := (package (structname zs), shortname (structname zs)).

(** The structs of the generator: each finished, no two of the same name. *)
Definition gen_ok (l : list ZCMStruct) : Prop := Forall finished l /\ NoDup (type_key <$> l).

Lemma findStruct_None l pkg name : findStruct l pkg name = None -> (pkg, name) ∉ type_key <$> l.
Proof.
  induction l as [|zs l IH]; cbn [findStruct fmap list_fmap]; [set_solver|]. destruct (_ && _) eqn:E; [done|].
  intros ?%IH. unfold type_key at 1. rewrite not_elem_of_cons. split; [|done]. intros [= -> ->].
  rewrite !bool_decide_eq_true_2 in E by done. done.
Qed.

Lemma gen_ok_snoc l zs : gen_ok l -> finished zs ->
  findStruct l (package (structname zs)) (shortname (structname zs)) = None -> gen_ok (l ++ [zs]).
Proof.
  intros [F N] Hz Hn%findStruct_None. split; [apply Forall_app; split; [done|by apply Forall_singleton]|].
  rewrite fmap_app. apply NoDup_app. split; [done|]. cbn [fmap list_fmap].
  split; [|apply NoDup_singleton]. intros x Hx. rewrite list_elem_of_singleton. intros ->. by apply Hn.
Qed.

(** What the steps between structs keep. *)
Definition shorter (n : nat) (p p' : parser) : Prop :=
  (n + length (toks p') <= length (toks p))%nat /\ structs p' = structs p.

Lemma comment_shorter p : runs (parseTryConsumeComment true) p (fun _ p' => shorter 0 p p').
Proof.
  unfold runs, parseTryConsumeComment. destruct (consume_comments (toks p) []) as [ks c] eqn:E.
  apply consume_comments_spec in E as (?&_&_). by split.
Qed.

Lemma tokenize_next_spec p : runs tokenize_next p (fun k p' => shorter (if k then 1 else 0) p p').
Proof. unfold runs, tokenize_next. destruct (toks p) eqn:E; (split; [|done]); simpl; [done|]. rewrite E. simpl. lia. Qed.

Lemma set_package_spec name p : runs (fun p => Ok tt (set_package p name)) p (fun _ p' => shorter 0 p p').
Proof. by split. Qed.

Lemma get_state_spec p : runs get_state p (fun q p' => q = p /\ p' = p).
Proof. done. Qed.

Lemma after_shorter n p p' : after n p p' -> shorter n p p'.
Proof. by intros []. Qed.

Lemma entity_spec fuel file p : gen_ok (structs p) -> (length (toks p) < fuel)%nat ->
  runs (parseEntity package_prefix th mh fuel file) p (fun r p' => gen_ok (structs p') /\
    (r = 0 -> (length (toks p') < length (toks p))%nat) /\ (r = 0 \/ r = 1 \/ r = EOF)).
Proof.
  intros G Hf. unfold parseEntity. step comment_shorter. intros _ p1 [L1 S1].
  step tokenize_next_spec. intros [k|] p2 [L2 S2]; [|apply runs_ret; rewrite S2, S1; split; [done|]; split; [done|auto]].
  case_bool_decide.
  - step comment_shorter. intros _ p3 [L3 S3]. step next_spec. intros name p4 [L4 S4]%after_shorter.
    step set_package_spec. intros _ p5 [L5 S5]. step require_spec. intros _ p6 [L6 S6]%after_shorter.
    apply runs_ret. rewrite S6, S5, S4, S3, S2, S1. split; [done|]. split; [lia|auto].
  - apply runs_guard. intros _. step get_state_spec. intros q p3 [-> ->].
    step parseStruct_spec; [lia|]. intros zs p4 [[L4 S4]%after_shorter Fz].
    unfold runs. rewrite S4, S2, S1. destruct (findStruct _ _ _) eqn:E.
    + rewrite S4, S2, S1. split; [done|]. split; [done|auto].
    + cbn [set_package push_struct structs toks]. rewrite S4, S2, S1. split; [by apply gen_ok_snoc|]. split; [lia|auto].
Qed.

Lemma entity_loop_spec fuel file : forall n p, gen_ok (structs p) -> (length (toks p) < n)%nat ->
  (length (toks p) < fuel)%nat ->
  runs (entity_loop package_prefix th mh fuel n file) p (fun r p' => gen_ok (structs p') /\ (r = 1 \/ r = EOF)).
Proof.
  induction n as [|n IH]; intros p G Hn Hf; [lia|]. cbn [entity_loop]. step entity_spec; [done|done|].
  intros r p1 (G1&L1&R). destruct (r =? 0) eqn:E; [apply IH; [done|lia|lia]|].
  apply runs_ret. split; [done|]. destruct R as [->|?]; [done|auto].
Qed.

Lemma handleFile_spec file ks p : gen_ok (structs p) ->
  runs (handleFile package_prefix th mh file ks) p (fun r p' => gen_ok (structs p') /\ (r = 0 \/ r = 1)).
Proof.
  intros G. unfold handleFile. step entity_loop_spec; [done|simpl; lia|simpl; lia|].
  intros r p' [G' [->| ->]]; apply runs_ret; cbn; auto.
Qed.

Lemma handleFiles_spec files : forall p, gen_ok (structs p) ->
  runs (handleFiles package_prefix th mh files) p (fun r p' => gen_ok (structs p') /\ (r = 0 \/ r = 1)).
Proof.
  induction files as [|f files IH]; intros p G; cbn [handleFiles]; [apply runs_ret; auto|].
  step handleFile_spec; [done|]. intros r p' [G' R]. destruct (r =? 0); [by apply IH|by apply runs_ret].
Qed.
End Props.

Lemma gen_create_ok th mh : gen_ok th mh (structs gen_create).
Proof. split; constructor. Qed.

(** C38: the parser ends on every sequence of files, whatever tokens they hold: it
    returns 0, or 1 for a type that was declared before, or exits with an error
    message, or meets undefined behaviour; the tokens of a file are enough fuel
    for all of its loops. *)
Theorem parse_terminates prefix th mh (files : list (cstr * list token)) :
  handleFiles prefix th mh files gen_create <> OutOfFuel /\
  forall r p, handleFiles prefix th mh files gen_create = Ok r p -> r = 0 \/ r = 1.
Proof.
  pose proof (handleFiles_spec prefix th mh files gen_create (gen_create_ok th mh)) as R. unfold runs in R.
  destruct (handleFiles _ _ _ _ _) as [r p'| | |]; [|done..]. split; [done|]. intros ?? [= <- <-]. apply R.
Qed.

(** C35: whatever tokens it reads, the parser builds well-formed structs only, with
    no two of the same package and name.  In each of them the members and
    constants have different, legal names; an array dimension is an integer
    member declared before it that is not an array itself, or a positive number,
    or an integer constant; a bit field has between one bit and the width of
    its fixed-point type, and is sign extended if it fills a signed type; the
    value of an integer constant fits its type and, sign extended, its bits; the
    signature is the one of the declaration. *)
Theorem parse_well_formed prefix th mh (files : list (cstr * list token)) r p :
  handleFiles prefix th mh files gen_create = Ok r p ->
  NoDup (type_key <$> structs p) /\
  Forall (fun zs => struct_ok zs /\ exists h, hash zs = Some h /\ computeHash th mh zs = Some h) (structs p).
Proof.
  intros E. pose proof (handleFiles_spec prefix th mh files gen_create (gen_create_ok th mh)) as R.
  unfold runs in R. rewrite E in R. destruct R as [[F N] _]. split; [done|].
  eapply Forall_impl; [done|]. intros zs (?&_&?). auto.
Qed.

(** the comments in front of members and constants are lost: looking for the
    closing brace of the struct skips them before they are stored, so that every
    member and constant of every struct comes out without a comment. *)
Theorem member_comments_lost prefix th mh (files : list (cstr * list token)) r p :
  handleFiles prefix th mh files gen_create = Ok r p ->
  Forall (fun zs => Forall (fun m => mcomment m = []) (members zs) /\ Forall (fun c => ccomment c = []) (constants zs))
    (structs p).
Proof.
  intros E. pose proof (handleFiles_spec prefix th mh files gen_create (gen_create_ok th mh)) as R.
  unfold runs in R. rewrite E in R. destruct R as [[F _] _]. eapply Forall_impl; [done|]. by intros zs (_&?&_).
Qed.

(** A file with a comment in front of a member. *)
Definition example_file : list (cstr * list token) :=
  [(str "a.zcm", mkToken ZCM_TOK_OTHER <$> [str "struct"; str "a_t"; str "{"; str "int32_t"; str "n"; str ";"] ++
     [str "double"; str "x"; str "["; str "n"; str "]"; str "["; str "3"; str "]"; str ";"; str "}"]);
   (str "b.zcm", (mkToken ZCM_TOK_OTHER <$> [str "struct"; str "b_t"; str "{"]) ++
     mkToken ZCM_TOK_COMMENT (str "width") ::
     (mkToken ZCM_TOK_OTHER <$> [str "int8_t"; str ":"; str "-3"; str "w"; str ";"; str "}"]))].

Lemma parse_well_formed_witness : exists p,
  handleFiles [] false true example_file gen_create = Ok 0 p /\ length (structs p) = 2%nat /\
  NoDup (type_key <$> structs p) /\
  Forall (fun zs => struct_ok zs /\ exists h, hash zs = Some h /\ computeHash false true zs = Some h) (structs p).
Proof.
  eexists. split; [vm_compute; reflexivity|]. split; [reflexivity|].
  apply (parse_well_formed [] false true example_file 0). vm_compute. reflexivity.
Defined.

Lemma member_comments_lost_witness : exists p,
  handleFiles [] false true example_file gen_create = Ok 0 p /\ length (structs p) = 2%nat /\
  Forall (fun zs => Forall (fun m => mcomment m = []) (members zs) /\ Forall (fun c => ccomment c = []) (constants zs))
    (structs p).
Proof.
  eexists. split; [vm_compute; reflexivity|]. split; [reflexivity|].
  apply (member_comments_lost [] false true example_file 0). vm_compute. reflexivity.
Defined.

Lemma parse_terminates_witness :
  handleFiles [] false true example_file gen_create <> OutOfFuel /\
  forall r p, handleFiles [] false true example_file gen_create = Ok r p -> r = 0 \/ r = 1.
Proof. apply (parse_terminates [] false true example_file). Defined.
