(* ===== verification/GenConst.v ===== *)
(** * The type generator: integer constants

    The value that a decimal constant of a type file stands for, within the range
    of 64 bits, where it is exact, and beyond it. *)
From S2P Require Import Prelude Bytes Transport Url Tokenize CNum Gen GenParse GenProps.
Local Open Scope Z_scope.

Lemma set_erange_same p : set_erange p (erange p || false) = p.
Proof. destruct p as [? ? ? ? e]. unfold set_erange. simpl. by rewrite orb_false_r. Qed.

Lemma strtoll_show v : LLONG_MIN <= v <= LLONG_MAX -> strtoll (show_dec v) 0 = Some (v, [], false).
Proof.
  intros Hv. unfold LLONG_MIN, LLONG_MAX in *. unfold strtoll. rewrite read_number_show by (auto; lia).
  assert ((if v <? 0 then - Z.abs v else Z.abs v) = v) as -> by (case_match; lia).
  unfold LLONG_MIN, LLONG_MAX. by rewrite (proj2 (Z.ltb_ge v _)), (proj2 (Z.ltb_ge _ v)) by lia.
Qed.

Lemma strtoull_show v : - 10 ^ 20 < v < 10 ^ 20 -> exists u e, strtoull (show_dec v) 0 = Some (u, [], e) /\
  (Z.abs v <= ULLONG_MAX -> wraps 64 u = wraps 64 v) /\ (ULLONG_MAX < Z.abs v -> u = ULLONG_MAX /\ e = true).
Proof.
  intros Hv. unfold strtoull. rewrite read_number_show by (auto; lia). destruct (ULLONG_MAX <? Z.abs v) eqn:E.
  - do 2 eexists. split; [done|]. split; [lia|done].
  - do 2 eexists. split; [done|]. split; [|lia]. intros _. destruct (v <? 0) eqn:S; [|f_equal; lia].
    unfold wraps, wrapu. replace (- Z.abs v) with v by lia. by rewrite Zplus_mod_idemp_l.
Qed.

Lemma int_value_show v p : LLONG_MIN <= v <= LLONG_MAX -> int_value (show_dec v) p = Ok v p.
Proof.
  intros Hv. unfold int_value. rewrite strtoll_show, set_erange_same by done. destruct (erange p) eqn:E; [|done].
  unfold LLONG_MIN, LLONG_MAX in *. destruct (strtoull_show v ltac:(lia)) as (u&e&->&W&_).
  rewrite W, wraps_id by (unfold ULLONG_MAX, in_s; lia). rewrite bool_decide_eq_true_2 by done.
  destruct p. unfold set_erange. simpl in *. by rewrite E.
Qed.

(** Beyond [long long] the number is taken modulo 2^64, and beyond 64 bits it is all ones. *)
Lemma int_value_large v p : LLONG_MAX < v < 10 ^ 20 ->
  int_value (show_dec v) p = Ok (wraps 64 (Z.min v ULLONG_MAX)) (set_erange p true).
Proof.
  intros Hv. unfold int_value, strtoll. unfold LLONG_MAX in Hv. rewrite read_number_show by (auto; lia).
  rewrite (proj2 (Z.ltb_ge v 0)), Z.abs_eq by lia. unfold LLONG_MIN, LLONG_MAX.
  rewrite (proj2 (Z.ltb_ge v _)), (proj2 (Z.ltb_lt _ v)) by lia. rewrite orb_true_r. cbn [erange set_erange].
  destruct (strtoull_show v ltac:(lia)) as (u&e&->&W&M). rewrite Z.abs_eq in * by lia.
  rewrite bool_decide_eq_true_2 by done. cbn [orb]. f_equal. destruct (decide (v <= ULLONG_MAX)).
  - by rewrite W, Z.min_l by lia.
  - destruct M as [-> _]; [lia|]. by rewrite Z.min_r by lia.
Qed.

(** Decimal text is not taken for hexadecimal. *)
Lemma show_not_hex v : is_hex (show_dec v) = false.
Proof.
  unfold is_hex. assert (forall c, show_dec v !! 1%nat = Some c -> isdigit c = true) as D.
  { intros c. unfold show_dec. destruct (v <? 0) eqn:E; intros H.
    - pose proof (digits_all 20 (- v) ltac:(lia)) as F. rewrite Forall_lookup in F. by apply (F 0%nat).
    - pose proof (digits_all 20 v ltac:(lia)) as F. rewrite Forall_lookup in F. by apply (F 1%nat). }
  destruct (show_dec v !! 1%nat) as [c|]; [|by rewrite andb_false_r].
  specialize (D c eq_refl). apply digit_plain in D as (_&_&_&X1&X2). cbn [default id].
  by rewrite (proj2 (Z.eqb_neq c (ch "x"))), (proj2 (Z.eqb_neq c (ch "X"))), andb_false_r.
Qed.

(** ** Checks *)

(** The values a constant may have. *)
Definition field_range (ct : CType) (n : Z) (s : bool) (v : Z) : bool :=
  if n =? 0 then (lowest ct <=? v) && (v <=? highest ct)
  else if s then (- 2 ^ (n - 1) <=? v) && (v <? 2 ^ (n - 1))
  else (0 <=? v) && (v <? 2 ^ n).

Lemma cast_id ct v : ctype_ok ct -> lowest ct <= v <= highest ct -> cast ct v = v.
Proof.
  unfold ctype_ok, lowest, highest, cast. intros Hc Hv. destruct (signed ct).
  - apply wraps_id; unfold in_s; lia.
  - apply wrapu_id. unfold in_u. lia.
Qed.

(** A field that fits its type: sign extended in a signed type, otherwise smaller than it. *)
Definition field_fits (ct : CType) (n : Z) (s : bool) : Prop :=
  n = 0 /\ s = false \/
  1 <= n <= width ct /\ n < 63 /\ (if s then signed ct = true else signed ct = true -> n < width ct).

Lemma pow_le a b : 0 <= a <= b -> 0 < 2 ^ a <= 2 ^ b.
Proof. intros H. split; [apply pow2_pos; lia|apply Z.pow_le_mono_r; lia]. Qed.

Lemma unsigned_fits ct n v : ctype_ok ct -> field_fits ct n false -> n <> 0 -> 0 <= v < 2 ^ n ->
  lowest ct <= v <= highest ct.
Proof.
  intros Hc [[? _]|(Hn&_&Hs)] N Hv; [done|]. unfold lowest, highest, ctype_ok in *. destruct (signed ct).
  - pose proof (pow_le n (width ct - 1) ltac:(lia)). pose proof (pow2_pos (width ct - 1)). lia.
  - pose proof (pow_le n (width ct) ltac:(lia)). lia.
Qed.

Lemma signed_fits ct n v : ctype_ok ct -> field_fits ct n true -> in_s n v -> lowest ct <= v <= highest ct.
Proof.
  intros Hc [[_ ?]|(Hn&_&Hs)] Hv; [done|]. unfold lowest, highest, ctype_ok, in_s in *. rewrite Hs.
  pose proof (pow_le (n - 1) (width ct - 1) ltac:(lia)). lia.
Qed.

Lemma long_ok v p : LLONG_MIN <= v <= LLONG_MAX -> long v p = Ok v p.
Proof. intros H. unfold long. by rewrite (proj2 (Z.leb_le _ _)), (proj2 (Z.leb_le _ _)) by lia. Qed.

Lemma shl1L_small n : 0 <= n < 63 -> shl1L n = 2 ^ n /\ 1 <= 2 ^ n <= 2 ^ 62.
Proof.
  intros Hn. pose proof (pow_le n 62 ltac:(lia)). split; [|lia]. apply wraps_id; unfold in_s; lia.
Qed.

Lemma int_check_dec ct n s v p : ctype_ok ct -> field_fits ct n s ->
  int_check ct n s (show_dec v) v p = if field_range ct n s v then Ok tt p else Exit.
Proof.
  intros Hc Hf. unfold int_check, field_range. rewrite show_not_hex. destruct (n =? 0) eqn:E; cbn [negb].
  { assert (negb ((v <? lowest ct) || (highest ct <? v)) = (lowest ct <=? v) && (v <=? highest ct)) as ->
      by (rewrite negb_orb, !Z.leb_antisym; done). by destruct (_ && _). }
  assert (1 <= n < 63) as Hn by (destruct Hf as [[? _]|[??]]; lia). destruct s; unfold bind.
  - destruct (shl1L_small (n - 1) ltac:(lia)) as [-> P]. rewrite long_ok by (unfold LLONG_MIN, LLONG_MAX; lia).
    rewrite cast_id by (done || (apply (signed_fits ct n); [done|done|unfold in_s; lia])).
    replace (Z.lnot (- 2 ^ (n - 1))) with (2 ^ (n - 1) - 1) by (unfold Z.lnot; lia).
    rewrite cast_id by (done || (apply (signed_fits ct n); [done|done|unfold in_s; lia])).
    assert (negb ((v <? - 2 ^ (n - 1)) || (2 ^ (n - 1) - 1 <? v)) = (- 2 ^ (n - 1) <=? v) && (v <? 2 ^ (n - 1))) as -> by lia.
    by destruct (_ && _).
  - destruct (shl1L_small n ltac:(lia)) as [-> P]. rewrite long_ok by (unfold LLONG_MIN, LLONG_MAX; lia).
    rewrite cast_id by (done || (apply (unsigned_fits ct n); [done|done|lia|lia])).
    assert (negb ((v <? 0) || (2 ^ n - 1 <? v)) = (0 <=? v) && (v <? 2 ^ n)) as -> by lia. by destruct (_ && _).
Qed.

(** ** Values *)

Lemma int_store_dec ct n s v : ctype_ok ct -> field_fits ct n s -> field_range ct n s v = true ->
  int_store ct n s (show_dec v) v = (v, show_dec v).
Proof.
  intros Hc Hf Hr. unfold int_store. rewrite show_not_hex. unfold field_range in Hr. destruct s.
  - pose proof Hf as [[_ ?]|(Hn&Hn'&Hs)]; [done|]. rewrite (proj2 (Z.eqb_neq n 0)) in Hr by lia. unfold ctype_ok in Hc.
    assert (in_s (width ct) (Z.shiftl v (width ct - n))) as Hv.
    { unfold in_s. rewrite Z.shiftl_mul_pow2 by lia. pose proof (pow2_pos (width ct - n) ltac:(lia)).
      replace (2 ^ (width ct - 1)) with (2 ^ (n - 1) * 2 ^ (width ct - n)) by (rewrite <- Z.pow_add_r by lia; f_equal; lia).
      nia. }
    unfold cast. rewrite Hs. rewrite (wraps_id 64).
    + rewrite wraps_id by (done || lia). by rewrite Z.shiftr_shiftl_l, Z.sub_diag, Z.shiftl_0_r by lia.
    + lia.
    + unfold in_s in *. pose proof (pow_le (width ct - 1) 63 ltac:(lia)). change (64 - 1) with 63. lia.
  - rewrite cast_id; [done|done|]. destruct (n =? 0) eqn:E; [lia|]. apply (unsigned_fits ct n); [done|done|lia|lia].
Qed.

(** What the parser admits as a bit field fits. *)
Lemma bits_fit type ct n s : CTYPE type = Some ct -> bits_ok type n s -> n < 63 -> field_fits ct n s.
Proof.
  intros E B N. destruct (CTYPE_ok type ct E) as [Hc W]. unfold ctype_ok in Hc.
  destruct B as [B|(_&w&W'&Hn&Hb&Hs)]; [by left|right]. assert (w = Z.to_nat (width ct)) as -> by congruence.
  split; [lia|]. split; [done|]. assert (signed ct = true \/ type = str "byte" /\ signed ct = false) as Sg.
  { unfold CTYPE in E. repeat (case_bool_decide; [simplify_eq; by auto|]). done. }
  destruct s.
  - destruct Sg as [?|[Eb _]]; [done|]. by specialize (Hb Eb).
  - intros Sd. destruct Sg as [_|[_ ?]]; [|congruence]. destruct (decide (n = width ct)) as [->|]; [|lia].
    assert (type <> str "byte") as Nb by (intros ->; vm_compute in E; by simplify_eq).
    specialize (Hs Nb ltac:(lia)). done.
Qed.

(** a decimal integer constant within 64 bits is accepted exactly when it fits
    its type, or the bits of its bit field, and then stands for the number that
    is written, as a value and as text, whether or not an earlier conversion
    left a range error behind. *)
Theorem const_decimal_exact type ct n s v p : CTYPE type = Some ct -> bits_ok type n s -> n < 63 ->
  LLONG_MIN <= v <= LLONG_MAX ->
  const_value type n s (show_dec v) p =
  if field_range ct n s v then Ok (ValI64 v, show_dec v) p else Exit.
Proof.
  intros E B N V. pose proof (bits_fit type ct n s E B N) as F. destruct (CTYPE_ok type ct E) as [Hc _].
  unfold const_value, int_case, bind. rewrite E, int_value_show, int_check_dec by done.
  destruct (field_range ct n s v) eqn:R; [|done]. by rewrite int_store_dec.
Qed.

(** a decimal constant beyond 64 bits is not refused: from 2^63 on it is taken
    modulo 2^64, and from 2^64 on as -1, so that it is accepted for types that
    cannot hold it. *)
Theorem const_decimal_wraps type ct v p : CTYPE type = Some ct -> LLONG_MAX < v < 10 ^ 20 ->
  let w := if v <? 2 ^ 64 then v - 2 ^ 64 else -1 in
  const_value type 0 false (show_dec v) p =
  if (lowest ct <=? w) && (w <=? highest ct) then Ok (ValI64 w, show_dec w) (set_erange p true) else Exit.
Proof.
  intros E V w. destruct (CTYPE_ok type ct E) as [Hc _].
  assert (wraps 64 (Z.min v ULLONG_MAX) = w) as W.
  { unfold w, LLONG_MAX, ULLONG_MAX in *. destruct (v <? 2 ^ 64) eqn:L.
    - rewrite Z.min_l by lia. unfold wraps. replace (v + 2 ^ (64 - 1)) with (v - 2 ^ 63 + 1 * 2 ^ 64) by lia.
      rewrite Z_mod_plus_full, Z.mod_small by lia. lia.
    - by rewrite Z.min_r by lia. }
  unfold const_value, int_case, bind. rewrite E, int_value_large, W by done. clearbody w. clear W.
  unfold int_check. rewrite show_not_hex. change (0 =? 0) with true. cbn [negb].
  assert (negb ((w <? lowest ct) || (highest ct <? w)) = (lowest ct <=? w) && (w <=? highest ct)) as -> by lia.
  destruct (_ && _) eqn:R; [|done]. unfold ret, int_store. rewrite show_not_hex, cast_id; [done|done|lia].
Qed.

(** The bounds of a 64-bit sign-extended field overflow. *)
Lemma const_int64_full_undefined v p : LLONG_MIN <= v <= LLONG_MAX ->
  const_value (str "int64_t") 64 true (show_dec v) p = Undef.
Proof.
  intros V. unfold const_value, int_case, bind. change (CTYPE (str "int64_t")) with (Some (mkCType 64 true)).
  cbv beta iota. rewrite int_value_show by done. unfold int_check. by rewrite show_not_hex.
Qed.

Lemma const_decimal_exact_witness :
  const_value (str "int8_t") 3 true (show_dec (-4)) gen_create = Ok (ValI64 (-4), show_dec (-4)) gen_create /\
  const_value (str "int8_t") 3 true (show_dec 4) gen_create = Exit.
Proof.
  assert (bits_ok (str "int8_t") 3 true) as B.
  { right. split; [by vm_compute|]. exists 8%nat. split; [by vm_compute|]. split; [lia|]. done. }
  split; rewrite (const_decimal_exact (str "int8_t") (mkCType 8 true) 3 true); try done;
    by vm_compute.
Defined.

Lemma const_decimal_wraps_witness :
  const_value (str "int8_t") 0 false (show_dec (2 ^ 64 + 5)) gen_create =
  Ok (ValI64 (-1), show_dec (-1)) (set_erange gen_create true).
Proof. apply (const_decimal_wraps (str "int8_t") (mkCType 8 true) (2 ^ 64 + 5)); by vm_compute. Defined.
