(* ===== verification/EmitC.v ===== *)
(** * The C emitter (gen/emit/EmitC.cpp, gen/emit/Emitter.cpp)

    The text of the header and of the source file that the generator writes for
    a struct.  Text is a list of bytes.  The format strings are those of the
    source; in the literals below a back-quote stands for a double quote. *)
From S2P Require Import Prelude Bytes Transport Url Gen CNum.
Local Open Scope Z_scope.

(** ** Formatted output *)

Definition DQUOTE : byte := 34.
Definition NEWLINE : byte := 10.

(** [printf] of a format with the conversions %s, whose arguments are text, and %%. *)
Fixpoint fmt_loop (f : cstr) (args : list cstr) : cstr :=
  match f with
  | [] => []
  | c :: f =>
      if c =? ch "%" then
        match f with
        | [] => []
        | d :: f =>
            if d =? ch "s" then
              match args with
              | [] => fmt_loop f []
              | a :: args => a ++ fmt_loop f args
              end
            else d :: fmt_loop f args
        end
      else if c =? ch "`" then DQUOTE :: fmt_loop f args
      else c :: fmt_loop f args
  end.

Definition fmt (f : string) (args : list cstr) : cstr := fmt_loop (str f) args.

Definition indent (n : nat) : nat := 4 * n.
Definition spaces (n : nat) : cstr := replicate n (ch " ").

Definition emitStart (n : nat) (f : string) (args : list cstr) : cstr := spaces (indent n) ++ fmt f args.
Definition emitContinue (f : string) (args : list cstr) : cstr := fmt f args.
Definition emitEnd (f : string) (args : list cstr) : cstr := fmt f args ++ [NEWLINE].
Definition emit (n : nat) (f : string) (args : list cstr) : cstr := spaces (indent n) ++ fmt f args ++ [NEWLINE].

(** [%-10s] *)
Definition pad10 (s : cstr) : cstr := s ++ spaces (10 - length s).

(** The options of the emitter. *)
Record copts := mkCOpts {
  c_cpath : cstr;
  c_hpath : cstr;
  c_include : cstr;
  c_no_pubsub : bool;
  c_typeinfo : bool;
  c_coretypes_from_local : bool;
  little_endian_encoding : bool
}.

(** ** Names *)

Definition replace (s : cstr) (from to : byte) : cstr := (fun c => if c =? from then to else c) <$> s.
Definition dotsToUnderscores (s : cstr) : cstr := replace s (ch ".") (ch "_").
Definition dotsToSlashes (s : cstr) : cstr := replace s (ch ".") (ch "/").
Definition toUpper (s : cstr) : cstr := (fun c => if (ch "a" <=? c) && (c <=? ch "z") then c - 32 else c) <$> s.

Definition nameUnderscore (t : ZCMTypename) : cstr := dotsToUnderscores (fullname t).

(** The loop variable of a dimension. *)
Definition loop_var (d : nat) : cstr := [char (Z.of_nat d + ch "a")].

Definition makeAccessor (zm : ZCMMember) (n : cstr) (dim : nat) : cstr :=
  if bool_decide (dimensions zm = []) then fmt "&(%s[element].%s)" [n; membername zm]
  else fmt "%s[element].%s" [n; membername zm] ++ concat ((fun d => fmt "[%s]" [loop_var d]) <$> seq 0 dim).

(** A dimension that does not exist is out of reach: the callers stay below the number of dimensions. *)
Definition makeArraySize (zm : ZCMMember) (n : cstr) (dim : nat) : cstr :=
  if bool_decide (dimensions zm = []) then str "1"
  else match dimensions zm !! dim with
       | Some zd =>
           match mode zd with
           | ZCM_CONST => dsize zd
           | ZCM_VAR => fmt "%s[element].%s" [n; dsize zd]
           end
       | None => []
       end.

Definition mapTypeName (t : cstr) : cstr :=
  if bool_decide (t = str "boolean") then str "int8_t"
  else if bool_decide (t = str "string") then str "char*"
  else if bool_decide (t = str "byte") then str "uint8_t"
  else dotsToUnderscores t.

(** The index of the innermost dimension, zero for a scalar. *)
Definition inner (zm : ZCMMember) : nat := length (dimensions zm) - 1.
Definition inner_accessor (zm : ZCMMember) (n : cstr) : cstr := makeAccessor zm n (inner zm).
Definition inner_size (zm : ZCMMember) (n : cstr) : cstr := makeArraySize zm n (inner zm).

(** [2+std::max(0, (int)zm.dimensions.size() - 1)] *)
Definition body_indent (zm : ZCMMember) : nat := 2 + inner zm.

Definition dec (n : Z) : cstr := show_dec n.
Definition ndec (n : nat) : cstr := show_dec (Z.of_nat n).

(** ** Comments *)

Definition emitAutoGeneratedWarning : cstr :=
  emit 0 "// THIS IS AN AUTOMATICALLY GENERATED FILE." [] ++
  emit 0 "// DO NOT MODIFY BY HAND!!" [] ++
  emit 0 "//" [] ++
  emit 0 "// Generated by zcm-gen
" [].

Definition emitComment (n : nat) (comment : cstr) : cstr :=
  if bool_decide (comment = []) then [] else
  match split comment NEWLINE with
  | [line] => emit n "/// %s" [line]
  | lines =>
      emit n "/**" [] ++
      concat ((fun line => if bool_decide (line = []) then emit n " *" [] else emit n " * %s" [line]) <$> lines) ++
      emit n " */" []
  end.

(** ** The header file *)

Section Header.
Context (o : copts) (zs : ZCMStruct).
Let tn_ : cstr := nameUnderscore (structname zs).

Definition emitHeaderTop : cstr :=
  emit 0 "#include <stdint.h>" [] ++
  emit 0 "#include <stdlib.h>" [] ++
  (if c_coretypes_from_local o then emit 0 "#include `zcm/zcm_coretypes.h`" []
   else emit 0 "#include <zcm/zcm_coretypes.h>" []) ++
  (if c_no_pubsub o then [] else emit 0 "#include <zcm/zcm.h>" []) ++
  emit 0 "" [] ++
  emit 0 "#ifndef _%s_h" [tn_] ++
  emit 0 "#define _%s_h" [tn_] ++
  emit 0 "" [] ++
  emit 0 "#ifdef __cplusplus" [] ++
  emit 0 "extern `C` {" [] ++
  emit 0 "#endif" [] ++
  emit 0 "" [].

Definition emitHeaderBottom : cstr :=
  emit 0 "#ifdef __cplusplus" [] ++
  emit 0 "}" [] ++
  emit 0 "#endif" [] ++
  emit 0 "" [] ++
  emit 0 "#endif" [].

(** A folder and the slash behind it, if there is one. *)
Definition with_slash (s : cstr) : list cstr := [s; if bool_decide (s = []) then [] else str "/"].

Definition emit_include (zm : ZCMMember) : cstr :=
  if negb (isPrimitiveType (fullname (mtype zm))) && negb (bool_decide (fullname (mtype zm) = fullname (structname zs))) then
    emit 0 "#include `%s%s%s%s%s.h`"
      (with_slash (c_include o) ++ with_slash (dotsToSlashes (package (mtype zm))) ++ [nameUnderscore (mtype zm)])
  else [].

Definition emit_constant (zc : ZCMConstant) : cstr :=
  let suffix := if bool_decide (ctype zc = str "int64_t") then str "LL" else [] in
  emitComment 0 (ccomment zc) ++
  emit 0 "#define %s_%s ((%s)%s%s)" [toUpper tn_; cname zc; mapTypeName (ctype zc); valstr zc; suffix].

Definition emit_field (zm : ZCMMember) : cstr :=
  emitComment 1 (mcomment zm) ++
  if bool_decide (dimensions zm = []) then
    emit 1 "%s %s;" [pad10 (mapTypeName (fullname (mtype zm))); membername zm]
  else if isConstantSizeArray zm then
    emitStart 1 "%s %s" [pad10 (mapTypeName (fullname (mtype zm))); membername zm] ++
    concat ((fun zd => emitContinue "[%s]" [dsize zd]) <$> dimensions zm) ++
    emitEnd ";" []
  else
    emitStart 1 "%s " [pad10 (mapTypeName (fullname (mtype zm)))] ++
    concat ((fun _ => emitContinue "*" []) <$> dimensions zm) ++
    emitEnd "%s;" [membername zm].

(** The assertion on the types of constants holds of what the parser accepts. *)
Definition emitHeaderStruct : cstr :=
  concat (emit_include <$> members zs) ++
  emit 0 "#define %s_IS_LITTLE_ENDIAN %s" [toUpper tn_; if little_endian_encoding o then str "1" else str "0"] ++
  concat (emit_constant <$> constants zs) ++
  (if bool_decide (constants zs = []) then [] else emit 0 "" []) ++
  emitComment 0 (scomment zs) ++
  emit 0 "typedef struct _%s %s;" [tn_; tn_] ++
  emit 0 "struct _%s" [tn_] ++
  emit 0 "{" [] ++
  concat (emit_field <$> members zs) ++
  emit 0 "};" [] ++
  emit 0 "" [].

Definition emitHeaderPrototypes : cstr :=
  emit 0 "/**" [] ++
  emit 0 " * Create a deep copy of a %s." [tn_] ++
  emit 0 " * When no longer needed, destroy it with %s_destroy()" [tn_] ++
  emit 0 " */" [] ++
  emit 0 "%s* %s_copy(const %s* to_copy);" [tn_; tn_; tn_] ++
  emit 0 "" [] ++
  emit 0 "/**" [] ++
  emit 0 " * Destroy an instance of %s created by %s_copy()" [tn_; tn_] ++
  emit 0 " */" [] ++
  emit 0 "void %s_destroy(%s* to_destroy);" [tn_; tn_] ++
  emit 0 "" [] ++
  (if c_no_pubsub o then [] else
   emit 0 "/**" [] ++
   emit 0 " * Identifies a single subscription.  This is an opaque data type." [] ++
   emit 0 " */" [] ++
   emit 0 "typedef struct _%s_subscription_t %s_subscription_t;" [tn_; tn_] ++
   emit 0 "" [] ++
   emit 0 "/**" [] ++
   emit 0 " * Prototype for a callback function invoked when a message of type" [] ++
   emit 0 " * %s is received." [tn_] ++
   emit 0 " */" [] ++
   emit 0 "typedef void(*%s_handler_t)(const zcm_recv_buf_t* rbuf,
             const char* channel, const %s* msg, void* userdata);" [tn_; tn_] ++
   emit 0 "" [] ++
   emit 0 "/**" [] ++
   emit 0 " * Publish a message of type %s using ZCM." [tn_] ++
   emit 0 " *" [] ++
   emit 0 " * @param zcm The ZCM instance to publish with." [] ++
   emit 0 " * @param channel The channel to publish on." [] ++
   emit 0 " * @param msg The message to publish." [] ++
   emit 0 " * @return 0 on success, <0 on error.  Success means ZCM has transferred" [] ++
   emit 0 " * responsibility of the message data to the OS." [] ++
   emit 0 " */" [] ++
   emit 0 "int %s_publish(zcm_t* zcm, const char* channel, const %s* msg);" [tn_; tn_] ++
   emit 0 "" [] ++
   emit 0 "/**" [] ++
   emit 0 " * Subscribe to messages of type %s using ZCM." [tn_] ++
   emit 0 " *" [] ++
   emit 0 " * @param zcm The ZCM instance to subscribe with." [] ++
   emit 0 " * @param channel The channel to subscribe to." [] ++
   emit 0 " * @param handler The callback function invoked by ZCM when a message is received." [] ++
   emit 0 " *                This function is invoked by ZCM during calls to zcm_handle() and" [] ++
   emit 0 " *                zcm_handle_timeout()." [] ++
   emit 0 " * @param userdata An opaque pointer passed to @p handler when it is invoked." [] ++
   emit 0 " * @return pointer to subscription type, NULL if failure. Must clean up" [] ++
   emit 0 " *         dynamic memory by passing the pointer to %s_unsubscribe." [tn_] ++
   emit 0 " */" [] ++
   emit 0 "%s_subscription_t* %s_subscribe(zcm_t* zcm, const char* channel, %s_handler_t handler, void* userdata);" [tn_; tn_; tn_] ++
   emit 0 "" [] ++
   emit 0 "/**" [] ++
   emit 0 " * Removes and destroys a subscription created by %s_subscribe()" [tn_] ++
   emit 0 " */" [] ++
   emit 0 "int %s_unsubscribe(zcm_t* zcm, %s_subscription_t* hid);" [tn_; tn_]) ++
  emit 0 "/**" [] ++
  emit 0 " * Encode a message of type %s into binary form." [tn_] ++
  emit 0 " *" [] ++
  emit 0 " * @param buf The output buffer." [] ++
  emit 0 " * @param offset Encoding starts at this byte offset into @p buf." [] ++
  emit 0 " * @param maxlen Maximum number of bytes to write.  This should generally" [] ++
  emit 0 " *               be equal to %s_encoded_size()." [tn_] ++
  emit 0 " * @param msg The message to encode." [] ++
  emit 0 " * @return The number of bytes encoded, or <0 if an error occured." [] ++
  emit 0 " */" [] ++
  emit 0 "int %s_encode(void* buf, uint32_t offset, uint32_t maxlen, const %s* p);" [tn_; tn_] ++
  emit 0 "" [] ++
  emit 0 "/**" [] ++
  emit 0 " * Decode a message of type %s from binary form." [tn_] ++
  emit 0 " * When decoding messages containing strings or variable-length arrays, this" [] ++
  emit 0 " * function may allocate memory.  When finished with the decoded message," [] ++
  emit 0 " * release allocated resources with %s_decode_cleanup()." [tn_] ++
  emit 0 " *" [] ++
  emit 0 " * @param buf The buffer containing the encoded message" [] ++
  emit 0 " * @param offset The byte offset into @p buf where the encoded message starts." [] ++
  emit 0 " * @param maxlen The maximum number of bytes to read while decoding." [] ++
  emit 0 " * @param msg Output parameter where the decoded message is stored" [] ++
  emit 0 " * @return The number of bytes decoded, or <0 if an error occured." [] ++
  emit 0 " */" [] ++
  emit 0 "int %s_decode(const void* buf, uint32_t offset, uint32_t maxlen, %s* msg);" [tn_; tn_] ++
  emit 0 "" [] ++
  emit 0 "/**" [] ++
  emit 0 " * Release resources allocated by %s_decode()" [tn_] ++
  emit 0 " * @return 0" [] ++
  emit 0 " */" [] ++
  emit 0 "int %s_decode_cleanup(%s* p);" [tn_; tn_] ++
  emit 0 "" [] ++
  emit 0 "/**" [] ++
  emit 0 " * Check how many bytes are required to encode a message of type %s" [tn_] ++
  emit 0 " */" [] ++
  emit 0 "uint32_t %s_encoded_size(const %s* p);" [tn_; tn_] ++
  (if c_typeinfo o then
   emit 0 "uint32_t %s_struct_size(void);" [tn_] ++
   emit 0 "uint32_t %s_num_fields(void);" [tn_] ++
   emit 0 "int      %s_get_field(const %s* p, uint32_t i, zcm_field_t* f);" [tn_; tn_] ++
   emit 0 "const zcm_type_info_t* %s_get_type_info(void);" [tn_] else []) ++
  emit 0 "" [] ++
  emit 0 "// ZCM support functions. Users should not call these" [] ++
  emit 0 "int64_t  __%s_get_hash(void);" [tn_] ++
  emit 0 "uint64_t __%s_hash_recursive(const __zcm_hash_ptr* p);" [tn_] ++
  emit 0 "int      __%s_encode_array(void* buf, uint32_t offset, uint32_t maxlen, const %s* p, uint32_t elements);" [tn_; tn_] ++
  emit 0 "int      __%s_decode_array(const void* buf, uint32_t offset, uint32_t maxlen, %s* p, uint32_t elements);" [tn_; tn_] ++
  emit 0 "int      __%s_decode_array_cleanup(%s* p, uint32_t elements);" [tn_; tn_] ++
  emit 0 "uint32_t __%s_encoded_array_size(const %s* p, uint32_t elements);" [tn_; tn_] ++
  emit 0 "uint32_t __%s_clone_array(const %s* p, %s* q, uint32_t elements);" [tn_; tn_; tn_] ++
  emit 0 "" [].

Definition emitStructHeader : cstr :=
  emitAutoGeneratedWarning ++ emitHeaderTop ++ emitHeaderStruct ++ emitHeaderPrototypes ++ emitHeaderBottom.
End Header.

(** ** The source file *)

Section Source.
Context (o : copts) (zs : ZCMStruct).
Let tn_ : cstr := nameUnderscore (structname zs).

Definition emitIncludes : cstr :=
  emit 0 "#include <string.h>" [] ++
  emit 0 "#ifndef ZCM_EMBEDDED" [] ++
  emit 0 "#include <stdio.h>" [] ++
  emit 0 "#endif" [] ++
  emit 0 "#include `%s%s%s%s%s.h`"
    (with_slash (c_include o) ++ with_slash (dotsToSlashes (package (structname zs))) ++ [tn_]) ++
  emit 0 "" [].

Definition emitCStructGetHash : cstr :=
  emit 0 "static int __%s_hash_computed = 0;" [tn_] ++
  emit 0 "static uint64_t __%s_hash;" [tn_] ++
  emit 0 "" [] ++
  emit 0 "uint64_t __%s_hash_recursive(const __zcm_hash_ptr* p)" [tn_] ++
  emit 0 "{" [] ++
  emit 1 "const __zcm_hash_ptr* fp;" [] ++
  emit 1 "for (fp = p; fp != NULL; fp = fp->parent)" [] ++
  emit 2 "if (fp->v == __%s_get_hash)" [tn_] ++
  emit 3 "return 0;" [] ++
  emit 0 "" [] ++
  emit 1 "__zcm_hash_ptr cp;" [] ++
  emit 1 "cp.parent =  p;" [] ++
  emit 1 "cp.v = (void*)__%s_get_hash;" [tn_] ++
  emit 1 "(void) cp;" [] ++
  emit 0 "" [] ++
  emit 1 "uint64_t hash = (uint64_t)0x%sLL" [show_hex 16 (default 0 (hash zs))] ++
  concat ((fun zm => emit 2 " + __%s_hash_recursive(&cp)" [nameUnderscore (mtype zm)]) <$> members zs) ++
  emit 2 ";" [] ++
  emit 0 "" [] ++
  emit 1 "return (hash<<1) + ((hash>>63)&1);" [] ++
  emit 0 "}" [] ++
  emit 0 "" [] ++
  emit 0 "int64_t __%s_get_hash(void)" [tn_] ++
  emit 0 "{" [] ++
  emit 1 "if (!__%s_hash_computed) {" [tn_] ++
  emit 2 "__%s_hash = (int64_t)__%s_hash_recursive(NULL);" [tn_; tn_] ++
  emit 2 "__%s_hash_computed = 1;" [tn_] ++
  emit 1 "}" [] ++
  emit 0 "" [] ++
  emit 1 "return __%s_hash;" [tn_] ++
  emit 0 "}" [] ++
  emit 0 "" [].

(** The flags FLAG_EMIT_MALLOCS and FLAG_EMIT_FREES are booleans. *)
Definition emit_malloc (zm : ZCMMember) (n : cstr) (i : nat) : cstr :=
  let stars := replicate (length (dimensions zm) - 1 - i) (ch "*") in
  let t := mapTypeName (fullname (mtype zm)) in
  emit (2 + i) "%s = (%s%s*) zcm_malloc(sizeof(%s%s) * %s);"
    [makeAccessor zm n i; t; stars; t; stars; makeArraySize zm n i].

Definition emitCArrayLoopsStart (zm : ZCMMember) (n : cstr) (mallocs : bool) : cstr :=
  if bool_decide (dimensions zm = []) then [] else
  concat ((fun i =>
    (if mallocs then emit_malloc zm n i else []) ++
    emit (2 + i) "{ int %s;" [loop_var i] ++
    emit (2 + i) "for (%s = 0; %s < %s; ++%s) {" [loop_var i; loop_var i; makeArraySize zm (str "p") i; loop_var i])
    <$> seq 0 (length (dimensions zm) - 1)) ++
  (if mallocs then
     let t := mapTypeName (fullname (mtype zm)) in
     emit (2 + (length (dimensions zm) - 1)) "%s = (%s*) zcm_malloc(sizeof(%s) * %s);"
       [makeAccessor zm n (length (dimensions zm) - 1); t; t; makeArraySize zm n (length (dimensions zm) - 1)]
   else []).

Definition emitCArrayLoopsEnd (zm : ZCMMember) (n : cstr) (frees : bool) : cstr :=
  if bool_decide (dimensions zm = []) then [] else
  let sz := length (dimensions zm) in
  concat ((fun i =>
    let indent := (sz - i)%nat in
    (if frees then
       let accessor := makeAccessor zm (str "p") (sz - 1 - i) in
       emit (indent + 1) "if (%s) free(%s);" [accessor; accessor]
     else []) ++
    emit indent "}" [] ++
    emit indent "}" []) <$> seq 0 (sz - 1)) ++
  (if frees then
     let accessor := makeAccessor zm (str "p") 0 in
     emit 2 "if (%s) free(%s);" [accessor; accessor]
   else []).

Definition is_bits (zm : ZCMMember) : bool := negb (numbits (mtype zm) =? 0).

Definition emit_pos_bit : cstr := if existsb is_bits (members zs) then emit 1 "uint32_t pos_bit;" [] else [].

(** The little-endian functions exist for the primitive types. *)
Definition endian_infix (zm : ZCMMember) : cstr :=
  if little_endian_encoding o && isPrimitiveType (nameUnderscore (mtype zm)) then str "little_endian_" else [].

(** The lines at the border of a bit field, and the mode and number behind it. *)
Definition emit_bit_border (inBitMode : bool) (bitfieldNum : nat) (zm : ZCMMember) : cstr * bool * nat :=
  if negb inBitMode && is_bits zm then
    (emit 2 "// Start of bitfield %s" [ndec bitfieldNum] ++ emit 0 "" [] ++
     emit 2 "pos_bit = 0;" [] ++ emit 0 "" [], true, bitfieldNum)
  else if inBitMode && negb (is_bits zm) then
    (emit 2 "if (pos_bit != 0) ++pos_byte;" [] ++ emit 0 "" [] ++
     emit 2 "// End of bitfield %s" [ndec bitfieldNum] ++ emit 0 "" [], false, S bitfieldNum)
  else ([], inBitMode, bitfieldNum).

Definition emit_bit_end (inBitMode : bool) (bitfieldNum : nat) : cstr :=
  if inBitMode then
    emit 2 "if (pos_bit != 0) ++pos_byte;" [] ++ emit 0 "" [] ++ emit 2 "// End of bitfield %s" [ndec bitfieldNum]
  else [].

Fixpoint emit_encode_members (ms : list ZCMMember) (inBitMode : bool) (bitfieldNum : nat) : cstr :=
  match ms with
  | [] => emit_bit_end inBitMode bitfieldNum
  | zm :: ms =>
      let '(border, inBitMode, bitfieldNum) := emit_bit_border inBitMode bitfieldNum zm in
      border ++
      emit 2 "/* %s */" [membername zm] ++
      emitCArrayLoopsStart zm (str "p") false ++
      (if negb inBitMode then
         emit (body_indent zm) "thislen = __%s_encode_%sarray(buf, offset + pos_byte, maxlen - pos_byte, %s, %s);"
           [nameUnderscore (mtype zm); endian_infix zm; inner_accessor zm (str "p"); inner_size zm (str "p")] ++
         emit (body_indent zm) "if (thislen < 0) return thislen; else pos_byte += thislen;" []
       else
         emit (body_indent zm) "thislen = __%s_encode_array_bits(buf, offset + pos_byte, pos_bit, maxlen - pos_byte, %s, %s, %s);"
           [nameUnderscore (mtype zm); inner_accessor zm (str "p"); inner_size zm (str "p"); dec (numbits (mtype zm))] ++
         emit (body_indent zm) "if (thislen < 0) return thislen;" [] ++
         emit (body_indent zm) "__bitfield_advance_offset(&pos_byte, &pos_bit, thislen);" []) ++
      emitCArrayLoopsEnd zm (str "p") false ++
      emit 0 "" [] ++
      emit_encode_members ms inBitMode bitfieldNum
  end.

Definition emitCEncodeArray : cstr :=
  emit 0 "int __%s_encode_array(void* buf, uint32_t offset, uint32_t maxlen, const %s* p, uint32_t elements)" [tn_; tn_] ++
  emit 0 "{" [] ++
  emit 1 "uint32_t pos_byte = 0, element;" [] ++
  emit_pos_bit ++
  (if bool_decide (members zs = []) then [] else emit 1 "int thislen;" []) ++
  emit 0 "" [] ++
  emit 1 "for (element = 0; element < elements; ++element) {" [] ++
  emit 0 "" [] ++
  emit_encode_members (members zs) false 0 ++
  emit 1 "}" [] ++
  emit 1 "return pos_byte;" [] ++
  emit 0 "}" [] ++
  emit 0 "" [].

Definition emitCEncode : cstr :=
  emit 0 "int %s_encode(void* buf, uint32_t offset, uint32_t maxlen, const %s* p)" [tn_; tn_] ++
  emit 0 "{" [] ++
  emit 1 "uint32_t pos = 0;" [] ++
  emit 1 "int thislen;" [] ++
  emit 1 "int64_t hash = __%s_get_hash();" [tn_] ++
  emit 0 "" [] ++
  emit 1 "thislen = __int64_t_encode_array(buf, offset + pos, maxlen - pos, &hash, 1);" [] ++
  emit 1 "if (thislen < 0) return thislen; else pos += thislen;" [] ++
  emit 0 "" [] ++
  emit 1 "thislen = __%s_encode_array(buf, offset + pos, maxlen - pos, p, 1);" [tn_] ++
  emit 1 "if (thislen < 0) return thislen; else pos += thislen;" [] ++
  emit 0 "" [] ++
  emit 1 "return pos;" [] ++
  emit 0 "}" [] ++
  emit 0 "" [].

Fixpoint emit_decode_members (ms : list ZCMMember) (inBitMode : bool) (bitfieldNum : nat) : cstr :=
  match ms with
  | [] => emit_bit_end inBitMode bitfieldNum
  | zm :: ms =>
      let '(border, inBitMode, bitfieldNum) := emit_bit_border inBitMode bitfieldNum zm in
      border ++
      emit 2 "/* %s */" [membername zm] ++
      emitCArrayLoopsStart zm (str "p") (negb (isConstantSizeArray zm)) ++
      (if negb inBitMode then
         emit (body_indent zm) "thislen = __%s_decode_%sarray(buf, offset + pos_byte, maxlen - pos_byte, %s, %s);"
           [nameUnderscore (mtype zm); endian_infix zm; inner_accessor zm (str "p"); inner_size zm (str "p")] ++
         emit (body_indent zm) "if (thislen < 0) return thislen; else pos_byte += thislen;" []
       else
         emit (body_indent zm) "thislen = __%s_decode_array_bits%s(buf, offset + pos_byte, pos_bit, maxlen - pos_byte, %s, %s, %s);"
           [nameUnderscore (mtype zm); if signExtend (mtype zm) then str "_sign_extend" else [];
            inner_accessor zm (str "p"); inner_size zm (str "p"); dec (numbits (mtype zm))] ++
         emit (body_indent zm) "if (thislen < 0) return thislen;" [] ++
         emit (body_indent zm) "__bitfield_advance_offset(&pos_byte, &pos_bit, thislen);" []) ++
      emitCArrayLoopsEnd zm (str "p") false ++
      emit 0 "" [] ++
      emit_decode_members ms inBitMode bitfieldNum
  end.

Definition emitCDecodeArray : cstr :=
  emit 0 "int __%s_decode_array(const void* buf, uint32_t offset, uint32_t maxlen, %s* p, uint32_t elements)" [tn_; tn_] ++
  emit 0 "{" [] ++
  emit 1 "uint32_t pos_byte = 0, element;" [] ++
  emit_pos_bit ++
  emit 1 "int thislen;" [] ++
  emit 0 "" [] ++
  emit 1 "for (element = 0; element < elements; ++element) {" [] ++
  emit 0 "" [] ++
  emit_decode_members (members zs) false 0 ++
  emit 1 "}" [] ++
  emit 1 "return pos_byte;" [] ++
  emit 0 "}" [] ++
  emit 0 "" [].

Definition emit_cleanup_member (zm : ZCMMember) : cstr :=
  emitCArrayLoopsStart zm (str "p") false ++
  emit (body_indent zm) "__%s_decode_array_cleanup(%s, %s);"
    [nameUnderscore (mtype zm); inner_accessor zm (str "p"); inner_size zm (str "p")] ++
  emitCArrayLoopsEnd zm (str "p") (negb (isConstantSizeArray zm)) ++
  emit 0 "" [].

Definition emitCDecodeArrayCleanup : cstr :=
  emit 0 "int __%s_decode_array_cleanup(%s* p, uint32_t elements)" [tn_; tn_] ++
  emit 0 "{" [] ++
  emit 1 "uint32_t element;" [] ++
  emit 1 "for (element = 0; element < elements; ++element) {" [] ++
  emit 0 "" [] ++
  concat (emit_cleanup_member <$> members zs) ++
  emit 1 "}" [] ++
  emit 1 "return 0;" [] ++
  emit 0 "}" [] ++
  emit 0 "" [].

Definition emitCDecode : cstr :=
  emit 0 "int %s_decode(const void* buf, uint32_t offset, uint32_t maxlen, %s* p)" [tn_; tn_] ++
  emit 0 "{" [] ++
  emit 1 "uint32_t pos = 0;" [] ++
  emit 1 "int thislen;" [] ++
  emit 1 "int64_t hash = __%s_get_hash();" [tn_] ++
  emit 0 "" [] ++
  emit 1 "int64_t this_hash;" [] ++
  emit 1 "thislen = __int64_t_decode_array(buf, offset + pos, maxlen - pos, &this_hash, 1);" [] ++
  emit 1 "if (thislen < 0) return thislen; else pos += thislen;" [] ++
  emit 1 "if (this_hash != hash) return -1;" [] ++
  emit 0 "" [] ++
  emit 1 "thislen = __%s_decode_array(buf, offset + pos, maxlen - pos, p, 1);" [tn_] ++
  emit 1 "if (thislen < 0) return thislen; else pos += thislen;" [] ++
  emit 0 "" [] ++
  emit 1 "return pos;" [] ++
  emit 0 "}" [] ++
  emit 0 "" [].

Definition emitCDecodeCleanup : cstr :=
  emit 0 "int %s_decode_cleanup(%s* p)" [tn_; tn_] ++
  emit 0 "{" [] ++
  emit 1 "return __%s_decode_array_cleanup(p, 1);" [tn_] ++
  emit 0 "}" [] ++
  emit 0 "" [].

Fixpoint emit_size_members (ms : list ZCMMember) (inBitMode : bool) : cstr :=
  match ms with
  | [] => if inBitMode then emit 2 "size += __bitfield_encoded_size(numbits);" [] else []
  | zm :: ms =>
      let '(border, inBitMode) :=
        if inBitMode && negb (is_bits zm) then
          (emit 2 "size += __bitfield_encoded_size(numbits);" [] ++ emit 0 "" [], false)
        else if negb inBitMode && is_bits zm then (emit 2 "numbits = 0;" [], true)
        else ([], inBitMode) in
      border ++
      emitCArrayLoopsStart zm (str "p") false ++
      (if negb inBitMode then
         emit (body_indent zm) "size += __%s_encoded_array_size(%s, %s); // %s"
           [nameUnderscore (mtype zm); inner_accessor zm (str "p"); inner_size zm (str "p"); membername zm]
       else
         emitStart (body_indent zm) "numbits += " [] ++
         (if bool_decide (dimensions zm = []) then [] else emitContinue "%s * " [inner_size zm (str "p")]) ++
         emitEnd "%s; // %s" [dec (numbits (mtype zm)); membername zm]) ++
      emitCArrayLoopsEnd zm (str "p") false ++
      (if negb inBitMode then emit 0 "" [] else []) ++
      emit_size_members ms inBitMode
  end.

Definition emitCEncodedArraySize : cstr :=
  emit 0 "uint32_t __%s_encoded_array_size(const %s* p, uint32_t elements)" [tn_; tn_] ++
  emit 0 "{" [] ++
  emit 1 "uint32_t size = 0, element;" [] ++
  (if existsb is_bits (members zs) then emit 1 "uint32_t numbits;" [] else []) ++
  emit 1 "for (element = 0; element < elements; ++element) {" [] ++
  emit 0 "" [] ++
  emit_size_members (members zs) false ++
  emit 1 "}" [] ++
  emit 1 "return size;" [] ++
  emit 0 "}" [] ++
  emit 0 "" [].

Definition emitCEncodedSize : cstr :=
  emit 0 "uint32_t %s_encoded_size(const %s* p)" [tn_; tn_] ++
  emit 0 "{" [] ++
  emit 1 "return 8 + __%s_encoded_array_size(p, 1);" [tn_] ++
  emit 0 "}" [] ++
  emit 0 "" [].

(** *** Type information *)

Definition emitCNumFields : cstr :=
  emit 0 "uint32_t %s_num_fields(void)" [tn_] ++
  emit 0 "{" [] ++
  emit 1 "return %s;" [ndec (length (members zs))] ++
  emit 0 "}" [] ++
  emit 0 "" [].

Definition emitCStructSize : cstr :=
  emit 0 "uint32_t %s_struct_size(void)" [tn_] ++
  emit 0 "{" [] ++
  emit 1 "return sizeof(%s);" [tn_] ++
  emit 0 "}" [] ++
  emit 0 "" [].

Definition emit_get_field (i : nat) (m : ZCMMember) : cstr :=
  let prim := isPrimitiveType (shortname (mtype m)) in
  emit 2 "case %s: {" [ndec i] ++
  (if prim then [] else emit 3 "/* %s */" [shortname (mtype m)]) ++
  emit 3 "f->name = `%s`;" [membername m] ++
  emit 3 "f->type = %s;" [if prim then str "ZCM_FIELD_" ++ toUpper (shortname (mtype m)) else str "ZCM_FIELD_USER_TYPE"] ++
  (if numbits (mtype m) =? 0 then emit 3 "f->typestr = `%s`;" [fullname (mtype m)]
   else emit 3 "f->typestr = `%s:%s`;" [fullname (mtype m); dec (numbits (mtype m))]) ++
  emit 3 "f->num_dim = %s;" [ndec (length (dimensions m))] ++
  concat (imap (fun j d =>
    match mode d with
    | ZCM_VAR => emit 3 "f->dim_size[%s] = p->%s;" [ndec j; dsize d]
    | ZCM_CONST => emit 3 "f->dim_size[%s] = %s;" [ndec j; dsize d]
    end) (dimensions m)) ++
  concat (imap (fun j d =>
    emit 3 "f->dim_is_variable[%s] = %s;" [ndec j; match mode d with ZCM_VAR => str "1" | ZCM_CONST => str "0" end])
    (dimensions m)) ++
  emit 3 "f->data = (void*) &p->%s;" [membername m] ++
  emit 3 "return 0;" [] ++
  emit 2 "}" [] ++
  emit 2 "" [].

Definition emitCGetField : cstr :=
  emit 0 "int %s_get_field(const %s* p, uint32_t i, zcm_field_t* f)" [tn_; tn_] ++
  emit 0 "{" [] ++
  emit 1 "if (i >= %s_num_fields())" [tn_] ++
  emit 2 "return 1;" [] ++
  emit 1 "" [] ++
  emit 1 "switch (i) {" [] ++
  emit 1 "" [] ++
  concat (imap emit_get_field (members zs)) ++
  emit 2 "default:" [] ++
  emit 3 "return 1;" [] ++
  emit 1 "}" [] ++
  emit 0 "}" [] ++
  emit 0 "" [].

Definition emitCGetTypeInfo : cstr :=
  emit 0 "const zcm_type_info_t* %s_get_type_info(void)" [tn_] ++
  emit 0 "{" [] ++
  emit 1 "static int init = 0;" [] ++
  emit 1 "static zcm_type_info_t typeinfo;" [] ++
  emit 1 "if (!init) {" [] ++
  emit 2 "typeinfo.encode         = (zcm_encode_t) %s_encode;" [tn_] ++
  emit 2 "typeinfo.decode         = (zcm_decode_t) %s_decode;" [tn_] ++
  emit 2 "typeinfo.decode_cleanup = (zcm_decode_cleanup_t) %s_decode_cleanup;" [tn_] ++
  emit 2 "typeinfo.encoded_size   = (zcm_encoded_size_t) %s_encoded_size;" [tn_] ++
  emit 2 "typeinfo.struct_size    = (zcm_struct_size_t)  %s_struct_size;" [tn_] ++
  emit 2 "typeinfo.num_fields     = (zcm_num_fields_t) %s_num_fields;" [tn_] ++
  emit 2 "typeinfo.get_field      = (zcm_get_field_t) %s_get_field;" [tn_] ++
  emit 2 "typeinfo.get_hash       = (zcm_get_hash_t) __%s_get_hash;" [tn_] ++
  emit 1 "}" [] ++
  emit 1 "" [] ++
  emit 1 "return &typeinfo;" [] ++
  emit 0 "}" [] ++
  emit 0 "" [].

(** *** Copies *)

Definition emit_clone_member (zm : ZCMMember) : cstr :=
  emitCArrayLoopsStart zm (str "q") (negb (isConstantSizeArray zm)) ++
  emit (body_indent zm) "n += __%s_clone_array(%s, %s, %s);"
    [nameUnderscore (mtype zm); inner_accessor zm (str "p"); inner_accessor zm (str "q"); inner_size zm (str "p")] ++
  emitCArrayLoopsEnd zm (str "p") false ++
  emit 0 "" [].

Definition emitCCloneArray : cstr :=
  emit 0 "uint32_t __%s_clone_array(const %s* p, %s* q, uint32_t elements)" [tn_; tn_; tn_] ++
  emit 0 "{" [] ++
  emit 1 "uint32_t n = 0, element;" [] ++
  emit 1 "for (element = 0; element < elements; ++element) {" [] ++
  emit 0 "" [] ++
  concat (emit_clone_member <$> members zs) ++
  emit 1 "}" [] ++
  emit 1 "return n;" [] ++
  emit 0 "}" [] ++
  emit 0 "" [].

Definition emitCCopy : cstr :=
  emit 0 "%s* %s_copy(const %s* p)" [tn_; tn_; tn_] ++
  emit 0 "{" [] ++
  emit 1 "%s* q = (%s*) malloc(sizeof(%s));" [tn_; tn_; tn_] ++
  emit 1 "if (!q) return NULL;" [] ++
  emit 1 "__%s_clone_array(p, q, 1);" [tn_] ++
  emit 1 "return q;" [] ++
  emit 0 "}" [] ++
  emit 0 "" [].

Definition emitCDestroy : cstr :=
  emit 0 "void %s_destroy(%s* p)" [tn_; tn_] ++
  emit 0 "{" [] ++
  emit 1 "__%s_decode_array_cleanup(p, 1);" [tn_] ++
  emit 1 "free(p);" [] ++
  emit 0 "}" [] ++
  emit 0 "" [].

(** *** Publishing and subscribing *)

Definition emitCStructPublish : cstr :=
  emit 0 "int %s_publish(zcm_t* zcm, const char* channel, const %s* p)" [tn_; tn_] ++
  emit 0 "{" [] ++
  emit 0 "      uint32_t max_data_size = %s_encoded_size (p);" [tn_] ++
  emit 0 "      uint8_t* buf = (uint8_t*) malloc (max_data_size);" [] ++
  emit 0 "      if (!buf) return -1;" [] ++
  emit 0 "      int data_size = %s_encode (buf, 0, max_data_size, p);" [tn_] ++
  emit 0 "      if (data_size < 0) {" [] ++
  emit 0 "          free (buf);" [] ++
  emit 0 "          return data_size;" [] ++
  emit 0 "      }" [] ++
  emit 0 "      int status = zcm_publish (zcm, channel, buf, (uint32_t)data_size);" [] ++
  emit 0 "      free (buf);" [] ++
  emit 0 "      return status;" [] ++
  emit 0 "}" [] ++
  emit 0 "" [].

Definition emitCStructSubscribe : cstr :=
  emit 0 "struct _%s_subscription_t {" [tn_] ++
  emit 0 "    %s_handler_t user_handler;" [tn_] ++
  emit 0 "    void* userdata;" [] ++
  emit 0 "    zcm_sub_t* z_sub;" [] ++
  emit 0 "};" [] ++
  emit 0 "static" [] ++
  emit 0 "void %s_handler_stub (const zcm_recv_buf_t* rbuf," [tn_] ++
  emit 0 "                            const char* channel, void* userdata)" [] ++
  emit 0 "{" [] ++
  emit 0 "    int status;" [] ++
  emit 0 "    %s p;" [tn_] ++
  emit 0 "    memset(&p, 0, sizeof(%s));" [tn_] ++
  emit 0 "    status = %s_decode (rbuf->data, 0, rbuf->data_size, &p);" [tn_] ++
  emit 0 "    if (status < 0) {" [] ++
  emit 0 "        #ifndef ZCM_EMBEDDED" [] ++
  emit 0 "        fprintf (stderr, `error %%d decoding %s!!!\n`, status);" [tn_] ++
  emit 0 "        #endif" [] ++
  emit 0 "        return;" [] ++
  emit 0 "    }" [] ++
  emit 0 "" [] ++
  emit 0 "    %s_subscription_t* h = (%s_subscription_t*) userdata;" [tn_; tn_] ++
  emit 0 "    h->user_handler (rbuf, channel, &p, h->userdata);" [] ++
  emit 0 "" [] ++
  emit 0 "    %s_decode_cleanup (&p);" [tn_] ++
  emit 0 "}" [] ++
  emit 0 "" [] ++
  emit 0 "%s_subscription_t* %s_subscribe (zcm_t* zcm," [tn_; tn_] ++
  emit 0 "                    const char* channel," [] ++
  emit 0 "                    %s_handler_t f, void* userdata)" [tn_] ++
  emit 0 "{" [] ++
  emit 0 "    %s_subscription_t* n = (%s_subscription_t*)" [tn_; tn_] ++
  emit 0 "                       malloc(sizeof(%s_subscription_t));" [tn_] ++
  emit 0 "    if (!n) return NULL;" [] ++
  emit 0 "    n->user_handler = f;" [] ++
  emit 0 "    n->userdata = userdata;" [] ++
  emit 0 "    n->z_sub = zcm_subscribe (zcm, channel," [] ++
  emit 0 "                              %s_handler_stub, n);" [tn_] ++
  emit 0 "    if (n->z_sub == NULL) {" [] ++
  emit 0 "        #ifndef ZCM_EMBEDDED" [] ++
  emit 0 "        fprintf (stderr,`couldn't reg %s ZCM handler!\n`);" [tn_] ++
  emit 0 "        #endif" [] ++
  emit 0 "        free (n);" [] ++
  emit 0 "        return NULL;" [] ++
  emit 0 "    }" [] ++
  emit 0 "    return n;" [] ++
  emit 0 "}" [] ++
  emit 0 "" [] ++
  emit 0 "int %s_unsubscribe(zcm_t* zcm, %s_subscription_t* hid)" [tn_; tn_] ++
  emit 0 "{" [] ++
  emit 0 "    int status = zcm_unsubscribe (zcm, hid->z_sub);" [] ++
  emit 0 "    if (0 != status) {" [] ++
  emit 0 "        #ifndef ZCM_EMBEDDED" [] ++
  emit 0 "        fprintf(stderr," [] ++
  emit 0 "           `couldn't unsubscribe %s_handler %%p!\n`, hid);" [tn_] ++
  emit 0 "        #endif" [] ++
  emit 0 "        return -1;" [] ++
  emit 0 "    }" [] ++
  emit 0 "    free (hid);" [] ++
  emit 0 "    return 0;" [] ++
  emit 0 "}
" [].

Definition emitStructSource : cstr :=
  emitAutoGeneratedWarning ++
  emitIncludes ++
  emitCStructGetHash ++
  emitCEncodeArray ++
  emitCEncode ++
  emitCEncodedArraySize ++
  emitCEncodedSize ++
  (if c_typeinfo o then emitCStructSize ++ emitCNumFields ++ emitCGetField ++ emitCGetTypeInfo else []) ++
  emitCDecodeArray ++
  emitCDecodeArrayCleanup ++
  emitCDecode ++
  emitCDecodeCleanup ++
  emitCCloneArray ++
  emitCCopy ++
  emitCDestroy ++
  (if c_no_pubsub o then [] else emitCStructPublish ++ emitCStructSubscribe).
End Source.

(** ** The files *)

(** The names of the header and of the source; the source is named after the
    path for headers. *)
Definition hName (o : copts) (zs : ZCMStruct) : cstr :=
  let package := dotsToSlashes (package (structname zs)) in
  let package := if bool_decide (package = []) then [] else str "/" ++ package in
  c_hpath o ++ package ++ str "/" ++ nameUnderscore (structname zs) ++ str ".h".
Definition cName (o : copts) (zs : ZCMStruct) : cstr :=
  let package := dotsToSlashes (package (structname zs)) in
  let package := if bool_decide (package = []) then [] else str "/" ++ package in
  c_hpath o ++ package ++ str "/" ++ nameUnderscore (structname zs) ++ str ".c".

(** The files written, in order; [needs file out] says whether a file has to be
    generated, and [opens] whether it can be opened.  The second component is
    the return code. *)
Section Files.
Context (o : copts) (needs : cstr -> cstr -> bool) (opens : cstr -> bool).

Definition emit_file (zs : ZCMStruct) (name text : cstr) : list (cstr * cstr) * Z :=
  if needs (zcmfile zs) name then if opens name then ([(name, text)], 0) else ([], -1) else ([], 0).

Fixpoint emitC (structs : list ZCMStruct) : list (cstr * cstr) * Z :=
  match structs with
  | [] => ([], 0)
  | zs :: structs =>
      let '(h, ret) := emit_file zs (hName o zs) (emitStructHeader o zs) in
      if negb (ret =? 0) then (h, ret) else
      let '(c, ret) := emit_file zs (cName o zs) (emitStructSource o zs) in
      if negb (ret =? 0) then (h ++ c, ret) else
      let '(rest, ret) := emitC structs in
      (h ++ c ++ rest, ret)
  end.
End Files.

Definition getFilepathsC (o : copts) (structs : list ZCMStruct) : list cstr :=
  concat ((fun zs => [hName o zs; cName o zs]) <$> structs).

Definition getReservedKeywordsC : list cstr :=
  str <$> ["auto"; "break"; "case"; "char"; "const"; "continue"; "default";
           "do"; "double"; "else"; "enum"; "extern"; "float"; "for"; "goto";
           "if"; "inline "; "int"; "long"; "register"; "restrict "; "return";
           "short"; "signed"; "sizeof"; "static"; "struct"; "switch";
           "typedef"; "union"; "unsigned"; "void"; "volatile"; "while"]%string.

(** ** What the emitter does not do *)

(** The folder for sources is not looked at. *)
Lemma c_path_ignored o o' zs : c_hpath o = c_hpath o' -> cName o zs = cName o' zs /\ hName o zs = hName o' zs.
Proof. intros H. unfold cName, hName. by rewrite H. Qed.

(** Two keywords of C have a space at their end in the list. *)
Lemma inline_not_reserved : str "inline" ∉ getReservedKeywordsC /\ str "restrict" ∉ getReservedKeywordsC /\ str "return" ∈ getReservedKeywordsC.
Proof. split; [|split]; apply (bool_decide_unpack _); vm_compute; exact I. Qed.

(** The loop over dimension 15 uses the name of the message. *)
Lemma loop_variable_shadows : loop_var 15 = str "p".
Proof. reflexivity. Qed.
