(* ===== verification/CCode.v ===== *)
(** * The code that the C emitter writes

    The functions that encode, decode and measure messages, as programs of a
    small language: the statements are those that [EmitC] prints, [print] gives
    their text, and [exec_enc], [exec_dec] and [exec_size] their meaning.  A
    statement that leaves the defined behaviour of C has no result. *)
From S2P Require Import Prelude Bytes CoreTypes Bitfield Transport Url Gen CNum EmitC.
Local Open Scope Z_scope.

(** ** Statements *)

(** The names of the variables are fixed; a statement about a member reads its
    type, its dimensions and its name.  [CNote] is text without meaning.  The loop
    variable of the sixteenth dimension has the name of the message, p: such text does not
    compile ([EmitC.loop_variable_shadows]), while the meaning of [CFor] goes on as if the
    names differed. *)
Inductive cstmt :=
  | CNote (text : cstr)
  | CSeq (a b : cstmt)
  | CFor (zm : ZCMMember) (d : nat) (body : cstmt)
  | CMalloc (zm : ZCMMember) (d : nat)
  | CEncode (zm : ZCMMember)
  | CEncodeBits (zm : ZCMMember)
  | CDecode (zm : ZCMMember)
  | CDecodeBits (zm : ZCMMember)
  | CSize (zm : ZCMMember)
  | CNumbits (zm : ZCMMember)
  | CPosBitZero
  | CPosBitEnd
  | CNumbitsZero
  | CNumbitsEnd.

Fixpoint print (o : copts) (s : cstmt) : cstr :=
  match s with
  | CNote text => text
  | CSeq a b => print o a ++ print o b
  | CFor zm d body =>
      emit (2 + d) "{ int %s;" [loop_var d] ++
      emit (2 + d) "for (%s = 0; %s < %s; ++%s) {" [loop_var d; loop_var d; makeArraySize zm (str "p") d; loop_var d] ++
      print o body ++
      emit (2 + d) "}" [] ++
      emit (2 + d) "}" []
  | CMalloc zm d => emit_malloc zm (str "p") d
  | CEncode zm =>
      emit (body_indent zm) "thislen = __%s_encode_%sarray(buf, offset + pos_byte, maxlen - pos_byte, %s, %s);"
        [nameUnderscore (mtype zm); endian_infix o zm; inner_accessor zm (str "p"); inner_size zm (str "p")] ++
      emit (body_indent zm) "if (thislen < 0) return thislen; else pos_byte += thislen;" []
  | CEncodeBits zm =>
      emit (body_indent zm) "thislen = __%s_encode_array_bits(buf, offset + pos_byte, pos_bit, maxlen - pos_byte, %s, %s, %s);"
        [nameUnderscore (mtype zm); inner_accessor zm (str "p"); inner_size zm (str "p"); EmitC.dec (numbits (mtype zm))] ++
      emit (body_indent zm) "if (thislen < 0) return thislen;" [] ++
      emit (body_indent zm) "__bitfield_advance_offset(&pos_byte, &pos_bit, thislen);" []
  | CDecode zm =>
      emit (body_indent zm) "thislen = __%s_decode_%sarray(buf, offset + pos_byte, maxlen - pos_byte, %s, %s);"
        [nameUnderscore (mtype zm); endian_infix o zm; inner_accessor zm (str "p"); inner_size zm (str "p")] ++
      emit (body_indent zm) "if (thislen < 0) return thislen; else pos_byte += thislen;" []
  | CDecodeBits zm =>
      emit (body_indent zm) "thislen = __%s_decode_array_bits%s(buf, offset + pos_byte, pos_bit, maxlen - pos_byte, %s, %s, %s);"
        [nameUnderscore (mtype zm); if signExtend (mtype zm) then str "_sign_extend" else [];
         inner_accessor zm (str "p"); inner_size zm (str "p"); EmitC.dec (numbits (mtype zm))] ++
      emit (body_indent zm) "if (thislen < 0) return thislen;" [] ++
      emit (body_indent zm) "__bitfield_advance_offset(&pos_byte, &pos_bit, thislen);" []
  | CSize zm =>
      emit (body_indent zm) "size += __%s_encoded_array_size(%s, %s); // %s"
        [nameUnderscore (mtype zm); inner_accessor zm (str "p"); inner_size zm (str "p"); membername zm]
  | CNumbits zm =>
      emitStart (body_indent zm) "numbits += " [] ++
      (if bool_decide (dimensions zm = []) then [] else emitContinue "%s * " [inner_size zm (str "p")]) ++
      emitEnd "%s; // %s" [EmitC.dec (numbits (mtype zm)); membername zm]
  | CPosBitZero => emit 2 "pos_bit = 0;" []
  | CPosBitEnd => emit 2 "if (pos_bit != 0) ++pos_byte;" []
  | CNumbitsZero => emit 2 "numbits = 0;" []
  | CNumbitsEnd => emit 2 "size += __bitfield_encoded_size(numbits);" []
  end.

(** ** The bodies of the three functions *)

(** The loops around the innermost dimension: [n] of them, from dimension [d]
    on, each behind an allocation if the array is allocated. *)
Fixpoint loops (mallocs : bool) (zm : ZCMMember) (d n : nat) (body : cstmt) : cstmt :=
  match n with
  | O => if mallocs then CSeq (CMalloc zm d) body else body
  | S n =>
      let rest := CFor zm d (loops mallocs zm (S d) n body) in
      if mallocs then CSeq (CMalloc zm d) rest else rest
  end.

Definition member_loops (mallocs : bool) (zm : ZCMMember) (body : cstmt) : cstmt :=
  if bool_decide (dimensions zm = []) then body else loops mallocs zm 0 (inner zm) body.

Definition blank : cstmt := CNote (emit 0 "" []).

Definition bit_border (inBitMode : bool) (bitfieldNum : nat) (zm : ZCMMember) : cstmt * bool * nat :=
  if negb inBitMode && is_bits zm then
    (CSeq (CNote (emit 2 "// Start of bitfield %s" [ndec bitfieldNum] ++ emit 0 "" [])) (CSeq CPosBitZero blank), true, bitfieldNum)
  else if inBitMode && negb (is_bits zm) then
    (CSeq CPosBitEnd (CNote (emit 0 "" [] ++ emit 2 "// End of bitfield %s" [ndec bitfieldNum] ++ emit 0 "" [])), false, S bitfieldNum)
  else (CNote [], inBitMode, bitfieldNum).

Definition bit_end (inBitMode : bool) (bitfieldNum : nat) : cstmt :=
  if inBitMode then CSeq CPosBitEnd (CNote (emit 0 "" [] ++ emit 2 "// End of bitfield %s" [ndec bitfieldNum])) else CNote [].

Fixpoint encode_body (ms : list ZCMMember) (inBitMode : bool) (bitfieldNum : nat) : cstmt :=
  match ms with
  | [] => bit_end inBitMode bitfieldNum
  | zm :: ms =>
      let '(border, inBitMode, bitfieldNum) := bit_border inBitMode bitfieldNum zm in
      CSeq border (CSeq (CNote (emit 2 "/* %s */" [membername zm]))
        (CSeq (member_loops false zm (if negb inBitMode then CEncode zm else CEncodeBits zm))
           (CSeq blank (encode_body ms inBitMode bitfieldNum))))
  end.

Fixpoint decode_body (ms : list ZCMMember) (inBitMode : bool) (bitfieldNum : nat) : cstmt :=
  match ms with
  | [] => bit_end inBitMode bitfieldNum
  | zm :: ms =>
      let '(border, inBitMode, bitfieldNum) := bit_border inBitMode bitfieldNum zm in
      CSeq border (CSeq (CNote (emit 2 "/* %s */" [membername zm]))
        (CSeq (member_loops (negb (isConstantSizeArray zm)) zm (if negb inBitMode then CDecode zm else CDecodeBits zm))
           (CSeq blank (decode_body ms inBitMode bitfieldNum))))
  end.

Fixpoint size_body (ms : list ZCMMember) (inBitMode : bool) : cstmt :=
  match ms with
  | [] => if inBitMode then CNumbitsEnd else CNote []
  | zm :: ms =>
      let '(border, inBitMode) :=
        if inBitMode && negb (is_bits zm) then (CSeq CNumbitsEnd blank, false)
        else if negb inBitMode && is_bits zm then (CNumbitsZero, true)
        else (CNote [], inBitMode) in
      CSeq border (CSeq (member_loops false zm (if negb inBitMode then CSize zm else CNumbits zm))
        (CSeq (if negb inBitMode then blank else CNote []) (size_body ms inBitMode)))
  end.

(** ** Messages in memory *)

(** A value of a C type: uninitialised memory, a number (a floating-point one by
    its bits), the characters of a string, an array, a struct. *)
Inductive val := VUndef | VNum (z : Z) | VStr (s : list Z) | VArr (l : list val) | VStruct (l : list val).

Definition num_of (v : val) : option Z := match v with VNum z => Some z | _ => None end.
Definition str_of (v : val) : option (list Z) := match v with VStr s => Some s | _ => None end.
Definition arr_of (v : val) : option (list val) := match v with VArr l => Some l | _ => None end.
Definition fields_of (v : val) : option (list val) := match v with VStruct l => Some l | _ => None end.

(** [x[i][j]...] *)
Fixpoint get_at (x : val) (idx : list nat) : option val :=
  match idx with
  | [] => Some x
  | i :: idx => l <- arr_of x ;; y <- l !! i ;; get_at y idx
  end.

Fixpoint set_at (x : val) (idx : list nat) (y : val) : option val :=
  match idx with
  | [] => Some y
  | i :: idx => l <- arr_of x ;; x' <- l !! i ;; y' <- set_at x' idx y ;; Some (VArr (<[i := y']> l))
  end.

(** A block of characters as the C string that it holds. *)
Fixpoint cut (block : list Z) : list Z :=
  match block with
  | [] => []
  | c :: block => if c =? 0 then [] else c :: cut block
  end.

(** ** Primitive types *)

Definition codec_of (le : bool) (ty : cstr) : option Codec :=
  if bool_decide (ty = str "int8_t") || bool_decide (ty = str "boolean") then Some int8_codec
  else if bool_decide (ty = str "byte") then Some byte_codec
  else if bool_decide (ty = str "int16_t") then Some (if le then int16_le_codec else int16_codec)
  else if bool_decide (ty = str "int32_t") then Some (if le then int32_le_codec else int32_codec)
  else if bool_decide (ty = str "int64_t") then Some (if le then int64_le_codec else int64_codec)
  else if bool_decide (ty = str "float") then Some (if le then float_le_codec else float_codec)
  else if bool_decide (ty = str "double") then Some (if le then double_le_codec else double_codec)
  else None.

Definition itype_of (ty : cstr) : option itype :=
  if bool_decide (ty = str "byte") then Some (mkIType 8 false)
  else if bool_decide (ty = str "int8_t") then Some (mkIType 8 true)
  else if bool_decide (ty = str "int16_t") then Some (mkIType 16 true)
  else if bool_decide (ty = str "int32_t") then Some (mkIType 32 true)
  else if bool_decide (ty = str "int64_t") then Some (mkIType 64 true)
  else None.

(** The first elements of an array; reading past its end has no result. *)
Definition take_vals (n : Z) (vs : list val) : option (list val) :=
  check (n <=? Z.of_nat (length vs)) ;; Some (take (Z.to_nat n) vs).

Definition prim_encode (le : bool) (ty : cstr) (buf : list byte) (offset maxlen : Z) (vs : list val) (elements : Z)
  : option (list byte * Z) :=
  vs <- take_vals elements vs ;;
  if bool_decide (ty = str "string") then
    ss <- mapM str_of vs ;;
    (if le then __string_encode_little_endian_array else __string_encode_array) buf offset maxlen ss
  else
    K <- codec_of le ty ;;
    zs <- mapM num_of vs ;;
    encode_array K buf offset maxlen zs elements.

Definition prim_decode (le : bool) (ty : cstr) (buf : list byte) (offset maxlen elements : Z) : option (list val * Z) :=
  if bool_decide (ty = str "string") then
    '(ss, r) <- (if le then __string_decode_little_endian_array else __string_decode_array) buf offset maxlen elements ;;
    Some ((fun block => VStr (cut block)) <$> ss, r)
  else
    K <- codec_of le ty ;;
    '(zs, r) <- decode_array K buf offset maxlen elements ;;
    Some (VNum <$> zs, r).

Definition prim_size (le : bool) (ty : cstr) (vs : list val) (elements : Z) : option Z :=
  vs <- take_vals elements vs ;;
  if bool_decide (ty = str "string") then
    ss <- mapM str_of vs ;; Some (__string_encoded_array_size ss)
  else
    K <- codec_of le ty ;; Some (encoded_array_size K elements).

(** ** Meaning *)

(** What a loop or a statement does: it goes on, or the function returns. *)
Fixpoint for_loop {S R : Type} (n a : nat) (f : nat -> S -> option (S + R)) (s : S) : option (S + R) :=
  match n with
  | O => Some (inl s)
  | Datatypes.S n => match f a s with Some (inl s) => for_loop n (Datatypes.S a) f s | r => r end
  end.

Definition member_index (ms : list ZCMMember) (name : cstr) : option nat :=
  fst <$> list_find (fun m => membername m = name) ms.

Section Struct.
(** The members of the struct and the byte order. *)
Context (ms : list ZCMMember) (le : bool).

Definition dim_size (fs : list val) (d : ZCMDimension) : option Z :=
  match mode d with
  | ZCM_CONST => Some (strtol (dsize d) 0)
  | ZCM_VAR => i <- member_index ms (dsize d) ;; x <- fs !! i ;; num_of x
  end.

Definition array_size (fs : list val) (zm : ZCMMember) (d : nat) : option Z :=
  if bool_decide (dimensions zm = []) then Some 1 else zd <- dimensions zm !! d ;; dim_size fs zd.

(** The number of turns of a loop; the counter is an [int]. *)
Definition loop_count (fs : list val) (zm : ZCMMember) (d : nat) : option nat :=
  n <- array_size fs zm d ;; check (n <? 2 ^ 31) ;; Some (Z.to_nat n).

(** The array that the accessor in front of the innermost dimension points to. *)
Definition inner_vals (fs : list val) (zm : ZCMMember) (idx : list nat) : option (list val) :=
  i <- member_index ms (membername zm) ;;
  x <- fs !! i ;;
  if bool_decide (dimensions zm = []) then Some [x] else y <- get_at x idx ;; arr_of y.

(** [x[i][j]... = y] for a member. *)
Definition store_at (fs : list val) (zm : ZCMMember) (idx : list nat) (y : val) : option (list val) :=
  i <- member_index ms (membername zm) ;;
  x <- fs !! i ;;
  x <- set_at x idx y ;;
  Some (<[i := x]> fs).

(** The elements that a decoder has written. *)
Definition store_vals (fs : list val) (zm : ZCMMember) (idx : list nat) (vs : list val) : option (list val) :=
  if bool_decide (dimensions zm = []) then
    match vs with [x] => store_at fs zm [] x | _ => None end
  else
    l <- inner_vals fs zm idx ;;
    check (length vs <=? length l)%nat ;;
    store_at fs zm idx (VArr (vs ++ drop (length vs) l)).

(** The decoders of numbers check the space first; those of strings and of structs
    store elements on the way: their array has to have [n] elements. *)
Definition writes_early (ty : cstr) : bool := negb (isPrimitiveType ty) || bool_decide (ty = str "string").

Definition room (fs : list val) (zm : ZCMMember) (idx : list nat) (n : Z) : bool :=
  bool_decide (dimensions zm = []) ||
  match inner_vals fs zm idx with Some l => n <=? Z.of_nat (length l) | None => false end.

(** *** Encoding *)

Record est := mkEst { es_buf : list byte; es_pos : Z; es_bit : Z }.

(** [call ty] is [__ty_encode_array] for a struct type. *)
Section Enc.
Context (call : cstr -> list byte -> Z -> Z -> list val -> Z -> option (list byte * Z)).
Context (fs : list val) (offset maxlen : Z).

Definition encode_call (zm : ZCMMember) (buf : list byte) (off max : Z) (vs : list val) (n : Z) : option (list byte * Z) :=
  if isPrimitiveType (fullname (mtype zm)) then prim_encode le (fullname (mtype zm)) buf off max vs n
  else call (fullname (mtype zm)) buf off max vs n.

Fixpoint exec_enc (s : cstmt) (idx : list nat) (st : est) : option (est + list byte * Z) :=
  match s with
  | CNote _ => Some (inl st)
  | CSeq a b => match exec_enc a idx st with Some (inl st) => exec_enc b idx st | r => r end
  | CFor zm d body =>
      n <- loop_count fs zm d ;;
      for_loop n 0 (fun a st => exec_enc body (idx ++ [a]) st) st
  | CEncode zm =>
      vs <- inner_vals fs zm idx ;;
      n <- array_size fs zm (inner zm) ;;
      '(buf, thislen) <- encode_call zm (es_buf st) (u32 (offset + es_pos st)) (u32 (maxlen - es_pos st)) vs (u32 n) ;;
      if thislen <? 0 then Some (inr (buf, thislen))
      else Some (inl (mkEst buf (u32 (es_pos st + thislen)) (es_bit st)))
  | CEncodeBits zm =>
      vs <- inner_vals fs zm idx ;;
      n <- array_size fs zm (inner zm) ;;
      vs <- take_vals (u32 n) vs ;;
      zs <- mapM num_of vs ;;
      t <- itype_of (fullname (mtype zm)) ;;
      '(buf, r) <- encode_array_bits (iwidth t) (es_buf st) (u32 (offset + es_pos st)) (es_bit st) (u32 (maxlen - es_pos st)) zs
                     (numbits (mtype zm)) ;;
      let thislen := wraps 32 r in
      if thislen <? 0 then Some (inr (buf, thislen))
      else let '(pos, bit) := __bitfield_advance_offset (es_pos st) (es_bit st) thislen in Some (inl (mkEst buf pos bit))
  | CPosBitZero => Some (inl (mkEst (es_buf st) (es_pos st) 0))
  | CPosBitEnd => Some (inl (mkEst (es_buf st) (if negb (es_bit st =? 0) then u32 (es_pos st + 1) else es_pos st) (es_bit st)))
  | _ => None
  end.
End Enc.

(** *** Decoding *)

(** The type of the elements of an array behind which [stars] dimensions follow. *)
Definition elem_type (zm : ZCMMember) (stars : nat) : cstr := mapTypeName (fullname (mtype zm)) ++ replicate stars (ch "*").

Record dst := mkDst { ds_fields : list val; ds_pos : Z; ds_bit : Z }.

(** [sizeof] is the compiler's; [call ty] is [__ty_decode_array] for a struct type. *)
Section Dec.
Context (sizeof : cstr -> Z).
Context (call : cstr -> list byte -> Z -> Z -> Z -> option (list val * Z)).
Context (buf : list byte) (offset maxlen : Z).

Definition decode_call (zm : ZCMMember) (off max n : Z) : option (list val * Z) :=
  if isPrimitiveType (fullname (mtype zm)) then prim_decode le (fullname (mtype zm)) buf off max n
  else call (fullname (mtype zm)) buf off max n.

(** The elements that fit in [zcm_malloc(sizeof(t) * n)]: its argument has 32 bits. *)
Definition malloc_elems (t : cstr) (n : Z) : nat := Z.to_nat (u32 (sizeof t * n) / sizeof t).

Fixpoint exec_dec (s : cstmt) (idx : list nat) (st : dst) : option (dst + Z) :=
  match s with
  | CNote _ => Some (inl st)
  | CSeq a b => match exec_dec a idx st with Some (inl st) => exec_dec b idx st | r => r end
  | CFor zm d body =>
      n <- loop_count (ds_fields st) zm d ;;
      for_loop n 0 (fun a st => exec_dec body (idx ++ [a]) st) st
  | CMalloc zm d =>
      n <- array_size (ds_fields st) zm d ;;
      fs <- store_at (ds_fields st) zm idx (VArr (replicate (malloc_elems (elem_type zm (length (dimensions zm) - 1 - d)) n) VUndef)) ;;
      Some (inl (mkDst fs (ds_pos st) (ds_bit st)))
  | CDecode zm =>
      n <- array_size (ds_fields st) zm (inner zm) ;;
      check (implb (writes_early (fullname (mtype zm))) (room (ds_fields st) zm idx (u32 n))) ;;
      '(vs, thislen) <- decode_call zm (u32 (offset + ds_pos st)) (u32 (maxlen - ds_pos st)) (u32 n) ;;
      if thislen <? 0 then Some (inr thislen) else
      fs <- store_vals (ds_fields st) zm idx vs ;;
      Some (inl (mkDst fs (u32 (ds_pos st + thislen)) (ds_bit st)))
  | CDecodeBits zm =>
      n <- array_size (ds_fields st) zm (inner zm) ;;
      t <- itype_of (fullname (mtype zm)) ;;
      '(zs, r) <- decode_array_bits t (signExtend (mtype zm)) buf (u32 (offset + ds_pos st)) (ds_bit st)
                    (u32 (maxlen - ds_pos st)) (Z.to_nat (u32 n)) (numbits (mtype zm)) ;;
      let thislen := wraps 32 r in
      if thislen <? 0 then Some (inr thislen) else
      fs <- store_vals (ds_fields st) zm idx (VNum <$> zs) ;;
      let '(pos, bit) := __bitfield_advance_offset (ds_pos st) (ds_bit st) thislen in Some (inl (mkDst fs pos bit))
  | CPosBitZero => Some (inl (mkDst (ds_fields st) (ds_pos st) 0))
  | CPosBitEnd => Some (inl (mkDst (ds_fields st) (if negb (ds_bit st =? 0) then u32 (ds_pos st + 1) else ds_pos st) (ds_bit st)))
  | _ => None
  end.
End Dec.

(** *** Sizes *)

Record sst := mkSst { ss_size : Z; ss_numbits : Z }.

Section Size.
Context (call : cstr -> list val -> Z -> option Z) (fs : list val).

Definition size_call (zm : ZCMMember) (vs : list val) (n : Z) : option Z :=
  if isPrimitiveType (fullname (mtype zm)) then prim_size le (fullname (mtype zm)) vs n
  else call (fullname (mtype zm)) vs n.

Fixpoint exec_size (s : cstmt) (idx : list nat) (st : sst) : option (sst + unit) :=
  match s with
  | CNote _ => Some (inl st)
  | CSeq a b => match exec_size a idx st with Some (inl st) => exec_size b idx st | r => r end
  | CFor zm d body =>
      n <- loop_count fs zm d ;;
      for_loop n 0 (fun a st => exec_size body (idx ++ [a]) st) st
  | CSize zm =>
      vs <- inner_vals fs zm idx ;;
      n <- array_size fs zm (inner zm) ;;
      k <- size_call zm vs (u32 n) ;;
      Some (inl (mkSst (u32 (ss_size st + k)) (ss_numbits st)))
  | CNumbits zm =>
      n <- array_size fs zm (inner zm) ;;
      Some (inl (mkSst (ss_size st) (u32 (ss_numbits st + n * numbits (mtype zm)))))
  | CNumbitsZero => Some (inl (mkSst (ss_size st) 0))
  | CNumbitsEnd => Some (inl (mkSst (u32 (ss_size st + __bitfield_encoded_size (ss_numbits st))) (ss_numbits st)))
  | _ => None
  end.
End Size.

(** An array of a constant size is part of the struct; its elements, and all
    other members, are uninitialised at first. *)
Fixpoint const_array (ds : list ZCMDimension) : val :=
  match ds with
  | [] => VUndef
  | d :: ds => VArr (replicate (Z.to_nat (strtol (dsize d) 0)) (const_array ds))
  end.

Definition init_member (zm : ZCMMember) : val := if isConstantSizeArray zm then const_array (dimensions zm) else VUndef.
End Struct.

(** ** The generated functions *)

Section Functions.
(** The structs of the program, the byte order and the sizes of C types. *)
Context (env : list ZCMStruct) (le : bool) (sizeof : cstr -> Z).

Definition find_struct (name : cstr) : option ZCMStruct :=
  snd <$> list_find (fun zs => fullname (structname zs) = name) env.

(** [__ty_encode_array]: [fuel] bounds the nesting of the structs. *)
Fixpoint encode_struct_array (fuel : nat) (name : cstr) (buf : list byte) (offset maxlen : Z) (p : list val) (elements : Z)
  : option (list byte * Z) :=
  match fuel with
  | O => None
  | S fuel =>
      zs <- find_struct name ;;
      p <- take_vals elements p ;;
      r <- for_loop (length p) 0 (fun element st =>
             v <- p !! element ;; fs <- fields_of v ;;
             exec_enc (members zs) le (encode_struct_array fuel) fs offset maxlen (encode_body (members zs) false 0) [] st)
             (mkEst buf 0 0) ;;
      match r with
      | inl st => Some (es_buf st, wraps 32 (es_pos st))
      | inr r => Some r
      end
  end.

Fixpoint decode_struct_array (fuel : nat) (name : cstr) (buf : list byte) (offset maxlen elements : Z) : option (list val * Z) :=
  match fuel with
  | O => None
  | S fuel =>
      zs <- find_struct name ;;
      r <- for_loop (Z.to_nat elements) 0 (fun element '(done, pos, bit) =>
             r <- exec_dec (members zs) le sizeof (decode_struct_array fuel) buf offset maxlen (decode_body (members zs) false 0) []
                    (mkDst (init_member <$> members zs) pos bit) ;;
             match r with
             | inl st => Some (inl (done ++ [VStruct (ds_fields st)], ds_pos st, ds_bit st))
             | inr code => Some (inr code)
             end) ([], 0, 0) ;;
      match r with
      | inl (done, pos, _) => Some (done, wraps 32 pos)
      | inr code => Some ([], code)
      end
  end.

Fixpoint struct_array_size (fuel : nat) (name : cstr) (p : list val) (elements : Z) : option Z :=
  match fuel with
  | O => None
  | S fuel =>
      zs <- find_struct name ;;
      p <- take_vals elements p ;;
      r <- for_loop (length p) 0 (fun element st =>
             v <- p !! element ;; fs <- fields_of v ;;
             exec_size (members zs) le (struct_array_size fuel) fs (size_body (members zs) false) [] st)
             (mkSst 0 0) ;;
      match r with
      | inl st => Some (ss_size st)
      | inr _ => None
      end
  end.

(** [__ty_hash_recursive]: [parents] are the types on the way; the primitive
    types have the hash 0. *)
Fixpoint hash_recursive (fuel : nat) (parents : list cstr) (name : cstr) : option Z :=
  if isPrimitiveType name then Some 0
  else if bool_decide (name ∈ parents) then Some 0
  else match fuel with
       | O => None
       | S fuel =>
           zs <- find_struct name ;;
           h <- hash zs ;;
           hs <- mapM (fun zm => hash_recursive fuel (name :: parents) (fullname (mtype zm))) (members zs) ;;
           let h := wrapu 64 (foldl Z.add h hs) in
           Some (wrapu 64 (wrapu 64 (Z.shiftl h 1) + Z.land (Z.shiftr h 63) 1))
       end.

Definition get_hash (name : cstr) : option Z := h <- hash_recursive (S (length env)) [] name ;; Some (wraps 64 h).

(** [ty_encode], [ty_decode] and [ty_encoded_size]. *)
Definition encode (fuel : nat) (name : cstr) (buf : list byte) (offset maxlen : Z) (p : val) : option (list byte * Z) :=
  hash <- get_hash name ;;
  '(buf, thislen) <- __int64_t_encode_array buf (u32 (offset + 0)) (u32 (maxlen - 0)) [hash] 1 ;;
  if thislen <? 0 then Some (buf, thislen) else
  let pos := u32 (0 + thislen) in
  '(buf, thislen) <- encode_struct_array fuel name buf (u32 (offset + pos)) (u32 (maxlen - pos)) [p] 1 ;;
  if thislen <? 0 then Some (buf, thislen) else
  Some (buf, wraps 32 (u32 (pos + thislen))).

Definition decode (fuel : nat) (name : cstr) (buf : list byte) (offset maxlen : Z) : option (option val * Z) :=
  hash <- get_hash name ;;
  '(h, thislen) <- __int64_t_decode_array buf (u32 (offset + 0)) (u32 (maxlen - 0)) 1 ;;
  if thislen <? 0 then Some (None, thislen) else
  let pos := u32 (0 + thislen) in
  if negb (bool_decide (h = [hash])) then Some (None, -1) else
  '(vs, thislen) <- decode_struct_array fuel name buf (u32 (offset + pos)) (u32 (maxlen - pos)) 1 ;;
  if thislen <? 0 then Some (None, thislen) else
  Some (head vs, wraps 32 (u32 (pos + thislen))).

Definition encoded_size (fuel : nat) (name : cstr) (p : val) : option Z :=
  n <- struct_array_size fuel name [p] 1 ;; Some (u32 (8 + n)).

(** [ty_publish]: the error, or the bytes that go to [zcm_publish].  [fresh n] is the
    block of [n] bytes from [malloc]. *)
Definition publish (fuel : nat) (name : cstr) (fresh : Z -> list byte) (p : val) : option (Z + list byte) :=
  max_data_size <- encoded_size fuel name p ;;
  '(buf, data_size) <- encode fuel name (fresh max_data_size) 0 max_data_size p ;;
  if data_size <? 0 then Some (inl data_size) else Some (inr (take (Z.to_nat data_size) buf)).

(** [ty_handler_stub]: the message that the user's handler is called with, if it is. *)
Definition handler_stub (fuel : nat) (name : cstr) (data : list byte) : option (option val) :=
  '(p, status) <- decode fuel name data 0 (Z.of_nat (length data)) ;;
  if status <? 0 then Some None else Some p.
End Functions.
