(* ===== verification/CPrint.v ===== *)
(** * The emitter writes the code of [CCode]

    The lines that [EmitC] writes inside the loops over the elements are the text
    of the statements whose meaning [CCode] gives: what is shown of those programs
    is shown of the generated C code. *)
From S2P Require Import Prelude Bytes Transport Url Gen CNum EmitC CCode.
Local Open Scope Z_scope.

(** The lines in front of and behind the loops of the dimensions from [d] on. *)
Definition loops_before (mallocs : bool) (zm : ZCMMember) (d n : nat) : cstr :=
  concat ((fun i =>
    (if mallocs then emit_malloc zm (str "p") i else []) ++
    emit (2 + i) "{ int %s;" [loop_var i] ++
    emit (2 + i) "for (%s = 0; %s < %s; ++%s) {" [loop_var i; loop_var i; makeArraySize zm (str "p") i; loop_var i])
    <$> seq d n).

Definition loops_behind (sz n : nat) : cstr :=
  concat ((fun i => emit (sz - i) "}" [] ++ emit (sz - i) "}" []) <$> seq 0 n).

Lemma loops_behind_S sz n :
  loops_behind sz (S n) = loops_behind sz n ++ emit (sz - n) "}" [] ++ emit (sz - n) "}" [].
Proof. unfold loops_behind. rewrite seq_S, fmap_app, concat_app. cbn [fmap list_fmap concat Nat.add]. by rewrite app_nil_r. Qed.

(** The loops as a statement: the innermost one stands at dimension [sz - 1]. *)
Lemma print_loops o mallocs zm sz body n : forall d, (d + n + 1)%nat = sz ->
  print o (loops mallocs zm d n body) =
  loops_before mallocs zm d n ++ (if mallocs then emit_malloc zm (str "p") (sz - 1) else []) ++ print o body ++ loops_behind sz n.
Proof.
  induction n as [|n IH]; intros d Hd.
  - replace (sz - 1)%nat with d by lia. unfold loops_before, loops_behind.
    destruct mallocs; cbn [loops print fmap list_fmap seq concat app]; by rewrite ?app_nil_r.
  - rewrite loops_behind_S. replace (sz - n)%nat with (2 + d)%nat by lia.
    cbn [loops]. unfold loops_before. cbn [seq fmap list_fmap concat]. fold (loops_before mallocs zm (S d) n).
    destruct mallocs; cbn [print app]; rewrite IH by lia; by rewrite <- ?app_assoc.
Qed.

(** The innermost allocation has no stars. *)
Lemma fmt_no_stars (a t n : cstr) :
  fmt "%s = (%s*) zcm_malloc(sizeof(%s) * %s);" [a; t; t; n] =
  fmt "%s = (%s%s*) zcm_malloc(sizeof(%s%s) * %s);" [a; t; []; t; []; n].
Proof. vm_compute. reflexivity. Qed.

Lemma inner_malloc zm n :
  emit (2 + (length (dimensions zm) - 1)) "%s = (%s*) zcm_malloc(sizeof(%s) * %s);"
    [makeAccessor zm n (length (dimensions zm) - 1); mapTypeName (fullname (mtype zm)); mapTypeName (fullname (mtype zm));
     makeArraySize zm n (length (dimensions zm) - 1)] =
  emit_malloc zm n (length (dimensions zm) - 1).
Proof. unfold emit_malloc, emit. cbv zeta. by rewrite Nat.sub_diag, fmt_no_stars. Qed.

Lemma print_member_loops o mallocs zm body :
  print o (member_loops mallocs zm body) =
  emitCArrayLoopsStart zm (str "p") mallocs ++ print o body ++ emitCArrayLoopsEnd zm (str "p") false.
Proof.
  unfold member_loops, emitCArrayLoopsStart, emitCArrayLoopsEnd. destruct (bool_decide _) eqn:E; bool_prop.
  - by rewrite app_nil_r.
  - rewrite (print_loops o mallocs zm (length (dimensions zm))).
    2: { unfold inner. destruct (dimensions zm); [done|]. cbn [length]. lia. }
    unfold loops_before, loops_behind, inner. cbv zeta. rewrite inner_malloc. rewrite app_nil_r, <- app_assoc. done.
Qed.

Lemma print_bit_border o mode num zm :
  let '(border, mode', num') := bit_border mode num zm in
  emit_bit_border mode num zm = (print o border, mode', num').
Proof.
  unfold bit_border, emit_bit_border, blank. destruct mode, (is_bits zm); cbn [negb andb print]; by rewrite <- ?app_assoc.
Qed.

Lemma print_bit_end o mode num : emit_bit_end mode num = print o (bit_end mode num).
Proof. by destruct mode. Qed.

Lemma print_encode_body o ms : forall mode num, emit_encode_members o ms mode num = print o (encode_body ms mode num).
Proof.
  induction ms as [|zm ms IH]; intros mode num; cbn [emit_encode_members encode_body]; [apply print_bit_end|].
  pose proof (print_bit_border o mode num zm) as B. destruct (bit_border mode num zm) as [[border mode'] num'].
  rewrite B. cbn [print]. rewrite print_member_loops, IH. unfold blank. destruct mode'; cbn [print negb]; by rewrite <- !app_assoc.
Qed.

Lemma print_decode_body o ms : forall mode num, emit_decode_members o ms mode num = print o (decode_body ms mode num).
Proof.
  induction ms as [|zm ms IH]; intros mode num; cbn [emit_decode_members decode_body]; [apply print_bit_end|].
  pose proof (print_bit_border o mode num zm) as B. destruct (bit_border mode num zm) as [[border mode'] num'].
  rewrite B. cbn [print]. rewrite print_member_loops, IH. unfold blank. destruct mode'; cbn [print negb]; by rewrite <- !app_assoc.
Qed.

Lemma print_size_body o ms : forall mode, emit_size_members ms mode = print o (size_body ms mode).
Proof.
  induction ms as [|zm ms IH]; intros mode; cbn [emit_size_members size_body]; [by destruct mode|].
  unfold blank. destruct mode, (is_bits zm); cbn [negb andb print];
    rewrite print_member_loops, IH; cbn [print app]; by rewrite <- ?app_assoc.
Qed.

(** C8: the lines that the emitter writes into the loops over the elements of the
    three functions of a struct are the text of the programs [encode_body],
    [decode_body] and [size_body], for all members, dimensions and options. *)
Theorem generated_text (o : copts) (ms : list ZCMMember) :
  emit_encode_members o ms false 0 = print o (encode_body ms false 0) /\
  emit_decode_members o ms false 0 = print o (decode_body ms false 0) /\
  emit_size_members ms false = print o (size_body ms false).
Proof. split; [|split]; [apply print_encode_body|apply print_decode_body|apply print_size_body]. Qed.
