(* ===== verification/CWire.v ===== *)
(** * The wire format of generated types

    The reference for the generated code: which bits a message consists of.  The
    members follow one another; bit fields are packed, the most significant bit
    first, and a run of bit fields is filled up with zeros to whole bytes.
    [typed] says which values are messages of a type. *)
From S2P Require Import Prelude Bytes CoreTypes Bitfield Transport Url Gen CNum EmitC CCode.
Local Open Scope Z_scope.

(** ** Bits *)

Notation blen bs := (Z.of_nat (length bs)).

(** The [n] low bits of a number, the most significant one first. *)
Definition field_bits (n z : Z) : list bool := (fun j => Z.testbit z (n - 1 - Z.of_nat j)) <$> seq 0 (Z.to_nat n).
Definition bytes_bits (l : list byte) : list bool := concat (field_bits 8 <$> l).

(** A run of bits filled up to whole bytes. *)
Definition pad (bs : list bool) : list bool := bs ++ replicate (Z.to_nat (up8 (blen bs) - blen bs)) false.

(** ** Messages *)

Section Wire.
Context (env : list ZCMStruct) (le : bool) (sizeof : cstr -> Z).

Definition word_codec : Codec := if le then int32_le_codec else int32_codec.

Definition prim_bytes (ty : cstr) (v : val) : list byte :=
  match v with
  | VNum z => match codec_of le ty with Some K => enc K z | None => [] end
  | VStr s => string_bytes word_codec int8_codec s
  | _ => []
  end.

(** [call] gives the bits of a struct. *)
Section Members.
Context (call : cstr -> val -> list bool).

Definition elem_bits (zm : ZCMMember) (v : val) : list bool :=
  if is_bits zm then match v with VNum z => field_bits (numbits (mtype zm)) z | _ => [] end
  else if isPrimitiveType (fullname (mtype zm)) then bytes_bits (prim_bytes (fullname (mtype zm)) v)
  else call (fullname (mtype zm)) v.

Fixpoint dims_bits (f : val -> list bool) (ds : list ZCMDimension) (v : val) : list bool :=
  match ds with
  | [] => f v
  | _ :: ds => match v with VArr l => concat (dims_bits f ds <$> l) | _ => [] end
  end.

(** [inBitMode]: the member in front was a bit field. *)
Fixpoint members_bits (ms : list ZCMMember) (fs : list val) (inBitMode : bool) (acc : list bool) : list bool :=
  match ms, fs with
  | zm :: ms, v :: fs =>
      let acc := if inBitMode && negb (is_bits zm) then pad acc else acc in
      members_bits ms fs (is_bits zm) (acc ++ dims_bits (elem_bits zm) (dimensions zm) v)
  | _, _ => if inBitMode then pad acc else acc
  end.
End Members.

(** The bits of a struct; [fuel] bounds the nesting. *)
Fixpoint struct_bits (fuel : nat) (name : cstr) (v : val) : list bool :=
  match fuel with
  | O => []
  | S fuel =>
      match find_struct env name, v with
      | Some zs, VStruct fs => members_bits (struct_bits fuel) (members zs) fs false []
      | _, _ => []
      end
  end.

(** ** Types *)

(** An array has the size that its dimension says and less than 4 GB. *)
Definition fits (zm : ZCMMember) (stars : nat) (n : Z) : Prop := n < 2 ^ 31 /\ sizeof (elem_type zm stars) * n < 2 ^ 32.

Fixpoint has_dims (size : ZCMDimension -> option Z) (lim : nat -> Z -> Prop) (P : val -> Prop) (ds : list ZCMDimension) (v : val) : Prop :=
  match ds with
  | [] => P v
  | d :: ds => exists l, v = VArr l /\ size d = Some (blen l) /\ lim (length ds) (blen l) /\ Forall (has_dims size lim P ds) l
  end.

(** A bit field holds what its bits can express; a string has no zero inside. *)
Definition elem_ok (call : cstr -> val -> Prop) (zm : ZCMMember) (v : val) : Prop :=
  if is_bits zm then exists z, v = VNum z /\ truncated (signExtend (mtype zm)) (numbits (mtype zm)) z = z
  else if isPrimitiveType (fullname (mtype zm)) then
    if bool_decide (fullname (mtype zm) = str "string") then exists s, v = VStr s /\ Forall (in_s 8) s /\ 0 ∉ s
    else exists z K, v = VNum z /\ codec_of le (fullname (mtype zm)) = Some K /\ val_ok K z
  else call (fullname (mtype zm)) v.

(** The functions of a type exist. *)
Definition known (fuel : nat) (name : cstr) : Prop :=
  if isPrimitiveType name then True else match fuel with O => False | S _ => is_Some (find_struct env name) end.

Fixpoint typed (fuel : nat) (name : cstr) (v : val) : Prop :=
  match fuel with
  | O => False
  | S fuel => exists zs fs, find_struct env name = Some zs /\ v = VStruct fs /\
      Forall2 (fun zm x => known fuel (fullname (mtype zm)) /\
                           has_dims (dim_size (members zs) fs) (fits zm) (elem_ok (typed fuel) zm) (dimensions zm) x) (members zs) fs
  end.
End Wire.

(** ** Layout *)

(** What the generated code needs of a struct: every member is found by its name,
    variable dimensions refer to integers in front, bit fields fit their type. *)
Record layout_ok (ms : list ZCMMember) : Prop := mkLayoutOk {
  lo_index : forall k zm, ms !! k = Some zm -> member_index ms (membername zm) = Some k;
  lo_dims : forall k zm d, ms !! k = Some zm -> d ∈ dimensions zm -> mode d = ZCM_VAR ->
    exists j m, member_index ms (dsize d) = Some j /\ (j < k)%nat /\ ms !! j = Some m /\ dimensions m = [] /\
      isArrayDimType (fullname (mtype m)) = true;
  lo_bits : forall k zm, ms !! k = Some zm -> is_bits zm = true ->
    exists t, itype_of (fullname (mtype zm)) = Some t /\ field_ok t (signExtend (mtype zm)) (numbits (mtype zm))
}.

(** ** Bits in a buffer *)

Definition holds (buf : list byte) (i : Z) (bs : list bool) : Prop :=
  forall j b, bs !! j = Some b -> bit buf (i + Z.of_nat j) = b.

(** [buf'] is [buf] with bits from [i] on; nothing else has changed outside of the
    last byte. *)
Definition writes (buf buf' : list byte) (i : Z) (bs : list bool) : Prop :=
  bytes_ok buf' /\ length buf' = length buf /\
  (forall j, 0 <= j < i \/ up8 (i + blen bs) <= j -> bit buf' j = bit buf j) /\ holds buf' i bs.

Lemma holds_nil buf i : holds buf i [].
Proof. by intros j b H. Qed.

Lemma holds_app buf i a b : holds buf i (a ++ b) <-> holds buf i a /\ holds buf (i + blen a) b.
Proof.
  unfold holds. split.
  - intros H. split; intros j x Hj.
    + apply H. by apply lookup_app_l_Some.
    + replace (i + blen a + Z.of_nat j) with (i + Z.of_nat (length a + j)) by lia. apply H.
      rewrite lookup_app_r by lia. by replace (length a + j - length a)%nat with j by lia.
  - intros [Ha Hb] j x Hj. apply lookup_app_Some in Hj as [Hj|[Hl Hj]]; [by apply Ha|].
    replace (i + Z.of_nat j) with (i + blen a + Z.of_nat (j - length a)) by lia. by apply Hb.
Qed.

Lemma holds_same buf buf' i bs : (forall j, i <= j < i + blen bs -> bit buf' j = bit buf j) -> holds buf i bs -> holds buf' i bs.
Proof. intros E H j b Hj. rewrite E; [by apply H|]. apply lookup_lt_Some in Hj. lia. Qed.

Lemma writes_refl buf i : bytes_ok buf -> 0 <= i -> writes buf buf i [].
Proof. intros B Hi. split; [done|]. split; [done|]. split; [done|]. apply holds_nil. Qed.

Lemma writes_app buf buf1 buf2 i a b : 0 <= i -> writes buf buf1 i a -> writes buf1 buf2 (i + blen a) b -> writes buf buf2 i (a ++ b).
Proof.
  intros Hi (B1&L1&F1&H1) (B2&L2&F2&H2). split; [done|]. split; [congruence|]. rewrite length_app, Nat2Z.inj_add, Z.add_assoc. split.
  - intros j Hj. pose proof (up8_mono (i + blen a) (i + blen a + blen b) ltac:(lia)). rewrite F2, F1 by lia. done.
  - apply holds_app. split; [|done]. eapply holds_same; [|exact H1]. intros j Hj. apply F2. lia.
Qed.

Lemma length_field_bits n z : 0 <= n -> blen (field_bits n z) = n.
Proof. intros. unfold field_bits. rewrite length_fmap, length_seq. lia. Qed.

Lemma lookup_field_bits n z j : (Z.of_nat j < n) -> field_bits n z !! j = Some (Z.testbit z (n - 1 - Z.of_nat j)).
Proof. intros. unfold field_bits. rewrite list_lookup_fmap, lookup_seq_lt by lia. done. Qed.

Lemma holds_field buf i n z : 0 <= n -> holds buf i (field_bits n z) <-> (forall j, 0 <= j < n -> bit buf (i + j) = Z.testbit z (n - 1 - j)).
Proof.
  intros Hn. unfold holds. split.
  - intros H j Hj. specialize (H (Z.to_nat j)). rewrite lookup_field_bits, Z2Nat.id in H by lia. by apply H.
  - intros H j b Hj. pose proof (lookup_lt_Some _ _ _ Hj) as L. pose proof (length_field_bits n z Hn).
    rewrite lookup_field_bits in Hj by lia. injection Hj as <-. apply H. lia.
Qed.

Lemma bytes_bits_cons b l : bytes_bits (b :: l) = field_bits 8 b ++ bytes_bits l.
Proof. done. Qed.

Lemma bytes_bits_app l1 l2 : bytes_bits (l1 ++ l2) = bytes_bits l1 ++ bytes_bits l2.
Proof. unfold bytes_bits. by rewrite fmap_app, concat_app. Qed.

Lemma length_bytes_bits l : blen (bytes_bits l) = 8 * blen l.
Proof. induction l as [|b l IH]; [done|]. rewrite bytes_bits_cons, length_app. pose proof (length_field_bits 8 b). cbn [length]. lia. Qed.

Lemma bytes_bits_concat {A} (f : A -> list byte) l : bytes_bits (concat (f <$> l)) = concat ((fun x => bytes_bits (f x)) <$> l).
Proof. induction l as [|x l IH]; [done|]. cbn [fmap list_fmap concat]. by rewrite bytes_bits_app, IH. Qed.

(** *** Bytes of a buffer *)

Lemma byte_ext a b : 0 <= a < 256 -> 0 <= b < 256 -> (forall c, 0 <= c < 8 -> Z.testbit a c = Z.testbit b c) -> a = b.
Proof.
  intros Ha Hb H. apply Z.bits_inj'. intros c Hc. destruct (decide (c < 8)); [by apply H|].
  by rewrite !testbit_byte by lia.
Qed.

(** A buffer with the bits of some bytes has these bytes. *)
Lemma holds_slice buf l : bytes_ok buf -> bytes_ok l -> forall k, 0 <= k -> k + blen l <= blen buf ->
  holds buf (8 * k) (bytes_bits l) -> slice buf (Z.to_nat k) (length l) = l.
Proof.
  intros B. induction l as [|b l IH]; intros Bl k Hk Hl H; [by unfold slice|].
  apply Forall_cons in Bl as [Hb Bl]. rewrite bytes_bits_cons, holds_app in H. destruct H as [H1 H2].
  rewrite length_field_bits in H2 by lia. cbn [length] in *. change (S (length l)) with (1 + length l)%nat. rewrite slice_app.
  replace (Z.to_nat k + 1)%nat with (Z.to_nat (k + 1)) by lia. rewrite IH; [|done|lia|lia|by replace (8 * (k + 1)) with (8 * k + 8) by lia].
  change (b :: l) with ([b] ++ l). f_equal. destruct (lookup_lt_is_Some_2 buf (Z.to_nat k)) as [x Hx]; [lia|].
  unfold slice. erewrite drop_S by done. cbn [take]. f_equal. assert (byte_at buf k = x) as E by (unfold byte_at; by rewrite Hx).
  apply byte_ext; [rewrite <- E; by apply byte_at_range|done|]. intros c Hc. rewrite holds_field in H1 by lia.
  specialize (H1 (7 - c) ltac:(lia)). rewrite bit_at, E in H1 by lia.
  replace (7 - (7 - c)) with c in H1 by lia. by replace (8 - 1 - (7 - c)) with c in H1 by lia.
Qed.

Lemma slice_holds buf l : forall k, 0 <= k -> slice buf (Z.to_nat k) (length l) = l -> holds buf (8 * k) (bytes_bits l).
Proof.
  induction l as [|b l IH]; intros k Hk H; [apply holds_nil|].
  rewrite bytes_bits_cons, holds_app, length_field_bits by lia. cbn [length] in H. change (S (length l)) with (1 + length l)%nat in H.
  rewrite slice_app in H. change (b :: l) with ([b] ++ l) in H. assert (Z.to_nat k < length buf)%nat as Lk.
  { destruct (decide (Z.to_nat k < length buf)%nat); [done|]. unfold slice in H. rewrite !drop_ge in H by lia. by rewrite !take_nil in H. }
  destruct (lookup_lt_is_Some_2 buf _ Lk) as [x Hx]. apply app_inj_1 in H as [H1 H2]; [|rewrite length_slice; simpl; lia]. split.
  - unfold slice in H1. erewrite drop_S in H1 by done. injection H1 as ->. apply holds_field; [lia|]. intros j Hj.
    rewrite bit_at by lia. unfold byte_at. by rewrite Hx.
  - replace (8 * k + 8) with (8 * (k + 1)) by lia. apply IH; [lia|]. by replace (Z.to_nat (k + 1)) with (Z.to_nat k + 1)%nat by lia.
Qed.

Lemma writes_bytes buf k l : bytes_ok buf -> bytes_ok l -> 0 <= k -> k + blen l <= blen buf ->
  writes buf (write_at buf (Z.to_nat k) l) (8 * k) (bytes_bits l).
Proof.
  intros B Bl Hk Hl. split; [|split; [apply length_write_at; lia|split]].
  - unfold write_at. apply Forall_app. split; [by apply Forall_take|]. apply Forall_app. split; [done|by apply Forall_drop].
  - intros j Hj. rewrite length_bytes_bits in Hj. pose proof (up8_spec (8 * k + 8 * blen l)) as [U _].
    unfold bit, byte_at. rewrite lookup_write_at_ne; [done|lia|]. pose proof (Z.div_mod j 8). pose proof (Z.mod_pos_bound j 8).
    destruct Hj; [left|right]; lia.
  - apply slice_holds; [done|]. apply slice_write_at. lia.
Qed.

(** *** Bit fields of a buffer *)

Lemma holds_array_bits buf n vs : 0 <= n -> forall i, holds buf i (concat (field_bits n <$> vs)) <-> array_bits buf i n vs.
Proof.
  intros Hn. induction vs as [|v vs IH]; intros i; cbn [fmap list_fmap concat array_bits]; [split; [done|intros _; apply holds_nil]|].
  by rewrite holds_app, length_field_bits, holds_field, IH.
Qed.

Lemma length_fields n vs : 0 <= n -> blen (concat (field_bits n <$> vs)) = n * blen vs.
Proof.
  intros Hn. induction vs as [|v vs IH]; cbn [fmap list_fmap concat length]; [lia|].
  rewrite length_app. pose proof (length_field_bits n v Hn). lia.
Qed.

(** *** Padding *)

Lemma length_pad bs : blen (pad bs) = up8 (blen bs).
Proof. unfold pad. rewrite length_app, length_replicate. pose proof (up8_spec (blen bs)). lia. Qed.

Lemma up8_aligned i n : i mod 8 = 0 -> up8 (i + n) = i + up8 n.
Proof.
  intros Hi. unfold up8. pose proof (Z.div_mod i 8 ltac:(lia)) as D. rewrite Hi, Z.add_0_r in D. rewrite D.
  replace (8 * (i / 8) + n + 7) with (n + 7 + (i / 8) * 8) by lia. rewrite Z.div_add by lia. lia.
Qed.

Lemma up8_up8 n : up8 (up8 n) = up8 n.
Proof. pose proof (up8_spec n) as [_ H]. pose proof (up8_aligned (up8 n) 0 H) as E. rewrite Z.add_0_r in E. rewrite E. change (up8 0) with 0. lia. Qed.

Lemma up8_space b m : b <= 8 * m -> up8 b <= 8 * m.
Proof.
  intros H. apply up8_mono in H. replace (up8 (8 * m)) with (8 * m) in H; [done|].
  rewrite <- (Z.add_0_r (8 * m)) at 2. rewrite up8_aligned by (rewrite Z.mul_comm; apply Z.mod_mul; lia). change (up8 0) with 0. lia.
Qed.

(** The bits behind a run are clear up to the end of the byte. *)
Lemma writes_pad buf buf' i bs : i mod 8 = 0 -> (forall j, i + blen bs <= j < up8 (i + blen bs) -> bit buf' j = false) ->
  writes buf buf' i bs -> writes buf buf' i (pad bs).
Proof.
  intros Hi Hz (B&L&F&H). split; [done|]. split; [done|]. rewrite length_pad. split.
  - intros j Hj. apply F. rewrite !up8_aligned, up8_up8 in * by done. done.
  - unfold pad. apply holds_app. split; [done|]. intros j b Hj. apply lookup_replicate in Hj as [-> Hj].
    apply Hz. rewrite up8_aligned by done. lia.
Qed.

Lemma pad_app a b : blen a mod 8 = 0 -> pad (a ++ b) = a ++ pad b.
Proof.
  intros Ha. unfold pad. rewrite <- app_assoc. do 2 f_equal. rewrite length_app, Nat2Z.inj_add, up8_aligned by done. f_equal. lia.
Qed.

(** A struct starts on a byte: its bits do not depend on what is in front. *)
Lemma members_bits_app le call ms : forall fs mode acc0 acc, blen acc0 mod 8 = 0 ->
  members_bits le call ms fs mode (acc0 ++ acc) = acc0 ++ members_bits le call ms fs mode acc.
Proof.
  induction ms as [|zm ms IH]; intros [|v fs] mode acc0 acc H; cbn [members_bits]; try (destruct mode; [by apply pad_app|done]).
  destruct (mode && negb (is_bits zm)); [rewrite pad_app by done|]; by rewrite <- app_assoc, IH.
Qed.

Lemma members_bits_prefix le call ms : forall fs mode acc, exists tail, members_bits le call ms fs mode acc = acc ++ tail.
Proof.
  induction ms as [|zm ms IH]; intros [|v fs] mode acc; cbn [members_bits];
    try (destruct mode; [by eexists|exists []; by rewrite app_nil_r]).
  destruct (IH fs (is_bits zm) ((if mode && negb (is_bits zm) then pad acc else acc) ++ dims_bits (elem_bits le call zm) (dimensions zm) v)) as [tail ->].
  destruct (mode && negb (is_bits zm)); [unfold pad|]; rewrite <- ?app_assoc; by eexists.
Qed.

Lemma members_bits_mono le call ms fs mode acc : blen acc <= blen (members_bits le call ms fs mode acc).
Proof. destruct (members_bits_prefix le call ms fs mode acc) as [tail ->]. rewrite length_app. lia. Qed.

(** ** Parts of a value *)

Lemma get_at_app x idx idx' : get_at x (idx ++ idx') = match get_at x idx with Some y => get_at y idx' | None => None end.
Proof.
  revert x. induction idx as [|i idx IH]; intros x; cbn [app get_at]; [done|].
  destruct (arr_of x) as [l|]; [|done]. destruct (l !! i); [apply IH|done].
Qed.

Lemma set_at_app x idx idx' y : set_at x (idx ++ idx') y =
  match get_at x idx with Some z => match set_at z idx' y with Some z' => set_at x idx z' | None => None end | None => None end.
Proof.
  revert x. induction idx as [|i idx IH]; intros x; cbn [app get_at set_at]; [by destruct (set_at x idx' y)|].
  destruct (arr_of x) as [l|]; [|done]. destruct (l !! i) as [z|]; [|done]. rewrite IH.
  destruct (get_at z idx) as [w|]; [|done]. by destruct (set_at w idx' y).
Qed.

Lemma set_at_some x idx z y : get_at x idx = Some z -> exists x', set_at x idx y = Some x'.
Proof.
  revert x. induction idx as [|i idx IH]; intros x H; cbn [get_at set_at] in *; [by eexists|].
  destruct (arr_of x) as [l|]; [|done]. destruct (l !! i) as [w|]; [|done]. destruct (IH w H) as [w' ->]. by eexists.
Qed.

Lemma get_set_at x idx y x' : set_at x idx y = Some x' -> get_at x' idx = Some y.
Proof.
  revert x x'. induction idx as [|i idx IH]; intros x x' H; cbn [get_at set_at] in *; [congruence|].
  destruct (arr_of x) as [l|]; [|done]. destruct (l !! i) as [w|] eqn:El; [|done]. destruct (set_at w idx y) as [w'|] eqn:Ew; [|done].
  injection H as <-. cbn [arr_of]. rewrite list_lookup_insert_eq by (by eapply lookup_lt_Some). by eapply IH.
Qed.

Lemma set_set_at x idx y x' z : set_at x idx y = Some x' -> set_at x' idx z = set_at x idx z.
Proof.
  revert x x'. induction idx as [|i idx IH]; intros x x' H; cbn [set_at] in *; [done|].
  destruct (arr_of x) as [l|]; [|done]. destruct (l !! i) as [w|] eqn:El; [|done]. destruct (set_at w idx y) as [w'|] eqn:Ew; [|done].
  injection H as <-. cbn [arr_of]. rewrite list_lookup_insert_eq by (by eapply lookup_lt_Some).
  rewrite (IH w w' Ew). destruct (set_at w idx z); [|done]. by rewrite list_insert_insert_eq.
Qed.

Lemma set_get_at x idx y : get_at x idx = Some y -> set_at x idx y = Some x.
Proof.
  revert x. induction idx as [|i idx IH]; intros x H; cbn [get_at set_at] in *; [congruence|].
  destruct x as [| | |l|]; cbn [arr_of] in *; try done. destruct (l !! i) as [w|] eqn:El; [|done]. rewrite (IH w H). by rewrite list_insert_id.
Qed.
