(* ===== verification/CEnc.v ===== *)
(** * The generated encoders write the wire format *)
From S2P Require Import Prelude Bytes CoreTypes Bitfield Transport Url Gen CNum EmitC CCode CWire.
Local Open Scope Z_scope.

(** ** Loops *)

Lemma for_loop_inv {S R} (Inv : nat -> S -> Prop) (f : nat -> S -> option (S + R)) n : forall a s,
  Inv a s -> (forall i s, (a <= i < a + n)%nat -> Inv i s -> exists s', f i s = Some (inl s') /\ Inv (Datatypes.S i) s') ->
  exists s', for_loop n a f s = Some (inl s') /\ Inv (a + n)%nat s'.
Proof.
  induction n as [|n IH]; intros a s H0 Hs; cbn [for_loop]; [exists s; by rewrite Nat.add_0_r|].
  destruct (Hs a s) as (s1&->&H1); [lia|done|]. destruct (IH (Datatypes.S a) s1 H1) as (s2&->&H2); [intros; apply Hs; [lia|done]|].
  exists s2. split; [done|]. by replace (a + Datatypes.S n)%nat with (Datatypes.S a + n)%nat by lia.
Qed.

(** ** What a function that encodes an array promises *)

Section EncFun.
Context (ok : val -> Prop) (bits : val -> list bool).

Definition all_bits (vs : list val) : list bool := concat (bits <$> vs).

Definition enc_fun_ok (f : list byte -> Z -> Z -> list val -> Z -> option (list byte * Z)) : Prop :=
  forall buf off max vs, bytes_ok buf -> 0 <= off -> off + max <= blen buf -> blen buf < 2 ^ 28 ->
    Forall ok vs -> blen vs < 2 ^ 31 -> blen (all_bits vs) <= 8 * max ->
    exists buf' m, f buf off max vs (blen vs) = Some (buf', m) /\ blen (all_bits vs) = 8 * m /\ writes buf buf' (8 * off) (all_bits vs).

Lemma all_bits_cons v vs : all_bits (v :: vs) = bits v ++ all_bits vs.
Proof. done. Qed.
Lemma all_bits_app vs vs' : all_bits (vs ++ vs') = all_bits vs ++ all_bits vs'.
Proof. unfold all_bits. by rewrite fmap_app, concat_app. Qed.
Lemma all_bits_take vs n : blen (all_bits (take n vs)) <= blen (all_bits vs).
Proof. rewrite <- (take_drop n vs) at 2. rewrite all_bits_app, length_app. lia. Qed.
Lemma all_bits_take_S vs n v : vs !! n = Some v -> all_bits (take (S n) vs) = all_bits (take n vs) ++ bits v.
Proof. intros H. erewrite take_S_r by done. rewrite all_bits_app. f_equal. unfold all_bits. cbn [fmap list_fmap concat]. apply app_nil_r. Qed.
End EncFun.

Lemma take_vals_all vs : take_vals (blen vs) vs = Some vs.
Proof. unfold take_vals. rewrite (proj2 (Z.leb_le _ _)) by lia. by rewrite Nat2Z.id, firstn_all. Qed.

(** ** Primitive types *)

Lemma codec_total le ty : isPrimitiveType ty = true -> ty <> str "string" -> is_Some (codec_of le ty).
Proof.
  intros H Hs. unfold isPrimitiveType, inArray, primitiveTypes in H. bool_prop. cbn [fmap list_fmap] in H.
  repeat match type of H with _ ∈ _ :: _ => apply elem_of_cons in H as [->|H]; [first [done|by destruct le; apply (bool_decide_unpack _)]|] end.
  by apply elem_of_nil in H.
Qed.

Lemma string_bytes_ok K32 K8 s : bytes_ok (string_bytes K32 K8 s).
Proof. unfold string_bytes. apply Forall_app. split; [apply enc_bytes|]. apply Forall_concat, Forall_fmap, Forall_true. intros v. apply enc_bytes. Qed.

Lemma encoding_ok K zs : bytes_ok (encoding K zs).
Proof. apply Forall_concat, Forall_fmap, Forall_true. intros v. apply enc_bytes. Qed.

Section Prim.
Context (le : bool) (zm : ZCMMember).
Hypothesis no_bits : is_bits zm = false.
Hypothesis prim : isPrimitiveType (fullname (mtype zm)) = true.
Context (tcall : cstr -> val -> Prop) (bcall : cstr -> val -> list bool).
Let ty := fullname (mtype zm).

Lemma prim_strings vs : ty = str "string" -> Forall (elem_ok le tcall zm) vs ->
  exists ss, vs = VStr <$> ss /\ Forall (fun s => Forall (in_s 8) s /\ 0 ∉ s) ss /\ mapM str_of vs = Some ss /\
    all_bits (elem_bits le bcall zm) vs = bytes_bits (strings_bytes (word_codec le) int8_codec ss).
Proof.
  intros Hty H. induction H as [|v vs Hv H IH]; [by exists []|]. destruct IH as (ss&->&Fs&Em&Eb).
  unfold elem_ok in Hv. rewrite no_bits, prim in Hv. fold ty in Hv. rewrite Hty, bool_decide_true in Hv by done.
  destruct Hv as (s&->&Hs). exists (s :: ss). split; [done|]. split; [by constructor|]. cbn [mapM str_of]. unfold mapM in *. rewrite Em. split; [done|].
  rewrite all_bits_cons, Eb, strings_bytes_cons, bytes_bits_app. f_equal. unfold elem_bits. by rewrite no_bits, prim.
Qed.

Lemma prim_numbers vs K : ty <> str "string" -> codec_of le ty = Some K -> Forall (elem_ok le tcall zm) vs ->
  exists zs, vs = VNum <$> zs /\ Forall (val_ok K) zs /\ mapM num_of vs = Some zs /\
    all_bits (elem_bits le bcall zm) vs = bytes_bits (encoding K zs).
Proof.
  intros Hty HK H. induction H as [|v vs Hv H IH]; [by exists []|]. destruct IH as (zs&->&Fs&Em&Eb).
  unfold elem_ok in Hv. rewrite no_bits, prim in Hv. fold ty in Hv. rewrite bool_decide_false in Hv by done.
  destruct Hv as (z&K'&->&HK'&Hz). rewrite HK in HK'. injection HK' as <-. exists (z :: zs). split; [done|]. split; [by constructor|].
  unfold mapM in *. cbn [fmap list_fmap] in *. rewrite Em. split; [done|].
  rewrite all_bits_cons, Eb, encoding_cons, bytes_bits_app. f_equal. unfold elem_bits. rewrite no_bits, prim. unfold prim_bytes. fold ty. by rewrite HK.
Qed.

Lemma word_codec_size : size (word_codec le) = 4%nat.
Proof. by destruct le. Qed.

(** The encoders of the primitive types write the format of the elements. *)
Lemma prim_encode_ok : enc_fun_ok (elem_ok le tcall zm) (elem_bits le bcall zm) (prim_encode le ty).
Proof.
  intros buf off max vs B Ho Hb Hl Hv Hn Hm. unfold prim_encode. rewrite take_vals_all.
  destruct (bool_decide (ty = str "string")) eqn:E; bool_prop.
  - destruct (prim_strings vs E Hv) as (ss&->&Fs&->&Eb). rewrite Eb in *. rewrite length_bytes_bits in Hm.
    exists (write_at buf (Z.to_nat off) (strings_bytes (word_codec le) int8_codec ss)), (blen (strings_bytes (word_codec le) int8_codec ss)).
    split; [|split; [apply length_bytes_bits|]].
    + pose proof (string_encode_loop_ok (word_codec le) int8_codec word_codec_size eq_refl ss buf off max 0) as H.
      rewrite !Z.add_0_l, Z.add_0_r in H. rewrite <- H by lia. by destruct le.
    + apply writes_bytes; [done| |done|lia]. apply Forall_concat, Forall_fmap, Forall_true. intros s. apply string_bytes_ok.
  - destruct (codec_total le ty prim E) as [K HK]. rewrite HK. destruct (prim_numbers vs K E HK Hv) as (zs&->&Fs&->&Eb).
    rewrite Eb in *. rewrite length_bytes_bits, length_encoding in Hm. rewrite length_fmap.
    exists (write_at buf (Z.to_nat off) (encoding K zs)), (Z.of_nat (size K * length zs)).
    split; [apply encode_array_ok; lia|]. split; [by rewrite length_bytes_bits, length_encoding|].
    apply writes_bytes; [done|apply encoding_ok|done|rewrite length_encoding; lia].
Qed.
End Prim.

(** ** Bit fields *)

Lemma bit_numbers le zm tcall bcall vs : is_bits zm = true -> Forall (elem_ok le tcall zm) vs ->
  exists zs, vs = VNum <$> zs /\ mapM num_of vs = Some zs /\
    Forall (fun z => truncated (signExtend (mtype zm)) (numbits (mtype zm)) z = z) zs /\
    all_bits (elem_bits le bcall zm) vs = concat (field_bits (numbits (mtype zm)) <$> zs).
Proof.
  intros Hb H. induction H as [|v vs Hv H IH]; [by exists []|]. destruct IH as (zs&->&Em&Fs&Eb).
  unfold elem_ok in Hv. rewrite Hb in Hv. destruct Hv as (z&->&Hz). exists (z :: zs). split; [done|].
  unfold mapM in *. cbn [fmap list_fmap] in *. rewrite Em. split; [done|]. split; [by constructor|].
  rewrite all_bits_cons, Eb. cbn [fmap list_fmap concat]. f_equal. unfold elem_bits. by rewrite Hb.
Qed.

(** ** Programs that read a message *)

(** The encoder and the function for the size go through the members in the same
    way: [exec] is the meaning of the one or the other, [at_ mode acc] says that the
    bits [acc] have been seen. *)
Section Read.
Context (ms : list ZCMMember) (le : bool) (sizeof : cstr -> Z) (tcall : cstr -> val -> Prop) (bcall : cstr -> val -> list bool) (fs : list val).
Hypothesis L : layout_ok ms.
Context {St R : Type} (exec : cstmt -> list nat -> St -> option (St + R)) (at_ : bool -> list bool -> St -> Prop) (limit : Z).
Hypothesis exec_for : forall zm d body idx st, exec (CFor zm d body) idx st =
  (n <- loop_count ms fs zm d ;; for_loop n 0 (fun a st => exec body (idx ++ [a]) st) st).

(** A step over [bs]. *)
Definition read_step (mode : bool) (s : cstmt) (idx : list nat) (bs : list bool) : Prop :=
  forall acc st, at_ mode acc st -> blen (acc ++ bs) <= limit ->
    exists st', exec s idx st = Some (inl st') /\ at_ mode (acc ++ bs) st'.

(** The elements in front of which the loops stand. *)
Definition inner_ok (zm : ZCMMember) (idx : list nat) (vs : list val) : Prop :=
  inner_vals ms fs zm idx = Some vs /\ array_size ms fs zm (inner zm) = Some (blen vs) /\ blen vs < 2 ^ 31 /\
  Forall (elem_ok le tcall zm) vs.

(** The loops over the dimensions in front of the innermost one. *)
Lemma read_loops mode zm x body k : ms !! k = Some zm -> fs !! k = Some x -> dimensions zm <> [] ->
  (forall idx vs, inner_ok zm idx vs -> read_step mode body idx (all_bits (elem_bits le bcall zm) vs)) ->
  forall n d idx v, (d + n + 1)%nat = length (dimensions zm) -> get_at x idx = Some v ->
    has_dims (dim_size ms fs) (fits sizeof zm) (elem_ok le tcall zm) (drop d (dimensions zm)) v ->
    read_step mode (loops false zm d n body) idx (dims_bits (elem_bits le bcall zm) (drop d (dimensions zm)) v).
Proof.
  intros Hk Hx Hd HB. induction n as [|n IH]; intros d idx v Hn Hg Hv; cbn [loops];
    (destruct (lookup_lt_is_Some_2 (dimensions zm) d) as [zd Hzd]; [lia|]); erewrite drop_S in Hv |- * by done;
    destruct Hv as (l&->&Hs&[Hl _]&Fl); cbn [dims_bits].
  - rewrite drop_ge in Fl |- * by lia. apply HB. repeat split; [|..|done|done].
    + unfold inner_vals. rewrite (lo_index ms L k zm Hk), Hx, bool_decide_false, Hg by done. done.
    + unfold array_size, inner. rewrite bool_decide_false by done. replace (length (dimensions zm) - 1)%nat with d by lia. by rewrite Hzd.
  - intros acc st Ha Hm. rewrite exec_for. fold (all_bits (dims_bits (elem_bits le bcall zm) (drop (S d) (dimensions zm))) l) in Hm |- *.
    set (bits := dims_bits (elem_bits le bcall zm) (drop (S d) (dimensions zm))) in *.
    assert (loop_count ms fs zm d = Some (length l)) as ->.
    { unfold loop_count, array_size. rewrite bool_decide_false, Hzd, Hs, (proj2 (Z.ltb_lt _ _)) by done. by rewrite Nat2Z.id. }
    rewrite length_app in Hm. edestruct (for_loop_inv (R := R) (fun a st => at_ mode (acc ++ all_bits bits (take a l)) st)) as (st'&E&H').
    3: { exists st'. split; [exact E|]. cbn beta in H'. by rewrite Nat.add_0_l, firstn_all in H'. }
    { cbn beta. by rewrite app_nil_r. }
    intros i s Hi Hinv. destruct (lookup_lt_is_Some_2 l i) as [y Hy]; [lia|]. rewrite (all_bits_take_S _ _ _ _ Hy), app_assoc.
    apply IH; [lia| | |done|].
    + rewrite get_at_app, Hg. cbn [get_at arr_of]. by rewrite Hy.
    + by eapply Forall_lookup_1 in Fl.
    + rewrite <- app_assoc, <- (all_bits_take_S _ _ _ _ Hy), length_app. pose proof (all_bits_take bits l (S i)). lia.
Qed.

Lemma read_member k zm x body : ms !! k = Some zm -> fs !! k = Some x ->
  has_dims (dim_size ms fs) (fits sizeof zm) (elem_ok le tcall zm) (dimensions zm) x ->
  (forall idx vs, inner_ok zm idx vs -> read_step (is_bits zm) body idx (all_bits (elem_bits le bcall zm) vs)) ->
  read_step (is_bits zm) (member_loops false zm body) [] (dims_bits (elem_bits le bcall zm) (dimensions zm) x).
Proof.
  intros Hk Hx Hv HB. unfold member_loops. destruct (bool_decide (dimensions zm = [])) eqn:Ed; bool_prop.
  - rewrite Ed in *. cbn [has_dims dims_bits] in *. specialize (HB [] [x]). unfold all_bits in HB. cbn [fmap list_fmap concat] in HB.
    rewrite app_nil_r in HB. apply HB. unfold inner_ok, inner_vals, array_size. rewrite (lo_index ms L k zm Hk), Hx, !bool_decide_true by done.
    split; [done|]. split; [done|]. split; [done|]. by constructor.
  - apply (read_loops _ zm x _ k Hk Hx Ed HB (inner zm) 0 [] x); [|done|done]. unfold inner. destruct (dimensions zm); [done|]. cbn [length]. lia.
Qed.

(** A value of the type of a member; [kn]: the functions of the type exist. *)
Definition field_typed (kn : cstr -> Prop) (zm : ZCMMember) (x : val) : Prop :=
  kn (fullname (mtype zm)) /\ has_dims (dim_size ms fs) (fits sizeof zm) (elem_ok le tcall zm) (dimensions zm) x.
End Read.

(** The end of a run of bit fields. *)
Lemma pos_bit_end (pos bit : Z) (acc : list bool) : 8 * pos + bit = blen acc -> 0 <= bit < 8 ->
  up8 (blen acc) = 8 * (if negb (bit =? 0) then pos + 1 else pos).
Proof.
  intros E Q. rewrite <- E, up8_aligned by (rewrite Z.mul_comm; apply Z.mod_mul; lia). unfold up8.
  destruct (bit =? 0) eqn:E0; bool_prop; cbn [negb].
  - rewrite E0. change ((0 + 7) / 8) with 0. lia.
  - replace ((bit + 7) / 8) with 1; [lia|]. apply (Z.div_unique _ _ 1 (bit - 1)); lia.
Qed.

(** ** The statements of the encoder *)

Section Enc.
Context (ms : list ZCMMember) (le : bool) (sizeof : cstr -> Z).
Context (call : cstr -> list byte -> Z -> Z -> list val -> Z -> option (list byte * Z)).
Context (tcall : cstr -> val -> Prop) (bcall : cstr -> val -> list bool).
Context (fs : list val) (offset maxlen : Z) (buf0 : list byte).
Hypothesis L : layout_ok ms.
Hypothesis Hoff : 0 <= offset.
Hypothesis Hmax : offset + maxlen <= blen buf0.
Hypothesis Hbuf : blen buf0 < 2 ^ 28.

(** The bits written so far are [acc]; in a run of bit fields [es_bit] of them are
    in the current byte. *)
Definition enc_at (mode : bool) (acc : list bool) (st : est) : Prop :=
  writes buf0 (es_buf st) (8 * offset) acc /\ 0 <= es_pos st /\
  8 * es_pos st + (if mode then es_bit st else 0) = blen acc /\
  (mode = true -> 0 <= es_bit st < 8 /\ clear_tail (es_buf st) (offset + es_pos st) (es_bit st)).

Notation enc_step := (read_step (exec_enc ms le call fs offset maxlen) enc_at (8 * maxlen)).
Notation inner_ok := (inner_ok ms le tcall fs).

Lemma enc_at_bound mode acc st : enc_at mode acc st -> blen acc <= 8 * maxlen -> es_pos st <= maxlen.
Proof. intros (_&Hp&E&Hm) H. destruct mode; [destruct (Hm eq_refl)|]; lia. Qed.

(** What a call that has written [bs] behind the bits so far leaves. *)
Lemma enc_calls acc st bs buf' m : enc_at false acc st -> blen (acc ++ bs) <= 8 * maxlen -> blen bs = 8 * m ->
  writes (es_buf st) buf' (8 * (offset + es_pos st)) bs ->
  (m <? 0) = false /\ enc_at false (acc ++ bs) (mkEst buf' (u32 (es_pos st + m)) (es_bit st)).
Proof.
  intros (W&Hp&E&_) Hm Em W'. cbn iota in E. pose proof W as (B1&L1&_). rewrite length_app in Hm. split; [apply Z.ltb_ge; lia|].
  unfold enc_at. cbn [es_buf es_pos es_bit]. rewrite length_app, u32_id by lia. split; [|split; [lia|split; [lia|done]]].
  eapply writes_app; [lia|done|]. by replace (8 * offset + blen acc) with (8 * (offset + es_pos st)) by lia.
Qed.

Lemma enc_elems zm idx vs : is_bits zm = false -> inner_ok zm idx vs ->
  (isPrimitiveType (fullname (mtype zm)) = false ->
    enc_fun_ok (tcall (fullname (mtype zm))) (bcall (fullname (mtype zm))) (call (fullname (mtype zm)))) ->
  enc_step false (CEncode zm) idx (all_bits (elem_bits le bcall zm) vs).
Proof.
  intros Nb (Iv&Is&Hl&Fv) HC acc st Ha Hm. cbn [exec_enc]. rewrite Iv, Is, (u32_id (blen vs)) by lia.
  assert (enc_fun_ok (elem_ok le tcall zm) (elem_bits le bcall zm) (encode_call le call zm)) as HF.
  { unfold encode_call. destruct (isPrimitiveType _) eqn:Pr; [by apply prim_encode_ok|].
    intros b o m l. unfold elem_ok, elem_bits. rewrite Nb, Pr. by apply HC. }
  pose proof Ha as (W&Hp&E&_). cbn iota in E. pose proof W as (B1&L1&_). pose proof Hm as Hm'. rewrite length_app in Hm'.
  destruct (HF (es_buf st) (offset + es_pos st) (maxlen - es_pos st) vs) as (buf'&m&Ef&Em&W'); [done|lia|lia|lia|done|done|lia|].
  destruct (enc_calls acc st _ buf' m Ha Hm Em W') as [E0 H']. rewrite (u32_id (offset + es_pos st)), (u32_id (maxlen - es_pos st)), Ef, E0 by lia.
  by eexists.
Qed.

(** What the call for an array of bit fields leaves. *)
Lemma enc_bits_calls t s n zs acc st : field_ok t s n -> blen zs < 2 ^ 31 ->
  enc_at true acc st -> blen (acc ++ concat (field_bits n <$> zs)) <= 8 * maxlen ->
  exists buf' r pos bit,
    encode_array_bits (iwidth t) (es_buf st) (u32 (offset + es_pos st)) (es_bit st) (u32 (maxlen - es_pos st)) zs n = Some (buf', r) /\
    (wraps 32 r <? 0) = false /\ __bitfield_advance_offset (es_pos st) (es_bit st) (wraps 32 r) = (pos, bit) /\
    enc_at true (acc ++ concat (field_bits n <$> zs)) (mkEst buf' pos bit).
Proof.
  intros F Hl (W&Hp&E&Hq) Hm. destruct (Hq eq_refl) as [Q Ct]. cbn iota in E. pose proof F as [Hn _].
  rewrite length_app, Nat2Z.inj_add, length_fields in Hm by lia. pose proof W as (B1&L1&_).
  rewrite (u32_id (offset + es_pos st)), (u32_id (maxlen - es_pos st)) by lia.
  destruct (encode_elements_ok (iwidth t) n zs Hn (es_buf st) (offset + es_pos st) (es_bit st) B1 ltac:(lia) Q ltac:(lia) ltac:(lia) Ct)
    as (buf'&k'&q'&Ee&L'&B'&HP&Q'&Ct'&Hf&A).
  unfold encode_array_bits. rewrite (u32_id (blen zs * n)), u32_id by lia.
  pose proof (bitfield_size (blen zs * n + es_bit st) ltac:(lia)) as Sz. pose proof (up8_spec (blen zs * n + es_bit st)) as [U Um].
  pose proof (up8_space (blen zs * n + es_bit st) (maxlen - es_pos st) ltac:(lia)) as Hsz.
  rewrite (proj2 (Z.ltb_ge _ _)), Ee by lia. do 2 eexists.
  destruct (bitfield_advance (es_pos st) (es_bit st) (blen zs * n)) as (kk&qq&Ea&HP2&Q2); [lia..|]. exists kk, qq. split; [done|].
  rewrite wraps_id by (unfold in_s; lia). split; [apply Z.ltb_ge; lia|]. split; [exact Ea|]. unfold enc_at. cbn [es_buf es_pos es_bit].
  assert (k' = offset + kk /\ q' = qq) as [-> ->] by lia. rewrite length_app, Nat2Z.inj_add, length_fields by lia.
  split; [|split; [lia|split; [lia|done]]]. eapply writes_app; [lia|done|]. replace (8 * offset + blen acc) with (8 * (offset + es_pos st) + es_bit st) by lia.
  split; [done|]. split; [done|]. rewrite length_fields by lia. split; [done|]. by apply holds_array_bits; [lia|].
Qed.

Lemma enc_bits zm k idx vs : ms !! k = Some zm -> is_bits zm = true -> inner_ok zm idx vs ->
  enc_step true (CEncodeBits zm) idx (all_bits (elem_bits le bcall zm) vs).
Proof.
  intros Hk Hb (Iv&Is&Hl&Fv) acc st Ha Hm. cbn [exec_enc]. destruct (lo_bits ms L k zm Hk Hb) as (t&Ht&F).
  destruct (bit_numbers le zm tcall bcall vs Hb Fv) as (zs&->&Em&_&Eb). rewrite length_fmap in *.
  pose proof (take_vals_all (VNum <$> zs)) as Tv. rewrite length_fmap in Tv.
  rewrite Iv, Is, (u32_id (blen zs)), Tv, Em, Ht by lia. rewrite Eb in *.
  destruct (enc_bits_calls t _ _ zs acc st F Hl Ha Hm) as (buf'&r&pos&bit&->&->&->&H'). by eexists.
Qed.

(** The borders of a run of bit fields. *)
Lemma enc_end acc st num : enc_at true acc st -> blen (pad acc) <= 8 * maxlen ->
  exists st', exec_enc ms le call fs offset maxlen CPosBitEnd num st = Some (inl st') /\ enc_at false (pad acc) st'.
Proof.
  intros (W&Hp&E&Hq) Hm. destruct (Hq eq_refl) as [Q Ct]. cbn iota in E. cbn [exec_enc]. rewrite length_pad in Hm.
  pose proof (pos_bit_end _ _ _ E Q) as U.
  eexists. split; [done|]. unfold enc_at. cbn [es_buf es_pos es_bit]. rewrite length_pad, U. split; [|].
  - apply writes_pad; [rewrite Z.mul_comm; apply Z.mod_mul; lia| |done]. intros j Hj.
    rewrite up8_aligned, U in Hj by (rewrite Z.mul_comm; apply Z.mod_mul; lia).
    destruct (es_bit st =? 0) eqn:E0; bool_prop; cbn [negb] in Hj; [lia|].
    replace j with (8 * (offset + es_pos st) + (j - 8 * (offset + es_pos st))) by lia. apply Ct; lia.
  - destruct (es_bit st =? 0) eqn:E0; bool_prop; cbn [negb] in *; rewrite ?u32_id by lia; (split; [lia|]); (split; [lia|done]).
Qed.

Lemma enc_border mode num zm acc st : enc_at mode acc st -> blen (if mode && negb (is_bits zm) then pad acc else acc) <= 8 * maxlen ->
  exists border num' st', bit_border mode num zm = (border, is_bits zm, num') /\
    exec_enc ms le call fs offset maxlen border [] st = Some (inl st') /\
    enc_at (is_bits zm) (if mode && negb (is_bits zm) then pad acc else acc) st'.
Proof.
  intros H Hm. unfold bit_border. destruct mode, (is_bits zm) eqn:Eb; cbn [andb negb] in *.
  - exists (CNote []), num, st. done.
  - destruct (enc_end acc st [] H Hm) as (st'&E&H'). do 2 eexists. exists st'. split; [done|]. split; [|done]. cbn [exec_enc] in *. by rewrite E.
  - do 2 eexists. exists (mkEst (es_buf st) (es_pos st) 0). split; [done|]. split; [done|]. destruct H as (W&Hp&E&_). cbn iota in E.
    unfold enc_at. cbn [es_buf es_pos es_bit]. split; [done|]. split; [done|]. split; [lia|]. intros _. split; [lia|]. by intros [].
  - exists (CNote []), num, st. done.
Qed.

Context (kn : cstr -> Prop).
Hypothesis Hcall : forall ty, isPrimitiveType ty = false -> kn ty -> enc_fun_ok (tcall ty) (bcall ty) (call ty).

Lemma enc_member k zm x : ms !! k = Some zm -> fs !! k = Some x -> field_typed ms le sizeof tcall fs kn zm x ->
  enc_step (is_bits zm) (member_loops false zm (if negb (is_bits zm) then CEncode zm else CEncodeBits zm)) []
    (dims_bits (elem_bits le bcall zm) (dimensions zm) x).
Proof.
  intros Hk Hx [Hkn Hv]. apply (read_member ms le sizeof tcall bcall fs L) with (k := k); try done. intros idx vs Hi.
  destruct (is_bits zm) eqn:Eb; cbn [negb]; [by eapply enc_bits|]. apply enc_elems; [done|done|]. intros Pr. by apply Hcall.
Qed.

Lemma enc_members : forall ms' fs' k mode num acc st, (forall j, ms !! (k + j)%nat = ms' !! j) -> (forall j, fs !! (k + j)%nat = fs' !! j) ->
  Forall2 (field_typed ms le sizeof tcall fs kn) ms' fs' -> enc_at mode acc st -> blen (members_bits le bcall ms' fs' mode acc) <= 8 * maxlen ->
  exists st', exec_enc ms le call fs offset maxlen (encode_body ms' mode num) [] st = Some (inl st') /\
    enc_at false (members_bits le bcall ms' fs' mode acc) st'.
Proof.
  induction ms' as [|zm ms' IH]; intros fs' k mode num acc st Em Ef F Ha Hm; cbn [encode_body].
  - apply Forall2_nil_inv_l in F as ->. cbn [members_bits] in *. destruct mode; [|by exists st].
    destruct (enc_end acc st [] Ha Hm) as (st'&E&H'). exists st'. split; [|done]. cbn [bit_end exec_enc] in *. by rewrite E.
  - apply Forall2_cons_inv_l in F as (x&fs1&Hx&F1&->). cbn [members_bits] in *.
    set (acc1 := if mode && negb (is_bits zm) then pad acc else acc) in *.
    set (bs := dims_bits (elem_bits le bcall zm) (dimensions zm) x) in *.
    pose proof (members_bits_mono le bcall ms' fs1 (is_bits zm) (acc1 ++ bs)) as Mo. rewrite length_app in Mo.
    destruct (enc_border mode num zm acc st Ha ltac:(fold acc1; lia)) as (border&num'&st1&->&E1&H1). cbn [exec_enc]. rewrite E1.
    pose proof (Em 0%nat) as Hk. pose proof (Ef 0%nat) as Hfk. rewrite Nat.add_0_r in Hk, Hfk.
    destruct (enc_member k zm x Hk Hfk Hx acc1 st1 H1) as (st2&E2&H2); [fold bs; rewrite length_app; lia|]. rewrite E2.
    apply (IH fs1 (S k)); [|..|done|done|done].
    + intros j. specialize (Em (S j)). by rewrite Nat.add_succ_r in Em.
    + intros j. specialize (Ef (S j)). by rewrite Nat.add_succ_r in Ef.
Qed.
End Enc.

(** ** Structs *)

Section Structs.
Context (env : list ZCMStruct) (le : bool) (sizeof : cstr -> Z).

(** Every struct of the program has a sound layout. *)
Definition env_ok : Prop := forall name zs, find_struct env name = Some zs -> layout_ok (members zs).

Hypothesis Henv : env_ok.

(** The generated encoder of a struct writes the format of its elements. *)
Lemma encode_struct_ok fuel : forall name, isPrimitiveType name = false -> known env fuel name ->
  enc_fun_ok (typed env le sizeof fuel name) (struct_bits env le fuel name) (encode_struct_array env le fuel name).
Proof.
  induction fuel as [|fuel IH]; intros name Pr K buf off max vs B Ho Hb Hl Hv Hn Hm; unfold known in K; rewrite Pr in K; [done|].
  destruct K as [zs Hz]. cbn [encode_struct_array]. rewrite Hz, take_vals_all. pose proof (Henv name zs Hz) as Lo.
  set (bits := struct_bits env le (S fuel) name) in *.
  edestruct (for_loop_inv (R := list byte * Z) (fun i st => enc_at off buf false (all_bits bits (take i vs)) st)
    (fun element st => v <- vs !! element ;; fs <- fields_of v ;;
      exec_enc (members zs) le (encode_struct_array env le fuel) fs off max (encode_body (members zs) false 0) [] st)
    (length vs) 0 (mkEst buf 0 0)) as (st'&->&H').
  - cbn. split; [apply writes_refl; [done|lia]|]. done.
  - intros i st Hi Ha. destruct (lookup_lt_is_Some_2 vs i) as [v Hiv]; [lia|]. rewrite Hiv.
    eapply Forall_lookup_1 in Hv; [|exact Hiv]. destruct Hv as (zs'&fs&Hz'&->&F). rewrite Hz in Hz'. injection Hz' as <-. cbn [fields_of].
    rewrite (all_bits_take_S _ _ _ _ Hiv). pose proof (all_bits_take bits vs (S i)) as T. rewrite (all_bits_take_S _ _ _ _ Hiv) in T.
    assert (all_bits bits (take i vs) ++ bits (VStruct fs) =
      members_bits le (struct_bits env le fuel) (members zs) fs false (all_bits bits (take i vs) ++ [])) as Eb.
    { destruct Ha as (_&_&E&_). cbn iota in E. rewrite members_bits_app by (rewrite <- E, Z.add_0_r, Z.mul_comm; apply Z.mod_mul; lia).
      unfold bits at 2. cbn [struct_bits]. by rewrite Hz. }
    rewrite Eb, app_nil_r in T |- *.
    eapply (enc_members (members zs) le sizeof _ (typed env le sizeof fuel) (struct_bits env le fuel) fs off max buf Lo Ho Hb Hl (known env fuel)
      ltac:(intros; by apply IH) (members zs) fs 0); [done|done|exact F|exact Ha|lia].
  - rewrite Nat.add_0_l, firstn_all in H'. destruct H' as (W&Hp&E&_). cbn iota in E. exists (es_buf st'), (es_pos st').
    rewrite wraps_id by (unfold in_s; lia). split; [done|]. split; [lia|done].
Qed.
End Structs.
