(* ===== verification/CDec.v ===== *)
(** * The generated decoders read the wire format *)
From S2P Require Import Prelude Bytes CoreTypes Bitfield Transport Url Gen CNum EmitC CCode CWire CEnc.
Local Open Scope Z_scope.

(** ** What a function that decodes an array promises *)

Definition dec_fun_ok (ok : val -> Prop) (bits : val -> list bool) (f : list byte -> Z -> Z -> Z -> option (list val * Z)) : Prop :=
  forall buf off max vs, bytes_ok buf -> 0 <= off -> off + max <= blen buf -> blen buf < 2 ^ 28 ->
    Forall ok vs -> blen vs < 2 ^ 31 -> blen (all_bits bits vs) <= 8 * max -> holds buf (8 * off) (all_bits bits vs) ->
    exists m, f buf off max (blen vs) = Some (vs, m) /\ blen (all_bits bits vs) = 8 * m.

(** ** Primitive types *)

Lemma cut_terminated s : 0 ∉ s -> cut (s ++ [0]) = s.
Proof.
  induction s as [|c s IH]; intros H; [done|]. apply not_elem_of_cons in H as [Hc Hs]. cbn [app cut].
  rewrite (proj2 (Z.eqb_neq c 0)) by done. by rewrite IH.
Qed.

Lemma cut_strings ss : Forall (fun s => Forall (in_s 8) s /\ 0 ∉ s) ss ->
  (fun block => VStr (cut block)) <$> ((fun s => s ++ [0]) <$> ss) = VStr <$> ss.
Proof. induction 1 as [|s ss [_ Hs] _ IH]; [done|]. cbn [fmap list_fmap] in *. by rewrite IH, cut_terminated. Qed.

Lemma prim_decode_ok le zm tcall bcall : is_bits zm = false -> isPrimitiveType (fullname (mtype zm)) = true ->
  dec_fun_ok (elem_ok le tcall zm) (elem_bits le bcall zm) (prim_decode le (fullname (mtype zm))).
Proof.
  intros Nb Pr buf off max vs B Ho Hb Hl Hv Hn Hm H. unfold prim_decode.
  destruct (bool_decide (fullname (mtype zm) = str "string")) eqn:E; bool_prop.
  - destruct (prim_strings le zm Nb Pr tcall bcall vs E Hv) as (ss&->&Fs&_&Eb). rewrite Eb in *. rewrite length_bytes_bits, length_fmap in *.
    exists (blen (strings_bytes (word_codec le) int8_codec ss)). split; [|done].
    pose proof (string_decode_loop_ok (word_codec le) int8_codec (word_codec_size le) eq_refl ltac:(intros; by destruct le)
      ss buf off max 0 Ho ltac:(lia)) as D. rewrite !Z.add_0_l, Z.add_0_r in D.
    assert ((if le then __string_decode_little_endian_array else __string_decode_array) buf off max (blen ss) =
      string_decode_loop (word_codec le) int8_codec buf off max 0 (length ss)) as ->.
    { destruct le; unfold __string_decode_little_endian_array, __string_decode_array; by rewrite Nat2Z.id. }
    rewrite D by first [lia | (eapply Forall_impl; [exact Fs|]; intros s [Hs _]; apply Forall_app; split; [done|];
      repeat constructor; unfold in_s; lia) | (apply holds_slice; [done|apply Forall_concat, Forall_fmap, Forall_true; intros; apply string_bytes_ok|done|lia|done])].
    by rewrite cut_strings.
  - destruct (codec_total le _ Pr E) as [K HK]. rewrite HK. destruct (prim_numbers le zm Nb Pr tcall bcall vs K E HK Hv) as (zs&->&Fs&_&Eb).
    rewrite Eb in *. rewrite length_bytes_bits, length_encoding, length_fmap in *. exists (Z.of_nat (size K * length zs)). split; [|done].
    rewrite decode_array_ok by first [lia|done|rewrite <- length_encoding; apply holds_slice; [done|apply encoding_ok|done|rewrite length_encoding; lia|done]].
    done.
Qed.

(** ** The statements of the decoder *)

Section Dec.
Context (ms : list ZCMMember) (le : bool) (sizeof : cstr -> Z).
Hypothesis Hsizeof : forall t, 0 < sizeof t.
Context (call : cstr -> list byte -> Z -> Z -> Z -> option (list val * Z)).
Context (tcall : cstr -> val -> Prop) (bcall : cstr -> val -> list bool).
Context (fs : list val) (buf : list byte) (offset maxlen : Z).
Hypothesis L : layout_ok ms.
Hypothesis Hbytes : bytes_ok buf.
Hypothesis Hoff : 0 <= offset.
Hypothesis Hmax : offset + maxlen <= blen buf.
Hypothesis Hbuf : blen buf < 2 ^ 28.

Definition dec_at (mode : bool) (acc : list bool) (st : dst) : Prop :=
  0 <= ds_pos st /\ 8 * ds_pos st + (if mode then ds_bit st else 0) = blen acc /\ (mode = true -> 0 <= ds_bit st < 8).

(** A step that reads [bs] and turns the fields [F] into [F']. *)
Definition dec_step (mode : bool) (s : cstmt) (idx : list nat) (bs : list bool) (F F' : list val) : Prop :=
  forall acc st, dec_at mode acc st -> ds_fields st = F -> blen (acc ++ bs) <= 8 * maxlen -> holds buf (8 * offset) (acc ++ bs) ->
    exists st', exec_dec ms le sizeof call buf offset maxlen s idx st = Some (inl st') /\ ds_fields st' = F' /\ dec_at mode (acc ++ bs) st'.

(** The fields in front of member [k] have been decoded. *)
Definition agree (k : nat) (F : list val) : Prop := forall j, (j < k)%nat -> F !! j = fs !! j.

Lemma agree_insert k F x : agree k F -> agree k (<[k := x]> F).
Proof. intros A j Hj. rewrite list_lookup_insert_ne by lia. by apply A. Qed.

Lemma dim_size_agree k zm F d : ms !! k = Some zm -> d ∈ dimensions zm -> agree k F -> dim_size ms F d = dim_size ms fs d.
Proof.
  intros Hk Hd A. unfold dim_size. destruct (mode d) eqn:Em; [done|]. destruct (lo_dims ms L k zm d Hk Hd Em) as (j&m&->&Hj&_). by rewrite A.
Qed.

Lemma array_size_agree k zm F d : ms !! k = Some zm -> agree k F -> array_size ms F zm d = array_size ms fs zm d.
Proof.
  intros Hk A. unfold array_size. destruct (bool_decide _); [done|]. destruct (dimensions zm !! d) as [zd|] eqn:E; [|done].
  eapply dim_size_agree; [done|by eapply list_elem_of_lookup_2|done].
Qed.

(** The place of the elements: a scalar, or an array of their number. *)
Definition place_ok (zm : ZCMMember) (idx : list nat) (x : val) (vs : list val) : Prop :=
  if bool_decide (dimensions zm = []) then length vs = 1%nat /\ idx = []
  else exists l, get_at x idx = Some (VArr l) /\ length l = length vs.

Definition target (zm : ZCMMember) (vs : list val) : val :=
  if bool_decide (dimensions zm = []) then default VUndef (head vs) else VArr vs.

Lemma store_member_ok k zm F x idx y x' : ms !! k = Some zm -> F !! k = Some x -> set_at x idx y = Some x' ->
  store_at ms F zm idx y = Some (<[k := x']> F).
Proof. intros Hk Hx Hs. unfold store_at. by rewrite (lo_index ms L k zm Hk), Hx, Hs. Qed.

Lemma store_vals_ok k zm F x idx vs : ms !! k = Some zm -> F !! k = Some x -> place_ok zm idx x vs ->
  exists x', set_at x idx (target zm vs) = Some x' /\ store_vals ms F zm idx vs = Some (<[k := x']> F).
Proof.
  intros Hk Hx P. unfold place_ok, target, store_vals, inner_vals in *. destruct (bool_decide (dimensions zm = [])) eqn:Ed.
  - destruct P as [Hl ->]. destruct vs as [|v [|]]; [done| |done]. exists v. split; [done|]. by eapply store_member_ok.
  - destruct P as (l&Hg&Hl). destruct (set_at_some x idx _ (VArr vs) Hg) as [x' Hs]. exists x'. split; [done|].
    rewrite (lo_index ms L k zm Hk), Hx, Hg. cbn [arr_of]. rewrite (proj2 (Nat.leb_le _ _)), drop_ge, app_nil_r by lia. by eapply store_member_ok.
Qed.

Lemma room_ok k zm F x idx vs : ms !! k = Some zm -> F !! k = Some x -> place_ok zm idx x vs -> room ms F zm idx (blen vs) = true.
Proof.
  intros Hk Hx P. unfold room, place_ok, inner_vals in *. destruct (bool_decide (dimensions zm = [])) eqn:Ed; [done|].
  destruct P as (l&Hg&Hl). rewrite (lo_index ms L k zm Hk), Hx, Hg. cbn [arr_of orb]. apply Z.leb_le. lia.
Qed.

(** The elements to come and their number. *)
Definition elems_ok (zm : ZCMMember) (vs : list val) : Prop :=
  array_size ms fs zm (inner zm) = Some (blen vs) /\ blen vs < 2 ^ 31 /\ Forall (elem_ok le tcall zm) vs.

Lemma dec_elems k zm F x idx vs : ms !! k = Some zm -> F !! k = Some x -> agree k F -> is_bits zm = false ->
  elems_ok zm vs -> place_ok zm idx x vs ->
  (isPrimitiveType (fullname (mtype zm)) = false ->
    dec_fun_ok (tcall (fullname (mtype zm))) (bcall (fullname (mtype zm))) (call (fullname (mtype zm)))) ->
  exists x', set_at x idx (target zm vs) = Some x' /\
    dec_step false (CDecode zm) idx (all_bits (elem_bits le bcall zm) vs) F (<[k := x']> F).
Proof.
  intros Hk Hx A Nb (Is&Hl&Fv) P HC. destruct (store_vals_ok k zm F x idx vs Hk Hx P) as (x'&Hs&Hst). exists x'. split; [done|].
  intros acc st (Hp&E&_) EF Hm H. cbn iota in E. cbn [exec_dec]. rewrite EF, (array_size_agree k zm F _ Hk A), Is, (u32_id (blen vs)), (room_ok k zm F x idx vs Hk Hx P) by lia.
  replace (implb (writes_early (fullname (mtype zm))) true) with true by (by destruct (writes_early _)).
  assert (dec_fun_ok (elem_ok le tcall zm) (elem_bits le bcall zm) (fun b o m n => decode_call le call b zm o m n)) as HF.
  { unfold decode_call. destruct (isPrimitiveType _) eqn:Pr; [by apply prim_decode_ok|].
    intros b o m l. unfold elem_ok, elem_bits. rewrite Nb, Pr. by apply HC. }
  rewrite length_app in Hm. apply holds_app in H as [_ H]. replace (8 * offset + blen acc) with (8 * (offset + ds_pos st)) in H by lia.
  destruct (HF buf (offset + ds_pos st) (maxlen - ds_pos st) vs) as (m&Ef&Em); [done|lia|lia|lia|done|done|lia|done|].
  rewrite (u32_id (offset + ds_pos st)), (u32_id (maxlen - ds_pos st)), Ef by lia. rewrite (proj2 (Z.ltb_ge _ _)), u32_id, Hst by lia.
  eexists. split; [done|]. split; [done|]. unfold dec_at. cbn [ds_pos ds_bit]. rewrite length_app. split; [lia|]. split; [lia|done].
Qed.

(** What the call for an array of bit fields gives. *)
Lemma dec_bits_calls t s n zs acc st : field_ok t s n -> blen zs < 2 ^ 31 -> Forall (fun z => truncated s n z = z) zs ->
  dec_at true acc st -> blen (acc ++ concat (field_bits n <$> zs)) <= 8 * maxlen -> holds buf (8 * offset) (acc ++ concat (field_bits n <$> zs)) ->
  exists r pos bit,
    decode_array_bits t s buf (u32 (offset + ds_pos st)) (ds_bit st) (u32 (maxlen - ds_pos st)) (length zs) n = Some (zs, r) /\
    (wraps 32 r <? 0) = false /\ __bitfield_advance_offset (ds_pos st) (ds_bit st) (wraps 32 r) = (pos, bit) /\
    forall F, dec_at true (acc ++ concat (field_bits n <$> zs)) (mkDst F pos bit).
Proof.
  intros Ff Hl Tr (Hp&E&Hq) Hm H. specialize (Hq eq_refl). cbn iota in E. pose proof Ff as [Hn _].
  rewrite length_app, Nat2Z.inj_add, length_fields in Hm by lia.
  rewrite (u32_id (offset + ds_pos st)), (u32_id (maxlen - ds_pos st)) by lia.
  apply holds_app in H as [_ H]. replace (8 * offset + blen acc) with (8 * (offset + ds_pos st) + ds_bit st) in H by lia.
  apply holds_array_bits in H; [|lia]. unfold decode_array_bits.
  pose proof (decode_elements_ok t s n zs buf Hbytes Ff ltac:(lia) (offset + ds_pos st) (ds_bit st) ltac:(lia) Hq ltac:(lia) H) as ->.
  rewrite (u32_id (blen zs * n)), u32_id by lia.
  pose proof (bitfield_size (blen zs * n + ds_bit st) ltac:(lia)) as Sz. pose proof (up8_spec (blen zs * n + ds_bit st)) as [U Um].
  pose proof (up8_space (blen zs * n + ds_bit st) (maxlen - ds_pos st) ltac:(lia)) as Hsz.
  rewrite (proj2 (Z.ltb_ge _ _)) by lia.
  assert (truncated s n <$> zs = zs) as -> by (clear - Tr; induction Tr as [|z zs Hz _ IH]; [done|]; cbn; by rewrite Hz, IH).
  destruct (bitfield_advance (ds_pos st) (ds_bit st) (blen zs * n)) as (kk&qq&Ea&HP2&Q2); [lia..|]. eexists. exists kk, qq. split; [done|].
  rewrite wraps_id by (unfold in_s; lia). split; [apply Z.ltb_ge; lia|]. split; [exact Ea|]. intros F. unfold dec_at. cbn [ds_pos ds_bit].
  rewrite length_app, Nat2Z.inj_add, length_fields by lia. split; [lia|]. split; [lia|done].
Qed.

Lemma dec_bits k zm F x idx vs : ms !! k = Some zm -> F !! k = Some x -> agree k F -> is_bits zm = true ->
  elems_ok zm vs -> place_ok zm idx x vs ->
  exists x', set_at x idx (target zm vs) = Some x' /\
    dec_step true (CDecodeBits zm) idx (all_bits (elem_bits le bcall zm) vs) F (<[k := x']> F).
Proof.
  intros Hk Hx A Hb (Is&Hl&Fv) P. destruct (store_vals_ok k zm F x idx vs Hk Hx P) as (x'&Hs&Hst). exists x'. split; [done|].
  intros acc st Ha EF Hm H. cbn [exec_dec]. destruct (lo_bits ms L k zm Hk Hb) as (t&Ht&Ff).
  destruct (bit_numbers le zm tcall bcall vs Hb Fv) as (zs&->&_&Tr&Eb). rewrite length_fmap in *.
  rewrite EF, (array_size_agree k zm F _ Hk A), Is, Ht, (u32_id (blen zs)), Nat2Z.id by lia. rewrite Eb in *.
  destruct (dec_bits_calls t _ _ zs acc st Ff Hl Tr Ha Hm H) as (r&pos&bit&->&->&Ea&H'). rewrite Hst, Ea. by eexists.
Qed.

(** *** Loops *)

(** What an element holds before it is decoded. *)
Definition fresh (mallocs : bool) (ds : list ZCMDimension) : val := if mallocs then VUndef else const_array ds.

(** What an array holds when the first [a] elements have been decoded. *)
Definition partial (l : list val) (a : nat) (e : val) : val := VArr (take a l ++ replicate (length l - a) e).

Lemma partial_lookup (l : list val) a e : (a < length l)%nat -> (take a l ++ replicate (length l - a) e) !! a = Some e.
Proof. intros H. rewrite lookup_app_r by (rewrite length_take; lia). rewrite length_take, lookup_replicate_2 by lia. done. Qed.

Lemma partial_insert (l : list val) a e y : l !! a = Some y -> <[a := y]> (take a l ++ replicate (length l - a) e) = take (S a) l ++ replicate (length l - S a) e.
Proof.
  intros H. pose proof (lookup_lt_Some _ _ _ H). rewrite (take_S_r _ _ _ H), insert_app_r_alt by (rewrite length_take; lia).
  rewrite length_take, Nat.min_l, Nat.sub_diag, <- app_assoc by lia. replace (length l - a)%nat with (S (length l - S a)) by lia. done.
Qed.

(** The array is allocated, or part of the struct from the start. *)
Lemma dec_place mallocs k zm F x idx d zd l c rest bs F' md : ms !! k = Some zm -> F !! k = Some x -> agree k F ->
  dimensions zm !! d = Some zd -> dim_size ms fs zd = Some (blen l) -> get_at x idx = Some c ->
  sizeof (elem_type zm (length (dimensions zm) - 1 - d)) * blen l < 2 ^ 32 ->
  (mallocs = false -> c = const_array (drop d (dimensions zm)) /\ mode zd = ZCM_CONST) ->
  (forall x1, set_at x idx (partial l 0 (fresh mallocs (drop (S d) (dimensions zm)))) = Some x1 -> dec_step md rest idx bs (<[k := x1]> F) F') ->
  dec_step md (if mallocs then CSeq (CMalloc zm d) rest else rest) idx bs F F'.
Proof.
  intros Hk Hx A Hd Hs Hg Hfit Hc HR acc st Ha EF Hm H. unfold partial in HR. cbn [take app] in HR. rewrite Nat.sub_0_r in HR. destruct mallocs; cbn [fresh] in HR.
  - cbn [exec_dec]. rewrite EF, (array_size_agree k zm F d Hk A). unfold array_size.
    rewrite bool_decide_false by (intros E; by rewrite E in Hd). rewrite Hd, Hs. unfold malloc_elems. set (sz := sizeof _) in *. pose proof (Hsizeof (elem_type zm (length (dimensions zm) - 1 - d))).
    rewrite u32_id, (Z.mul_comm sz), Z.div_mul, Nat2Z.id by lia.
    destruct (set_at_some x idx c (VArr (replicate (length l) VUndef)) Hg) as [x1 E1]. rewrite (store_member_ok k zm F x idx _ x1 Hk Hx E1).
    by apply (HR x1 E1).
  - destruct (Hc eq_refl) as [-> Hcd]. erewrite drop_S in Hg by done. cbn [const_array] in Hg.
    assert (strtol (dsize zd) 0 = blen l) as El by (unfold dim_size in Hs; rewrite Hcd in Hs; congruence).
    rewrite El, Nat2Z.id in Hg. pose proof (set_get_at _ _ _ Hg) as E1. specialize (HR x E1). rewrite list_insert_id in HR by done. by apply HR.
Qed.

(** The loops over the dimensions in front of the innermost one. *)
Lemma dec_loops mallocs md k zm body : ms !! k = Some zm -> dimensions zm <> [] ->
  (mallocs = false -> forall d zd, dimensions zm !! d = Some zd -> mode zd = ZCM_CONST) ->
  (forall F x idx vs, F !! k = Some x -> agree k F -> elems_ok zm vs -> place_ok zm idx x vs ->
    exists x', set_at x idx (target zm vs) = Some x' /\ dec_step md body idx (all_bits (elem_bits le bcall zm) vs) F (<[k := x']> F)) ->
  forall n d idx v F x c, (d + n + 1)%nat = length (dimensions zm) -> F !! k = Some x -> agree k F ->
    has_dims (dim_size ms fs) (fits sizeof zm) (elem_ok le tcall zm) (drop d (dimensions zm)) v ->
    get_at x idx = Some c -> (mallocs = false -> c = const_array (drop d (dimensions zm))) ->
    exists x', set_at x idx v = Some x' /\
      dec_step md (loops mallocs zm d n body) idx (dims_bits (elem_bits le bcall zm) (drop d (dimensions zm)) v) F (<[k := x']> F).
Proof.
  intros Hk Hd HM HB. induction n as [|n IH]; intros d idx v F x c Hn Hx A Hv Hg Hc; cbn [loops];
    (destruct (lookup_lt_is_Some_2 (dimensions zm) d) as [zd Hzd]; [lia|]); pose proof Hc as Hc0; rewrite (drop_S _ _ _ Hzd) in Hv, Hc0 |- *;
    destruct Hv as (l&->&Hs&[Hl Hfit]&Fl); cbn [dims_bits]; destruct (set_at_some x idx c (VArr l) Hg) as [x' Ex']; exists x'; (split; [done|]);
    eapply (dec_place mallocs k zm F x idx d zd l c); try done; (try by intros ->; split; [by apply Hc|by eapply HM]);
    (try by rewrite length_drop in Hfit; replace (length (dimensions zm) - 1 - d)%nat with (length (dimensions zm) - S d)%nat by lia); intros x1 E1;
    assert (<[k := x1]> F !! k = Some x1) as Hx1 by (apply list_lookup_insert_eq; by eapply lookup_lt_Some).
  - rewrite drop_ge in Fl |- * by lia. destruct (HB (<[k := x1]> F) x1 idx l Hx1 (agree_insert k F x1 A)) as (x2&E2&St).
    + split; [|done]. unfold array_size, inner. rewrite bool_decide_false by done. replace (length (dimensions zm) - 1)%nat with d by lia. by rewrite Hzd.
    + unfold place_ok. rewrite bool_decide_false by done. eexists. split; [by eapply get_set_at|]. rewrite length_app, length_take, length_replicate. lia.
    + unfold target in E2. rewrite bool_decide_false, (set_set_at _ _ _ _ _ E1), Ex' in E2 by done. injection E2 as <-.
      by rewrite list_insert_insert_eq in St.
  - intros acc st Ha EF Hm H. cbn [exec_dec]. set (bits := dims_bits (elem_bits le bcall zm) (drop (S d) (dimensions zm))) in *.
    fold (all_bits bits l) in Hm, H |- *. set (e := fresh mallocs (drop (S d) (dimensions zm))) in *.
    assert (loop_count ms (ds_fields st) zm d = Some (length l)) as ->.
    { unfold loop_count. rewrite EF, (array_size_agree k zm _ d Hk (agree_insert k F x1 A)). unfold array_size.
      rewrite bool_decide_false, Hzd, Hs, (proj2 (Z.ltb_lt _ _)) by done. by rewrite Nat2Z.id. }
    edestruct (for_loop_inv (R := Z) (fun a st => exists xa, set_at x idx (partial l a e) = Some xa /\
      ds_fields st = <[k := xa]> F /\ dec_at md (acc ++ all_bits bits (take a l)) st)) as (st'&E&xa&Exa&EF'&Ha').
    3: { exists st'. split; [exact E|]. unfold partial in Exa. rewrite Nat.add_0_l, firstn_all, Nat.sub_diag in *. cbn [replicate] in Exa.
         rewrite app_nil_r, Ex' in Exa. injection Exa as <-. done. }
    { exists x1. split; [done|]. split; [done|]. cbn [take all_bits fmap list_fmap concat]. by rewrite app_nil_r. }
    intros a s Ha1 (xa&Exa&EFa&Hat). destruct (lookup_lt_is_Some_2 l a) as [y Hy]; [lia|].
    assert (<[k := xa]> F !! k = Some xa) as Hxa by (apply list_lookup_insert_eq; by eapply lookup_lt_Some).
    destruct (IH (S d) (idx ++ [a]) y (<[k := xa]> F) xa e ltac:(lia) Hxa (agree_insert k F xa A)) as (xb&Exb&St).
    + by eapply Forall_lookup_1 in Fl.
    + rewrite get_at_app, (get_set_at _ _ _ _ Exa). cbn [get_at arr_of partial]. by rewrite partial_lookup by lia.
    + by intros ->.
    + rewrite set_at_app, (get_set_at _ _ _ _ Exa) in Exb. cbn [set_at arr_of partial] in Exb.
      rewrite partial_lookup, (partial_insert _ _ _ _ Hy), (set_set_at _ _ _ _ _ Exa) in Exb by (lia || done).
      rewrite list_insert_insert_eq in St. fold (bits y) in St.
      rewrite length_app in Hm. pose proof (all_bits_take bits l (S a)) as T. rewrite (all_bits_take_S _ _ _ _ Hy) in T |- *.
      destruct (St (acc ++ all_bits bits (take a l)) s Hat EFa) as (s'&Es&EFs&Hs').
      * rewrite <- app_assoc, length_app. lia.
      * rewrite <- app_assoc, <- (all_bits_take_S _ _ _ _ Hy). rewrite <- (take_drop (S a) l), all_bits_app, app_assoc in H. by apply holds_app in H as [H _].
      * exists s'. split; [exact Es|]. exists xb. rewrite app_assoc. done.
Qed.

(** *** Members *)

Lemma dec_end acc st idx : dec_at true acc st -> blen (pad acc) <= 8 * maxlen ->
  exists st', exec_dec ms le sizeof call buf offset maxlen CPosBitEnd idx st = Some (inl st') /\ ds_fields st' = ds_fields st /\ dec_at false (pad acc) st'.
Proof.
  intros (Hp&E&Hq) Hm. specialize (Hq eq_refl). cbn iota in E. cbn [exec_dec]. pose proof (pos_bit_end _ _ _ E Hq) as U. rewrite length_pad in Hm.
  eexists. split; [done|]. split; [done|]. unfold dec_at. cbn [ds_pos ds_bit]. rewrite length_pad, U.
  destruct (ds_bit st =? 0) eqn:E0; bool_prop; cbn [negb] in *; rewrite ?u32_id by lia; (split; [lia|]); (split; [lia|done]).
Qed.

Lemma dec_border md num zm acc st : dec_at md acc st -> blen (if md && negb (is_bits zm) then pad acc else acc) <= 8 * maxlen ->
  exists border num' st', bit_border md num zm = (border, is_bits zm, num') /\
    exec_dec ms le sizeof call buf offset maxlen border [] st = Some (inl st') /\ ds_fields st' = ds_fields st /\
    dec_at (is_bits zm) (if md && negb (is_bits zm) then pad acc else acc) st'.
Proof.
  intros H Hm. unfold bit_border. destruct md, (is_bits zm) eqn:Eb; cbn [andb negb] in *.
  - exists (CNote []), num, st. done.
  - destruct (dec_end acc st [] H Hm) as (st'&E&EF&H'). do 2 eexists. exists st'. split; [done|]. split; [|done]. cbn [exec_dec] in *. by rewrite E.
  - do 2 eexists. exists (mkDst (ds_fields st) (ds_pos st) 0). split; [done|]. split; [done|]. split; [done|]. destruct H as (Hp&E&_). cbn iota in E.
    unfold dec_at. cbn [ds_pos ds_bit]. split; [done|]. split; [lia|]. intros _. lia.
  - exists (CNote []), num, st. done.
Qed.

Context (kn : cstr -> Prop).
Hypothesis Hcall : forall ty, isPrimitiveType ty = false -> kn ty -> dec_fun_ok (tcall ty) (bcall ty) (call ty).

Lemma dec_member k zm v F : ms !! k = Some zm -> F !! k = Some (init_member zm) -> agree k F -> field_typed ms le sizeof tcall fs kn zm v ->
  dec_step (is_bits zm) (member_loops (negb (isConstantSizeArray zm)) zm (if negb (is_bits zm) then CDecode zm else CDecodeBits zm)) []
    (dims_bits (elem_bits le bcall zm) (dimensions zm) v) F (<[k := v]> F).
Proof.
  intros Hk Hx A [Hkn Hv].
  assert (forall F x idx vs, F !! k = Some x -> agree k F -> elems_ok zm vs -> place_ok zm idx x vs ->
    exists x', set_at x idx (target zm vs) = Some x' /\
      dec_step (is_bits zm) (if negb (is_bits zm) then CDecode zm else CDecodeBits zm) idx (all_bits (elem_bits le bcall zm) vs) F (<[k := x']> F)) as HB.
  { intros G x idx vs Hxg Ag He Hp. destruct (is_bits zm) eqn:Eb; cbn [negb]; [by apply dec_bits|]. apply dec_elems; try done. intros Pr. by apply Hcall. }
  unfold member_loops. destruct (bool_decide (dimensions zm = [])) eqn:Ed; bool_prop.
  - rewrite Ed in *. cbn [has_dims dims_bits] in *. destruct (HB F _ [] [v] Hx A) as (x'&E&St).
    + unfold elems_ok, array_size. rewrite bool_decide_true by done. split; [done|]. split; [done|]. by constructor.
    + unfold place_ok. by rewrite bool_decide_true.
    + unfold target in E. rewrite bool_decide_true in E by done. injection E as <-. unfold all_bits in St. cbn [fmap list_fmap concat] in St.
      by rewrite app_nil_r in St.
  - assert (negb (isConstantSizeArray zm) = false -> forall d zd, dimensions zm !! d = Some zd -> mode zd = ZCM_CONST) as HM.
    { intros Hc d zd Hd. apply negb_false_iff in Hc. unfold isConstantSizeArray in Hc. rewrite forallb_forall in Hc.
      specialize (Hc zd). destruct (mode zd); [done|]. discriminate Hc. apply list_elem_of_In. by eapply list_elem_of_lookup_2. }
    destruct (dec_loops _ _ k zm _ Hk Ed HM HB (inner zm) 0 [] v F (init_member zm) (init_member zm)) as (x'&E&St);
      [|done|done|done|done| |by injection E as <-].
    + unfold inner. destruct (dimensions zm); [done|]. cbn [length]. lia.
    + intros Hc. apply negb_false_iff in Hc. unfold init_member. by rewrite Hc.
Qed.

Lemma dec_members : forall ms' fs' mdone done md num acc st, ms = mdone ++ ms' -> fs = done ++ fs' -> length mdone = length done ->
  Forall2 (field_typed ms le sizeof tcall fs kn) ms' fs' -> dec_at md acc st -> ds_fields st = done ++ (init_member <$> ms') ->
  blen (members_bits le bcall ms' fs' md acc) <= 8 * maxlen -> holds buf (8 * offset) (members_bits le bcall ms' fs' md acc) ->
  exists st', exec_dec ms le sizeof call buf offset maxlen (decode_body ms' md num) [] st = Some (inl st') /\ ds_fields st' = fs /\
    dec_at false (members_bits le bcall ms' fs' md acc) st'.
Proof.
  induction ms' as [|zm ms' IH]; intros fs' mdone done md num acc st Em Ef El F Ha EF Hm H; cbn [decode_body].
  - apply Forall2_nil_inv_l in F as ->. cbn [members_bits fmap list_fmap] in *. rewrite app_nil_r in *. destruct md; [|exists st; split; [done|split; [congruence|done]]].
    destruct (dec_end acc st [] Ha Hm) as (st'&E&EF'&H'). exists st'. split; [|split; [congruence|done]]. cbn [bit_end exec_dec] in *. by rewrite E.
  - apply Forall2_cons_inv_l in F as (x&fs1&Hx&F1&->). cbn [members_bits] in *.
    set (acc1 := if md && negb (is_bits zm) then pad acc else acc) in *.
    set (bs := dims_bits (elem_bits le bcall zm) (dimensions zm) x) in *.
    pose proof (members_bits_prefix le bcall ms' fs1 (is_bits zm) (acc1 ++ bs)) as [tail Mo].
    assert (blen (acc1 ++ bs) <= 8 * maxlen) as Hm1 by (rewrite Mo, length_app in Hm; lia).
    destruct (dec_border md num zm acc st Ha ltac:(fold acc1; rewrite length_app in Hm1; lia)) as (border&num'&st1&->&E1&EF1&H1). cbn [exec_dec]. rewrite E1.
    rewrite EF in EF1. cbn [fmap list_fmap] in EF1.
    assert (ms !! length done = Some zm) as Hk by (rewrite Em; apply list_lookup_middle; lia).
    destruct (dec_member (length done) zm x _ Hk ltac:(by apply list_lookup_middle)
      ltac:(intros j Hj; rewrite Ef, !lookup_app_l by lia; done) Hx acc1 st1 H1 EF1) as (st2&E2&EF2&H2);
      [done|rewrite Mo in H; by apply holds_app in H as [H _]|]. rewrite E2.
    apply (IH fs1 (mdone ++ [zm]) (done ++ [x])); [by rewrite <- app_assoc..| |done|done| |done|done].
    + rewrite !length_app. cbn [length]. lia.
    + rewrite EF2, insert_app_r_alt, Nat.sub_diag, <- app_assoc by lia. done.
Qed.
End Dec.

(** ** Structs *)

Lemma decode_struct_ok env le sizeof (Hsizeof : forall t, 0 < sizeof t) (Henv : env_ok env) fuel : forall name, isPrimitiveType name = false -> known env fuel name ->
  dec_fun_ok (typed env le sizeof fuel name) (struct_bits env le fuel name) (decode_struct_array env le sizeof fuel name).
Proof.
  induction fuel as [|fuel IH]; intros name Pr K buf off max vs B Ho Hb Hl Hv Hn Hm H; unfold known in K; rewrite Pr in K; [done|].
  destruct K as [zs Hz]. cbn [decode_struct_array]. rewrite Hz. pose proof (Henv name zs Hz) as Lo.
  set (bits := struct_bits env le (S fuel) name) in *. rewrite Nat2Z.id.
  edestruct (for_loop_inv (R := Z) (fun i '(done, pos, bit) => done = take i vs /\ dec_at false (all_bits bits (take i vs)) (mkDst [] pos bit))) as ([[done pos] bit]&->&->&H').
  3: { rewrite Nat.add_0_l, firstn_all in *. destruct H' as (Hp&E&_). cbn [ds_pos ds_bit] in *. exists pos. rewrite wraps_id by (unfold in_s; lia). split; [done|lia]. }
  { split; [done|]. done. }
  intros i [[done pos] bit] Hi [-> Ha]. destruct (lookup_lt_is_Some_2 vs i) as [v Hiv]; [lia|].
  eapply Forall_lookup_1 in Hv; [|exact Hiv]. destruct Hv as (zs'&fs&Hz'&->&F). rewrite Hz in Hz'. injection Hz' as <-.
  rewrite (all_bits_take_S _ _ _ _ Hiv). pose proof (all_bits_take bits vs (S i)) as T. rewrite (all_bits_take_S _ _ _ _ Hiv) in T.
  assert (holds buf (8 * off) (all_bits bits (take i vs) ++ bits (VStruct fs))) as Hh.
  { rewrite <- (all_bits_take_S _ _ _ _ Hiv). rewrite <- (take_drop (S i) vs), all_bits_app in H. by apply holds_app in H as [H _]. }
  assert (all_bits bits (take i vs) ++ bits (VStruct fs) =
    members_bits le (struct_bits env le fuel) (members zs) fs false (all_bits bits (take i vs) ++ [])) as Eb.
  { destruct Ha as (_&E&_). cbn iota in E. rewrite members_bits_app by (rewrite <- E, Z.add_0_r, Z.mul_comm; apply Z.mod_mul; lia).
    unfold bits at 2. cbn [struct_bits]. by rewrite Hz. }
  rewrite Eb, app_nil_r in T, Hh |- *.
  destruct (dec_members (members zs) le sizeof Hsizeof (decode_struct_array env le sizeof fuel) (typed env le sizeof fuel) (struct_bits env le fuel) fs buf off max Lo B Ho Hb Hl (known env fuel)
    ltac:(intros; by apply IH) (members zs) fs [] [] false 0 (all_bits bits (take i vs)) (mkDst (init_member <$> members zs) pos bit))
    as (st'&->&EF&Ha'); [done|done|done|exact F|exact Ha|done|lia|done|].
  eexists. split; [done|]. rewrite (take_S_r _ _ _ Hiv), EF. done.
Qed.
