(* ===== verification/CRound.v ===== *)
(** * Generated types round trip

    The function for the size, the three functions of a message with its hash, and
    what they mean for each other. *)
From S2P Require Import Prelude Bytes CoreTypes Bitfield Transport Url Gen CNum EmitC CCode CWire CEnc CDec.
Local Open Scope Z_scope.

(** ** Sizes *)

Definition size_fun_ok (ok : val -> Prop) (bits : val -> list bool) (f : list val -> Z -> option Z) : Prop :=
  forall vs, Forall ok vs -> blen vs < 2 ^ 31 -> blen (all_bits bits vs) <= 2 ^ 31 - 8 ->
    exists m, f vs (blen vs) = Some m /\ blen (all_bits bits vs) = 8 * m.

Lemma prim_size_ok le zm tcall bcall : is_bits zm = false -> isPrimitiveType (fullname (mtype zm)) = true ->
  size_fun_ok (elem_ok le tcall zm) (elem_bits le bcall zm) (prim_size le (fullname (mtype zm))).
Proof.
  intros Nb Pr vs Hv Hn Hm. unfold prim_size. rewrite take_vals_all.
  destruct (bool_decide (fullname (mtype zm) = str "string")) eqn:E; bool_prop.
  - destruct (prim_strings le zm Nb Pr tcall bcall vs E Hv) as (ss&->&_&->&Eb). rewrite Eb in *. rewrite length_bytes_bits in *.
    eexists. split; [done|]. pose proof (length_strings_bytes (word_codec le) int8_codec (word_codec_size le) eq_refl ss).
    rewrite (string_size_eq (word_codec le) int8_codec (word_codec_size le) eq_refl) by lia. done.
  - destruct (codec_total le _ Pr E) as [K HK]. rewrite HK. destruct (prim_numbers le zm Nb Pr tcall bcall vs K E HK Hv) as (zs&->&_&_&Eb).
    rewrite Eb in *. rewrite length_bytes_bits, length_encoding, length_fmap in *. eexists. split; [done|].
    unfold encoded_array_size. rewrite u32_id by lia. lia.
Qed.

Section Size.
Context (ms : list ZCMMember) (le : bool) (sizeof : cstr -> Z) (call : cstr -> list val -> Z -> option Z).
Context (tcall : cstr -> val -> Prop) (bcall : cstr -> val -> list bool) (fs : list val).
Hypothesis L : layout_ok ms.

(** In a run of bit fields their number is counted apart. *)
Definition size_at (mode : bool) (acc : list bool) (st : sst) : Prop :=
  0 <= ss_size st /\ 8 * ss_size st + (if mode then ss_numbits st else 0) = blen acc /\ (mode = true -> 0 <= ss_numbits st).

Notation size_step := (read_step (exec_size ms le call fs) size_at (2 ^ 31 - 8)).

Lemma size_elems zm idx vs : is_bits zm = false -> inner_ok ms le tcall fs zm idx vs ->
  (isPrimitiveType (fullname (mtype zm)) = false ->
    size_fun_ok (tcall (fullname (mtype zm))) (bcall (fullname (mtype zm))) (call (fullname (mtype zm)))) ->
  size_step false (CSize zm) idx (all_bits (elem_bits le bcall zm) vs).
Proof.
  intros Nb (Iv&Is&Hl&Fv) HC acc st (Hp&E&_) Hm. cbn iota in E. cbn [exec_size]. rewrite Iv, Is, (u32_id (blen vs)) by lia.
  assert (size_fun_ok (elem_ok le tcall zm) (elem_bits le bcall zm) (size_call le call zm)) as HF.
  { unfold size_call. destruct (isPrimitiveType _) eqn:Pr; [by apply prim_size_ok|]. intros l. unfold elem_ok, elem_bits. rewrite Nb, Pr. by apply HC. }
  rewrite length_app in Hm. destruct (HF vs Fv Hl ltac:(lia)) as (m&->&Em). rewrite u32_id by lia.
  eexists. split; [done|]. unfold size_at. cbn [ss_size ss_numbits]. rewrite length_app. split; [lia|]. split; [lia|done].
Qed.

Lemma size_bits k zm idx vs : ms !! k = Some zm -> is_bits zm = true -> inner_ok ms le tcall fs zm idx vs ->
  size_step true (CNumbits zm) idx (all_bits (elem_bits le bcall zm) vs).
Proof.
  intros Hk Hb (Iv&Is&Hl&Fv) acc st (Hp&E&Hq) Hm. specialize (Hq eq_refl). cbn iota in E. cbn [exec_size]. rewrite Is.
  destruct (lo_bits ms L k zm Hk Hb) as (t&Ht&F). pose proof F as [Hn _].
  destruct (bit_numbers le zm tcall bcall vs Hb Fv) as (zs&->&_&_&Eb). rewrite Eb, length_fmap in *.
  rewrite length_app, Nat2Z.inj_add, length_fields in Hm by lia. rewrite u32_id by lia.
  eexists. split; [done|]. unfold size_at. cbn [ss_size ss_numbits]. rewrite length_app, Nat2Z.inj_add, length_fields by lia.
  split; [lia|]. split; [lia|]. lia.
Qed.

Lemma size_end acc st idx : size_at true acc st -> blen (pad acc) <= 2 ^ 31 - 8 ->
  exists st', exec_size ms le call fs CNumbitsEnd idx st = Some (inl st') /\ size_at false (pad acc) st'.
Proof.
  intros (Hp&E&Hq) Hm. specialize (Hq eq_refl). cbn iota in E. cbn [exec_size]. rewrite length_pad in Hm. pose proof (up8_spec (blen acc)) as [U _].
  pose proof (bitfield_size (ss_numbits st) ltac:(lia)) as Sz. pose proof (up8_spec (ss_numbits st)) as [U' _].
  assert (up8 (blen acc) = 8 * ss_size st + up8 (ss_numbits st)) as Eu
    by (rewrite <- E; apply up8_aligned; rewrite Z.mul_comm; apply Z.mod_mul; lia).
  rewrite u32_id by lia. eexists. split; [done|]. unfold size_at. cbn [ss_size ss_numbits]. rewrite length_pad.
  split; [lia|]. split; [lia|done].
Qed.

Context (kn : cstr -> Prop).
Hypothesis Hcall : forall ty, isPrimitiveType ty = false -> kn ty -> size_fun_ok (tcall ty) (bcall ty) (call ty).

Lemma size_member k zm x : ms !! k = Some zm -> fs !! k = Some x -> field_typed ms le sizeof tcall fs kn zm x ->
  size_step (is_bits zm) (member_loops false zm (if negb (is_bits zm) then CSize zm else CNumbits zm)) []
    (dims_bits (elem_bits le bcall zm) (dimensions zm) x).
Proof.
  intros Hk Hx [Hkn Hv]. apply (read_member ms le sizeof tcall bcall fs L) with (k := k); try done. intros idx vs Hi.
  destruct (is_bits zm) eqn:Eb; cbn [negb]; [by eapply size_bits|]. apply size_elems; [done|done|]. intros Pr. by apply Hcall.
Qed.

Lemma size_members : forall ms' fs' k mode acc st, (forall j, ms !! (k + j)%nat = ms' !! j) -> (forall j, fs !! (k + j)%nat = fs' !! j) ->
  Forall2 (field_typed ms le sizeof tcall fs kn) ms' fs' -> size_at mode acc st -> blen (members_bits le bcall ms' fs' mode acc) <= 2 ^ 31 - 8 ->
  exists st', exec_size ms le call fs (size_body ms' mode) [] st = Some (inl st') /\ size_at false (members_bits le bcall ms' fs' mode acc) st'.
Proof.
  induction ms' as [|zm ms' IH]; intros fs' k mode acc st Em Ef F Ha Hm; cbn [size_body].
  - apply Forall2_nil_inv_l in F as ->. cbn [members_bits] in *. destruct mode; [by apply size_end|by exists st].
  - apply Forall2_cons_inv_l in F as (x&fs1&Hx&F1&->). cbn [members_bits] in *.
    set (acc1 := if mode && negb (is_bits zm) then pad acc else acc) in *.
    set (bs := dims_bits (elem_bits le bcall zm) (dimensions zm) x) in *.
    pose proof (members_bits_mono le bcall ms' fs1 (is_bits zm) (acc1 ++ bs)) as Mo. rewrite length_app in Mo.
    assert (exists border st1, (if mode && negb (is_bits zm) then (CSeq CNumbitsEnd blank, false)
        else if negb mode && is_bits zm then (CNumbitsZero, true) else (CNote [], mode)) = (border, is_bits zm) /\
      exec_size ms le call fs border [] st = Some (inl st1) /\ size_at (is_bits zm) acc1 st1) as (border&st1&->&E1&H1).
    { unfold acc1 in *. destruct mode, (is_bits zm) eqn:Eb; cbn [andb negb] in *; try by exists (CNote []), st.
      - destruct (size_end acc st [] Ha ltac:(lia)) as (st'&E&H'). cbn [exec_size] in E. injection E as <-. by eexists _, _.
      - eexists _, (mkSst (ss_size st) 0). split; [done|]. split; [done|]. destruct Ha as (Hp&E&_). cbn iota in E.
        split; [done|]. cbn [ss_size ss_numbits]. split; lia. }
    cbn [exec_size]. rewrite E1. pose proof (Em 0%nat) as Hk. pose proof (Ef 0%nat) as Hfk. rewrite Nat.add_0_r in Hk, Hfk.
    destruct (size_member k zm x Hk Hfk Hx acc1 st1 H1) as (st2&E2&H2); [fold bs; rewrite length_app; lia|]. rewrite E2.
    replace (exec_size ms le call fs (if negb (is_bits zm) then blank else CNote []) [] st2) with (@Some (sst + unit) (inl st2))
      by (by destruct (is_bits zm)).
    apply (IH fs1 (S k)); [|..|done|done|done].
    + intros j. specialize (Em (S j)). by rewrite Nat.add_succ_r in Em.
    + intros j. specialize (Ef (S j)). by rewrite Nat.add_succ_r in Ef.
Qed.
End Size.

(** ** The hash in front of a message *)

Lemma hash_bits h : blen (bytes_bits (int64_enc h)) = 64.
Proof. by rewrite length_bytes_bits. Qed.

Lemma hash_written h buf offset maxlen : bytes_ok buf -> 0 <= offset -> 8 <= maxlen -> offset + maxlen <= blen buf -> blen buf < 2 ^ 28 ->
  exists buf1, __int64_t_encode_array buf (u32 (offset + 0)) (u32 (maxlen - 0)) [h] 1 = Some (buf1, 8) /\
    writes buf buf1 (8 * offset) (bytes_bits (int64_enc h)).
Proof.
  intros B Ho Hm Hb Hl. exists (write_at buf (Z.to_nat offset) (int64_enc h)).
  pose proof (encode_array_ok int64_codec [h] buf offset maxlen Ho ltac:(cbn [size int64_codec length]; lia) Hb ltac:(lia)) as E8.
  change (blen [h]) with 1 in E8. change (Z.of_nat (size int64_codec * length [h])) with 8 in E8.
  rewrite Z.add_0_r, Z.sub_0_r, (u32_id offset), (u32_id maxlen) by lia. unfold __int64_t_encode_array. rewrite E8.
  assert (encoding int64_codec [h] = int64_enc h) as -> by (unfold encoding; cbn [fmap list_fmap concat]; apply app_nil_r). split; [done|].
  apply writes_bytes; [done|apply (enc_bytes (Codec := int64_codec))|done|cbn [int64_enc length]; lia].
Qed.

Lemma hash_read h buf offset maxlen : in_s 64 h -> bytes_ok buf -> 0 <= offset -> 8 <= maxlen -> offset + maxlen <= blen buf -> blen buf < 2 ^ 28 ->
  holds buf (8 * offset) (bytes_bits (int64_enc h)) -> __int64_t_decode_array buf (u32 (offset + 0)) (u32 (maxlen - 0)) 1 = Some ([h], 8).
Proof.
  intros Hh B Ho Hm Hb Hl H. assert (slice buf (Z.to_nat offset) 8 = encoding int64_codec [h]) as Sl.
  { unfold encoding. cbn [fmap list_fmap concat]. rewrite app_nil_r. apply (holds_slice buf (int64_enc h)); [done|apply (enc_bytes (Codec := int64_codec))|done| |done].
    change (blen (int64_enc h)) with 8. lia. }
  rewrite Z.add_0_r, Z.sub_0_r, (u32_id offset), (u32_id maxlen) by lia.
  exact (decode_array_ok int64_codec [h] buf offset maxlen Ho ltac:(cbn [size int64_codec length]; lia) Hb ltac:(lia) ltac:(by constructor) Sl).
Qed.

Lemma hash_and_struct h buf buf1 buf' offset bs : 0 <= offset -> writes buf buf1 (8 * offset) (bytes_bits (int64_enc h)) ->
  writes buf1 buf' (8 * (offset + 8)) bs -> writes buf buf' (8 * offset) (bytes_bits (int64_enc h) ++ bs).
Proof. intros Ho W1 W2. eapply writes_app; [lia|exact W1|]. rewrite hash_bits. by replace (8 * offset + 64) with (8 * (offset + 8)) by lia. Qed.

Section Structs.
Context (env : list ZCMStruct) (le : bool) (sizeof : cstr -> Z).
Hypothesis Hsizeof : forall t, 0 < sizeof t.
Hypothesis Henv : env_ok env.

Lemma struct_size_ok fuel : forall name, isPrimitiveType name = false -> known env fuel name ->
  size_fun_ok (typed env le sizeof fuel name) (struct_bits env le fuel name) (struct_array_size env le fuel name).
Proof.
  induction fuel as [|fuel IH]; intros name Pr K vs Hv Hn Hm; unfold known in K; rewrite Pr in K; [done|].
  destruct K as [zs Hz]. cbn [struct_array_size]. rewrite Hz, take_vals_all. pose proof (Henv name zs Hz) as Lo.
  set (bits := struct_bits env le (S fuel) name) in *.
  edestruct (for_loop_inv (R := unit) (fun i st => size_at false (all_bits bits (take i vs)) st)) as (st'&->&H').
  3: { rewrite Nat.add_0_l, firstn_all in H'. destruct H' as (Hp&E&_). cbn iota in E. eexists. split; [done|lia]. }
  { done. }
  intros i st Hi Ha. destruct (lookup_lt_is_Some_2 vs i) as [v Hiv]; [lia|]. rewrite Hiv.
  eapply Forall_lookup_1 in Hv; [|exact Hiv]. destruct Hv as (zs'&fs&Hz'&->&F). rewrite Hz in Hz'. injection Hz' as <-. cbn [fields_of].
  rewrite (all_bits_take_S _ _ _ _ Hiv). pose proof (all_bits_take bits vs (S i)) as T. rewrite (all_bits_take_S _ _ _ _ Hiv) in T.
  assert (all_bits bits (take i vs) ++ bits (VStruct fs) =
    members_bits le (struct_bits env le fuel) (members zs) fs false (all_bits bits (take i vs) ++ [])) as Eb.
  { destruct Ha as (_&E&_). cbn iota in E. rewrite members_bits_app by (rewrite <- E, Z.add_0_r, Z.mul_comm; apply Z.mod_mul; lia).
    unfold bits at 2. cbn [struct_bits]. by rewrite Hz. }
  rewrite Eb, app_nil_r in T |- *.
  eapply (size_members (members zs) le sizeof _ (typed env le sizeof fuel) (struct_bits env le fuel) fs Lo (known env fuel)
    ltac:(intros; by apply IH) (members zs) fs 0); [done|done|exact F|exact Ha|lia].
Qed.

(** ** Messages *)

(** The bits of a message: the hash of its type, then the struct. *)
Definition message_bits (fuel : nat) (name : cstr) (h : Z) (v : val) : list bool :=
  bytes_bits (int64_enc h) ++ struct_bits env le fuel name v.

Context (fuel : nat) (name : cstr) (h : Z) (v : val).
Hypothesis Hname : isPrimitiveType name = false.
Hypothesis Hhash : get_hash env name = Some h.
Hypothesis Hv : typed env le sizeof fuel name v.

Lemma typed_known : known env fuel name.
Proof. unfold known. rewrite Hname. destruct fuel; [done|]. destruct Hv as (zs&fs&Hz&_). by eexists. Qed.

Lemma hash_range : in_s 64 h.
Proof. unfold get_hash in Hhash. case_opt; [|done]. injection Hhash as <-. apply wraps_range. lia. Qed.

Lemma message_length : blen (message_bits fuel name h v) = 64 + blen (struct_bits env le fuel name v).
Proof. unfold message_bits. rewrite length_app, Nat2Z.inj_add, length_bytes_bits. done. Qed.

Lemma all_bits_one (bits : val -> list bool) : all_bits bits [v] = bits v.
Proof. unfold all_bits. cbn [fmap list_fmap concat]. apply app_nil_r. Qed.

Lemma encoded_size_ok : blen (message_bits fuel name h v) <= 2 ^ 31 - 8 ->
  exists n, encoded_size env le fuel name v = Some n /\ blen (message_bits fuel name h v) = 8 * n.
Proof.
  rewrite message_length. intros Hm. destruct (struct_size_ok fuel name Hname typed_known [v]) as (m&E&Em);
    [by constructor|done|rewrite all_bits_one; lia|]. unfold encoded_size. change (blen [v]) with 1 in E. rewrite E.
  rewrite all_bits_one in Em. rewrite u32_id by lia. eexists. split; [done|]. lia.
Qed.

Lemma encode_ok buf offset maxlen : bytes_ok buf -> 0 <= offset -> offset + maxlen <= blen buf -> blen buf < 2 ^ 28 ->
  blen (message_bits fuel name h v) <= 8 * maxlen ->
  exists buf' n, encode env le fuel name buf offset maxlen v = Some (buf', n) /\ blen (message_bits fuel name h v) = 8 * n /\
    writes buf buf' (8 * offset) (message_bits fuel name h v).
Proof.
  intros B Ho Hb Hl Hm. pose proof message_length as Ml. unfold encode. rewrite Hhash.
  destruct (hash_written h buf offset maxlen B Ho ltac:(lia) Hb Hl) as (buf1&->&W1). cbn [Z.ltb Z.compare]. change (u32 (0 + 8)) with 8. pose proof W1 as (B1&L1&_).
  destruct (encode_struct_ok env le sizeof Henv fuel name Hname typed_known buf1 (offset + 8) (maxlen - 8) [v])
    as (buf'&m&E&Em&W2); [done|lia|lia|lia|by constructor|done|rewrite all_bits_one; lia|]. change (blen [v]) with 1 in E.
  rewrite (u32_id (offset + 8)), (u32_id (maxlen - 8)), E by lia. rewrite all_bits_one in *. rewrite (proj2 (Z.ltb_ge _ _)) by lia.
  rewrite u32_id, wraps_id by (unfold in_s; lia). do 2 eexists. split; [done|]. split; [lia|]. by eapply hash_and_struct.
Qed.

Lemma decode_ok buf offset maxlen : bytes_ok buf -> 0 <= offset -> offset + maxlen <= blen buf -> blen buf < 2 ^ 28 ->
  blen (message_bits fuel name h v) <= 8 * maxlen -> holds buf (8 * offset) (message_bits fuel name h v) ->
  exists n, decode env le sizeof fuel name buf offset maxlen = Some (Some v, n) /\ blen (message_bits fuel name h v) = 8 * n.
Proof.
  intros B Ho Hb Hl Hm H. pose proof message_length as Ml. unfold decode. rewrite Hhash. apply holds_app in H as [H1 H2].
  rewrite (hash_read h buf offset maxlen hash_range B Ho ltac:(lia) Hb Hl H1). cbn [Z.ltb Z.compare]. change (u32 (0 + 8)) with 8.
  rewrite bool_decide_true by done. cbn [negb]. rewrite hash_bits in H2.
  destruct (decode_struct_ok env le sizeof Hsizeof Henv fuel name Hname typed_known buf (offset + 8) (maxlen - 8) [v])
    as (m&E&Em); [done|lia|lia|lia|by constructor|done|rewrite all_bits_one; lia|rewrite all_bits_one; by replace (8 * (offset + 8)) with (8 * offset + 64) by lia|].
  change (blen [v]) with 1 in E.
  rewrite (u32_id (offset + 8)), (u32_id (maxlen - 8)), E by lia. rewrite all_bits_one in *. rewrite (proj2 (Z.ltb_ge _ _)) by lia.
  rewrite u32_id, wraps_id by (unfold in_s; lia). eexists. split; [done|]. lia.
Qed.
End Structs.
