(* ===== verification/CMsg.v ===== *)
(** * Messages of parsed types

    The functions [ty_encode], [ty_decode] and [ty_encoded_size] that the emitter
    writes for the structs of the parser: they implement the wire format of [CWire],
    the hash that guards it is always found, and what they do with foreign bytes. *)
From S2P Require Import Prelude Bytes Tokenize CoreTypes Bitfield Transport Url Gen CNum GenParse GenProps EmitC CCode CWire CEnc CDec CRound.
Local Open Scope Z_scope.

(** ** The structs of the parser *)

Lemma fixed_point_type ty : isFixedPoint ty = true ->
  ty = str "byte" /\ itype_of ty = Some (mkIType 8 false) /\ getPrimitiveTypeNumBits ty = Some 8%nat \/
  exists w, ty <> str "byte" /\ itype_of ty = Some (mkIType (Z.of_nat w) true) /\ getPrimitiveTypeNumBits ty = Some w /\ (w <= 64)%nat.
Proof.
  intros H. unfold isFixedPoint, inArray, fixedPointTypes in H. bool_prop. cbn [fmap list_fmap] in H.
  apply elem_of_cons in H as [->|H]; [by left|right].
  apply elem_of_cons in H as [->|H]; [exists 8%nat; split; [done|split; [done|split; [done|lia]]]|].
  apply elem_of_cons in H as [->|H]; [exists 16%nat; split; [done|split; [done|split; [done|lia]]]|].
  apply elem_of_cons in H as [->|H]; [exists 32%nat; split; [done|split; [done|split; [done|lia]]]|].
  apply list_elem_of_singleton in H as ->. exists 64%nat; split; [done|split; [done|split; [done|lia]]].
Qed.

Lemma bits_field_ok ty n s : bits_ok ty n s -> n <> 0 -> exists t, itype_of ty = Some t /\ field_ok t s n.
Proof.
  intros [[? _]|(Fp&w&Hw&Hn&Hb&Hs)] N; [done|].
  destruct (fixed_point_type ty Fp) as [(Ht&Hi&Hw')|(w'&Ht&Hi&Hw'&Hle)]; rewrite Hw' in Hw; injection Hw as <-;
    eexists; (split; [exact Hi|]); unfold field_ok; cbn [iwidth isigned]; (split; [lia|]); (split; [lia|]); (split; [|done||auto]); [done|].
  intros _ E. destruct (decide (n = Z.of_nat w')) as [Ew|]; [rewrite Hs in E by done; done|lia].
Qed.

Lemma member_index_lookup ms k zm : NoDup (membername <$> ms) -> ms !! k = Some zm -> member_index ms (membername zm) = Some k.
Proof.
  intros N H. unfold member_index. destruct (list_find_elem_of (fun m => membername m = membername zm) ms zm) as [[j m] E];
    [by eapply list_elem_of_lookup_2|done|]. rewrite E. apply list_find_Some in E as (Hj&Hm&_). cbn. f_equal.
  eapply (NoDup_lookup (membername <$> ms)); [done| |]; rewrite list_lookup_fmap; [by rewrite Hj|rewrite H; cbn; by f_equal].
Qed.

(** What the parser guarantees of a struct is what the generated code needs. *)
Lemma struct_layout zs : struct_ok zs -> layout_ok (members zs).
Proof.
  intros [N _ M]. apply NoDup_app in N as [N _]. split.
  - intros k zm Hk. by apply member_index_lookup.
  - intros k zm d Hk Hd Hm. destruct (M k zm Hk) as (_&_&F). eapply Forall_forall in F; [|exact Hd]. unfold dim_ok in F. rewrite Hm in F.
    destruct F as (m&Hin&<-&Hdm). apply list_elem_of_lookup in Hin as [j Hj]. apply lookup_take_Some in Hj as [Hj Hlt].
    exists j, m. split; [by apply member_index_lookup|done].
  - intros k zm Hk Hb. destruct (M k zm Hk) as (_&B&_). unfold is_bits in Hb. bool_prop. by apply bits_field_ok in B.
Qed.

Lemma structs_env_ok env : Forall struct_ok env -> env_ok env.
Proof.
  intros F name zs Hz. unfold find_struct in Hz. destruct (list_find _ env) as [[i z]|] eqn:E; [|done]. injection Hz as ->.
  apply list_find_Some in E as (Hi&_). eapply Forall_lookup_1 in F; [|exact Hi]. by apply struct_layout.
Qed.

(** Every struct that the parser has built, with its own hash. *)
Lemma parsed_structs prefix th mh files r p : handleFiles prefix th mh files gen_create = Ok r p ->
  Forall (fun zs => struct_ok zs /\ is_Some (hash zs)) (structs p).
Proof.
  intros E. pose proof (handleFiles_spec prefix th mh files gen_create (gen_create_ok th mh)) as R.
  unfold runs in R. rewrite E in R. destruct R as [[F _] _]. eapply Forall_impl; [done|]. intros zs (?&_&h&->&_). by split.
Qed.

Lemma parsed_env_ok prefix th mh files r p : handleFiles prefix th mh files gen_create = Ok r p -> env_ok (structs p).
Proof. intros E. apply structs_env_ok. eapply Forall_impl; [by eapply parsed_structs|]. by intros zs [? _]. Qed.

(** ** The hash of a type *)

(** The types of the members are known. *)
Definition types_closed (env : list ZCMStruct) : Prop :=
  Forall (fun zs => Forall (fun zm => isPrimitiveType (fullname (mtype zm)) || bool_decide (is_Some (find_struct env (fullname (mtype zm)))) = true)
    (members zs)) env.

Lemma find_struct_Some env name zs : find_struct env name = Some zs -> zs ∈ env /\ fullname (structname zs) = name.
Proof.
  unfold find_struct. destruct (list_find _ env) as [[i z]|] eqn:E; [|done]. intros [= ->]. apply list_find_Some in E as (Hi&Hn&_).
  split; [by eapply list_elem_of_lookup_2|done].
Qed.

(** The recursion ends: the types on the way are different structs. *)
Lemma hash_recursive_total env (C : types_closed env) (H : Forall (fun zs => struct_ok zs /\ is_Some (hash zs)) env) fuel : forall parents name,
  isPrimitiveType name = true \/ is_Some (find_struct env name) -> NoDup parents ->
  parents ⊆ (fun zs => fullname (structname zs)) <$> env -> (length env < fuel + length parents)%nat ->
  is_Some (hash_recursive env fuel parents name).
Proof.
  induction fuel as [|fuel IH]; intros parents name Hn N S F.
  { pose proof (submseteq_length _ _ (NoDup_submseteq _ _ N S)) as Hl. rewrite length_fmap in Hl. lia. }
  cbn [hash_recursive]. destruct (isPrimitiveType name) eqn:Pr; [done|]. destruct (bool_decide (name ∈ parents)) eqn:Ep; bool_prop; [done|].
  destruct Hn as [?|[zs Hz]]; [done|]. rewrite Hz. destruct (find_struct_Some _ _ _ Hz) as [Hin Hname].
  eapply Forall_forall in C as Fm; [|exact Hin]. eapply Forall_forall in H as [_ [h ->]]; [|exact Hin].
  destruct (mapM_is_Some_2 (fun zm => hash_recursive env fuel (name :: parents) (fullname (mtype zm))) (members zs)) as [hs ->]; [|done].
  eapply Forall_impl; [exact Fm|]. intros zm Hzm. apply IH; [apply orb_true_iff in Hzm as [?|?]; [by left|right]; by bool_prop| | |cbn [length]; lia].
  - by constructor.
  - intros x Hx. apply elem_of_cons in Hx as [->|Hx]; [|by apply S]. apply list_elem_of_fmap. by exists zs.
Qed.

(** ** Properties *)

(** Bytes are equal where their bits are. *)
Lemma byte_bits_eq buf buf' (i : nat) : bytes_ok buf -> bytes_ok buf' -> length buf = length buf' ->
  (forall c, 0 <= c < 8 -> bit buf (8 * Z.of_nat i + c) = bit buf' (8 * Z.of_nat i + c)) -> buf !! i = buf' !! i.
Proof.
  intros B B' L F. destruct (decide (i < length buf)%nat) as [Hlt|]; [|by rewrite !lookup_ge_None_2 by lia].
  destruct (lookup_lt_is_Some_2 buf i Hlt) as [b Hb]. destruct (lookup_lt_is_Some_2 buf' i ltac:(lia)) as [b' Hb']. rewrite Hb, Hb'. f_equal.
  rewrite <- (Nat2Z.id i) in Hb, Hb'. pose proof (Forall_lookup_1 _ _ _ _ B Hb). pose proof (Forall_lookup_1 _ _ _ _ B' Hb').
  apply byte_ext; [done|done|]. intros c Hc. specialize (F (7 - c) ltac:(lia)).
  rewrite !bit_at in F by lia. unfold byte_at in F. rewrite Hb, Hb' in F. cbn [default from_option id] in F. by replace (7 - (7 - c)) with c in F by lia.
Qed.

Lemma writes_outside buf buf' k n bs : bytes_ok buf -> 0 <= k -> 0 <= n -> writes buf buf' (8 * k) bs -> blen bs = 8 * n ->
  forall i : nat, Z.of_nat i < k \/ k + n <= Z.of_nat i -> buf' !! i = buf !! i.
Proof.
  intros B Hk Hn (B'&L&F&_) E i Hi. apply byte_bits_eq; [done|done|done|]. intros c Hc.
  apply F. rewrite E. replace (8 * k + 8 * n) with (8 * (k + n)) by lia. pose proof (up8_space (8 * (k + n)) (k + n)). lia.
Qed.

(** Whoever writes a whole number of bytes leaves the same buffer. *)
Lemma writes_unique buf b1 b2 k n bs : bytes_ok buf -> 0 <= k -> 0 <= n -> blen bs = 8 * n ->
  writes buf b1 (8 * k) bs -> writes buf b2 (8 * k) bs -> b1 = b2.
Proof.
  intros B Hk Hn E W1 W2. pose proof W1 as (B1&L1&_&H1). pose proof W2 as (B2&L2&_&H2). apply list_eq. intros i.
  destruct (decide (Z.of_nat i < k \/ k + n <= Z.of_nat i)) as [Ho|Hi].
  - by rewrite (writes_outside buf b1 k n bs B Hk Hn W1 E i Ho), (writes_outside buf b2 k n bs B Hk Hn W2 E i Ho).
  - apply byte_bits_eq; [done|done|congruence|]. intros c Hc.
    destruct (lookup_lt_is_Some_2 bs (Z.to_nat (8 * Z.of_nat i + c - 8 * k))) as [b Hb]; [lia|].
    specialize (H1 _ _ Hb). specialize (H2 _ _ Hb). replace (8 * k + Z.of_nat (Z.to_nat (8 * Z.of_nat i + c - 8 * k))) with (8 * Z.of_nat i + c) in * by lia. congruence.
Qed.

(** C2: a message of any type that the parser accepts, with nested structs, arrays of
    constant and variable sizes, strings and bit fields, is encoded into exactly the
    number of bytes that [encoded_size] announces, no other byte of the buffer
    changes, and decoding these bytes gives the message back. *)
Theorem generated_roundtrip prefix th mh files r p le sizeof fuel name h v buf offset maxlen :
  handleFiles prefix th mh files gen_create = Ok r p -> (forall t, 0 < sizeof t) -> isPrimitiveType name = false ->
  get_hash (structs p) name = Some h -> typed (structs p) le sizeof fuel name v ->
  bytes_ok buf -> 0 <= offset -> offset + maxlen <= blen buf -> blen buf < 2 ^ 28 -> blen (message_bits (structs p) le fuel name h v) <= 8 * maxlen ->
  exists n buf', encoded_size (structs p) le fuel name v = Some n /\ encode (structs p) le fuel name buf offset maxlen v = Some (buf', n) /\
    decode (structs p) le sizeof fuel name buf' offset maxlen = Some (Some v, n) /\ length buf' = length buf /\
    (forall i : nat, Z.of_nat i < offset \/ offset + n <= Z.of_nat i -> buf' !! i = buf !! i).
Proof.
  intros HS Hz Hn Hh Hv B Ho Hb Hl Hm. pose proof (parsed_env_ok _ _ _ _ _ _ HS) as HE.
  destruct (encoded_size_ok (structs p) le sizeof HE fuel name h v Hn Hv) as (n&Es&En); [lia|].
  destruct (encode_ok (structs p) le sizeof HE fuel name h v Hn Hh Hv buf offset maxlen B Ho Hb Hl Hm) as (buf'&n'&Ee&En'&W).
  assert (n' = n) as -> by lia. pose proof W as (B'&L&_&H).
  destruct (decode_ok (structs p) le sizeof Hz HE fuel name h v Hn Hh Hv buf' offset maxlen B' Ho ltac:(lia) ltac:(lia) Hm H) as (n'&Ed&En'').
  assert (n' = n) as -> by lia. exists n, buf'. split; [done|]. split; [done|]. split; [done|]. split; [done|].
  by eapply (writes_outside buf buf' offset n); [done|done|lia|exact W|].
Qed.

(** C6: the generated encoder implements the wire format: it writes the bits of
    [message_bits], and every buffer with these bits, whatever is around them and
    whoever wrote them, is decoded to the message. *)
Theorem generated_wire_format prefix th mh files r p le sizeof fuel name h v buf offset maxlen :
  handleFiles prefix th mh files gen_create = Ok r p -> (forall t, 0 < sizeof t) -> isPrimitiveType name = false ->
  get_hash (structs p) name = Some h -> typed (structs p) le sizeof fuel name v ->
  bytes_ok buf -> 0 <= offset -> offset + maxlen <= blen buf -> blen buf < 2 ^ 28 -> blen (message_bits (structs p) le fuel name h v) <= 8 * maxlen ->
  (exists buf' n, encode (structs p) le fuel name buf offset maxlen v = Some (buf', n) /\
    writes buf buf' (8 * offset) (message_bits (structs p) le fuel name h v)) /\
  (holds buf (8 * offset) (message_bits (structs p) le fuel name h v) ->
    exists n, decode (structs p) le sizeof fuel name buf offset maxlen = Some (Some v, n) /\ blen (message_bits (structs p) le fuel name h v) = 8 * n).
Proof.
  intros HS Hz Hn Hh Hv B Ho Hb Hl Hm. pose proof (parsed_env_ok _ _ _ _ _ _ HS) as HE. split.
  - destruct (encode_ok (structs p) le sizeof HE fuel name h v Hn Hh Hv buf offset maxlen B Ho Hb Hl Hm) as (buf'&n&Ee&_&W). by exists buf', n.
  - by apply (decode_ok (structs p) le sizeof Hz HE fuel name h v Hn Hh Hv buf offset maxlen B Ho Hb Hl Hm).
Qed.

(** C7: what one program publishes another one receives: [ty_publish] hands the bytes
    of the message to the transport, as many as [ty_encoded_size] says, and
    [ty_handler_stub] calls the handler with the message when it is given these
    bytes, whatever was in the block that [malloc] returned. *)
Theorem published_message_received prefix th mh files r p le sizeof fuel name h v fresh :
  handleFiles prefix th mh files gen_create = Ok r p -> (forall t, 0 < sizeof t) -> isPrimitiveType name = false ->
  get_hash (structs p) name = Some h -> typed (structs p) le sizeof fuel name v ->
  (forall n, 0 <= n -> blen (fresh n) = n /\ bytes_ok (fresh n)) -> blen (message_bits (structs p) le fuel name h v) < 2 ^ 31 - 8 ->
  exists data, publish (structs p) le fuel name fresh v = Some (inr data) /\ encoded_size (structs p) le fuel name v = Some (blen data) /\
    handler_stub (structs p) le sizeof fuel name data = Some (Some v).
Proof.
  intros HS Hz Hn Hh Hv Hf Hm. pose proof (parsed_env_ok _ _ _ _ _ _ HS) as HE.
  destruct (encoded_size_ok (structs p) le sizeof HE fuel name h v Hn Hv) as (n&Es&En); [lia|]. destruct (Hf n ltac:(lia)) as [Lf Bf].
  destruct (encode_ok (structs p) le sizeof HE fuel name h v Hn Hh Hv (fresh n) 0 n Bf ltac:(lia) ltac:(lia) ltac:(lia) ltac:(lia)) as (buf'&n'&Ee&En'&W).
  assert (n' = n) as -> by lia. pose proof W as (B'&L&_&H).
  destruct (decode_ok (structs p) le sizeof Hz HE fuel name h v Hn Hh Hv buf' 0 n B' ltac:(lia) ltac:(lia) ltac:(lia) ltac:(lia) H) as (n'&Ed&En'').
  assert (n' = n) as -> by lia. exists buf'. unfold publish, handler_stub. assert (blen buf' = n) as Lb by lia.
  rewrite Es, Ee, Lb, Ed, !(proj2 (Z.ltb_ge _ _)) by lia. rewrite take_ge by lia. done.
Qed.

(** C39: computing the hash of a type ends: for every struct of a parsed program in which
    every type that a member refers to is declared, the recursion through the types of the
    members, which may refer to each other in cycles, is defined when it may nest once per
    struct and once more, and gives a number of 64 bits. *)
Theorem generated_hash_total prefix th mh files r p name :
  handleFiles prefix th mh files gen_create = Ok r p -> types_closed (structs p) -> is_Some (find_struct (structs p) name) ->
  exists h, get_hash (structs p) name = Some h /\ in_s 64 h.
Proof.
  intros HS C Hn. unfold get_hash. destruct (hash_recursive_total (structs p) C (parsed_structs _ _ _ _ _ _ HS) (S (length (structs p))) [] name) as [h ->];
    [by right|constructor|set_solver|simpl; lia|]. eexists. split; [done|]. apply wraps_range. lia.
Qed.

(** bytes that are not a message of the type are refused: with less than eight
    bytes, or with another hash in front, decoding returns -1 and stores nothing. *)
Theorem generated_decode_rejects env le sizeof fuel name h h' buf offset maxlen :
  get_hash env name = Some h -> bytes_ok buf -> 0 <= offset -> 0 <= maxlen -> offset + maxlen <= blen buf -> blen buf < 2 ^ 31 ->
  maxlen < 8 \/ (in_s 64 h' /\ h' <> h /\ slice buf (Z.to_nat offset) 8 = int64_enc h') ->
  decode env le sizeof fuel name buf offset maxlen = Some (None, -1).
Proof.
  intros Hh B Ho Hm Hb Hl H. unfold decode. rewrite Hh. rewrite Z.add_0_r, Z.sub_0_r, !(u32_id offset), !(u32_id maxlen) by lia.
  unfold __int64_t_decode_array. destruct (decide (maxlen < 8)).
  - unfold decode_array, encoded_array_size. change (u32 (Z.of_nat (size int64_codec) * 1)) with 8. by rewrite (proj2 (Z.ltb_lt _ _)) by lia.
  - destruct H as [?|(Hr&Hne&Sl)]; [lia|]. pose proof (decode_array_ok int64_codec [h'] buf offset maxlen Ho
      ltac:(cbn [size int64_codec length]; lia) Hb ltac:(lia) ltac:(by constructor)) as E8.
    change (blen [h']) with 1 in E8. rewrite E8 by (unfold encoding; cbn [fmap list_fmap concat]; by rewrite app_nil_r). change (Z.of_nat (size int64_codec * length [h'])) with 8.
    cbn [Z.ltb Z.compare]. by rewrite bool_decide_false by congruence.
Qed.

(** ** An example *)

(** Two files: a point with a label, and a path with pairs of points behind two bit
    fields. *)
Module Demo.
Definition toks (l : list string) : list token := (fun s => mkToken ZCM_TOK_OTHER (str s)) <$> l.
Definition files : list (cstr * list token) :=
  [(str "point.zcm", toks ["package"; "demo"; ";"; "struct"; "point"; "{"; "int16_t"; "x"; ";"; "string"; "label"; ";"; "}"]%string);
   (str "path.zcm", toks ["package"; "demo"; ";"; "struct"; "path"; "{"; "int32_t"; "n"; ";"; "int8_t"; ":"; "-3"; "a"; ";";
     "byte"; ":"; "6"; "b"; ";"; "point"; "pts"; "["; "n"; "]"; "["; "2"; "]"; ";"; "}"]%string)].
Definition parsed : parser := Eval vm_compute in match handleFiles [] false true files gen_create with Ok _ p => p | _ => gen_create end.
Definition path : cstr := str "demo.path".
Definition hash : Z := 2101636723360813354.
Definition sizeof (t : cstr) : Z := 8.
Definition v : val :=
  VStruct [VNum 1; VNum (-2); VNum 33;
           VArr [VArr [VStruct [VNum 5; VStr [104; 105]]; VStruct [VNum (-1); VStr []]]]].

Lemma files_parsed : handleFiles [] false true files gen_create = Ok 0 parsed.
Proof. vm_compute. reflexivity. Qed.

Lemma path_hash : get_hash (structs parsed) path = Some hash.
Proof. vm_compute. reflexivity. Qed.

Lemma point_typed x s : in_s 16 x -> Forall (in_s 8) s -> 0 ∉ s ->
  typed (structs parsed) false sizeof 1 (str "demo.point") (VStruct [VNum x; VStr s]).
Proof.
  intros Hx Hs H0. do 2 eexists. split; [reflexivity|]. split; [reflexivity|].
  constructor; [|constructor; [|constructor]]; (split; [done|]); [exists x, int16_codec|exists s]; done.
Qed.

Lemma v_typed : typed (structs parsed) false sizeof 2 path v.
Proof.
  do 2 eexists. split; [reflexivity|]. split; [reflexivity|].
  repeat (apply Forall2_cons; split; [split; [first [done|by apply (bool_decide_unpack _)]|]|]); [..|apply Forall2_nil; done].
  - exists 1, int32_codec. split; [done|]. split; [reflexivity|]. cbn. unfold in_s. lia.
  - exists (-2). done.
  - exists 33. done.
  - eexists. split; [reflexivity|]. split; [reflexivity|]. split; [done|]. constructor; [|constructor].
    eexists. split; [reflexivity|]. split; [reflexivity|]. split; [done|].
    constructor; [|constructor; [|constructor]]; apply point_typed; unfold in_s; first [lia|set_solver|repeat constructor; unfold in_s; lia].
Qed.
End Demo.

Lemma generated_roundtrip_witness : exists n buf',
  encoded_size (structs Demo.parsed) false 2 Demo.path Demo.v = Some n /\
  encode (structs Demo.parsed) false 2 Demo.path (replicate 40 7) 1 35 Demo.v = Some (buf', n) /\
  decode (structs Demo.parsed) false Demo.sizeof 2 Demo.path buf' 1 35 = Some (Some Demo.v, n) /\ length buf' = 40%nat /\
  (forall i : nat, Z.of_nat i < 1 \/ 1 + n <= Z.of_nat i -> buf' !! i = replicate 40 7 !! i).
Proof.
  apply (generated_roundtrip [] false true Demo.files 0 Demo.parsed false Demo.sizeof 2 Demo.path Demo.hash Demo.v (replicate 40 7) 1 35
    Demo.files_parsed ltac:(done) eq_refl Demo.path_hash Demo.v_typed); [|vm_compute; congruence..].
  apply Forall_replicate. unfold in_u. lia.
Defined.

Lemma generated_wire_format_witness :
  (exists buf' n, encode (structs Demo.parsed) false 2 Demo.path (replicate 40 7) 1 35 Demo.v = Some (buf', n) /\
    writes (replicate 40 7) buf' (8 * 1) (message_bits (structs Demo.parsed) false 2 Demo.path Demo.hash Demo.v)) /\
  (holds (replicate 40 7) (8 * 1) (message_bits (structs Demo.parsed) false 2 Demo.path Demo.hash Demo.v) ->
    exists n, decode (structs Demo.parsed) false Demo.sizeof 2 Demo.path (replicate 40 7) 1 35 = Some (Some Demo.v, n) /\
      blen (message_bits (structs Demo.parsed) false 2 Demo.path Demo.hash Demo.v) = 8 * n).
Proof.
  apply (generated_wire_format [] false true Demo.files 0 Demo.parsed false Demo.sizeof 2 Demo.path Demo.hash Demo.v (replicate 40 7) 1 35
    Demo.files_parsed ltac:(done) eq_refl Demo.path_hash Demo.v_typed); [|vm_compute; congruence..].
  apply Forall_replicate. unfold in_u. lia.
Defined.

Lemma published_message_received_witness : exists data,
  publish (structs Demo.parsed) false 2 Demo.path (fun n => replicate (Z.to_nat n) 205) Demo.v = Some (inr data) /\
  encoded_size (structs Demo.parsed) false 2 Demo.path Demo.v = Some (blen data) /\
  handler_stub (structs Demo.parsed) false Demo.sizeof 2 Demo.path data = Some (Some Demo.v).
Proof.
  apply (published_message_received [] false true Demo.files 0 Demo.parsed false Demo.sizeof 2 Demo.path Demo.hash Demo.v
    (fun n => replicate (Z.to_nat n) 205) Demo.files_parsed ltac:(done) eq_refl Demo.path_hash Demo.v_typed); [|vm_compute; congruence].
  intros n Hn. rewrite length_replicate. split; [lia|]. apply Forall_replicate. unfold in_u. lia.
Defined.

Lemma generated_hash_total_witness : exists h, get_hash (structs Demo.parsed) Demo.path = Some h /\ in_s 64 h.
Proof.
  apply (generated_hash_total [] false true Demo.files 0 Demo.parsed Demo.path Demo.files_parsed); [|by apply (bool_decide_unpack _)].
  apply (bool_decide_unpack _). vm_compute. done.
Defined.

Lemma generated_decode_rejects_witness :
  decode (structs Demo.parsed) false Demo.sizeof 2 Demo.path [0; 0; 0; 0; 0; 0; 0; 9; 1; 2] 0 10 = Some (None, -1).
Proof.
  apply (generated_decode_rejects (structs Demo.parsed) false Demo.sizeof 2 Demo.path Demo.hash 9 [0; 0; 0; 0; 0; 0; 0; 9; 1; 2] 0 10 Demo.path_hash);
    [repeat constructor; unfold in_u; lia|vm_compute; congruence..|]. right. split; [unfold in_s; lia|]. split; [done|reflexivity].
Defined.

(** ** Allocations *)

(** A grid of bytes, and its sizes on a machine with pointers of eight bytes. *)
Module Grid.
Definition files : list (cstr * list token) :=
  [(str "grid.zcm", Demo.toks ["struct"; "grid"; "{"; "int32_t"; "n"; ";"; "int32_t"; "m"; ";";
     "byte"; "data"; "["; "n"; "]"; "["; "m"; "]"; ";"; "}"]%string)].
Definition parsed : parser := Eval vm_compute in match handleFiles [] false true files gen_create with Ok _ p => p | _ => gen_create end.
Definition grid : cstr := str "grid".
Definition hash : Z := Eval vm_compute in default 0 (get_hash (structs parsed) grid).
Definition sizeof (t : cstr) : Z := if bool_decide (ch "*" ∈ t) then 8 else 1.
End Grid.

(** A message of 16 bytes with a grid of 2^29 + 1 empty rows has no defined
    decoding: [zcm_malloc] receives the size of the row pointers modulo 2^32, which
    is 8, and the decoder stores the pointer of the second row behind the end of
    the block.  With one row the message is decoded. *)
Theorem generated_malloc_overflow :
  decode (structs Grid.parsed) false Grid.sizeof 1 Grid.grid (int64_enc Grid.hash ++ int32_enc (2 ^ 29 + 1) ++ int32_enc 0) 0 16 = None /\
  decode (structs Grid.parsed) false Grid.sizeof 1 Grid.grid (int64_enc Grid.hash ++ int32_enc 1 ++ int32_enc 0) 0 16 =
    Some (Some (VStruct [VNum 1; VNum 0; VArr [VArr []]]), 16) /\
  malloc_elems Grid.sizeof (str "uint8_t*") (2 ^ 29 + 1) = 1%nat.
Proof. split; [lazy; reflexivity|split; vm_compute; reflexivity]. Qed.
