(* ===== verification/EmitCpp.v ===== *)
(** * The C++ emitter (gen/emit/EmitCpp.cpp)

    The text of the header that the generator writes for a struct, over the
    formatted output and the names of [EmitC]. *)
From S2P Require Import Prelude Bytes Transport Url Gen CNum EmitC.
Local Open Scope Z_scope.

(** The options of the emitter. *)
Record cppopts := mkCppOpts {
  cpp_hpath : cstr;
  cpp_include : cstr;
  cpp_virtual_destructor : bool;
  cpp_std_array : bool;
  cpp_coretypes_from_local : bool;
  cpp_little_endian : bool
}.

(** ** Names *)

Fixpoint dotsToDoubleColons (s : cstr) : cstr :=
  match s with
  | [] => []
  | c :: s => (if c =? ch "." then str "::" else [c]) ++ dotsToDoubleColons s
  end.

(** Whether [strtol] reads all of it: [*eptr == '\0']. *)
Definition isDimSizeFixed (dimSize : cstr) : bool :=
  match read_number 0 dimSize with
  | Some (_, _, rest) => bool_decide (rest = [])
  | None => bool_decide (dimSize = [])
  end.
Definition dimSizePrefix (dimSize : cstr) : cstr := if isDimSizeFixed dimSize then [] else str "this->".
Definition dimSizeAccessor (dimSize : cstr) : cstr := dimSizePrefix dimSize ++ dimSize.

Definition mapTypeNameCpp (t : cstr) : cstr :=
  if bool_decide (t = str "boolean") then str "int8_t"
  else if bool_decide (t = str "string") then str "std::string"
  else if bool_decide (t = str "byte") then str "uint8_t"
  else dotsToDoubleColons t.

(** [%-11s] *)
Definition pad11 (s : cstr) : cstr := s ++ spaces (11 - length s).

Definition hasConstantSizeArray (m : ZCMMember) : bool :=
  bool_decide (dimensions m = []) ||
  existsb (fun d => match mode d with ZCM_CONST => true | ZCM_VAR => false end) (dimensions m).

Definition is_string (zm : ZCMMember) : bool := bool_decide (fullname (mtype zm) = str "string").

(** A primitive type other than string. *)
Definition is_number (zm : ZCMMember) : bool := isPrimitiveType (fullname (mtype zm)) && negb (is_string zm).

(** [[a0][a1]...] *)
Definition indices (depth : nat) : cstr := concat ((fun i => emitContinue "[a%s]" [ndec i]) <$> seq 0 depth).

Section Struct.
Context (o : cppopts) (zs : ZCMStruct).
Let sn : cstr := shortname (structname zs).
Let le_ : cstr := if cpp_little_endian o then str "little_endian_" else [].
Let endian : cstr := if cpp_little_endian o then str "1" else str "0".

(** ** The class *)

Definition emitAutoGeneratedWarningCpp : cstr :=
  emit 0 "/** THIS IS AN AUTOMATICALLY GENERATED FILE." [] ++
  emit 0 " *  DO NOT MODIFY BY HAND!!" [] ++
  emit 0 " *" [] ++
  emit 0 " *  Generated by zcm-gen" [] ++
  emit 0 " **/" [] ++
  emit 0 "" [].

(** The parts of the name but the last. *)
Definition namespaces : list cstr :=
  let l := split (fullname (structname zs)) (ch ".") in take (length l - 1) l.

Definition emitPackageNamespaceStart : cstr := concat ((fun ns => emit 0 "namespace %s {" [ns]) <$> namespaces).
Definition emitPackageNamespaceClose : cstr := concat ((fun _ => emit 0 "}
" []) <$> namespaces).

(** The standard headers, each at the first member that needs it. *)
Fixpoint std_includes (ms : list ZCMMember) (array vector string : bool) : cstr :=
  match ms with
  | [] => []
  | zm :: ms =>
      let a := negb array && cpp_std_array o && negb (bool_decide (dimensions zm = [])) && hasConstantSizeArray zm in
      let v := negb vector && negb (bool_decide (dimensions zm = [])) && negb (isConstantSizeArray zm) in
      let s := negb string && is_string zm in
      (if a then emit 0 "#include <array>" [] else []) ++
      (if v then emit 0 "#include <vector>" [] else []) ++
      (if s then emit 0 "#include <string>" [] else []) ++
      std_includes ms (array || a) (vector || v) (string || s)
  end.

Definition emit_include_cpp (zm : ZCMMember) : cstr :=
  if negb (isPrimitiveType (fullname (mtype zm))) && negb (bool_decide (fullname (mtype zm) = fullname (structname zs))) then
    emit 0 "#include `%s%s%s.hpp`" (with_slash (cpp_include o) ++ [dotsToSlashes (fullname (mtype zm))])
  else [].

(** A dimension as a std::array. *)
Definition std_array_dim (zd : ZCMDimension) : bool := match mode zd with ZCM_CONST => cpp_std_array o | ZCM_VAR => false end.

Definition emit_data_member (zm : ZCMMember) : cstr :=
  emitComment 2 (mcomment zm) ++
  (if bool_decide (dimensions zm = []) then
     emit 2 "%s %s;" [pad10 (mapTypeNameCpp (fullname (mtype zm))); membername zm]
   else if isConstantSizeArray zm && negb (cpp_std_array o) then
     emitStart 2 "%s %s" [pad10 (mapTypeNameCpp (fullname (mtype zm))); membername zm] ++
     concat ((fun zd => emitContinue "[%s]" [dsize zd]) <$> dimensions zm) ++
     emitEnd ";" []
   else
     emitStart 2 "" [] ++
     concat ((fun zd => if std_array_dim zd then emitContinue "std::array< " [] else emitContinue "std::vector< " []) <$> dimensions zm) ++
     emitContinue "%s" [mapTypeNameCpp (fullname (mtype zm))] ++
     concat ((fun zd => (if std_array_dim zd then emitContinue ", %s" [dsize zd] else []) ++ emitContinue " >" []) <$> reverse (dimensions zm)) ++
     emitEnd " %s;" [membername zm]) ++
  emit 0 "" [].

Definition suffix (zc : ZCMConstant) : cstr := if bool_decide (ctype zc = str "int64_t") then str "LL" else [].

Definition emit_constexpr (zc : ZCMConstant) : cstr :=
  emitComment 2 (ccomment zc) ++
  emit 2 "static constexpr %s %s = %s%s;"
    [pad11 (if bool_decide (ctype zc = str "string") then str "const char*" else mapTypeNameCpp (ctype zc)); cname zc; valstr zc; suffix zc].

Definition emit_const (zc : ZCMConstant) : cstr :=
  if bool_decide (ctype zc = str "string") then
    emit 2 "static const     %s %s() { return %s%s; }" [pad11 (str "char*"); cname zc; valstr zc; suffix zc]
  else emit 2 "static const     %s %s = %s%s;" [pad11 (mapTypeNameCpp (ctype zc)); cname zc; valstr zc; suffix zc].

Definition emit_constants : cstr :=
  if bool_decide (constants zs = []) then [] else
  emit 1 "public:" [] ++
  emit 2 "#if __cplusplus > 199711L /* if c++11 */" [] ++
  emit 2 "static constexpr %s IS_LITTLE_ENDIAN = %s;" [pad11 (str "int8_t"); endian] ++
  concat (emit_constexpr <$> constants zs) ++
  emit 2 "#else" [] ++
  emit 2 "static const     %s IS_LITTLE_ENDIAN = %s;" [pad11 (str "int8_t"); endian] ++
  concat (emit_const <$> constants zs) ++
  emit 2 "#endif" [] ++
  emit 0 "" [].

Definition emit_methods : cstr :=
  emit 1 "public:" [] ++
  (if cpp_virtual_destructor o then
     emit 2 "/**" [] ++
     emit 2 " * Destructs a message properly if anything inherits from it" [] ++
     emit 2 "*/" [] ++
     emit 2 "virtual ~%s() {}" [sn] ++
     emit 0 "" []
   else []) ++
  emit 2 "/**" [] ++
  emit 2 " * Encode a message into binary form." [] ++
  emit 2 " *" [] ++
  emit 2 " * @param buf The output buffer." [] ++
  emit 2 " * @param offset Encoding starts at thie byte offset into @p buf." [] ++
  emit 2 " * @param maxlen Maximum number of bytes to write.  This should generally be" [] ++
  emit 2 " *  equal to getEncodedSize()." [] ++
  emit 2 " * @return The number of bytes encoded, or <0 on error." [] ++
  emit 2 " */" [] ++
  emit 2 "inline int encode(void* buf, uint32_t offset, uint32_t maxlen) const;" [] ++
  emit 0 "" [] ++
  emit 2 "/**" [] ++
  emit 2 " * Check how many bytes are required to encode this message." [] ++
  emit 2 " */" [] ++
  emit 2 "inline uint32_t getEncodedSize() const;" [] ++
  emit 0 "" [] ++
  emit 2 "/**" [] ++
  emit 2 " * Decode a message from binary form into this instance." [] ++
  emit 2 " *" [] ++
  emit 2 " * @param buf The buffer containing the encoded message." [] ++
  emit 2 " * @param offset The byte offset into @p buf where the encoded message starts." [] ++
  emit 2 " * @param maxlen The maximum number of bytes to read while decoding." [] ++
  emit 2 " * @return The number of bytes decoded, or <0 if an error occured." [] ++
  emit 2 " */" [] ++
  emit 2 "inline int decode(const void* buf, uint32_t offset, uint32_t maxlen);" [] ++
  emit 0 "" [] ++
  emit 2 "/**" [] ++
  emit 2 " * Retrieve the 64-bit fingerprint identifying the structure of the message." [] ++
  emit 2 " * Note that the fingerprint is the same for all instances of the same" [] ++
  emit 2 " * message type, and is a fingerprint on the message type definition, not on" [] ++
  emit 2 " * the message contents." [] ++
  emit 2 " */" [] ++
  emit 2 "inline static int64_t getHash();" [] ++
  emit 0 "" [] ++
  emit 2 "/**" [] ++
  emit 2 " * Returns `%s`" [sn] ++
  emit 2 " */" [] ++
  emit 2 "inline static const char* getTypeName();" [] ++
  emit 0 "" [] ++
  emit 2 "// ZCM support functions. Users should not call these" [] ++
  emit 2 "inline int      _encodeNoHash(void* buf, uint32_t offset, uint32_t maxlen) const;" [] ++
  emit 2 "inline uint32_t _getEncodedSizeNoHash() const;" [] ++
  emit 2 "inline int      _decodeNoHash(const void* buf, uint32_t offset, uint32_t maxlen);" [] ++
  emit 2 "inline static uint64_t _computeHash(const __zcm_hash_ptr* p);" [] ++
  emit 0 "};" [] ++
  emit 0 "" [].

Definition emitHeaderStart : cstr :=
  let tn_ := dotsToUnderscores (fullname (structname zs)) in
  emitAutoGeneratedWarningCpp ++
  (if cpp_coretypes_from_local o then emit 0 "#include `zcm/zcm_coretypes.h`" [] else emit 0 "#include <zcm/zcm_coretypes.h>" []) ++
  emit 0 "" [] ++
  emit 0 "#ifndef __%s_hpp__" [tn_] ++
  emit 0 "#define __%s_hpp__" [tn_] ++
  emit 0 "" [] ++
  std_includes (members zs) false false false ++
  concat (emit_include_cpp <$> members zs) ++
  emit 0 "
" [] ++
  emitPackageNamespaceStart ++
  emitComment 0 (scomment zs) ++
  emit 0 "class %s" [sn] ++
  emit 0 "{" [] ++
  (if bool_decide (members zs = []) then [] else emit 1 "public:" [] ++ concat (emit_data_member <$> members zs)) ++
  emit_constants ++
  emit_methods.

Definition emitHeaderEnd : cstr := emitPackageNamespaceClose ++ emit 0 "#endif" [].

(** ** The methods with the hash *)

Definition emitEncode : cstr :=
  emit 0 "int %s::encode(void* buf, uint32_t offset, uint32_t maxlen) const" [sn] ++
  emit 0 "{" [] ++
  emit 1 "uint32_t pos = 0;" [] ++
  emit 1 "int thislen;" [] ++
  emit 1 "int64_t hash = (int64_t)getHash();" [] ++
  emit 0 "" [] ++
  emit 1 "thislen = __int64_t_encode_array(buf, offset + pos, maxlen - pos, &hash, 1);" [] ++
  emit 1 "if(thislen < 0) return thislen; else pos += thislen;" [] ++
  emit 0 "" [] ++
  emit 1 "thislen = this->_encodeNoHash(buf, offset + pos, maxlen - pos);" [] ++
  emit 1 "if (thislen < 0) return thislen; else pos += thislen;" [] ++
  emit 0 "" [] ++
  emit 1 "return pos;" [] ++
  emit 0 "}" [] ++
  emit 0 "" [].

Definition emitEncodedSize : cstr :=
  emit 0 "uint32_t %s::getEncodedSize() const" [sn] ++
  emit 0 "{" [] ++
  emit 1 "return 8 + _getEncodedSizeNoHash();" [] ++
  emit 0 "}" [] ++
  emit 0 "" [].

Definition emitDecode : cstr :=
  emit 0 "int %s::decode(const void* buf, uint32_t offset, uint32_t maxlen)" [sn] ++
  emit 0 "{" [] ++
  emit 1 "uint32_t pos = 0;" [] ++
  emit 1 "int thislen;" [] ++
  emit 0 "" [] ++
  emit 1 "int64_t msg_hash;" [] ++
  emit 1 "thislen = __int64_t_decode_array(buf, offset + pos, maxlen - pos, &msg_hash, 1);" [] ++
  emit 1 "if (thislen < 0) return thislen; else pos += thislen;" [] ++
  emit 1 "if (msg_hash != getHash()) return -1;" [] ++
  emit 0 "" [] ++
  emit 1 "thislen = this->_decodeNoHash(buf, offset + pos, maxlen - pos);" [] ++
  emit 1 "if (thislen < 0) return thislen; else pos += thislen;" [] ++
  emit 0 "" [] ++
  emit 1 "return pos;" [] ++
  emit 0 "}" [] ++
  emit 0 "" [].

Definition emitGetHash : cstr :=
  emit 0 "int64_t %s::getHash()" [sn] ++
  emit 0 "{" [] ++
  emit 1 "static int64_t hash = (int64_t)_computeHash(NULL);" [] ++
  emit 1 "return hash;" [] ++
  emit 0 "}" [] ++
  emit 0 "" [].

Definition emitGetTypeName : cstr :=
  emit 0 "const char* %s::getTypeName()" [sn] ++
  emit 0 "{" [] ++
  emit 1 "return `%s`;" [sn] ++
  emit 0 "}" [] ++
  emit 0 "" [].

(** The members whose type is a struct. *)
Definition complex_members : list ZCMMember := filter (fun zm => isPrimitiveType (fullname (mtype zm)) = false) (members zs).

Definition emitComputeHash : cstr :=
  let h := show_hex 16 (default 0 (hash zs)) in
  let n := length complex_members in
  emit 0 "#if defined(__clang__)" [] ++
  emit 0 "__attribute__((no_sanitize(`integer`)))" [] ++
  emit 0 "#endif" [] ++
  (if bool_decide (complex_members = []) then
     emit 0 "uint64_t %s::_computeHash(const __zcm_hash_ptr*)" [sn] ++
     emit 0 "{" [] ++
     emit 1 "uint64_t hash = (uint64_t)0x%sLL;" [h]
   else
     emit 0 "uint64_t %s::_computeHash(const __zcm_hash_ptr* p)" [sn] ++
     emit 0 "{" [] ++
     emit 1 "const __zcm_hash_ptr* fp;" [] ++
     emit 1 "for(fp = p; fp != NULL; fp = fp->parent)" [] ++
     emit 2 "if(fp->v == %s::getHash)" [sn] ++
     emit 3 "return 0;" [] ++
     emit 1 "const __zcm_hash_ptr cp = { p, (void*)%s::getHash };" [sn] ++
     emit 0 "" [] ++
     emit 1 "uint64_t hash = (uint64_t)0x%sLL +" [h] ++
     concat (imap (fun i zm => emit 2 " %s::_computeHash(&cp)%s"
       [dotsToDoubleColons (fullname (mtype zm)); if (S i =? n)%nat then str ";" else str " +"]) complex_members) ++
     emit 0 "" []) ++
  emit 1 "return (hash<<1) + ((hash>>63)&1);" [] ++
  emit 0 "}" [] ++
  emit 0 "" [].

(** ** The methods without the hash *)

(** The size of a dimension as it is written. *)
Definition dim_text (zm : ZCMMember) (d : nat) : cstr := match dimensions zm !! d with Some zd => dsize zd | None => [] end.
Definition dim_access (zm : ZCMMember) (d : nat) : cstr := dimSizeAccessor (dim_text zm d).
Definition dim_var (zm : ZCMMember) (d : nat) : bool :=
  match dimensions zm !! d with Some zd => match mode zd with ZCM_VAR => true | ZCM_CONST => false end | None => false end.

(** [n] dimensions follow. *)
Fixpoint encodeRecursive (zm : ZCMMember) (n depth extraIndent : nat) : cstr :=
  let mtn := fullname (mtype zm) in
  let mn := membername zm in
  let indent := (extraIndent + 1 + depth)%nat in
  if (n =? 1)%nat && is_number zm then
    if numbits (mtype zm) =? 0 then
      emitStart indent "thislen = __%s_encode_%sarray(buf, offset + pos_byte, maxlen - pos_byte, &this->%s" [mtn; le_; mn] ++
      indices depth ++
      emitEnd "[0], %s);" [dim_access zm depth] ++
      emit indent "if(thislen < 0) return thislen; else pos_byte += thislen;" []
    else
      emitStart indent "thislen = __%s_encode_array_bits(buf, offset + pos_byte, pos_bit, maxlen - pos_byte, &this->%s" [mtn; mn] ++
      indices depth ++
      emitEnd "[0], %s, %s);" [dim_access zm depth; dec (numbits (mtype zm))] ++
      emit indent "if (thislen < 0) return thislen;" [] ++
      emit indent "__bitfield_advance_offset(&pos_byte, &pos_bit, thislen);" []
  else
  match n with
  | O =>
      (if is_string zm then
         emitStart indent "char* __cstr = (char*) this->%s" [mn] ++
         indices depth ++
         emitEnd ".c_str();" [] ++
         emit indent "thislen = __string_encode_%sarray(buf, offset + pos_byte, maxlen - pos_byte, &__cstr, 1);" [le_]
       else
         emitStart indent "thislen = this->%s" [mn] ++
         indices depth ++
         emitEnd "._encodeNoHash(buf, offset + pos_byte, maxlen - pos_byte);" []) ++
      emit indent "if(thislen < 0) return thislen; else pos_byte += thislen;" []
  | S n =>
      emit indent "for (int a%s = 0; a%s < %s; ++a%s) {" [ndec depth; ndec depth; dim_access zm depth; ndec depth] ++
      encodeRecursive zm n (S depth) extraIndent ++
      emit indent "}" []
  end.

Definition emit_encode_scalar (zm : ZCMMember) (inBitMode : bool) : cstr :=
  let mtn := fullname (mtype zm) in
  let mn := membername zm in
  if isPrimitiveType mtn then
    if is_string zm then
      emit 1 "char* %s_cstr = (char*) this->%s.c_str();" [mn; mn] ++
      emit 1 "thislen = __string_encode_%sarray(buf, offset + pos_byte, maxlen - pos_byte, &%s_cstr, 1);" [le_; mn] ++
      emit 1 "if(thislen < 0) return thislen; else pos_byte += thislen;" []
    else if negb inBitMode then
      emit 1 "thislen = __%s_encode_%sarray(buf, offset + pos_byte, maxlen - pos_byte, &this->%s, 1);" [mtn; le_; mn] ++
      emit 1 "if(thislen < 0) return thislen; else pos_byte += thislen;" []
    else
      emit 1 "thislen = __%s_encode_array_bits(buf, offset + pos_byte, pos_bit, maxlen - pos_byte, &this->%s, 1, %s);"
        [nameUnderscore (mtype zm); mn; dec (numbits (mtype zm))] ++
      emit 1 "if (thislen < 0) return thislen;" [] ++
      emit 1 "__bitfield_advance_offset(&pos_byte, &pos_bit, thislen);" []
  else encodeRecursive zm 0 0 0.

(** Numbers in an array whose last dimension varies are skipped when it is zero. *)
Definition guarded (zm : ZCMMember) : bool := is_number zm && negb (isDimSizeFixed (dim_text zm (inner zm))).

Definition emit_encode_member (zm : ZCMMember) (inBitMode : bool) : cstr :=
  if bool_decide (dimensions zm = []) then emit_encode_scalar zm inBitMode
  else if guarded zm then
    emit 1 "if(%s > 0) {" [dim_access zm (inner zm)] ++
    encodeRecursive zm (length (dimensions zm)) 0 1 ++
    emit 1 "}" []
  else encodeRecursive zm (length (dimensions zm)) 0 0.

Definition cpp_bit_border (inBitMode : bool) (bitfieldNum : nat) (zm : ZCMMember) : cstr * bool * nat :=
  if negb inBitMode && is_bits zm then
    (emit 1 "// Start of bitfield %s" [ndec bitfieldNum] ++ emit 0 "" [] ++ emit 1 "pos_bit = 0;" [] ++ emit 0 "" [], true, bitfieldNum)
  else if inBitMode && negb (is_bits zm) then
    (emit 1 "if (pos_bit != 0) ++pos_byte;" [] ++ emit 0 "" [] ++ emit 1 "// End of bitfield %s" [ndec bitfieldNum] ++ emit 0 "" [],
     false, S bitfieldNum)
  else ([], inBitMode, bitfieldNum).

Definition cpp_bit_end (inBitMode : bool) (bitfieldNum : nat) : cstr :=
  if inBitMode then emit 1 "if (pos_bit != 0) ++pos_byte;" [] ++ emit 0 "" [] ++ emit 1 "// End of bitfield %s" [ndec bitfieldNum] else [].

Fixpoint emit_encode_members_cpp (ms : list ZCMMember) (inBitMode : bool) (bitfieldNum : nat) : cstr :=
  match ms with
  | [] => cpp_bit_end inBitMode bitfieldNum
  | zm :: ms =>
      let '(border, inBitMode, bitfieldNum) := cpp_bit_border inBitMode bitfieldNum zm in
      border ++ emit_encode_member zm inBitMode ++ emit 0 "" [] ++ emit_encode_members_cpp ms inBitMode bitfieldNum
  end.

Definition emit_pos_bit_cpp : cstr := if existsb is_bits (members zs) then emit 1 "uint32_t pos_bit;" [] else [].

Definition emitEncodeNohash : cstr :=
  if bool_decide (members zs = []) then
    emit 0 "int %s::_encodeNoHash(void* , uint32_t, uint32_t) const" [sn] ++
    emit 0 "{" [] ++
    emit 1 "return 0;" [] ++
    emit 0 "}" [] ++
    emit 0 "" []
  else
    emit 0 "int %s::_encodeNoHash(void* buf, uint32_t offset, uint32_t maxlen) const" [sn] ++
    emit 0 "{" [] ++
    emit 1 "uint32_t pos_byte = 0;" [] ++
    emit_pos_bit_cpp ++
    emit 1 "int thislen;" [] ++
    emit 0 "" [] ++
    emit_encode_members_cpp (members zs) false 0 ++
    emit 1 "return pos_byte;" [] ++
    emit 0 "}" [] ++
    emit 0 "" [].

(** [n * m * ...] *)
Definition dim_product (zm : ZCMMember) (n : nat) : cstr := concat ((fun d => emitContinue "%s * " [dim_access zm d]) <$> seq 0 n).

Definition emit_size_member (zm : ZCMMember) (inBitMode : bool) : cstr :=
  let ndim := length (dimensions zm) in
  if is_number zm then
    if negb inBitMode then
      emitStart 1 "enc_size += " [] ++
      dim_product zm (ndim - 1) ++
      (if bool_decide (dimensions zm = []) then emitEnd "__%s_encoded_array_size(NULL, 1);" [fullname (mtype zm)]
       else emitEnd "__%s_encoded_array_size(NULL, %s);" [fullname (mtype zm); dim_access zm (ndim - 1)])
    else
      emitStart 1 "numbits += " [] ++
      dim_product zm ndim ++
      emitEnd "%s; // %s" [dec (numbits (mtype zm)); membername zm]
  else
    concat ((fun n => emit (1 + n) "for (int a%s = 0; a%s < %s; ++a%s) {" [ndec n; ndec n; dim_access zm n; ndec n]) <$> seq 0 ndim) ++
    emitStart (ndim + 1) "enc_size += this->%s" [membername zm] ++
    indices ndim ++
    (if is_string zm then emitEnd ".size() + ZCM_CORETYPES_INT32_NUM_BYTES_ON_BUS + ZCM_CORETYPES_INT8_NUM_BYTES_ON_BUS;" []
     else emitEnd "._getEncodedSizeNoHash();" []) ++
    concat ((fun n => emit (1 + n) "}" []) <$> reverse (seq 0 ndim)).

Fixpoint emit_size_members_cpp (ms : list ZCMMember) (inBitMode : bool) : cstr :=
  match ms with
  | [] => if inBitMode then emit 1 "enc_size += __bitfield_encoded_size(numbits);" [] ++ emit 0 "" [] else []
  | zm :: ms =>
      let '(border, inBitMode) :=
        if inBitMode && negb (is_bits zm) then (emit 1 "enc_size += __bitfield_encoded_size(numbits);" [] ++ emit 0 "" [], false)
        else if negb inBitMode && is_bits zm then (emit 0 "" [] ++ emit 1 "numbits = 0;" [], true)
        else ([], inBitMode) in
      border ++ emit_size_member zm inBitMode ++ emit_size_members_cpp ms inBitMode
  end.

Definition emitEncodedSizeNohash : cstr :=
  emit 0 "uint32_t %s::_getEncodedSizeNoHash() const" [sn] ++
  emit 0 "{" [] ++
  (if bool_decide (members zs = []) then
     emit 1 "return 0;" []
   else
     emit 1 "uint32_t enc_size = 0;" [] ++
     (if existsb is_bits (members zs) then emit 1 "uint32_t numbits;" [] else []) ++
     emit_size_members_cpp (members zs) false ++
     emit 1 "return enc_size;" []) ++
  emit 0 "}" [] ++
  emit 0 "" [].

(** An array that is a vector, whose elements have to be made. *)
Definition resized (zm : ZCMMember) (d : nat) : bool :=
  dim_var zm d || negb (isConstantSizeArray zm) && negb (cpp_std_array o).

Fixpoint decodeRecursive (zm : ZCMMember) (n depth : nat) : cstr :=
  let mtn := fullname (mtype zm) in
  let mn := membername zm in
  if (n =? 1)%nat && is_number zm then
    let decodeIndent := (1 + depth + if dim_var zm depth then 1 else 0)%nat in
    (if dim_var zm depth then emit (1 + depth) "if (%s > 0) {" [dim_access zm depth] else []) ++
    (if resized zm depth then
       emitStart decodeIndent "this->%s" [mn] ++ indices depth ++ emitEnd ".resize(%s);" [dim_access zm depth]
     else []) ++
    (if numbits (mtype zm) =? 0 then
       emitStart decodeIndent "thislen = __%s_decode_%sarray(buf, offset + pos_byte, maxlen - pos_byte, &this->%s" [mtn; le_; mn] ++
       indices depth ++
       emitEnd "[0], %s);" [dim_access zm depth] ++
       emit decodeIndent "if(thislen < 0) return thislen; else pos_byte += thislen;" []
     else
       emitStart decodeIndent "thislen = __%s_decode_array_bits%s(buf, offset + pos_byte, pos_bit, maxlen - pos_byte, &this->%s"
         [mtn; if signExtend (mtype zm) then str "_sign_extend" else []; mn] ++
       indices depth ++
       emitEnd "[0], %s, %s);" [dim_access zm depth; dec (numbits (mtype zm))] ++
       emit decodeIndent "if (thislen < 0) return thislen;" [] ++
       emit decodeIndent "__bitfield_advance_offset(&pos_byte, &pos_bit, thislen);" []) ++
    (if dim_var zm depth then emit (1 + depth) "}" [] else [])
  else
  match n with
  | O =>
      if is_string zm then
        emit (1 + depth) "int32_t __elem_len;" [] ++
        emit (1 + depth) "thislen = __int32_t_decode_%sarray(buf, offset + pos_byte, maxlen - pos_byte, &__elem_len, 1);" [le_] ++
        emit (1 + depth) "if(thislen < 0) return thislen; else pos_byte += thislen;" [] ++
        emit (1 + depth) "if((uint32_t)__elem_len > maxlen - pos_byte) return -1;" [] ++
        emitStart (1 + depth) "this->%s" [mn] ++
        indices depth ++
        emitEnd ".assign(((const char*)buf) + offset + pos_byte, __elem_len - ZCM_CORETYPES_INT8_NUM_BYTES_ON_BUS);" [] ++
        emit (1 + depth) "pos_byte += __elem_len;" []
      else
        emitStart (1 + depth) "thislen = this->%s" [mn] ++
        indices depth ++
        emitEnd "._decodeNoHash(buf, offset + pos_byte, maxlen - pos_byte);" [] ++
        emit (1 + depth) "if(thislen < 0) return thislen; else pos_byte += thislen;" []
  | S n =>
      (if resized zm depth then
         emitStart (1 + depth) "this->%s" [mn] ++ indices depth ++ emitEnd ".resize(%s);" [dim_access zm depth]
       else []) ++
      emit (1 + depth) "for (int a%s = 0; a%s < %s; ++a%s) {" [ndec depth; ndec depth; dim_access zm depth; ndec depth] ++
      decodeRecursive zm n (S depth) ++
      emit (1 + depth) "}" []
  end.

Definition emit_decode_member (zm : ZCMMember) (inBitMode : bool) : cstr :=
  let mtn := fullname (mtype zm) in
  let mn := membername zm in
  if bool_decide (dimensions zm = []) && isPrimitiveType mtn then
    if is_string zm then
      emit 1 "int32_t __%s_len__;" [mn] ++
      emit 1 "thislen = __int32_t_decode_%sarray(buf, offset + pos_byte, maxlen - pos_byte, &__%s_len__, 1);" [le_; mn] ++
      emit 1 "if(thislen < 0) return thislen; else pos_byte += thislen;" [] ++
      emit 1 "if((uint32_t)__%s_len__ > maxlen - pos_byte) return -1;" [mn] ++
      emit 1 "this->%s.assign(((const char*)buf) + offset + pos_byte, __%s_len__ - ZCM_CORETYPES_INT8_NUM_BYTES_ON_BUS);" [mn; mn] ++
      emit 1 "pos_byte += __%s_len__;" [mn]
    else if negb inBitMode then
      emit 1 "thislen = __%s_decode_%sarray(buf, offset + pos_byte, maxlen - pos_byte, &this->%s, 1);" [mtn; le_; mn] ++
      emit 1 "if(thislen < 0) return thislen; else pos_byte += thislen;" []
    else
      emit 1 "thislen = __%s_decode_array_bits%s(buf, offset + pos_byte, pos_bit, maxlen - pos_byte, &this->%s, 1, %s);"
        [nameUnderscore (mtype zm); if signExtend (mtype zm) then str "_sign_extend" else []; mn; dec (numbits (mtype zm))] ++
      emit 1 "if (thislen < 0) return thislen;" [] ++
      emit 1 "__bitfield_advance_offset(&pos_byte, &pos_bit, thislen);" []
  else decodeRecursive zm (length (dimensions zm)) 0.

Fixpoint emit_decode_members_cpp (ms : list ZCMMember) (inBitMode : bool) (bitfieldNum : nat) : cstr :=
  match ms with
  | [] => cpp_bit_end inBitMode bitfieldNum
  | zm :: ms =>
      let '(border, inBitMode, bitfieldNum) := cpp_bit_border inBitMode bitfieldNum zm in
      border ++ emit_decode_member zm inBitMode ++ emit 0 "" [] ++ emit_decode_members_cpp ms inBitMode bitfieldNum
  end.

Definition emitDecodeNohash : cstr :=
  if bool_decide (members zs = []) then
    emit 0 "int %s::_decodeNoHash(const void* , uint32_t, uint32_t)" [sn] ++
    emit 0 "{" [] ++
    emit 1 "return 0;" [] ++
    emit 0 "}" [] ++
    emit 0 "" []
  else
    emit 0 "int %s::_decodeNoHash(const void* buf, uint32_t offset, uint32_t maxlen)" [sn] ++
    emit 0 "{" [] ++
    emit 1 "uint32_t pos_byte = 0;" [] ++
    emit_pos_bit_cpp ++
    emit 1 "int thislen;" [] ++
    emit 0 "" [] ++
    emit_decode_members_cpp (members zs) false 0 ++
    emit 1 "return pos_byte;" [] ++
    emit 0 "}" [] ++
    emit 0 "" [].

Definition emitHeader : cstr :=
  emitHeaderStart ++
  emitEncode ++
  emitDecode ++
  emitEncodedSize ++
  emitGetHash ++
  emitGetTypeName ++
  emitEncodeNohash ++
  emitDecodeNohash ++
  emitEncodedSizeNohash ++
  emitComputeHash ++
  emitHeaderEnd.
End Struct.

(** ** The files *)

Definition headerName (o : cppopts) (zs : ZCMStruct) : cstr :=
  cpp_hpath o ++ (if bool_decide (cpp_hpath o = []) then str ":" else str "/") ++ dotsToSlashes (fullname (structname zs)) ++ str ".hpp".

(** The files written and the return code, as in [emitC]. *)
Section Files.
Context (o : cppopts) (needs : cstr -> cstr -> bool) (opens : cstr -> bool).

Fixpoint emitCpp (structs : list ZCMStruct) : list (cstr * cstr) * Z :=
  match structs with
  | [] => ([], 0)
  | zs :: structs =>
      let '(h, ret) := emit_file needs opens zs (headerName o zs) (emitHeader o zs) in
      if negb (ret =? 0) then (h, ret) else
      let '(rest, ret) := emitCpp structs in
      (h ++ rest, ret)
  end.
End Files.

Definition getFilepathsCpp (o : cppopts) (structs : list ZCMStruct) : list cstr := headerName o <$> structs.

Definition getReservedKeywordsCpp : list cstr :=
  str <$> ["alignas"; "alignof"; "and"; "and_eq"; "asm";
           "atomic_cancel"; "atomic_commit"; "atomic_noexcept"; "auto";
           "bitand"; "bitor"; "bool"; "break"; "case"; "catch";
           "char"; "char16_t"; "char32_t"; "class"; "compl"; "concept";
           "const"; "constexpr"; "const_cast"; "continue"; "co_await";
           "co_return"; "co_yield"; "decltype"; "default"; "delete"; "do";
           "double"; "dynamic_cast"; "else"; "enum"; "explicit"; "export";
           "extern"; "false"; "float"; "for"; "friend"; "goto"; "if";
           "import"; "inline"; "int"; "long"; "module"; "mutable"; "namespace";
           "new"; "noexcept"; "not"; "not_eq"; "nullptr"; "operator"; "or";
           "or_eq"; "private"; "protected"; "public"; "register";
           "reinterpret_cast"; "requires"; "return"; "short"; "signed";
           "sizeof"; "static"; "static_assert"; "static_cast"; "struct";
           "switch"; "synchronized"; "template"; "this"; "thread_local";
           "throw"; "true"; "try"; "typedef"; "typeid"; "typename"; "union";
           "unsigned"; "using"; "virtual"; "void"; "volatile"; "wchar_t";
           "while"; "xor"; "xor_eq";
           "encode"; "getEncodedSize"; "decode"; "getHash"; "getTypeName";
           "_encodeNoHash"; "_getEncodedSizeNoHash"; "_decodeNoHash";
           "_computeHash"]%string.
