(* ===== verification/CppCode.v ===== *)
(** * The code that the C++ emitter writes

    The methods without the hash as programs of a small language, with their text
    and their meaning, and the methods around them.  The statements below
    [PMember] work on one part of the message, [this->x[a0][a1]...]: loops go on to
    its elements.  An object that has only been constructed, and a number that has not
    been initialised, is [VUndef].  Exceptions and undefined behaviour have no result;
    the address of the first element of an empty array is not an access to it. *)
From S2P Require Import Prelude Bytes CoreTypes Bitfield Transport Url Gen CNum EmitC CCode EmitCpp.
Local Open Scope Z_scope.

(** ** Statements *)

(** [Scalar] is the member itself; [At i d] a part behind [d] indices, written at
    indentation [i]. *)
Inductive place := Scalar | At (i d : nat).

Inductive pstmt :=
  | PNote (text : cstr)
  | PSeq (a b : pstmt)
  | PMember (zm : ZCMMember) (body : pstmt)
  | PFor (i d : nat) (zm : ZCMMember) (body : pstmt)
  | PIf (encoding : bool) (i d : nat) (zm : ZCMMember) (body : pstmt)
  | PResize (i d : nat) (zm : ZCMMember)
  | PEncode (p : place) (zm : ZCMMember)
  | PEncodeBits (p : place) (zm : ZCMMember)
  | PEncodeString (p : place) (zm : ZCMMember)
  | PEncodeStruct (i d : nat) (zm : ZCMMember)
  | PDecode (p : place) (zm : ZCMMember)
  | PDecodeBits (p : place) (zm : ZCMMember)
  | PDecodeString (p : place) (zm : ZCMMember)
  | PDecodeStruct (i d : nat) (zm : ZCMMember)
  | PSizeNumbers (zm : ZCMMember)
  | PSizeBits (zm : ZCMMember)
  | PSizeString (zm : ZCMMember)
  | PSizeStruct (zm : ZCMMember)
  | PPosBitZero
  | PPosBitEnd
  | PNumbitsZero
  | PNumbitsEnd.

Section Print.
Context (o : cppopts).
Let le_ : cstr := if cpp_little_endian o then str "little_endian_" else [].

Definition sign_infix (zm : ZCMMember) : cstr := if signExtend (mtype zm) then str "_sign_extend" else [].

Fixpoint pprint (s : pstmt) : cstr :=
  match s with
  | PNote text => text
  | PSeq a b => pprint a ++ pprint b
  | PMember _ body => pprint body
  | PFor i d zm body =>
      emit i "for (int a%s = 0; a%s < %s; ++a%s) {" [ndec d; ndec d; dim_access zm d; ndec d] ++
      pprint body ++
      emit i "}" []
  | PIf true i d zm body => emit i "if(%s > 0) {" [dim_access zm d] ++ pprint body ++ emit i "}" []
  | PIf false i d zm body => emit i "if (%s > 0) {" [dim_access zm d] ++ pprint body ++ emit i "}" []
  | PResize i d zm => emitStart i "this->%s" [membername zm] ++ indices d ++ emitEnd ".resize(%s);" [dim_access zm d]
  | PEncode Scalar zm =>
      emit 1 "thislen = __%s_encode_%sarray(buf, offset + pos_byte, maxlen - pos_byte, &this->%s, 1);"
        [fullname (mtype zm); le_; membername zm] ++
      emit 1 "if(thislen < 0) return thislen; else pos_byte += thislen;" []
  | PEncode (At i d) zm =>
      emitStart i "thislen = __%s_encode_%sarray(buf, offset + pos_byte, maxlen - pos_byte, &this->%s"
        [fullname (mtype zm); le_; membername zm] ++
      indices d ++
      emitEnd "[0], %s);" [dim_access zm d] ++
      emit i "if(thislen < 0) return thislen; else pos_byte += thislen;" []
  | PEncodeBits Scalar zm =>
      emit 1 "thislen = __%s_encode_array_bits(buf, offset + pos_byte, pos_bit, maxlen - pos_byte, &this->%s, 1, %s);"
        [nameUnderscore (mtype zm); membername zm; EmitC.dec (numbits (mtype zm))] ++
      emit 1 "if (thislen < 0) return thislen;" [] ++
      emit 1 "__bitfield_advance_offset(&pos_byte, &pos_bit, thislen);" []
  | PEncodeBits (At i d) zm =>
      emitStart i "thislen = __%s_encode_array_bits(buf, offset + pos_byte, pos_bit, maxlen - pos_byte, &this->%s"
        [fullname (mtype zm); membername zm] ++
      indices d ++
      emitEnd "[0], %s, %s);" [dim_access zm d; EmitC.dec (numbits (mtype zm))] ++
      emit i "if (thislen < 0) return thislen;" [] ++
      emit i "__bitfield_advance_offset(&pos_byte, &pos_bit, thislen);" []
  | PEncodeString Scalar zm =>
      emit 1 "char* %s_cstr = (char*) this->%s.c_str();" [membername zm; membername zm] ++
      emit 1 "thislen = __string_encode_%sarray(buf, offset + pos_byte, maxlen - pos_byte, &%s_cstr, 1);" [le_; membername zm] ++
      emit 1 "if(thislen < 0) return thislen; else pos_byte += thislen;" []
  | PEncodeString (At i d) zm =>
      emitStart i "char* __cstr = (char*) this->%s" [membername zm] ++
      indices d ++
      emitEnd ".c_str();" [] ++
      emit i "thislen = __string_encode_%sarray(buf, offset + pos_byte, maxlen - pos_byte, &__cstr, 1);" [le_] ++
      emit i "if(thislen < 0) return thislen; else pos_byte += thislen;" []
  | PEncodeStruct i d zm =>
      emitStart i "thislen = this->%s" [membername zm] ++
      indices d ++
      emitEnd "._encodeNoHash(buf, offset + pos_byte, maxlen - pos_byte);" [] ++
      emit i "if(thislen < 0) return thislen; else pos_byte += thislen;" []
  | PDecode Scalar zm =>
      emit 1 "thislen = __%s_decode_%sarray(buf, offset + pos_byte, maxlen - pos_byte, &this->%s, 1);"
        [fullname (mtype zm); le_; membername zm] ++
      emit 1 "if(thislen < 0) return thislen; else pos_byte += thislen;" []
  | PDecode (At i d) zm =>
      emitStart i "thislen = __%s_decode_%sarray(buf, offset + pos_byte, maxlen - pos_byte, &this->%s"
        [fullname (mtype zm); le_; membername zm] ++
      indices d ++
      emitEnd "[0], %s);" [dim_access zm d] ++
      emit i "if(thislen < 0) return thislen; else pos_byte += thislen;" []
  | PDecodeBits Scalar zm =>
      emit 1 "thislen = __%s_decode_array_bits%s(buf, offset + pos_byte, pos_bit, maxlen - pos_byte, &this->%s, 1, %s);"
        [nameUnderscore (mtype zm); sign_infix zm; membername zm; EmitC.dec (numbits (mtype zm))] ++
      emit 1 "if (thislen < 0) return thislen;" [] ++
      emit 1 "__bitfield_advance_offset(&pos_byte, &pos_bit, thislen);" []
  | PDecodeBits (At i d) zm =>
      emitStart i "thislen = __%s_decode_array_bits%s(buf, offset + pos_byte, pos_bit, maxlen - pos_byte, &this->%s"
        [fullname (mtype zm); sign_infix zm; membername zm] ++
      indices d ++
      emitEnd "[0], %s, %s);" [dim_access zm d; EmitC.dec (numbits (mtype zm))] ++
      emit i "if (thislen < 0) return thislen;" [] ++
      emit i "__bitfield_advance_offset(&pos_byte, &pos_bit, thislen);" []
  | PDecodeString Scalar zm =>
      emit 1 "int32_t __%s_len__;" [membername zm] ++
      emit 1 "thislen = __int32_t_decode_%sarray(buf, offset + pos_byte, maxlen - pos_byte, &__%s_len__, 1);" [le_; membername zm] ++
      emit 1 "if(thislen < 0) return thislen; else pos_byte += thislen;" [] ++
      emit 1 "if((uint32_t)__%s_len__ > maxlen - pos_byte) return -1;" [membername zm] ++
      emit 1 "this->%s.assign(((const char*)buf) + offset + pos_byte, __%s_len__ - ZCM_CORETYPES_INT8_NUM_BYTES_ON_BUS);"
        [membername zm; membername zm] ++
      emit 1 "pos_byte += __%s_len__;" [membername zm]
  | PDecodeString (At i d) zm =>
      emit i "int32_t __elem_len;" [] ++
      emit i "thislen = __int32_t_decode_%sarray(buf, offset + pos_byte, maxlen - pos_byte, &__elem_len, 1);" [le_] ++
      emit i "if(thislen < 0) return thislen; else pos_byte += thislen;" [] ++
      emit i "if((uint32_t)__elem_len > maxlen - pos_byte) return -1;" [] ++
      emitStart i "this->%s" [membername zm] ++
      indices d ++
      emitEnd ".assign(((const char*)buf) + offset + pos_byte, __elem_len - ZCM_CORETYPES_INT8_NUM_BYTES_ON_BUS);" [] ++
      emit i "pos_byte += __elem_len;" []
  | PDecodeStruct i d zm =>
      emitStart i "thislen = this->%s" [membername zm] ++
      indices d ++
      emitEnd "._decodeNoHash(buf, offset + pos_byte, maxlen - pos_byte);" [] ++
      emit i "if(thislen < 0) return thislen; else pos_byte += thislen;" []
  | PSizeNumbers zm =>
      emitStart 1 "enc_size += " [] ++
      dim_product zm (length (dimensions zm) - 1) ++
      (if bool_decide (dimensions zm = []) then emitEnd "__%s_encoded_array_size(NULL, 1);" [fullname (mtype zm)]
       else emitEnd "__%s_encoded_array_size(NULL, %s);" [fullname (mtype zm); dim_access zm (length (dimensions zm) - 1)])
  | PSizeBits zm =>
      emitStart 1 "numbits += " [] ++
      dim_product zm (length (dimensions zm)) ++
      emitEnd "%s; // %s" [EmitC.dec (numbits (mtype zm)); membername zm]
  | PSizeString zm =>
      emitStart (length (dimensions zm) + 1) "enc_size += this->%s" [membername zm] ++
      indices (length (dimensions zm)) ++
      emitEnd ".size() + ZCM_CORETYPES_INT32_NUM_BYTES_ON_BUS + ZCM_CORETYPES_INT8_NUM_BYTES_ON_BUS;" []
  | PSizeStruct zm =>
      emitStart (length (dimensions zm) + 1) "enc_size += this->%s" [membername zm] ++
      indices (length (dimensions zm)) ++
      emitEnd "._getEncodedSizeNoHash();" []
  | PPosBitZero => emit 1 "pos_bit = 0;" []
  | PPosBitEnd => emit 1 "if (pos_bit != 0) ++pos_byte;" []
  | PNumbitsZero => emit 1 "numbits = 0;" []
  | PNumbitsEnd => emit 1 "enc_size += __bitfield_encoded_size(numbits);" []
  end.
End Print.

(** ** The bodies of the methods *)

Definition pblank : pstmt := PNote (emit 0 "" []).

Definition pborder (inBitMode : bool) (bitfieldNum : nat) (zm : ZCMMember) : pstmt * bool * nat :=
  if negb inBitMode && is_bits zm then
    (PSeq (PNote (emit 1 "// Start of bitfield %s" [ndec bitfieldNum] ++ emit 0 "" [])) (PSeq PPosBitZero pblank), true, bitfieldNum)
  else if inBitMode && negb (is_bits zm) then
    (PSeq PPosBitEnd (PNote (emit 0 "" [] ++ emit 1 "// End of bitfield %s" [ndec bitfieldNum] ++ emit 0 "" [])), false, S bitfieldNum)
  else (PNote [], inBitMode, bitfieldNum).

Definition pend (inBitMode : bool) (bitfieldNum : nat) : pstmt :=
  if inBitMode then PSeq PPosBitEnd (PNote (emit 0 "" [] ++ emit 1 "// End of bitfield %s" [ndec bitfieldNum])) else PNote [].

(** The loops of [_encodeRecursive] behind [depth] indices, [n] dimensions to go. *)
Fixpoint cpp_encode_rec (zm : ZCMMember) (n depth extraIndent : nat) : pstmt :=
  let i := (extraIndent + 1 + depth)%nat in
  if (n =? 1)%nat && is_number zm then
    if numbits (mtype zm) =? 0 then PEncode (At i depth) zm else PEncodeBits (At i depth) zm
  else
  match n with
  | O => if is_string zm then PEncodeString (At i depth) zm else PEncodeStruct i depth zm
  | S n => PFor i depth zm (cpp_encode_rec zm n (S depth) extraIndent)
  end.

Definition cpp_encode_member (zm : ZCMMember) (inBitMode : bool) : pstmt :=
  if bool_decide (dimensions zm = []) then
    if isPrimitiveType (fullname (mtype zm)) then
      if is_string zm then PEncodeString Scalar zm
      else if negb inBitMode then PEncode Scalar zm else PEncodeBits Scalar zm
    else cpp_encode_rec zm 0 0 0
  else if guarded zm then PIf true 1 (inner zm) zm (cpp_encode_rec zm (length (dimensions zm)) 0 1)
  else cpp_encode_rec zm (length (dimensions zm)) 0 0.

Fixpoint cpp_encode_body (ms : list ZCMMember) (inBitMode : bool) (bitfieldNum : nat) : pstmt :=
  match ms with
  | [] => pend inBitMode bitfieldNum
  | zm :: ms =>
      let '(border, inBitMode, bitfieldNum) := pborder inBitMode bitfieldNum zm in
      PSeq border (PSeq (PMember zm (cpp_encode_member zm inBitMode)) (PSeq pblank (cpp_encode_body ms inBitMode bitfieldNum)))
  end.

Section Bodies.
Context (o : cppopts).

Definition resize_if (i depth : nat) (zm : ZCMMember) (rest : pstmt) : pstmt :=
  if resized o zm depth then PSeq (PResize i depth zm) rest else rest.

Fixpoint cpp_decode_rec (zm : ZCMMember) (n depth : nat) : pstmt :=
  if (n =? 1)%nat && is_number zm then
    let leaf i := if numbits (mtype zm) =? 0 then PDecode (At i depth) zm else PDecodeBits (At i depth) zm in
    if dim_var zm depth then PIf false (1 + depth) depth zm (resize_if (2 + depth) depth zm (leaf (2 + depth)%nat))
    else resize_if (1 + depth) depth zm (leaf (1 + depth)%nat)
  else
  match n with
  | O => if is_string zm then PDecodeString (At (1 + depth) depth) zm else PDecodeStruct (1 + depth) depth zm
  | S n => resize_if (1 + depth) depth zm (PFor (1 + depth) depth zm (cpp_decode_rec zm n (S depth)))
  end.

Definition cpp_decode_member (zm : ZCMMember) (inBitMode : bool) : pstmt :=
  if bool_decide (dimensions zm = []) && isPrimitiveType (fullname (mtype zm)) then
    if is_string zm then PDecodeString Scalar zm
    else if negb inBitMode then PDecode Scalar zm else PDecodeBits Scalar zm
  else cpp_decode_rec zm (length (dimensions zm)) 0.

Fixpoint cpp_decode_body (ms : list ZCMMember) (inBitMode : bool) (bitfieldNum : nat) : pstmt :=
  match ms with
  | [] => pend inBitMode bitfieldNum
  | zm :: ms =>
      let '(border, inBitMode, bitfieldNum) := pborder inBitMode bitfieldNum zm in
      PSeq border (PSeq (PMember zm (cpp_decode_member zm inBitMode)) (PSeq pblank (cpp_decode_body ms inBitMode bitfieldNum)))
  end.
End Bodies.

(** The loops around one element, [n] of them from dimension [d] on. *)
Fixpoint cpp_size_loops (zm : ZCMMember) (n d : nat) (body : pstmt) : pstmt :=
  match n with
  | O => body
  | S n => PFor (1 + d) d zm (cpp_size_loops zm n (S d) body)
  end.

Definition cpp_size_member (zm : ZCMMember) (inBitMode : bool) : pstmt :=
  if is_number zm then if negb inBitMode then PSizeNumbers zm else PSizeBits zm
  else cpp_size_loops zm (length (dimensions zm)) 0 (if is_string zm then PSizeString zm else PSizeStruct zm).

Fixpoint cpp_size_body (ms : list ZCMMember) (inBitMode : bool) : pstmt :=
  match ms with
  | [] => if inBitMode then PSeq PNumbitsEnd pblank else PNote []
  | zm :: ms =>
      let '(border, inBitMode) :=
        if inBitMode && negb (is_bits zm) then (PSeq PNumbitsEnd pblank, false)
        else if negb inBitMode && is_bits zm then (PSeq pblank PNumbitsZero, true)
        else (PNote [], inBitMode) in
      PSeq border (PSeq (PMember zm (cpp_size_member zm inBitMode)) (cpp_size_body ms inBitMode))
  end.

(** ** Meaning *)

Section Meaning.
(** The members of the class, the options. *)
Context (ms : list ZCMMember) (o : cppopts).
Let le : bool := cpp_little_endian o.

(** What a member, or a new element of a vector, is constructed as: vectors are
    empty, arrays have their elements. *)
Fixpoint cpp_init (zm : ZCMMember) (d : nat) (ds : list ZCMDimension) : val :=
  match ds with
  | [] => VUndef
  | zd :: ds => if resized o zm d then VArr [] else VArr (replicate (Z.to_nat (strtol (dsize zd) 0)) (cpp_init zm (S d) ds))
  end.

Definition place_count (fs : list val) (zm : ZCMMember) (p : place) : option Z :=
  match p with Scalar => Some 1 | At _ d => array_size ms fs zm d end.

(** The elements that a place points to. *)
Definition place_vals (cur : val) (p : place) : option (list val) :=
  match p with Scalar => Some [cur] | At _ _ => arr_of cur end.

(** The elements that a decoder has written to a place. *)
Definition place_store (cur : val) (p : place) (vs : list val) : option val :=
  match p with
  | Scalar => match vs with [x] => Some x | _ => None end
  | At _ _ => l <- arr_of cur ;; check (length vs <=? length l)%nat ;; Some (VArr (vs ++ drop (length vs) l))
  end.

(** *** Encoding *)

Section Enc.
Context (call : cstr -> list byte -> Z -> Z -> val -> option (list byte * Z)) (fs : list val) (offset maxlen : Z).

(** [if (thislen < 0) return thislen; else pos_byte += thislen;] *)
Definition enc_advance (st : est) (r : option (list byte * Z)) : option (est + list byte * Z) :=
  '(buf, thislen) <- r ;;
  if thislen <? 0 then Some (inr (buf, thislen)) else Some (inl (mkEst buf (u32 (es_pos st + thislen)) (es_bit st))).

Fixpoint exec_penc (s : pstmt) (cur : val) (st : est) : option (est + list byte * Z) :=
  match s with
  | PNote _ => Some (inl st)
  | PSeq a b => match exec_penc a cur st with Some (inl st) => exec_penc b cur st | r => r end
  | PMember zm body => i <- member_index ms (membername zm) ;; x <- fs !! i ;; exec_penc body x st
  | PFor _ d zm body =>
      n <- loop_count ms fs zm d ;;
      l <- arr_of cur ;;
      for_loop n 0 (fun a st => y <- l !! a ;; exec_penc body y st) st
  | PIf _ _ d zm body => n <- array_size ms fs zm d ;; if 0 <? n then exec_penc body cur st else Some (inl st)
  | PEncode p zm =>
      vs <- place_vals cur p ;;
      n <- place_count fs zm p ;;
      enc_advance st (prim_encode le (fullname (mtype zm)) (es_buf st) (u32 (offset + es_pos st)) (u32 (maxlen - es_pos st)) vs (u32 n))
  | PEncodeBits p zm =>
      vs <- place_vals cur p ;;
      n <- place_count fs zm p ;;
      vs <- take_vals (u32 n) vs ;;
      zs <- mapM num_of vs ;;
      t <- itype_of (fullname (mtype zm)) ;;
      '(buf, r) <- encode_array_bits (iwidth t) (es_buf st) (u32 (offset + es_pos st)) (es_bit st) (u32 (maxlen - es_pos st)) zs
                     (numbits (mtype zm)) ;;
      let thislen := wraps 32 r in
      if thislen <? 0 then Some (inr (buf, thislen))
      else let '(pos, bit) := __bitfield_advance_offset (es_pos st) (es_bit st) thislen in Some (inl (mkEst buf pos bit))
  | PEncodeString _ _ =>
      s <- str_of cur ;;
      enc_advance st ((if le then __string_encode_little_endian_array else __string_encode_array)
        (es_buf st) (u32 (offset + es_pos st)) (u32 (maxlen - es_pos st)) [cut s])
  | PEncodeStruct _ _ zm =>
      enc_advance st (call (fullname (mtype zm)) (es_buf st) (u32 (offset + es_pos st)) (u32 (maxlen - es_pos st)) cur)
  | PPosBitZero => Some (inl (mkEst (es_buf st) (es_pos st) 0))
  | PPosBitEnd => Some (inl (mkEst (es_buf st) (if negb (es_bit st =? 0) then u32 (es_pos st + 1) else es_pos st) (es_bit st)))
  | _ => None
  end.
End Enc.

(** *** Decoding *)

(** The position. *)
Record pst := mkPst { ps_pos : Z; ps_bit : Z }.

Section Dec.
(** [call ty old] decodes into an object. *)
Context (call : cstr -> val -> list byte -> Z -> Z -> option (val * Z)) (buf : list byte) (offset maxlen : Z).

Definition decode_len (off max : Z) : option (list Z * Z) :=
  (if le then __int32_t_decode_little_endian_array else __int32_t_decode_array) buf off max 1.

(** The statements about a part of a member, whose value they change, also when the
    method returns on the way; the fields are those in front of it. *)
Fixpoint exec_pdec (fs : list val) (s : pstmt) (cur : val) (st : pst) : option (val * pst + val * Z) :=
  let off := u32 (offset + ps_pos st) in
  let max := u32 (maxlen - ps_pos st) in
  match s with
  | PNote _ => Some (inl (cur, st))
  | PSeq a b => match exec_pdec fs a cur st with Some (inl (cur, st)) => exec_pdec fs b cur st | r => r end
  | PFor _ d zm body =>
      n <- loop_count ms fs zm d ;;
      l <- arr_of cur ;;
      r <- for_loop n 0 (fun a '(l, st) =>
             y <- l !! a ;;
             r <- exec_pdec fs body y st ;;
             match r with inl (y, st) => Some (inl (<[a := y]> l, st)) | inr (y, code) => Some (inr (<[a := y]> l, code)) end) (l, st) ;;
      match r with inl (l, st) => Some (inl (VArr l, st)) | inr (l, code) => Some (inr (VArr l, code)) end
  | PIf _ _ d zm body => n <- array_size ms fs zm d ;; if 0 <? n then exec_pdec fs body cur st else Some (inl (cur, st))
  | PResize _ d zm =>
      n <- array_size ms fs zm d ;;
      check (0 <=? n) ;;
      l <- arr_of cur ;;
      let new := cpp_init zm (S d) (drop (S d) (dimensions zm)) in
      Some (inl (VArr (take (Z.to_nat n) l ++ replicate (Z.to_nat n - length l) new), st))
  | PDecode p zm =>
      n <- place_count fs zm p ;;
      '(vs, thislen) <- prim_decode le (fullname (mtype zm)) buf off max (u32 n) ;;
      if thislen <? 0 then Some (inr (cur, thislen)) else
      cur <- place_store cur p vs ;;
      Some (inl (cur, mkPst (u32 (ps_pos st + thislen)) (ps_bit st)))
  | PDecodeBits p zm =>
      n <- place_count fs zm p ;;
      t <- itype_of (fullname (mtype zm)) ;;
      '(zs, r) <- decode_array_bits t (signExtend (mtype zm)) buf off (ps_bit st) max (Z.to_nat (u32 n)) (numbits (mtype zm)) ;;
      let thislen := wraps 32 r in
      if thislen <? 0 then Some (inr (cur, thislen)) else
      cur <- place_store cur p (VNum <$> zs) ;;
      let '(pos, bit) := __bitfield_advance_offset (ps_pos st) (ps_bit st) thislen in
      Some (inl (cur, mkPst pos bit))
  | PDecodeString _ _ =>
      '(p, thislen) <- decode_len off max ;;
      if thislen <? 0 then Some (inr (cur, thislen)) else
      let pos := u32 (ps_pos st + thislen) in
      match p with
      | [len] =>
          if u32 (maxlen - pos) <? u32 len then Some (inr (cur, -1)) else
          check (1 <=? len) ;;
          bs <- get_all buf (u32 (offset + pos)) (Z.to_nat (len - 1)) ;;
          Some (inl (VStr (wraps 8 <$> bs), mkPst (u32 (pos + len)) (ps_bit st)))
      | _ => None
      end
  | PDecodeStruct _ _ zm =>
      '(v, thislen) <- call (fullname (mtype zm)) cur buf off max ;;
      if thislen <? 0 then Some (inr (v, thislen)) else
      Some (inl (v, mkPst (u32 (ps_pos st + thislen)) (ps_bit st)))
  | _ => None
  end.

(** The body: one member after another. *)
Fixpoint run_pdec (s : pstmt) (fs : list val) (st : pst) : option (list val * pst + list val * Z) :=
  match s with
  | PNote _ => Some (inl (fs, st))
  | PSeq a b => match run_pdec a fs st with Some (inl (fs, st)) => run_pdec b fs st | r => r end
  | PMember zm body =>
      i <- member_index ms (membername zm) ;;
      x <- fs !! i ;;
      r <- exec_pdec fs body x st ;;
      match r with inl (x, st) => Some (inl (<[i := x]> fs, st)) | inr (x, code) => Some (inr (<[i := x]> fs, code)) end
  | PPosBitZero => Some (inl (fs, mkPst (ps_pos st) 0))
  | PPosBitEnd => Some (inl (fs, mkPst (if negb (ps_bit st =? 0) then u32 (ps_pos st + 1) else ps_pos st) (ps_bit st)))
  | _ => None
  end.
End Dec.

(** *** Sizes *)

(** The product of the first [n] dimensions and its width, an [int] unless one of
    them is an [int64_t]; it must not overflow. *)
Definition dim_bits (zm : ZCMMember) (d : nat) : Z :=
  match dimensions zm !! d with
  | Some zd =>
      match mode zd with
      | ZCM_VAR => match findMember ms (dsize zd) with
                   | Some m => if bool_decide (fullname (mtype m) = str "int64_t") then 64 else 32
                   | None => 32
                   end
      | ZCM_CONST => 32
      end
  | None => 32
  end.

Definition in_width (w z : Z) : bool := (- 2 ^ (w - 1) <=? z) && (z <? 2 ^ (w - 1)).

Fixpoint product (fs : list val) (zm : ZCMMember) (n d : nat) (acc w : Z) : option (Z * Z) :=
  match n with
  | O => Some (acc, w)
  | S n =>
      k <- array_size ms fs zm d ;;
      let w := Z.max w (dim_bits zm d) in
      check (in_width w (acc * k)) ;;
      product fs zm n (S d) (acc * k) w
  end.

Section Size.
Context (call : cstr -> val -> option Z) (fs : list val).

Fixpoint exec_psize (s : pstmt) (cur : val) (st : sst) : option (sst + unit) :=
  match s with
  | PNote _ => Some (inl st)
  | PSeq a b => match exec_psize a cur st with Some (inl st) => exec_psize b cur st | r => r end
  | PMember zm body => i <- member_index ms (membername zm) ;; x <- fs !! i ;; exec_psize body x st
  | PFor _ d zm body =>
      n <- loop_count ms fs zm d ;;
      l <- arr_of cur ;;
      for_loop n 0 (fun a st => y <- l !! a ;; exec_psize body y st) st
  | PSizeNumbers zm =>
      K <- codec_of le (fullname (mtype zm)) ;;
      '(p, w) <- product fs zm (length (dimensions zm) - 1) 0 1 32 ;;
      n <- array_size ms fs zm (inner zm) ;;
      check ((w =? 32) || in_width w (p * encoded_array_size K (u32 n))) ;;
      Some (inl (mkSst (u32 (ss_size st + p * encoded_array_size K (u32 n))) (ss_numbits st)))
  | PSizeBits zm =>
      '(p, w) <- product fs zm (length (dimensions zm)) 0 1 32 ;;
      check (in_width w (p * numbits (mtype zm))) ;;
      Some (inl (mkSst (ss_size st) (u32 (ss_numbits st + p * numbits (mtype zm)))))
  | PSizeString _ =>
      s <- str_of cur ;; Some (inl (mkSst (u32 (ss_size st + (Z.of_nat (length s) + 4 + 1))) (ss_numbits st)))
  | PSizeStruct zm =>
      k <- call (fullname (mtype zm)) cur ;; Some (inl (mkSst (u32 (ss_size st + k)) (ss_numbits st)))
  | PNumbitsZero => Some (inl (mkSst (ss_size st) 0))
  | PNumbitsEnd => Some (inl (mkSst (u32 (ss_size st + __bitfield_encoded_size (ss_numbits st))) (ss_numbits st)))
  | _ => None
  end.
End Size.
End Meaning.

(** ** The methods *)

Section Functions.
Context (env : list ZCMStruct) (o : cppopts).

(** [fuel] bounds the nesting of the structs. *)
Fixpoint _encodeNoHash (fuel : nat) (name : cstr) (buf : list byte) (offset maxlen : Z) (v : val) : option (list byte * Z) :=
  match fuel with
  | O => None
  | S fuel =>
      zs <- find_struct env name ;;
      fs <- fields_of v ;;
      r <- exec_penc (members zs) o (_encodeNoHash fuel) fs offset maxlen (cpp_encode_body (members zs) false 0) VUndef (mkEst buf 0 0) ;;
      match r with inl st => Some (es_buf st, wraps 32 (es_pos st)) | inr r => Some r end
  end.

(** The object holds [old] before; behind a failure it is partly overwritten. *)
Fixpoint _decodeNoHash (fuel : nat) (name : cstr) (old : val) (buf : list byte) (offset maxlen : Z) : option (val * Z) :=
  match fuel with
  | O => None
  | S fuel =>
      zs <- find_struct env name ;;
      let fs := match old with VStruct l => l | _ => (fun zm => cpp_init o zm 0 (dimensions zm)) <$> members zs end in
      r <- run_pdec (members zs) o (_decodeNoHash fuel) buf offset maxlen (cpp_decode_body o (members zs) false 0) fs (mkPst 0 0) ;;
      match r with inl (fs, st) => Some (VStruct fs, wraps 32 (ps_pos st)) | inr (fs, code) => Some (VStruct fs, code) end
  end.

Fixpoint _getEncodedSizeNoHash (fuel : nat) (name : cstr) (v : val) : option Z :=
  match fuel with
  | O => None
  | S fuel =>
      zs <- find_struct env name ;;
      fs <- fields_of v ;;
      r <- exec_psize (members zs) o (_getEncodedSizeNoHash fuel) fs (cpp_size_body (members zs) false) VUndef (mkSst 0 0) ;;
      match r with inl st => Some (ss_size st) | inr _ => None end
  end.

(** [_computeHash]: a class without members of class type does not look at the
    types on the way. *)
Fixpoint _computeHash (fuel : nat) (parents : list cstr) (name : cstr) : option Z :=
  match fuel with
  | O => None
  | S fuel =>
      zs <- find_struct env name ;;
      h <- hash zs ;;
      let rot h := wrapu 64 (wrapu 64 (Z.shiftl h 1) + Z.land (Z.shiftr h 63) 1) in
      if bool_decide (complex_members zs = []) then Some (rot (wrapu 64 h))
      else if bool_decide (name ∈ parents) then Some 0
      else
        hs <- mapM (fun zm => _computeHash fuel (name :: parents) (fullname (mtype zm))) (complex_members zs) ;;
        Some (rot (wrapu 64 (foldl Z.add h hs)))
  end.

Definition getHash (name : cstr) : option Z := h <- _computeHash (S (length env)) [] name ;; Some (wraps 64 h).

Definition cpp_encode (fuel : nat) (name : cstr) (buf : list byte) (offset maxlen : Z) (v : val) : option (list byte * Z) :=
  hash <- getHash name ;;
  '(buf, thislen) <- __int64_t_encode_array buf (u32 (offset + 0)) (u32 (maxlen - 0)) [hash] 1 ;;
  if thislen <? 0 then Some (buf, thislen) else
  let pos := u32 (0 + thislen) in
  '(buf, thislen) <- _encodeNoHash fuel name buf (u32 (offset + pos)) (u32 (maxlen - pos)) v ;;
  if thislen <? 0 then Some (buf, thislen) else
  Some (buf, wraps 32 (u32 (pos + thislen))).

Definition getEncodedSize (fuel : nat) (name : cstr) (v : val) : option Z :=
  n <- _getEncodedSizeNoHash fuel name v ;; Some (u32 (8 + n)).

Definition cpp_decode (fuel : nat) (name : cstr) (old : val) (buf : list byte) (offset maxlen : Z) : option (val * Z) :=
  '(h, thislen) <- __int64_t_decode_array buf (u32 (offset + 0)) (u32 (maxlen - 0)) 1 ;;
  if thislen <? 0 then Some (old, thislen) else
  let pos := u32 (0 + thislen) in
  hash <- getHash name ;;
  if negb (bool_decide (h = [hash])) then Some (old, -1) else
  '(v, thislen) <- _decodeNoHash fuel name old buf (u32 (offset + pos)) (u32 (maxlen - pos)) ;;
  if thislen <? 0 then Some (v, thislen) else
  Some (v, wraps 32 (u32 (pos + thislen))).
End Functions.
