(* ===== verification/CppPrint.v ===== *)
(** * The C++ emitter writes the code of [CppCode] *)
From S2P Require Import Prelude Bytes Transport Url Gen CNum EmitC CCode EmitCpp CppCode.
Local Open Scope Z_scope.

Lemma pprint_encode_rec o zm n : forall depth extra, encodeRecursive o zm n depth extra = pprint o (cpp_encode_rec zm n depth extra).
Proof.
  induction n as [|n IH]; intros depth extra; cbn [encodeRecursive cpp_encode_rec].
  - destruct (is_string zm); cbn [Nat.eqb andb pprint]; by rewrite <- ?app_assoc.
  - destruct ((S n =? 1)%nat && is_number zm); [by destruct (numbits (mtype zm) =? 0)|]. cbn [pprint]. by rewrite IH.
Qed.

Lemma pprint_encode_member o zm mode : emit_encode_member o zm mode = pprint o (cpp_encode_member zm mode).
Proof.
  unfold emit_encode_member, cpp_encode_member, emit_encode_scalar. destruct (bool_decide _).
  - destruct (isPrimitiveType _); [|apply pprint_encode_rec]. destruct (is_string zm); [done|]. by destruct mode.
  - destruct (guarded zm); cbn [pprint]; by rewrite pprint_encode_rec.
Qed.

Lemma pprint_border o mode num zm :
  let '(border, mode', num') := pborder mode num zm in cpp_bit_border mode num zm = (pprint o border, mode', num').
Proof. unfold pborder, cpp_bit_border, pblank. destruct mode, (is_bits zm); cbn [negb andb pprint]; by rewrite <- ?app_assoc. Qed.

Lemma pprint_end o mode num : cpp_bit_end mode num = pprint o (pend mode num).
Proof. by destruct mode. Qed.

Lemma pprint_encode_body o ms : forall mode num, emit_encode_members_cpp o ms mode num = pprint o (cpp_encode_body ms mode num).
Proof.
  induction ms as [|zm ms IH]; intros mode num; cbn [emit_encode_members_cpp cpp_encode_body]; [apply pprint_end|].
  pose proof (pprint_border o mode num zm) as B. destruct (pborder mode num zm) as [[border mode'] num'].
  rewrite B. cbn [pprint]. by rewrite pprint_encode_member, IH.
Qed.

Lemma pprint_resize o i d zm rest : pprint o (resize_if o i d zm rest) =
  (if resized o zm d then emitStart i "this->%s" [membername zm] ++ indices d ++ emitEnd ".resize(%s);" [dim_access zm d] else []) ++ pprint o rest.
Proof. unfold resize_if. by destruct (resized o zm d). Qed.

Lemma pprint_decode_rec o zm n : forall depth, decodeRecursive o zm n depth = pprint o (cpp_decode_rec o zm n depth).
Proof.
  induction n as [|n IH]; intros depth; cbn [decodeRecursive cpp_decode_rec].
  - by destruct (is_string zm).
  - destruct ((S n =? 1)%nat && is_number zm).
    + cbv zeta. destruct (dim_var zm depth); cbn [pprint]; rewrite pprint_resize; rewrite ?Nat.add_0_r;
        replace (1 + depth + 1)%nat with (2 + depth)%nat by lia;
        (destruct (numbits (mtype zm) =? 0); cbn [pprint app]; unfold sign_infix; rewrite ?app_nil_r, <- ?app_assoc; reflexivity).
    + rewrite pprint_resize. cbn [pprint]. rewrite IH. by rewrite <- ?app_assoc.
Qed.

Lemma pprint_decode_member o zm mode : emit_decode_member o zm mode = pprint o (cpp_decode_member o zm mode).
Proof.
  unfold emit_decode_member, cpp_decode_member. destruct (bool_decide _ && _); [|apply pprint_decode_rec].
  destruct (is_string zm); [done|]. by destruct mode.
Qed.

Lemma pprint_decode_body o ms : forall mode num, emit_decode_members_cpp o ms mode num = pprint o (cpp_decode_body o ms mode num).
Proof.
  induction ms as [|zm ms IH]; intros mode num; cbn [emit_decode_members_cpp cpp_decode_body]; [apply pprint_end|].
  pose proof (pprint_border o mode num zm) as B. destruct (pborder mode num zm) as [[border mode'] num'].
  rewrite B. cbn [pprint]. by rewrite pprint_decode_member, IH.
Qed.

(** The braces of the loops close in reverse order. *)
Lemma pprint_size_loops o zm body n : forall d,
  pprint o (cpp_size_loops zm n d body) =
  concat ((fun n => emit (1 + n) "for (int a%s = 0; a%s < %s; ++a%s) {" [ndec n; ndec n; dim_access zm n; ndec n]) <$> seq d n) ++
  pprint o body ++ concat ((fun n => emit (1 + n) "}" []) <$> reverse (seq d n)).
Proof.
  induction n as [|n IH]; intros d; cbn [cpp_size_loops seq]; [cbn [fmap list_fmap reverse concat app]; by rewrite app_nil_r|].
  rewrite reverse_cons, fmap_app, concat_app. cbn [pprint fmap list_fmap concat]. rewrite IH, app_nil_r. by rewrite <- !app_assoc.
Qed.

Lemma pprint_size_member o zm mode : emit_size_member zm mode = pprint o (cpp_size_member zm mode).
Proof.
  unfold emit_size_member, cpp_size_member. cbv zeta. destruct (is_number zm); [by destruct mode|]. rewrite pprint_size_loops.
  destruct (is_string zm); cbn [pprint]; by rewrite <- ?app_assoc.
Qed.

Lemma pprint_size_body o ms : forall mode, emit_size_members_cpp ms mode = pprint o (cpp_size_body ms mode).
Proof.
  induction ms as [|zm ms IH]; intros mode; cbn [emit_size_members_cpp cpp_size_body]; [by destruct mode|].
  unfold pblank. destruct mode, (is_bits zm); cbn [negb andb pprint]; by rewrite (pprint_size_member o), IH.
Qed.

(** C9: the lines that the C++ emitter writes for the members in the three methods
    without the hash are the text of the programs [cpp_encode_body],
    [cpp_decode_body] and [cpp_size_body], for all members, dimensions and options. *)
Theorem generated_text_cpp (o : cppopts) (ms : list ZCMMember) :
  emit_encode_members_cpp o ms false 0 = pprint o (cpp_encode_body ms false 0) /\
  emit_decode_members_cpp o ms false 0 = pprint o (cpp_decode_body o ms false 0) /\
  emit_size_members_cpp ms false = pprint o (cpp_size_body ms false).
Proof. split; [|split]; [apply pprint_encode_body|apply pprint_decode_body|apply pprint_size_body]. Qed.
