(* ===== verification/CppEnc.v ===== *)
(** * The C++ encoders write the wire format

    The same bits as the C code writes ([CWire]), by recursion over the dimensions
    of a member instead of one loop nest with an index. *)
From S2P Require Import Prelude Bytes CoreTypes Bitfield Transport Url Gen CNum EmitC CCode CWire CEnc EmitCpp CppCode.
Local Open Scope Z_scope.

(** ** Members and their types *)

Lemma is_number_prim zm : is_number zm = true -> isPrimitiveType (fullname (mtype zm)) = true /\ fullname (mtype zm) <> str "string".
Proof. unfold is_number, is_string. intros H. apply andb_true_iff in H as [H1 H2]. split; [done|]. by bool_prop. Qed.

Lemma not_number_cases zm : is_number zm = false ->
  fullname (mtype zm) = str "string" \/ is_string zm = false /\ isPrimitiveType (fullname (mtype zm)) = false.
Proof.
  unfold is_number, is_string. destruct (bool_decide_reflect (fullname (mtype zm) = str "string")); [by left|].
  destruct (isPrimitiveType _); [done|by right].
Qed.

Section Layout.
Context (ms : list ZCMMember).
Hypothesis L : layout_ok ms.

Lemma bits_number k zm : ms !! k = Some zm -> is_bits zm = true -> is_number zm = true.
Proof.
  intros Hk Hb. destruct (lo_bits ms L k zm Hk Hb) as (t&Ht&_). unfold is_number, is_string. unfold itype_of in Ht.
  repeat match type of Ht with (if bool_decide (?t = ?u) then _ else _) = _ => destruct (bool_decide_reflect (t = u)) as [->|]; [done|] end. done.
Qed.

Context (le : bool) (sizeof : cstr -> Z) (tcall : cstr -> val -> Prop) (fs : list val) (kn : cstr -> Prop).

(** The size of a dimension is a number, also where no array has it. *)
Lemma dim_size_total k zm d : Forall2 (field_typed ms le sizeof tcall fs kn) ms fs -> ms !! k = Some zm -> d ∈ dimensions zm ->
  is_Some (dim_size ms fs d).
Proof.
  intros F Hk Hd. unfold dim_size. destruct (mode d) eqn:Em; [done|]. destruct (lo_dims ms L k zm d Hk Hd Em) as (j&m&->&_&Hj&Dm&Ht).
  destruct (Forall2_lookup_l _ _ _ _ _ F Hj) as (x&->&_&Hx). rewrite Dm in Hx. cbn [has_dims] in Hx. unfold elem_ok in Hx.
  unfold isArrayDimType, inArray, arrayDimTypes in Ht. bool_prop. cbn [fmap list_fmap] in Ht.
  assert (isPrimitiveType (fullname (mtype m)) = true /\ bool_decide (fullname (mtype m) = str "string") = false) as [Pr Ns].
  { repeat match type of Ht with _ ∈ _ :: _ => apply elem_of_cons in Ht as [->|Ht]; [done|] end. by apply elem_of_nil in Ht. }
  rewrite Pr, Ns in Hx. destruct (is_bits m); [destruct Hx as (z&->&_)|destruct Hx as (z&K&->&_)]; by eexists.
Qed.
End Layout.

(** An array whose last size is not positive has no bits. *)
Lemma dims_bits_empty size lim P f ds d n : last ds = Some d -> size d = Some n -> n <= 0 -> forall v,
  has_dims size lim P ds v -> dims_bits f ds v = [].
Proof.
  intros Hl Hs Hn. induction ds as [|e ds IH]; [done|]. intros v (l&->&He&_&F). cbn [dims_bits]. destruct ds as [|e' ds].
  - cbn in Hl. injection Hl as ->. rewrite Hs in He. injection He as ->. destruct l; [done|]. cbn [length] in Hn. lia.
  - clear He. induction F as [|x l Hx F IHl]; [done|]. cbn [fmap list_fmap concat]. rewrite IHl, IH by done. done.
Qed.

(** ** Statements *)

(** What a method that encodes one object promises. *)
Definition enc_one_ok (ok : val -> Prop) (bits : val -> list bool) (f : list byte -> Z -> Z -> val -> option (list byte * Z)) : Prop :=
  forall buf off max v, bytes_ok buf -> 0 <= off -> off + max <= blen buf -> blen buf < 2 ^ 28 -> ok v -> blen (bits v) <= 8 * max ->
    exists buf' m, f buf off max v = Some (buf', m) /\ blen (bits v) = 8 * m /\ writes buf buf' (8 * off) (bits v).

Lemma cut_id s : 0 ∉ s -> cut s = s.
Proof.
  induction s as [|c s IH]; intros H; [done|]. apply not_elem_of_cons in H as [Hc Hs]. cbn [cut].
  rewrite (proj2 (Z.eqb_neq c 0)) by done. by rewrite IH.
Qed.

Section Enc.
Context (ms : list ZCMMember) (o : cppopts) (sizeof : cstr -> Z).
Let le := cpp_little_endian o.
Context (call : cstr -> list byte -> Z -> Z -> val -> option (list byte * Z)).
Context (tcall : cstr -> val -> Prop) (bcall : cstr -> val -> list bool).
Context (fs : list val) (offset maxlen : Z) (buf0 : list byte).
Hypothesis L : layout_ok ms.
Hypothesis Hoff : 0 <= offset.
Hypothesis Hmax : offset + maxlen <= blen buf0.
Hypothesis Hbuf : blen buf0 < 2 ^ 28.

Notation at_ := (enc_at offset buf0).

Definition pstep (mode : bool) (s : pstmt) (cur : val) (bs : list bool) : Prop :=
  forall acc st, at_ mode acc st -> blen (acc ++ bs) <= 8 * maxlen ->
    exists st', exec_penc ms o call fs offset maxlen s cur st = Some (inl st') /\ at_ mode (acc ++ bs) st'.

(** A call that writes [bs] wherever there is space for it. *)
Lemma enc_advance_ok acc st bs (f : list byte -> Z -> Z -> option (list byte * Z)) : at_ false acc st -> blen (acc ++ bs) <= 8 * maxlen ->
  (forall buf off max, bytes_ok buf -> 0 <= off -> off + max <= blen buf -> blen buf < 2 ^ 28 -> blen bs <= 8 * max ->
    exists buf' m, f buf off max = Some (buf', m) /\ blen bs = 8 * m /\ writes buf buf' (8 * off) bs) ->
  exists st', enc_advance st (f (es_buf st) (u32 (offset + es_pos st)) (u32 (maxlen - es_pos st))) = Some (inl st') /\ at_ false (acc ++ bs) st'.
Proof.
  intros Ha Hm HF. pose proof Ha as ((B1&L1&_)&Hp&E&_). cbn iota in E. pose proof Hm as Hm'. rewrite length_app in Hm'.
  destruct (HF (es_buf st) (offset + es_pos st) (maxlen - es_pos st)) as (buf'&m&Ef&Em&W'); [done|lia|lia|lia|lia|].
  destruct (enc_calls offset maxlen buf0 Hoff Hmax Hbuf acc st bs buf' m Ha Hm Em W') as [E0 H'].
  rewrite (u32_id (offset + es_pos st)), (u32_id (maxlen - es_pos st)), Ef by lia. unfold enc_advance. rewrite E0. by eexists.
Qed.

(** The elements of a place. *)
Definition place_at (p : place) (zm : ZCMMember) (cur : val) (vs : list val) : Prop :=
  place_vals cur p = Some vs /\ place_count ms fs zm p = Some (blen vs) /\ blen vs < 2 ^ 31 /\ Forall (elem_ok le tcall zm) vs.

Lemma enc_place p zm cur vs : is_bits zm = false -> isPrimitiveType (fullname (mtype zm)) = true -> place_at p zm cur vs ->
  pstep false (PEncode p zm) cur (all_bits (elem_bits le bcall zm) vs).
Proof.
  intros Nb Pr (Pv&Pc&Hl&Fv) acc st Ha Hm. cbn [exec_penc]. rewrite Pv, Pc, (u32_id (blen vs)) by lia.
  apply (enc_advance_ok acc st _ (fun b off max => prim_encode le (fullname (mtype zm)) b off max vs (blen vs)) Ha Hm).
  intros buf off max B Ho Hb Hlb Hs. by apply (prim_encode_ok le zm Nb Pr tcall bcall).
Qed.

Lemma enc_place_bits k p zm cur vs : ms !! k = Some zm -> is_bits zm = true -> place_at p zm cur vs ->
  pstep true (PEncodeBits p zm) cur (all_bits (elem_bits le bcall zm) vs).
Proof.
  intros Hk Hb (Pv&Pc&Hl&Fv) acc st Ha Hm. cbn [exec_penc]. destruct (lo_bits ms L k zm Hk Hb) as (t&Ht&F).
  destruct (bit_numbers le zm tcall bcall vs Hb Fv) as (zs&->&Em&_&Eb). rewrite length_fmap in *.
  pose proof (take_vals_all (VNum <$> zs)) as Tv. rewrite length_fmap in Tv.
  rewrite Pv, Pc, (u32_id (blen zs)), Tv, Em, Ht by lia. rewrite Eb in *.
  destruct (enc_bits_calls offset maxlen buf0 Hoff Hmax Hbuf t _ _ zs acc st F Hl Ha Hm) as (buf'&r&pos&bit&->&->&->&H'). by eexists.
Qed.

Lemma enc_string p zm cur : is_bits zm = false -> fullname (mtype zm) = str "string" -> elem_ok le tcall zm cur ->
  pstep false (PEncodeString p zm) cur (elem_bits le bcall zm cur).
Proof.
  intros Nb Ht Hc acc st Ha Hm. assert (isPrimitiveType (fullname (mtype zm)) = true) as Pr by (by rewrite Ht). cbn [exec_penc].
  pose proof Hc as Hs. unfold elem_ok in Hs. rewrite Nb, Pr, bool_decide_true in Hs by done. destruct Hs as (s&->&_&H0). cbn [str_of]. rewrite (cut_id s H0).
  apply (enc_advance_ok acc st _ (fun b off max => (if le then __string_encode_little_endian_array else __string_encode_array) b off max [s]) Ha Hm).
  intros buf off max B Ho Hb Hl Hs. pose proof (prim_encode_ok le zm Nb Pr tcall bcall buf off max [VStr s] B Ho Hb Hl
    ltac:(by constructor) ltac:(done)) as HP. unfold all_bits in HP. cbn [fmap list_fmap concat] in HP. rewrite app_nil_r in HP.
  unfold prim_encode in HP. rewrite Ht, bool_decide_true, take_vals_all in HP by done. by apply HP.
Qed.

Lemma enc_struct i d zm cur : is_bits zm = false -> isPrimitiveType (fullname (mtype zm)) = false ->
  enc_one_ok (tcall (fullname (mtype zm))) (bcall (fullname (mtype zm))) (call (fullname (mtype zm))) -> elem_ok le tcall zm cur ->
  pstep false (PEncodeStruct i d zm) cur (elem_bits le bcall zm cur).
Proof.
  intros Nb Pr HC Hc acc st Ha Hm. cbn [exec_penc]. unfold elem_ok in Hc. unfold elem_bits in *. rewrite Nb, Pr in *.
  apply (enc_advance_ok acc st _ (fun b off max => call (fullname (mtype zm)) b off max cur) Ha Hm). intros. by apply HC.
Qed.

(** ** Members *)

Context (kn : cstr -> Prop).
Hypothesis Hcall : forall ty, isPrimitiveType ty = false -> kn ty -> enc_one_ok (tcall ty) (bcall ty) (call ty).

Notation dims_typed zm := (has_dims (dim_size ms fs) (fits sizeof zm) (elem_ok le tcall zm)).

Lemma loop_count_dim zm d zd n : dimensions zm !! d = Some zd -> dim_size ms fs zd = Some (Z.of_nat n) -> Z.of_nat n < 2 ^ 31 ->
  array_size ms fs zm d = Some (Z.of_nat n) /\ loop_count ms fs zm d = Some n.
Proof.
  intros Hd Hs Hn. assert (array_size ms fs zm d = Some (Z.of_nat n)) as E.
  { unfold array_size. rewrite bool_decide_false by (intros E; by rewrite E in Hd). by rewrite Hd. }
  split; [done|]. unfold loop_count. rewrite E, (proj2 (Z.ltb_lt _ _)), Nat2Z.id by done. done.
Qed.

Lemma enc_rec k zm e : ms !! k = Some zm -> kn (fullname (mtype zm)) -> forall n depth cur,
  (depth + n)%nat = length (dimensions zm) -> (n = 0%nat -> is_number zm = false) -> dims_typed zm (drop depth (dimensions zm)) cur ->
  pstep (is_bits zm) (cpp_encode_rec zm n depth e) cur (dims_bits (elem_bits le bcall zm) (drop depth (dimensions zm)) cur).
Proof.
  intros Hk Hkn. induction n as [|n IH]; intros depth cur Hn Hz Hv; cbn [cpp_encode_rec].
  - rewrite drop_ge in Hv |- * by lia. specialize (Hz eq_refl). assert (is_bits zm = false) as Nb.
    { destruct (is_bits zm) eqn:Eb; [|done]. by rewrite (bits_number ms L k zm Hk Eb) in Hz. }
    cbn [Nat.eqb andb has_dims dims_bits] in *. rewrite Nb. destruct (not_number_cases zm Hz) as [Hs|[-> Pr]].
    + unfold is_string. rewrite bool_decide_true by done. by apply enc_string.
    + apply enc_struct; try done. by apply Hcall.
  - destruct (lookup_lt_is_Some_2 (dimensions zm) depth) as [zd Hzd]; [lia|]. rewrite (drop_S _ _ _ Hzd) in Hv |- *.
    destruct Hv as (l&->&Hs&[Hl _]&Fl). cbn [dims_bits]. destruct (loop_count_dim zm depth zd _ Hzd Hs Hl) as [Es Ec].
    destruct ((S n =? 1)%nat && is_number zm) eqn:E1.
    + apply andb_true_iff in E1 as [E1 En]. apply Nat.eqb_eq in E1. rewrite drop_ge in Fl |- * by lia. fold (all_bits (elem_bits le bcall zm) l).
      assert (place_at (At (e + 1 + depth) depth) zm (VArr l) l) as P by done. pose proof (is_number_prim zm En) as [Pr _].
      unfold is_bits at 1. destruct (numbits (mtype zm) =? 0) eqn:Eb; [apply enc_place; try done|eapply enc_place_bits; try done]; unfold is_bits; by rewrite Eb.
    + set (bits := dims_bits (elem_bits le bcall zm) (drop (S depth) (dimensions zm))) in *. fold (all_bits bits l).
      intros acc st Ha Hm. cbn [exec_penc]. rewrite Ec. cbn [arr_of]. rewrite length_app in Hm.
      edestruct (for_loop_inv (R := list byte * Z) (fun a st => at_ (is_bits zm) (acc ++ all_bits bits (take a l)) st)) as (st'&E&H').
      3: { exists st'. split; [exact E|]. cbn beta in H'. by rewrite Nat.add_0_l, firstn_all in H'. }
      { cbn beta. by rewrite app_nil_r. }
      intros i s Hi Hinv. destruct (lookup_lt_is_Some_2 l i) as [y Hy]; [lia|]. rewrite Hy, (all_bits_take_S _ _ _ _ Hy), app_assoc.
      apply IH; [lia| | |done|].
      * intros ->. by destruct (is_number zm).
      * by eapply Forall_lookup_1 in Fl.
      * rewrite <- app_assoc, <- (all_bits_take_S _ _ _ _ Hy), length_app. pose proof (all_bits_take bits l (S i)). lia.
Qed.

Lemma enc_scalar k zm cur : ms !! k = Some zm -> is_number zm = true -> elem_ok le tcall zm cur ->
  pstep (is_bits zm) (if negb (is_bits zm) then PEncode Scalar zm else PEncodeBits Scalar zm) cur (elem_bits le bcall zm cur).
Proof.
  intros Hk Hn Hc. pose proof (is_number_prim zm Hn) as [Pr _]. assert (place_at Scalar zm cur [cur]) as P.
  { split; [done|]. split; [done|]. split; [done|]. by constructor. }
  replace (elem_bits le bcall zm cur) with (all_bits (elem_bits le bcall zm) [cur]) by (unfold all_bits; cbn [fmap list_fmap concat]; apply app_nil_r).
  destruct (is_bits zm) eqn:Eb; cbn [negb]; [by eapply enc_place_bits|by apply enc_place].
Qed.

Lemma enc_pmember k zm x : Forall2 (field_typed ms le sizeof tcall fs kn) ms fs -> ms !! k = Some zm -> fs !! k = Some x ->
  pstep (is_bits zm) (cpp_encode_member zm (is_bits zm)) x (dims_bits (elem_bits le bcall zm) (dimensions zm) x).
Proof.
  intros F Hk Hx. destruct (Forall2_lookup_lr _ _ _ _ _ _ F Hk Hx) as [Hkn Hv]. unfold cpp_encode_member.
  destruct (bool_decide (dimensions zm = [])) eqn:Ed; bool_prop.
  - rewrite Ed in Hv |- *. cbn [has_dims dims_bits] in *. destruct (is_number zm) eqn:En.
    + pose proof (is_number_prim zm En) as [-> Ns]. unfold is_string. rewrite bool_decide_false by done. by eapply enc_scalar.
    + assert (is_bits zm = false) as Nb by (destruct (is_bits zm) eqn:Eb; [by rewrite (bits_number ms L k zm Hk Eb) in En|done]).
      destruct (not_number_cases zm En) as [Hs|[Ns Pr]].
      * unfold is_string. rewrite Hs, Nb. cbn [negb]. by apply enc_string.
      * rewrite Pr. pose proof (enc_rec k zm 0 Hk Hkn 0 0 x) as H. rewrite Ed in H. by apply H.
  - assert (forall e, pstep (is_bits zm) (cpp_encode_rec zm (length (dimensions zm)) 0 e) x (dims_bits (elem_bits le bcall zm) (dimensions zm) x)) as HR.
    { intros e. pose proof (enc_rec k zm e Hk Hkn (length (dimensions zm)) 0 x) as H. rewrite drop_0 in H. apply H; [done| |done].
      intros E. by apply length_zero_iff_nil in E. }
    destruct (guarded zm); [|apply HR]. destruct (lookup_lt_is_Some_2 (dimensions zm) (inner zm)) as [zd Hzd].
    { unfold inner. destruct (dimensions zm); [done|]. cbn [length]. lia. }
    destruct (dim_size_total ms L le sizeof tcall fs kn k zm zd F Hk) as [n Hn]; [by eapply list_elem_of_lookup_2|].
    intros acc st Ha Hm. cbn [exec_penc]. unfold array_size. rewrite bool_decide_false, Hzd, Hn by done. destruct (0 <? n) eqn:E0; [by apply HR|].
    bool_prop. erewrite dims_bits_empty; [|by rewrite last_lookup, <- Nat.sub_1_r|exact Hn|done|exact Hv]. rewrite app_nil_r. by exists st.
Qed.

(** ** Classes *)

Lemma enc_pend acc st num : at_ true acc st -> blen (pad acc) <= 8 * maxlen ->
  exists st', exec_penc ms o call fs offset maxlen PPosBitEnd num st = Some (inl st') /\ at_ false (pad acc) st'.
Proof. intros Ha Hm. by apply (enc_end ms le (fun _ _ _ _ _ _ => None) fs offset maxlen buf0 Hoff Hmax Hbuf acc st [] Ha Hm). Qed.

Lemma enc_pborder mode num zm cur acc st : at_ mode acc st -> blen (if mode && negb (is_bits zm) then pad acc else acc) <= 8 * maxlen ->
  exists border num' st', pborder mode num zm = (border, is_bits zm, num') /\
    exec_penc ms o call fs offset maxlen border cur st = Some (inl st') /\
    at_ (is_bits zm) (if mode && negb (is_bits zm) then pad acc else acc) st'.
Proof.
  intros H Hm. unfold pborder. destruct mode, (is_bits zm) eqn:Eb; cbn [andb negb] in *; try by exists (PNote []), num, st.
  - destruct (enc_pend acc st cur H Hm) as (st'&E&H'). do 2 eexists. exists st'. split; [done|]. split; [|done]. cbn [exec_penc] in *. by rewrite E.
  - do 2 eexists. exists (mkEst (es_buf st) (es_pos st) 0). split; [done|]. split; [done|]. destruct H as (W&Hp&E&_). cbn iota in E.
    unfold enc_at. cbn [es_buf es_pos es_bit]. split; [done|]. split; [done|]. split; [lia|]. intros _. split; [lia|]. by intros [].
Qed.

Lemma enc_pmembers : Forall2 (field_typed ms le sizeof tcall fs kn) ms fs -> forall ms' fs' k mode num acc st cur,
  (forall j, ms !! (k + j)%nat = ms' !! j) -> (forall j, fs !! (k + j)%nat = fs' !! j) -> length ms' = length fs' ->
  at_ mode acc st -> blen (members_bits le bcall ms' fs' mode acc) <= 8 * maxlen ->
  exists st', exec_penc ms o call fs offset maxlen (cpp_encode_body ms' mode num) cur st = Some (inl st') /\
    at_ false (members_bits le bcall ms' fs' mode acc) st'.
Proof.
  intros F. induction ms' as [|zm ms' IH]; intros fs' k mode num acc st cur Em Ef El Ha Hm; cbn [cpp_encode_body].
  - destruct fs'; [|done]. cbn [members_bits] in *. destruct mode; [|by exists st].
    destruct (enc_pend acc st cur Ha Hm) as (st'&E&H'). exists st'. split; [|done]. cbn [pend exec_penc] in *. by rewrite E.
  - destruct fs' as [|x fs1]; [done|]. cbn [members_bits] in *.
    set (acc1 := if mode && negb (is_bits zm) then pad acc else acc) in *.
    set (bs := dims_bits (elem_bits le bcall zm) (dimensions zm) x) in *.
    pose proof (members_bits_mono le bcall ms' fs1 (is_bits zm) (acc1 ++ bs)) as Mo. rewrite length_app in Mo.
    destruct (enc_pborder mode num zm cur acc st Ha ltac:(fold acc1; lia)) as (border&num'&st1&->&E1&H1). cbn [exec_penc]. rewrite E1.
    pose proof (Em 0%nat) as Hk. pose proof (Ef 0%nat) as Hfk. rewrite Nat.add_0_r in Hk, Hfk. cbn [lookup list_lookup] in Hk, Hfk.
    rewrite (lo_index ms L k zm Hk), Hfk.
    destruct (enc_pmember k zm x F Hk Hfk acc1 st1 H1) as (st2&E2&H2); [fold bs; rewrite length_app; lia|]. rewrite E2.
    cbn [pblank exec_penc]. apply (IH fs1 (S k)); [|..|cbn [length] in El; lia|done|done].
    + intros j. specialize (Em (S j)). by rewrite Nat.add_succ_r in Em.
    + intros j. specialize (Ef (S j)). by rewrite Nat.add_succ_r in Ef.
Qed.
End Enc.

(** [_encodeNoHash] of a class writes the format of its objects. *)
Lemma encodeNoHash_ok env o sizeof (Henv : env_ok env) fuel : forall name, isPrimitiveType name = false -> known env fuel name ->
  enc_one_ok (typed env (cpp_little_endian o) sizeof fuel name) (struct_bits env (cpp_little_endian o) fuel name) (_encodeNoHash env o fuel name).
Proof.
  induction fuel as [|fuel IH]; intros name Pr K buf off max v B Ho Hb Hl Hv Hm; unfold known in K; rewrite Pr in K; [done|].
  destruct K as [zs Hz]. destruct Hv as (zs'&fs&Hz'&->&F). rewrite Hz in Hz'. injection Hz' as <-. pose proof (Henv name zs Hz) as Lo.
  cbn [_encodeNoHash struct_bits fields_of] in *. rewrite Hz in Hm |- *.
  destruct (enc_pmembers (members zs) o sizeof (_encodeNoHash env o fuel) (typed env (cpp_little_endian o) sizeof fuel)
    (struct_bits env (cpp_little_endian o) fuel) fs off max buf Lo Ho Hb Hl
    (known env fuel) ltac:(intros; by apply IH) F (members zs) fs 0 false 0 [] (mkEst buf 0 0) VUndef) as (st'&->&W&Hp&E&_);
    [done|done|by eapply Forall2_length|split; [apply writes_refl; [done|lia]|done]|done|].
  cbn iota in E. exists (es_buf st'), (es_pos st'). rewrite wraps_id by (unfold in_s; lia). split; [done|]. split; [lia|done].
Qed.
