(* ===== verification/CppSize.v ===== *)
(** * The sizes that the C++ code announces

    [_getEncodedSizeNoHash] multiplies the sizes of the dimensions of an array of
    numbers, as [int]s or [int64_t]s, where the C code loops over them.  The result is
    the length of the message when these products do not overflow. *)
From S2P Require Import Prelude Bytes CoreTypes Bitfield Transport Url Gen CNum EmitC CCode CWire CEnc CRound EmitCpp CppCode CppEnc.
Local Open Scope Z_scope.

(** ** Products of sizes *)

Lemma concat_length_scaled {A} (f : A -> list bool) (c M : Z) (l : list A) : Forall (fun y => blen (f y) * c = M) l ->
  blen (concat (f <$> l)) * c = blen l * M.
Proof.
  induction 1 as [|y l Hy _ IH]; [done|]. cbn [fmap list_fmap concat length]. rewrite length_app. lia.
Qed.

Lemma in_width_pos w z : 32 <= w -> 0 <= z < 2 ^ 31 -> in_width w z = true.
Proof.
  intros Hw Hz. unfold in_width. pose proof (Z.pow_le_mono_r 2 31 (w - 1) ltac:(lia) ltac:(lia)).
  rewrite (proj2 (Z.leb_le _ _)), (proj2 (Z.ltb_lt _ _)) by lia. done.
Qed.

Section Product.
Context (ms : list ZCMMember) (fs : list val) (zm : ZCMMember).

Lemma product_split n m : forall d acc w, product ms fs zm (n + m) d acc w =
  match product ms fs zm n d acc w with Some (p, w) => product ms fs zm m (d + n) p w | None => None end.
Proof.
  induction n as [|n IH]; intros d acc w; cbn [product Nat.add]; [by rewrite Nat.add_0_r|].
  destruct (array_size ms fs zm d); [|done]. destruct (in_width _ _); [|done]. rewrite IH. by replace (S d + n)%nat with (d + S n)%nat by lia.
Qed.

Lemma product_zero n : forall d w p w', product ms fs zm n d 0 w = Some (p, w') -> p = 0.
Proof.
  induction n as [|n IH]; intros d w p w'; cbn [product]; [congruence|].
  destruct (array_size ms fs zm d); [|done]. rewrite Z.mul_0_l. destruct (in_width _ _); [|done]. apply IH.
Qed.

Lemma product_width n : forall d acc w p w', product ms fs zm n d acc w = Some (p, w') -> w <= w'.
Proof.
  induction n as [|n IH]; intros d acc w p w'; cbn [product]; [intros [= _ ->]; lia|].
  destruct (array_size ms fs zm d); [|done]. destruct (in_width _ _); [|done]. intros H%IH. lia.
Qed.

Context (lim : nat -> Z -> Prop) (P : val -> Prop) (f : val -> list bool) (width : Z).
Hypothesis Hlim : forall n k, lim n k -> k < 2 ^ 31.
Hypothesis Hf : forall v, P v -> blen (f v) = width.

Lemma dim_array_size d zd : dimensions zm !! d = Some zd -> array_size ms fs zm d = dim_size ms fs zd.
Proof. intros Hd. unfold array_size. rewrite bool_decide_false by (intros E; by rewrite E in Hd). by rewrite Hd. Qed.

(** All parts of an array have the same length. *)
Lemma product_bits n : forall d v acc w N w', (d + n)%nat = length (dimensions zm) ->
  has_dims (dim_size ms fs) lim P (drop d (dimensions zm)) v -> product ms fs zm n d acc w = Some (N, w') ->
  blen (dims_bits f (drop d (dimensions zm)) v) * acc = N * width.
Proof.
  induction n as [|n IH]; intros d v acc w N w' Hn Hv; cbn [product].
  - rewrite drop_ge in Hv |- * by lia. intros [= <- _]. cbn [has_dims dims_bits] in *. rewrite Hf by done. lia.
  - destruct (lookup_lt_is_Some_2 (dimensions zm) d) as [zd Hzd]; [lia|]. rewrite (drop_S _ _ _ Hzd) in Hv |- *.
    destruct Hv as (l&->&Hs&_&F). rewrite (dim_array_size d zd Hzd), Hs. destruct (in_width _ _); [|done]. intros HP. cbn [dims_bits].
    destruct (decide (l = [])) as [->|Nl]; [cbn [length] in HP; rewrite Z.mul_0_r in HP; apply product_zero in HP as ->; cbn; lia|].
    assert (blen l <> 0) as Nz by (destruct l; [done|cbn [length]; lia]).
    apply (Z.mul_cancel_r _ _ (blen l)); [done|]. rewrite <- Z.mul_assoc, (Z.mul_comm (N * width)). apply concat_length_scaled.
    eapply Forall_impl; [exact F|]. intros y Hy. eapply IH; [lia|exact Hy|exact HP].
Qed.

(** The product of the outer sizes is zero or there is a last size. *)
Lemma product_last n : forall d v acc w p w', (d + S n)%nat = length (dimensions zm) ->
  has_dims (dim_size ms fs) lim P (drop d (dimensions zm)) v -> product ms fs zm n d acc w = Some (p, w') -> 0 <= acc ->
  p = 0 \/ 0 <= p /\ exists k, array_size ms fs zm (d + n) = Some k /\ 0 <= k < 2 ^ 31.
Proof.
  induction n as [|n IH]; intros d v acc w p w' Hn Hv; cbn [product];
    (destruct (lookup_lt_is_Some_2 (dimensions zm) d) as [zd Hzd]; [lia|]); rewrite (drop_S _ _ _ Hzd) in Hv;
    destruct Hv as (l&->&Hs&Hl%Hlim&F).
  - intros [= <- _] Ha. right. split; [done|]. exists (blen l). rewrite Nat.add_0_r, (dim_array_size d zd Hzd). split; [done|lia].
  - rewrite (dim_array_size d zd Hzd), Hs. destruct (in_width _ _); [|done]. intros HP Ha. destruct l as [|y l].
    { cbn [length] in HP. rewrite Z.mul_0_r in HP. apply product_zero in HP. by left. }
    apply Forall_cons in F as [Hy _]. replace (d + S n)%nat with (S d + n)%nat by lia. eapply IH; [lia|exact Hy|exact HP|lia].
Qed.
End Product.

(** ** Which messages have defined sizes *)

Fixpoint all_elems (P : val -> Prop) (ds : list ZCMDimension) (v : val) : Prop :=
  match ds with
  | [] => P v
  | _ :: ds => match v with VArr l => Forall (all_elems P ds) l | _ => True end
  end.

(** The product of the sizes of an array of numbers does not overflow. *)
Definition member_products (call : cstr -> val -> Prop) (ms : list ZCMMember) (fs : list val) (zm : ZCMMember) (x : val) : Prop :=
  if is_number zm then is_Some (product ms fs zm (length (dimensions zm)) 0 1 32)
  else if is_string zm then True else all_elems (call (fullname (mtype zm))) (dimensions zm) x.

Fixpoint products_ok (env : list ZCMStruct) (fuel : nat) (name : cstr) (v : val) : Prop :=
  match fuel with
  | O => True
  | S fuel =>
      match find_struct env name, v with
      | Some zs, VStruct fs => Forall2 (member_products (products_ok env fuel) (members zs) fs) (members zs) fs
      | _, _ => True
      end
  end.

Definition size_one_ok (ok : val -> Prop) (bits : val -> list bool) (f : val -> option Z) : Prop :=
  forall v, ok v -> blen (bits v) <= 2 ^ 31 - 8 -> exists m, f v = Some m /\ blen (bits v) = 8 * m.

(** ** Statements *)

Section Size.
Context (ms : list ZCMMember) (o : cppopts) (sizeof : cstr -> Z) (call : cstr -> val -> option Z).
Let le := cpp_little_endian o.
Context (tcall pcall : cstr -> val -> Prop) (bcall : cstr -> val -> list bool) (fs : list val).
Hypothesis L : layout_ok ms.

Definition pstep_size (mode : bool) (s : pstmt) (cur : val) (bs : list bool) : Prop :=
  forall acc st, size_at mode acc st -> blen (acc ++ bs) <= 2 ^ 31 - 8 ->
    exists st', exec_psize ms o call fs s cur st = Some (inl st') /\ size_at mode (acc ++ bs) st'.

Notation dims_typed zm := (has_dims (dim_size ms fs) (fits sizeof zm) (elem_ok le tcall zm)).

Lemma size_advance acc st bs m : size_at false acc st -> blen (acc ++ bs) <= 2 ^ 31 - 8 -> blen bs = 8 * m ->
  size_at false (acc ++ bs) (mkSst (u32 (ss_size st + m)) (ss_numbits st)).
Proof.
  intros (Hp&E&_) Hm Em. cbn iota in E. unfold size_at. cbn [ss_size ss_numbits]. rewrite length_app in *. rewrite u32_id by lia.
  split; [lia|]. split; [lia|done].
Qed.

Lemma number_length zm K v : is_bits zm = false -> is_number zm = true -> codec_of le (fullname (mtype zm)) = Some K -> elem_ok le tcall zm v ->
  blen (elem_bits le bcall zm v) = 8 * Z.of_nat (size K).
Proof.
  intros Nb Nu HK Hv. destruct (is_number_prim zm Nu) as [Pr Ns]. unfold elem_ok in Hv. unfold elem_bits.
  rewrite Nb, Pr, bool_decide_false in * by done. destruct Hv as (z&K'&->&_&_). cbn [prim_bytes]. rewrite HK, length_bytes_bits. by rewrite enc_length.
Qed.

Lemma size_numbers zm x : is_bits zm = false -> is_number zm = true -> is_Some (product ms fs zm (length (dimensions zm)) 0 1 32) ->
  dims_typed zm (dimensions zm) x -> pstep_size false (PSizeNumbers zm) x (dims_bits (elem_bits le bcall zm) (dimensions zm) x).
Proof.
  intros Nb Nu [[N w] HP] Hv acc st Ha Hm. cbn [exec_psize]. destruct (is_number_prim zm Nu) as [Pr Ns].
  destruct (codec_total le _ Pr Ns) as [K HK]. fold le. rewrite HK.
  pose proof (fun v => number_length zm K v Nb Nu HK) as Hf. assert (0 < Z.of_nat (size K)) as HKs by (pose proof (size_pos (Codec := K)); lia).
  assert (forall n k, fits sizeof zm n k -> k < 2 ^ 31) as Hlim by (by intros n k [? _]).
  pose proof (product_bits ms fs zm (fits sizeof zm) _ (elem_bits le bcall zm) _ Hf (length (dimensions zm)) 0 x 1 32 N w eq_refl Hv HP) as Hb.
  rewrite drop_0, Z.mul_1_r in Hb. pose proof Hm as Hm'. rewrite length_app in Hm'.
  assert (exists p w' n, product ms fs zm (length (dimensions zm) - 1) 0 1 32 = Some (p, w') /\ array_size ms fs zm (inner zm) = Some n /\
    N = p * n /\ 32 <= w' /\ (p = 0 \/ 0 <= p /\ 0 <= n < 2 ^ 31)) as (p&w'&n&->&->&->&Hw&Hpn).
  { destruct (dimensions zm) as [|zd ds] eqn:Ed.
    - cbn in HP. injection HP as <- <-. exists 1, 32, 1. unfold array_size. rewrite Ed. cbn. split; [done|]. split; [done|]. lia.
    - cbn [length] in HP |- *. replace (S (length ds) - 1)%nat with (length ds) by lia. rewrite <- (Nat.add_1_r (length ds)), product_split in HP.
      destruct (product ms fs zm (length ds) 0 1 32) as [[p w']|] eqn:Ep; [|done]. cbn [product Nat.add] in HP.
      destruct (array_size ms fs zm (length ds)) as [n|] eqn:Es; [|done]. destruct (in_width _ _); [|done]. injection HP as <- _.
      exists p, w', n. unfold inner. rewrite Ed. cbn [length]. replace (S (length ds) - 1)%nat with (length ds) by lia. split; [done|]. split; [done|]. split; [done|].
      split; [by apply product_width in Ep|].
      destruct (product_last ms fs zm (fits sizeof zm) (elem_ok le tcall zm) Hlim (length ds) 0 x 1 32 p w') as [?|(?&k&Ek&?)]; [by rewrite Ed|by rewrite Ed|done|done|by left|].
      cbn [Nat.add] in Ek. rewrite Es in Ek. injection Ek as ->. by right. }
  assert (p * encoded_array_size K (u32 n) = p * n * Z.of_nat (size K) /\ 0 <= p * n * Z.of_nat (size K) < 2 ^ 31) as [-> Hr].
  { destruct Hpn as [->|[Hp Hn]]; [lia|]. destruct (decide (p = 0)) as [->|]; [lia|]. unfold encoded_array_size. rewrite (u32_id n) by lia.
    assert (Z.of_nat (size K) * n <= p * n * Z.of_nat (size K)) by nia. rewrite u32_id by nia. nia. }
  rewrite (in_width_pos w' _ Hw Hr), orb_true_r. eexists. split; [done|]. apply size_advance; [done|done|lia].
Qed.

Lemma size_pbits k zm x : ms !! k = Some zm -> is_bits zm = true -> is_Some (product ms fs zm (length (dimensions zm)) 0 1 32) ->
  dims_typed zm (dimensions zm) x -> pstep_size true (PSizeBits zm) x (dims_bits (elem_bits le bcall zm) (dimensions zm) x).
Proof.
  intros Hk Hb [[N w] HP] Hv acc st (Hp&E&Hq) Hm. specialize (Hq eq_refl). cbn iota in E. cbn [exec_psize]. rewrite HP.
  destruct (lo_bits ms L k zm Hk Hb) as (t&_&[Hn _]).
  assert (forall v, elem_ok le tcall zm v -> blen (elem_bits le bcall zm v) = numbits (mtype zm)) as Hf.
  { intros v Hev. unfold elem_ok in Hev. unfold elem_bits. rewrite Hb in *. destruct Hev as (z&->&_). apply length_field_bits. lia. }
  pose proof (product_bits ms fs zm (fits sizeof zm) _ (elem_bits le bcall zm) _ Hf (length (dimensions zm)) 0 x 1 32 N w eq_refl Hv HP) as Hbl.
  rewrite drop_0, Z.mul_1_r in Hbl. rewrite length_app in Hm. rewrite <- Hbl, in_width_pos by first [by apply product_width in HP|lia].
  eexists. split; [done|]. unfold size_at. cbn [ss_size ss_numbits]. rewrite length_app, u32_id by lia. split; [done|]. split; lia.
Qed.

Lemma size_string zm cur : is_bits zm = false -> fullname (mtype zm) = str "string" -> elem_ok le tcall zm cur ->
  pstep_size false (PSizeString zm) cur (elem_bits le bcall zm cur).
Proof.
  intros Nb Ht Hc acc st Ha Hm. assert (isPrimitiveType (fullname (mtype zm)) = true) as Pr by (by rewrite Ht). cbn [exec_psize].
  unfold elem_ok in Hc. rewrite Nb, Pr, bool_decide_true in Hc by done. destruct Hc as (s&->&_). cbn [str_of].
  eexists. split; [done|]. apply size_advance; [done|done|]. unfold elem_bits. rewrite Nb, Pr. cbn [prim_bytes]. rewrite length_bytes_bits.
  rewrite (length_string_bytes (word_codec le) int8_codec (word_codec_size le) eq_refl s). lia.
Qed.

Lemma size_struct zm cur : is_bits zm = false -> isPrimitiveType (fullname (mtype zm)) = false ->
  size_one_ok (fun v => tcall (fullname (mtype zm)) v /\ pcall (fullname (mtype zm)) v) (bcall (fullname (mtype zm))) (call (fullname (mtype zm))) ->
  elem_ok le tcall zm cur -> pcall (fullname (mtype zm)) cur ->
  pstep_size false (PSizeStruct zm) cur (elem_bits le bcall zm cur).
Proof.
  intros Nb Pr HC Hc Hp acc st Ha Hm. cbn [exec_psize]. unfold elem_ok in Hc. unfold elem_bits in *. rewrite Nb, Pr in *.
  pose proof Hm as Hm'. rewrite length_app in Hm'. destruct (HC cur) as (m&->&Em); [done|lia|]. eexists. split; [done|]. by apply size_advance.
Qed.

(** ** Members *)

Context (kn : cstr -> Prop).
Hypothesis Hcall : forall ty, isPrimitiveType ty = false -> kn ty -> size_one_ok (fun v => tcall ty v /\ pcall ty v) (bcall ty) (call ty).

Lemma size_loops zm body : (forall v, elem_ok le tcall zm v -> (is_string zm = false -> pcall (fullname (mtype zm)) v) ->
    pstep_size false body v (elem_bits le bcall zm v)) -> forall n d v,
  (d + n)%nat = length (dimensions zm) -> dims_typed zm (drop d (dimensions zm)) v ->
  (is_string zm = false -> all_elems (pcall (fullname (mtype zm))) (drop d (dimensions zm)) v) ->
  pstep_size false (cpp_size_loops zm n d body) v (dims_bits (elem_bits le bcall zm) (drop d (dimensions zm)) v).
Proof.
  intros HB. induction n as [|n IH]; intros d v Hn Hv Hp; cbn [cpp_size_loops].
  - rewrite drop_ge in Hv, Hp |- * by lia. by apply HB.
  - destruct (lookup_lt_is_Some_2 (dimensions zm) d) as [zd Hzd]; [lia|]. rewrite (drop_S _ _ _ Hzd) in Hv, Hp |- *.
    destruct Hv as (l&->&Hs&[Hl _]&Fl). cbn [dims_bits all_elems] in *. destruct (loop_count_dim ms fs zm d zd _ Hzd Hs Hl) as [_ Ec].
    set (bits := dims_bits (elem_bits le bcall zm) (drop (S d) (dimensions zm))) in *. fold (all_bits bits l).
    intros acc st Ha Hm. cbn [exec_psize]. rewrite Ec. cbn [arr_of]. rewrite length_app in Hm.
    edestruct (for_loop_inv (R := unit) (fun a st => size_at false (acc ++ all_bits bits (take a l)) st)) as (st'&E&H').
    3: { exists st'. split; [exact E|]. cbn beta in H'. by rewrite Nat.add_0_l, firstn_all in H'. }
    { cbn beta. by rewrite app_nil_r. }
    intros i s Hi Hinv. destruct (lookup_lt_is_Some_2 l i) as [y Hy]; [lia|]. rewrite Hy, (all_bits_take_S _ _ _ _ Hy), app_assoc.
    apply IH; [lia| | |done|].
    + by eapply Forall_lookup_1 in Fl.
    + intros Ns. specialize (Hp Ns). by eapply Forall_lookup_1 in Hp.
    + rewrite <- app_assoc, <- (all_bits_take_S _ _ _ _ Hy), length_app. pose proof (all_bits_take bits l (S i)). lia.
Qed.

Lemma size_pmember k zm x : ms !! k = Some zm -> field_typed ms le sizeof tcall fs kn zm x -> member_products pcall ms fs zm x ->
  pstep_size (is_bits zm) (cpp_size_member zm (is_bits zm)) x (dims_bits (elem_bits le bcall zm) (dimensions zm) x).
Proof.
  intros Hk [Hkn Hv] Hp. unfold cpp_size_member, member_products in *. destruct (is_number zm) eqn:Nu.
  - destruct (is_bits zm) eqn:Eb; cbn [negb]; [by eapply size_pbits|by apply size_numbers].
  - assert (is_bits zm = false) as Nb by (destruct (is_bits zm) eqn:Eb; [by rewrite (bits_number ms L k zm Hk Eb) in Nu|done]).
    rewrite Nb. pose proof (size_loops zm (if is_string zm then PSizeString zm else PSizeStruct zm)) as HL.
    specialize (fun H => HL H (length (dimensions zm)) 0%nat x eq_refl). rewrite drop_0 in HL. apply HL; [|done|].
    + intros v Hev Hpv. destruct (not_number_cases zm Nu) as [Ht|[Ns Pr]].
      * unfold is_string. rewrite bool_decide_true by done. by apply size_string.
      * rewrite Ns in *. apply size_struct; try done; [by apply Hcall|by apply Hpv].
    + intros Ns. by rewrite Ns in Hp.
Qed.

Lemma size_pend acc st cur : size_at true acc st -> blen (pad acc) <= 2 ^ 31 - 8 ->
  exists st', exec_psize ms o call fs PNumbitsEnd cur st = Some (inl st') /\ size_at false (pad acc) st'.
Proof. intros Ha Hm. apply (size_end ms le (fun _ _ _ => None) fs acc st [] Ha Hm). Qed.

Lemma size_pmembers : forall ms' fs' k mode acc st cur, (forall j, ms !! (k + j)%nat = ms' !! j) -> (forall j, fs !! (k + j)%nat = fs' !! j) ->
  Forall2 (field_typed ms le sizeof tcall fs kn) ms' fs' -> Forall2 (member_products pcall ms fs) ms' fs' -> size_at mode acc st ->
  blen (members_bits le bcall ms' fs' mode acc) <= 2 ^ 31 - 8 ->
  exists st', exec_psize ms o call fs (cpp_size_body ms' mode) cur st = Some (inl st') /\ size_at false (members_bits le bcall ms' fs' mode acc) st'.
Proof.
  induction ms' as [|zm ms' IH]; intros fs' k mode acc st cur Em Ef F G Ha Hm; cbn [cpp_size_body].
  - apply Forall2_nil_inv_l in F as ->. cbn [members_bits] in *. destruct mode; [|by exists st].
    destruct (size_pend acc st cur Ha Hm) as (st'&E&H'). exists st'. split; [|done]. cbn [exec_psize pblank] in *. exact E.
  - apply Forall2_cons_inv_l in F as (x&fs1&Hx&F1&->). apply Forall2_cons_1 in G as [Gx G1]. cbn [members_bits] in *.
    set (acc1 := if mode && negb (is_bits zm) then pad acc else acc) in *.
    set (bs := dims_bits (elem_bits le bcall zm) (dimensions zm) x) in *.
    pose proof (members_bits_mono le bcall ms' fs1 (is_bits zm) (acc1 ++ bs)) as Mo. rewrite length_app in Mo.
    assert (exists border st1, (if mode && negb (is_bits zm) then (PSeq PNumbitsEnd pblank, false)
        else if negb mode && is_bits zm then (PSeq pblank PNumbitsZero, true) else (PNote [], mode)) = (border, is_bits zm) /\
      exec_psize ms o call fs border cur st = Some (inl st1) /\ size_at (is_bits zm) acc1 st1) as (border&st1&->&E1&H1).
    { unfold acc1 in *. destruct mode, (is_bits zm) eqn:Eb; cbn [andb negb] in *; try by exists (PNote []), st.
      - destruct (size_pend acc st cur Ha ltac:(lia)) as (st'&E&H'). cbn [exec_psize] in E. injection E as <-. by eexists _, _.
      - eexists _, (mkSst (ss_size st) 0). split; [done|]. split; [done|]. destruct Ha as (Hp&E&_). cbn iota in E.
        split; [done|]. cbn [ss_size ss_numbits]. split; lia. }
    cbn [exec_psize]. rewrite E1. pose proof (Em 0%nat) as Hk. pose proof (Ef 0%nat) as Hfk. rewrite Nat.add_0_r in Hk, Hfk. cbn [lookup list_lookup] in Hk, Hfk.
    rewrite (lo_index ms L k zm Hk), Hfk.
    destruct (size_pmember k zm x Hk Hx Gx acc1 st1 H1) as (st2&E2&H2); [fold bs; rewrite length_app; lia|]. rewrite E2.
    apply (IH fs1 (S k)); [|..|done|done|done|done].
    + intros j. specialize (Em (S j)). by rewrite Nat.add_succ_r in Em.
    + intros j. specialize (Ef (S j)). by rewrite Nat.add_succ_r in Ef.
Qed.
End Size.

(** [_getEncodedSizeNoHash] is the length of the object. *)
Lemma getEncodedSizeNoHash_ok env o sizeof (Henv : env_ok env) fuel : forall name, isPrimitiveType name = false -> known env fuel name ->
  size_one_ok (fun v => typed env (cpp_little_endian o) sizeof fuel name v /\ products_ok env fuel name v)
    (struct_bits env (cpp_little_endian o) fuel name) (_getEncodedSizeNoHash env o fuel name).
Proof.
  induction fuel as [|fuel IH]; intros name Pr K v [Hv Hp] Hm; unfold known in K; rewrite Pr in K; [done|].
  destruct K as [zs Hz]. destruct Hv as (zs'&fs&Hz'&->&F). rewrite Hz in Hz'. injection Hz' as <-. pose proof (Henv name zs Hz) as Lo.
  cbn [_getEncodedSizeNoHash struct_bits fields_of products_ok] in *. rewrite Hz in Hm, Hp |- *.
  destruct (size_pmembers (members zs) o sizeof (_getEncodedSizeNoHash env o fuel) (typed env (cpp_little_endian o) sizeof fuel) (products_ok env fuel)
    (struct_bits env (cpp_little_endian o) fuel) fs Lo (known env fuel) ltac:(intros; by apply IH) (members zs) fs 0 false [] (mkSst 0 0) VUndef)
    as (st'&->&_&E&_); [done|done|exact F|exact Hp|done|done|].
  cbn iota in E. eexists. split; [done|]. lia.
Qed.
