(* ===== verification/CppDec.v ===== *)
(** * The C++ decoders read the wire format

    A C++ object is decoded into as it is: vectors are resized, elements that stay
    are overwritten.  [reusable] says when nothing of the old contents remains. *)
From S2P Require Import Prelude Bytes CoreTypes Bitfield Transport Url Gen CNum EmitC CCode CWire CEnc CDec EmitCpp CppCode CppEnc.
Local Open Scope Z_scope.

(** ** Objects that can be decoded into *)

Section Reuse.
Context (o : cppopts) (call : cstr -> val -> val -> Prop).

(** [old] can be overwritten with [v]: an array that is part of the object has its
    size already; a vector of numbers is not resized to nothing, so that it must be
    empty if it is to be empty. *)
Fixpoint reusable (zm : ZCMMember) (d : nat) (ds : list ZCMDimension) (old v : val) : Prop :=
  match ds with
  | [] => isPrimitiveType (fullname (mtype zm)) = true \/ call (fullname (mtype zm)) old v
  | _ :: ds =>
      exists lo l, old = VArr lo /\ v = VArr l /\
        (if resized o zm d then is_number zm && dim_var zm d = true -> ds = [] -> l = [] -> lo = [] else length lo = length l) /\
        forall i x y, lo !! i = Some x -> l !! i = Some y -> reusable zm (S d) ds x y
  end.

(** A new object can be decoded into. *)
Lemma init_reusable zm size lim P ds : (forall d, mode d = ZCM_CONST -> size d = Some (strtol (dsize d) 0)) ->
  (forall v, P v -> isPrimitiveType (fullname (mtype zm)) = true \/ call (fullname (mtype zm)) VUndef v) ->
  forall d v, drop d (dimensions zm) = ds -> has_dims size lim P ds v -> reusable zm d ds (cpp_init o zm d ds) v.
Proof.
  intros Hc HP. induction ds as [|zd ds IH]; intros d v Hd Hv; cbn [reusable cpp_init]; [by apply HP|].
  destruct Hv as (l&->&Hs&_&F). assert (dimensions zm !! d = Some zd /\ drop (S d) (dimensions zm) = ds) as [Hz Hd'].
  { assert (d < length (dimensions zm))%nat as Hlt by (destruct (decide (d < length (dimensions zm))%nat); [done|]; rewrite drop_ge in Hd by lia; done).
    destruct (lookup_lt_is_Some_2 _ _ Hlt) as [z Hz]. rewrite (drop_S _ _ _ Hz) in Hd. by injection Hd as -> ->. }
  destruct (resized o zm d) eqn:Er.
  - exists [], l. split; [done|]. split; [done|]. by split.
  - assert (mode zd = ZCM_CONST) as Hm by (unfold resized, dim_var in Er; rewrite Hz in Er; by destruct (mode zd)).
    rewrite (Hc zd Hm) in Hs. injection Hs as Hs. rewrite Hs, Nat2Z.id. eexists _, l. split; [done|]. split; [done|].
    split; [by rewrite length_replicate|]. intros i x y Hx Hy. apply lookup_replicate in Hx as [-> _]. apply IH; [done|].
    by eapply Forall_lookup_1 in F.
Qed.
End Reuse.

(** Everything but a class object that has been decoded into before is fresh. *)
Fixpoint object_reusable (env : list ZCMStruct) (o : cppopts) (fuel : nat) (name : cstr) (old v : val) : Prop :=
  match fuel, old with
  | S fuel, VStruct fo =>
      exists zs fs, find_struct env name = Some zs /\ v = VStruct fs /\ length fo = length (members zs) /\
        forall k zm x y, members zs !! k = Some zm -> fo !! k = Some x -> fs !! k = Some y ->
          reusable o (object_reusable env o fuel) zm 0 (dimensions zm) x y
  | _, _ => True
  end.

(** ** Strings *)

Lemma encoding_chars s : encoding int8_codec s = wrapu 8 <$> s.
Proof. induction s as [|c s IH]; [done|]. by rewrite encoding_cons, IH. Qed.

Lemma chars_back s : Forall (in_s 8) s -> wraps 8 <$> (wrapu 8 <$> s) = s.
Proof. induction 1 as [|c s Hc _ IH]; [done|]. cbn [fmap list_fmap] in *. rewrite IH, wraps_wrapu, wraps_id by (lia || done). done. Qed.

(** The length and the characters of a string that a buffer holds. *)
Lemma string_read le buf off s : bytes_ok buf -> 0 <= off -> off + blen s + 5 <= blen buf -> blen buf < 2 ^ 28 -> Forall (in_s 8) s ->
  holds buf (8 * off) (bytes_bits (string_bytes (word_codec le) int8_codec s)) ->
  (forall max, 4 <= max -> off + max <= blen buf -> (if le then __int32_t_decode_little_endian_array else __int32_t_decode_array) buf off max 1 = Some ([blen s + 1], 4)) /\
  get_all buf (off + 4) (length s) = Some (wrapu 8 <$> s).
Proof.
  intros B Ho Hb Hl Hs H. unfold string_bytes in H. rewrite bytes_bits_app, holds_app, length_bytes_bits, enc_length, word_codec_size in H. destruct H as [H1 H2].
  replace (8 * off + 8 * Z.of_nat 4) with (8 * (off + 4)) in H2 by lia. unfold strlen in *. split.
  - intros max Hm Hmb. pose proof (decode_array_ok (word_codec le) [blen s + 1] buf off max Ho) as E. rewrite word_codec_size in E.
    cbn [length Nat.mul Nat.add] in E. change (Z.of_nat 1) with 1 in E. change (Z.of_nat 4) with 4 in E.
    assert ((if le then __int32_t_decode_little_endian_array else __int32_t_decode_array) = decode_array (word_codec le)) as -> by (by destruct le).
    apply E; [lia|lia|lia| |].
    + constructor; [|done]. assert (in_s 32 (blen s + 1)) as Hi by (unfold in_s; lia). by destruct le.
    + unfold encoding. cbn [fmap list_fmap concat]. rewrite app_nil_r.
      replace 4%nat with (length (enc (word_codec le) (blen s + 1))) by (rewrite enc_length; apply word_codec_size).
      apply holds_slice; [done|apply enc_bytes|lia|rewrite enc_length, word_codec_size; lia|done].
  - rewrite encoding_chars, fmap_app, bytes_bits_app, holds_app in H2. destruct H2 as [H2 _]. rewrite get_all_ok by lia. f_equal.
    rewrite <- (length_fmap (wrapu 8) s). apply holds_slice; [done| |lia|rewrite length_fmap; lia|done].
    apply Forall_fmap, Forall_true. intros c. apply wrapu_range. lia.
Qed.

(** ** Statements *)

Definition dec_one_ok (ok : val -> Prop) (reuse : val -> val -> Prop) (bits : val -> list bool)
  (f : val -> list byte -> Z -> Z -> option (val * Z)) : Prop :=
  forall old buf off max v, bytes_ok buf -> 0 <= off -> off + max <= blen buf -> blen buf < 2 ^ 28 -> ok v -> reuse old v ->
    blen (bits v) <= 8 * max -> holds buf (8 * off) (bits v) -> exists m, f old buf off max = Some (v, m) /\ blen (bits v) = 8 * m.

Section Dec.
Context (ms : list ZCMMember) (o : cppopts) (sizeof : cstr -> Z).
Let le := cpp_little_endian o.
Context (call : cstr -> val -> list byte -> Z -> Z -> option (val * Z)).
Context (tcall : cstr -> val -> Prop) (rcall : cstr -> val -> val -> Prop) (bcall : cstr -> val -> list bool).
Context (fs : list val) (buf : list byte) (offset maxlen : Z).
Hypothesis L : layout_ok ms.
Hypothesis Hbytes : bytes_ok buf.
Hypothesis Hoff : 0 <= offset.
Hypothesis Hmax : offset + maxlen <= blen buf.
Hypothesis Hbuf : blen buf < 2 ^ 28.

Definition pdec_at (mode : bool) (acc : list bool) (st : pst) : Prop := dec_at mode acc (mkDst [] (ps_pos st) (ps_bit st)).

(** A step that reads [bs] and turns [cur] into [cur']; [F] are the fields so far. *)
Definition pdec_step (F : list val) (mode : bool) (s : pstmt) (cur : val) (bs : list bool) (cur' : val) : Prop :=
  forall acc st, pdec_at mode acc st -> blen (acc ++ bs) <= 8 * maxlen -> holds buf (8 * offset) (acc ++ bs) ->
    exists st', exec_pdec ms o call buf offset maxlen F s cur st = Some (inl (cur', st')) /\ pdec_at mode (acc ++ bs) st'.

(** The position behind [bs] and what holds there. *)
Lemma pdec_advance acc st bs m : pdec_at false acc st -> blen (acc ++ bs) <= 8 * maxlen -> blen bs = 8 * m -> holds buf (8 * offset) (acc ++ bs) ->
  u32 (offset + ps_pos st) = offset + ps_pos st /\ u32 (maxlen - ps_pos st) = maxlen - ps_pos st /\ 0 <= ps_pos st /\ 0 <= m /\
  ps_pos st + m <= maxlen /\ holds buf (8 * (offset + ps_pos st)) bs /\ pdec_at false (acc ++ bs) (mkPst (u32 (ps_pos st + m)) (ps_bit st)).
Proof.
  intros (Hp&E&_) Hm Em H. cbn [ds_pos ds_bit] in *. cbn iota in E. rewrite length_app in Hm. apply holds_app in H as [_ H].
  replace (8 * offset + blen acc) with (8 * (offset + ps_pos st)) in H by lia.
  rewrite !u32_id by lia. split; [done|]. split; [done|]. split; [done|]. split; [lia|]. split; [lia|]. split; [done|].
  unfold pdec_at, dec_at. cbn [ds_pos ds_bit ps_pos ps_bit]. rewrite length_app. split; [lia|]. split; [lia|done].
Qed.

(** The elements that go to a place. *)
Definition target_at (F : list val) (p : place) (zm : ZCMMember) (cur : val) (vs : list val) (cur' : val) : Prop :=
  place_count ms F zm p = Some (blen vs) /\ place_store cur p vs = Some cur' /\ blen vs < 2 ^ 31 /\ Forall (elem_ok le tcall zm) vs.

Lemma dec_place_nums F p zm cur vs cur' : is_bits zm = false -> isPrimitiveType (fullname (mtype zm)) = true -> target_at F p zm cur vs cur' ->
  pdec_step F false (PDecode p zm) cur (all_bits (elem_bits le bcall zm) vs) cur'.
Proof.
  intros Nb Pr (Pc&Ps&Hl&Fv) acc st Ha Hm H. cbn [exec_pdec]. rewrite Pc, (u32_id (blen vs)) by lia.
  pose proof Ha as (Hp&E&_). cbn [ds_pos ds_bit] in *. cbn iota in E. pose proof Hm as Hm'. rewrite length_app in Hm'.
  assert (holds buf (8 * (offset + ps_pos st)) (all_bits (elem_bits le bcall zm) vs)) as Hh.
  { apply holds_app in H as [_ H]. by replace (8 * offset + blen acc) with (8 * (offset + ps_pos st)) in H by lia. }
  destruct (prim_decode_ok le zm tcall bcall Nb Pr buf (offset + ps_pos st) (maxlen - ps_pos st) vs) as (m&Ef&Em); [done|lia|lia|lia|done|done|lia|done|].
  destruct (pdec_advance acc st _ m Ha Hm Em H) as (->&->&_&Hm0&_&_&H'). fold le. rewrite Ef, (proj2 (Z.ltb_ge _ _)), Ps by done. by eexists.
Qed.

Lemma dec_place_bits k F p zm cur vs cur' : ms !! k = Some zm -> is_bits zm = true -> target_at F p zm cur vs cur' ->
  pdec_step F true (PDecodeBits p zm) cur (all_bits (elem_bits le bcall zm) vs) cur'.
Proof.
  intros Hk Hb (Pc&Ps&Hl&Fv) acc st Ha Hm H. cbn [exec_pdec]. destruct (lo_bits ms L k zm Hk Hb) as (t&Ht&Ff).
  destruct (bit_numbers le zm tcall bcall vs Hb Fv) as (zs&->&_&Tr&Eb). rewrite length_fmap in *.
  rewrite Pc, Ht, (u32_id (blen zs)), Nat2Z.id by lia. rewrite Eb in *.
  destruct (dec_bits_calls buf offset maxlen Hbytes Hoff Hmax Hbuf t _ _ zs acc _ Ff Hl Tr Ha Hm H) as (r&pos&bit&E&E0&Ea&H').
  cbn [ds_pos ds_bit] in *. rewrite E, E0, Ps, Ea. eexists. split; [done|]. apply H'.
Qed.

Lemma dec_string F p zm cur v : is_bits zm = false -> fullname (mtype zm) = str "string" -> elem_ok le tcall zm v ->
  pdec_step F false (PDecodeString p zm) cur (elem_bits le bcall zm v) v.
Proof.
  intros Nb Ht Hv acc st Ha Hm H. assert (isPrimitiveType (fullname (mtype zm)) = true) as Pr by (by rewrite Ht). cbn [exec_pdec].
  unfold elem_ok in Hv. rewrite Nb, Pr, bool_decide_true in Hv by done. destruct Hv as (s&->&Hs&_).
  unfold elem_bits in *. rewrite Nb, Pr in *. cbn [prim_bytes] in *.
  pose proof (length_string_bytes (word_codec le) int8_codec (word_codec_size le) eq_refl s) as Ls.
  destruct (pdec_advance acc st _ (blen s + 5) Ha Hm ltac:(rewrite length_bytes_bits; lia) H) as (->&->&Hp&_&Hsp&Hh&H').
  destruct (string_read le buf (offset + ps_pos st) s Hbytes ltac:(lia) ltac:(lia) Hbuf Hs Hh) as [Er Eg].
  unfold decode_len. fold le. rewrite Er by lia. cbn [Z.ltb Z.compare]. rewrite (u32_id (ps_pos st + 4)), (u32_id (blen s + 1)), !u32_id by lia.
  rewrite (proj2 (Z.ltb_ge _ _)), (proj2 (Z.leb_le _ _)) by lia. replace (Z.to_nat (blen s + 1 - 1)) with (length s) by lia.
  replace (offset + (ps_pos st + 4)) with (offset + ps_pos st + 4) by lia. rewrite Eg, (chars_back s Hs). eexists. split; [done|].
  rewrite u32_id in H' by lia. by replace (ps_pos st + 4 + (blen s + 1)) with (ps_pos st + (blen s + 5)) by lia.
Qed.

Lemma dec_struct F i d zm cur v : is_bits zm = false -> isPrimitiveType (fullname (mtype zm)) = false ->
  dec_one_ok (tcall (fullname (mtype zm))) (rcall (fullname (mtype zm))) (bcall (fullname (mtype zm))) (call (fullname (mtype zm))) ->
  elem_ok le tcall zm v -> rcall (fullname (mtype zm)) cur v ->
  pdec_step F false (PDecodeStruct i d zm) cur (elem_bits le bcall zm v) v.
Proof.
  intros Nb Pr HC Hv Hr acc st Ha Hm H. cbn [exec_pdec]. unfold elem_ok in Hv. unfold elem_bits in *. rewrite Nb, Pr in *.
  pose proof Ha as (Hp&E&_). cbn [ds_pos ds_bit] in *. cbn iota in E. pose proof Hm as Hm'. rewrite length_app in Hm'.
  assert (holds buf (8 * (offset + ps_pos st)) (bcall (fullname (mtype zm)) v)) as Hh.
  { apply holds_app in H as [_ H]. by replace (8 * offset + blen acc) with (8 * (offset + ps_pos st)) in H by lia. }
  destruct (HC cur buf (offset + ps_pos st) (maxlen - ps_pos st) v) as (m&Ef&Em); [done|lia|lia|lia|done|done|lia|done|].
  destruct (pdec_advance acc st _ m Ha Hm Em H) as (->&->&_&Hm0&_&_&H'). rewrite Ef, (proj2 (Z.ltb_ge _ _)) by done. by eexists.
Qed.

(** ** Arrays *)

Notation dims_typed zm := (has_dims (dim_size ms fs) (fits sizeof zm) (elem_ok le tcall zm)).

(** Behind [resize] an array has its size, its elements can be decoded into. *)
Lemma resize_step k F i zm d zd lo l : ms !! k = Some zm -> agree fs k F -> dimensions zm !! d = Some zd ->
  dims_typed zm (drop d (dimensions zm)) (VArr l) -> reusable o rcall zm d (drop d (dimensions zm)) (VArr lo) (VArr l) ->
  (forall v, elem_ok le tcall zm v -> isPrimitiveType (fullname (mtype zm)) = true \/ rcall (fullname (mtype zm)) VUndef v) ->
  exists lo', length lo' = length l /\
    (forall i x y, lo' !! i = Some x -> l !! i = Some y -> reusable o rcall zm (S d) (drop (S d) (dimensions zm)) x y) /\
    forall mode rest bs cur', pdec_step F mode rest (VArr lo') bs cur' -> pdec_step F mode (resize_if o i d zm rest) (VArr lo) bs cur'.
Proof.
  intros Hk A Hd Hv Hr HU. rewrite (drop_S _ _ _ Hd) in Hv, Hr. destruct Hv as (l'&[= <-]&Hs&_&Fl). cbn [reusable] in Hr.
  destruct Hr as (lo0&l0&[= <-]&[= <-]&Hlen&Hel). unfold resize_if. destruct (resized o zm d); [|by exists lo].
  set (new := cpp_init o zm (S d) (drop (S d) (dimensions zm))). exists (take (length l) lo ++ replicate (length l - length lo) new). split; [|split].
  - rewrite length_app, length_take, length_replicate. lia.
  - intros j x y Hx Hy. apply lookup_app_Some in Hx as [Hx|[_ Hx]].
    + apply lookup_take_Some in Hx as [Hx _]. by eapply Hel.
    + apply lookup_replicate in Hx as [-> _]. eapply init_reusable; [|exact HU|done|by eapply Forall_lookup_1 in Fl].
      intros e He. unfold dim_size. by rewrite He.
  - intros mode rest bs cur' HR acc st Ha Hm H. cbn [exec_pdec]. rewrite (array_size_agree ms fs L k zm F d Hk A).
    unfold array_size. rewrite bool_decide_false by (intros E; by rewrite E in Hd). rewrite Hd, Hs, (proj2 (Z.leb_le _ _)) by lia. cbn [arr_of].
    rewrite Nat2Z.id. by apply HR.
Qed.

Lemma overwrite_lookup (l lo : list val) a : length lo = length l -> (take a l ++ drop a lo) !! a = lo !! a.
Proof.
  intros E. destruct (decide (a < length l)%nat).
  - rewrite lookup_app_r, length_take, lookup_drop by (rewrite length_take; lia). f_equal. lia.
  - by rewrite !lookup_ge_None_2 by (rewrite ?length_app, ?length_take, ?length_drop; lia).
Qed.

Lemma overwrite_insert (l lo : list val) a y : length lo = length l -> l !! a = Some y ->
  <[a := y]> (take a l ++ drop a lo) = take (S a) l ++ drop (S a) lo.
Proof.
  intros E H. pose proof (lookup_lt_Some _ _ _ H). destruct (lookup_lt_is_Some_2 lo a) as [z Hz]; [lia|].
  rewrite (take_S_r _ _ _ H), insert_app_r_alt, (drop_S _ _ _ Hz) by (rewrite length_take; lia).
  by rewrite length_take, Nat.min_l, Nat.sub_diag, <- app_assoc by lia.
Qed.

(** A loop over elements that are overwritten one after the other. *)
Lemma dec_for k F mode i d zm zd lo l body bits : ms !! k = Some zm -> agree fs k F -> dimensions zm !! d = Some zd ->
  dim_size ms fs zd = Some (blen l) -> blen l < 2 ^ 31 -> length lo = length l ->
  (forall a x y, lo !! a = Some x -> l !! a = Some y -> pdec_step F mode body x (bits y) y) ->
  pdec_step F mode (PFor i d zm body) (VArr lo) (all_bits bits l) (VArr l).
Proof.
  intros Hk A Hd Hs Hl El HB acc st Ha Hm H. cbn [exec_pdec]. unfold loop_count. rewrite (array_size_agree ms fs L k zm F d Hk A).
  unfold array_size. rewrite bool_decide_false by (intros E; by rewrite E in Hd). rewrite Hd, Hs, (proj2 (Z.ltb_lt _ _)), Nat2Z.id by done. cbn [arr_of].
  rewrite length_app in Hm. edestruct (for_loop_inv (R := list val * Z) (fun a '(l1, st) => l1 = take a l ++ drop a lo /\ pdec_at mode (acc ++ all_bits bits (take a l)) st)) as ([l1 st']&E&->&H').
  3: { rewrite E. exists st'. rewrite Nat.add_0_l, firstn_all, drop_ge, app_nil_r in * by lia. done. }
  { split; [done|]. cbn [take all_bits fmap list_fmap concat]. by rewrite app_nil_r. }
  intros a [l1 s] Hi [-> Hinv]. destruct (lookup_lt_is_Some_2 l a) as [y Hy]; [lia|]. destruct (lookup_lt_is_Some_2 lo a) as [x Hx]; [lia|].
  rewrite (overwrite_lookup l lo a El), Hx, (all_bits_take_S _ _ _ _ Hy), app_assoc. pose proof (all_bits_take bits l (S a)) as T.
  destruct (HB a x y Hx Hy _ s Hinv) as (s'&->&Hs').
  - rewrite <- app_assoc, <- (all_bits_take_S _ _ _ _ Hy), length_app. lia.
  - rewrite <- app_assoc, <- (all_bits_take_S _ _ _ _ Hy). rewrite <- (take_drop (S a) l), all_bits_app, app_assoc in H. by apply holds_app in H as [H _].
  - eexists. split; [done|]. by rewrite (overwrite_insert l lo a y El Hy).
Qed.

Context (kn : cstr -> Prop).
Hypothesis Hcall : forall ty, isPrimitiveType ty = false -> kn ty -> dec_one_ok (tcall ty) (rcall ty) (bcall ty) (call ty).
Hypothesis Hfresh : forall ty v, rcall ty VUndef v.

(** The innermost dimension of an array of numbers. *)
Lemma dec_numbers k F zm depth zd i lo l : ms !! k = Some zm -> agree fs k F -> is_number zm = true -> (depth + 1)%nat = length (dimensions zm) ->
  dimensions zm !! depth = Some zd -> dim_size ms fs zd = Some (blen l) -> blen l < 2 ^ 31 -> Forall (elem_ok le tcall zm) l -> length lo = length l ->
  pdec_step F (is_bits zm) (if numbits (mtype zm) =? 0 then PDecode (At i depth) zm else PDecodeBits (At i depth) zm) (VArr lo)
    (all_bits (elem_bits le bcall zm) l) (VArr l).
Proof.
  intros Hk A Nu Hd Hz Hs Hl Fl El. pose proof (is_number_prim zm Nu) as [Pr _].
  assert (target_at F (At i depth) zm (VArr lo) l (VArr l)) as T.
  { unfold target_at, place_count, place_store. rewrite (array_size_agree ms fs L k zm F depth Hk A). unfold array_size.
    rewrite bool_decide_false by (intros E; by rewrite E in Hz). rewrite Hz, Hs. cbn [arr_of].
    rewrite (proj2 (Nat.leb_le _ _)), drop_ge, app_nil_r by lia. done. }
  unfold is_bits at 1. destruct (numbits (mtype zm) =? 0) eqn:Eb; [apply dec_place_nums; try done|eapply dec_place_bits; try done]; unfold is_bits; by rewrite Eb.
Qed.

Lemma dec_rec k F zm : ms !! k = Some zm -> agree fs k F -> kn (fullname (mtype zm)) -> forall n depth cur v,
  (depth + n)%nat = length (dimensions zm) -> (n = 0%nat -> is_number zm = false) -> dims_typed zm (drop depth (dimensions zm)) v ->
  reusable o rcall zm depth (drop depth (dimensions zm)) cur v ->
  pdec_step F (is_bits zm) (cpp_decode_rec o zm n depth) cur (dims_bits (elem_bits le bcall zm) (drop depth (dimensions zm)) v) v.
Proof.
  intros Hk A Hkn. induction n as [|n IH]; intros depth cur v Hn Hz Hv Hr; cbn [cpp_decode_rec].
  - rewrite drop_ge in Hv, Hr |- * by lia. specialize (Hz eq_refl). assert (is_bits zm = false) as Nb.
    { destruct (is_bits zm) eqn:Eb; [|done]. by rewrite (bits_number ms L k zm Hk Eb) in Hz. }
    cbn [Nat.eqb andb has_dims dims_bits reusable] in *. rewrite Nb. destruct (not_number_cases zm Hz) as [Hs|[-> Pr]].
    + unfold is_string. rewrite bool_decide_true by done. by apply dec_string.
    + apply dec_struct; try done; [by apply Hcall|]. destruct Hr as [Hr|Hr]; [by rewrite Hr in Pr|done].
  - destruct (lookup_lt_is_Some_2 (dimensions zm) depth) as [zd Hzd]; [lia|]. pose proof Hv as Hv0. pose proof Hr as Hr0.
    rewrite (drop_S _ _ _ Hzd) in Hv, Hr |- *. destruct Hv as (l&->&Hs&[Hl _]&Fl). cbn [dims_bits]. destruct Hr as (lo&l0&->&[= <-]&Hlen&_).
    destruct (resize_step k F (1 + depth) zm depth zd lo l Hk A Hzd Hv0 Hr0 ltac:(by right)) as (lo'&El&Hel&HR).
    destruct ((S n =? 1)%nat && is_number zm) eqn:E1.
    + apply andb_true_iff in E1 as [E1 Nu]. apply Nat.eqb_eq in E1. rewrite drop_ge in Fl, Hlen |- * by lia. fold (all_bits (elem_bits le bcall zm) l).
      assert (forall i lo', length lo' = length l -> pdec_step F (is_bits zm) (if numbits (mtype zm) =? 0 then PDecode (At i depth) zm else PDecodeBits (At i depth) zm)
        (VArr lo') (all_bits (elem_bits le bcall zm) l) (VArr l)) as HN by (intros; eapply dec_numbers; try done; lia).
      destruct (dim_var zm depth) eqn:Edv; [|apply HR; by apply HN].
      intros acc st Ha Hm H. cbn [exec_pdec]. rewrite (array_size_agree ms fs L k zm F depth Hk A). unfold array_size.
      rewrite bool_decide_false by (intros E; by rewrite E in Hzd). rewrite Hzd, Hs. destruct (0 <? blen l) eqn:E0.
      * destruct (resize_step k F (2 + depth) zm depth zd lo l Hk A Hzd Hv0 Hr0 ltac:(by right)) as (lo2&El2&_&HR2). by apply (HR2 _ _ _ _ (HN _ _ El2)).
      * assert (l = []) as -> by (bool_prop; destruct l; [done|cbn [length] in E0; lia]).
        assert (lo = []) as -> by (unfold resized in Hlen; rewrite Edv, Nu in Hlen; by apply Hlen).
        exists st. split; [done|]. by rewrite app_nil_r.
    + set (bits := dims_bits (elem_bits le bcall zm) (drop (S depth) (dimensions zm))). fold (all_bits bits l).
      apply HR. eapply dec_for; try done. intros a x y Hx Hy. apply IH; [lia| |by eapply Forall_lookup_1 in Fl|by eapply Hel].
      intros ->. by destruct (is_number zm).
Qed.

(** ** Members *)

Lemma dec_pmember k F zm x v : ms !! k = Some zm -> agree fs k F -> field_typed ms le sizeof tcall fs kn zm v ->
  reusable o rcall zm 0 (dimensions zm) x v ->
  pdec_step F (is_bits zm) (cpp_decode_member o zm (is_bits zm)) x (dims_bits (elem_bits le bcall zm) (dimensions zm) v) v.
Proof.
  intros Hk A [Hkn Hv] Hr. unfold cpp_decode_member.
  assert ((length (dimensions zm) = 0%nat -> is_number zm = false) -> pdec_step F (is_bits zm) (cpp_decode_rec o zm (length (dimensions zm)) 0) x
    (dims_bits (elem_bits le bcall zm) (dimensions zm) v) v) as HR.
  { intros Hz. pose proof (dec_rec k F zm Hk A Hkn (length (dimensions zm)) 0 x v eq_refl Hz) as HD. rewrite drop_0 in HD. by apply HD. }
  destruct (bool_decide (dimensions zm = [])) eqn:Ed; bool_prop; cbn [andb]; [|apply HR; intros E; by apply length_zero_iff_nil in E].
  destruct (isPrimitiveType (fullname (mtype zm))) eqn:Pr; [|apply HR; intros _; unfold is_number; by rewrite Pr].
  rewrite Ed in Hv |- *. cbn [has_dims dims_bits] in *. destruct (is_string zm) eqn:Es.
  - assert (is_bits zm = false) as Nb.
    { destruct (is_bits zm) eqn:Eb; [|done]. pose proof (bits_number ms L k zm Hk Eb) as Nu. unfold is_number in Nu. by rewrite Pr, Es in Nu. }
    rewrite Nb. unfold is_string in Es. bool_prop. by apply dec_string.
  - assert (target_at F Scalar zm x [v] v) as T. { split; [done|]. split; [done|]. split; [done|]. by constructor. }
    replace (elem_bits le bcall zm v) with (all_bits (elem_bits le bcall zm) [v]) by (unfold all_bits; cbn [fmap list_fmap concat]; apply app_nil_r).
    destruct (is_bits zm) eqn:Eb; cbn [negb]; [by eapply dec_place_bits|by apply dec_place_nums].
Qed.

Lemma dec_pend acc st F : pdec_at true acc st -> blen (pad acc) <= 8 * maxlen ->
  exists st', run_pdec ms o call buf offset maxlen PPosBitEnd F st = Some (inl (F, st')) /\ pdec_at false (pad acc) st'.
Proof.
  intros Ha Hm. destruct (dec_end ms le sizeof (fun _ _ _ _ _ => None) buf offset maxlen Hoff Hmax Hbuf acc _ [] Ha Hm) as (st'&E&_&H').
  cbn [exec_dec ds_pos ds_bit] in E. injection E as <-. eexists. split; [done|]. exact H'.
Qed.

Lemma dec_pborder md num zm acc st F : pdec_at md acc st -> blen (if md && negb (is_bits zm) then pad acc else acc) <= 8 * maxlen ->
  exists border num' st', pborder md num zm = (border, is_bits zm, num') /\
    run_pdec ms o call buf offset maxlen border F st = Some (inl (F, st')) /\
    pdec_at (is_bits zm) (if md && negb (is_bits zm) then pad acc else acc) st'.
Proof.
  intros H Hm. unfold pborder. destruct md, (is_bits zm) eqn:Eb; cbn [andb negb] in *; try by exists (PNote []), num, st.
  - destruct (dec_pend acc st F H Hm) as (st'&E&H'). do 2 eexists. exists st'. split; [done|]. split; [|done]. cbn [run_pdec] in *. exact E.
  - do 2 eexists. exists (mkPst (ps_pos st) 0). split; [done|]. split; [done|]. destruct H as (Hp&E&_). cbn iota in E. cbn [ds_pos ds_bit] in *.
    unfold pdec_at, dec_at. cbn [ds_pos ds_bit ps_pos ps_bit]. split; [done|]. split; [lia|]. intros _. lia.
Qed.

(** The fields in front have been decoded, [olds] are the others. *)
Lemma dec_pmembers : forall ms' fs' mdone done olds md num acc st, ms = mdone ++ ms' -> fs = done ++ fs' -> length mdone = length done ->
  length olds = length ms' -> Forall2 (field_typed ms le sizeof tcall fs kn) ms' fs' ->
  (forall k zm x v, ms' !! k = Some zm -> olds !! k = Some x -> fs' !! k = Some v -> reusable o rcall zm 0 (dimensions zm) x v) ->
  pdec_at md acc st ->
  blen (members_bits le bcall ms' fs' md acc) <= 8 * maxlen -> holds buf (8 * offset) (members_bits le bcall ms' fs' md acc) ->
  exists st', run_pdec ms o call buf offset maxlen (cpp_decode_body o ms' md num) (done ++ olds) st = Some (inl (fs, st')) /\
    pdec_at false (members_bits le bcall ms' fs' md acc) st'.
Proof.
  induction ms' as [|zm ms' IH]; intros fs' mdone done olds md num acc st Em Ef El Eo F Hr Ha Hm H; cbn [cpp_decode_body].
  - apply Forall2_nil_inv_l in F as ->. destruct olds; [|done]. cbn [members_bits] in *. rewrite app_nil_r in *. subst fs. destruct md; [|by exists st].
    destruct (dec_pend acc st done Ha Hm) as (st'&E&H'). exists st'. split; [|done]. cbn [pend run_pdec] in *. exact E.
  - apply Forall2_cons_inv_l in F as (x&fs1&Hx&F1&->). destruct olds as [|old olds]; [done|]. cbn [members_bits] in *.
    set (acc1 := if md && negb (is_bits zm) then pad acc else acc) in *.
    set (bs := dims_bits (elem_bits le bcall zm) (dimensions zm) x) in *.
    pose proof (members_bits_prefix le bcall ms' fs1 (is_bits zm) (acc1 ++ bs)) as [tail Mo].
    assert (blen (acc1 ++ bs) <= 8 * maxlen) as Hm1 by (rewrite Mo, length_app in Hm; lia).
    destruct (dec_pborder md num zm acc st (done ++ old :: olds) Ha ltac:(fold acc1; rewrite length_app in Hm1; lia)) as (border&num'&st1&->&E1&H1).
    cbn [run_pdec]. rewrite E1. assert (ms !! length done = Some zm) as Hk by (rewrite Em; apply list_lookup_middle; lia).
    rewrite (lo_index ms L _ zm Hk), list_lookup_middle by done.
    destruct (dec_pmember (length done) (done ++ old :: olds) zm old x Hk ltac:(intros j Hj; rewrite Ef, !lookup_app_l by lia; done) Hx
      (Hr 0%nat zm old x eq_refl eq_refl eq_refl) acc1 st1 H1) as (st2&->&H2); [done|rewrite Mo in H; by apply holds_app in H as [H _]|].
    cbn [pblank run_pdec]. rewrite insert_app_r_alt, Nat.sub_diag by lia. change (<[0%nat:=x]> (old :: olds)) with ([x] ++ olds). rewrite app_assoc.
    apply (IH fs1 (mdone ++ [zm]) (done ++ [x])); [by rewrite <- app_assoc..| |cbn [length] in Eo; lia|done| |done|done|done].
    + rewrite !length_app. cbn [length]. lia.
    + intros k m y v. apply (Hr (S k)).
Qed.
End Dec.

(** [_decodeNoHash] of a class gives the object back, whatever is around its bits. *)
Lemma decodeNoHash_ok env o sizeof (Henv : env_ok env) fuel : forall name, isPrimitiveType name = false -> known env fuel name ->
  dec_one_ok (typed env (cpp_little_endian o) sizeof fuel name) (object_reusable env o fuel name)
    (struct_bits env (cpp_little_endian o) fuel name) (_decodeNoHash env o fuel name).
Proof.
  induction fuel as [|fuel IH]; intros name Pr K old buf off max v B Ho Hb Hl Hv Hr Hm H; unfold known in K; rewrite Pr in K; [done|].
  destruct K as [zs Hz]. destruct Hv as (zs'&fs&Hz'&->&F). rewrite Hz in Hz'. injection Hz' as <-. pose proof (Henv name zs Hz) as Lo.
  cbn [_decodeNoHash struct_bits] in *. rewrite Hz in Hm, H |- *.
  set (olds := match old with VStruct l => l | _ => _ end). assert (forall ty u, object_reusable env o fuel ty VUndef u) as Hf by (by destruct fuel).
  assert (length olds = length (members zs) /\ forall k zm x y, members zs !! k = Some zm -> olds !! k = Some x -> fs !! k = Some y ->
    reusable o (object_reusable env o fuel) zm 0 (dimensions zm) x y) as [Eo Hro].
  { assert (length ((fun zm => cpp_init o zm 0 (dimensions zm)) <$> members zs) = length (members zs) /\ forall k zm x y, members zs !! k = Some zm ->
      ((fun zm => cpp_init o zm 0 (dimensions zm)) <$> members zs) !! k = Some x -> fs !! k = Some y ->
      reusable o (object_reusable env o fuel) zm 0 (dimensions zm) x y) as HN.
    { split; [apply length_fmap|]. intros k zm x y Hk Hx Hy. rewrite list_lookup_fmap, Hk in Hx. injection Hx as <-.
      destruct (Forall2_lookup_lr _ _ _ _ _ _ F Hk Hy) as [_ Hd]. eapply init_reusable; [| |done|exact Hd]; [|by right].
      intros e He. unfold dim_size. by rewrite He. }
    unfold olds. cbn [object_reusable] in Hr. destruct old as [| | | |fo]; try exact HN.
    destruct Hr as (zs'&fs'&Hz'&[= <-]&E&Hf'). rewrite Hz in Hz'. injection Hz' as <-. done. }
  destruct (dec_pmembers (members zs) o sizeof (_decodeNoHash env o fuel) (typed env (cpp_little_endian o) sizeof fuel) (object_reusable env o fuel)
    (struct_bits env (cpp_little_endian o) fuel) fs buf off max Lo B Ho Hb Hl (known env fuel) ltac:(intros; by apply IH) Hf
    (members zs) fs [] [] olds false 0 [] (mkPst 0 0)) as (st'&E&Hp&Ep&_); [done|done|done|done|exact F|exact Hro|done|done|done|].
  cbn [app] in E. rewrite E. cbn [ds_pos ds_bit] in *. cbn iota in Ep. exists (ps_pos st'). rewrite wraps_id by (unfold in_s; lia). split; [done|lia].
Qed.
