(* ===== verification/CppMsg.v ===== *)
(** * Messages of C++ programs

    The methods [encode], [decode] and [getEncodedSize] of the classes that the
    emitter writes for the structs of the parser: they implement the same wire format
    as the C functions. *)
From S2P Require Import Prelude Bytes Tokenize CoreTypes Bitfield Transport Url Gen CNum GenParse GenProps EmitC CCode CWire CEnc CDec CRound CMsg.
From S2P Require Import EmitCpp CppCode CppEnc CppSize CppDec.
Local Open Scope Z_scope.

(** ** The hash *)

Lemma sum_complex (f g : ZCMMember -> option Z) ms : forall hs h,
  (forall zm x, zm ∈ ms -> isPrimitiveType (fullname (mtype zm)) = true -> f zm = Some x -> x = 0) ->
  (forall zm x, zm ∈ ms -> isPrimitiveType (fullname (mtype zm)) = false -> f zm = Some x -> g zm = Some x) ->
  mapM f ms = Some hs ->
  exists hs', mapM g (filter (fun zm => isPrimitiveType (fullname (mtype zm)) = false) ms) = Some hs' /\ foldl Z.add h hs = foldl Z.add h hs'.
Proof.
  induction ms as [|zm ms IH]; intros hs h H0 H1; cbn [mapM]; [intros [= <-]; by exists []|].
  destruct (f zm) as [x|] eqn:Ef; [|done]. destruct (mapM f ms) as [xs|] eqn:Em; [|done]. intros [= <-].
  assert (forall h, exists hs', mapM g (filter (fun zm => isPrimitiveType (fullname (mtype zm)) = false) ms) = Some hs' /\
    foldl Z.add h xs = foldl Z.add h hs') as IH'.
  { intros h'. apply IH; [| |done]; intros zm' x' Hin; [apply H0|apply H1]; by right. }
  destruct (isPrimitiveType (fullname (mtype zm))) eqn:Pr.
  - rewrite filter_cons_False by congruence. rewrite (H0 zm x) by (done || by left). cbn [foldl]. rewrite Z.add_0_r. apply IH'.
  - rewrite filter_cons_True by done. destruct (IH' (h + x)) as (hs'&E&Es). exists (x :: hs'). cbn [mapM].
    rewrite (H1 zm x) by (done || by left). rewrite E. by cbn [foldl].
Qed.

(** The types on the way: classes with members of class type. *)
Definition on_the_way (env : list ZCMStruct) (parents : list cstr) : Prop :=
  NoDup parents /\ forall q, q ∈ parents -> exists zs, find_struct env q = Some zs /\ is_Some (hash zs) /\ complex_members zs <> [].

Lemma on_the_way_length env parents : on_the_way env parents -> (length parents <= length env)%nat.
Proof.
  intros [N C]. rewrite <- (length_fmap (fun zs => fullname (structname zs)) env). apply submseteq_length, NoDup_submseteq; [done|].
  intros q Hq. destruct (C q Hq) as (zs&Hz&_). destruct (find_struct_Some _ _ _ Hz) as [Hin <-]. apply list_elem_of_fmap. by exists zs.
Qed.

Lemma computeHash_same env fuel : forall parents name h, on_the_way env parents -> (fuel + length parents)%nat = S (length env) ->
  isPrimitiveType name = false -> hash_recursive env fuel parents name = Some h -> _computeHash env fuel parents name = Some h.
Proof.
  induction fuel as [|fuel IH]; intros parents name h C F Pr; [pose proof (on_the_way_length env parents C); lia|].
  cbn [hash_recursive _computeHash]. rewrite Pr. destruct (bool_decide (name ∈ parents)) eqn:Ep; bool_prop.
  - intros [= <-]. destruct (proj2 C name Ep) as (zs&->&[h ->]&Hc). by rewrite bool_decide_false.
  - destruct (find_struct env name) as [zs|] eqn:Hz; [|done]. destruct (hash zs) as [h0|] eqn:Hh; [|done]. destruct (mapM _ (members zs)) as [hs|] eqn:Em; [|done]. intros [= <-].
    destruct (sum_complex (fun zm => hash_recursive env fuel (name :: parents) (fullname (mtype zm)))
      (fun zm => _computeHash env fuel (name :: parents) (fullname (mtype zm))) (members zs) hs h0) as (hs'&E&->).
    + intros zm x _ Hp Hx. destruct fuel; cbn [hash_recursive] in Hx; rewrite Hp in Hx; congruence.
    + intros zm x Hin Hp Hx. apply IH; [|cbn [length]; lia|done|done]. destruct C as [N C]. split; [by constructor|].
      intros q Hq. apply elem_of_cons in Hq as [->|Hq]; [|by apply C]. exists zs. split; [done|]. split; [by eexists|].
      intros Hc. assert (zm ∈ complex_members zs) as Hm by (by apply list_elem_of_filter). rewrite Hc in Hm. by apply elem_of_nil in Hm.
    + exact Em.
    + fold (complex_members zs) in E. destruct (bool_decide (complex_members zs = [])) eqn:Ec; bool_prop.
      * rewrite Ec in E. injection E as <-. done.
      * by rewrite E.
Qed.

(** The C++ class and the C struct of a type have the same hash. *)
Lemma getHash_same env name h : isPrimitiveType name = false -> get_hash env name = Some h -> getHash env name = Some h.
Proof.
  intros Pr. unfold get_hash, getHash. destruct (hash_recursive _ _ _ _) as [x|] eqn:E; [|done].
  rewrite (computeHash_same env _ [] name x); [done| |cbn [length]; lia|done|done]. split; [constructor|]. set_solver.
Qed.

(** ** The methods *)

Section Message.
Context (env : list ZCMStruct) (o : cppopts) (sizeof : cstr -> Z).
Let le := cpp_little_endian o.
Hypothesis Henv : env_ok env.
Context (fuel : nat) (name : cstr) (h : Z) (v : val).
Hypothesis Hname : isPrimitiveType name = false.
Hypothesis Hhash : get_hash env name = Some h.
Hypothesis Hv : typed env le sizeof fuel name v.

Lemma cpp_encode_ok buf offset maxlen : bytes_ok buf -> 0 <= offset -> offset + maxlen <= blen buf -> blen buf < 2 ^ 28 ->
  blen (message_bits env le fuel name h v) <= 8 * maxlen ->
  exists buf' n, cpp_encode env o fuel name buf offset maxlen v = Some (buf', n) /\ blen (message_bits env le fuel name h v) = 8 * n /\
    writes buf buf' (8 * offset) (message_bits env le fuel name h v).
Proof.
  intros B Ho Hb Hl Hm. pose proof (message_length env le fuel name h v) as Ml. unfold cpp_encode. rewrite (getHash_same env name h Hname Hhash).
  destruct (hash_written h buf offset maxlen B Ho ltac:(lia) Hb Hl) as (buf1&->&W1). cbn [Z.ltb Z.compare]. change (u32 (0 + 8)) with 8. pose proof W1 as (B1&L1&_).
  destruct (encodeNoHash_ok env o sizeof Henv fuel name Hname (typed_known env le sizeof fuel name v Hname Hv) buf1 (offset + 8) (maxlen - 8) v)
    as (buf'&m&E&Em&W2); [done|lia|lia|lia|done|fold le; lia|]. fold le in Em, W2.
  rewrite (u32_id (offset + 8)), (u32_id (maxlen - 8)), E, (proj2 (Z.ltb_ge _ _)) by lia.
  rewrite u32_id, wraps_id by (unfold in_s; lia). do 2 eexists. split; [done|]. split; [lia|]. by eapply hash_and_struct.
Qed.

Lemma getEncodedSize_ok : products_ok env fuel name v -> blen (message_bits env le fuel name h v) <= 2 ^ 31 - 8 ->
  exists n, getEncodedSize env o fuel name v = Some n /\ blen (message_bits env le fuel name h v) = 8 * n.
Proof.
  rewrite message_length. intros Hp Hm. destruct (getEncodedSizeNoHash_ok env o sizeof Henv fuel name Hname (typed_known env le sizeof fuel name v Hname Hv) v)
    as (m&E&Em); [done|fold le; lia|]. fold le in Em. unfold getEncodedSize. rewrite E. rewrite u32_id by lia. eexists. split; [done|]. lia.
Qed.

Lemma cpp_decode_ok old buf offset maxlen : bytes_ok buf -> 0 <= offset -> offset + maxlen <= blen buf -> blen buf < 2 ^ 28 ->
  object_reusable env o fuel name old v ->
  blen (message_bits env le fuel name h v) <= 8 * maxlen -> holds buf (8 * offset) (message_bits env le fuel name h v) ->
  exists n, cpp_decode env o fuel name old buf offset maxlen = Some (v, n) /\ blen (message_bits env le fuel name h v) = 8 * n.
Proof.
  intros B Ho Hb Hl Hr Hm H. pose proof (message_length env le fuel name h v) as Ml. unfold cpp_decode. apply holds_app in H as [H1 H2].
  rewrite (hash_read h buf offset maxlen (hash_range env name h Hhash) B Ho ltac:(lia) Hb Hl H1), (getHash_same env name h Hname Hhash).
  cbn [Z.ltb Z.compare]. change (u32 (0 + 8)) with 8. rewrite bool_decide_true by done. cbn [negb]. rewrite hash_bits in H2.
  destruct (decodeNoHash_ok env o sizeof Henv fuel name Hname (typed_known env le sizeof fuel name v Hname Hv) old buf (offset + 8) (maxlen - 8) v)
    as (m&E&Em); [done|lia|lia|lia|done|done|fold le; lia|fold le; by replace (8 * (offset + 8)) with (8 * offset + 64) by lia|]. fold le in Em.
  rewrite (u32_id (offset + 8)), (u32_id (maxlen - 8)), E, (proj2 (Z.ltb_ge _ _)) by lia.
  rewrite u32_id, wraps_id by (unfold in_s; lia). eexists. split; [done|]. lia.
Qed.
End Message.

(** ** Properties *)

(** C3: programs in C and C++ understand each other: for every type that the parser
    accepts and every message of it, the C function and the C++ method write the very
    same bytes, and each of the two decoders gives the message back. *)
Theorem languages_interoperate prefix th mh files r p o sizeof fuel name h v buf offset maxlen :
  handleFiles prefix th mh files gen_create = Ok r p -> (forall t, 0 < sizeof t) -> isPrimitiveType name = false ->
  get_hash (structs p) name = Some h -> typed (structs p) (cpp_little_endian o) sizeof fuel name v ->
  bytes_ok buf -> 0 <= offset -> offset + maxlen <= blen buf -> blen buf < 2 ^ 28 ->
  blen (message_bits (structs p) (cpp_little_endian o) fuel name h v) <= 8 * maxlen ->
  exists buf' n, encode (structs p) (cpp_little_endian o) fuel name buf offset maxlen v = Some (buf', n) /\
    cpp_encode (structs p) o fuel name buf offset maxlen v = Some (buf', n) /\
    decode (structs p) (cpp_little_endian o) sizeof fuel name buf' offset maxlen = Some (Some v, n) /\
    cpp_decode (structs p) o fuel name VUndef buf' offset maxlen = Some (v, n).
Proof.
  intros HS Hz Hn Hh Hv B Ho Hb Hl Hm. pose proof (parsed_env_ok _ _ _ _ _ _ HS) as HE. set (le := cpp_little_endian o) in *.
  destruct (encode_ok (structs p) le sizeof HE fuel name h v Hn Hh Hv buf offset maxlen B Ho Hb Hl Hm) as (b1&n1&E1&N1&W1).
  destruct (cpp_encode_ok (structs p) o sizeof HE fuel name h v Hn Hh Hv buf offset maxlen B Ho Hb Hl Hm) as (b2&n2&E2&N2&W2).
  fold le in N2, W2. assert (n2 = n1) as -> by lia.
  assert (b2 = b1) as -> by (eapply (writes_unique buf b2 b1 offset n1); [done|done|lia|exact N1|exact W2|exact W1]). pose proof W1 as (B'&L&_&H).
  destruct (decode_ok (structs p) le sizeof Hz HE fuel name h v Hn Hh Hv b1 offset maxlen B' Ho ltac:(lia) ltac:(lia) Hm H) as (n3&E3&N3).
  destruct (cpp_decode_ok (structs p) o sizeof HE fuel name h v Hn Hh Hv VUndef b1 offset maxlen B' Ho ltac:(lia) ltac:(lia) ltac:(by destruct fuel) Hm H)
    as (n4&E4&N4). fold le in N4. assert (n3 = n1) as -> by lia. assert (n4 = n1) as -> by lia. by exists b1, n1.
Qed.

(** C4: a message of any parsed type is encoded by its C++ class into exactly the
    number of bytes that [getEncodedSize] announces, no other byte of the buffer
    changes, and decoding these bytes gives the message back, also into an object
    that holds an older message, if it is [object_reusable].  The announced size
    takes that the products of the sizes of arrays do not overflow. *)
Theorem cpp_roundtrip prefix th mh files r p o sizeof fuel name h v old buf offset maxlen :
  handleFiles prefix th mh files gen_create = Ok r p -> isPrimitiveType name = false ->
  get_hash (structs p) name = Some h -> typed (structs p) (cpp_little_endian o) sizeof fuel name v ->
  products_ok (structs p) fuel name v -> object_reusable (structs p) o fuel name old v ->
  bytes_ok buf -> 0 <= offset -> offset + maxlen <= blen buf -> blen buf < 2 ^ 28 ->
  blen (message_bits (structs p) (cpp_little_endian o) fuel name h v) <= 8 * maxlen ->
  exists n buf', getEncodedSize (structs p) o fuel name v = Some n /\ cpp_encode (structs p) o fuel name buf offset maxlen v = Some (buf', n) /\
    cpp_decode (structs p) o fuel name old buf' offset maxlen = Some (v, n) /\ length buf' = length buf /\
    (forall i : nat, Z.of_nat i < offset \/ offset + n <= Z.of_nat i -> buf' !! i = buf !! i).
Proof.
  intros HS Hn Hh Hv Hp Hr B Ho Hb Hl Hm. pose proof (parsed_env_ok _ _ _ _ _ _ HS) as HE.
  destruct (getEncodedSize_ok (structs p) o sizeof HE fuel name h v Hn Hv Hp) as (n&Es&En); [lia|].
  destruct (cpp_encode_ok (structs p) o sizeof HE fuel name h v Hn Hh Hv buf offset maxlen B Ho Hb Hl Hm) as (buf'&n'&Ee&En'&W).
  assert (n' = n) as -> by lia. pose proof W as (B'&L&_&H).
  destruct (cpp_decode_ok (structs p) o sizeof HE fuel name h v Hn Hh Hv old buf' offset maxlen B' Ho ltac:(lia) ltac:(lia) Hr Hm H) as (n'&Ed&En'').
  assert (n' = n) as -> by lia. exists n, buf'. split; [done|]. split; [done|]. split; [done|]. split; [done|].
  by eapply (writes_outside buf buf' offset n); [done|done|lia|exact W|].
Qed.

(** ** An example *)

Module CppDemo.
Definition o : cppopts := mkCppOpts [] [] false true false false.

(** An object that has held a message with two pairs of points. *)
Definition old : val := VStruct [VNum 2; VNum 1; VNum 0; VArr [VArr [VUndef; VUndef]; VArr [VUndef; VUndef]]].

Lemma products_intro env fuel name zs fs : find_struct env name = Some zs ->
  Forall2 (member_products (products_ok env fuel) (members zs) fs) (members zs) fs -> products_ok env (S fuel) name (VStruct fs).
Proof. intros E H. cbn [products_ok]. by rewrite E. Qed.

Lemma v_products : products_ok (structs Demo.parsed) 2 Demo.path Demo.v.
Proof.
  eapply products_intro; [reflexivity|]. repeat (apply Forall2_cons; split); [by eexists..| |apply Forall2_nil; done].
  unfold member_products. cbn [is_number is_string all_elems dimensions]. 
  assert (forall x s, products_ok (structs Demo.parsed) 1 (str "demo.point") (VStruct [VNum x; VStr s])) as Hp.
  { intros x s. eapply products_intro; [reflexivity|]. apply Forall2_cons. split; [by eexists|]. apply Forall2_cons. split; [exact I|]. by apply Forall2_nil. }
  apply Forall_cons. split; [|by apply Forall_nil]. do 2 (apply Forall_cons; split; [apply Hp|]). by apply Forall_nil.
Qed.

Lemma old_reusable : object_reusable (structs Demo.parsed) o 2 Demo.path old Demo.v.
Proof.
  do 2 eexists. split; [reflexivity|]. split; [reflexivity|]. split; [reflexivity|]. intros k zm x y Hk Hx Hy.
  destruct k as [|[|[|[|k]]]]; cbn in Hk, Hx, Hy; [..|done]; injection Hk as <-; injection Hx as <-; injection Hy as <-; try by left.
  eexists _, _. split; [reflexivity|]. split; [reflexivity|]. split; [done|]. intros i x y Hx Hy.
  destruct i; cbn in Hx, Hy; [|done]. injection Hx as <-. injection Hy as <-.
  eexists _, _. split; [reflexivity|]. split; [reflexivity|]. split; [done|]. intros i x y Hx Hy. right.
  destruct i as [|[|i]]; cbn in Hx; [..|done]; by injection Hx as <-.
Qed.
End CppDemo.

Lemma languages_interoperate_witness : exists buf' n,
  encode (structs Demo.parsed) false 2 Demo.path (replicate 40 7) 1 35 Demo.v = Some (buf', n) /\
  cpp_encode (structs Demo.parsed) CppDemo.o 2 Demo.path (replicate 40 7) 1 35 Demo.v = Some (buf', n) /\
  decode (structs Demo.parsed) false Demo.sizeof 2 Demo.path buf' 1 35 = Some (Some Demo.v, n) /\
  cpp_decode (structs Demo.parsed) CppDemo.o 2 Demo.path VUndef buf' 1 35 = Some (Demo.v, n).
Proof.
  apply (languages_interoperate [] false true Demo.files 0 Demo.parsed CppDemo.o Demo.sizeof 2 Demo.path Demo.hash Demo.v (replicate 40 7) 1 35
    Demo.files_parsed ltac:(done) eq_refl Demo.path_hash Demo.v_typed); [|vm_compute; congruence..].
  apply Forall_replicate. unfold in_u. lia.
Defined.

Lemma cpp_roundtrip_witness : exists n buf',
  getEncodedSize (structs Demo.parsed) CppDemo.o 2 Demo.path Demo.v = Some n /\
  cpp_encode (structs Demo.parsed) CppDemo.o 2 Demo.path (replicate 40 7) 1 35 Demo.v = Some (buf', n) /\
  cpp_decode (structs Demo.parsed) CppDemo.o 2 Demo.path CppDemo.old buf' 1 35 = Some (Demo.v, n) /\ length buf' = 40%nat /\
  (forall i : nat, Z.of_nat i < 1 \/ 1 + n <= Z.of_nat i -> buf' !! i = replicate 40 7 !! i).
Proof.
  apply (cpp_roundtrip [] false true Demo.files 0 Demo.parsed CppDemo.o Demo.sizeof 2 Demo.path Demo.hash Demo.v CppDemo.old (replicate 40 7) 1 35
    Demo.files_parsed eq_refl Demo.path_hash Demo.v_typed CppDemo.v_products CppDemo.old_reusable); [|vm_compute; congruence..].
  apply Forall_replicate. unfold in_u. lia.
Defined.
