(* ===== verification/CppReuse.v ===== *)
(** * Objects that are decoded into again and again

    Whatever bytes an object has been decoded from, with or without success, its
    arrays keep the shape of its class.  So every later message can be decoded into
    it, provided that none of its vectors of numbers is empty. *)
From S2P Require Import Prelude Bytes CoreTypes Bitfield Transport Url Gen CNum EmitC CCode CWire CEnc EmitCpp CppCode CppEnc CppDec.
Local Open Scope Z_scope.

(** ** Shapes *)

Section Shape.
Context (o : cppopts) (call : cstr -> val -> Prop).

(** An array that is part of the object has the size of its dimension. *)
Fixpoint shaped (zm : ZCMMember) (d : nat) (ds : list ZCMDimension) (v : val) : Prop :=
  match ds with
  | [] => isPrimitiveType (fullname (mtype zm)) = true \/ call (fullname (mtype zm)) v
  | zd :: ds => exists l, v = VArr l /\ (resized o zm d = false -> length l = Z.to_nat (strtol (dsize zd) 0)) /\ Forall (shaped zm (S d) ds) l
  end.

(** No vector of numbers is empty. *)
Fixpoint full (zm : ZCMMember) (d : nat) (ds : list ZCMDimension) (v : val) : Prop :=
  match ds with
  | [] => isPrimitiveType (fullname (mtype zm)) = true \/ call (fullname (mtype zm)) v
  | _ :: ds => exists l, v = VArr l /\ (is_number zm && dim_var zm d = true -> ds = [] -> l <> []) /\ Forall (full zm (S d) ds) l
  end.

Lemma init_shaped zm : (forall ty, call ty VUndef) -> forall ds d, shaped zm d ds (cpp_init o zm d ds).
Proof.
  intros H. induction ds as [|zd ds IH]; intros d; cbn [shaped cpp_init]; [by right|]. destruct (resized o zm d).
  - exists []. done.
  - eexists. split; [done|]. rewrite length_replicate. split; [done|]. by apply Forall_replicate.
Qed.
End Shape.

Fixpoint object_shaped (env : list ZCMStruct) (o : cppopts) (fuel : nat) (name : cstr) (v : val) : Prop :=
  match fuel, v with
  | S fuel, VStruct fs => exists zs, find_struct env name = Some zs /\
      Forall2 (fun zm x => shaped o (object_shaped env o fuel) zm 0 (dimensions zm) x) (members zs) fs
  | _, _ => True
  end.

Fixpoint object_full (env : list ZCMStruct) (fuel : nat) (name : cstr) (v : val) : Prop :=
  match fuel, v with
  | S fuel, VStruct fs => exists zs, find_struct env name = Some zs /\
      Forall2 (fun zm x => full (object_full env fuel) zm 0 (dimensions zm) x) (members zs) fs
  | _, _ => True
  end.

(** A full message can be decoded into every object of the shape. *)
Lemma full_reusable o (scall fcall : cstr -> val -> Prop) rcall zm size lim P : (forall d, mode d = ZCM_CONST -> size d = Some (strtol (dsize d) 0)) ->
  (forall old v, P v -> scall (fullname (mtype zm)) old -> fcall (fullname (mtype zm)) v ->
    isPrimitiveType (fullname (mtype zm)) = true \/ rcall (fullname (mtype zm)) old v) ->
  forall ds d old v, drop d (dimensions zm) = ds -> shaped o scall zm d ds old -> full fcall zm d ds v -> has_dims size lim P ds v ->
    reusable o rcall zm d ds old v.
Proof.
  intros Hc HP. induction ds as [|zd ds IH]; intros d old v Hd Hs Hf Hv; cbn [shaped full reusable] in *.
  - destruct Hs as [?|Hs]; [by left|]. destruct Hf as [?|Hf]; [by left|]. by apply HP.
  - destruct Hs as (lo&->&El&Fs), Hf as (l&->&Ne&Ff), Hv as (l'&[= <-]&Hsz&_&Fv). exists lo, l. split; [done|]. split; [done|].
    assert (d < length (dimensions zm))%nat as Hlt by (destruct (decide (d < length (dimensions zm))%nat); [done|]; rewrite drop_ge in Hd by lia; done).
    destruct (lookup_lt_is_Some_2 _ _ Hlt) as [z Hz]. rewrite (drop_S _ _ _ Hz) in Hd. injection Hd as -> Hd. split.
    + destruct (resized o zm d) eqn:Er; [intros Hn Hds Hl; by destruct (Ne Hn Hds)|]. rewrite (El eq_refl).
      assert (mode zd = ZCM_CONST) as Hm by (unfold resized, dim_var in Er; rewrite Hz in Er; by destruct (mode zd)).
      rewrite (Hc zd Hm) in Hsz. injection Hsz as ->. lia.
    + intros i x y Hx Hy. eapply IH; [done|by eapply Forall_lookup_1 in Fs|by eapply Forall_lookup_1 in Ff|by eapply Forall_lookup_1 in Fv].
Qed.

Lemma object_full_reusable env o sizeof (Henv : env_ok env) fuel : forall name old v, object_shaped env o fuel name old -> object_full env fuel name v ->
  typed env (cpp_little_endian o) sizeof fuel name v -> object_reusable env o fuel name old v.
Proof.
  induction fuel as [|fuel IH]; intros name old v Hs Hf Hv; [done|]. cbn [object_reusable]. destruct old as [| | | |fo]; try done.
  destruct Hv as (zs&fs&Hz&->&F). cbn [object_shaped object_full] in *. destruct Hs as (z1&Hz1&Fs). rewrite Hz in Hz1. injection Hz1 as <-.
  destruct Hf as (z2&Hz2&Ff). rewrite Hz in Hz2. injection Hz2 as <-. exists zs, fs. split; [done|]. split; [done|].
  split; [symmetry; by eapply Forall2_length|]. intros k zm x y Hk Hx Hy.
  pose proof (Forall2_lookup_lr _ _ _ _ _ _ Fs Hk Hx) as Sx. pose proof (Forall2_lookup_lr _ _ _ _ _ _ Ff Hk Hy) as Fy.
  pose proof (Forall2_lookup_lr _ _ _ _ _ _ F Hk Hy) as [_ Ty]. cbn beta in Sx, Fy.
  eapply full_reusable; [| |done|exact Sx|exact Fy|exact Ty]; [intros e He; unfold dim_size; by rewrite He|].
  intros old v Hev Hso Hfv. destruct (isPrimitiveType (fullname (mtype zm))) eqn:Pr; [by left|right]. apply IH; try done.
  unfold elem_ok in Hev. destruct (is_bits zm) eqn:Eb; [|by rewrite Pr in Hev].
  apply (bits_number _ (Henv name zs Hz) k zm Hk), is_number_prim in Eb as [Eb _]. congruence.
Qed.

(** ** Decoding keeps the shape *)

Lemma for_loop_keeps {S R} (I : S -> Prop) (J : R -> Prop) (f : nat -> S -> option (S + R)) :
  (forall a s r, I s -> f a s = Some r -> match r with inl s => I s | inr r => J r end) ->
  forall n a s r, I s -> for_loop n a f s = Some r -> match r with inl s => I s | inr r => J r end.
Proof.
  intros Hf. induction n as [|n IH]; intros a s r Hs; cbn [for_loop]; [by intros [= <-]|].
  destruct (f a s) as [[s'|e]|] eqn:E; [|intros [= <-]; exact (Hf _ _ _ Hs E)|done]. apply IH. exact (Hf _ _ _ Hs E).
Qed.

Section Keep.
Context (ms : list ZCMMember) (o : cppopts) (call : cstr -> val -> list byte -> Z -> Z -> option (val * Z)).
Context (scall : cstr -> val -> Prop) (buf : list byte) (offset maxlen : Z).
Hypothesis Hcall : forall ty old off max v m, call ty old buf off max = Some (v, m) -> scall ty old -> scall ty v.
Hypothesis Hfresh : forall ty, scall ty VUndef.

Definition left_with {A B C} (P : A -> Prop) (r : A * B + A * C) : Prop := match r with inl (c, _) => P c | inr (c, _) => P c end.

(** A statement that keeps a property of the part it works on. *)
Definition keeps (P : val -> Prop) (s : pstmt) : Prop :=
  forall F cur st r, P cur -> exec_pdec ms o call buf offset maxlen F s cur st = Some r -> left_with P r.

Lemma keeps_seq P a b : keeps P a -> keeps P b -> keeps P (PSeq a b).
Proof.
  intros Ha Hb F cur st r Hc. cbn [exec_pdec]. destruct (exec_pdec _ _ _ _ _ _ F a cur st) as [[[c s]|e]|] eqn:E; [|intros [= <-]; by apply (Ha _ _ _ _ Hc E)|done].
  apply Hb. exact (Ha _ _ _ _ Hc E).
Qed.

Lemma keeps_if P b i d zm s : keeps P s -> keeps P (PIf b i d zm s).
Proof.
  intros Hs F cur st r Hc. cbn [exec_pdec]. destruct (array_size ms F zm d) as [n|]; [|done]. destruct (0 <? n); [by apply Hs|]. by intros [= <-].
Qed.

(** The elements that a decoder of numbers stores. *)
Lemma keeps_store zm d cur p vs cur' : isPrimitiveType (fullname (mtype zm)) = true ->
  match p with Scalar => dimensions zm = [] | At _ e => e = d /\ S d = length (dimensions zm) end ->
  shaped o scall zm d (drop d (dimensions zm)) cur -> place_store cur p vs = Some cur' -> shaped o scall zm d (drop d (dimensions zm)) cur'.
Proof.
  intros Pr Hp Hc. destruct p as [|i e]; cbn [place_store].
  - intros _. rewrite Hp, drop_nil. by left.
  - destruct Hp as [-> Hd]. destruct (lookup_lt_is_Some_2 (dimensions zm) d) as [zd Hz]; [lia|]. rewrite (drop_S _ _ _ Hz), (drop_ge _ (S d)) in * by lia.
    destruct Hc as (l&->&El&_). cbn [arr_of]. destruct (Nat.leb_spec (length vs) (length l)); [|done]. intros [= <-].
    eexists. split; [done|]. rewrite length_app, length_drop. split; [intros Hr; rewrite <- El by done; lia|]. apply Forall_true. by left.
Qed.

Lemma keeps_numbers zm d p : isPrimitiveType (fullname (mtype zm)) = true ->
  match p with Scalar => dimensions zm = [] | At _ e => e = d /\ S d = length (dimensions zm) end ->
  keeps (shaped o scall zm d (drop d (dimensions zm))) (PDecode p zm) /\ keeps (shaped o scall zm d (drop d (dimensions zm))) (PDecodeBits p zm).
Proof.
  intros Pr Hp. split; intros F cur st r Hc; cbn [exec_pdec]; (destruct (place_count ms F zm p) as [n|]; [|done]).
  - destruct (prim_decode _ _ _ _ _ _) as [[vs m]|]; [|done]. destruct (m <? 0); [by intros [= <-]|].
    destruct (place_store cur p vs) as [c|] eqn:E; [|done]. intros [= <-]. by eapply keeps_store.
  - destruct (itype_of _) as [t|]; [|done]. destruct (decode_array_bits _ _ _ _ _ _ _ _) as [[zs k]|]; [|done]. destruct (wraps 32 k <? 0); [by intros [= <-]|].
    destruct (place_store cur p _) as [c|] eqn:E; [|done]. destruct (__bitfield_advance_offset _ _ _). intros [= <-]. by eapply keeps_store.
Qed.

Lemma keeps_string (P : val -> Prop) p zm : (forall s, P (VStr s)) -> keeps P (PDecodeString p zm).
Proof.
  intros HP F cur st r Hc. cbn [exec_pdec]. destruct (decode_len _ _ _ _) as [[l m]|]; [|done]. destruct (m <? 0); [by intros [= <-]|].
  destruct l as [|len [|]]; [done| |done]. destruct (_ <? _); [by intros [= <-]|]. destruct (1 <=? len); [|done]. destruct (get_all _ _ _); [|done].
  intros [= <-]. apply HP.
Qed.

Lemma keeps_struct zm i d : keeps (fun v => isPrimitiveType (fullname (mtype zm)) = true \/ scall (fullname (mtype zm)) v) (PDecodeStruct i d zm).
Proof.
  intros F cur st r Hc. cbn [exec_pdec]. destruct (call _ _ _ _ _) as [[v m]|] eqn:E; [|done].
  assert (isPrimitiveType (fullname (mtype zm)) = true \/ scall (fullname (mtype zm)) v) as Hv by (destruct Hc as [?|Hc]; [by left|right; by eapply Hcall]).
  destruct (m <? 0); by intros [= <-].
Qed.

Lemma keeps_resize zm i d zd rest : dimensions zm !! d = Some zd -> keeps (shaped o scall zm d (drop d (dimensions zm))) rest ->
  keeps (shaped o scall zm d (drop d (dimensions zm))) (resize_if o i d zm rest).
Proof.
  intros Hz HR. unfold resize_if. destruct (resized o zm d) eqn:Er; [|done]. apply keeps_seq; [|done]. rewrite (drop_S _ _ _ Hz).
  intros F cur st r (l&->&_&Fl). cbn [exec_pdec]. destruct (array_size ms F zm d) as [n|]; [|done]. destruct (0 <=? n); [|done]. cbn [arr_of]. intros [= <-].
  eexists. split; [done|]. split; [by rewrite Er|]. apply Forall_app. split; [by apply Forall_take|]. apply Forall_replicate. by apply init_shaped.
Qed.

Lemma keeps_for zm i d zd body : dimensions zm !! d = Some zd -> keeps (shaped o scall zm (S d) (drop (S d) (dimensions zm))) body ->
  keeps (shaped o scall zm d (drop d (dimensions zm))) (PFor i d zm body).
Proof.
  intros Hz HB. rewrite (drop_S _ _ _ Hz). set (P := shaped o scall zm (S d) (drop (S d) (dimensions zm))) in *. intros F cur st r (l&->&El&Fl). cbn [exec_pdec].
  destruct (loop_count ms F zm d) as [n|]; [|done]. cbn [arr_of].
  set (I := fun l' : list val => length l' = length l /\ Forall P l').
  destruct (for_loop _ _ _ _) as [r'|] eqn:E; [|done]. eapply (for_loop_keeps (fun '(l', _) => I l') (fun '(l', _) => I l')) in E; [|clear E|by split].
  - destruct r' as [[l' s]|[l' e]]; intros [= <-]; destruct E as [E1 E2]; eexists; (split; [done|]); (split; [by rewrite E1|done]).
  - intros a [l' s] r1 [L1 L2]. destruct (l' !! a) as [y|] eqn:Ey; [|done]. destruct (exec_pdec _ _ _ _ _ _ F body y s) as [r2|] eqn:E2; [|done].
    apply HB in E2; [|by eapply Forall_lookup_1 in L2]. destruct r2 as [[y' s']|[y' e]]; intros [= <-]; (split; [by rewrite length_insert|by apply Forall_insert]).
Qed.

Lemma keeps_rec zm : forall n d, (d + n)%nat = length (dimensions zm) ->
  keeps (shaped o scall zm d (drop d (dimensions zm))) (cpp_decode_rec o zm n d).
Proof.
  induction n as [|n IH]; intros d Hn; cbn [cpp_decode_rec].
  - rewrite drop_ge by lia. cbn [Nat.eqb andb shaped]. destruct (is_string zm) eqn:Es; [|apply keeps_struct].
    apply keeps_string. intros s. left. unfold is_string in Es. bool_prop. by rewrite Es.
  - destruct (lookup_lt_is_Some_2 (dimensions zm) d) as [zd Hz]; [lia|]. destruct ((S n =? 1)%nat && is_number zm) eqn:E1.
    + apply andb_true_iff in E1 as [E1 Nu]. apply Nat.eqb_eq in E1. apply is_number_prim in Nu as [Pr _].
      assert (forall i, keeps (shaped o scall zm d (drop d (dimensions zm))) (if numbits (mtype zm) =? 0 then PDecode (At i d) zm else PDecodeBits (At i d) zm)) as HK.
      { intros i. destruct (keeps_numbers zm d (At i d) Pr ltac:(split; [done|lia])) as [H1 H2]. by destruct (_ =? _). }
      destruct (dim_var zm d); [apply keeps_if|]; by eapply keeps_resize.
    + eapply keeps_resize; [done|]. eapply keeps_for; [done|]. apply IH. lia.
Qed.

Lemma keeps_member zm mode : keeps (shaped o scall zm 0 (dimensions zm)) (cpp_decode_member o zm mode).
Proof.
  unfold cpp_decode_member. pose proof (keeps_rec zm (length (dimensions zm)) 0 eq_refl) as HR. rewrite drop_0 in HR.
  destruct (bool_decide (dimensions zm = [])) eqn:Ed; bool_prop; cbn [andb]; [|done]. destruct (isPrimitiveType _) eqn:Pr; [|done].
  destruct (is_string zm); [apply keeps_string; intros s; rewrite Ed; by left|].
  pose proof (keeps_numbers zm 0 Scalar Pr Ed) as [H1 H2]. rewrite drop_0 in H1, H2. by destruct (negb mode).
Qed.

Notation fields_shaped := (Forall2 (fun zm x => shaped o scall zm 0 (dimensions zm) x) ms).

Lemma keeps_body ms' : (forall zm, zm ∈ ms' -> zm ∈ ms) -> NoDup (membername <$> ms) -> forall mode num fs st r, fields_shaped fs ->
  run_pdec ms o call buf offset maxlen (cpp_decode_body o ms' mode num) fs st = Some r -> left_with fields_shaped r.
Proof.
  intros Hin N. induction ms' as [|zm ms' IH]; intros mode num fs st r Hs; cbn [cpp_decode_body].
  - destruct mode; cbn [pend run_pdec]; by intros [= <-].
  - destruct (pborder mode num zm) as [[border mode'] num'] eqn:Eb. cbn [run_pdec].
    assert (exists st', run_pdec ms o call buf offset maxlen border fs st = Some (inl (fs, st'))) as [st' ->].
    { unfold pborder in Eb. destruct (negb mode && is_bits zm); [injection Eb as <- <- <-; by eexists|].
      destruct (mode && negb (is_bits zm)); injection Eb as <- <- <-; by eexists. }
    destruct (member_index ms (membername zm)) as [i|] eqn:Ei; [|done]. destruct (fs !! i) as [x|] eqn:Ex; [|done].
    destruct (exec_pdec _ _ _ _ _ _ fs _ x st') as [r1|] eqn:E1; [|done].
    assert (ms !! i = Some zm) as Hi.
    { unfold member_index in Ei. destruct (list_find _ ms) as [[j m]|] eqn:Ef; [|done]. injection Ei as <-. apply list_find_Some in Ef as (Hj&Hm&_).
      assert (zm ∈ ms) as [k Hk]%list_elem_of_lookup by (apply Hin; by left). assert (j = k) as ->; [|done].
      eapply (NoDup_lookup (membername <$> ms)); [done| |]; rewrite list_lookup_fmap; [by rewrite Hj|rewrite Hk; cbn; by f_equal]. }
    apply keeps_member in E1; [|exact (Forall2_lookup_lr _ _ _ _ _ _ Hs Hi Ex)].
    assert (forall y, shaped o scall zm 0 (dimensions zm) y -> fields_shaped (<[i := y]> fs)) as Hu.
    { intros y Hy. rewrite <- (list_insert_id ms i zm Hi) at 1. by apply Forall2_insert. }
    destruct r1 as [[y s']|[y e]]; cbn [left_with] in E1; [|intros [= <-]; by apply Hu]. cbn [pblank run_pdec].
    apply IH; [intros; apply Hin; by right|by apply Hu].
Qed.
End Keep.

Lemma decodeNoHash_keeps env o (Henv : forall name zs, find_struct env name = Some zs -> NoDup (membername <$> members zs)) fuel :
  forall name old buf off max v m, _decodeNoHash env o fuel name old buf off max = Some (v, m) -> object_shaped env o fuel name old ->
    object_shaped env o fuel name v.
Proof.
  induction fuel as [|fuel IH]; intros name old buf off max v m; [done|]. cbn [_decodeNoHash]. destruct (find_struct env name) as [zs|] eqn:Hz; [|done].
  set (olds := match old with VStruct l => l | _ => _ end). intros E Hs.
  assert (Forall2 (fun zm x => shaped o (object_shaped env o fuel) zm 0 (dimensions zm) x) (members zs) olds) as Ho.
  { assert (Forall2 (fun zm x => shaped o (object_shaped env o fuel) zm 0 (dimensions zm) x) (members zs)
      ((fun zm => cpp_init o zm 0 (dimensions zm)) <$> members zs)) as HN.
    { apply Forall2_fmap_r, Forall_Forall2_diag, Forall_true. intros zm. apply init_shaped. by destruct fuel. }
    unfold olds. cbn [object_shaped] in Hs. destruct old as [| | | |fo]; try exact HN. destruct Hs as (z1&Hz1&Fs). rewrite Hz in Hz1. by injection Hz1 as <-. }
  destruct (run_pdec _ _ _ _ _ _ _ olds _) as [r|] eqn:Er; [|done].
  eapply (keeps_body (members zs) o (_decodeNoHash env o fuel) (object_shaped env o fuel)) in Er; [| | |done|by eapply Henv|exact Ho].
  - destruct r as [[fs st]|[fs e]]; injection E as <- _; exists zs; done.
  - intros ty old' off' max' v' m' Ec. by eapply IH.
  - by destruct fuel.
Qed.
