(* ===== verification/CppApi.v ===== *)
(** * The C++ interface

    The class [ZCM] of zcm/zcm-cpp-impl.hpp on top of the non-blocking core: every
    subscription is an object on the heap, whose address is what the core calls back
    with, and a typed subscription keeps one message that it decodes into. *)
From S2P Require Import Prelude Bytes Tokenize CoreTypes Bitfield Transport Inproc Nonblocking NonblockingProps Url Gen CNum GenParse GenProps.
From S2P Require Import EmitC CCode CWire CEnc CDec CRound CMsg EmitCpp CppCode CppEnc CppSize CppDec CppReuse CppMsg.
Local Open Scope Z_scope.

(** ** Subscriptions *)

(** The classes of subscriptions with what they call: functions, handlers and their
    methods, and user data are numbers; [ty] is the message type. *)
Inductive sub_kind :=
  | Subscription (callback usr : nat)
  | TypedSubscription (ty : cstr) (typedCallback usr : nat)
  | TypedFunctionalSubscription (ty : cstr) (cb : nat)
  | FunctionalSubscription (cb : nat)
  | HandlerSubscription (handler handlerCallback : nat)
  | TypedHandlerSubscription (ty : cstr) (handler typedHandlerCallback : nat).

Definition typed_of (k : sub_kind) : option cstr :=
  match k with
  | TypedSubscription ty _ _ | TypedFunctionalSubscription ty _ | TypedHandlerSubscription ty _ _ => Some ty
  | _ => None
  end.

(** The position of a message type among the types of the program. *)
Fixpoint type_index (env : list ZCMStruct) (ty : cstr) : nat :=
  match env with
  | [] => 0%nat
  | zs :: env => if bool_decide (fullname (structname zs) = ty) then 0%nat else S (type_index env ty)
  end.

(** The function that the core calls for a class; it casts [usr] to the class.  The typed
    classes are templates, with one function for each type of messages.  ([Handler], the
    other parameter of the last two, is the class of the user's object, of which nothing
    is modelled.) *)
Definition dispatch_fn (env : list ZCMStruct) (k : sub_kind) : nat :=
  match k with
  | Subscription _ _ => 0
  | FunctionalSubscription _ => 1
  | HandlerSubscription _ _ => 2
  | TypedSubscription ty _ _ => (3 + 3 * type_index env ty)%nat
  | TypedFunctionalSubscription ty _ => (4 + 3 * type_index env ty)%nat
  | TypedHandlerSubscription ty _ _ => (5 + 3 * type_index env ty)%nat
  end.

(** Functions of declared types are told apart. *)
Lemma type_index_inj env a b : a ∈ (fun zs => fullname (structname zs)) <$> env -> type_index env a = type_index env b -> a = b.
Proof.
  induction env as [|zs env IH]; cbn [fmap list_fmap type_index]; intros Ha E; [by apply not_elem_of_nil in Ha|].
  repeat case_bool_decide; try congruence. apply elem_of_cons in Ha as [->|Ha]; [done|]. apply IH; [done|congruence].
Qed.

Lemma dispatch_fn_inj env k1 k2 ty : typed_of k1 = Some ty -> ty ∈ (fun zs => fullname (structname zs)) <$> env ->
  dispatch_fn env k1 = dispatch_fn env k2 -> typed_of k2 = Some ty.
Proof.
  intros E1 Hin E. destruct k1; cbn in E1; try done; injection E1 as ->; destruct k2; cbn [dispatch_fn typed_of] in *; try lia;
    f_equal; symmetry; apply (type_index_inj env); auto; lia.
Qed.

(** An object: [rawSub] is the slot of the core, [nullptr] if it gave none. *)
Record sub_object := mkSubObject { rawSub : option nat; kind : sub_kind; msgMem : val }.

(** A call of the user: which callback, the channel, the bytes, the message. *)
Record call := mkCall { called : sub_kind; on_channel : cstr; with_bytes : list byte; with_msg : option val }.

Record ZCM {T : Type} := mkZCM {
  zcm : option (zcm_nonblocking T);
  subscriptions : list nat;
  heap : gmap nat sub_object;
  next_object : nat
}.
Arguments ZCM : clear implicits.

Local Opaque ZCM_NONBLOCK_SUBS_MAX.

Section Api.
(** The message types of the program and the options they were generated with. *)
Context (env : list ZCMStruct) (o : cppopts) (fuel : nat).
Context {T : Type} `{Transport T}.

(** ** Operations *)

(** All six functions [subscribe], with the non-blocking core behind [zcm_subscribe]: a new
    object, also when the core refuses. *)
Definition subscribe (z : ZCM T) (channel : cstr) (k : sub_kind) : ZCM T * option nat :=
  match zcm z with
  | None => (z, None)
  | Some core =>
      let sub := next_object z in
      let '(core, raw) := zcm_nonblocking_subscribe core channel (dispatch_fn env k) sub in
      (mkZCM T (Some core) (subscriptions z ++ [sub]) (<[sub := mkSubObject raw k VUndef]> (heap z)) (S sub), Some sub)
  end.

(** [unsubscribeRaw] subtracts the address of the table of the core from [rawSub]. *)
Definition unsubscribe (z : ZCM T) (sub : nat) : option (ZCM T * Z) :=
  match list_find (fun s => s = sub) (subscriptions z) with
  | None => Some (z, ZCM_EUNKNOWN)
  | Some (i, _) =>
      core <- zcm z ;;
      obj <- heap z !! sub ;;
      raw <- rawSub obj ;;
      let '(core, ret) := zcm_nonblocking_unsubscribe core (Z.of_nat raw) in
      Some (mkZCM T (Some core) (delete i (subscriptions z)) (delete sub (heap z)) (next_object z), ret)
  end.

(** [publish] of a message; [fresh n] is the block that [new] gives. *)
Definition publish_msg (fresh : Z -> list byte) (z : ZCM T) (channel : cstr) (ty : cstr) (msg : val) : option (ZCM T * Z) :=
  len <- getEncodedSize env o fuel ty msg ;;
  '(buf, encodeRet) <- cpp_encode env o fuel ty (fresh len) 0 len msg ;;
  if (encodeRet <? 0) || negb (u32 encodeRet =? len) then Some (z, ZCM_EAGAIN) else
  core <- zcm z ;;
  '(core, status) <- zcm_nonblocking_publish core channel buf len ;;
  Some (mkZCM T (Some core) (subscriptions z) (heap z) (next_object z), status).

(** [readMsg]: the new contents of [msgMem] and the result. *)
Definition readMsg (ty : cstr) (mem : val) (rbuf : zcm_recv_buf_t) : option (val * Z) :=
  '(mem, status) <- cpp_decode env o fuel ty mem (rdata rbuf) 0 (data_size rbuf) ;;
  Some (mem, if status <? 0 then -1 else 0).

(** The dispatch functions: [usr] must point to a living object of the class. *)
Definition dispatch (h : gmap nat sub_object) (d : delivery) : option (gmap nat sub_object * list call) :=
  obj <- h !! dusr d ;;
  check (dcallback d =? dispatch_fn env (kind obj))%nat ;;
  match typed_of (kind obj) with
  | None => Some (h, [mkCall (kind obj) (dchannel d) (rdata (drbuf d)) None])
  | Some ty =>
      '(mem, r) <- readMsg ty (msgMem obj) (drbuf d) ;;
      let h := <[dusr d := mkSubObject (rawSub obj) (kind obj) mem]> h in
      Some (h, if negb (r =? 0) then [] else [mkCall (kind obj) (dchannel d) (rdata (drbuf d)) (Some mem)])
  end.

Fixpoint dispatch_all (h : gmap nat sub_object) (ds : list delivery) : option (gmap nat sub_object * list call) :=
  match ds with
  | [] => Some (h, [])
  | d :: ds => '(h, cs) <- dispatch h d ;; '(h, cs') <- dispatch_all h ds ;; Some (h, cs ++ cs')
  end.

(** [flush]; [n] bounds the messages that arrive. *)
Definition flush (n : nat) (z : ZCM T) : option (ZCM T * list call) :=
  core <- zcm z ;;
  '(core, ds) <- zcm_nonblocking_flush n core ;;
  '(h, cs) <- dispatch_all (heap z) ds ;;
  Some (mkZCM T (Some core) (subscriptions z) h (next_object z), cs).

(** What a program does with a [ZCM]. *)
Inductive api_step (z : ZCM T) : ZCM T -> Prop :=
  | step_subscribe channel k : api_step z (subscribe z channel k).1
  | step_unsubscribe sub z' r : unsubscribe z sub = Some (z', r) -> api_step z z'
  | step_publish fresh channel ty msg z' r : publish_msg fresh z channel ty msg = Some (z', r) -> api_step z z'
  | step_flush n z' cs : flush n z = Some (z', cs) -> api_step z z'.

(** ** The invariant *)

(** The slots of the core and the objects on the heap belong to each other. *)
Record api_inv (z : ZCM T) (core : zcm_nonblocking T) : Prop := mkApiInv {
  ai_core : zcm z = Some core;
  ai_nb : nb_inv core;
  ai_slots : forall j s, slot core j = Some s -> exists x, heap z !! sub_usr s = Some x /\ rawSub x = Some j /\ callback s = dispatch_fn env (kind x);
  ai_raw : forall n x j, heap z !! n = Some x -> rawSub x = Some j -> exists s, slot core j = Some s /\ sub_usr s = n;
  ai_nodup : NoDup (subscriptions z);
  ai_list : forall n, n ∈ subscriptions z <-> is_Some (heap z !! n);
  ai_next : forall n, is_Some (heap z !! n) -> (n < next_object z)%nat;
  ai_shape : forall n x ty, heap z !! n = Some x -> typed_of (kind x) = Some ty -> object_shaped env o fuel ty (msgMem x)
}.

Hypothesis Henv : forall name zs, find_struct env name = Some zs -> NoDup (membername <$> members zs).

Lemma subscribe_slots (z : zcm_nonblocking T) ch cb usr z' r : nb_inv z -> zcm_nonblocking_subscribe z ch cb usr = (z', r) ->
  nb_inv z' /\ match r with
              | Some i => slot z i = None /\ forall j, slot z' j = if decide (j = i) then Some (mkSub (copy_channel ch) cb usr) else slot z j
              | None => forall j, slot z' j = slot z j
              end.
Proof.
  intros I E. destruct (zcm_trans_recvmsg_enable (zt z) ch true) as [t rc] eqn:Et. destruct (decide (rc = ZCM_EOK)) as [->|Hrc].
  - pose proof (nb_subscribe_spec z ch cb usr t I Et) as S. rewrite E in S. destruct S as (I'&_&S). split; [done|]. destruct r; [|by destruct S].
    destruct S as (_&Hs&_&_&Hj). done.
  - unfold zcm_nonblocking_subscribe in E. rewrite Et, (proj2 (Z.eqb_neq _ _) Hrc) in E. injection E as <- <-. split; [by apply nb_inv_with_zt|done].
Qed.

(** A delivery is for a slot in use. *)
Definition from_slot (z : zcm_nonblocking T) (d : delivery) : Prop :=
  exists j s, slot z j = Some s /\ dcallback d = callback s /\ dusr d = sub_usr s.

Lemma dispatch_slots (z : zcm_nonblocking T) msg : nb_inv z -> Forall (from_slot z) (dispatch_message z msg).
Proof.
  intros I. rewrite dispatch_spec by done. apply Forall_fmap, Forall_forall. intros s Hs. apply list_elem_of_filter in Hs as [_ Hs].
  apply list_elem_of_omap in Hs as (j&_&Hj). by exists j, s.
Qed.

Lemma flush_loop_slots n : forall (z : zcm_nonblocking T) z' ds, nb_inv z -> flush_loop n z = Some (z', ds) ->
  (exists t, z' = with_zt z t) /\ Forall (from_slot z) ds.
Proof.
  induction n as [|n IH]; intros z z' ds I; cbn [flush_loop]; [done|].
  destruct (zcm_trans_recvmsg (zt z) 0) as [[[t ret] om]|]; [|done]. destruct (negb _).
  - intros [= <- <-]. split; [by exists t|constructor].
  - destruct om as [m|]; [|done]. destruct (flush_loop n (with_zt z t)) as [[z1 ds1]|] eqn:E; [|done]. intros [= <- <-].
    destruct (IH _ _ _ (nb_inv_with_zt z t I) E) as [[t' ->] F]. split; [by exists t'|]. apply Forall_app. split; [|exact F].
    apply (dispatch_slots (with_zt z t) m (nb_inv_with_zt z t I)).
Qed.

Lemma flush_slots n (z : zcm_nonblocking T) z' ds : nb_inv z -> zcm_nonblocking_flush n z = Some (z', ds) ->
  (exists t, z' = with_zt z t) /\ Forall (from_slot z) ds.
Proof.
  intros I. unfold zcm_nonblocking_flush. destruct (zcm_trans_update (zt z)) as [[t1 ?]|]; [|done]. destruct (zcm_trans_update t1) as [[t2 ?]|]; [|done].
  intros E. destruct (flush_loop_slots n (with_zt z t2) z' ds (nb_inv_with_zt z t2 I) E) as [[t' ->] F]. split; [by exists t'|exact F].
Qed.

Lemma readMsg_keeps ty mem rbuf mem' r : readMsg ty mem rbuf = Some (mem', r) -> object_shaped env o fuel ty mem -> object_shaped env o fuel ty mem'.
Proof.
  unfold readMsg, cpp_decode. destruct (__int64_t_decode_array _ _ _ _) as [[h n]|]; [|done]. destruct (n <? 0); [by intros [= <- _]|].
  destruct (getHash env ty) as [hash|]; [|done]. destruct (negb _); [by intros [= <- _]|].
  destruct (_decodeNoHash _ _ _ _ _ _ _ _) as [[v m]|] eqn:E; [|done]. intros Em Hs. apply (decodeNoHash_keeps env o Henv) in E; [|done].
  destruct (m <? 0); by injection Em as <- _.
Qed.

(** Two heaps with the same objects, which have been dispatched to in the meantime. *)
Definition same_objects (h h' : gmap nat sub_object) : Prop := forall n,
  match h !! n, h' !! n with
  | Some x, Some y => rawSub x = rawSub y /\ kind x = kind y
  | None, None => True
  | _, _ => False
  end.

Definition heap_shaped (h : gmap nat sub_object) : Prop :=
  forall n x ty, h !! n = Some x -> typed_of (kind x) = Some ty -> object_shaped env o fuel ty (msgMem x).

Lemma dispatch_keeps h d h' cs : dispatch h d = Some (h', cs) -> heap_shaped h -> same_objects h h' /\ heap_shaped h'.
Proof.
  assert (forall h, same_objects h h) as Hr by (intros h1 n; by destruct (h1 !! n)).
  unfold dispatch. destruct (h !! dusr d) as [x|] eqn:Ex; [|done]. destruct (_ =? _)%nat; [|done].
  destruct (typed_of (kind x)) as [ty|] eqn:Ek; [|intros [= <- _]; by split]. destruct (readMsg ty (msgMem x) (drbuf d)) as [[mem r]|] eqn:Em; [|done].
  intros [= <- _] Hs. split.
  - intros n. destruct (decide (n = dusr d)) as [->|Hn]; [by rewrite lookup_insert_eq, Ex|rewrite lookup_insert_ne by done; by destruct (h !! n)].
  - intros n y ty' Hy Hk. destruct (decide (n = dusr d)) as [->|Hn].
    + rewrite lookup_insert_eq in Hy. injection Hy as <-. cbn [kind msgMem] in *. rewrite Ek in Hk. injection Hk as <-.
      eapply readMsg_keeps; [exact Em|]. by eapply Hs.
    + rewrite lookup_insert_ne in Hy by done. by eapply Hs.
Qed.

Lemma dispatch_all_keeps ds : forall h h' cs, dispatch_all h ds = Some (h', cs) -> heap_shaped h -> same_objects h h' /\ heap_shaped h'.
Proof.
  induction ds as [|d ds IH]; intros h h' cs; cbn [dispatch_all]; [intros [= <- _] Hs; split; [intros n; by destruct (h !! n)|done]|].
  destruct (dispatch h d) as [[h1 cs1]|] eqn:E1; [|done]. destruct (dispatch_all h1 ds) as [[h2 cs2]|] eqn:E2; [|done]. intros [= <- _] Hs.
  destruct (dispatch_keeps h d h1 cs1 E1 Hs) as [S1 Hs1]. destruct (IH _ _ _ E2 Hs1) as [S2 Hs2]. split; [|done]. intros n. specialize (S1 n). specialize (S2 n).
  destruct (h !! n), (h1 !! n), (h2 !! n); try done. destruct S1, S2. split; congruence.
Qed.

Lemma api_inv_same z core t h : api_inv z core -> same_objects (heap z) h -> heap_shaped h ->
  api_inv (mkZCM T (Some (with_zt core t)) (subscriptions z) h (next_object z)) (with_zt core t).
Proof.
  intros [E I S R N Li Nx Sh] Sm Hs.
  assert (forall n, is_Some (heap z !! n) <-> is_Some (h !! n)) as Hd.
  { intros n. specialize (Sm n). destruct (heap z !! n), (h !! n); try done; split; intros; by eexists. }
  split; cbn [zcm subscriptions heap next_object]; [done|by apply nb_inv_with_zt| | |done| | |done].
  - intros j s Hj. destruct (S j s Hj) as (x&Hx&Hr&Hc). specialize (Sm (sub_usr s)). rewrite Hx in Sm. destruct (h !! sub_usr s) as [y|] eqn:Ey; [|done].
    destruct Sm as [E1 E2]. exists y. rewrite <- E1, <- E2. done.
  - intros n y j Hy Hr. specialize (Sm n). rewrite Hy in Sm. destruct (heap z !! n) as [x|] eqn:Ex; [|done]. destruct Sm as [E1 _].
    eapply R; [exact Ex|]. by rewrite E1.
  - intros n. by rewrite Li, Hd.
  - intros n Hn. apply Nx. by apply Hd.
Qed.

Lemma api_inv_subscribe z core ch k : api_inv z core -> exists core', api_inv (subscribe z ch k).1 core'.
Proof.
  intros [E I S R N Li Nx Sh]. unfold subscribe. rewrite E.
  destruct (zcm_nonblocking_subscribe core ch (dispatch_fn env k) (next_object z)) as [core' raw] eqn:Es. exists core'.
  destruct (subscribe_slots _ _ _ _ _ _ I Es) as [I' Hsl].
  assert (heap z !! next_object z = None) as Hn by (destruct (heap z !! next_object z) eqn:Eh; [|done]; specialize (Nx (next_object z) ltac:(by eexists)); lia).
  assert (forall n x, heap z !! n = Some x -> n <> next_object z) as Hne by (intros n x Hx ->; congruence).
  split; cbn [fst zcm subscriptions heap next_object]; [done|done| | | | | |].
  - intros j s Hj. destruct raw as [i|].
    + destruct Hsl as [_ Hsl]. rewrite Hsl in Hj. destruct (decide (j = i)) as [->|_].
      * injection Hj as <-. cbn [sub_usr callback]. rewrite lookup_insert_eq. by eexists.
      * destruct (S j s Hj) as (x&Hx&Hrc). exists x. by rewrite lookup_insert_ne by congruence.
    + rewrite Hsl in Hj. destruct (S j s Hj) as (x&Hx&Hrc). exists x. by rewrite lookup_insert_ne by congruence.
  - intros n x j Hx Hr. destruct (decide (n = next_object z)) as [->|Hnn].
    + rewrite lookup_insert_eq in Hx. injection Hx as <-. cbn [rawSub] in Hr. subst raw. destruct Hsl as [_ Hsl]. eexists. rewrite Hsl, decide_True by done. done.
    + rewrite lookup_insert_ne in Hx by done. destruct (R n x j Hx Hr) as (s&Hs&Hu). exists s. split; [|done]. destruct raw as [i|]; [|by rewrite Hsl].
      destruct Hsl as [Hi Hsl]. rewrite Hsl. rewrite decide_False; [done|]. intros ->. congruence.
  - apply NoDup_app. split; [done|]. split; [|apply NoDup_singleton]. intros n Hin Hin'. apply list_elem_of_singleton in Hin' as ->.
    apply Li in Hin. rewrite Hn in Hin. by destruct Hin.
  - intros n. rewrite elem_of_app, list_elem_of_singleton, Li. destruct (decide (n = next_object z)) as [->|Hnn].
    + rewrite lookup_insert_eq. split; [by eexists|by right].
    + rewrite lookup_insert_ne by done. tauto.
  - intros n Hs. destruct (decide (n = next_object z)) as [->|Hnn]; [lia|]. rewrite lookup_insert_ne in Hs by done. apply Nx in Hs. lia.
  - intros n x ty Hx Hk. destruct (decide (n = next_object z)) as [->|Hnn].
    + rewrite lookup_insert_eq in Hx. injection Hx as <-. cbn [msgMem]. by destruct fuel.
    + rewrite lookup_insert_ne in Hx by done. by eapply Sh.
Qed.

Lemma api_inv_unsubscribe z core sub z' r : api_inv z core -> unsubscribe z sub = Some (z', r) -> exists core', api_inv z' core'.
Proof.
  intros A. pose proof A as [E I S R N Li Nx Sh]. unfold unsubscribe. destruct (list_find _ _) as [[i n]|] eqn:Ef; [|intros [= <- _]; by exists core].
  apply list_find_Some in Ef as (Hi&->&_). rewrite E. destruct (heap z !! sub) as [x|] eqn:Ex; [|done]. destruct (rawSub x) as [j|] eqn:Er; [|done].
  destruct (R sub x j Ex Er) as (s&Hs&Hu). pose proof (nb_unsubscribe_spec core (Z.of_nat j) I) as U.
  destruct (zcm_nonblocking_unsubscribe core (Z.of_nat j)) as [core' rc]. intros [= <- _]. exists core'.
  rewrite decide_True, Nat2Z.id, Hs in U by lia. destruct U as (I'&Hsl&_). pose proof (delete_Permutation _ _ _ Hi) as P.
  rewrite P in N. apply NoDup_cons in N as [Nin N]. split; cbn [zcm subscriptions heap next_object]; [done|done| | |done| | |].
  - intros j' s' Hj. rewrite Hsl in Hj. destruct (decide (j' = j)) as [|Hne]; [done|]. destruct (S j' s' Hj) as (y&Hy&Hr&Hc). exists y.
    rewrite lookup_delete_ne; [done|]. intros Eq. rewrite <- Eq, Ex in Hy. injection Hy as <-. congruence.
  - intros n y j' Hy Hr. apply lookup_delete_Some in Hy as [Hn Hy]. destruct (R n y j' Hy Hr) as (s'&Hs'&Hu'). exists s'. split; [|done].
    rewrite Hsl, decide_False; [done|]. intros ->. rewrite Hs in Hs'. injection Hs' as <-. congruence.
  - intros n. specialize (Li n). rewrite P, elem_of_cons in Li. destruct (decide (n = sub)) as [->|Hn].
    + rewrite lookup_delete_eq. split; [done|by intros [? ?]].
    + rewrite lookup_delete_ne by done. rewrite <- Li. split; [by right|by intros [?|?]].
  - intros n Hn. apply Nx. destruct Hn as [y Hy]. apply lookup_delete_Some in Hy as [_ Hy]. by eexists.
  - intros n y ty Hy Hk. apply lookup_delete_Some in Hy as [_ Hy]. by eapply Sh.
Qed.

Lemma same_objects_refl h : same_objects h h.
Proof. intros n. by destruct (h !! n). Qed.

Lemma api_inv_step z core z' : api_inv z core -> api_step z z' -> exists core', api_inv z' core'.
Proof.
  intros A St. pose proof A as [E I S R N Li Nx Sh]. destruct St as [ch k|sub z' r Eu|fresh ch ty msg z' r Ep|n z' cs Ef].
  - by eapply api_inv_subscribe.
  - by eapply api_inv_unsubscribe.
  - unfold publish_msg in Ep. destruct (getEncodedSize _ _ _ _ _); [|done]. destruct (cpp_encode _ _ _ _ _ _ _ _) as [[buf er]|]; [|done].
    destruct (_ || _); [injection Ep as <- _; by exists core|]. rewrite E in Ep. unfold zcm_nonblocking_publish in Ep.
    destruct (zcm_trans_sendmsg _ _) as [[t rc]|]; [|done]. injection Ep as <- _. exists (with_zt core t). apply api_inv_same; [done|apply same_objects_refl|exact Sh].
  - unfold flush in Ef. rewrite E in Ef. destruct (zcm_nonblocking_flush n core) as [[core' ds]|] eqn:Fl; [|done].
    destruct (dispatch_all (heap z) ds) as [[h cs']|] eqn:Ed; [|done]. injection Ef as <- _.
    destruct (flush_slots n core core' ds I Fl) as [[t ->] _]. exists (with_zt core t).
    destruct (dispatch_all_keeps ds _ _ _ Ed Sh) as [Sm Hs]. by apply api_inv_same.
Qed.

(** ** Delivery *)

(** Every delivery of the core finds its object. *)
Lemma deliveries_live z core d : api_inv z core -> from_slot core d ->
  exists x, heap z !! dusr d = Some x /\ dcallback d = dispatch_fn env (kind x).
Proof.
  intros [_ _ S _ _ _ _ _] (j&s&Hs&Hc&Hu). destruct (S j s Hs) as (x&Hx&_&Hk). exists x. rewrite Hc, Hu. done.
Qed.

(** What a subscription makes of a message of type [name]. *)
Definition calls_of (h : gmap nat sub_object) (name : cstr) (v : val) (d : nat * nat * cstr * list byte) : list call :=
  let '(_, usr, ch, data) := d in
  match h !! usr with
  | None => []
  | Some x =>
      match typed_of (kind x) with
      | None => [mkCall (kind x) ch data None]
      | Some ty => if bool_decide (ty = name) then [mkCall (kind x) ch data (Some v)] else []
      end
  end.

Section Deliver.
Context (sizeof : cstr -> Z) (name : cstr) (h : Z) (v : val) (data : list byte).
Hypothesis Hok : env_ok env.
Hypothesis Hname : isPrimitiveType name = false.
Hypothesis Hhash : get_hash env name = Some h.
Hypothesis Hv : typed env (cpp_little_endian o) sizeof fuel name v.
Hypothesis Hfull : object_full env fuel name v.
Hypothesis Hbytes : bytes_ok data.
Hypothesis Hlen : blen data < 2 ^ 28.
Hypothesis Hbits : blen (message_bits env (cpp_little_endian o) fuel name h v) = 8 * blen data.
Hypothesis Hholds : holds data 0 (message_bits env (cpp_little_endian o) fuel name h v).

(** The other types are told apart by their hashes. *)
Definition others_differ (hp : gmap nat sub_object) : Prop :=
  forall n x ty, hp !! n = Some x -> typed_of (kind x) = Some ty -> ty <> name -> exists h', getHash env ty = Some h' /\ h' <> h.

Lemma dispatch_one hp d : heap_shaped hp -> others_differ hp -> rdata (drbuf d) = data -> sized d ->
  (exists x, hp !! dusr d = Some x /\ dcallback d = dispatch_fn env (kind x)) ->
  exists hp', dispatch hp d = Some (hp', calls_of hp name v (view d)) /\ same_objects hp hp' /\ heap_shaped hp'.
Proof.
  intros Hs Ho Hd Hsz (x&Hx&Hk). assert (exists hp', dispatch hp d = Some (hp', calls_of hp name v (view d))) as [hp' E].
  2: { exists hp'. split; [done|]. by eapply dispatch_keeps. }
  unfold dispatch, calls_of, view. rewrite Hx, Hk, Nat.eqb_refl, Hd. destruct (typed_of (kind x)) as [ty|] eqn:Et; [|by eexists].
  unfold readMsg. unfold sized in Hsz. rewrite Hsz, Hd, wrapu_id by (unfold in_u; lia).
  pose proof (message_length env (cpp_little_endian o) fuel name h v) as Ml.
  destruct (bool_decide (ty = name)) eqn:En; bool_prop.
  - subst ty. pose proof (object_full_reusable env o sizeof Hok fuel name (msgMem x) v (Hs _ _ _ Hx Et) Hfull Hv) as Hr.
    destruct (cpp_decode_ok env o sizeof Hok fuel name h v Hname Hhash Hv (msgMem x) data 0 (blen data) Hbytes ltac:(lia) ltac:(lia) Hlen Hr ltac:(lia) Hholds)
      as (n&->&Hn). rewrite (proj2 (Z.ltb_ge n 0)) by lia. by eexists.
  - destruct (Ho _ _ _ Hx Et En) as (h'&Hh'&Hne). apply holds_app in Hholds as [Hh0 _]. unfold cpp_decode.
    rewrite (hash_read h data 0 (blen data) (hash_range env name h Hhash) Hbytes ltac:(lia) ltac:(lia) ltac:(lia) Hlen Hh0), Hh'.
    cbn [Z.ltb Z.compare]. rewrite bool_decide_false by congruence. by eexists.
Qed.

Lemma same_calls hp hp' d : same_objects hp hp' -> calls_of hp' name v d = calls_of hp name v d.
Proof.
  intros Sm. destruct d as [[[cb usr] ch] b]. unfold calls_of. specialize (Sm usr). destruct (hp !! usr), (hp' !! usr); try done. by destruct Sm as [_ ->].
Qed.

Lemma dispatch_every ds : forall hp, heap_shaped hp -> others_differ hp -> Forall (fun d => rdata (drbuf d) = data /\ sized d) ds ->
  Forall (fun d => exists x, hp !! dusr d = Some x /\ dcallback d = dispatch_fn env (kind x)) ds ->
  exists hp', dispatch_all hp ds = Some (hp', concat (calls_of hp name v <$> (view <$> ds))) /\ same_objects hp hp' /\ heap_shaped hp'.
Proof.
  induction ds as [|d ds IH]; intros hp Hs Ho Hd Hx; cbn [dispatch_all]; [exists hp; split; [done|]; split; [apply same_objects_refl|done]|].
  apply Forall_cons in Hd as [[Hd1 Hd2] Hd]. apply Forall_cons in Hx as [Hx1 Hx].
  destruct (dispatch_one hp d Hs Ho Hd1 Hd2 Hx1) as (h1&->&S1&Hs1).
  destruct (IH h1 Hs1) as (h2&->&S2&Hs2).
  - intros n x ty Hn Hk Hne. specialize (S1 n). rewrite Hn in S1. destruct (hp !! n) as [y|] eqn:Ey; [|done]. destruct S1 as [_ Ek].
    eapply Ho; [exact Ey|by rewrite Ek|done].
  - done.
  - eapply Forall_impl; [exact Hx|]. intros e (x&He&Hk). specialize (S1 (dusr e)). rewrite He in S1. destruct (h1 !! dusr e) as [y|]; [|done].
    exists y. destruct S1 as [_ <-]. done.
  - exists h2. split; [|split; [|done]].
    + cbn [fmap list_fmap concat]. do 3 f_equal. clear - S1. f_equal. induction ds as [|e ds IH]; [done|]. cbn [fmap list_fmap]. rewrite IH. f_equal. by apply same_calls.
    + intros n. specialize (S1 n). specialize (S2 n). destruct (hp !! n), (h1 !! n), (h2 !! n); try done. destruct S1, S2. split; congruence.
Qed.
End Deliver.
End Api.

(** ** Properties *)

(** A [ZCM] on a new core. *)
Definition cpp_create {T} (core : zcm_nonblocking T) : ZCM T := mkZCM T (Some core) [] ∅ 0.

Lemma api_inv_create env o fuel {T} `{Transport T} t (core : zcm_nonblocking T) :
  zcm_nonblocking_try_create ZCM_NONBLOCKING t true = (ZCM_EOK, Some core) -> api_inv env o fuel (cpp_create core) core.
Proof.
  intros E. destruct (nb_inv_create t core E) as [I Hs].
  split; cbn [cpp_create zcm subscriptions heap next_object]; [done|done| | |constructor| | |].
  - intros j s Hj. by rewrite Hs in Hj.
  - intros n x j Hx. by rewrite lookup_empty in Hx.
  - intros n. rewrite elem_of_nil, lookup_empty. split; [done|by intros [? ?]].
  - intros n [x Hx]. by rewrite lookup_empty in Hx.
  - intros n x ty Hx. by rewrite lookup_empty in Hx.
Qed.

Lemma parsed_names prefix th mh files r p : handleFiles prefix th mh files gen_create = Ok r p ->
  forall name zs, find_struct (structs p) name = Some zs -> NoDup (membername <$> members zs).
Proof.
  intros HS name zs Hz. destruct (find_struct_Some _ _ _ Hz) as [Hin _].
  pose proof (parsed_structs _ _ _ _ _ _ HS) as F. eapply Forall_forall in F; [|exact Hin]. destruct F as [[N _ _] _]. by apply NoDup_app in N as [N _].
Qed.

Lemma api_reachable env o fuel {T} `{Transport T} (Henv : forall name zs, find_struct env name = Some zs -> NoDup (membername <$> members zs))
  (z0 z : ZCM T) core0 : api_inv env o fuel z0 core0 -> rtc (api_step env o fuel) z0 z -> exists core, api_inv env o fuel z core.
Proof.
  intros I R. revert core0 I. induction R as [z|z1 z2 z3 St _ IH]; intros core I; [by exists core|].
  destruct (api_inv_step env o fuel Henv z1 core z2 I St) as [core2 I2]. by eapply IH.
Qed.

(** C19: the C++ interface over the non-blocking core never calls back into a subscription
    that is gone: after any sequence of subscribing, unsubscribing, publishing and flushing
    on a [ZCM] made with a non-blocking transport, whatever messages arrive and whether they
    can be decoded or not, every handler that the core calls gets the address of a living
    object of the class and message type it casts to, and this object is in the list of
    subscriptions.  (Over the blocking core this is not so: unsubscribing may fail there,
    see [blocking_unsubscribe_long], and [ZCM::unsubscribe] deletes the object all the same.) *)
Theorem cpp_subscriptions_live {T} `{Transport T} prefix th mh files r p o fuel t (core0 : zcm_nonblocking T) (z : ZCM T) :
  handleFiles prefix th mh files gen_create = Ok r p -> zcm_nonblocking_try_create ZCM_NONBLOCKING t true = (ZCM_EOK, Some core0) ->
  rtc (api_step (structs p) o fuel) (cpp_create core0) z ->
  exists core, zcm z = Some core /\ forall n core' ds d, zcm_nonblocking_flush n core = Some (core', ds) -> d ∈ ds ->
    dusr d ∈ subscriptions z /\ exists x, heap z !! dusr d = Some x /\ dcallback d = dispatch_fn (structs p) (kind x).
Proof.
  intros HS E R. destruct (api_reachable (structs p) o fuel (parsed_names _ _ _ _ _ _ HS) _ z core0 (api_inv_create _ o fuel t core0 E) R) as [core A].
  exists core. split; [by apply (ai_core _ _ _ _ _ A)|]. intros n core' ds d Fl Hd.
  destruct (flush_slots n core core' ds (ai_nb _ _ _ _ _ A) Fl) as [_ F]. eapply Forall_forall in F; [|exact Hd].
  destruct (deliveries_live _ _ _ z core d A F) as (x&Hx&Hk). split; [|by exists x]. apply (ai_list _ _ _ _ _ A). by eexists.
Qed.

(** C5: over the non-blocking core, a message that a C++ program publishes is received: in
    every state that a program can reach on a [ZCM] made with a non-blocking transport that
    is first-in first-out and empty, [publish] returns ZCM_EOK, and the flush behind it calls
    exactly the subscriptions of the channel, in the order of their slots: those of the type
    of the message with the message that was published, whatever they have received before,
    those without a type with its bytes, and those of another type not at all.  This
    is for a well-typed message of a parsed type that fits: its encoding is within the MTU
    of the transport and shorter than 2^28 - 1 bytes, and the products of the sizes of its
    arrays of numbers that [getEncodedSize] computes do not overflow ([products_ok]); a
    channel of at most ZCM_CHANNEL_MAXLEN bytes (a longer one is refused); no empty vector
    of numbers in it ([object_full]; an empty one leaves the elements of the message
    before, see [cpp_stale_elements]); and other types subscribed to have another hash
    ([others_differ]). *)
Theorem cpp_publish_delivers {T} `{FifoTransport T} prefix th mh files r p o sizeof fuel name h v fresh t (core0 core : zcm_nonblocking T) (z : ZCM T) ch :
  handleFiles prefix th mh files gen_create = Ok r p -> zcm_nonblocking_try_create ZCM_NONBLOCKING t true = (ZCM_EOK, Some core0) ->
  rtc (api_step (structs p) o fuel) (cpp_create core0) z -> zcm z = Some core -> fifo_ok (zt core) -> queue (zt core) = [] ->
  isPrimitiveType name = false -> get_hash (structs p) name = Some h -> typed (structs p) (cpp_little_endian o) sizeof fuel name v ->
  products_ok (structs p) fuel name v -> object_full (structs p) fuel name v -> others_differ (structs p) name h (heap z) ->
  (forall n, 0 <= n -> blen (fresh n) = n /\ bytes_ok (fresh n)) -> (length ch <= ZCM_CHANNEL_MAXLEN)%nat ->
  blen (message_bits (structs p) (cpp_little_endian o) fuel name h v) <= 8 * get_mtu (zt core) ->
  blen (message_bits (structs p) (cpp_little_endian o) fuel name h v) < 2 ^ 31 - 8 ->
  exists data z1 z2, publish_msg (structs p) o fuel fresh z ch name v = Some (z1, ZCM_EOK) /\
    flush (structs p) o fuel 2 z1 = Some (z2, concat (calls_of (heap z) name v <$> expected core (ch, data))) /\
    blen (message_bits (structs p) (cpp_little_endian o) fuel name h v) = 8 * blen data.
Proof.
  intros HS Ec R Ez Fok Qe Hn Hh Hv Hp Hf Ho Hfr Hch Hmtu Hm. pose proof (parsed_env_ok _ _ _ _ _ _ HS) as HE.
  pose proof (parsed_names _ _ _ _ _ _ HS) as HN. set (le := cpp_little_endian o) in *.
  destruct (api_reachable _ o fuel HN _ z core0 (api_inv_create _ o fuel t core0 Ec) R) as [core1 A].
  pose proof (ai_core _ _ _ _ _ A) as Ez'. rewrite Ez in Ez'. injection Ez' as <-.
  destruct (getEncodedSize_ok (structs p) o sizeof HE fuel name h v Hn Hv Hp) as (n&Es&En); [fold le; lia|]. fold le in En.
  destruct (Hfr n ltac:(lia)) as [Lf Bf].
  destruct (cpp_encode_ok (structs p) o sizeof HE fuel name h v Hn Hh Hv (fresh n) 0 n Bf ltac:(lia) ltac:(lia) ltac:(lia) ltac:(fold le; lia)) as (data&n'&Ee&En'&W).
  fold le in En', W. assert (n' = n) as -> by lia. pose proof W as (Bd&Ld&_&Hd). exists data.
  set (m := mkMsg 0 ch n data). assert (sendable (get_mtu (zt core)) m) as Sm by (split; [done|]; cbn [len buf m]; lia).
  destruct (publish_flush_fifo core [m] (ai_nb _ _ _ _ _ A) Fok Qe ltac:(by constructor)) as (t1&t2&ds&Ep&Ef&_&Ev&Sz).
  assert (payload m = (ch, data)) as Epl by (unfold payload; cbn [channel len buf m]; by rewrite take_ge by lia).
  cbn [fmap list_fmap concat] in Ev. rewrite Epl, app_nil_r in Ev. change (S (length [m])) with 2%nat in Ef. cbn [publish_all] in Ep. cbn [channel buf len m] in Ep.
  exists (mkZCM T (Some (with_zt core t1)) (subscriptions z) (heap z) (next_object z)).
  assert (Forall (fun d => rdata (drbuf d) = data /\ sized d) ds /\ Forall (from_slot core) ds) as [Hrd Hsl].
  { split; [|exact (proj2 (flush_slots 2 (with_zt core t1) _ ds (nb_inv_with_zt core t1 (ai_nb _ _ _ _ _ A)) Ef))]. apply Forall_and. split; [|done]. apply Forall_forall. intros d Hd'.
    assert (view d ∈ expected core (ch, data)) as Hin by (rewrite <- Ev; by apply list_elem_of_fmap_2).
    unfold expected in Hin. apply list_elem_of_fmap in Hin as (s&Hs&_). unfold view in Hs. by injection Hs. }
  destruct (dispatch_every (structs p) o fuel HN sizeof name h v data HE Hn Hh Hv Hf Bd ltac:(lia) ltac:(fold le; lia) Hd ds (heap z)
    (ai_shape _ _ _ _ _ A) Ho Hrd) as (hp'&Eda&_&_).
  { eapply Forall_impl; [exact Hsl|]. intros d Hd'. by eapply deliveries_live. }
  eexists. split; [|split].
  - unfold publish_msg. rewrite Es, Ee, (proj2 (Z.ltb_ge n 0)), u32_id, Z.eqb_refl by lia. cbn [orb negb]. rewrite Ez.
    unfold zcm_nonblocking_publish, zcm_trans_sendmsg in *. destruct (fifo_send (zt core) m Fok Sm) as (t3&E3&_). fold m in Ep |- *. rewrite E3 in Ep |- *. by injection Ep as <-.
  - unfold flush. cbn [zcm heap subscriptions next_object]. rewrite Ef, Eda, Ev. done.
  - lia.
Qed.

(** ** Examples *)

Module ApiDemo.
(** A subscription with a type and one without, whose pattern has the same channel. *)
Definition z1 : ZCM inproc := (subscribe (structs Demo.parsed) (cpp_create sample_nb) (str "PATH") (TypedSubscription Demo.path 1 10)).1.
Definition z2 : ZCM inproc := (subscribe (structs Demo.parsed) z1 (str "PA.*") (Subscription 2 20)).1.
Definition core : zcm_nonblocking inproc := default sample_nb (zcm z2).
Definition fresh (n : Z) : list byte := replicate (Z.to_nat n) 205.

Lemma z2_reachable : rtc (api_step (structs Demo.parsed) CppDemo.o 2) (cpp_create sample_nb) z2.
Proof. eapply rtc_l; [apply step_subscribe|]. eapply rtc_l; [apply step_subscribe|]. apply rtc_refl. Qed.

Lemma v_full : object_full (structs Demo.parsed) 2 Demo.path Demo.v.
Proof.
  eexists. split; [reflexivity|]. do 3 (apply Forall2_cons; split; [by left|]). apply Forall2_cons. split; [|by apply Forall2_nil].
  eexists. split; [reflexivity|]. split; [done|]. apply Forall_cons. split; [|by apply Forall_nil].
  eexists. split; [reflexivity|]. split; [done|].
  do 2 (apply Forall_cons; split; [right; eexists; split; [reflexivity|]; do 2 (apply Forall2_cons; split; [by left|]); by apply Forall2_nil|]).
  by apply Forall_nil.
Qed.

Lemma z2_calls data : concat (calls_of (heap z2) Demo.path Demo.v <$> expected core (str "PATH", data)) =
  [mkCall (TypedSubscription Demo.path 1 10) (str "PATH") data (Some Demo.v); mkCall (Subscription 2 20) (str "PATH") data None].
Proof. vm_compute. reflexivity. Qed.

Lemma z2_heap n x ty : heap z2 !! n = Some x -> typed_of (kind x) = Some ty -> ty = Demo.path.
Proof.
  assert (heap z2 = <[1%nat := mkSubObject (Some 1%nat) (Subscription 2 20) VUndef]>
    (<[0%nat := mkSubObject (Some 0%nat) (TypedSubscription Demo.path 1 10) VUndef]> ∅)) as -> by (vm_compute; reflexivity).
  intros [[_ <-]|[_ [[_ <-]|[_ Hx]]%lookup_insert_Some]]%lookup_insert_Some; cbn; [done|congruence|by rewrite lookup_empty in Hx].
Qed.
End ApiDemo.

Lemma cpp_subscriptions_live_witness : exists core, zcm ApiDemo.z2 = Some core /\
  forall n core' ds d, zcm_nonblocking_flush n core = Some (core', ds) -> d ∈ ds ->
    dusr d ∈ subscriptions ApiDemo.z2 /\ exists x, heap ApiDemo.z2 !! dusr d = Some x /\ dcallback d = dispatch_fn (structs Demo.parsed) (kind x).
Proof.
  exact (cpp_subscriptions_live [] false true Demo.files 0 Demo.parsed CppDemo.o 2 (inproc_create false [5; 6; 7]) sample_nb ApiDemo.z2
    Demo.files_parsed eq_refl ApiDemo.z2_reachable).
Defined.

Lemma cpp_publish_delivers_witness : exists data z1 z2,
  publish_msg (structs Demo.parsed) CppDemo.o 2 ApiDemo.fresh ApiDemo.z2 (str "PATH") Demo.path Demo.v = Some (z1, ZCM_EOK) /\
  flush (structs Demo.parsed) CppDemo.o 2 2 z1 = Some (z2,
    [mkCall (TypedSubscription Demo.path 1 10) (str "PATH") data (Some Demo.v); mkCall (Subscription 2 20) (str "PATH") data None]) /\
  blen (message_bits (structs Demo.parsed) false 2 Demo.path Demo.hash Demo.v) = 8 * blen data.
Proof.
  destruct (cpp_publish_delivers [] false true Demo.files 0 Demo.parsed CppDemo.o Demo.sizeof 2 Demo.path Demo.hash Demo.v ApiDemo.fresh
    (inproc_create false [5; 6; 7]) sample_nb ApiDemo.core ApiDemo.z2 (str "PATH") Demo.files_parsed eq_refl ApiDemo.z2_reachable eq_refl)
    as (data & z1 & z2 & Hp & Hf & Hb).
  - constructor.
  - vm_compute. reflexivity.
  - reflexivity.
  - exact Demo.path_hash.
  - exact Demo.v_typed.
  - exact CppDemo.v_products.
  - exact ApiDemo.v_full.
  - intros n x ty Hx Hk Hne. destruct Hne. by eapply ApiDemo.z2_heap.
  - intros n Hn. unfold ApiDemo.fresh. rewrite length_replicate. split; [lia|]. apply Forall_replicate. unfold in_u. lia.
  - cbn. unfold ZCM_CHANNEL_MAXLEN. lia.
  - vm_compute. congruence.
  - vm_compute. reflexivity.
  - rewrite ApiDemo.z2_calls in Hf. exists data, z1, z2. exact (conj Hp (conj Hf Hb)).
Defined.

(** ** What is left of older messages *)

(** A vector of numbers behind its size, and an array of strings. *)
Module Stale.
Definition files : list (cstr * list token) :=
  [(str "nums.zcm", Demo.toks ["struct"; "nums"; "{"; "int32_t"; "n"; ";"; "int16_t"; "x"; "["; "n"; "]"; ";"; "}"]%string);
   (str "names.zcm", Demo.toks ["struct"; "names"; "{"; "int32_t"; "n"; ";"; "string"; "s"; "["; "n"; "]"; ";"; "}"]%string)].
Definition parsed : parser := Eval vm_compute in match handleFiles [] false true files gen_create with Ok _ p => p | _ => gen_create end.
Definition env : list ZCMStruct := structs parsed.
Definition o : cppopts := CppDemo.o.
Definition nums : cstr := str "nums".
Definition names : cstr := str "names".
Definition two : val := VStruct [VNum 2; VArr [VNum 5; VNum 6]].
Definition none : val := VStruct [VNum 0; VArr []].

(** A program subscribes, publishes both messages and receives them. *)
Definition run : option (list call) :=
  let z := (subscribe env (cpp_create sample_nb) (str "NUMS") (TypedSubscription nums 1 10)).1 in
  '(z, _) <- publish_msg env o 1 ApiDemo.fresh z (str "NUMS") nums two ;;
  '(z, _) <- publish_msg env o 1 ApiDemo.fresh z (str "NUMS") nums none ;;
  '(_, cs) <- flush env o 1 3 z ;;
  Some cs.

Definition hash_of (name : cstr) : list byte := int64_enc (default 0 (getHash env name)).
End Stale.

(** A typed subscription decodes into one object for all its messages, and an
    empty vector of numbers is not resized: when a message with the numbers 5 and 6 is
    followed by one without any, the callback gets, the second time, the size 0 and a
    vector that still holds the numbers 5 and 6.  A new object would be right. *)
Theorem cpp_stale_elements :
  (option_map (map with_msg) Stale.run) = Some [Some Stale.two; Some (VStruct [VNum 0; VArr [VNum 5; VNum 6]])] /\
  cpp_decode Stale.env Stale.o 1 Stale.nums VUndef (Stale.hash_of Stale.nums ++ int32_enc 0) 0 12 = Some (Stale.none, 12).
Proof. split; vm_compute; reflexivity. Qed.

(** Bytes from the network can make [decode] throw: a negative size of an array of
    strings reaches [resize], and a string of length zero, which has not even its
    terminator, reaches [assign] with a length of minus one.  With a size of one and
    a string of length one the message is decoded. *)
Theorem cpp_decode_throws :
  cpp_decode Stale.env Stale.o 1 Stale.names VUndef (Stale.hash_of Stale.names ++ int32_enc (-1)) 0 12 = None /\
  cpp_decode Stale.env Stale.o 1 Stale.names VUndef (Stale.hash_of Stale.names ++ int32_enc 1 ++ int32_enc 0) 0 16 = None /\
  cpp_decode Stale.env Stale.o 1 Stale.names VUndef (Stale.hash_of Stale.names ++ int32_enc 1 ++ int32_enc 1 ++ [0]) 0 17 =
    Some (VStruct [VNum 1; VArr [VStr []]], 17).
Proof. repeat split; vm_compute; reflexivity. Qed.
