(* ===== verification/GetOpt.v ===== *)
(** * The command line of the type generator (gen/GetOpt.cpp)

    Options are registered with a long name and perhaps a letter; [parse] chops the
    arguments into tokens and evaluates them.  What is printed on errors is left
    out. *)
From S2P Require Import Prelude Bytes Transport Tokenize CNum.
Local Open Scope Z_scope.

(** ** Data *)

(** Spacers keep the type 0 of the declaration. *)
Inductive OptType := OPT_NO_TYPE | OPT_BOOL_TYPE | OPT_STRING_TYPE.

Record Opt := mkOpt {
  sname : cstr;
  lname : cstr;
  svalue : cstr;
  help : cstr;
  type : OptType;
  spacer : bool;
  wasSpecified : bool
}.

Record GetOpt := mkGetOpt {
  opts : list Opt;
  lopts : gmap cstr nat;
  sopts : gmap cstr nat;
  extraargs : list cstr
}.

Definition getopt_create : GetOpt := mkGetOpt [] ∅ ∅ [].

Definition with_opts (g : GetOpt) (os : list Opt) : GetOpt := mkGetOpt os (lopts g) (sopts g) (extraargs g).

(** ** Registering *)

Definition addSpacer (g : GetOpt) (s : cstr) : GetOpt :=
  with_opts g (opts g ++ [mkOpt [] [] [] s OPT_NO_TYPE true false]).

(** The end of [addBool] and of [addString]. *)
Definition register (g : GetOpt) (o : Opt) : GetOpt :=
  let idx := length (opts g) in
  mkGetOpt (opts g ++ [o]) (<[lname o := idx]> (lopts g)) (<[sname o := idx]> (sopts g)) (extraargs g).

(** The letter 0 stands for none. *)
Definition letter (sopt : Z) : cstr := if sopt =? 0 then [] else [sopt].

Definition addBool (g : GetOpt) (sopt : Z) (name : cstr) (def : bool) (h : cstr) : GetOpt :=
  register g (mkOpt (letter sopt) name (if def then str "true" else str "false") h OPT_BOOL_TYPE false false).

Definition addString (g : GetOpt) (sopt : Z) (name def h : cstr) : GetOpt :=
  register g (mkOpt (letter sopt) name def h OPT_STRING_TYPE false false).

Definition addInt (g : GetOpt) (sopt : Z) (name def h : cstr) : GetOpt := addString g sopt name def h.

(** ** Looking up *)

(** The index in place of the pointer. *)
Definition findWithLOpt (g : GetOpt) (name : cstr) : option nat := lopts g !! name.
Definition findWithSOpt (g : GetOpt) (name : cstr) : option nat := sopts g !! name.

Definition getString (g : GetOpt) (name : cstr) : cstr :=
  match findWithLOpt g name ≫= (opts g !!.) with
  | Some o => svalue o
  | None => []
  end.

(** The assertion. *)
Definition getBool (g : GetOpt) (name : cstr) : option bool :=
  let v := getString g name in
  check (negb (bool_decide (v = []))) ;;
  Some (bool_decide (v = str "true")).

Definition getInt (g : GetOpt) (name : cstr) : option Z :=
  let v := getString g name in
  check (negb (bool_decide (v = []))) ;;
  Some (atoi v).

Definition was_specified (g : GetOpt) (name : cstr) : bool :=
  match findWithLOpt g name ≫= (opts g !!.) with
  | Some o => wasSpecified o
  | None => false
  end.

(** ** Tokens *)

Definition EQUALS : Z := 61.
Definition QUOTE : Z := 34.
Definition DASH : Z := 45.

(** What is before and behind the first equal sign. *)
Fixpoint split_equals (arg : cstr) : option (cstr * cstr) :=
  match arg with
  | [] => None
  | c :: arg =>
      if c =? EQUALS then Some ([], arg)
      else match split_equals arg with Some (a, b) => Some (c :: a, b) | None => None end
  end.

(** The value without quotation marks; of a single mark nothing is left. *)
Definition strip_quotes (val : cstr) : cstr :=
  match val with
  | c :: rest => if c =? QUOTE then (if bool_decide (last val = Some QUOTE) then removelast rest else rest) else val
  | [] => []
  end.

Definition chop (arg : cstr) : list cstr :=
  match split_equals arg with
  | None => [arg]
  | Some (before, val) => [before; strip_quotes val]
  end.

(** ** Evaluation *)

Definition alter_opt (f : Opt -> Opt) (g : GetOpt) (idx : nat) : GetOpt := with_opts g (alter f idx (opts g)).
Definition mark (g : GetOpt) (idx : nat) : GetOpt :=
  alter_opt (fun o => mkOpt (sname o) (lname o) (svalue o) (help o) (type o) (spacer o) true) g idx.
Definition set_svalue (g : GetOpt) (idx : nat) (v : cstr) : GetOpt :=
  alter_opt (fun o => mkOpt (sname o) (lname o) v (help o) (type o) (spacer o) (wasSpecified o)) g idx.
Definition opt_type (g : GetOpt) (idx : nat) : OptType :=
  match opts g !! idx with Some o => type o | None => OPT_NO_TYPE end.
Definition push_arg (g : GetOpt) (tok : cstr) : GetOpt := mkGetOpt (opts g) (lopts g) (sopts g) (extraargs g ++ [tok]).

(** [strncmp(tok, prefix, n) == 0] *)
Definition starts_with (prefix tok : cstr) : bool := bool_decide (take (length prefix) tok = prefix).

Section parse.
Variable toks : list cstr.

(** The letters of a block: the state, the index and the verdict behind it.
    [isdigit] is that of the C locale. *)
Fixpoint short_block (tok : cstr) (first : bool) (cs : cstr) (g : GetOpt) (i : nat) (okay : bool) : GetOpt * nat * bool :=
  match cs with
  | [] => (g, i, okay)
  | c :: cs =>
      match findWithSOpt g [c] with
      | None =>
          if first && isdigit c then (push_arg g tok, i, okay)
          else short_block tok false cs g (S i) false
      | Some idx =>
          let g := mark g idx in
          match opt_type g idx with
          | OPT_BOOL_TYPE => short_block tok false cs (set_svalue g idx (str "true")) i okay
          | OPT_STRING_TYPE =>
              match toks !! S i with
              | Some val =>
                  let okay := if bool_decide (head val = Some DASH) then false else okay in
                  short_block tok false cs (set_svalue g idx val) (S i) okay
              | None => short_block tok false cs g i false
              end
          | OPT_NO_TYPE => short_block tok false cs g i okay
          end
      end
  end.

Fixpoint parse_loop (fuel : nat) (g : GetOpt) (i : nat) (okay : bool) : option (GetOpt * bool) :=
  match fuel with
  | O => None
  | S fuel =>
      match toks !! i with
      | None => Some (g, okay)
      | Some tok =>
          if starts_with (str "--") tok then
            match findWithLOpt g (drop 2 tok) with
            | None => parse_loop fuel g (S i) false
            | Some idx =>
                let g := mark g idx in
                match opt_type g idx with
                | OPT_BOOL_TYPE =>
                    match toks !! S i with
                    | Some val =>
                        if bool_decide (val = str "true") then parse_loop fuel (set_svalue g idx (str "true")) (S (S i)) okay
                        else if bool_decide (val = str "false") then parse_loop fuel (set_svalue g idx (str "false")) (S (S i)) okay
                        else parse_loop fuel (set_svalue g idx (str "true")) (S i) okay
                    | None => parse_loop fuel (set_svalue g idx (str "true")) (S i) okay
                    end
                | OPT_STRING_TYPE =>
                    match toks !! S i with
                    | Some val => parse_loop fuel (set_svalue g idx val) (S (S i)) okay
                    | None => parse_loop fuel (push_arg g tok) (S i) false
                    end
                | OPT_NO_TYPE => parse_loop fuel (push_arg g tok) (S i) okay
                end
            end
          else if starts_with (str "-") tok then
            let '(g, i, okay) := short_block tok true (drop 1 tok) g i okay in
            parse_loop fuel g (S i) okay
          else parse_loop fuel (push_arg g tok) (S i) okay
      end
  end.
End parse.

(** Every turn goes on by a token at least, so that their number is enough fuel. *)
Definition parse (g : GetOpt) (argv : list cstr) : option (GetOpt * bool) :=
  let toks := concat (chop <$> argv) in
  parse_loop toks (S (length toks)) g 0 true.

(** ** The reference *)

(** What a user can mean. *)
Inductive item :=
  | Long (name v : cstr)
  | Flag (name : cstr)
  | Letter (c : Z)
  | LetterValue (c : Z) (v : cstr)
  | Input (file : cstr).

(** How it is written. *)
Definition written (it : item) : list cstr :=
  match it with
  | Long name v => [str "--" ++ name ++ [EQUALS] ++ v]
  | Flag name => [str "--" ++ name]
  | Letter c => [[DASH; c]]
  | LetterValue c v => [[DASH; c]; v]
  | Input file => [file]
  end.

(** The option it sets, and the value. *)
Definition target (g : GetOpt) (it : item) : option (nat * cstr) :=
  match it with
  | Long name v => idx <- lopts g !! name ;; Some (idx, v)
  | Flag name => idx <- lopts g !! name ;; Some (idx, str "true")
  | Letter c => idx <- sopts g !! [c] ;; Some (idx, str "true")
  | LetterValue c v => idx <- sopts g !! [c] ;; Some (idx, v)
  | Input _ => None
  end.

(** The values that are given to an option, in order, and the input files. *)
Definition given (g : GetOpt) (idx : nat) (its : list item) : list cstr :=
  omap (fun it => '(i, v) <- target g it ;; if bool_decide (i = idx) then Some v else None) its.
Definition inputs (its : list item) : list cstr := omap (fun it => match it with Input f => Some f | _ => None end) its.

(** A word that is not taken apart, nor for an option, nor for the value of a flag. *)
Definition plain_word (w : cstr) : Prop :=
  EQUALS ∉ w /\ head w <> Some DASH /\ w <> str "true" /\ w <> str "false".

Definition item_ok (g : GetOpt) (it : item) : Prop :=
  match it with
  | Long name v => EQUALS ∉ name /\ head v <> Some QUOTE /\ exists idx, lopts g !! name = Some idx /\
      (opt_type g idx = OPT_STRING_TYPE \/ opt_type g idx = OPT_BOOL_TYPE /\ (v = str "true" \/ v = str "false"))
  | Flag name => EQUALS ∉ name /\ exists idx, lopts g !! name = Some idx /\ opt_type g idx = OPT_BOOL_TYPE
  | Letter c => c <> EQUALS /\ c <> DASH /\ exists idx, sopts g !! [c] = Some idx /\ opt_type g idx = OPT_BOOL_TYPE
  | LetterValue c v => c <> EQUALS /\ c <> DASH /\ EQUALS ∉ v /\ head v <> Some DASH /\
      exists idx, sopts g !! [c] = Some idx /\ opt_type g idx = OPT_STRING_TYPE
  | Input f => plain_word f
  end.

(** Setting an option. *)
Definition specify (g : GetOpt) (idx : nat) (v : cstr) : GetOpt := set_svalue (mark g idx) idx v.

Definition apply_item (g : GetOpt) (it : item) : GetOpt :=
  match it with
  | Input f => push_arg g f
  | _ => match target g it with Some (idx, v) => specify g idx v | None => g end
  end.

(** The tables name options. *)
Definition tables_ok (g : GetOpt) : Prop :=
  (forall name idx, lopts g !! name = Some idx -> is_Some (opts g !! idx)) /\
  (forall name idx, sopts g !! name = Some idx -> is_Some (opts g !! idx)).

(** ** Registering keeps the tables *)

Lemma register_tables g o : tables_ok g -> tables_ok (register g o).
Proof.
  intros [L S]. assert (is_Some ((opts g ++ [o]) !! length (opts g))) as New by (rewrite list_lookup_middle by done; eauto).
  split; intros name idx; cbn [register lopts sopts opts]; intros [[_ <-]|[_ H]]%lookup_insert_Some; try done;
    [apply L in H as [x Hx]|apply S in H as [x Hx]]; exists x; by apply lookup_app_l_Some.
Qed.

Lemma addSpacer_tables g s : tables_ok g -> tables_ok (addSpacer g s).
Proof.
  intros [L S]. split; intros name idx H; cbn in *; [apply L in H as [x Hx]|apply S in H as [x Hx]]; exists x; by apply lookup_app_l_Some.
Qed.

Lemma addBool_tables g sopt name def h : tables_ok g -> tables_ok (addBool g sopt name def h).
Proof. apply register_tables. Qed.
Lemma addString_tables g sopt name def h : tables_ok g -> tables_ok (addString g sopt name def h).
Proof. apply register_tables. Qed.

Lemma create_tables : tables_ok getopt_create.
Proof. split; intros name idx H; cbn in H; by rewrite lookup_empty in H. Qed.

(** ** What setting an option changes *)

Record same_shape (g g' : GetOpt) : Prop := {
  ss_lopts : lopts g' = lopts g;
  ss_sopts : sopts g' = sopts g;
  ss_type : forall idx, opt_type g' idx = opt_type g idx
}.

Lemma same_shape_refl g : same_shape g g.
Proof. by split. Qed.
Lemma same_shape_trans g1 g2 g3 : same_shape g1 g2 -> same_shape g2 g3 -> same_shape g1 g3.
Proof. intros [] []. split; congruence. Qed.

Lemma alter_opt_shape f g idx : (forall o, type (f o) = type o) -> same_shape g (alter_opt f g idx).
Proof.
  intros T. split; [done..|]. intros j. unfold opt_type. cbn [alter_opt with_opts opts].
  destruct (decide (j = idx)) as [->|]; [rewrite list_lookup_alter_eq|by rewrite list_lookup_alter_ne].
  destruct (opts g !! idx) as [o|]; cbn; [apply T|done].
Qed.

Lemma mark_type g idx j : opt_type (mark g idx) j = opt_type g j.
Proof. by apply alter_opt_shape. Qed.

Lemma specify_shape g idx v : same_shape g (specify g idx v).
Proof. eapply same_shape_trans; by apply alter_opt_shape. Qed.

Lemma specify_lookup g idx v j : opts (specify g idx v) !! j =
  (fun o => if bool_decide (j = idx) then mkOpt (sname o) (lname o) v (help o) (type o) (spacer o) true else o) <$> opts g !! j.
Proof.
  cbn [specify set_svalue mark alter_opt with_opts opts]. case_bool_decide as E.
  - subst. rewrite !list_lookup_alter_eq. by destruct (opts g !! idx).
  - rewrite !list_lookup_alter_ne by done. by destruct (opts g !! j).
Qed.

Lemma apply_item_shape g it : same_shape g (apply_item g it).
Proof.
  destruct it; cbn [apply_item]; try (destruct (target g _) as [[]|]; [apply specify_shape|apply same_shape_refl]). by split.
Qed.

Lemma same_shape_target g g' it : same_shape g g' -> target g' it = target g it.
Proof. intros [L S _]. destruct it; cbn [target]; by rewrite ?L, ?S. Qed.

Lemma same_shape_ok g g' it : same_shape g g' -> item_ok g it -> item_ok g' it.
Proof. intros [L S T]. destruct it; cbn [item_ok]; rewrite ?L, ?S; [setoid_rewrite T; done..|done]. Qed.

(** ** The tokens of an item *)

Definition item_toks (it : item) : list cstr :=
  match it with
  | Long name v => [str "--" ++ name; v]
  | Flag name => [str "--" ++ name]
  | Letter c => [[DASH; c]]
  | LetterValue c v => [[DASH; c]; v]
  | Input file => [file]
  end.

Lemma split_equals_none w : EQUALS ∉ w -> split_equals w = None.
Proof.
  induction w as [|c w IH]; intros N; [done|]. apply not_elem_of_cons in N as [Nc N]. cbn [split_equals].
  destruct (Z.eqb_spec c EQUALS); [congruence|]. by rewrite IH.
Qed.

Lemma split_equals_some w v : EQUALS ∉ w -> split_equals (w ++ EQUALS :: v) = Some (w, v).
Proof.
  induction w as [|c w IH]; intros N; [done|]. apply not_elem_of_cons in N as [Nc N]. cbn [split_equals app].
  destruct (Z.eqb_spec c EQUALS); [congruence|]. by rewrite IH.
Qed.

Lemma strip_quotes_id v : head v <> Some QUOTE -> strip_quotes v = v.
Proof. destruct v as [|c v]; [done|]. cbn. intros H. destruct (Z.eqb_spec c QUOTE); congruence. Qed.

Lemma dashes_plain name : EQUALS ∉ name -> EQUALS ∉ str "--" ++ name.
Proof. intros N. rewrite elem_of_app. intros [H|]; [|done]. revert H. apply (bool_decide_unpack _). vm_compute. exact I. Qed.

Lemma chop_word w : EQUALS ∉ w -> chop w = [w].
Proof. intros N. unfold chop. by rewrite split_equals_none. Qed.

Lemma chop_written g it : item_ok g it -> concat (chop <$> written it) = item_toks it.
Proof.
  destruct it as [name v|name|c|c v|f]; cbn [item_ok written item_toks fmap list_fmap concat].
  - intros (N&Q&_). unfold chop. rewrite app_assoc. cbn [app]. rewrite split_equals_some by by apply dashes_plain.
    by rewrite strip_quotes_id, app_nil_r.
  - intros (N&_). by rewrite chop_word, app_nil_r by by apply dashes_plain.
  - intros (N&_). rewrite chop_word; [done|]. rewrite !not_elem_of_cons. repeat split; [done|congruence|set_solver].
  - intros (N&_&Nv&_). rewrite !chop_word; [done|done|]. rewrite !not_elem_of_cons. repeat split; [done|congruence|set_solver].
  - intros (N&_). by rewrite chop_word, app_nil_r.
Qed.

(** The next token is not taken for the value of a flag. *)
Definition not_value (toks : list cstr) : Prop := forall t, head toks = Some t -> t <> str "true" /\ t <> str "false".

Lemma items_not_value g its : Forall (item_ok g) its -> not_value (concat (item_toks <$> its)).
Proof.
  intros F t. destruct F as [|it its H _]; [done|]. destruct it as [name v|name|c|c v|f]; cbn; intros [= <-]; try (split; intros [=]; done).
  by destruct H as (_&_&?&?).
Qed.

Lemma starts_with_dashes name : starts_with (str "--") (str "--" ++ name) = true.
Proof. unfold starts_with. rewrite take_app_length. by apply bool_decide_eq_true_2. Qed.

Lemma starts_with_no_dash p w : head w <> Some DASH -> head p = Some DASH -> starts_with p w = false.
Proof.
  intros Hw Hp. apply bool_decide_eq_false_2. intros E. destruct p as [|x p]; [done|]. destruct w as [|c w]; [done|].
  cbn in *. congruence.
Qed.

(** ** One item *)

Section item.
Context (toks : list cstr) (fuel : nat) (g : GetOpt) (i : nat).

Lemma parse_long name v : toks !! i = Some (str "--" ++ name) -> toks !! S i = Some v -> item_ok g (Long name v) ->
  parse_loop toks (S fuel) g i true = parse_loop toks fuel (apply_item g (Long name v)) (S (S i)) true.
Proof.
  intros L0 L1 (_&_&idx&El&T). cbn [parse_loop apply_item target]. rewrite L0, starts_with_dashes, L1.
  change (drop 2 (str "--" ++ name)) with name. unfold findWithLOpt. rewrite El, mark_type.
  destruct T as [->|[-> [->| ->]]]; [done|..]; by rewrite ?bool_decide_eq_true_2, ?bool_decide_eq_false_2 by done.
Qed.

Lemma parse_flag name : toks !! i = Some (str "--" ++ name) ->
  (forall v, toks !! S i = Some v -> v <> str "true" /\ v <> str "false") -> item_ok g (Flag name) ->
  parse_loop toks (S fuel) g i true = parse_loop toks fuel (apply_item g (Flag name)) (S i) true.
Proof.
  intros L0 L1 (_&idx&El&T). cbn [parse_loop apply_item target]. rewrite L0, starts_with_dashes.
  change (drop 2 (str "--" ++ name)) with name. unfold findWithLOpt. rewrite El, mark_type, T.
  destruct (toks !! S i) as [v|]; [|done]. destruct (L1 v eq_refl) as [Nt Nf]. by rewrite !bool_decide_eq_false_2.
Qed.

Lemma starts_with_letter c : c <> DASH -> starts_with (str "--") [DASH; c] = false /\ starts_with (str "-") [DASH; c] = true.
Proof. intros N. split; [apply bool_decide_eq_false_2|by apply bool_decide_eq_true_2]. cbn. by intros [= ->]. Qed.

Lemma parse_letter c : toks !! i = Some [DASH; c] -> item_ok g (Letter c) ->
  parse_loop toks (S fuel) g i true = parse_loop toks fuel (apply_item g (Letter c)) (S i) true.
Proof.
  intros L0 (_&Nd&idx&Es&T). cbn [parse_loop apply_item target]. destruct (starts_with_letter c Nd) as [E1 E2].
  rewrite L0, E1, E2. cbn [drop short_block]. unfold findWithSOpt. by rewrite Es, mark_type, T.
Qed.

Lemma parse_letter_value c v : toks !! i = Some [DASH; c] -> toks !! S i = Some v -> item_ok g (LetterValue c v) ->
  parse_loop toks (S fuel) g i true = parse_loop toks fuel (apply_item g (LetterValue c v)) (S (S i)) true.
Proof.
  intros L0 L1 (_&Nd&_&Nv&idx&Es&T). cbn [parse_loop apply_item target]. destruct (starts_with_letter c Nd) as [E1 E2].
  rewrite L0, E1, E2. cbn [drop short_block]. unfold findWithSOpt. rewrite Es, mark_type, T, L1. by rewrite bool_decide_eq_false_2.
Qed.

Lemma parse_input f : toks !! i = Some f -> item_ok g (Input f) ->
  parse_loop toks (S fuel) g i true = parse_loop toks fuel (apply_item g (Input f)) (S i) true.
Proof. intros L0 (_&Nd&_). cbn [parse_loop apply_item]. by rewrite L0, !starts_with_no_dash. Qed.
End item.

Lemma parse_item toks fuel g it pre rest : toks = pre ++ item_toks it ++ rest -> item_ok g it -> not_value rest ->
  parse_loop toks (S fuel) g (length pre) true = parse_loop toks fuel (apply_item g it) (length pre + length (item_toks it)) true.
Proof.
  intros -> H Nr. assert (forall k, (pre ++ item_toks it ++ rest) !! (k + length pre)%nat = (item_toks it ++ rest) !! k) as Lk
    by (intros k; by rewrite lookup_app_r, Nat.add_sub by lia).
  pose proof (Lk 0%nat) as L0. pose proof (Lk 1%nat) as L1. rewrite Nat.add_comm.
  destruct it; cbn [item_toks length Nat.add] in *.
  - by apply parse_long.
  - apply parse_flag; [done| |done]. intros v E. rewrite L1 in E. apply Nr. by destruct rest.
  - by apply parse_letter.
  - by apply parse_letter_value.
  - by apply parse_input.
Qed.

(** ** A command line *)

Lemma item_toks_pos it : (0 < length (item_toks it))%nat.
Proof. destruct it; cbn; lia. Qed.

Lemma length_item_toks its : (length its <= length (concat (item_toks <$> its)))%nat.
Proof.
  induction its as [|it its IH]; [done|]. rewrite fmap_cons. cbn [concat length]. rewrite length_app.
  pose proof (item_toks_pos it). lia.
Qed.

Lemma parse_items its : forall toks fuel g pre, toks = pre ++ concat (item_toks <$> its) -> Forall (item_ok g) its ->
  (length its < fuel)%nat -> parse_loop toks fuel g (length pre) true = Some (fold_left apply_item its g, true).
Proof.
  induction its as [|it its IH]; intros toks fuel g pre E F Hf; (destruct fuel as [|fuel]; [cbn in Hf; lia|]).
  - rewrite E. cbn. by rewrite app_nil_r, lookup_ge_None_2 by done.
  - apply Forall_cons in F as [H F]. cbn [fmap list_fmap concat] in E.
    rewrite (parse_item _ _ _ it pre (concat (item_toks <$> its))) by eauto using items_not_value.
    rewrite <- length_app. cbn [fold_left]. apply IH; [by rewrite <- app_assoc| |cbn in Hf; lia].
    eapply Forall_impl; [exact F|]. intros it'. apply same_shape_ok, apply_item_shape.
Qed.

Lemma concat_chop_written g its : Forall (item_ok g) its -> concat (chop <$> concat (written <$> its)) = concat (item_toks <$> its).
Proof.
  induction 1 as [|it its H _ IH]; [done|]. cbn [fmap list_fmap concat].
  change (list_fmap _ _ chop ?x) with (chop <$> x). rewrite fmap_app, concat_app. by rewrite (chop_written g), IH.
Qed.

(** What the items leave behind. *)
Lemma apply_items_shape its : forall g, same_shape g (fold_left apply_item its g).
Proof.
  induction its as [|it its IH]; intros g; [apply same_shape_refl|]. eapply same_shape_trans; [apply apply_item_shape|apply IH].
Qed.

Lemma apply_items_args its : forall g, extraargs (fold_left apply_item its g) = extraargs g ++ inputs its.
Proof.
  induction its as [|it its IH]; intros g; cbn [fold_left]; [by rewrite app_nil_r|]. rewrite IH.
  destruct it; cbn [apply_item]; try (destruct (target g _) as [[]|]; done). cbn [push_arg extraargs]. by rewrite <- app_assoc.
Qed.

Lemma apply_item_opt g it idx o : opts g !! idx = Some o -> exists o', opts (apply_item g it) !! idx = Some o' /\
  svalue o' = default (svalue o) (last (given g idx [it])) /\
  wasSpecified o' = wasSpecified o || negb (bool_decide (given g idx [it] = [])).
Proof.
  intros E. assert (forall t, target g it = t -> match t with
    | Some (j, v) => apply_item g it = specify g j v
    | None => opts (apply_item g it) = opts g
    end) as A by (intros t Et; destruct it; cbn [apply_item]; rewrite ?Et; destruct t as [[]|]; done).
  specialize (A _ eq_refl). unfold given. cbn [omap list_omap]. destruct (target g it) as [[j v]|].
  - rewrite A, specify_lookup, E. cbn [fmap option_fmap option_map]. eexists. split; [done|].
    destruct (decide (idx = j)) as [->|N]; [rewrite !bool_decide_eq_true_2 by done|rewrite !bool_decide_eq_false_2 by done];
      cbn; by rewrite ?orb_true_r, ?orb_false_r.
  - rewrite A. exists o. by rewrite orb_false_r.
Qed.

Lemma given_cons g idx it its : given g idx (it :: its) = given g idx [it] ++ given g idx its.
Proof.
  unfold given. cbn. destruct (target g it) as [[j v]|]; [|done]. by case_bool_decide.
Qed.

Lemma same_shape_given g g' idx its : same_shape g g' -> given g' idx its = given g idx its.
Proof.
  intros H. unfold given. induction its as [|it its IH]; [done|]. cbn. rewrite (same_shape_target _ _ it H). by rewrite IH.
Qed.

Lemma apply_items_opt its : forall g idx o, opts g !! idx = Some o -> exists o', opts (fold_left apply_item its g) !! idx = Some o' /\
  svalue o' = default (svalue o) (last (given g idx its)) /\ wasSpecified o' = wasSpecified o || negb (bool_decide (given g idx its = [])).
Proof.
  induction its as [|it its IH]; intros g idx o E; cbn [fold_left]; [exists o; by rewrite orb_false_r|].
  destruct (apply_item_opt g it idx o E) as (o1&E1&V1&S1). destruct (IH _ _ _ E1) as (o'&E'&V'&S').
  rewrite (same_shape_given g) in V', S' by apply apply_item_shape.
  exists o'. split; [done|]. rewrite given_cons. split.
  - rewrite V', V1, last_app. destruct (last (given g idx its)); [done|]. by destruct (last (given g idx [it])).
  - rewrite S', S1, <- orb_assoc. f_equal. destruct (given g idx [it]); [done|]. by destruct (given g idx its).
Qed.

Lemma parse_written g its : tables_ok g -> Forall (item_ok g) its -> exists g',
  parse g (concat (written <$> its)) = Some (g', true) /\ extraargs g' = extraargs g ++ inputs its /\ lopts g' = lopts g /\
  forall name idx, lopts g !! name = Some idx ->
    getString g' name = default (getString g name) (last (given g idx its)) /\
    was_specified g' name = was_specified g name || negb (bool_decide (given g idx its = [])).
Proof.
  intros [L _] F. exists (fold_left apply_item its g). unfold parse. rewrite (concat_chop_written g its F).
  split; [apply (parse_items its _ _ g []); [done..|]|split; [apply apply_items_args|split; [apply apply_items_shape|]]].
  - pose proof (length_item_toks its). lia.
  - intros name idx El. destruct (L name idx El) as [o Eo]. destruct (apply_items_opt its g idx o Eo) as (o'&Eo'&V&S).
    unfold getString, was_specified, findWithLOpt. rewrite (ss_lopts _ _ (apply_items_shape its g)), El. cbn [mbind option_bind].
    by rewrite Eo, Eo'.
Qed.

(** A command line says what it means: when every option that is written is
    registered with the type it is used with, and neither the names nor the input
    files are such that they would be taken apart, the parser accepts it; every
    option, however it is written, has the last value it was given, or its default;
    it counts as specified exactly when it was given; and the input files are the
    words that are left, in order. *)
Theorem getopt_parse (g : GetOpt) (its : list item) : tables_ok g -> Forall (item_ok g) its -> exists g',
  parse g (concat (written <$> its)) = Some (g', true) /\ extraargs g' = extraargs g ++ inputs its /\
  forall name idx, lopts g !! name = Some idx ->
    getString g' name = default (getString g name) (last (given g idx its)) /\
    was_specified g' name = was_specified g name || negb (bool_decide (given g idx its = [])).
Proof. intros T F. destruct (parse_written g its T F) as (g'&E&A&_&V). by exists g'. Qed.

(** Parsing ends on every command line. *)
Lemma short_block_index toks tok cs : forall first g i okay, (i <= (short_block toks tok first cs g i okay).1.2)%nat.
Proof.
  induction cs as [|c cs IH]; intros first g i okay; cbn [short_block]; [done|].
  repeat (case_match; cbn [fst snd]; try lia); (etransitivity; [|apply IH]; lia).
Qed.

Lemma parse_loop_total toks fuel : forall g i okay, (0 < fuel)%nat -> (length toks < i + fuel)%nat ->
  is_Some (parse_loop toks fuel g i okay).
Proof.
  induction fuel as [|fuel IH]; intros g i okay Hp Hf; [lia|]. cbn [parse_loop].
  destruct (toks !! i) as [tok|] eqn:E; [|by eexists]. apply lookup_lt_Some in E.
  repeat case_match; try (apply IH; lia). subst.
  match goal with H : short_block _ _ _ ?cs ?g ?i ?ok = _ |- _ => pose proof (short_block_index toks tok cs true g i ok) as Hi; rewrite H in Hi end.
  cbn [fst snd] in Hi. apply IH; lia.
Qed.

Theorem getopt_parse_total g argv : is_Some (parse g argv).
Proof. apply parse_loop_total; lia. Qed.

(** ** Flags *)

(** Flags are true or false. *)
Definition flags_ok (g : GetOpt) : Prop :=
  Forall (fun o => type o = OPT_BOOL_TYPE -> svalue o = str "true" \/ svalue o = str "false") (opts g).

Lemma mark_flags g idx : flags_ok g -> flags_ok (mark g idx).
Proof. intros F. apply Forall_alter; [done|]. intros o Eo Ho. exact Ho. Qed.

Lemma set_svalue_flags g idx v : flags_ok g -> (opt_type g idx = OPT_BOOL_TYPE -> v = str "true" \/ v = str "false") ->
  flags_ok (set_svalue g idx v).
Proof. intros F Hv. apply Forall_alter; [done|]. intros o Eo _ T. apply Hv. unfold opt_type. by rewrite Eo. Qed.

Lemma short_block_flags toks tok cs : forall first g i okay, flags_ok g -> flags_ok (short_block toks tok first cs g i okay).1.1.
Proof.
  induction cs as [|c cs IH]; intros first g i okay F; cbn [short_block]; [done|].
  destruct (findWithSOpt g [c]) as [idx|]; [|by case_match; [|apply IH]]. pose proof (mark_flags g idx F) as Fm.
  destruct (opt_type (mark g idx) idx) eqn:T; [by apply IH|apply IH, set_svalue_flags; auto|].
  case_match; apply IH; [|done]. apply set_svalue_flags; [done|]. by rewrite T.
Qed.

Lemma parse_loop_flags toks fuel : forall g i okay g' ok, flags_ok g -> parse_loop toks fuel g i okay = Some (g', ok) -> flags_ok g'.
Proof.
  induction fuel as [|fuel IH]; intros g i okay g' ok F E; cbn [parse_loop] in E; [done|].
  destruct (toks !! i) as [tok|]; [|by simplify_eq]. destruct (starts_with (str "--") tok).
  - destruct (findWithLOpt g (drop 2 tok)) as [idx|]; [|by eapply IH]. pose proof (mark_flags g idx F) as Fm.
    assert (flags_ok (set_svalue (mark g idx) idx (str "true"))) by (apply set_svalue_flags; auto).
    assert (flags_ok (set_svalue (mark g idx) idx (str "false"))) by (apply set_svalue_flags; auto).
    destruct (opt_type (mark g idx) idx) eqn:T; [eapply IH; [|exact E]; done| |].
    + repeat case_match; eapply IH; [|exact E| |exact E| |exact E| |exact E]; done.
    + case_match; (eapply IH; [|exact E]); [|done]. apply set_svalue_flags; [done|]. by rewrite T.
  - destruct (starts_with (str "-") tok); [|by eapply IH; [|exact E]].
    pose proof (short_block_flags toks tok (drop 1 tok) true g i okay F) as Fb.
    destruct (short_block _ _ _ _ _ _ _) as [[g1 i1] ok1]. by eapply IH.
Qed.

(** On every command line, the right ones and the wrong ones, flags stay true or
    false, so that the assertion of [getBool] holds of them. *)
Theorem getopt_flags_defined g argv g' ok : flags_ok g -> parse g argv = Some (g', ok) -> flags_ok g'.
Proof. apply parse_loop_flags. Qed.

(** ** Examples *)

Definition example_opts : GetOpt :=
  addString (addBool (addSpacer (addBool getopt_create 99 (str "c") false []) (str "C")) 0 (str "lazy") false []) 0 (str "c-hpath") (str ".") [].

Lemma example_tables : tables_ok example_opts.
Proof. unfold example_opts. auto using addBool_tables, addString_tables, addSpacer_tables, create_tables. Qed.

Lemma getopt_parse_witness : exists g',
  parse example_opts [str "-c"; str "a.zcm"; str "--c-hpath=x=y"; str "--lazy"; str "b.zcm"; str "--lazy=false"] = Some (g', true) /\
  extraargs g' = [str "a.zcm"; str "b.zcm"] /\ getString g' (str "c-hpath") = str "x=y" /\ getString g' (str "lazy") = str "false".
Proof.
  destruct (getopt_parse example_opts
    [Letter 99; Input (str "a.zcm"); Long (str "c-hpath") (str "x=y"); Flag (str "lazy"); Input (str "b.zcm"); Long (str "lazy") (str "false")])
    as (g'&E&A&V).
  - exact example_tables.
  - assert (forall w, bool_decide (plain_word w) = true -> plain_word w) as P by (intros w; apply bool_decide_eq_true).
    repeat (apply Forall_cons; split); [..|constructor].
    + split; [done|]. split; [done|]. exists 0%nat. by split.
    + apply P. vm_compute. reflexivity.
    + split; [by apply (bool_decide_unpack _); vm_compute|]. split; [done|]. exists 3%nat. split; [by vm_compute|by left; vm_compute].
    + split; [by apply (bool_decide_unpack _); vm_compute|]. exists 2%nat. split; by vm_compute.
    + apply P. vm_compute. reflexivity.
    + split; [by apply (bool_decide_unpack _); vm_compute|]. split; [done|]. exists 2%nat. split; [by vm_compute|right; split; [by vm_compute|by right]].
  - exists g'. split; [exact E|]. split; [exact A|]. split.
    + exact (proj1 (V (str "c-hpath") 3%nat eq_refl)).
    + exact (proj1 (V (str "lazy") 2%nat eq_refl)).
Defined.

(** Any other value than true and false switches a flag on and becomes an input file. *)
Lemma flag_value_becomes_input : exists g',
  parse example_opts [str "--lazy=0"] = Some (g', true) /\ getBool g' (str "lazy") = Some true /\ extraargs g' = [str "0"].
Proof. eexists. split; [vm_compute; reflexivity|]. split; vm_compute; reflexivity. Qed.

(** The name of a file is taken apart at its equal sign. *)
Lemma input_taken_apart : exists g', parse example_opts [str "a=b.zcm"] = Some (g', true) /\ extraargs g' = [str "a"; str "b.zcm"].
Proof. eexists. split; vm_compute; reflexivity. Qed.

(** A long option without its value is refused and an input file as well; a single dash is dropped. *)
Lemma missing_value_becomes_input : exists g' g'',
  parse example_opts [str "--c-hpath"] = Some (g', false) /\ extraargs g' = [str "--c-hpath"] /\
  parse example_opts [str "-"] = Some (g'', true) /\ extraargs g'' = [].
Proof. do 2 eexists. split; [vm_compute; reflexivity|]. split; [vm_compute; reflexivity|]. split; vm_compute; reflexivity. Qed.
