(* ===== verification/GenMain.v ===== *)
(** * The type generator as a program (gen/Main.cpp)

    The options of the command line, the checks over all structs, and what is
    printed and written.  The branches for Java, Python, Node.js and Julia are
    outside of the model: with one of their flags the result is left open.  So are the
    texts of the usage, of the tokens, of the summary, and warnings; the program's
    answers on its output are lists of lines. *)
From S2P Require Import Prelude Bytes Transport Url Tokenize CNum Gen GenParse GenProps EmitC EmitCpp CCode CMsg GetOpt.
Local Open Scope Z_scope.

(** ** The options *)

Definition setupOptionsC (gopt : GetOpt) : GetOpt :=
  let gopt := addString gopt 0 (str "c-cpath") (str ".") (str "Location for .c files") in
  let gopt := addString gopt 0 (str "c-hpath") (str ".") (str "Location for .h files") in
  let gopt := addString gopt 0 (str "c-include") [] (str "Generated #include lines reference this folder") in
  let gopt := addBool gopt 0 (str "c-no-pubsub") false (str "Do not generate _publish and _subscribe functions") in
  let gopt := addBool gopt 0 (str "c-typeinfo") false (str "Generate typeinfo functions for each type") in
  addBool gopt 0 (str "c-coretypes-from-local") false
    (str "use " ++ [34; 34] ++ str " instead of <> when including coretypes").

Definition setupOptionsCpp (gopt : GetOpt) : GetOpt :=
  let gopt := addString gopt 0 (str "cpp-hpath") (str ".") (str "Location for .hpp files") in
  let gopt := addString gopt 0 (str "cpp-include") [] (str "Generated #include lines reference this folder") in
  let gopt := addBool gopt 0 (str "cpp-virtual-destructor") true (str "Include a virtual destructor") in
  let gopt := addBool gopt 0 (str "cpp-std-array") false (str "Use std::array wherever possible") in
  addBool gopt 0 (str "cpp-coretypes-from-local") false
    (str "use " ++ [34; 34] ++ str " instead of <> when including coretypes").

Definition setupOptionsJava (gopt : GetOpt) : GetOpt :=
  let gopt := addString gopt 0 (str "jpath") [] (str "Java file destination directory") in
  let gopt := addBool gopt 0 (str "jmkdir") true (str "Make java source directories automatically") in
  let gopt := addString gopt 0 (str "jdecl") (str "implements zcm.zcm.ZCMEncodable") (str "String added to class declarations") in
  addString gopt 0 (str "jpkgprefix") (str "zcmtypes")
    (str "Java package prefix, all types/packages will be inside this. " ++ str "Comes *before* global pkg-prefix if both specified.").

Definition setupOptionsPython (gopt : GetOpt) : GetOpt :=
  addString gopt 0 (str "ppath") (str "./") (str "Python destination directory").

Definition setupOptionsNode (gopt : GetOpt) : GetOpt :=
  addString gopt 0 (str "npath") (str ".") (str "Location for zcmtypes.js file").

Definition setupOptionsJulia (gopt : GetOpt) : GetOpt :=
  let gopt := addString gopt 0 (str "julia-path") (str ".") (str "Julia destination directory") in
  let gopt := addString gopt 0 (str "julia-pkg-prefix") (str "zcmtypes")
    (str "Julia package prefix, all types/packages will be inside this. " ++ str "Comes *before* global pkg-prefix if both specified.") in
  let gopt := addBool gopt 0 (str "julia-generate-pkg-files") false
    (str "Generates the pkg file(s) instead of the zcmtype files. " ++ str "MUST HAVE ALL ZCMTYPES FROM PACKAGE(S) INCLUDED IN COMMAND") in
  addBool gopt 0 (str "julia-disable-runtime-assertions") false
    (str "Disable runtime assertions (in encode) for type/size checking in Julia").

(** All of them, as [main] registers them. *)
Definition main_options : GetOpt :=
  let gopt := getopt_create in
  let gopt := addBool gopt (ch "h") (str "help") false (str "Show this help") in
  let gopt := addBool gopt (ch "t") (str "tokenize") false (str "Show tokenization") in
  let gopt := addBool gopt 0 (str "package") false (str "Show only package") in
  let gopt := addBool gopt 0 (str "output-files") false (str "Show output filenames only") in
  let gopt := addBool gopt (ch "d") (str "summary") false (str "Show parsed file") in
  let gopt := addBool gopt 0 (str "lazy") false (str "Generate output file only if .zcm is newer") in
  let gopt := addString gopt 0 (str "package-prefix") [] (str "Add this package name as a prefix to the declared package") in
  let gopt := addBool gopt 0 (str "little-endian-encoding") false (str "Encode and decode network traffic in little endian format") in
  let gopt := addBool gopt (ch "m") (str "show-missing") false (str "Print nested types missing from this invocation") in
  let gopt := addBool gopt 0 (str "version") false (str "Show version information and exit") in
  let gopt := addBool (addSpacer gopt (str "**** C options ****")) (ch "c") (str "c") false (str "Emit C code") in
  let gopt := setupOptionsC gopt in
  let gopt := addBool (addSpacer gopt (str "**** C++ options ****")) (ch "x") (str "cpp") false (str "Emit C++ code") in
  let gopt := setupOptionsCpp gopt in
  let gopt := addBool (addSpacer gopt (str "**** Java options ****")) (ch "j") (str "java") false (str "Emit Java code") in
  let gopt := setupOptionsJava gopt in
  let gopt := addBool (addSpacer gopt (str "**** Python options ****")) (ch "p") (str "python") false (str "Emit Python code") in
  let gopt := setupOptionsPython gopt in
  let gopt := addBool (addSpacer gopt (str "**** Node.js options ****")) (ch "n") (str "node") false (str "Emit Node.js code") in
  let gopt := setupOptionsNode gopt in
  let gopt := addBool (addSpacer gopt (str "**** Julia options ****")) (ch "u") (str "julia") false (str "Emit Julia code") in
  setupOptionsJulia gopt.

(** ** Over all structs *)

(** The types of members that are not declared, each once. *)
Definition missing_types (zs : list ZCMStruct) : list cstr :=
  let nonPrimitives := remove_dups (s ← zs; fullname ∘ mtype <$> List.filter (fun zm => negb (isPrimitiveType (fullname (mtype zm)))) (members s)) in
  List.filter (fun t => negb (existsb (fun s => bool_decide (fullname (structname s) = t)) zs)) nonPrimitives.

(** The package of all structs, or none when there are several.  An empty package does not count. *)
Fixpoint common_package (package' : cstr) (zs : list ZCMStruct) : option cstr :=
  match zs with
  | [] => Some package'
  | s :: zs =>
      if negb (bool_decide (package' = [])) && negb (bool_decide (package (structname s) = package')) then None
      else common_package (package (structname s)) zs
  end.

(** ** Reserved words *)

Definition getReservedKeywordsJava : list cstr :=
  str <$> ["abstract"; "assert"; "boolean"; "break"; "byte"; "case"; "catch";
           "char"; "class"; "const"; "continue"; "default"; "double"; "do";
           "else"; "enum"; "extends"; "false"; "final"; "finally"; "float";
           "for"; "goto"; "if"; "implements"; "import"; "instanceof"; "int";
           "interface"; "long"; "native"; "new"; "null"; "package"; "private";
           "protected"; "public"; "return"; "short"; "static"; "strictfp";
           "super"; "switch"; "synchronized"; "this"; "throw"; "throws";
           "transient"; "true"; "try"; "void"; "volatile"; "while";
           "ZCM_FINGERPRINT"; "ZCM_FINGERPRINT_BASE"; "IS_LITTLE_ENDIAN";
           "_hashRecursive"; "encode"; "_encodeRecursive";
           "_decodeRecursiveFactory"; "_decodeRecursive"; "copy"]%string.

Definition getReservedKeywordsPython : list cstr :=
  str <$> ["False"; "class"; "finally"; "is"; "return"; "None"; "continue";
           "for"; "lambda"; "try"; "True"; "def"; "from"; "nonlocal";
           "while"; "and"; "del"; "global"; "not"; "with"; "as"; "elif";
           "if"; "or"; "yield"; "assert"; "else"; "import"; "pass"; "break";
           "except"; "in"; "raise";
           "__init__"; "encode"; "_encode_one"; "decode"; "_decode_one";
           "_hash"; "_get_hash_recursive"; "_packed_fingerprint";
           "_get_packed_fingerprint"]%string.

Definition getReservedKeywordsNode : list cstr :=
  str <$> ["abstract"; "arguments"; "await"; "boolean"; "break"; "byte";
           "case"; "catch"; "char"; "class"; "const"; "continue"; "debugger";
           "default"; "delete"; "do"; "double"; "else"; "enum"; "eval";
           "export"; "extends"; "false"; "final"; "finally"; "float"; "for";
           "function"; "goto"; "if"; "implements"; "import"; "in";
           "instanceof"; "int"; "interface"; "let"; "long"; "native"; "new";
           "null"; "package"; "private"; "protected"; "public"; "return";
           "short"; "static"; "super"; "switch"; "synchronized"; "this";
           "throw"; "throws"; "transient"; "true"; "try"; "typeof"; "var";
           "void"; "volatile"; "while"; "with"; "yield";
           "IS_LITTLE_ENDIAN"; "__hash"]%string.

Definition getReservedKeywordsJulia : list cstr :=
  str <$> ["begin"; "while"; "if"; "for"; "try"; "return";
           "break"; "continue"; "function"; "macro"; "quote";
           "let"; "local"; "global"; "const"; "do"; "struct";
           "abstract"; "typealias"; "bitstype"; "type";
           "immutable"; "module"; "baremodule"; "using";
           "import"; "export"; "importall"; "end"; "else";
           "catch"; "finally"; "true"; "false"]%string.

Definition reservedTokens : list cstr :=
  str "IS_LITTLE_ENDIAN" :: getReservedKeywordsC ++ getReservedKeywordsCpp ++ getReservedKeywordsJava ++
  getReservedKeywordsPython ++ getReservedKeywordsNode ++ getReservedKeywordsJulia.

(** The words of a declaration that are reserved, as sets of the source, here with repetitions. *)
Definition reserved_in (reserved : list cstr) (names : list cstr) : list cstr :=
  List.filter (fun n => bool_decide (n ∈ reserved)) names.

Definition typename_conflicts (reserved : list cstr) (t : ZCMTypename) : list cstr :=
  if isPrimitiveType (fullname t) then [] else reserved_in reserved (split (fullname t) (ch ".")).
Definition member_conflicts (reserved : list cstr) (zm : ZCMMember) : list cstr :=
  reserved_in reserved [membername zm] ++ typename_conflicts reserved (mtype zm).
Definition constant_conflicts (reserved : list cstr) (zc : ZCMConstant) : list cstr := reserved_in reserved [cname zc].
Definition struct_conflicts (reserved : list cstr) (zs : ZCMStruct) : list cstr :=
  typename_conflicts reserved (structname zs) ++ (members zs ≫= member_conflicts reserved) ++ (constants zs ≫= constant_conflicts reserved).

(** The structs and the words of theirs that are warned of. *)
Definition getConflictingTokens (reserved : list cstr) (zs : list ZCMStruct) : list (cstr * list cstr) :=
  (fun s => (fullname (structname s), struct_conflicts reserved s)) <$> zs.

(** ** Generating *)

(** The value of a flag; the assertion of [getBool]. *)
Definition flag (val : cstr -> cstr) (name : string) : option bool :=
  check (negb (bool_decide (val (str name) = []))) ;;
  Some (bool_decide (val (str name) = str "true")).

Definition copts_of (val : cstr -> cstr) : option copts :=
  no_pubsub <- flag val "c-no-pubsub" ;;
  typeinfo <- flag val "c-typeinfo" ;;
  from_local <- flag val "c-coretypes-from-local" ;;
  le <- flag val "little-endian-encoding" ;;
  Some (mkCOpts (val (str "c-cpath")) (val (str "c-hpath")) (val (str "c-include")) no_pubsub typeinfo from_local le).

Definition cppopts_of (val : cstr -> cstr) : option cppopts :=
  virtual_destructor <- flag val "cpp-virtual-destructor" ;;
  std_array <- flag val "cpp-std-array" ;;
  from_local <- flag val "cpp-coretypes-from-local" ;;
  le <- flag val "little-endian-encoding" ;;
  Some (mkCppOpts (val (str "cpp-hpath")) (val (str "cpp-include")) virtual_destructor std_array from_local le).

(** [stat]: the time of a file at the start.  A file of the run is not asked for twice. *)
Definition needsGeneration (lazy : bool) (stat : cstr -> option Z) (declaringfile outfile : cstr) : bool :=
  if negb lazy then true else
  match stat declaringfile with
  | None => true
  | Some i => match stat outfile with None => true | Some o => o <? i end
  end.

(** The answer of a run: what [main] returns, the lines it prints, the files it writes. *)
Record answer := mkAnswer { code : Z; printed : list cstr; files : list (cstr * cstr) }.

(** One language: the names of the files, or the files. *)
Definition language (on output_files : bool) (paths : list cstr) (emitted : list (cstr * cstr) * Z) (a : answer) : answer :=
  if negb on then a
  else if output_files then mkAnswer (code a) (printed a ++ paths) (files a)
  else mkAnswer (if emitted.2 =? 0 then code a else 1) (printed a) (files a ++ emitted.1).

Section Main.
(** The build options of the signature; the tokens of the files that can be read,
    the times of files, and which can be written. *)
Context (ENABLE_TYPENAME_HASHING ENABLE_MEMBERNAME_HASHING : bool).
Context (tokens : cstr -> option (list token)) (stat : cstr -> option Z) (opens : cstr -> bool).

Definition handle_path (val : cstr -> cstr) (show_tokens : bool) (path : cstr) : M Z :=
  match tokens path with
  | None => ret (-1)
  | Some ks =>
      if show_tokens then ret 0
      else handleFile (val (str "package-prefix")) ENABLE_TYPENAME_HASHING ENABLE_MEMBERNAME_HASHING path ks
  end.

Fixpoint handle_inputs (val : cstr -> cstr) (show_tokens : bool) (paths : list cstr) : M Z :=
  match paths with
  | [] => ret 0
  | path :: paths =>
      bind (handle_path val show_tokens path) (fun res => if res =? 0 then handle_inputs val show_tokens paths else ret res)
  end.

(** The languages that are switched on, one after the other. *)
Definition emit_languages (val : cstr -> cstr) (zs : list ZCMStruct) : option answer :=
  summary <- flag val "summary" ;;
  c <- flag val "c" ;;
  cpp <- flag val "cpp" ;;
  output_files <- flag val "output-files" ;;
  lazy <- flag val "lazy" ;;
  java <- flag val "java" ;;
  python <- flag val "python" ;;
  node <- flag val "node" ;;
  julia <- flag val "julia" ;;
  check (negb (java || python || node || julia)) ;;
  co <- copts_of val ;;
  cppo <- cppopts_of val ;;
  let needs := needsGeneration lazy stat in
  let a := mkAnswer 0 [] [] in
  let a := language c output_files (getFilepathsC co zs) (emitC co needs opens zs) a in
  let a := language cpp output_files (getFilepathsCpp cppo zs) (emitCpp cppo needs opens zs) a in
  Some (if negb (summary || c || cpp) then mkAnswer 1 (printed a) (files a) else a).

(** Behind the parsing of the files. *)
Definition finish (val : cstr -> cstr) (p : parser) : option answer :=
  le <- flag val "little-endian-encoding" ;;
  if le && negb (little_endian_supported p) then Some (mkAnswer 1 [] []) else
  show_missing <- flag val "show-missing" ;;
  if show_missing : bool then
    let missing := missing_types (structs p) in
    Some (mkAnswer (if bool_decide (missing = []) then 0 else 1) missing [])
  else
    version <- flag val "version" ;;
    if version : bool then Some (mkAnswer 0 [str "zcm-gen 1.1.5"] []) else
    show_tokens <- flag val "tokenize" ;;
    if show_tokens : bool then Some (mkAnswer 0 [] []) else
    show_package <- flag val "package" ;;
    if show_package : bool then
      match common_package [] (structs p) with
      | Some pkg => Some (mkAnswer 0 [pkg] [])
      | None => Some (mkAnswer 1 [] [])
      end
    else emit_languages val (structs p).

(** The options are [val]; an error of the parser exits with 1. *)
Definition generate (val : cstr -> cstr) (paths : list cstr) : option answer :=
  help <- flag val "help" ;;
  if help : bool then Some (mkAnswer 0 [] []) else
  show_tokens <- flag val "tokenize" ;;
  match handle_inputs val show_tokens paths gen_create with
  | Ok res p => if res =? 0 then finish val p else Some (mkAnswer res [] [])
  | Exit => Some (mkAnswer 1 [] [])
  | Undef | GenParse.OutOfFuel => None
  end.

Definition main (argv : list cstr) : option answer :=
  '(gopt, parseSuccess) <- parse main_options argv ;;
  if negb parseSuccess then Some (mkAnswer 1 [] []) else generate (getString gopt) (extraargs gopt).
End Main.
