(* ===== verification/GenMainProps.v ===== *)
(** * The type generator as a program: what it writes *)
From S2P Require Import Prelude Bytes Transport Url Tokenize CNum Gen GenParse GenProps EmitC EmitCpp CCode CMsg GetOpt GenMain.
Local Open Scope Z_scope.

(** ** The settings of a command line *)

(** The value that an option has behind the items: the last one, or the default. *)
Definition setting (its : list item) (name : cstr) : cstr :=
  match lopts main_options !! name with
  | Some idx => default (getString main_options name) (last (given main_options idx its))
  | None => []
  end.

Definition on (its : list item) (name : string) : bool := bool_decide (setting its (str name) = str "true").

Definition c_options (its : list item) : copts :=
  mkCOpts (setting its (str "c-cpath")) (setting its (str "c-hpath")) (setting its (str "c-include")) (on its "c-no-pubsub")
    (on its "c-typeinfo") (on its "c-coretypes-from-local") (on its "little-endian-encoding").
Definition cpp_options (its : list item) : cppopts :=
  mkCppOpts (setting its (str "cpp-hpath")) (setting its (str "cpp-include")) (on its "cpp-virtual-destructor")
    (on its "cpp-std-array") (on its "cpp-coretypes-from-local") (on its "little-endian-encoding").

Lemma main_options_tables : tables_ok main_options.
Proof.
  unfold main_options, setupOptionsJulia, setupOptionsNode, setupOptionsPython, setupOptionsJava, setupOptionsCpp, setupOptionsC.
  repeat first [simple apply addBool_tables|simple apply addString_tables|simple apply addSpacer_tables]. exact create_tables.
Qed.

(** A name of a flag. *)
Definition is_flag (name : cstr) : bool :=
  match lopts main_options !! name with
  | Some idx => match opts main_options !! idx with
                | Some o => match type o with
                            | OPT_BOOL_TYPE => bool_decide (svalue o = str "true") || bool_decide (svalue o = str "false")
                            | _ => false
                            end
                | None => false
                end
  | None => false
  end.

Definition flag_names : list string :=
  ["help"; "tokenize"; "package"; "output-files"; "summary"; "lazy"; "little-endian-encoding"; "show-missing"; "version"; "c";
   "c-no-pubsub"; "c-typeinfo"; "c-coretypes-from-local"; "cpp"; "cpp-virtual-destructor"; "cpp-std-array"; "cpp-coretypes-from-local";
   "java"; "python"; "node"; "julia"]%string.

(** A name in a list of names. *)
Ltac in_names := apply (bool_decide_unpack _); vm_compute; exact I.

Lemma all_flags : forallb (fun n => is_flag (str n)) flag_names = true.
Proof. vm_compute. reflexivity. Qed.

#[local] Opaque main_options str.

(** What an item gives to a flag. *)
Lemma target_flag g it idx v : item_ok g it -> target g it = Some (idx, v) -> opt_type g idx = OPT_BOOL_TYPE ->
  v = str "true" \/ v = str "false".
Proof.
  destruct it as [name w|name|c|c w|f]; cbn [item_ok target]; [intros (_&_&j&E&T)|intros (_&j&E&T)|intros (_&_&j&E&T)|intros (_&_&_&_&j&E&T)|done];
    rewrite E; intros [= <- <-] Tb; [|by left..|congruence]. destruct T as [|[]]; [congruence|done].
Qed.

Lemma given_flag g its idx : Forall (item_ok g) its -> opt_type g idx = OPT_BOOL_TYPE ->
  Forall (fun v => v = str "true" \/ v = str "false") (given g idx its).
Proof.
  intros F T. induction F as [|it its H F IH]; [constructor|]. rewrite given_cons. apply Forall_app. split; [|exact IH].
  unfold given. cbn. destruct (target g it) as [[j v]|] eqn:E; [|constructor]. case_bool_decide as Ej; [|constructor].
  constructor; [|constructor]. subst. by eapply target_flag.
Qed.

(** Flags have values. *)
Lemma flag_on its name : Forall (item_ok main_options) its -> name ∈ flag_names -> flag (setting its) name = Some (on its name).
Proof.
  intros F Hn. pose proof all_flags as A. rewrite forallb_forall in A. specialize (A name). rewrite <- list_elem_of_In in A.
  specialize (A Hn). unfold is_flag in A. unfold flag, on, setting. destruct (lopts main_options !! str name) as [idx|] eqn:El; [|done].
  destruct (opts main_options !! idx) as [o|] eqn:Eo; [|done]. destruct (type o) eqn:To; [done| |done].
  assert (opt_type main_options idx = OPT_BOOL_TYPE) as T by (unfold opt_type; by rewrite Eo).
  assert (getString main_options (str name) = svalue o) as -> by (unfold getString, findWithLOpt; rewrite El; cbn [mbind option_bind]; by rewrite Eo).
  apply orb_true_iff in A. rewrite !bool_decide_eq_true in A.
  assert (default (svalue o) (last (given main_options idx its)) = str "true" \/ default (svalue o) (last (given main_options idx its)) = str "false") as V.
  { destruct (last (given main_options idx its)) as [v|] eqn:Ev; [|exact A]. apply last_Some in Ev as [l Ev].
    pose proof (given_flag _ its idx F T) as G. rewrite Ev in G. apply Forall_app in G as [_ G]. exact (proj1 (Forall_singleton _ _) G). }
  rewrite (bool_decide_eq_false_2 (_ = [])) by (destruct V as [-> | ->]; done). done.
Qed.

(** ** The run on a command line *)

Section run.
Context (th mh : bool) (tokens : cstr -> option (list token)) (stat : cstr -> option Z) (opens : cstr -> bool).

Lemma handle_inputs_ext val val' show_tokens paths p : (forall n, val n = val' n) ->
  handle_inputs th mh tokens val show_tokens paths p = handle_inputs th mh tokens val' show_tokens paths p.
Proof.
  intros H. revert p. induction paths as [|path paths IH]; intros p; [done|]. cbn [handle_inputs]. unfold bind, handle_path. rewrite H.
  match goal with |- match ?m with _ => _ end = _ => destruct m as [res p'| | |]; [|done..] end. by case_match.
Qed.

Lemma flag_ext val val' name : (forall n, val n = val' n) -> flag val name = flag val' name.
Proof. intros H. unfold flag. by rewrite H. Qed.

Lemma finish_ext val val' p : (forall n, val n = val' n) -> finish stat opens val p = finish stat opens val' p.
Proof.
  intros H. unfold finish, emit_languages, copts_of, cppopts_of. rewrite !H, !(fun n => flag_ext val val' n H). done.
Qed.

Lemma generate_ext val val' paths : (forall n, val n = val' n) ->
  generate th mh tokens stat opens val paths = generate th mh tokens stat opens val' paths.
Proof.
  intros H. unfold generate. rewrite !(fun n => flag_ext val val' n H). destruct (flag val' "help") as [[|]|]; [done| |done].
  destruct (flag val' "tokenize") as [b|]; [|done]. rewrite (handle_inputs_ext val val') by done.
  destruct (handle_inputs _ _ _ _ _ _ _) as [res p| | |]; [|done..]. by rewrite (finish_ext val val').
Qed.

(** A command line is its settings and its inputs. *)
Lemma main_items its : Forall (item_ok main_options) its ->
  main th mh tokens stat opens (concat (written <$> its)) = generate th mh tokens stat opens (setting its) (inputs its).
Proof.
  intros F. destruct (parse_written main_options its main_options_tables F) as (g&E&A&S&V). unfold main. rewrite E. cbn [negb].
  rewrite A. apply generate_ext. intros n. unfold setting. destruct (lopts main_options !! n) as [idx|] eqn:El; [by apply V|].
  unfold getString, findWithLOpt. by rewrite S, El.
Qed.

(** The inputs of a run that parses. *)
Lemma handle_inputs_files val (fs : list (cstr * list token)) p : Forall (fun f => tokens f.1 = Some f.2) fs ->
  handle_inputs th mh tokens val false fs.*1 p = handleFiles (val (str "package-prefix")) th mh fs p.
Proof.
  intros F. revert p. induction F as [|[path ks] fs H F IH]; intros p; [done|]. cbn [fmap list_fmap handle_inputs handleFiles fst snd].
  unfold bind, handle_path. cbn [fst snd] in H. rewrite H. destruct (handleFile _ _ _ _ _ p) as [res p'| | |]; [|done..]. case_match; [apply IH|done].
Qed.
End run.

(** ** The files *)

(** Declaring file, name and text of the files that are to be generated. *)
Definition c_outputs (o : copts) (zs : list ZCMStruct) : list (cstr * cstr * cstr) :=
  zs ≫= fun s => [(zcmfile s, hName o s, emitStructHeader o s); (zcmfile s, cName o s, emitStructSource o s)].
Definition cpp_outputs (o : cppopts) (zs : list ZCMStruct) : list (cstr * cstr * cstr) :=
  (fun s => (zcmfile s, headerName o s, emitHeader o s)) <$> zs.

Definition outputs (its : list item) (zs : list ZCMStruct) : list (cstr * cstr * cstr) :=
  (if on its "c" then c_outputs (c_options its) zs else []) ++ (if on its "cpp" then cpp_outputs (cpp_options its) zs else []).

(** Both files are there, and the declaring one is not newer. *)
Definition up_to_date (stat : cstr -> option Z) (declaring out : cstr) : bool :=
  match stat declaring, stat out with Some i, Some o => i <=? o | _, _ => false end.

Lemma needsGeneration_spec lazy stat declaring out : needsGeneration lazy stat declaring out = negb (lazy && up_to_date stat declaring out).
Proof.
  unfold needsGeneration, up_to_date. destruct lazy; [|done]. destruct (stat declaring) as [i|]; [|done]. destruct (stat out) as [o|]; [|done].
  cbn. by rewrite <- Z.ltb_antisym.
Qed.

(** Those of them that are needed. *)
Definition needed (needs : cstr -> cstr -> bool) (outs : list (cstr * cstr * cstr)) : list (cstr * cstr) :=
  (fun f => (f.1.2, f.2)) <$> List.filter (fun f => needs f.1.1 f.1.2) outs.

Lemma needed_app needs l1 l2 : needed needs (l1 ++ l2) = needed needs l1 ++ needed needs l2.
Proof. unfold needed. by rewrite List.filter_app, fmap_app. Qed.

Lemma needed_ext needs needs' outs : (forall d n, needs d n = needs' d n) -> needed needs outs = needed needs' outs.
Proof. intros H. unfold needed. f_equal. apply List.filter_ext. intros [[d n] t]. apply H. Qed.

Section files.
Context (needs : cstr -> cstr -> bool) (opens : cstr -> bool) (can_open : forall f, opens f = true).

Lemma emit_file_needed zs name text : emit_file needs opens zs name text = (needed needs [(zcmfile zs, name, text)], 0).
Proof. unfold emit_file, needed. cbn. rewrite can_open. by destruct (needs (zcmfile zs) name). Qed.

Lemma emitC_needed o zs : emitC o needs opens zs = (needed needs (c_outputs o zs), 0).
Proof.
  induction zs as [|s zs IH]; [done|]. cbn [emitC]. rewrite !emit_file_needed. cbn [negb Z.eqb]. rewrite IH. f_equal.
  unfold c_outputs. rewrite bind_cons, needed_app. rewrite app_assoc. f_equal. rewrite <- needed_app. done.
Qed.

Lemma emitCpp_needed o zs : emitCpp o needs opens zs = (needed needs (cpp_outputs o zs), 0).
Proof.
  induction zs as [|s zs IH]; [done|]. cbn [emitCpp]. rewrite emit_file_needed. cbn [negb Z.eqb]. rewrite IH. f_equal.
  unfold cpp_outputs. rewrite fmap_cons. symmetry. apply (needed_app needs [_]).
Qed.
End files.

Lemma getFilepathsC_outputs o zs : getFilepathsC o zs = (fun f => f.1.2) <$> c_outputs o zs.
Proof.
  unfold getFilepathsC, c_outputs. induction zs as [|s zs IH]; [done|]. rewrite bind_cons, fmap_app, <- IH, fmap_cons. done.
Qed.

Lemma getFilepathsCpp_outputs o zs : getFilepathsCpp o zs = (fun f => f.1.2) <$> cpp_outputs o zs.
Proof. unfold getFilepathsCpp, cpp_outputs. rewrite <- list_fmap_compose. done. Qed.

(** The flags that ask for something else than generating. *)
Definition other_modes : list string := ["help"; "tokenize"; "package"; "show-missing"; "version"; "java"; "python"; "node"; "julia"]%string.

Section run.
Context (th mh : bool) (tokens : cstr -> option (list token)) (stat : cstr -> option Z) (opens : cstr -> bool).
Context (its : list item) (its_ok : Forall (item_ok main_options) its).

Lemma copts_of_its : copts_of (setting its) = Some (c_options its).
Proof. unfold copts_of. by rewrite !(fun n => flag_on its n its_ok) by in_names. Qed.
Lemma cppopts_of_its : cppopts_of (setting its) = Some (cpp_options its).
Proof. unfold cppopts_of. by rewrite !(fun n => flag_on its n its_ok) by in_names. Qed.

Lemma flags_read name : name ∈ flag_names -> flag (setting its) name = Some (on its name).
Proof. by apply flag_on. Qed.

Lemma emit_languages_its zs : (forall f, opens f = true) -> (forall m, m ∈ other_modes -> on its m = false) ->
  on its "c" || on its "cpp" = true ->
  emit_languages stat opens (setting its) zs = Some (
    if on its "output-files" then mkAnswer 0 ((fun f => f.1.2) <$> outputs its zs) []
    else mkAnswer 0 [] (needed (needsGeneration (on its "lazy") stat) (outputs its zs))).
Proof.
  intros Op M Hc. unfold emit_languages. rewrite !flags_read by in_names.
  rewrite (M "java"), (M "python"), (M "node"), (M "julia") by in_names.
  cbn [negb orb]. rewrite copts_of_its, cppopts_of_its. rewrite emitC_needed, emitCpp_needed by done.
  rewrite getFilepathsC_outputs, getFilepathsCpp_outputs. unfold outputs. f_equal.
  destruct (on its "c"), (on its "cpp"); [..|done]; rewrite ?orb_true_r; destruct (on its "output-files"); cbn [language negb code printed files fst snd];
    rewrite ?needed_app, ?fmap_app, ?app_nil_r, ?app_nil_l; rewrite ?orb_true_r; done.
Qed.
Lemma generate_its fs p : Forall (fun f => tokens f.1 = Some f.2) fs -> inputs its = fs.*1 ->
  handleFiles (setting its (str "package-prefix")) th mh fs gen_create = Ok 0 p ->
  on its "help" = false -> on its "tokenize" = false ->
  main th mh tokens stat opens (concat (written <$> its)) = finish stat opens (setting its) p.
Proof.
  intros F Ei Ep Hh Ht. rewrite main_items by done. unfold generate. rewrite !flags_read by in_names.
  by rewrite Hh, Ht, Ei, handle_inputs_files, Ep.
Qed.
End run.

(** C34: the program writes what its command line asks for: when the input files can
    be read and parsed, and neither another mode nor another language is asked for,
    it returns 0 and writes, of the headers and sources of C and C++ that are
    switched on, those that are not up to date under the option lazy, for every
    struct, under the names and with the texts of the options that were
    given; with output-files it prints exactly these names, up to date or not, and
    writes nothing. *)
Theorem gen_writes (th mh : bool) (tokens : cstr -> option (list token)) (stat : cstr -> option Z) (opens : cstr -> bool)
  (its : list item) (fs : list (cstr * list token)) (p : parser) :
  Forall (item_ok main_options) its -> Forall (fun f => tokens f.1 = Some f.2) fs -> inputs its = fs.*1 ->
  handleFiles (setting its (str "package-prefix")) th mh fs gen_create = Ok 0 p ->
  (forall m, m ∈ other_modes -> on its m = false) -> on its "c" || on its "cpp" = true ->
  (on its "little-endian-encoding" = true -> little_endian_supported p = true) -> (forall f, opens f = true) ->
  main th mh tokens stat opens (concat (written <$> its)) = Some (
    if on its "output-files" then mkAnswer 0 ((fun f => f.1.2) <$> outputs its (structs p)) []
    else mkAnswer 0 [] (needed (fun d n => negb (on its "lazy" && up_to_date stat d n)) (outputs its (structs p)))).
Proof.
  intros F T Ei Ep M Hc Le Op. rewrite (needed_ext _ (needsGeneration (on its "lazy") stat)) by (intros; symmetry; apply needsGeneration_spec).
  rewrite (generate_its th mh tokens stat opens its F fs p) by first [assumption|apply M; in_names].
  unfold finish. rewrite !(flags_read its F) by in_names.
  assert (on its "little-endian-encoding" && negb (little_endian_supported p) = false) as ->
    by (destruct (on its "little-endian-encoding"); [by rewrite Le|done]).
  rewrite (M "show-missing"), (M "version"), (M "tokenize"), (M "package") by in_names.
  by apply emit_languages_its.
Qed.

(** ** Missing types *)

Lemma find_struct_declared env name : is_Some (find_struct env name) <-> exists s, s ∈ env /\ fullname (structname s) = name.
Proof.
  split.
  - intros [s E]. exists s. by apply find_struct_Some.
  - intros (s&H&E). unfold find_struct. apply fmap_is_Some. by eapply list_find_elem_of.
Qed.

Lemma elem_of_missing zs t : t ∈ missing_types zs <->
  (exists s zm, s ∈ zs /\ zm ∈ members s /\ fullname (mtype zm) = t /\ isPrimitiveType t = false) /\ ~ is_Some (find_struct zs t).
Proof.
  unfold missing_types. rewrite list_elem_of_In, filter_In, <- list_elem_of_In, elem_of_remove_dups, list_elem_of_bind, negb_true_iff.
  assert (existsb (fun s => bool_decide (fullname (structname s) = t)) zs = false <-> ~ is_Some (find_struct zs t)) as ->.
  { rewrite <- not_true_iff_false, existsb_exists, find_struct_declared. setoid_rewrite bool_decide_eq_true. by setoid_rewrite list_elem_of_In. }
  f_equiv. split.
  - intros (s&Hm&Hs). apply list_elem_of_fmap in Hm as (zm&->&Hz). rewrite list_elem_of_In, filter_In, <- list_elem_of_In, negb_true_iff in Hz.
    destruct Hz as [Hz Pz]. by exists s, zm.
  - intros (s&zm&Hs&Hz&<-&Pz). exists s. split; [|done]. apply list_elem_of_fmap. exists zm. split; [done|].
    by rewrite list_elem_of_In, filter_In, <- list_elem_of_In, negb_true_iff.
Qed.

Lemma missing_closed zs : missing_types zs = [] <-> types_closed zs.
Proof.
  unfold types_closed. split.
  - intros E. rewrite Forall_forall. intros s Hs. rewrite Forall_forall. intros zm Hz. destruct (isPrimitiveType (fullname (mtype zm))) eqn:Pr; [done|].
    cbn [orb]. apply bool_decide_eq_true. apply dec_stable. intros N. assert (fullname (mtype zm) ∈ missing_types zs) as H.
    { apply elem_of_missing. split; [|done]. by exists s, zm. }
    rewrite E in H. by apply elem_of_nil in H.
  - intros C. destruct (missing_types zs) as [|t l] eqn:E; [done|exfalso]. assert (t ∈ missing_types zs) as H by (rewrite E; left).
    apply elem_of_missing in H as [(s&zm&Hs&Hz&<-&Pr) N]. rewrite Forall_forall in C. specialize (C s Hs). rewrite Forall_forall in C.
    specialize (C zm Hz). rewrite Pr in C. cbn [orb] in C. by apply bool_decide_eq_true in C.
Qed.

(** The option show-missing decides whether the signatures of the types can be
    found: the program prints every type that a member has and no input file
    declares, each once, and nothing else; it returns 0 exactly when there is none,
    and then the hash of every declared type exists. *)
Theorem gen_show_missing (th mh : bool) (tokens : cstr -> option (list token)) (stat : cstr -> option Z) (opens : cstr -> bool)
  (its : list item) (fs : list (cstr * list token)) (p : parser) :
  Forall (item_ok main_options) its -> Forall (fun f => tokens f.1 = Some f.2) fs -> inputs its = fs.*1 ->
  handleFiles (setting its (str "package-prefix")) th mh fs gen_create = Ok 0 p ->
  on its "help" = false -> on its "tokenize" = false -> on its "show-missing" = true -> on its "little-endian-encoding" = false ->
  exists code missing, main th mh tokens stat opens (concat (written <$> its)) = Some (mkAnswer code missing []) /\
  NoDup missing /\
  (forall t, t ∈ missing <-> (exists s zm, s ∈ structs p /\ zm ∈ members s /\ fullname (mtype zm) = t /\ isPrimitiveType t = false) /\
     ~ is_Some (find_struct (structs p) t)) /\
  (code = 0 <-> missing = []) /\
  (code = 0 -> forall name, is_Some (find_struct (structs p) name) -> is_Some (get_hash (structs p) name)).
Proof.
  intros F T Ei Ep Hh Ht Hm Hl. exists (if bool_decide (missing_types (structs p) = []) then 0 else 1), (missing_types (structs p)).
  rewrite (generate_its th mh tokens stat opens its F fs p) by assumption. unfold finish.
  rewrite !(flags_read its F) by in_names. rewrite Hl, Hm. split; [done|]. split; [|split; [|split]].
  - apply NoDup_ListNoDup, List.NoDup_filter, NoDup_ListNoDup, NoDup_remove_dups.
  - apply elem_of_missing.
  - case_bool_decide; (split; [|intros ?]); [intros _; assumption|reflexivity|discriminate|contradiction].
  - case_bool_decide as E; [|done]. intros _ name Hn. apply missing_closed in E.
    destruct (generated_hash_total _ _ _ _ _ _ name Ep E Hn) as (h&->&_). by eexists.
Qed.

(** ** Warnings *)

(** The words of a name. *)
Definition name_words (t : ZCMTypename) : list cstr := if isPrimitiveType (fullname t) then [] else split (fullname t) (ch ".").

Definition struct_words (zs : ZCMStruct) : list cstr :=
  name_words (structname zs) ++ (members zs ≫= fun zm => membername zm :: name_words (mtype zm)) ++ (cname <$> constants zs).

(** The words that are warned of are the reserved ones of the struct. *)
Lemma reserved_in_spec reserved names t : t ∈ reserved_in reserved names <-> t ∈ names /\ t ∈ reserved.
Proof. unfold reserved_in. by rewrite list_elem_of_In, filter_In, <- list_elem_of_In, bool_decide_eq_true. Qed.

Lemma typename_conflicts_spec reserved n t : t ∈ typename_conflicts reserved n <-> t ∈ name_words n /\ t ∈ reserved.
Proof. unfold typename_conflicts, name_words. destruct (isPrimitiveType (fullname n)); [set_solver|apply reserved_in_spec]. Qed.

Theorem conflicts_exact reserved zs t : t ∈ struct_conflicts reserved zs <-> t ∈ struct_words zs /\ t ∈ reserved.
Proof.
  unfold struct_conflicts, struct_words, member_conflicts, constant_conflicts.
  rewrite !elem_of_app, typename_conflicts_spec, !list_elem_of_bind, list_elem_of_fmap.
  setoid_rewrite elem_of_app. setoid_rewrite typename_conflicts_spec. setoid_rewrite reserved_in_spec.
  setoid_rewrite elem_of_cons. setoid_rewrite elem_of_nil. firstorder congruence.
Qed.

(** ** Examples *)

Definition example_tokens (path : cstr) : option (list token) :=
  snd <$> (list_find (fun f : cstr * list token => f.1 = path) example_file ≫= fun r => Some r.2).

Definition example_items : list item :=
  [Letter (ch "c"); Input (str "a.zcm"); Long (str "c-hpath") (str "out"); Flag (str "cpp"); Input (str "b.zcm")].

Definition example_parsed : parser :=
  match handleFiles [] false true example_file gen_create with Ok _ p => p | _ => gen_create end.

Lemma example_items_ok : Forall (item_ok main_options) example_items.
Proof.
  assert (forall w, bool_decide (plain_word w) = true -> plain_word w) as P by (intros w; apply bool_decide_eq_true).
  unfold example_items. repeat (apply Forall_cons; split); [..|constructor].
  - split; [done|]. split; [done|]. exists 11%nat. split; vm_compute; reflexivity.
  - apply P. vm_compute. reflexivity.
  - split; [in_names|]. split; [vm_compute; congruence|]. exists 13%nat. split; [vm_compute; reflexivity|left; vm_compute; reflexivity].
  - split; [in_names|]. exists 19%nat. split; vm_compute; reflexivity.
  - apply P. vm_compute. reflexivity.
Qed.

Lemma example_files_read : Forall (fun f => example_tokens f.1 = Some f.2) example_file.
Proof. repeat (apply Forall_cons; split); [vm_compute; reflexivity..|constructor]. Qed.

Lemma gen_writes_witness : exists fs,
  main false true example_tokens (fun _ => None) (fun _ => true)
    [str "-c"; str "a.zcm"; str "--c-hpath=out"; str "--cpp"; str "b.zcm"] = Some (mkAnswer 0 [] fs) /\
  fs.*1 = [str "out/a_t.h"; str "out/a_t.c"; str "out/b_t.h"; str "out/b_t.c"; str "./a_t.hpp"; str "./b_t.hpp"].
Proof.
  assert ([str "-c"; str "a.zcm"; str "--c-hpath=out"; str "--cpp"; str "b.zcm"] = concat (written <$> example_items)) as ->
    by (vm_compute; reflexivity).
  eexists. split.
  - refine (eq_trans (gen_writes false true example_tokens (fun _ => None) (fun _ => true) example_items example_file example_parsed
      example_items_ok example_files_read _ _ _ _ _ _) _).
    + vm_compute. reflexivity.
    + vm_compute. reflexivity.
    + intros m Hm. revert m Hm. apply Forall_forall. repeat (apply Forall_cons; split); [vm_compute; reflexivity..|constructor].
    + vm_compute. reflexivity.
    + vm_compute. discriminate.
    + reflexivity.
    + assert (on example_items "output-files" = false) as -> by (vm_compute; reflexivity). reflexivity.
  - vm_compute. reflexivity.
Defined.

Lemma gen_show_missing_witness : exists code missing,
  main false true example_tokens (fun _ => None) (fun _ => true) [str "-m"; str "a.zcm"; str "b.zcm"] = Some (mkAnswer code missing []) /\
  (code = 0 <-> missing = []) /\
  (code = 0 -> forall name, is_Some (find_struct (structs example_parsed) name) -> is_Some (get_hash (structs example_parsed) name)).
Proof.
  assert ([str "-m"; str "a.zcm"; str "b.zcm"] = concat (written <$> [Letter (ch "m"); Input (str "a.zcm"); Input (str "b.zcm")])) as ->
    by (vm_compute; reflexivity).
  destruct (gen_show_missing false true example_tokens (fun _ => None) (fun _ => true) [Letter (ch "m"); Input (str "a.zcm"); Input (str "b.zcm")]
    example_file example_parsed) as (code&missing&E&_&_&C&H).
  - pose proof example_items_ok as F. unfold example_items in F.
    apply Forall_cons in F as [_ F]. apply Forall_cons in F as [Fa F]. apply Forall_cons in F as [_ F]. apply Forall_cons in F as [_ F].
    apply Forall_cons; split; [|apply Forall_cons; split; [exact Fa|exact F]].
    split; [done|]. split; [done|]. exists 8%nat. split; vm_compute; reflexivity.
  - exact example_files_read.
  - vm_compute. reflexivity.
  - vm_compute. reflexivity.
  - vm_compute. reflexivity.
  - vm_compute. reflexivity.
  - vm_compute. reflexivity.
  - vm_compute. reflexivity.
  - exists code, missing. split; [exact E|]. split; [exact C|exact H].
Defined.

(** Types without a package and with one are taken for one package in this order, not in the other. *)
Lemma package_order_matters pkg s1 s2 : pkg <> [] -> package (structname s1) = [] -> package (structname s2) = pkg ->
  common_package [] [s1; s2] = Some pkg /\ common_package [] [s2; s1] = None.
Proof.
  intros N E1 E2. cbn [common_package]. rewrite E1, E2, (bool_decide_eq_true_2 ([] = [])) by done. cbn [negb andb].
  rewrite (bool_decide_eq_false_2 (pkg = [])), (bool_decide_eq_false_2 ([] = pkg)) by congruence. done.
Qed.

(** A flag of C switched off with a zero is switched on, and the zero is an input file that is not found. *)
Lemma flag_zero_fails : main false true (fun _ => None) (fun _ => None) (fun _ => true) [str "-c"; str "--c-typeinfo=0"] = Some (mkAnswer (-1) [] []).
Proof. vm_compute. reflexivity. Qed.
