(* ===== verification/LogFile.v ===== *)
(** * Log files (zcm/eventlog.c, zcm/zcm-cpp-impl.hpp)

    Opening and closing event logs, and the class [LogFile] around them.  A disk
    has the contents of its files; what is written to an open log appears on the
    disk when the log is closed. *)
From S2P Require Import Prelude Bytes Transport Filter EventLog.
Local Open Scope Z_scope.

(** [space] bytes can be written to every file; [writable] tells which files can be opened for writing. *)
Record disk := mkDisk { files : gmap cstr (list byte); writable : cstr -> bool; space : nat }.

Definition set_contents (d : disk) (path : cstr) (c : list byte) : disk :=
  mkDisk (<[path := c]> (files d)) (writable d) (space d).

(** Reading starts at the beginning; writing truncates the file; appending keeps what is there. *)
Definition fopen (d : disk) (path mode : cstr) : option FILE * disk :=
  if bool_decide (mode = (str "rb")) then
    (match files d !! path with Some c => Some (mkFILE c 0 0) | None => None end, d)
  else if negb (writable d path) then (None, d)
  else
    let c := if bool_decide (mode = (str "wb")) then [] else default [] (files d !! path) in
    (Some (mkFILE c 0 (space d)), set_contents d path c).

(** [None] is the failed assertion about the mode. *)
Definition zcm_eventlog_create (d : disk) (path mode : cstr) : option (option eventlog * disk) :=
  check (bool_decide (mode = (str "r")) || bool_decide (mode = (str "w")) || bool_decide (mode = (str "a"))) ;;
  let mode := if bool_decide (mode = (str "w")) then (str "wb") else if bool_decide (mode = (str "r")) then (str "rb") else (str "ab") in
  let '(f, d) := fopen d path mode in
  Some (match f with Some f => Some (mkLog f 0) | None => None end, d).

(** What was written is on the disk. *)
Definition zcm_eventlog_destroy (d : disk) (path mode : cstr) (l : eventlog) : disk :=
  if bool_decide (mode = (str "r")) then d else set_contents d path (content (lfile l)).

(** ** The C++ class *)

Record LogEvent := mkLogEvent {
  le_eventnum : Z;
  le_timestamp : Z;
  le_channel : list byte;
  le_datalen : Z;
  le_data : list byte
}.

Record LogFile := mkLogFile { lf_path : cstr; lf_mode : cstr; lf_log : option eventlog }.

Definition LogFile_open (d : disk) (path mode : cstr) : option (LogFile * disk) :=
  '(l, d) <- zcm_eventlog_create d path mode ;; Some (mkLogFile path mode l, d).

Definition LogFile_good (lf : LogFile) : bool := if lf_log lf then true else false.

Definition LogFile_close (d : disk) (lf : LogFile) : disk :=
  match lf_log lf with Some l => zcm_eventlog_destroy d (lf_path lf) (lf_mode lf) l | None => d end.

(** The copy of the event that is handed out. *)
Definition cplusplusIfyEvent (evt : event) : LogEvent :=
  mkLogEvent (eventnum evt) (timestamp evt) (take (Z.to_nat (channellen evt)) (channel evt)) (datalen evt) (data evt).

Definition readNextEvent (l : eventlog) : option (option LogEvent * eventlog) :=
  match zcm_eventlog_read_next_event l with
  | Read evt l => Some (cplusplusIfyEvent <$> evt, l)
  | _ => None
  end.

Definition readEventAtOffset (l : eventlog) (offset : nat) : option (option LogEvent * eventlog) :=
  match zcm_eventlog_read_event_at_offset l offset with
  | Read evt l => Some (cplusplusIfyEvent <$> evt, l)
  | _ => None
  end.

Definition writeEvent (l : eventlog) (event : LogEvent) : option (bool * eventlog) :=
  zcm_eventlog_write_event l
    (mkEvent (le_eventnum event) (le_timestamp event) (wraps 32 (Z.of_nat (length (le_channel event))))
      (le_datalen event) (le_channel event) (le_data event)).

(** ** Opening *)

(** Comparisons of the mode with a known one. *)
Ltac simpl_modes := repeat match goal with |- context [bool_decide (str ?a = str ?b)] =>
  let v := eval vm_compute in (bool_decide (str a = str b)) in change (bool_decide (str a = str b)) with v; cbn [orb negb] end.

Lemma open_r d path : LogFile_open d path (str "r") =
  Some (mkLogFile path (str "r") ((fun c => mkLog (mkFILE c 0 0) 0) <$> files d !! path), d).
Proof. unfold LogFile_open, zcm_eventlog_create, fopen. simpl_modes. by destruct (files d !! path). Qed.

Lemma open_w d path : LogFile_open d path (str "w") =
  Some (if writable d path then (mkLogFile path (str "w") (Some (mkLog (mkFILE [] 0 (space d)) 0)), set_contents d path [])
        else (mkLogFile path (str "w") None, d)).
Proof. unfold LogFile_open, zcm_eventlog_create, fopen. simpl_modes. by destruct (writable d path). Qed.

Lemma open_a d path : writable d path = true -> LogFile_open d path (str "a") =
  Some (mkLogFile path (str "a") (Some (mkLog (mkFILE (default [] (files d !! path)) 0 (space d)) 0)),
        set_contents d path (default [] (files d !! path))).
Proof. intros W. unfold LogFile_open, zcm_eventlog_create, fopen. simpl_modes. by rewrite W. Qed.

Lemma close_w d path l : LogFile_close d (mkLogFile path (str "w") (Some l)) = set_contents d path (content (lfile l)).
Proof. done. Qed.

Lemma close_r d path l : LogFile_close d (mkLogFile path (str "r") l) = d.
Proof. by destruct l. Qed.
