(* ===== verification/LogRepair.v ===== *)
(** * Repairing logs (tools/cpp/log-repair/main.cpp)

    The tool reads the times and offsets of all events, sorts them, and copies the
    events in that order to a new log, which it then reads again.  Text output is
    not modelled, of the progress only the arithmetic. *)
From stdpp Require Import sorting.
From S2P Require Import Prelude Bytes Transport Filter EventLog LogFile.
Local Open Scope Z_scope.

Record Args := mkArgs { infile : cstr; outfile : cstr; verify : bool }.

(** The order of pairs of a time and an offset. *)
Definition pair_le (a b : Z * nat) : Prop := a.1 < b.1 \/ (a.1 = b.1 /\ (a.2 <= b.2)%nat).

#[export] Instance pair_le_dec a b : Decision (pair_le a b).
Proof. unfold pair_le. apply _. Defined.

(** std::sort; pairs that compare as equal are equal, so that the result does not depend on the algorithm. *)
Definition sort_pairs : list (Z * nat) -> list (Z * nat) := merge_sort pair_le.

(** The result of a loop: the tool returns, or goes on. *)
Inductive loop_result (A : Type) := Return (ret : Z) | GoOn (a : A).
Arguments Return {A}. Arguments GoOn {A}.

Section run.
(** Whether a signal has come by the n-th time the tool looks. *)
Variable done : nat -> bool.

(** [(100 * offset) / length] *)
Definition progress_defined (offset length : nat) : bool :=
  (100 * Z.of_nat offset <? 2 ^ 63) && negb (length =? 0)%nat.

Fixpoint read_times (fuel turn : nat) (verify : bool) (length : nat) (logIn : eventlog) (timestamps : list (Z * nat))
  : option (loop_result (nat * eventlog * list (Z * nat))) :=
  match fuel with
  | O => None
  | S fuel =>
      if done turn then Some (Return 1) else
      let offset := fpos (lfile logIn) in
      '(event, logIn) <- readNextEvent logIn ;;
      match event with
      | None => Some (GoOn (S turn, logIn, timestamps))
      | Some event =>
          if verify && match last timestamps with Some (t, _) => le_timestamp event <? t | None => false end
          then Some (Return 1) else
          check (progress_defined offset length) ;;
          read_times fuel (S turn) verify length logIn (timestamps ++ [(le_timestamp event, offset)])
      end
  end.

(** An event that is not there is a null pointer; the result of writing is ignored. *)
Fixpoint copy_events (turn : nat) (logIn logOut : eventlog) (timestamps : list (Z * nat))
  : option (eventlog * loop_result nat) :=
  match timestamps with
  | [] => Some (logOut, GoOn turn)
  | (_, offset) :: timestamps =>
      if done turn then Some (logOut, Return 1) else
      '(event, logIn) <- readEventAtOffset logIn offset ;;
      event <- event ;;
      '(_, logOut) <- writeEvent logOut event ;;
      copy_events (S turn) logIn logOut timestamps
  end.

(** The index behind the last event that was there; the message about a mismatch reads the time behind it. *)
Fixpoint check_output (fuel turn : nat) (logOut : eventlog) (timestamps : list (Z * nat)) (i : nat)
  : option (loop_result nat) :=
  match fuel with
  | O => None
  | S fuel =>
      if done turn then Some (Return 1) else
      '(event, logOut) <- readNextEvent logOut ;;
      match event with
      | None => Some (GoOn i)
      | Some event =>
          '(t, _) <- timestamps !! i ;;
          let i := S i in
          if negb (le_timestamp event =? t) then _ <- timestamps !! i ;; Some (Return 1) else
          check_output fuel (S turn) logOut timestamps i
      end
  end.

(** With the output log that is open at the end.  Every turn of the loops that read a log passes a record. *)
Definition run (d : disk) (args : Args) (logIn : eventlog) (logOut : LogFile) (length : nat)
  : option (Z * disk * LogFile) :=
  let fuel := S (List.length (content (lfile logIn))) in
  r <- read_times fuel 0 (verify args) length logIn [] ;;
  match r with
  | Return ret => Some (ret, d, logOut)
  | GoOn (turn, logIn, timestamps) =>
      if verify args then Some (0, d, logOut) else
      let timestamps := sort_pairs timestamps in
      out <- lf_log logOut ;;
      '(out, r) <- copy_events turn logIn out timestamps ;;
      let logOut := mkLogFile (lf_path logOut) (lf_mode logOut) (Some out) in
      match r with
      | Return ret => Some (ret, d, logOut)
      | GoOn turn =>
          let d := LogFile_close d logOut in
          '(logOut, d) <- LogFile_open d (if verify args then infile args else outfile args) (str "r") ;;
          match lf_log logOut with
          | None => Some (1, d, logOut)
          | Some out =>
              r <- check_output (S (List.length (content (lfile out)))) turn out timestamps 0 ;;
              match r with
              | Return ret => Some (ret, d, logOut)
              | GoOn i => Some (0, d, logOut)
              end
          end
      end
  end.

(** The logs that are opened, and the length of the input; the name of the input may be that of the output. *)
Definition init (d : disk) (args : Args) : option (option (eventlog * LogFile * nat) * disk) :=
  '(logIn, d) <- LogFile_open d (infile args) (str "r") ;;
  if negb (LogFile_good logIn) then Some (None, d) else
  '(logOut, d) <-
    (if negb (verify args) then LogFile_open d (outfile args) (str "w") else Some (mkLogFile [] (str "r") None, d)) ;;
  if negb (verify args) && negb (LogFile_good logOut) then Some (None, d) else
  (* the input is read from the disk as it is now *)
  c <- files d !! infile args ;;
  Some (Some (mkLog (mkFILE c 0 0) 0, logOut, List.length c), d).

(** The exit code and the disk; both logs are closed at the end. *)
Definition main (d : disk) (args : Args) : option (Z * disk) :=
  '(r, d) <- init d args ;;
  match r with
  | None => Some (1, d)
  | Some (logIn, logOut, length) =>
      '(ret, d, logOut) <- run d args logIn logOut length ;;
      Some (ret, LogFile_close d logOut)
  end.
End run.
