(* ===== verification/LogRepairProps.v ===== *)
(** * Repairing logs: the output is the input in the order of time

    The events of the output are those of the input, sorted by time, those of
    equal times in the order of the input. *)
From stdpp Require Import sorting.
From S2P Require Import Prelude Bytes Transport Filter EventLog EventLogProps LogFile LogRepair.
Local Open Scope Z_scope.

(** ** Single events *)

(** The event as it is handed out. *)
Definition handed (k : Z) (e : event) : LogEvent := cplusplusIfyEvent (numbered k e).

Lemma handed_timestamp k e : le_timestamp (handed k e) = timestamp e.
Proof. done. Qed.

Lemma write_handed l k e : valid e -> exists ok l',
  writeEvent l (handed k e) = Some (ok, l') /\
  (ok = true <-> (length (encode_event (eventcount l) e) <= room (lfile l))%nat) /\
  content (lfile l') = content (lfile l) ++ take (room (lfile l)) (encode_event (eventcount l) e) /\
  room (lfile l') = (room (lfile l) - length (encode_event (eventcount l) e))%nat /\
  ((length (encode_event (eventcount l) e) <= room (lfile l))%nat -> eventcount l' = eventcount l + 1).
Proof.
  intros V. assert (valid (numbered k e)) as V' by (by destruct V).
  unfold writeEvent, handed, cplusplusIfyEvent. cbn [le_eventnum le_timestamp le_channel le_datalen le_data].
  assert (take (Z.to_nat (channellen (numbered k e))) (channel (numbered k e)) = channel e) as ->.
  { cbn. rewrite (v_channel _ V), Nat2Z.id. apply firstn_all. }
  replace (wraps 32 _) with (channellen e).
  2: { rewrite <- (v_channel _ V), wraps_id; [done|lia|]. pose proof (v_clen _ V). unfold in_s. lia. }
  change (mkEvent _ _ _ _ _ _) with (numbered k e). rewrite (write_event_put _ _ V').
  change (encode_event _ (numbered k e)) with (encode_event (eventcount l) e). unfold put_bytes, fwrite.
  eexists _, _. split; [reflexivity|]. cbn [lfile content room eventcount]. split; [rewrite Nat.eqb_eq; lia|]. repeat split.
  - f_equal. destruct (decide (length (encode_event (eventcount l) e) <= room (lfile l))%nat).
    + rewrite Nat.min_l, firstn_all, take_ge by done. done.
    + by rewrite Nat.min_r by lia.
  - lia.
  - intros. by rewrite Nat.min_l, Nat.eqb_refl by done.
Qed.

(** The event as it is in a log. *)
Definition log_event (le : LogEvent) : event :=
  mkEvent (le_eventnum le) (le_timestamp le) (Z.of_nat (length (le_channel le))) (le_datalen le) (le_channel le) (le_data le).

Definition le_ok (le : LogEvent) : Prop := valid (log_event le).

Lemma handed_log_event le : handed (le_eventnum le) (log_event le) = le.
Proof. unfold handed, cplusplusIfyEvent. cbn. rewrite Nat2Z.id, firstn_all. by destruct le. Qed.

(** When a record does not fit, nothing fits behind it. *)
Lemma take_log_step r k k' e es : ((length (encode_event k e) <= r)%nat -> k' = k + 1) ->
  take r (encode_event k e) ++ take (r - length (encode_event k e)) (encode_log k' es) =
  take r (encode_event k e ++ encode_log (k + 1) es).
Proof.
  intros N. destruct (decide (length (encode_event k e) <= r)%nat) as [L|L].
  - rewrite N, take_app_ge, take_ge by done. done.
  - rewrite (take_app_le _ _ r) by lia. replace (r - _)%nat with 0%nat by lia. by rewrite take_0, app_nil_r.
Qed.

(** ** The records of a log with their places *)

(** Time, offset, number and event of every record. *)
Fixpoint records (p : nat) (k : Z) (es : list event) : list ((Z * nat) * (Z * event)) :=
  match es with
  | [] => []
  | e :: es => ((timestamp e, p), (k, e)) :: records (p + length (encode_event k e)) (k + 1) es
  end.

Definition rec_event (x : (Z * nat) * (Z * event)) : event := x.2.2.

(** The record is in the file at its offset. *)
Definition placed (c : list byte) (x : (Z * nat) * (Z * event)) : Prop :=
  let '((t, o), (k, e)) := x in t = timestamp e /\ valid e /\ in_s 64 k /\
  exists rest, drop o c = encode_event k e ++ rest /\ follows rest.

Lemma records_events p k es : rec_event <$> records p k es = es.
Proof. revert p k. induction es as [|e es IH]; intros p k; [done|]. cbn. by rewrite IH. Qed.

Lemma records_placed es : forall c p k t, Forall valid es -> 0 <= k -> k + Z.of_nat (length es) < 2 ^ 63 ->
  cut (k + Z.of_nat (length es)) t -> drop p c = encode_log k es ++ t -> Forall (placed c) (records p k es).
Proof.
  induction es as [|e es IH]; intros c p k t V H0 Hk Ht E; [constructor|]. cbn [records length encode_log] in *.
  apply Forall_cons in V as [Ve V]. rewrite <- app_assoc in E.
  replace (k + Z.of_nat (S (length es))) with (k + 1 + Z.of_nat (length es)) in * by lia. constructor.
  - split; [done|]. split; [done|]. split; [unfold in_s; lia|]. eexists. split; [exact E|]. by apply log_follows.
  - apply (IH _ _ _ t); auto; [lia|]. by apply drop_more.
Qed.

Lemma encode_event_length k e : (28 <= length (encode_event k e))%nat.
Proof. unfold encode_event, encode_body. rewrite !length_app, !length_encode64, !length_be_split. simpl. lia. Qed.

Lemma encode_log_length k es : (length es <= length (encode_log k es))%nat.
Proof.
  revert k. induction es as [|e es IH]; intros k; [done|]. cbn. rewrite length_app.
  pose proof (encode_event_length k e). specialize (IH (k + 1)). lia.
Qed.

Lemma encode_log_size k es :
  length (encode_log k es) = sum_list_with (fun e => 28 + length (channel e) + length (data e))%nat es.
Proof.
  revert k. induction es as [|e es IH]; intros k; [done|]. cbn [encode_log sum_list_with]. rewrite length_app, IH.
  unfold encode_event, encode_body. rewrite !length_app, !length_encode64, !length_be_split. simpl. lia.
Qed.

Lemma records_above es : forall p k x, x ∈ records p k es -> (p <= x.1.2)%nat.
Proof.
  induction es as [|e es IH]; intros p k x Hx; [by apply elem_of_nil in Hx|]. cbn in Hx.
  apply elem_of_cons in Hx as [->|Hx]; [done|]. apply IH in Hx. lia.
Qed.

(** ** The loops *)

(** Whether no time is smaller than the one before. *)
Fixpoint monotone_from (prev : option Z) (es : list event) : bool :=
  match es with
  | [] => true
  | e :: es => match prev with Some t => negb (timestamp e <? t) | None => true end && monotone_from (Some (timestamp e)) es
  end.

Section loops.
Context (done : nat -> bool) (not_done : forall n, done n = false).

Lemma read_times_spec vfy len es : forall fuel turn c p r n k t ts, Forall valid es -> 0 <= k ->
  k + Z.of_nat (length es) < 2 ^ 63 -> cut (k + Z.of_nat (length es)) t -> (length es < fuel)%nat ->
  at_boundary c p (encode_log k es ++ t) -> len = length c -> 100 * Z.of_nat len < 2 ^ 63 -> exists turn' q,
  read_times done fuel turn vfy len (log_at c p r n) ts =
  Some (if vfy && negb (monotone_from (fst <$> last ts) es) then Return 1
        else GoOn (turn', log_at c q r n, ts ++ (fst <$> records p k es))).
Proof.
  induction es as [|e es IH]; intros [|fuel] turn c p r n k t ts V H0 Hk Ht Hf E Hl HL; [simpl in Hf; lia| |simpl in Hf; lia|];
    cbn [read_times length] in *; rewrite not_done; unfold readNextEvent.
  - destruct (read_next_none c p r n _ t Ht) as [q ->]; [unfold in_s; lia|assumption|]. eexists _, q.
    cbn [fmap option_fmap option_map monotone_from negb]. rewrite andb_false_r. cbn. by rewrite app_nil_r.
  - apply Forall_cons in V as [Ve V]. replace (k + Z.of_nat (S (length es))) with (k + 1 + Z.of_nat (length es)) in * by lia.
    destruct (read_next_some c p r n k e es t Ve) as (p'&->&E'&Hp&Ed); [unfold in_s; lia|assumption..|].
    cbn [fmap option_fmap option_map monotone_from]. fold (handed k e). rewrite handed_timestamp.
    destruct (vfy && match last ts with Some (t0, _) => timestamp e <? t0 | None => false end) eqn:Ev.
    { exists 0%nat, 0%nat. apply andb_true_iff in Ev as [-> Ev]. destruct (last ts) as [[t0 o0]|]; [|done].
      cbn. by rewrite Ev. }
    assert (p < length c)%nat as Hpc.
    { apply (f_equal length) in Ed. rewrite length_drop, length_app in Ed. pose proof (encode_event_length k e). lia. }
    cbn [log_at lfile fpos]. unfold progress_defined. rewrite (proj2 (Z.ltb_lt _ _)), (proj2 (Nat.eqb_neq _ _)) by lia.
    cbn [negb andb].
    destruct (IH fuel (S turn) c p' r n (k + 1) t (ts ++ [(timestamp e, p)])) as (turn'&q&->); auto; try lia.
    exists turn', q. rewrite last_snoc. cbn [fmap option_fmap option_map fst].
    assert (records p' (k + 1) es = records (p + length (encode_event k e)) (k + 1) es) as ->
      by (destruct es; [done|by rewrite Hp]).
    rewrite <- app_assoc. destruct vfy; [|done]. cbn [andb] in *.
    destruct (last ts) as [[t0 o0]|]; cbn [fmap option_fmap option_map fst]; [rewrite Ev|]; done.
Qed.

(** Every event that is written is behind the earlier ones, as far as there is room. *)
Lemma copy_events_spec c r n xs : forall turn p out, Forall (placed c) xs -> exists turn' out',
  copy_events done turn (log_at c p r n) out (fst <$> xs) = Some (out', GoOn turn') /\
  content (lfile out') = content (lfile out) ++ take (room (lfile out)) (encode_log (eventcount out) (rec_event <$> xs)).
Proof.
  induction xs as [|[[tm o] [k e]] xs IH]; intros turn p out P; cbn [copy_events fmap list_fmap fst].
  - eexists _, _. split; [done|]. cbn. by rewrite take_nil, app_nil_r.
  - apply Forall_cons in P as [(->&V&Hk&rest&E&F) P]. rewrite not_done.
    unfold readEventAtOffset, zcm_eventlog_read_event_at_offset, zcm_eventlog_read_next_event.
    change (set_file (log_at c p r n) (seek (lfile (log_at c p r n)) o)) with (log_at c o r n).
    rewrite (read_next_record _ c o r n [] k e rest ltac:(constructor) ltac:(by intros []) Hk V E F).
    cbn [fmap option_fmap option_map]. fold (handed k e).
    destruct (write_handed out k e V) as (ok&out1&->&_&C1&R1&N1).
    destruct (IH (S turn) (o + length (@nil byte) + length (encode_event k e) + swallow rest)%nat out1 P) as (turn'&out'&->&C').
    eexists _, _. split; [done|]. rewrite C', C1, R1. cbn [rec_event encode_log snd]. rewrite <- app_assoc. f_equal.
    by apply take_log_step.
Qed.

(** The events that are there have the times that were expected. *)
Lemma check_output_spec es : forall fuel turn c p r n k t ts i rest, Forall valid es -> 0 <= k ->
  k + Z.of_nat (length es) < 2 ^ 63 -> cut (k + Z.of_nat (length es)) t -> (length es < fuel)%nat ->
  at_boundary c p (encode_log k es ++ t) -> drop i (fst <$> ts) = (timestamp <$> es) ++ rest ->
  check_output done fuel turn (log_at c p r n) ts i = Some (GoOn (i + length es)%nat).
Proof.
  induction es as [|e es IH]; intros [|fuel] turn c p r n k t ts i rest V H0 Hk Ht Hf E Hs;
    [simpl in Hf; lia| |simpl in Hf; lia|]; cbn [check_output length] in *; rewrite not_done; unfold readNextEvent.
  - destruct (read_next_none c p r n _ t Ht) as [q ->]; [unfold in_s; lia|assumption|]. cbn. by rewrite Nat.add_0_r.
  - apply Forall_cons in V as [Ve V]. replace (k + Z.of_nat (S (length es))) with (k + 1 + Z.of_nat (length es)) in * by lia.
    destruct (read_next_some c p r n k e es t Ve) as (p'&->&E'&_); [unfold in_s; lia|assumption..|].
    cbn [fmap option_fmap option_map]. fold (handed k e). rewrite handed_timestamp.
    assert (exists o, ts !! i = Some (timestamp e, o)) as [o ->].
    { assert ((fst <$> ts) !! i = Some (timestamp e)) as L.
      { rewrite <- (Nat.add_0_r i), <- lookup_drop, Hs. done. }
      apply list_lookup_fmap_Some in L as ([t0 o]&->&L). exists o. by rewrite L. }
    rewrite Z.eqb_refl. cbn [negb].
    rewrite (IH fuel (S turn) c p' r n (k + 1) t ts (S i) rest); auto; try lia; [by rewrite Nat.add_succ_r|].
    replace (S i) with (i + 1)%nat by lia. rewrite <- drop_drop, Hs. done.
Qed.
End loops.

(** ** Sorting *)

#[export] Instance pair_le_trans : Transitive pair_le.
Proof. intros [a1 a2] [b1 b2] [c1 c2]. unfold pair_le. cbn. lia. Qed.

#[export] Instance pair_le_total : Total pair_le.
Proof. intros [a1 a2] [b1 b2]. unfold pair_le. cbn. lia. Qed.

Definition rec_le (x y : (Z * nat) * (Z * event)) : Prop := pair_le x.1 y.1.

(** Sorting the places sorts the records. *)
Lemma sort_records xs : exists ys, sort_pairs (fst <$> xs) = fst <$> ys /\ ys ≡ₚ xs /\ StronglySorted rec_le ys.
Proof.
  pose proof (merge_sort_Permutation pair_le (fst <$> xs)) as P. apply Permutation_map_inv in P as (ys&E&P).
  exists ys. split; [exact E|]. split; [done|].
  pose proof (Sorted_StronglySorted _ _ (Sorted_merge_sort pair_le (fst <$> xs))) as S. rewrite E in S.
  change (StronglySorted pair_le (fst <$> ys)) in S. clear P E.
  induction ys as [|y ys IH]; [constructor|]. rewrite fmap_cons, StronglySorted_cons, Forall_fmap in S.
  destruct S as [F S]. constructor; [by apply IH|exact F].
Qed.

Lemma filter_sorted τ es : forall p k, StronglySorted rec_le (filter (fun x => x.1.1 = τ) (records p k es)).
Proof.
  induction es as [|e es IH]; intros p k; [constructor|]. cbn [records]. rewrite filter_cons. case_decide as D; [|apply IH].
  constructor; [apply IH|]. apply Forall_forall. intros x [Hx Hin]%list_elem_of_filter. apply records_above in Hin.
  right. cbn in *. split; [congruence|lia].
Qed.

(** A record is known by its place. *)
Lemma records_inj es : forall p k x y, x ∈ records p k es -> y ∈ records p k es -> x.1.2 = y.1.2 -> x = y.
Proof.
  induction es as [|e es IH]; intros p k x y Hx Hy E; [by apply elem_of_nil in Hx|]. cbn in Hx, Hy.
  pose proof (encode_event_length k e).
  apply elem_of_cons in Hx as [->|Hx], Hy as [->|Hy]; cbn in *; [done|apply records_above in Hy; lia|apply records_above in Hx; lia|].
  by eapply IH.
Qed.

Lemma filter_events t xs : Forall (fun x => x.1.1 = timestamp (rec_event x)) xs ->
  filter (fun e => timestamp e = t) (rec_event <$> xs) = rec_event <$> filter (fun x => x.1.1 = t) xs.
Proof.
  induction 1 as [|x xs E _ IH]; [done|]. rewrite fmap_cons, !filter_cons, E, IH. by case_decide.
Qed.

Lemma sorted_stable τ p k es ys : ys ≡ₚ records p k es -> StronglySorted rec_le ys ->
  filter (fun x => x.1.1 = τ) ys = filter (fun x => x.1.1 = τ) (records p k es).
Proof.
  intros P S. apply (StronglySorted_unique_strong rec_le).
  - intros x y [_ Hx]%list_elem_of_filter [_ Hy]%list_elem_of_filter Hxy Hyx. rewrite P in Hx.
    eapply records_inj; [done..|]. unfold rec_le, pair_le in *. lia.
  - clear P. induction S as [|y ys S IH F]; [constructor|]. rewrite filter_cons. case_decide; [|done].
    constructor; [done|]. rewrite Forall_forall in *. intros x [_ Hx]%list_elem_of_filter. auto.
  - apply filter_sorted.
  - by rewrite P.
Qed.

(** ** The tool *)

(** In the order of time, events of equal times as they were. *)
Definition repaired (es es' : list event) : Prop :=
  StronglySorted (fun e e' => timestamp e <= timestamp e') es' /\
  forall t, filter (fun e => timestamp e = t) es' = filter (fun e => timestamp e = t) es.

(** Nothing is lost or added. *)
Lemma repaired_perm es es' : repaired es es' -> es' ≡ₚ es.
Proof.
  intros [_ H]. revert es' H. induction es as [|e es IH]; intros es' H.
  - destruct es' as [|e es']; [done|]. specialize (H (timestamp e)). rewrite filter_cons_True in H; done.
  - assert (exists l1 l2, es' = l1 ++ e :: l2 /\ filter (fun e' => timestamp e' = timestamp e) l1 = []) as (l1&l2&->&N).
    { specialize (H (timestamp e)). rewrite (filter_cons_True _ e) in H by done. clear IH. revert H.
      induction es' as [|e' es' IH]; [done|]. rewrite filter_cons. case_decide as D.
      - intros [= -> _]. by exists [], es'.
      - intros H. destruct (IH H) as (l1&l2&->&N). exists (e' :: l1), l2. by rewrite filter_cons_False. }
    rewrite <- Permutation_middle. f_equiv. apply IH. intros t. specialize (H t).
    rewrite filter_app in *. rewrite !filter_cons in H. case_decide as D; [|done]. subst t.
    rewrite N in *. cbn in *. by injection H.
Qed.

Lemma sort_repairs p k es ys : ys ≡ₚ records p k es -> StronglySorted rec_le ys ->
  Forall (fun x => x.1.1 = timestamp (rec_event x)) (records p k es) -> repaired es (rec_event <$> ys).
Proof.
  intros P S T. assert (Forall (fun x => x.1.1 = timestamp (rec_event x)) ys) as T' by (by rewrite P). split.
  - clear P T. induction S as [|y ys S IH F]; [constructor|]. apply Forall_cons in T' as [Ty T']. constructor; [by apply IH|].
    apply Forall_fmap, Forall_forall. intros x Hx. cbn. rewrite Forall_forall in F, T'.
    specialize (F _ Hx). specialize (T' _ Hx). unfold rec_le, pair_le in F. lia.
  - intros t. rewrite filter_events, (sorted_stable t p k es ys) by done.
    rewrite <- filter_events by done. by rewrite records_events.
Qed.

Lemma boundary_start c s : c = s -> at_boundary c 0 s.
Proof. intros ->. by left. Qed.

Section tool.
Context (done : nat -> bool) (not_done : forall n, done n = false).
Context (d : disk) (es : list event) (t : list byte).
Context (V : Forall valid es) (L : Z.of_nat (length es) < 2 ^ 63) (T : cut (Z.of_nat (length es)) t).
Context (size_ok : 100 * Z.of_nat (length (encode_log 0 es ++ t)) < 2 ^ 63).

Lemma read_times_file vfy : exists turn q,
  read_times done (S (length (encode_log 0 es ++ t))) 0 vfy (length (encode_log 0 es ++ t))
    (log_at (encode_log 0 es ++ t) 0 0 0) [] =
  Some (if vfy && negb (monotone_from None es) then Return 1
        else GoOn (turn, log_at (encode_log 0 es ++ t) q 0 0, fst <$> records 0 0 es)).
Proof.
  apply (read_times_spec done not_done vfy _ es _ 0 _ 0 0 0 0 t []); auto; [lia| |by apply boundary_start].
  pose proof (encode_log_length 0 es). rewrite length_app. lia.
Qed.

(** What the output holds, however much room there is. *)
Lemma run_output infile outfile : infile <> outfile -> files d !! infile = Some (encode_log 0 es ++ t) ->
  writable d outfile = true -> exists es', repaired es es' /\
  forall m t', take (space d) (encode_log 0 es') = encode_log 0 (take m es') ++ t' -> (m <= length es')%nat ->
  cut (Z.of_nat m) t' ->
  main done d (mkArgs infile outfile false) = Some (0, set_contents d outfile (take (space d) (encode_log 0 es'))).
Proof.
  intros N I W. destruct (sort_records (records 0 0 es)) as (ys&Es&P&S). exists (rec_event <$> ys).
  assert (Forall (placed (encode_log 0 es ++ t)) (records 0 0 es)) as R by (by apply (records_placed es) with (t := t)).
  assert (repaired es (rec_event <$> ys)) as Rep.
  { apply (sort_repairs 0 0); [done..|]. eapply Forall_impl; [exact R|]. by intros [[? ?] [? ?]] [-> _]. }
  split; [done|]. intros m t' E Hm Ht. pose proof (repaired_perm _ _ Rep) as PE.
  unfold main, init. cbn [verify LogRepair.infile LogRepair.outfile negb]. rewrite open_r, open_w, I, W.
  cbn [fmap option_fmap option_map LogFile_good lf_log negb andb set_contents files].
  rewrite lookup_insert_ne, I by done. unfold run. cbn [verify lfile content lf_log].
  destruct (read_times_file false) as (turn&q&Er). unfold log_at in Er. rewrite Er. cbn [andb]. rewrite Es.
  rewrite <- P in R. destruct (copy_events_spec done not_done _ 0 0 ys turn q (mkLog (mkFILE [] 0 (space d)) 0) R)
    as (turn'&out'&Ec&Co). unfold log_at in Ec. cbn [lf_log]. rewrite Ec.
  cbn [lfile content room eventcount app] in Co. cbn [lf_path lf_mode]. rewrite close_w, open_r, Co.
  cbn [set_contents files]. rewrite lookup_insert_eq. cbn [fmap option_fmap option_map lf_log lfile content].
  change (mkLog (mkFILE ?c 0 0) 0) with (log_at c 0 0 0).
  rewrite E, (check_output_spec done not_done (take m (rec_event <$> ys)) _ _ _ 0 0 0 0 t' (fst <$> ys) 0
    (timestamp <$> drop m (rec_event <$> ys))).
  - rewrite close_r, <- E. unfold set_contents. cbn. by rewrite insert_insert_eq.
  - apply Forall_take. by rewrite PE.
  - lia.
  - rewrite length_take, PE. lia.
  - rewrite length_take. by replace (0 + _) with (Z.of_nat m) by lia.
  - pose proof (encode_log_length 0 (take m (rec_event <$> ys))). rewrite length_app. lia.
  - by apply boundary_start.
  - rewrite drop_0, <- fmap_app, take_drop, <- !list_fmap_compose.
    apply list_fmap_ext. intros i x Hx. apply list_elem_of_lookup_2 in Hx. rewrite Forall_forall in R.
    destruct x as [[? ?] [? ?]]. by destruct (R _ Hx) as [-> _].
Qed.
End tool.

(** C29: repairing a log gives a log with the same events in the order of time:
    the output is the encoding of a list that is sorted by timestamp and in which
    the events of every timestamp are those of the input in their order; the
    tool then reports success and leaves all other files as they were.  The
    input may end in a torn record, which is left out. *)
Theorem log_repair_sorts (done : nat -> bool) (d : disk) (infile outfile : cstr) (es : list event) (t : list byte) :
  (forall n, done n = false) -> Forall valid es -> Z.of_nat (length es) < 2 ^ 63 -> cut (Z.of_nat (length es)) t ->
  files d !! infile = Some (encode_log 0 es ++ t) -> 100 * Z.of_nat (length (encode_log 0 es ++ t)) < 2 ^ 63 ->
  infile <> outfile -> writable d outfile = true -> (length (encode_log 0 es) <= space d)%nat -> exists es',
  main done d (mkArgs infile outfile false) = Some (0, set_contents d outfile (encode_log 0 es')) /\
  StronglySorted (fun e e' => timestamp e <= timestamp e') es' /\
  forall τ, filter (fun e => timestamp e = τ) es' = filter (fun e => timestamp e = τ) es.
Proof.
  intros ND V L T I S N W Sp. destruct (run_output done ND d es t V L T S infile outfile N I W) as (es'&R&H).
  exists es'. split; [|exact R]. apply repaired_perm in R.
  assert (length (encode_log 0 es') = length (encode_log 0 es)) as El by (by rewrite !encode_log_size, R).
  specialize (H (length es') []). rewrite !firstn_all, app_nil_r, take_ge in H by lia.
  apply H; [done|done|by left].
Qed.

Lemma monotone_sorted es : forall prev, monotone_from prev es = true <->
  StronglySorted (fun e e' => timestamp e <= timestamp e') es /\ forall t e, prev = Some t -> head es = Some e -> t <= timestamp e.
Proof.
  induction es as [|e es IH]; intros prev; cbn [monotone_from head].
  - split; [intros _; split; [constructor|done]|done].
  - rewrite andb_true_iff, IH, StronglySorted_cons. split.
    + intros [Hp [S Hh]]. repeat split; auto.
      * destruct es as [|e' es]; [constructor|]. apply StronglySorted_cons in S as [F S].
        specialize (Hh _ _ eq_refl eq_refl). constructor; [done|]. eapply Forall_impl; [exact F|]. intros x Hx. cbn in Hx. lia.
      * intros t ? -> [= <-]. apply negb_true_iff in Hp. lia.
    + intros [[F S] Hp]. repeat split; auto.
      * destruct prev as [t|]; [|done]. specialize (Hp _ _ eq_refl eq_refl). lia.
      * intros ? e' [= <-] He. destruct es as [|? es]; [done|]. injection He as ->. by apply Forall_cons in F as [? _].
Qed.

(** In verify mode the tool changes nothing, and its exit code tells whether the
    times of the log never decrease. *)
Theorem log_verify_correct (done : nat -> bool) (d : disk) (infile outfile : cstr) (es : list event) (t : list byte) :
  (forall n, done n = false) -> Forall valid es -> Z.of_nat (length es) < 2 ^ 63 -> cut (Z.of_nat (length es)) t ->
  files d !! infile = Some (encode_log 0 es ++ t) -> 100 * Z.of_nat (length (encode_log 0 es ++ t)) < 2 ^ 63 ->
  exists ret, main done d (mkArgs infile outfile true) = Some (ret, d) /\ (ret = 0 \/ ret = 1) /\
  (ret = 0 <-> StronglySorted (fun e e' => timestamp e <= timestamp e') es).
Proof.
  intros ND V L T I S. unfold main, init. cbn [verify LogRepair.infile negb andb]. rewrite open_r, I.
  cbn [fmap option_fmap option_map LogFile_good lf_log negb]. unfold run. cbn [verify lfile content lf_log].
  destruct (read_times_file done ND es t V L T S true) as (turn&q&Er). unfold log_at in Er. rewrite Er. cbn [andb].
  assert (monotone_from None es = true <-> StronglySorted (fun e e' => timestamp e <= timestamp e') es) as M.
  { rewrite monotone_sorted. split; [by intros []|]. done. }
  destruct (monotone_from None es); cbn [negb].
  - exists 0. split; [done|]. split; [by left|]. split; [intros _; by apply M|done].
  - exists 1. split; [done|]. split; [by right|]. split; [done|]. intros Hs. by apply M in Hs.
Qed.

(** When the output has the name of the input, the log is erased, and the tool reports success. *)
Theorem log_repair_in_place_erases (d : disk) (file : cstr) (c : list byte) :
  files d !! file = Some c -> writable d file = true ->
  main (fun _ => false) d (mkArgs file file false) = Some (0, set_contents d file []).
Proof.
  intros I W. unfold main, init. cbn [verify LogRepair.infile LogRepair.outfile negb]. rewrite open_r, open_w, I, W.
  cbn [fmap option_fmap option_map LogFile_good lf_log negb andb set_contents files]. rewrite lookup_insert_eq.
  unfold run. cbn [verify lfile content lf_log length]. cbn -[LogFile_close LogFile_open]. rewrite close_w, open_r.
  cbn [set_contents files]. rewrite lookup_insert_eq. cbn -[LogFile_close]. rewrite close_r.
  unfold set_contents. cbn. by rewrite !insert_insert_eq.
Qed.

(** What fits of a log: whole records and part of one. *)
Lemma take_log es : forall k r, Forall valid es -> clean_log k es -> exists m t,
  take r (encode_log k es) = encode_log k (take m es) ++ t /\ (m <= length es)%nat /\ cut (k + Z.of_nat m) t /\
  ((r < length (encode_log k es))%nat -> (m < length es)%nat).
Proof.
  induction es as [|e es IH]; intros k r V C.
  { exists 0%nat, []. cbn. rewrite take_nil. split; [done|]. split; [lia|]. split; [by left|lia]. }
  apply Forall_cons in V as [Ve V]. destruct C as [Ce C]. cbn [encode_log length]. rewrite length_app.
  destruct (decide (length (encode_event k e) <= r)%nat) as [L|L].
  - destruct (IH (k + 1) (r - length (encode_event k e))%nat V C) as (m&t&E&Hm&Ht&Hr). exists (S m), t.
    rewrite take_app_ge, E by done. cbn [take encode_log]. rewrite <- app_assoc. split; [done|]. split; [lia|].
    split; [by replace (k + Z.of_nat (S m)) with (k + 1 + Z.of_nat m) by lia|]. intros. apply -> Nat.succ_lt_mono. apply Hr. lia.
  - exists 0%nat, (take r (encode_event k e)). rewrite take_app_le by lia. split; [done|]. split; [lia|]. split; [|lia].
    right. exists e. rewrite Z.add_0_r. split_and!; [done|done|apply prefix_take|rewrite length_take; lia].
Qed.

Lemma clean_everywhere es : forall k n, (forall j e, 0 <= j < n -> e ∈ es -> clean j e) -> 0 <= k -> k + Z.of_nat (length es) <= n ->
  clean_log k es.
Proof.
  induction es as [|e es IH]; intros k n H H0 Hn; [done|]. cbn [clean_log length] in *. split.
  - apply H; [lia|by left].
  - apply (IH _ n); [|lia|lia]. intros. apply H; [done|by right].
Qed.

(** A full disk goes unnoticed: however little of the output fits, the tool
    reports success, and when not everything fits whole events are missing. *)
Theorem log_repair_hides_full_disk (done : nat -> bool) (d : disk) (infile outfile : cstr) (es : list event) :
  (forall n, done n = false) -> Forall valid es -> Z.of_nat (length es) < 2 ^ 63 ->
  (forall k e, 0 <= k < Z.of_nat (length es) -> e ∈ es -> clean k e) ->
  files d !! infile = Some (encode_log 0 es) -> 100 * Z.of_nat (length (encode_log 0 es)) < 2 ^ 63 ->
  infile <> outfile -> writable d outfile = true -> (space d < length (encode_log 0 es))%nat ->
  exists es' m t, (m < length es)%nat /\ cut (Z.of_nat m) t /\
  main done d (mkArgs infile outfile false) = Some (0, set_contents d outfile (encode_log 0 (take m es') ++ t)).
Proof.
  intros ND V L C I S N W Sp. rewrite <- (app_nil_r (encode_log 0 es)) in I, S.
  destruct (run_output done ND d es [] V L (or_introl eq_refl) S infile outfile N I W) as (es'&R&H).
  apply repaired_perm in R. assert (length (encode_log 0 es') = length (encode_log 0 es)) as El by (by rewrite !encode_log_size, R).
  destruct (take_log es' 0 (space d)) as (m&t&E&Hm&Ht&Hr); [by rewrite R| |].
  { apply (clean_everywhere _ _ (Z.of_nat (length es))); [|lia|rewrite R; lia]. intros. apply C; [done|by rewrite <- R]. }
  assert (length es' = length es) as Le by (by rewrite R). specialize (Hr ltac:(lia)).
  exists es', m, t. split; [lia|]. split; [done|]. rewrite <- E. by apply (H m t).
Qed.

(** ** Examples *)

Definition example_at (t : Z) : event := mkEvent 0 t 2 3 [72; 73] [1; 2; 3].
Definition example_disk (space : nat) : disk :=
  mkDisk {[(str "in") := encode_log 0 [example_at 20; example_at 10]]} (fun _ => true) space.

Lemma examples_valid : Forall valid [example_at 20; example_at 10].
Proof. repeat constructor; by vm_compute. Qed.

Lemma log_repair_sorts_witness : exists es',
  main (fun _ => false) (example_disk 100) (mkArgs (str "in") (str "out") false) =
    Some (0, set_contents (example_disk 100) (str "out") (encode_log 0 es')) /\
  StronglySorted (fun e e' => timestamp e <= timestamp e') es' /\
  forall τ, filter (fun e => timestamp e = τ) es' = filter (fun e => timestamp e = τ) [example_at 20; example_at 10].
Proof.
  apply (log_repair_sorts (fun _ => false) (example_disk 100) (str "in") (str "out") [example_at 20; example_at 10] []);
    [done|exact examples_valid|by vm_compute|by left|rewrite app_nil_r; by vm_compute|by vm_compute|done|done|].
  apply Nat.leb_le. by vm_compute.
Defined.
