(* ===== verification/FileTransport.v ===== *)
(** * The log-file transport (zcm/transport/transport_file.cpp)

    Sending appends an event to a log; receiving plays a log back at the speed of
    its time stamps.  Time is explicit: [usleep] lets it pass, and every look at
    the clock comes an arbitrary while after the last. *)
From Stdlib Require Import SpecFloat.
From S2P Require Import Prelude Bytes Transport Filter EventLog LogFile Url CNum.
Local Open Scope Z_scope.

(** The clock: the time in microseconds, and what will pass until the next looks at it. *)
Record clock := mkClock { time : Z; delays : list Z }.

Definition clock_utime (c : clock) : Z * clock :=
  let t := time c + default 0 (head (delays c)) in (t, mkClock t (tail (delays c))).

Definition usleep (us : Z) (c : clock) : clock := mkClock (time c + us) (delays c).

Record TransportFile := mkTF {
  tf_log : option LogFile;
  tf_mode : cstr;
  tf_speed : spec_float;
  lastMsgUtime : Z;
  lastDispatchUtime : Z;
  tf_clock : clock
}.

(** The largest [ssize_t]. *)
Definition FILE_MTU : Z := 2 ^ 63 - 1.

(** The last option of a name counts. *)
Definition findOption (options : list (cstr * cstr)) (s : cstr) : option cstr :=
  fold_left (fun r o => if bool_decide (o.1 = s) then Some o.2 else r) options None.

Definition atof (s : cstr) : spec_float :=
  match strtod s with Some (x, _, _) => x | None => zero end.

Definition good (t : TransportFile) : bool :=
  match tf_log t with Some log => LogFile_good log | None => false end.

(** The constructor; after a bad option there is no log. *)
Definition tf_construct (d : disk) (c : clock) (url : zcm_url) : option (TransportFile * disk) :=
  let options := zcm_url_opts url in
  let speedStr := findOption options (str "speed") in
  let speed := match speedStr with Some s => atof s | None => of_Z 1 end in
  if match speedStr with Some _ => dle speed zero | None => false end
  then Some (mkTF None (str "r") speed 0 0 c, d) else
  let modeStr := findOption options (str "mode") in
  let mode := default (str "r") modeStr in
  if negb (bool_decide (mode = str "r") || bool_decide (mode = str "w") || bool_decide (mode = str "a"))
  then Some (mkTF None mode speed 0 0 c, d) else
  '(log, d) <- LogFile_open d (address url) mode ;;
  Some (mkTF (Some log) mode speed 0 0 c, d).

Definition tf_destroy (d : disk) (t : TransportFile) : disk :=
  match tf_log t with Some log => LogFile_close d log | None => d end.

Definition tf_create (d : disk) (c : clock) (url : zcm_url) : option (option TransportFile * disk) :=
  '(trans, d) <- tf_construct d c url ;;
  if good trans then Some (Some trans, d) else Some (None, tf_destroy d trans).

Definition set_log (t : TransportFile) (log : option LogFile) : TransportFile :=
  mkTF log (tf_mode t) (tf_speed t) (lastMsgUtime t) (lastDispatchUtime t) (tf_clock t).
Definition set_clock (t : TransportFile) (c : clock) : TransportFile :=
  mkTF (tf_log t) (tf_mode t) (tf_speed t) (lastMsgUtime t) (lastDispatchUtime t) c.
Definition set_last (t : TransportFile) (msg dispatch : Z) : TransportFile :=
  mkTF (tf_log t) (tf_mode t) (tf_speed t) msg dispatch (tf_clock t).

(** The open log, and the same with another state. *)
Definition open_log (t : TransportFile) : option eventlog := log <- tf_log t ;; lf_log log.
Definition with_log (t : TransportFile) (l : eventlog) : TransportFile :=
  set_log t ((fun log => mkLogFile (lf_path log) (lf_mode log) (Some l)) <$> tf_log t).

(** [eventnum] is not set; the log numbers its events itself. *)
Definition tf_sendmsg (t : TransportFile) (msg : zcm_msg_t) : option (TransportFile * Z) :=
  check (good t) ;;
  check (bool_decide (tf_mode t = str "w") || bool_decide (tf_mode t = str "a")) ;;
  if FILE_MTU <? len msg then Some (t, ZCM_EINVALID) else
  l <- open_log t ;;
  '(_, l) <- writeEvent l (mkLogEvent 0 (wraps 64 (utime msg)) (Transport.channel msg) (wraps 32 (len msg)) (buf msg)) ;;
  Some (with_log t l, ZCM_EOK).

(** [logDiff / this->speed] as an integer. *)
Definition scaled_diff (speed : spec_float) (logDiff : Z) : option Z := to_u64 (ddiv (of_Z logDiff) speed).

(** What [recvmsg] does with the message it has read: wait until it is due, or
    until the timeout. *)
Definition tf_pace (t : TransportFile) (timeoutUs : Z) (msg : zcm_msg_t) : option (TransportFile * Z * option zcm_msg_t) :=
  let '(now, c) := clock_utime (tf_clock t) in
  let t := set_clock t c in
  let t := if lastMsgUtime t =? 0 then set_last t (utime msg) (lastDispatchUtime t) else t in
  let t := if lastDispatchUtime t =? 0 then set_last t (lastMsgUtime t) now else t in
  let localDiff := wrapu 64 (now - lastDispatchUtime t) in
  let logDiff := wrapu 64 (utime msg - lastMsgUtime t) in
  logDiffSpeed <- scaled_diff (tf_speed t) logDiff ;;
  let diff := if localDiff <? logDiffSpeed then logDiffSpeed - localDiff else 0 in
  let dispatch t :=
    let '(now', c) := clock_utime (tf_clock t) in
    Some (set_last (set_clock t c) (utime msg) now', ZCM_EOK, Some msg) in
  if 0 <? diff then
    let '(now', c) := clock_utime (usleep (Z.min diff timeoutUs) (tf_clock t)) in
    let t := set_clock t c in
    if now' <? wrapu 64 (now + diff) then Some (t, ZCM_EAGAIN, None) else dispatch t
  else dispatch t.

(** The product with 1000 is one of 32-bit numbers. *)
Definition tf_recvmsg (t : TransportFile) (timeoutMs : Z) : option (TransportFile * Z * option zcm_msg_t) :=
  check (bool_decide (tf_mode t = str "r")) ;;
  let timeoutUs := wrapu 32 (timeoutMs * 1000) in
  if negb (good t) then
    Some (if 0 <? timeoutMs then set_clock t (usleep timeoutUs (tf_clock t)) else t, ZCM_ECONNECT, None)
  else
    l <- open_log t ;;
    '(le, l) <- readNextEvent l ;;
    match le with
    | None => Some (set_log t None, ZCM_ECONNECT, None)
    | Some le =>
        tf_pace (with_log t l) timeoutUs
          (mkMsg (wrapu 64 (le_timestamp le)) (cstring (le_channel le ++ [0])) (wrapu 32 (le_datalen le)) (le_data le))
    end.

#[export] Instance file_transport : Transport TransportFile :=
  {| trans_type _ := ZCM_BLOCKING;
     get_mtu _ := FILE_MTU;
     sendmsg := tf_sendmsg;
     recvmsg_enable t _ _ := (t, ZCM_EOK);
     recvmsg := tf_recvmsg;
     query_drops := None;
     update t := None |}.
