(* ===== verification/FileTransportProps.v ===== *)
(** * The log-file transport: what is sent is played back *)
From Stdlib Require Import SpecFloat.
From stdpp Require Import sorting.
From S2P Require Import Prelude Bytes Transport Filter EventLog EventLogProps LogFile LogRepair LogRepairProps.
From S2P Require Import Url CNum FileTransport.
Local Open Scope Z_scope.

(** ** Messages and events *)

Definition msg_event (m : zcm_msg_t) : event :=
  mkEvent 0 (utime m) (Z.of_nat (length (Transport.channel m))) (len m) (Transport.channel m) (buf m).

Record loggable (m : zcm_msg_t) : Prop := mkLoggable {
  lg_time : 0 <= utime m < 2 ^ 63;
  lg_channel : cstr_ok (Transport.channel m);
  lg_clen : (0 < length (Transport.channel m) < 1000)%nat;
  lg_len : len m = Z.of_nat (length (buf m));
  lg_max : len m < 2 ^ 31 - 1;
  lg_buf : bytes_ok (buf m)
}.

Lemma loggable_valid m : loggable m -> valid (msg_event m).
Proof.
  intros []. constructor; cbn; auto; try (unfold in_s; lia). apply Forall_app. split; [|done]. by apply cstr_ok_bytes.
Qed.

(** ** Sending *)

(** A transport that writes the log [l]. *)
Definition writing (t : TransportFile) (path mode : cstr) (l : eventlog) : Prop :=
  tf_log t = Some (mkLogFile path mode (Some l)) /\ tf_mode t = mode /\ (mode = str "w" \/ mode = str "a").

Lemma send_event t path mode l m : writing t path mode l -> loggable m -> exists t' l',
  tf_sendmsg t m = Some (t', ZCM_EOK) /\ writing t' path mode l' /\
  content (lfile l') = content (lfile l) ++ take (room (lfile l)) (encode_event (eventcount l) (msg_event m)) /\
  room (lfile l') = (room (lfile l) - length (encode_event (eventcount l) (msg_event m)))%nat /\
  ((length (encode_event (eventcount l) (msg_event m)) <= room (lfile l))%nat -> eventcount l' = eventcount l + 1).
Proof.
  intros (Hl&Hm&Hw) G. destruct (write_handed l 0 (msg_event m) (loggable_valid m G)) as (ok&l'&E&_&C&R&N).
  unfold tf_sendmsg, good, open_log. rewrite Hl, Hm. cbn [LogFile_good lf_log].
  assert (bool_decide (mode = str "w") || bool_decide (mode = str "a") = true) as ->
    by (apply orb_true_iff; rewrite !bool_decide_eq_true; tauto).
  pose proof G as []. rewrite (proj2 (Z.ltb_ge FILE_MTU (len m))) by (unfold FILE_MTU; lia).
  assert (mkLogEvent 0 (wraps 64 (utime m)) (Transport.channel m) (wraps 32 (len m)) (buf m) = handed 0 (msg_event m)) as ->.
  { unfold handed, cplusplusIfyEvent. cbn. rewrite Nat2Z.id, firstn_all, !wraps_id by (try lia; unfold in_s; lia). done. }
  rewrite E. eexists _, l'. split; [reflexivity|]. split; [|done]. unfold writing, with_log. cbn. by rewrite Hl.
Qed.

Fixpoint send_all (t : TransportFile) (ms : list zcm_msg_t) : option (TransportFile * list Z) :=
  match ms with
  | [] => Some (t, [])
  | m :: ms => '(t, rc) <- tf_sendmsg t m ;; '(t, rcs) <- send_all t ms ;; Some (t, rc :: rcs)
  end.

(** Sending reports success, whatever fits. *)
Lemma send_all_spec ms : forall t path mode l, writing t path mode l -> Forall loggable ms -> exists t' l',
  send_all t ms = Some (t', replicate (length ms) ZCM_EOK) /\ writing t' path mode l' /\
  content (lfile l') = content (lfile l) ++ take (room (lfile l)) (encode_log (eventcount l) (msg_event <$> ms)).
Proof.
  induction ms as [|m ms IH]; intros t path mode l W G; cbn [send_all].
  - exists t, l. cbn. rewrite take_nil, app_nil_r. done.
  - apply Forall_cons in G as [Gm G]. destruct (send_event t path mode l m W Gm) as (t1&l1&->&W1&C1&R1&N1).
    destruct (IH t1 path mode l1 W1 G) as (t'&l'&->&W'&C'). exists t', l'. split; [done|]. split; [done|].
    rewrite C', C1, R1. cbn [fmap list_fmap encode_log]. rewrite <- app_assoc. f_equal. apply take_log_step. exact N1.
Qed.

(** ** Receiving *)

(** The clock stays in its range for [n] more receptions: each looks three times and sleeps less than 2^32 microseconds. *)
Definition clock_ok (n : nat) (c : clock) : Prop :=
  0 < time c /\ Forall (fun x => 0 <= x <= 2 ^ 32) (delays c) /\ time c + Z.of_nat n * 2 ^ 35 < 2 ^ 63.

Lemma clock_look c : Forall (fun x => 0 <= x <= 2 ^ 32) (delays c) -> exists t c', clock_utime c = (t, c') /\ time c' = t /\
  time c <= t <= time c + 2 ^ 32 /\ Forall (fun x => 0 <= x <= 2 ^ 32) (delays c').
Proof.
  intros F. unfold clock_utime. eexists _, _. split; [reflexivity|]. cbn. split; [done|].
  destruct (delays c) as [|x xs]; cbn; [split; [lia|done]|]. apply Forall_cons in F as [? ?]. split; [lia|done].
Qed.

(** The transport between two receptions. *)
Record resting (t : TransportFile) (n : nat) : Prop := mkResting {
  rs_clock : clock_ok n (tf_clock t);
  rs_dispatch : 0 <= lastDispatchUtime t <= time (tf_clock t)
}.

(** The difference of time stamps that counts for the next message. *)
Definition next_diff (t : TransportFile) (u : Z) : Z := if lastMsgUtime t =? 0 then 0 else wrapu 64 (u - lastMsgUtime t).

(** The state in which the waiting time is computed. *)
Lemma pace_start t now c u : time c = now -> 0 < now -> 0 <= lastDispatchUtime t <= now ->
  let t1 := set_clock t c in
  let t2 := if lastMsgUtime t1 =? 0 then set_last t1 u (lastDispatchUtime t1) else t1 in
  let t3 := if lastDispatchUtime t2 =? 0 then set_last t2 (lastMsgUtime t2) now else t2 in
  tf_log t3 = tf_log t /\ tf_mode t3 = tf_mode t /\ tf_speed t3 = tf_speed t /\ tf_clock t3 = c /\
  0 <= lastDispatchUtime t3 <= now /\ wrapu 64 (u - lastMsgUtime t3) = next_diff t u.
Proof.
  intros <- H0 H1. unfold next_diff. cbn. destruct (lastMsgUtime t =? 0) eqn:E; cbn; destruct (lastDispatchUtime t =? 0); cbn;
    rewrite ?E; split_and!; auto; try lia; by rewrite ?Z.sub_diag.
Qed.

(** A message is given out unless it is due later than the timeout; in both cases the log has moved on. *)
Lemma pace_spec t n timeoutUs m s : resting t (S n) -> 0 <= timeoutUs < 2 ^ 32 ->
  scaled_diff (tf_speed t) (next_diff t (utime m)) = Some s -> 0 <= s ->
  exists t' rc out, tf_pace t timeoutUs m = Some (t', rc, out) /\
  tf_log t' = tf_log t /\ tf_mode t' = tf_mode t /\ tf_speed t' = tf_speed t /\ resting t' n /\
  ((rc = ZCM_EOK /\ out = Some m /\ lastMsgUtime t' = utime m) \/ (rc = ZCM_EAGAIN /\ out = None /\ timeoutUs < s)).
Proof.
  intros [(Ht0&Hd&Hb) [Hl0 Hl1]] Hto Hs Hs0. unfold tf_pace.
  destruct (clock_look _ Hd) as (now&c1&->&Hc1&Hn&Hd1).
  destruct (pace_start t now c1 (utime m) Hc1 ltac:(lia) ltac:(lia)) as (El&Em&Es&Ec&Hl&Ew). revert El Em Es Ec Hl Ew.
  cbv zeta. match goal with |- context [scaled_diff (tf_speed ?x)] => generalize x as t3; intros t3 end.
  intros El Em Es Ec Hl Ew. rewrite Es, Ew, Hs. rewrite (wrapu_id 64 (now - _)) by (unfold in_u; lia).
  set (diff := if _ <? s then _ else 0).
  assert (0 <= diff <= s) as Hdiff by (subst diff; destruct (Z.ltb_spec (now - lastDispatchUtime t3) s); lia).
  clearbody diff. rewrite Ec. destruct (0 <? diff) eqn:D0.
  - destruct (clock_look (usleep (Z.min diff timeoutUs) c1) Hd1) as (now'&c2&->&Hc2&Hn'&Hd2). cbn [usleep time] in Hn'.
    destruct (now' <? wrapu 64 (now + diff)) eqn:D1.
    + eexists _, _, _. split; [reflexivity|]. cbn. split_and!; auto.
      * split; [split_and!; cbn; auto; lia|cbn; lia].
      * right. split_and!; auto. destruct (decide (timeoutUs < s)); [done|exfalso].
        rewrite wrapu_id in D1 by (unfold in_u; lia). lia.
    + cbn [set_clock tf_clock]. destruct (clock_look c2 Hd2) as (now''&c3&->&Hc3&Hn''&Hd3).
      eexists _, _, _. split; [reflexivity|]. cbn. split_and!; auto. split; [split_and!; cbn; auto; lia|cbn; lia].
  - destruct (clock_look c1 Hd1) as (now''&c3&->&Hc3&Hn''&Hd3).
    eexists _, _, _. split; [reflexivity|]. cbn. split_and!; auto. split; [split_and!; cbn; auto; lia|cbn; lia].
Qed.

Fixpoint recv_all (n : nat) (t : TransportFile) (timeoutMs : Z) : option (list (Z * option zcm_msg_t)) :=
  match n with
  | O => Some []
  | S n => '(t, rc, out) <- tf_recvmsg t timeoutMs ;; rest <- recv_all n t timeoutMs ;; Some ((rc, out) :: rest)
  end.

(** A transport that plays the file [c] from [p]. *)
Definition playing (t : TransportFile) (c : list byte) (p : nat) : Prop :=
  (exists path, tf_log t = Some (mkLogFile path (str "r") (Some (log_at c p 0 0)))) /\ tf_mode t = str "r".

(** The message that [recvmsg] makes of an event. *)
Lemma event_msg k m : loggable m -> let le := handed k (msg_event m) in
  mkMsg (wrapu 64 (le_timestamp le)) (cstring (le_channel le ++ [0])) (wrapu 32 (le_datalen le)) (le_data le) = m.
Proof.
  intros []. unfold handed, cplusplusIfyEvent. cbn. rewrite Nat2Z.id, firstn_all, cstring_app by done.
  rewrite !wrapu_id by (unfold in_u; lia). by destruct m.
Qed.

(** One reception: the next event of the log is given out, or lost because it is due too late. *)
Lemma recv_event t n c p k m es tl timeoutMs s : playing t c p -> loggable m -> in_s 64 k ->
  cut (k + 1 + Z.of_nat (length es)) tl -> at_boundary c p (encode_log k (msg_event m :: es) ++ tl) ->
  resting t (S n) -> scaled_diff (tf_speed t) (next_diff t (utime m)) = Some s -> 0 <= s ->
  exists t' p' rc out, tf_recvmsg t timeoutMs = Some (t', rc, out) /\ playing t' c p' /\
  at_boundary c p' (encode_log (k + 1) es ++ tl) /\ tf_speed t' = tf_speed t /\ resting t' n /\
  ((rc = ZCM_EOK /\ out = Some m /\ lastMsgUtime t' = utime m) \/
   (rc = ZCM_EAGAIN /\ out = None /\ wrapu 32 (timeoutMs * 1000) < s)).
Proof.
  intros [[path Hl] Hm] G Hk Ht E R Hs Hs0. unfold tf_recvmsg, good, open_log. rewrite Hm, Hl. cbn [LogFile_good lf_log].
  rewrite bool_decide_eq_true_2 by done. cbn [negb]. unfold readNextEvent.
  destruct (read_next_some c p 0 0 k (msg_event m) es tl (loggable_valid m G) Hk Ht E) as (p'&->&E'&_&_).
  cbn [fmap option_fmap option_map]. fold (handed k (msg_event m)). rewrite (event_msg k m G).
  assert (0 <= wrapu 32 (timeoutMs * 1000) < 2 ^ 32) as Hto by (apply wrapu_range; lia).
  destruct (pace_spec (with_log t (log_at c p' 0 0)) n (wrapu 32 (timeoutMs * 1000)) m s) as (t'&rc&out&->&El&Em&Es&R'&H'); auto; [by destruct R|].
  exists t', p', rc, out. split; [done|]. split_and!; auto.
  split; [exists path; by rewrite El; unfold with_log; cbn; rewrite Hl|by rewrite Em].
Qed.

Lemma recv_end t c p k tl timeoutMs : playing t c p -> cut k tl -> in_s 64 k -> at_boundary c p tl ->
  exists t', tf_recvmsg t timeoutMs = Some (t', ZCM_ECONNECT, None).
Proof.
  intros [[path Hl] Hm] Ht Hk E. unfold tf_recvmsg, good, open_log. rewrite Hm, Hl. cbn [LogFile_good lf_log].
  rewrite bool_decide_eq_true_2 by done. cbn [negb]. unfold readNextEvent.
  destruct (read_next_none c p 0 0 k tl Ht Hk E) as [q ->]. by eexists.
Qed.

(** The next time stamp is at most [gap] behind the last. *)
Fixpoint paced (gap prev : Z) (ms : list zcm_msg_t) : Prop :=
  match ms with
  | [] => True
  | m :: ms => (prev = 0 \/ prev <= utime m <= prev + gap) /\ paced gap (utime m) ms
  end.

Lemma recv_all_spec gap timeoutMs ms : forall t c p k tl, playing t c p -> Forall loggable ms -> 0 <= k ->
  k + Z.of_nat (length ms) < 2 ^ 63 -> cut (k + Z.of_nat (length ms)) tl ->
  at_boundary c p (encode_log k (msg_event <$> ms) ++ tl) -> resting t (length ms) -> paced gap (lastMsgUtime t) ms ->
  0 <= gap < 2 ^ 63 ->
  (forall x, 0 <= x <= gap -> exists s, scaled_diff (tf_speed t) x = Some s /\ 0 <= s <= wrapu 32 (timeoutMs * 1000)) ->
  recv_all (S (length ms)) t timeoutMs = Some (((fun m => (ZCM_EOK, Some m)) <$> ms) ++ [(ZCM_ECONNECT, None)]).
Proof.
  induction ms as [|m ms IH]; intros t c p k tl P G H0 Hk Ht E R Pc Hg Hs; cbn [recv_all length] in *.
  - destruct (recv_end t c p _ tl timeoutMs P Ht) as [t' ->]; [unfold in_s; lia|done|done].
  - apply Forall_cons in G as [Gm G]. destruct Pc as [Pm Pc].
    replace (k + Z.of_nat (S (length ms))) with (k + 1 + Z.of_nat (length ms)) in * by lia.
    assert (0 <= next_diff t (utime m) <= gap) as Hd.
    { unfold next_diff. destruct (Z.eqb_spec (lastMsgUtime t) 0); [lia|]. rewrite wrapu_id; unfold in_u; lia. }
    destruct (Hs _ Hd) as (s&Es&Hs0&Hs1).
    destruct (recv_event t (length ms) c p k m (msg_event <$> ms) tl timeoutMs s P Gm) as (t'&p'&rc&out&->&P'&E'&Sp&R'&[(->&->&Hu)|(_&_&?)]);
      [unfold in_s; lia|by rewrite length_fmap|done|done|done|done| |lia].
    rewrite (IH t' c p' (k + 1) tl P' G); auto; [lia|by rewrite Hu|by rewrite Sp].
Qed.

(** ** From one transport to the other *)

Definition url_write (path mode : cstr) : zcm_url := mkUrl (str "file") path [mkOpt (str "mode") mode].
Definition url_read (path speed : cstr) : zcm_url := mkUrl (str "file") path [mkOpt (str "speed") speed].

(** The messages are sent to a new log, which is closed and then played: the return codes of sending,
    and return codes and messages of receiving until the end. *)
Definition record_and_play (d : disk) (c c' : clock) (path speed : cstr) (ms : list zcm_msg_t) (n : nat) (timeoutMs : Z)
  : option (list Z * list (Z * option zcm_msg_t)) :=
  '(t, d) <- tf_create d c (url_write path (str "w")) ;;
  t <- t ;;
  '(t, rcs) <- send_all t ms ;;
  let d := tf_destroy d t in
  '(t, d) <- tf_create d c' (url_read path speed) ;;
  t <- t ;;
  got <- recv_all n t timeoutMs ;;
  Some (rcs, got).

Lemma create_write d c path : writable d path = true ->
  tf_create d c (url_write path (str "w")) =
  Some (Some (mkTF (Some (mkLogFile path (str "w") (Some (mkLog (mkFILE [] 0 (space d)) 0)))) (str "w") (of_Z 1) 0 0 c),
        set_contents d path []).
Proof.
  intros W. unfold tf_create, tf_construct.
  change (findOption (zcm_url_opts (url_write path (str "w"))) (str "speed")) with (@None cstr).
  change (findOption (zcm_url_opts (url_write path (str "w"))) (str "mode")) with (Some (str "w")).
  cbn [default address url_write]. simpl_modes. cbn [negb orb]. by rewrite open_w, W.
Qed.

Lemma create_read d c path speed bytes : files d !! path = Some bytes -> dle (atof speed) zero = false ->
  tf_create d c (url_read path speed) =
  Some (Some (mkTF (Some (mkLogFile path (str "r") (Some (log_at bytes 0 0 0)))) (str "r") (atof speed) 0 0 c), d).
Proof.
  intros F S. unfold tf_create, tf_construct.
  change (findOption (zcm_url_opts (url_read path speed)) (str "speed")) with (Some speed).
  change (findOption (zcm_url_opts (url_read path speed)) (str "mode")) with (@None cstr).
  cbn [default address url_read]. rewrite S. simpl_modes. cbn [negb orb]. by rewrite open_r, F.
Qed.

(** C30: messages that are sent to a file transport and then played from the file
    come back complete and in order, with their time stamps, channels and data,
    when every message is due within the timeout of the reception; then the end
    of the log is reported. *)
Theorem file_transport_roundtrip (d : disk) (c c' : clock) (path speed : cstr) (ms : list zcm_msg_t) (gap timeoutMs : Z) :
  writable d path = true -> Forall loggable ms -> Z.of_nat (length ms) < 2 ^ 63 ->
  (length (encode_log 0 (msg_event <$> ms)) <= space d)%nat ->
  dle (atof speed) zero = false -> paced gap 0 ms -> 0 <= gap < 2 ^ 63 ->
  (forall x, 0 <= x <= gap -> exists s, scaled_diff (atof speed) x = Some s /\ 0 <= s <= wrapu 32 (timeoutMs * 1000)) ->
  clock_ok (length ms) c' ->
  record_and_play d c c' path speed ms (S (length ms)) timeoutMs =
  Some (replicate (length ms) ZCM_EOK, ((fun m => (ZCM_EOK, Some m)) <$> ms) ++ [(ZCM_ECONNECT, None)]).
Proof.
  intros W G L Sp S P Hg Hs C. unfold record_and_play. rewrite create_write by done.
  match goal with |- context [send_all ?x ms] => destruct (send_all_spec ms x path (str "w") (mkLog (mkFILE [] 0 (space d)) 0))
    as (t&l&->&(Hl&_&_)&Hc) end; [by split; [done|split; [done|left]]|done|].
  cbn [lfile content room eventcount app] in Hc. rewrite take_ge in Hc by done.
  unfold tf_destroy. rewrite Hl, close_w, Hc. rewrite (create_read _ _ path speed (encode_log 0 (msg_event <$> ms))); [|by apply lookup_insert_eq|done].
  rewrite (recv_all_spec gap timeoutMs ms _ (encode_log 0 (msg_event <$> ms)) 0 0 []); auto.
  - by split; [exists path|].
  - lia.
  - by left.
  - apply boundary_start. by rewrite app_nil_r.
  - split; [done|]. cbn. destruct C. lia.
Qed.

(** ** Examples *)

Definition message (u : Z) : zcm_msg_t := mkMsg u [72; 73] 3 [1; 2; 3].
Definition empty_disk (space : nat) : disk := mkDisk ∅ (fun _ => true) space.
Definition still_clock : clock := mkClock 5000000 [].

Lemma message_loggable u : 0 <= u < 2 ^ 63 -> loggable (message u).
Proof. intros H. constructor; cbn; try lia; repeat constructor; unfold in_u; lia. Qed.

(** At speed 2 the half of the difference has to pass. *)
Lemma file_transport_roundtrip_witness :
  record_and_play (empty_disk 200) still_clock still_clock (str "log") (str "2") [message 1000; message 1002; message 1006] 4 1 =
  Some ([ZCM_EOK; ZCM_EOK; ZCM_EOK],
    [(ZCM_EOK, Some (message 1000)); (ZCM_EOK, Some (message 1002)); (ZCM_EOK, Some (message 1006)); (ZCM_ECONNECT, None)]).
Proof.
  apply (file_transport_roundtrip (empty_disk 200) still_clock still_clock (str "log") (str "2")
    [message 1000; message 1002; message 1006] 4 1).
  - done.
  - repeat constructor; try (apply message_loggable; lia).
  - by vm_compute.
  - apply Nat.leb_le. by vm_compute.
  - by vm_compute.
  - cbn. lia.
  - lia.
  - intros x Hx. assert (x = 0 \/ x = 1 \/ x = 2 \/ x = 3 \/ x = 4) as Hx' by lia.
    destruct Hx' as [->|[->|[->|[->| ->]]]]; eexists; (split; [vm_compute; reflexivity|]); vm_compute; (split; discriminate).
  - split; [done|]. split; [constructor|]. by vm_compute.
Defined.

(** A message that is due later than the timeout is lost, and so are the next: with
    a second between the messages and receptions of 100 ms only the first arrives. *)
Lemma file_transport_loses :
  record_and_play (empty_disk 200) still_clock still_clock (str "log") (str "1")
    [message 1000000; message 2000000; message 3000000] 4 100 =
  Some ([ZCM_EOK; ZCM_EOK; ZCM_EOK],
    [(ZCM_EOK, Some (message 1000000)); (ZCM_EAGAIN, None); (ZCM_EAGAIN, None); (ZCM_ECONNECT, None)]).
Proof. vm_compute. reflexivity. Qed.

(** A full disk goes unnoticed. *)
Lemma file_transport_full_disk :
  record_and_play (empty_disk 40) still_clock still_clock (str "log") (str "1") [message 1000; message 1000] 2 100 =
  Some ([ZCM_EOK; ZCM_EOK], [(ZCM_EOK, Some (message 1000)); (ZCM_ECONNECT, None)]).
Proof. vm_compute. reflexivity. Qed.

(** A time stamp below the one before leaves the range of the conversion to an integer. *)
Lemma file_transport_backwards :
  record_and_play (empty_disk 200) still_clock still_clock (str "log") (str "1") [message 1000; message 999] 2 100 = None.
Proof. vm_compute. reflexivity. Qed.
