(* ===== verification/SerialPort.v ===== *)
(** * The serial-port transport (zcm/transport/transport_serial.cpp)

    A port is locked, opened and configured; messages go over it as frames of the
    generic serial transport, or raw.  The answers of the system are part of the
    state: what [open] and the configuration say, how many bytes a [write] takes,
    and when [select] reports bytes. *)
From S2P Require Import Prelude Bytes CircBuff Transport Url CNum Serial SerialProps SerialLink EventLog LogFile FileTransport.
Local Open Scope Z_scope.

(** ** The port *)

(** Pointers: [lf] and [gst] are not initialised by the constructors. *)
Inductive pointer (A : Type) := Uninit | Null | Ptr (a : A).
Arguments Uninit {_}.
Arguments Null {_}.
Arguments Ptr {_} _.

Record Serial := mkPort { port : cstr; fd : Z; lf : pointer unit }.

Definition Serial_create : Serial := mkPort [] (-1) Uninit.

Definition isOpen (s : Serial) : bool := 0 <? fd s.

(** The constants of termios.h. *)
Definition convertBaud (baud : Z) : Z :=
  if baud =? 4800 then 12
  else if baud =? 9600 then 13
  else if baud =? 19200 then 14
  else if baud =? 38400 then 15
  else if baud =? 57600 then 4097
  else if baud =? 115200 then 4098
  else if baud =? 230400 then 4099
  else if baud =? 460800 then 4100
  else 0.

(** What the system answers when a port is opened. *)
Record answers := mkAnswers { trylock : bool; open_fd : Z; tcgetattr_ok : bool; tcsetattr_ok : bool }.

Definition Serial_open (e : answers) (s : Serial) (port_ : cstr) (baud : Z) : Serial * bool :=
  if negb (baud =? 0) && (convertBaud baud =? 0) then (s, false) else
  if negb (trylock e) then (mkPort (port s) (fd s) Null, false) else
  if (0 <=? open_fd e) && tcgetattr_ok e && tcsetattr_ok e then (mkPort port_ (open_fd e) (Ptr tt), true)
  else (mkPort [] (-1) Null, false).

(** Reading [lf] before it was set is undefined. *)
Definition Serial_close (s : Serial) : option Serial :=
  match lf s with
  | Uninit => None
  | Null | Ptr _ => Some (mkPort [] (if isOpen s then 0 else fd s) Null)
  end.

(** ** Bytes *)

(** The line: the bytes written and those that have arrived.  [writes]: how many bytes
    the next calls of [write] take, negative for an error, all of them when the list
    has ended.  [selects]: how many bytes the next reads may return, 0 when [select]
    times out, negative when it fails at once, all that have arrived when the list has
    ended.  [unplugged]: a read of no bytes was taken for the end of the device, which
    ends the program. *)
Record tty := mkTty {
  sent : list byte;
  arriving : list byte;
  writes : list Z;
  selects : list Z;
  unplugged : bool;
  tty_clock : clock;
  timeoutLeftUs : Z
}.

Definition Serial_write (d : tty) (bs : list byte) : tty * Z :=
  let ret := match writes d with [] => Z.of_nat (length bs) | r :: _ => Z.min r (Z.of_nat (length bs)) end in
  (mkTty (sent d ++ take (Z.to_nat ret) bs) (arriving d) (tail (writes d)) (selects d) (unplugged d) (tty_clock d) (timeoutLeftUs d),
   if ret <? 0 then -1 else ret).

(** The bytes and the return value. *)
Definition Serial_read (d : tty) (sz : nat) (timeoutUs : Z) : tty * list byte * Z :=
  let status := match selects d with [] => Z.of_nat (length (arriving d)) | r :: _ => Z.min r (Z.of_nat (length (arriving d))) end in
  let after bs rest crash c := (mkTty (sent d) rest (writes d) (tail (selects d)) crash c (timeoutLeftUs d), bs) in
  if 0 <? status then
    let bs := take (Nat.min sz (Z.to_nat status)) (arriving d) in
    if bool_decide (bs = []) then (after [] (arriving d) true (tty_clock d), -3)
    else (after bs (drop (length bs) (arriving d)) (unplugged d) (tty_clock d), Z.of_nat (length bs))
  else (after [] (arriving d) (unplugged d) (if status =? 0 then usleep timeoutUs (tty_clock d) else tty_clock d), -2).

(** What is left of a time. *)
Definition time_left (left diff : Z) : Z := if diff <? left then left - diff else 0.

Definition look (d : tty) : Z * tty :=
  let '(t, c) := clock_utime (tty_clock d) in
  (t, mkTty (sent d) (arriving d) (writes d) (selects d) (unplugged d) c (timeoutLeftUs d)).
Definition set_left (d : tty) (left : Z) : tty :=
  mkTty (sent d) (arriving d) (writes d) (selects d) (unplugged d) (tty_clock d) left.

Definition get (d : tty) (nData : nat) : tty * list byte :=
  let '(startUtime, d) := look d in
  let '(d, bs, ret) := Serial_read d nData (timeoutLeftUs d) in
  let '(now, d) := look d in
  (set_left d (time_left (timeoutLeftUs d) (wrapu 64 (now - startUtime))), bs).

Definition put (d : tty) (bs : list byte) : tty * nat :=
  let '(d, ret) := Serial_write d bs in (d, Z.to_nat ret).

(** ** The transport *)

Abbreviation gst_t := (zcm_trans_generic_serial_t tty).

(** The state of the line is that behind the generic transport, or the transport's own. *)
Record TransportSerial := mkTS {
  ser : Serial;
  raw : bool;
  rawChan : cstr;
  rawSize : Z;
  gst : pointer gst_t;
  line : tty
}.

Definition SERIAL_MTU : nat := Z.to_nat 16384.

(** An option that is true or false; [None] when it is neither. *)
Definition bool_option (v : option cstr) : option bool :=
  match v with
  | None => Some false
  | Some s => if bool_decide (s = str "true") then Some true else if bool_decide (s = str "false") then Some false else None
  end.

(** The options, or none behind a bad one. *)
Record serial_options := mkSOpts { so_baud : Z; so_flow : bool; so_raw : bool; so_chan : cstr; so_size : Z }.

Definition read_options (options : list (cstr * cstr)) : option serial_options :=
  baud <- match findOption options (str "baud") with
          | None => Some 0
          | Some s => if atoi s =? 0 then None else Some (atoi s)
          end ;;
  flow <- bool_option (findOption options (str "hw_flow_control")) ;;
  raw <- bool_option (findOption options (str "raw")) ;;
  let chan := default [] (findOption options (str "raw_channel")) in
  size <- match findOption options (str "raw_size") with
          | None => Some 1024
          | Some s => if atoi s <=? 0 then None else Some (atoi s)
          end ;;
  Some (mkSOpts baud flow raw chan size).

(** Allocations succeed. *)
Definition ts_construct (e : answers) (d : tty) (times : list Z) (url : zcm_url) : option TransportSerial :=
  match read_options (zcm_url_opts url) with
  | None => Some (mkTS Serial_create false [] 0 Uninit d)
  | Some o =>
      let '(s, _) := Serial_open e Serial_create (address url) (so_baud o) in
      if so_raw o then Some (mkTS s true (so_chan o) (so_size o) Null d)
      else
        g <- zcm_trans_generic_serial_create d times SERIAL_MTU (SERIAL_MTU * 10) true true true true ;;
        Some (mkTS s false (so_chan o) (so_size o) (Ptr g) d)
  end.

Definition ts_good (t : TransportSerial) : bool := isOpen (ser t).

(** The destructor, which reads both pointers. *)
Definition ts_destroy (t : TransportSerial) : option unit :=
  _ <- Serial_close (ser t) ;;
  match gst t with
  | Uninit => None
  | Null | Ptr _ => Some tt
  end.

Definition ts_create (e : answers) (d : tty) (times : list Z) (url : zcm_url) : option (option TransportSerial) :=
  t <- ts_construct e d times url ;;
  if ts_good t then Some (Some t) else _ <- ts_destroy t ;; Some None.

#[refine] Instance tty_sink : ByteSink tty := {| write := put; sunk := sent |}.
Proof.
  - intros u d. unfold put, Serial_write. cbn [snd fst]. destruct (writes u) as [|r l]; case_test; lia.
  - intros u d. unfold put, Serial_write. cbn [snd fst sent]. destruct (writes u) as [|r l]; case_test; [lia|done| |done].
    assert (Z.to_nat (Z.min r (Z.of_nat (length d))) = 0%nat) as -> by lia. done.
Defined.

#[refine] Instance tty_source : ByteSource tty := {| read := get; pending := arriving |}.
Proof.
  - intros u n. unfold get, look. destruct (clock_utime (tty_clock u)) as [t c]. unfold Serial_read. cbn [selects arriving].
    match goal with |- context [0 <? ?s] => set (status := s) end. case_test; [|destruct (clock_utime _); cbn; lia].
    case_bool_decide; destruct (clock_utime _); cbn [snd length]; [lia|]. rewrite length_take. lia.
  - intros u n. unfold get, look. destruct (clock_utime (tty_clock u)) as [t c]. unfold Serial_read. cbn [selects arriving].
    match goal with |- context [0 <? ?s] => set (status := s) end. case_test; [|destruct (clock_utime _); cbn; done].
    case_bool_decide; destruct (clock_utime _); cbn [snd fst arriving set_left]; [done|].
    rewrite length_take. rewrite <- (take_drop (Nat.min n (Z.to_nat status)) (arriving u)) at 1. f_equal.
    destruct (Nat.le_gt_cases (Nat.min n (Z.to_nat status)) (length (arriving u))); [by rewrite (Nat.min_l _ (length _)) by lia|].
    rewrite (Nat.min_r _ (length _)) by lia. by rewrite !drop_ge by lia.
Defined.

(** ** Methods *)

Definition ts_get_mtu (t : TransportSerial) : option Z :=
  if raw t then Some (Z.of_nat SERIAL_MTU) else
  match gst t with Ptr g => Some (Z.of_nat (serial_get_mtu g)) | _ => None end.

Definition with_gst (t : TransportSerial) (g : gst_t) : TransportSerial :=
  mkTS (ser t) (raw t) (rawChan t) (rawSize t) (Ptr g) (line t).
Definition with_line (t : TransportSerial) (d : tty) : TransportSerial :=
  mkTS (ser t) (raw t) (rawChan t) (rawSize t) (gst t) d.

Definition ts_sendmsg (t : TransportSerial) (msg : zcm_msg_t) : option (TransportSerial * Z) :=
  check (isOpen (ser t)) ;;
  if raw t then
    let '(d, n) := put (line t) (take (Z.to_nat (len msg)) (buf msg)) in
    Some (with_line t d, if (n =? 0)%nat then ZCM_EAGAIN else ZCM_EOK)
  else
    match gst t with
    | Ptr g =>
        '(g, ret) <- serial_sendmsg g msg ;;
        if negb (ret =? ZCM_EOK) then Some (with_gst t g, ret) else
        let '(g, ret) := serial_update_tx g in
        Some (with_gst t g, ret)
    | _ => None
    end.

(** A change of the line behind the generic transport. *)
Definition on_line (f : tty -> tty) (g : gst_t) : gst_t := with_usr g (f (usr g)).
Definition look_line (g : gst_t) : Z * gst_t := let '(t, d) := look (usr g) in (t, with_usr g d).

(** The loop.  Each turn but the last uses up an entry of [selects] or a byte that has
    arrived, so that their number bounds the turns. *)
Fixpoint recv_loop (fuel : nat) (g : gst_t) : option (gst_t * Z * option zcm_msg_t) :=
  match fuel with
  | O => None
  | S fuel =>
      let '(startUtime, g) := look_line g in
      '(g, ret, msg) <- serial_recvmsg g 0 ;;
      if ret =? ZCM_EOK then Some (g, ret, msg) else
      let '(now, g) := look_line g in
      let '(startUtime', g) := look_line g in
      let g := on_line (fun d => set_left d (time_left (timeoutLeftUs d) (wrapu 64 (now - startUtime)))) g in
      let '(g, _) := serial_update_rx g in
      check (negb (unplugged (usr g))) ;;
      let '(now, g) := look_line g in
      let g := on_line (fun d => set_left d (time_left (timeoutLeftUs d) (wrapu 64 (now - startUtime')))) g in
      if 0 <? timeoutLeftUs (usr g) then recv_loop fuel g else Some (g, ZCM_EAGAIN, None)
  end.

Definition recv_fuel (d : tty) : nat := S (length (selects d) + length (arriving d)).

Definition ts_recvmsg (t : TransportSerial) (timeoutMs : Z) : option (TransportSerial * Z * option zcm_msg_t) :=
  check (isOpen (ser t)) ;;
  if raw t then
    let '(d, bs) := get (set_left (line t) (timeoutMs * 1000)) (Z.to_nat (rawSize t)) in
    check (negb (unplugged d)) ;;
    if bool_decide (bs = []) || bool_decide (rawChan t = []) then Some (with_line t d, ZCM_EAGAIN, None) else
    let '(now, d) := look d in
    Some (with_line t d, ZCM_EOK, Some (mkMsg now (rawChan t) (Z.of_nat (length bs)) bs))
  else
    match gst t with
    | Ptr g =>
        let g := on_line (fun d => set_left d (timeoutMs * 1000)) g in
        '(g, ret, msg) <- recv_loop (recv_fuel (usr g)) g ;;
        Some (with_gst t g, ret, msg)
    | _ => None
    end.

Definition ts_recvmsg_enable (t : TransportSerial) (channel : cstr) (enable : bool) : TransportSerial * Z :=
  if raw t then (t, ZCM_EOK) else
  match gst t with
  | Ptr g => let '(g, ret) := serial_recvmsg_enable g channel enable in (with_gst t g, ret)
  | _ => (t, ZCM_EOK)
  end.
