(* ===== verification/SerialPortProps.v ===== *)
(** * The serial-port transport: creation, receiving, delivery *)
From S2P Require Import Prelude Bytes CircBuff Transport Url CNum Serial SerialProps SerialLink EventLog LogFile FileTransport SerialPort.
Local Open Scope Z_scope.

(** ** What is left in the ring *)

(** A section that waits for more bytes has few of them. *)
Lemma recv_section_bound g cb sz n tail : forall todo dst consumed cs r, (todo <= n)%nat ->
  recv_section g cb sz n tail todo dst consumed cs = Some r ->
  match r with
  | SecAgain _ => (sz < consumed + 2 * todo + tail + 3)%nat
  | SecFail _ => True
  | SecDone _ c _ => (c <= consumed + 2 * todo)%nat
  end.
Proof.
  induction todo as [|todo IH]; intros dst consumed cs r Hn E; cbn [recv_section] in E; [injection E as <-; lia|].
  destruct (g && (sz <? consumed)%nat) eqn:G; [injection E as <-; apply andb_true_iff in G as [_ G]; apply Nat.ltb_lt in G; lia|].
  destruct (cb_front cb consumed) as [c|]; [|done]. cbn [mbind option_bind] in E. destruct (c =? ESC).
  - destruct (Nat.ltb_spec sz (consumed + 1 + n - (n - S todo) + tail + 2)); [injection E as <-; lia|].
    destruct (cb_front cb (consumed + 1)) as [c2|]; [|done]. destruct (negb (c2 =? ESC)); [by injection E as <-|].
    destruct (store_at dst (n - S todo) c2) as [dst'|]; [|done]. apply IH in E; [|lia]. destruct r; [lia|done|lia].
  - destruct (store_at dst (n - S todo) c) as [dst'|]; [|done]. apply IH in E; [|lia]. destruct r; [lia|done|lia].
Qed.

Section small.
Context {U : Type}.
Notation serial := (zcm_trans_generic_serial_t U).

Lemma recv_pass_again (zt zt' : serial) sz : recv_pass zt sz = Some (zt', PassAgain) -> (sz < 2 * mtu zt + 74)%nat.
Proof.
  unfold recv_pass. intros E. destruct (cb_front (recvBuffer zt) 0) as [b0|]; [|done]. destruct (negb (b0 =? ESC)); [done|].
  destruct (cb_front (recvBuffer zt) 1) as [b1|]; [|done]. destruct (negb (b1 =? 0)); [done|].
  do 5 (match type of E with context [cb_front ?cb ?i] => destruct (cb_front cb i); [|done] end).
  match type of E with context [(ZCM_CHANNEL_MAXLEN <? ?n)%nat] => set (cl := n) in E end.
  match type of E with context [(mtu zt <? ?n)%nat] => set (ml := n) in E end.
  destruct (Nat.ltb_spec ZCM_CHANNEL_MAXLEN cl) as [|Hc]; [done|]. destruct (Nat.ltb_spec (mtu zt) ml) as [|Hm]; [done|]. unfold ZCM_CHANNEL_MAXLEN in Hc.
  destruct (Nat.ltb_spec sz (FRAME_BYTES + cl + ml)) as [Hf|Hf]; [unfold FRAME_BYTES in Hf; lia|].
  destruct (recv_section false _ sz cl ml cl _ 7 65535) as [r|] eqn:E1; [|done]. apply recv_section_bound in E1; [|lia].
  destruct r as [d|d|name consumed cs]; [lia|done|]. destruct (store_at name cl 0) as [name'|]; [|done].
  destruct (recv_section true _ sz ml 0 ml _ consumed cs) as [r|] eqn:E2; [|done]. apply recv_section_bound in E2; [|lia].
  destruct r as [d|d|d c2 cs2]; [lia|done|]. do 2 (match type of E with context [cb_front ?cb ?i] => destruct (cb_front cb i); [|done] end).
  by destruct (_ =? cs2).
Qed.
Lemma recv_pass_same (zt zt' : serial) sz r : recv_pass zt sz = Some (zt', r) -> recvBuffer zt' = recvBuffer zt /\ mtu zt' = mtu zt.
Proof. unfold recv_pass. intros E. repeat case_match; simplify_eq; done. Qed.

(** Without a message the ring is nearly empty. *)
Lemma recv_passes_result fuel : forall (zt zt' : serial) rc om, recv_passes fuel zt = Some (zt', rc, om) ->
  match om with
  | Some _ => rc = ZCM_EOK
  | None => rc = ZCM_EAGAIN /\ (cb_size (recvBuffer zt') < 2 * mtu zt + 74)%nat
  end.
Proof.
  induction fuel as [|fuel IH]; intros zt zt' rc om E; cbn [recv_passes] in E; [done|].
  match type of E with context [recv_pass ?z] => set (z1 := z) in E end. change (recvBuffer zt) with (recvBuffer z1) in E.
  change (mtu zt) with (mtu z1). clearbody z1.
  destruct (Nat.ltb_spec (cb_size (recvBuffer z1)) FRAME_BYTES) as [H|H]; [injection E as <- <- <-; unfold FRAME_BYTES in H; split; [done|lia]|].
  destruct (recv_pass z1 _) as [[z2 r]|] eqn:Ep; [|done]. pose proof (recv_pass_same _ _ _ _ Ep) as [Eb Em].
  destruct r as [| |ml c].
  - injection E as <- <- <-. split; [done|]. rewrite Eb. by eapply recv_pass_again.
  - destruct (resync _ _) as [cb|]; [|done]. apply IH in E. cbn [with_recv mtu] in E. by rewrite Em in E.
  - by injection E as <- <- <-.
Qed.
End small.

(** ** The line *)

(** Time goes on, by less than centuries at a time. *)
Definition clock_ok (c : clock) : Prop := Forall (fun d => 0 <= d < 2 ^ 60) (delays c).

Lemma clock_utime_ok c : clock_ok c -> time c <= (clock_utime c).1 < time c + 2 ^ 60 /\ time (clock_utime c).2 = (clock_utime c).1 /\
  clock_ok (clock_utime c).2.
Proof.
  destruct c as [t ds]. unfold clock_ok, clock_utime. cbn. intros F. destruct F as [|d ds Hd F]; cbn; (split; [lia|]); by split; [|constructor] || split.
Qed.

(** The turns that are possible. *)
Definition turns (d : tty) : nat := length (selects d) + length (arriving d).

Record line_ok (d : tty) : Prop := {
  lo_plugged : unplugged d = false;
  lo_clock : clock_ok (tty_clock d);
  lo_left : 0 <= timeoutLeftUs d < 2 ^ 62;
  lo_bytes : bytes_ok (arriving d)
}.

Lemma time_left_bound left diff : 0 <= left -> 0 <= diff -> 0 <= time_left left diff <= left.
Proof. intros. unfold time_left. case_test; lia. Qed.

(** One step of the line: it stays in order, and no turns or time come back. *)
Record line_step (d d' : tty) : Prop := {
  ls_ok : line_ok d';
  ls_turns : (turns d' <= turns d)%nat;
  ls_left : timeoutLeftUs d' <= timeoutLeftUs d;
  ls_pending : exists bs, arriving d = bs ++ arriving d'
}.

Lemma line_step_trans d1 d2 d3 : line_step d1 d2 -> line_step d2 d3 -> line_step d1 d3.
Proof.
  intros [_ T1 L1 [b1 P1]] [O T2 L2 [b2 P2]]. split; [done|lia|lia|]. exists (b1 ++ b2). by rewrite P1, P2, app_assoc.
Qed.

Lemma look_ok d : line_ok d -> line_step d (look d).2 /\ time (tty_clock d) <= (look d).1 < time (tty_clock d) + 2 ^ 60 /\
  time (tty_clock (look d).2) = (look d).1 /\ turns (look d).2 = turns d /\ timeoutLeftUs (look d).2 = timeoutLeftUs d /\
  selects (look d).2 = selects d /\ arriving (look d).2 = arriving d.
Proof.
  intros [P C L B]. destruct (clock_utime_ok _ C) as (Ht&Et&C'). unfold look. destruct (clock_utime (tty_clock d)) as [t c]. cbn in *.
  repeat split; cbn; try done; try lia. by exists [].
Qed.

Lemma set_left_ok d left : line_ok d -> 0 <= left <= timeoutLeftUs d -> line_step d (set_left d left).
Proof. intros [P C L B] H. repeat split; cbn; try done; try lia. by exists []. Qed.

Lemma line_step_intro d d' : line_ok d -> unplugged d' = false -> clock_ok (tty_clock d') -> timeoutLeftUs d' = timeoutLeftUs d ->
  (turns d' <= turns d)%nat -> (exists k, arriving d' = drop k (arriving d)) -> line_step d d'.
Proof.
  intros [P C L B] P' C' L' T [k A]. split; [split; [done|done|by rewrite L'|rewrite A; by apply Forall_drop]|done|lia|].
  exists (take k (arriving d)). by rewrite A, take_drop.
Qed.

(** Reading uses up a turn, or all the time. *)
Lemma Serial_read_ok d n : line_ok d -> (1 <= n)%nat -> let d' := (Serial_read d n (timeoutLeftUs d)).1.1 in
  line_step d d' /\ timeoutLeftUs d' = timeoutLeftUs d /\ time (tty_clock d) <= time (tty_clock d') <= time (tty_clock d) + timeoutLeftUs d /\
  ((turns d' < turns d)%nat \/ time (tty_clock d') = time (tty_clock d) + timeoutLeftUs d).
Proof.
  intros O Hn. pose proof O as [P C L B]. unfold Serial_read.
  match goal with |- context [0 <? ?x] => set (status := x) end.
  assert (status <= Z.of_nat (length (arriving d))) as Hs by (subst status; destruct (selects d); lia).
  assert (selects d = [] -> status = Z.of_nat (length (arriving d))) as He by (subst status; by intros ->). clearbody status.
  assert (length (tail (selects d)) <= length (selects d))%nat as Ht by (destruct (selects d); cbn; lia).
  assert (selects d <> [] -> length (tail (selects d)) < length (selects d))%nat as Ht' by (destruct (selects d); cbn; [done|lia]).
  destruct (Z.ltb_spec 0 status) as [Hp|Hp].
  - set (bs := take _ _). assert (length bs = Nat.min n (Z.to_nat status)) as Hb by (subst bs; rewrite length_take; lia).
    rewrite bool_decide_eq_false_2 by (intros E; rewrite E in Hb; cbn in Hb; lia). cbn [fst snd].
    assert (turns (mkTty (sent d) (drop (length bs) (arriving d)) (writes d) (tail (selects d)) (unplugged d) (tty_clock d) (timeoutLeftUs d)) < turns d)%nat as Hd
      by (unfold turns; cbn [selects arriving]; rewrite length_drop; lia).
    split; [apply line_step_intro; try done; [lia|by exists (length bs)]|]. split; [done|]. split; [cbn; lia|by left].
  - cbn [fst snd]. set (c := if status =? 0 then _ else _).
    assert (clock_ok c /\ time (tty_clock d) <= time c <= time (tty_clock d) + timeoutLeftUs d /\ (status = 0 -> time c = time (tty_clock d) + timeoutLeftUs d)) as (Cc&Tc&Zc)
      by (subst c; destruct (Z.eqb_spec status 0); cbn; repeat split; (done || lia)).
    clearbody c. split; [apply line_step_intro; try done; [unfold turns; cbn; lia|by exists 0%nat]|]. split; [done|]. split; [cbn; lia|].
    destruct (decide (selects d = [])) as [E|E]; [right; cbn; apply Zc; specialize (He E); lia|left; specialize (Ht' E); unfold turns; cbn; lia].
Qed.

Lemma get_ok d n : line_ok d -> (1 <= n)%nat -> line_step d (get d n).1 /\
  ((turns (get d n).1 < turns d)%nat \/ timeoutLeftUs (get d n).1 = 0).
Proof.
  intros O Hn. unfold get. destruct (look_ok d O) as (S1&T1&C1&N1&L1&_). destruct (look d) as [t1 d1]. cbn [fst snd] in *.
  destruct (Serial_read_ok d1 n (ls_ok _ _ S1) Hn) as (S2&L2&T2&D2). destruct (Serial_read d1 n (timeoutLeftUs d1)) as [[d2 bs] ret]. cbn [fst snd] in *.
  destruct (look_ok d2 (ls_ok _ _ S2)) as (S3&T3&C3&N3&L3&_). destruct (look d2) as [t3 d3]. cbn [fst snd] in *.
  pose proof (lo_left _ (ls_ok _ _ S1)) as B1. rewrite (wrapu_id 64) by (unfold in_u; lia).
  assert (0 <= time_left (timeoutLeftUs d3) (t3 - t1) <= timeoutLeftUs d3) as B3 by (apply time_left_bound; lia).
  split.
  - eapply line_step_trans; [exact S1|]. eapply line_step_trans; [exact S2|]. eapply line_step_trans; [exact S3|].
    apply set_left_ok; [apply S3|done].
  - destruct D2 as [D2|D2]; [left; unfold turns in *; cbn; lia|right]. cbn. unfold time_left. case_test; lia.
Qed.

Lemma reads_line m u bs u' : reads get m u bs u' -> (1 <= m)%nat -> line_ok u ->
  line_step u u' /\ ((turns u' < turns u)%nat \/ timeoutLeftUs u' = 0).
Proof.
  intros R Hm O. destruct R as [u n u' bs Hn E|u n u1 b1 n2 u' b2 Hn E Hn2 E2]; destruct (get_ok u n O ltac:(lia)) as [S D];
    rewrite E in S, D; cbn [fst] in S, D; [done|]. destruct (get_ok u1 n2 (ls_ok _ _ S) ltac:(lia)) as [S2 D2].
  rewrite E2 in S2, D2. cbn [fst] in S2, D2. split; [by eapply line_step_trans|].
  pose proof (ls_turns _ _ S). pose proof (ls_turns _ _ S2). pose proof (ls_left _ _ S2). pose proof (lo_left _ (ls_ok _ _ S2)).
  destruct D as [D|D]; [left; lia|right; lia].
Qed.

(** The receiving side of an open port. *)
Record port_ok (g : gst_t) (l : list byte) : Prop := {
  po_rx : rx_ok g l;
  po_line : line_ok (usr g);
  po_mtu : mtu g = SERIAL_MTU;
  po_room : capacity (recvBuffer g) = (SERIAL_MTU * 10)%nat
}.

Lemma port_ok_line g l d : port_ok g l -> line_ok d -> port_ok (with_usr g d) l.
Proof. intros [[] ? ? ?] ?. by split; [split|..]. Qed.

Lemma update_rx_ok g l : port_ok g l -> (length l < 2 * SERIAL_MTU + 74)%nat -> let g' := (serial_update_rx g).1 in
  (exists bs, port_ok g' (l ++ bs)) /\ line_step (usr g) (usr g') /\ ((turns (usr g') < turns (usr g))%nat \/ timeoutLeftUs (usr g') = 0).
Proof.
  intros [X O Hm Hc] Hl. unfold serial_update_rx, serial_update_rx_with.
  pose proof (cb_flush_in_with_rep read read_le (recvBuffer g) l (usr g) (rx_rep _ _ X)) as S. rewrite (cb_room_rep _ _ (rx_rep _ _ X)), Hc in S.
  pose proof (cb_flush_in_rep (recvBuffer g) l (usr g) (rx_rep _ _ X)) as F. unfold cb_flush_in in F.
  destruct (cb_flush_in_with read (recvBuffer g) (usr g)) as [[cb u] n]. destruct S as (bs'&_&S&_).
  apply reads_line in S as [S D]; [|unfold SERIAL_MTU in *; lia|exact O]. destruct F as (bs&_&Hp&R&C). cbn [fst]. split; [|done]. exists bs.
  split; cbn; [|apply S|done|by rewrite C]. destruct X as [X1 X2 X3 X4]. split; cbn; try done.
  apply Forall_app. split; [done|]. pose proof (lo_bytes _ O) as B. change (pending (usr g)) with (arriving (usr g)) in Hp.
  rewrite Hp in B. by apply Forall_app in B as [B _].
Qed.

(** What [recvmsg] of the generic transport leaves. *)
Lemma recvmsg_ok g l : port_ok g l -> exists g' rc om l', serial_recvmsg g 0 = Some (g', rc, om) /\ port_ok g' l' /\ usr g' = usr g /\
  match om with
  | Some m => rc = ZCM_EOK /\ (length (buf m) <= SERIAL_MTU)%nat
  | None => rc = ZCM_EAGAIN /\ (length l' < 2 * SERIAL_MTU + 74)%nat
  end.
Proof.
  intros [X O Hm Hc]. destruct (serial_recv_total g l 0 X) as (g'&rc&om&k&E&_&X'&(_&Sm&Su&Sc)&Ho).
  exists g', rc, om, (drop k l). split; [done|]. split; [split; [done|by rewrite Su|by rewrite Sm|by rewrite Sc]|]. split; [done|].
  pose proof (recv_passes_result _ _ _ _ _ E) as Rr. rewrite Hm in *. destruct om as [m|]; [by destruct Ho as (?&?&_)|].
  split; [done|]. destruct Rr as [_ Rr]. by rewrite (cb_size_rep _ _ (rx_rep _ _ X')) in Rr.
Qed.

(** Looking at the clock and setting the time that is left. *)
Lemma look_line_ok g l : port_ok g l -> let g' := (look_line g).2 in
  port_ok g' l /\ turns (usr g') = turns (usr g) /\ timeoutLeftUs (usr g') = timeoutLeftUs (usr g) /\ recvBuffer g' = recvBuffer g.
Proof.
  intros P. destruct (look_ok (usr g) (po_line _ _ P)) as (S&_&_&T&L&_). unfold look_line. destruct (look (usr g)) as [t d]. cbn [fst snd] in *.
  split; [apply port_ok_line; [done|apply S]|done].
Qed.

Lemma spend_ok g l diff : port_ok g l -> let g' := on_line (fun d => set_left d (time_left (timeoutLeftUs d) (wrapu 64 diff))) g in
  port_ok g' l /\ turns (usr g') = turns (usr g) /\ timeoutLeftUs (usr g') <= timeoutLeftUs (usr g) /\ recvBuffer g' = recvBuffer g.
Proof.
  intros P. assert (0 <= time_left (timeoutLeftUs (usr g)) (wrapu 64 diff) <= timeoutLeftUs (usr g)) as B.
  { apply time_left_bound; [apply (po_line _ _ P)|apply (wrapu_range 64); lia]. }
  split; [apply port_ok_line; [done|apply set_left_ok; [apply P|done]]|]. split; [done|]. cbn. by split; [lia|].
Qed.

Lemma recv_loop_total fuel : forall g l, port_ok g l -> (turns (usr g) < fuel)%nat -> exists g' rc om l',
  recv_loop fuel g = Some (g', rc, om) /\ port_ok g' l' /\
  match om with Some m => rc = ZCM_EOK /\ (length (buf m) <= SERIAL_MTU)%nat | None => rc = ZCM_EAGAIN end.
Proof.
  induction fuel as [|fuel IH]; intros g l P Hf; [lia|]. cbn [recv_loop].
  destruct (look_line_ok g l P) as (P1&T1&_&_). destruct (look_line g) as [t1 g1]. cbn [snd] in *.
  destruct (recvmsg_ok g1 l P1) as (g2&rc&om&l2&->&P2&U2&Ho). destruct om as [m|].
  { destruct Ho as [-> Hm]. exists g2, ZCM_EOK, (Some m), l2. done. }
  destruct Ho as [-> Hl]. cbn [Z.eqb ZCM_EAGAIN ZCM_EOK].
  destruct (look_line_ok g2 l2 P2) as (P3&T3&_&_). destruct (look_line g2) as [t3 g3]. cbn [snd] in *.
  destruct (look_line_ok g3 l2 P3) as (P4&T4&_&_). destruct (look_line g3) as [t4 g4]. cbn [snd] in *.
  destruct (spend_ok g4 l2 (t3 - t1) P4) as (P5&T5&_&_). set (g5 := on_line _ g4) in *. clearbody g5.
  destruct (update_rx_ok g5 l2 P5 Hl) as ([bs P6]&S6&D6). destruct (serial_update_rx g5) as [g6 rc6]. cbn [fst] in *.
  rewrite (lo_plugged _ (po_line _ _ P6)). cbn [negb].
  destruct (look_line_ok g6 _ P6) as (P7&T7&L7&_). destruct (look_line g6) as [t7 g7]. cbn [snd] in *.
  destruct (spend_ok g7 _ (t7 - t4) P7) as (P8&T8&L8&_). set (g8 := on_line _ g7) in *. clearbody g8. rewrite U2 in *.
  destruct (Z.ltb_spec 0 (timeoutLeftUs (usr g8))) as [Hp|]; [|by exists g8, ZCM_EAGAIN, None, (l2 ++ bs)].
  apply (IH g8 _ P8). destruct D6 as [D6|D6]; lia.
Qed.

(** ** Creation *)

Lemma gst_create_ok (d : tty) times : exists g : gst_t, zcm_trans_generic_serial_create d times SERIAL_MTU (SERIAL_MTU * 10) true true true true = Some g /\
  usr g = d /\ rx_ok g [] /\ mtu g = SERIAL_MTU /\ capacity (recvBuffer g) = (SERIAL_MTU * 10)%nat.
Proof.
  unfold zcm_trans_generic_serial_create. assert (SERIAL_MTU =? 0 = false)%nat as -> by (apply Nat.eqb_neq; unfold SERIAL_MTU; lia).
  assert (SERIAL_MTU * 10 <? FRAME_BYTES + SERIAL_MTU = false)%nat as -> by (apply Nat.ltb_ge; unfold FRAME_BYTES, SERIAL_MTU; lia). cbn [orb negb].
  assert (exists cb, cb_init true (SERIAL_MTU * 10) = Some cb /\ capacity cb = (SERIAL_MTU * 10)%nat) as (cb&E&C).
  { unfold cb_init. assert (SERIAL_MTU * 10 =? 0 = false)%nat as -> by (apply Nat.eqb_neq; unfold SERIAL_MTU; lia). cbn [negb orb]. by eexists. }
  rewrite E. eexists. split; [reflexivity|]. cbn [usr mtu recvBuffer]. split; [done|]. split; [|by split].
  split; cbn [recvBuffer recvChanName recvMsgData mtu]; [by eapply rep_init|by apply Forall_nil|by rewrite length_replicate|by rewrite length_replicate].
Qed.

#[local] Opaque SERIAL_MTU.

(** What is opened, what fails, and what is undefined: after a bad option, or with a
    rate that termios does not know, the destructor reads pointers that nobody has set. *)
Theorem serial_create_spec (e : answers) (d : tty) (times : list Z) (url : zcm_url) :
  match read_options (zcm_url_opts url) with
  | None => ts_create e d times url = None
  | Some o =>
      if negb (so_baud o =? 0) && (convertBaud (so_baud o) =? 0) then ts_create e d times url = None
      else if trylock e && (0 <? open_fd e) && tcgetattr_ok e && tcsetattr_ok e then
        exists t, ts_create e d times url = Some (Some t) /\ isOpen (ser t) = true /\ raw t = so_raw o /\ port (ser t) = address url
      else ts_create e d times url = Some None
  end.
Proof.
  unfold ts_create, ts_construct. destruct (read_options (zcm_url_opts url)) as [o|]; [|done].
  destruct (gst_create_ok d times) as (g&Eg&_). rewrite Eg. clear Eg. unfold Serial_open.
  destruct (negb (so_baud o =? 0) && (convertBaud (so_baud o) =? 0)); [by destruct (so_raw o)|].
  destruct (trylock e); cbn [negb andb]; [|by destruct (so_raw o)].
  destruct (Z.ltb_spec 0 (open_fd e)) as [H|H]; cbn [andb].
  - rewrite (proj2 (Z.leb_le 0 (open_fd e))) by lia. cbn [andb]. destruct (tcgetattr_ok e && tcsetattr_ok e).
    + assert (0 <? open_fd e = true) as Hf by (by apply Z.ltb_lt). destruct (so_raw o) eqn:Hr; unfold ts_good, isOpen; cbn [ser fd];
        rewrite Hf; (eexists; split; [reflexivity|]); (split; [exact Hf|by split]).
    + by destruct (so_raw o).
  - destruct ((0 <=? open_fd e) && tcgetattr_ok e && tcsetattr_ok e); [|by destruct (so_raw o)].
    assert (0 <? open_fd e = false) as Hf by (by apply Z.ltb_ge). destruct (so_raw o); unfold ts_good, isOpen; cbn [ser fd]; by rewrite Hf.
Qed.

(** ** Receiving *)

(** An open port on which frames are received. *)
Definition receiving (t : TransportSerial) (l : list byte) : Prop :=
  isOpen (ser t) = true /\ raw t = false /\ exists g, gst t = Ptr g /\ port_ok g l.

(** C32: receiving over a serial port ends, whatever bytes arrive and whenever: with any
    bytes in the ring and on the line, with any answers of select, on a clock that
    does not go back, the call returns a message that is not longer than the MTU, or
    EAGAIN (possibly before the timeout, see [read_time_counted_twice]); it never asks
    the line for no bytes, which would be taken for an unplugged device and end the
    program; and the port can go on receiving. *)
Theorem serial_port_receives (t : TransportSerial) (l : list byte) (timeoutMs : Z) : receiving t l -> in_u 32 timeoutMs ->
  exists t' rc om l', ts_recvmsg t timeoutMs = Some (t', rc, om) /\ receiving t' l' /\
  match om with Some m => rc = ZCM_EOK /\ (length (buf m) <= SERIAL_MTU)%nat | None => rc = ZCM_EAGAIN end.
Proof.
  intros (Ho&Hr&g&Eg&P) Ht. unfold ts_recvmsg. rewrite Ho, Hr, Eg. set (g0 := on_line _ g).
  assert (port_ok g0 l) as P0.
  { apply port_ok_line; [done|]. destruct (po_line _ _ P). split; cbn; try done. unfold in_u in Ht. lia. }
  destruct (recv_loop_total (recv_fuel (usr g0)) g0 l P0) as (g'&rc&om&l'&->&P'&H); [unfold recv_fuel, turns; lia|].
  eexists _, rc, om, l'. split; [reflexivity|]. split; [|done]. split; [done|]. split; [done|]. by exists g'.
Qed.

(** ** Delivery *)





Abbreviation tty_link := (@link tty tty).







Lemma created_gst e d times url t : ts_create e d times url = Some (Some t) -> raw t = false ->
  exists g, gst t = Ptr g /\ zcm_trans_generic_serial_create d times SERIAL_MTU (SERIAL_MTU * 10) true true true true = Some g.
Proof.
  unfold ts_create, ts_construct. destruct (read_options (zcm_url_opts url)) as [o|]; [|done].
  destruct (Serial_open e Serial_create (address url) (so_baud o)) as [sr b]. destruct (gst_create_ok d times) as (g&Eg&_). rewrite Eg. clear Eg.
  destruct (so_raw o); unfold ts_good; cbn [ser]; (destruct (isOpen sr); [|by destruct (ts_destroy _)]); intros [= <-]; [done|]. intros _. by exists g.
Qed.




(** ** Examples *)

Lemma created_receiving e d times url t : ts_create e d times url = Some (Some t) -> raw t = false -> line_ok d -> receiving t [].
Proof.
  intros C R O. destruct (created_gst _ _ _ _ _ C R) as (g&G&E). destruct (gst_create_ok d times) as (g'&E'&U'&X&M&Cp).
  assert (g' = g) as -> by congruence. clear E E'. unfold receiving. rewrite R. split; [|split; [done|]].
  - unfold ts_create in C. destruct (ts_construct e d times url) as [t0|]; [|done]. cbn [mbind option_bind] in C.
    destruct (ts_good t0) eqn:Gt; [by injection C as <-|]. by destruct (ts_destroy t0).
  - exists g. split; [done|]. split; [done|by rewrite U'|done|done].
Qed.

Definition example_answers : answers := mkAnswers true 3 true true.
Definition example_line (bs : list byte) : tty := mkTty [] bs [] [] false (mkClock 1000 []) 0.
Definition example_port : zcm_url := url_parse (str "serial:///dev/ttyUSB0?baud=115200").

Lemma example_created d : exists t, ts_create example_answers d [] example_port = Some (Some t) /\ isOpen (ser t) = true /\ raw t = false.
Proof.
  pose proof (serial_create_spec example_answers d [] example_port) as S.
  assert (read_options (zcm_url_opts example_port) = Some (mkSOpts 115200 false false [] 1024)) as E by (vm_compute; reflexivity).
  rewrite E in S. cbn [so_baud so_raw] in S. change (negb (115200 =? 0) && (convertBaud 115200 =? 0)) with false in S. cbv iota in S.
  change (trylock example_answers && (0 <? open_fd example_answers) && tcgetattr_ok example_answers && tcsetattr_ok example_answers) with true in S.
  destruct S as (t&C&O&R&_). exists t. by split.
Qed.

Lemma example_line_ok bs : bytes_ok bs -> line_ok (example_line bs).
Proof. intros B. split; cbn; [done|apply Forall_nil; exact I|lia|done]. Qed.

(** Any bytes: noise of four bytes and nothing more until the time is over. *)
Lemma serial_port_receives_witness : exists t t' rc om l',
  ts_create example_answers (example_line [1; 204; 0; 7]) [] example_port = Some (Some t) /\
  ts_recvmsg t 100 = Some (t', rc, om) /\ receiving t' l'.
Proof.
  destruct (example_created (example_line [1; 204; 0; 7])) as (t&C&O&R). exists t.
  destruct (serial_port_receives t [] 100) as (t'&rc&om&l'&E&H&_).
  - apply (created_receiving _ _ _ _ _ C R). apply example_line_ok. repeat (constructor; [unfold in_u; lia|]). constructor.
  - unfold in_u. lia.
  - exists t', rc, om, l'. split; [exact C|]. split; [exact E|exact H].
Defined.



(** A bad option, and a rate that is not in the table: the pointers are not set. *)
Lemma bad_option_undefined e d times : ts_create e d times (url_parse (str "serial:///dev/ttyUSB0?raw=yes")) = None.
Proof. reflexivity. Qed.

Lemma unknown_rate_undefined e d times : ts_create e d times (url_parse (str "serial:///dev/ttyUSB0?baud=1200")) = None.
Proof.
  pose proof (serial_create_spec e d times (url_parse (str "serial:///dev/ttyUSB0?baud=1200"))) as S.
  assert (read_options (zcm_url_opts (url_parse (str "serial:///dev/ttyUSB0?baud=1200"))) = Some (mkSOpts 1200 false false [] 1024)) as E
    by (vm_compute; reflexivity).
  rewrite E in S. exact S.
Qed.

(** The time of a read is counted twice: of 100 ms, 60 ms are enough for the call to give up. *)
Definition slow_line : tty := mkTty [] [1; 2; 3] [] [] false (mkClock 1000 [0; 0; 0; 0; 60000]) 100000.

Lemma read_time_counted_twice : exists g g',
  zcm_trans_generic_serial_create slow_line [] 4 24 true true true true = Some g /\
  recv_loop 5 g = Some (g', ZCM_EAGAIN, None) /\ time (tty_clock (usr g')) = 61000.
Proof. do 2 eexists. split; [reflexivity|]. split; [vm_compute; reflexivity|reflexivity]. Qed.

(** Of a raw message the rest is lost when the line does not take all of it at once. *)
Lemma raw_rest_lost : exists t,
  ts_sendmsg (mkTS (mkPort [] 3 (Ptr tt)) true (str "RAW") 1024 Null (mkTty [] [] [1] [] false (mkClock 0 []) 0)) (mkMsg 0 (str "RAW") 3 [7; 8; 9]) =
    Some (t, ZCM_EOK) /\ sent (line t) = [7].
Proof. eexists. split; [reflexivity|reflexivity]. Qed.
