(* ===== verification/Lockfile.v ===== *)
(** * Lock files (zcm/util/lockfile.cpp)

    A device is locked through a file in a common directory: [lockfile_trylock]
    opens or makes the file and locks it, [lockfile_unlock] releases the lock,
    closes the file and removes its name.  Every system call is a step, so that the
    calls of several processes interleave. *)
From S2P Require Import Prelude Bytes Transport.
Local Open Scope Z_scope.

(** ** The path *)

Definition SLASH : Z := 47.
Definition UNDERSCORE : Z := 95.
Definition DEFAULT_LOCK_DIR : cstr := str "/var/lock/zcm".
Definition LOCK_PREFIX : cstr := str "LCK..".

Definition startsWith (s pre : cstr) : bool := bool_decide (take (length pre) s = pre).

(** [env]: the variable ZCM_LOCK_DIR; [mkdir_ok]: the directory was made or is there. *)
Definition makeLockfilePath (env : option cstr) (mkdir_ok : bool) (name : cstr) : cstr :=
  let ret := default DEFAULT_LOCK_DIR env in
  if negb mkdir_ok then [] else
  if bool_decide (ret = []) then ret else
  let ret := if bool_decide (last ret = Some SLASH) then ret else ret ++ [SLASH] in
  let rest := if startsWith name (str "/dev/") then drop 5 name else name in
  ret ++ LOCK_PREFIX ++ ((fun c => if c =? SLASH then UNDERSCORE else c) <$> rest).

(** Different devices can have the same lock. *)
Lemma lockfile_names_clash env : makeLockfilePath env true (str "/dev/pts/1") = makeLockfilePath env true (str "/dev/pts_1").
Proof. unfold makeLockfilePath. by destruct (bool_decide (default DEFAULT_LOCK_DIR env = [])). Qed.

(** ** The files *)

(** The names, the holder of the lock of a file, and the number of the next file. *)
Record files := mkFiles { names : gmap cstr nat; locks : gmap nat nat; fresh_file : nat }.

(** Where a process is: outside, with the file open, with the lock, behind [F_ULOCK]. *)
Inductive place := Outside | Opened (i : nat) | Holding (i : nat) | Released (i : nat).

Record system := mkSystem { disk_files : files; places : nat -> place }.

Definition move (s : system) (p : nat) (f : files) (q : place) : system :=
  mkSystem f (fun p' => if (p' =? p)%nat then q else places s p').

(** [open(path, O_WRONLY | O_CREAT)] *)
Definition open_file (f : files) (path : cstr) : nat * files :=
  match names f !! path with
  | Some i => (i, f)
  | None => (fresh_file f, mkFiles (<[path := fresh_file f]> (names f)) (locks f) (S (fresh_file f)))
  end.

(** The calls on one path, in the order of the two functions. *)
Inductive step (path : cstr) (s : system) : system -> Prop :=
  | SOpen p i f : places s p = Outside -> open_file (disk_files s) path = (i, f) -> step path s (move s p f (Opened i))
  | SLock p i : places s p = Opened i -> locks (disk_files s) !! i = None ->
      step path s (move s p (mkFiles (names (disk_files s)) (<[i := p]> (locks (disk_files s))) (fresh_file (disk_files s))) (Holding i))
  | SFail p i q : places s p = Opened i -> locks (disk_files s) !! i = Some q -> step path s (move s p (disk_files s) Outside)
  | SUnlock p i : places s p = Holding i ->
      step path s (move s p (mkFiles (names (disk_files s)) (delete i (locks (disk_files s))) (fresh_file (disk_files s))) (Released i))
  | SUnlink p i : places s p = Released i ->
      step path s (move s p (mkFiles (delete path (names (disk_files s))) (locks (disk_files s)) (fresh_file (disk_files s))) Outside).

Definition start : system := mkSystem (mkFiles ∅ ∅ 0) (fun _ => Outside).
Definition holds (s : system) (p : nat) : Prop := exists i, places s p = Holding i.

(** ** While nobody has unlocked *)

(** The holder of the lock of a file is the process that has it. *)
Record lock_inv (s : system) : Prop := {
  li_holds : forall p i, places s p = Holding i -> locks (disk_files s) !! i = Some p;
  li_fresh : forall path i, names (disk_files s) !! path = Some i -> (i < fresh_file (disk_files s))%nat;
  li_old : forall p i, places s p = Opened i \/ places s p = Holding i -> (i < fresh_file (disk_files s))%nat
}.

Lemma places_move s p f q p' : places (move s p f q) p' = if (p' =? p)%nat then q else places s p'.
Proof. done. Qed.

Ltac on_move p' p :=
  rewrite places_move; destruct (Nat.eqb_spec p' p) as [->|].

Lemma lock_inv_start : lock_inv start.
Proof. split; cbn; [done| |by intros ? ? []]. intros ? ?. by rewrite lookup_empty. Qed.

Lemma open_file_fresh f path i f' : open_file f path = (i, f') -> (forall path i, names f !! path = Some i -> (i < fresh_file f)%nat) ->
  (i < fresh_file f')%nat /\ (fresh_file f <= fresh_file f')%nat /\ locks f' = locks f /\
  (forall path i, names f' !! path = Some i -> (i < fresh_file f')%nat).
Proof.
  unfold open_file. intros E H. destruct (names f !! path) as [j|] eqn:En; injection E as <- <-; cbn; [by eauto|].
  split; [lia|]. split; [lia|]. split; [done|]. intros path' k [[_ <-]|[_ E]]%lookup_insert_Some; [lia|]. apply H in E. lia.
Qed.

Lemma lock_inv_step path s s' : lock_inv s -> step path s s' -> lock_inv s'.
Proof.
  intros [H F O] St. destruct St as [p i f Hp E|p i Hp Hl|p i q Hp Hl|p i Hp|p i Hp].
  - destruct (open_file_fresh _ _ _ _ E F) as (Hi&Hf&El&Fn). split; [|done|].
    + intros p' j. on_move p' p; [done|]. cbn. rewrite El. apply H.
    + intros p' j. on_move p' p; cbn; [intros [[= <-]|?]; done|]. intros Hj. apply O in Hj. lia.
  - split; [|done|].
    + intros p' j. on_move p' p; cbn; [intros [= <-]; by simplify_map_eq|]. intros Hj%H. rewrite lookup_insert_ne; [done|]. intros ->. congruence.
    + intros p' j. on_move p' p; cbn; [intros [?|[= <-]]; [done|]; apply (O p); by left|]. apply O.
  - split; [|done|]; intros p' j; on_move p' p; cbn; try done; [apply H|by intros []|apply O].
  - split; [|done|].
    + intros p' j. on_move p' p; [done|]. cbn. intros Hj. pose proof (H _ _ Hj) as Hl. rewrite lookup_delete_ne; [done|]. intros ->.
      apply H in Hp. congruence.
    + intros p' j. on_move p' p; cbn; [by intros []|apply O].
  - split.
    + intros p' j. on_move p' p; [done|]. apply H.
    + intros path' j. cbn. intros [_ Hj]%lookup_delete_Some. by apply F in Hj.
    + intros p' j. on_move p' p; cbn; [by intros []|apply O].
Qed.

Lemma rtc_preserves {A} (R : A -> A -> Prop) (P : A -> Prop) : (forall x y, P x -> R x y -> P y) -> forall x y, P x -> rtc R x y -> P y.
Proof. intros H x y Px Rxy. induction Rxy; eauto. Qed.

Lemma lock_inv_reach path s : rtc (step path) start s -> lock_inv s.
Proof.
  apply (rtc_preserves (step path) lock_inv); [intros ? ?; apply lock_inv_step|apply lock_inv_start].
Qed.

(** The lock is exclusive for processes that have the same file. *)
Theorem lock_exclusive_per_file path s p q i : rtc (step path) start s -> places s p = Holding i -> places s q = Holding i -> p = q.
Proof. intros R Hp Hq. apply lock_inv_reach in R as [H _ _]. apply H in Hp, Hq. congruence. Qed.

(** A step behind which nobody has unlocked. *)
Definition acquire_step (path : cstr) (s s' : system) : Prop := step path s s' /\ forall p i, places s' p <> Released i.

(** Until then everybody has the file that the name leads to. *)
Record one_file (path : cstr) (s : system) : Prop := {
  of_inv : lock_inv s;
  of_kept : forall p i, places s p <> Released i;
  of_same : forall p i, places s p = Opened i \/ places s p = Holding i -> names (disk_files s) !! path = Some i
}.

Lemma one_file_step path s s' : one_file path s -> acquire_step path s s' -> one_file path s'.
Proof.
  intros [I K N] [St K']. split; [by eapply lock_inv_step|exact K'|]. destruct St as [p i f Hp E|p i Hp Hl|p i q Hp Hl|p i Hp|p i Hp].
  - unfold open_file in E. intros p' j. on_move p' p; cbn.
    + intros [[= <-]|]; [|done]. destruct (names (disk_files s) !! path) as [k|] eqn:En; injection E as <- <-; cbn; [done|by rewrite lookup_insert_eq].
    + intros Hj%N. rewrite Hj in E. by injection E as <- <-.
  - intros p' j. on_move p' p; cbn; [|apply N]. intros [|[= <-]]; [done|]. apply (N p). by left.
  - intros p' j. on_move p' p; cbn; [by intros []|apply N].
  - exfalso. apply (K' p i). rewrite places_move. by rewrite Nat.eqb_refl.
  - exfalso. by apply (K p i).
Qed.

(** As long as nobody unlocks, at most one process holds the lock of a path. *)
Theorem lock_exclusive path s p q : rtc (acquire_step path) start s -> holds s p -> holds s q -> p = q.
Proof.
  intros R [i Hp] [j Hq]. assert (one_file path s) as [I _ N].
  { apply (rtc_preserves (acquire_step path) (one_file path) (one_file_step path) start); [|done].
    split; [apply lock_inv_start|done|by intros ? ? []]. }
  assert (i = j) as -> by (pose proof (N p i (or_intror Hp)); pose proof (N q j (or_intror Hq)); congruence).
  pose proof (li_holds _ I _ _ Hp). pose proof (li_holds _ I _ _ Hq). congruence.
Qed.

(** It is not exclusive for the path: the process that unlocks removes the name after
    another one has locked the file, and a third one makes a new file. *)
Theorem lock_two_holders path : exists s, rtc (step path) start s /\ holds s 1 /\ holds s 2.
Proof.
  eexists. split.
  - eapply rtc_l; [eapply (SOpen path _ 0); [done|reflexivity]|].
    eapply rtc_l; [eapply (SLock path _ 0); [done|done]|].
    eapply rtc_l; [eapply (SOpen path _ 1); [done|]; unfold open_file; cbn; by rewrite lookup_insert_eq|].
    eapply rtc_l; [by eapply (SUnlock path _ 0)|].
    eapply rtc_l; [eapply (SLock path _ 1); [done|]; cbn; by rewrite lookup_delete_eq|].
    eapply rtc_l; [by eapply (SUnlink path _ 0)|].
    eapply rtc_l; [eapply (SOpen path _ 2); [done|]; unfold open_file; cbn; by rewrite lookup_delete_eq|].
    eapply rtc_l; [eapply (SLock path _ 2); [done|]; cbn; by rewrite lookup_insert_ne, lookup_delete_ne by done|].
    apply rtc_refl.
  - split; eexists; reflexivity.
Qed.
