(* ===== verification/CanTransport.v ===== *)
(** * The CAN transport (zcm/transport/transport_can.cpp)

    Frames of the generic serial transport are cut into CAN frames of at most eight
    bytes, all with one identifier.  The bus keeps what was written and the payloads
    that have passed the filters; time is explicit. *)
From S2P Require Import Prelude Bytes CircBuff Transport Url CNum Serial SerialProps SerialLink EventLog LogFile FileTransport SerialPort SerialPortProps.
Local Open Scope Z_scope.

(** ** Identifiers *)

Definition MASK_29B : Z := 2 ^ 29 - 1.
Definition MASK_11B : Z := 2 ^ 11 - 1.

(** The constants of linux/can.h. *)
Definition CAN_EFF_FLAG : Z := 2 ^ 31.
Definition CAN_RTR_FLAG : Z := 2 ^ 30.
Definition CAN_SFF_MASK : Z := 2 ^ 11 - 1.
Definition CAN_EFF_MASK : Z := 2 ^ 29 - 1.
Definition CAN_MAX_DLEN : nat := 8.

Record can_filter := mkFilter { can_id : Z; can_mask : Z }.

Inductive addr_mode := Extended | Standard | Both.

Record can_config := mkConfig { msgId : Z; txId : Z; rfilter : list can_filter }.

(** [strtoul] up to the end of the string. *)
Definition read_msgid (s : cstr) : option Z :=
  match strtoull s 10 with
  | Some (v, rest, _) => if bool_decide (rest = []) then Some (Z.land v MASK_29B) else None
  | None => if bool_decide (s = []) then Some 0 else None
  end.

Definition tx_mode (v : option cstr) : option addr_mode :=
  match v with
  | None => Some Extended
  | Some s => if bool_decide (s = str "extended") then Some Extended else if bool_decide (s = str "standard") then Some Standard else None
  end.

Definition rx_mode (v : option cstr) : option addr_mode :=
  match v with
  | None => Some Both
  | Some s =>
      if bool_decide (s = str "both") then Some Both
      else if bool_decide (s = str "standard") then Some Standard
      else if bool_decide (s = str "extended") then Some Extended else None
  end.

Definition standard_filter (id : Z) : can_filter := mkFilter id (Z.lor (Z.lor CAN_EFF_FLAG CAN_RTR_FLAG) CAN_SFF_MASK).
Definition extended_filter (id : Z) : can_filter :=
  mkFilter (Z.lor id CAN_EFF_FLAG) (Z.lor (Z.lor CAN_EFF_FLAG CAN_RTR_FLAG) CAN_EFF_MASK).

Definition filters (m : addr_mode) (id : Z) : list can_filter :=
  match m with
  | Both => [standard_filter id; extended_filter id]
  | Standard => [standard_filter id]
  | Extended => [extended_filter id]
  end.

Definition configure (id : Z) (tx rx : addr_mode) : option can_config :=
  let extendedTx := match tx with Extended => true | _ => false end in
  check (extendedTx || (Z.land id MASK_11B =? id)) ;;
  check (negb extendedTx || (Z.land id MASK_29B =? id)) ;;
  Some (mkConfig id (if extendedTx then Z.lor id CAN_EFF_FLAG else id) (filters rx id)).

Definition read_config (options : list (cstr * cstr)) : option can_config :=
  s <- findOption options (str "msgid") ;;
  id <- read_msgid s ;;
  tx <- tx_mode (findOption options (str "tx_addr_mode")) ;;
  rx <- rx_mode (findOption options (str "rx_addr_mode")) ;;
  configure id tx rx.

(** The rule of the socket: a frame is received when a filter matches its identifier. *)
Definition filter_matches (id : Z) (f : can_filter) : bool := Z.land id (can_mask f) =? Z.land (can_id f) (can_mask f).
Definition passes (c : can_config) (id : Z) : bool := existsb (filter_matches id) (rfilter c).

(** ** The bus *)

(** [bus_writes]: whether the next writes succeed.  [rcvtimeo]: the timeout of the socket,
    0 for none; [blocked]: a read waits for ever. *)
Record bus := mkBus {
  bus_tx : Z;
  out_frames : list (Z * list byte);
  in_frames : list (list byte);
  bus_writes : list bool;
  blocked : bool;
  bus_clock : clock;
  rcvtimeo : Z;
  can_left : Z
}.

Definition bus_out (b : bus) (fs : list (Z * list byte)) (ws : list bool) : bus :=
  mkBus (bus_tx b) fs (in_frames b) ws (blocked b) (bus_clock b) (rcvtimeo b) (can_left b).
Definition bus_in (b : bus) (fs : list (list byte)) (blk : bool) (c : clock) : bus :=
  mkBus (bus_tx b) (out_frames b) fs (bus_writes b) blk c (rcvtimeo b) (can_left b).
Definition bus_times (b : bus) (timeo left : Z) : bus :=
  mkBus (bus_tx b) (out_frames b) (in_frames b) (bus_writes b) (blocked b) (bus_clock b) timeo left.

Definition sendFrame (b : bus) (d : list byte) : bus * nat :=
  let ret := Nat.min (length d) CAN_MAX_DLEN in
  if default true (head (bus_writes b)) then (bus_out b (out_frames b ++ [(bus_tx b, take ret d)]) (tail (bus_writes b)), ret)
  else (bus_out b (out_frames b) (tail (bus_writes b)), 0%nat).

(** Every turn but the last sends a byte at least. *)
Fixpoint can_put (fuel : nat) (b : bus) (d : list byte) (ret : nat) : bus * nat :=
  match fuel with
  | O => (b, ret)
  | S fuel =>
      if (ret <? length d)%nat then
        let '(b, written) := sendFrame b (drop ret d) in
        if (written =? 0)%nat then (b, ret) else can_put fuel b d (ret + written)
      else (b, ret)
  end.

Definition bus_look (b : bus) : Z * bus := let '(t, c) := clock_utime (bus_clock b) in (t, bus_in b (in_frames b) (blocked b) c).

(** What does not fit into the buffer of the caller is thrown away. *)
Definition can_get (b : bus) (nData : nat) : bus * list byte :=
  let '(readStartUtime, b) := bus_look b in
  match in_frames b with
  | frame :: rest => (bus_in b rest (blocked b) (bus_clock b), take nData frame)
  | [] =>
      if rcvtimeo b =? 0 then (bus_in b [] true (bus_clock b), []) else
      let '(now, b) := bus_look (bus_in b [] (blocked b) (usleep (rcvtimeo b) (bus_clock b))) in
      let diff := wrapu 64 (now - readStartUtime) in
      (if can_left b <=? diff then b else bus_in b [] (blocked b) (usleep (can_left b - diff) (bus_clock b)), [])
  end.

(** ** The transport *)

Abbreviation can_gst := (zcm_trans_generic_serial_t bus).

(** The socket answers: made, bound, filtered. *)
Record can_answers := mkCanAnswers { socket_ok : bool; bind_ok : bool; filter_ok : bool }.

Record TransportCan := mkCan { config : option can_config; socSettingsGood : bool; can_serial : option can_gst }.

Definition CAN_MTU : nat := SERIAL_MTU.

(** The size of the name of an interface: [strcpy] does not look at it. *)
Definition IFNAMSIZ : nat := 16.

Definition can_construct (e : can_answers) (b : bus) (times : list Z) (url : zcm_url) : option TransportCan :=
  match read_config (zcm_url_opts url) with
  | None => Some (mkCan None false None)
  | Some c =>
      if negb (socket_ok e) then Some (mkCan (Some c) false None) else
      check (length (address url) <? IFNAMSIZ)%nat ;;
      if bind_ok e && filter_ok e then
        let b := mkBus (txId c) (out_frames b) (in_frames b) (bus_writes b) (blocked b) (bus_clock b) (rcvtimeo b) (can_left b) in
        g <- zcm_trans_generic_serial_create b times CAN_MTU (CAN_MTU * 10) true true true true ;;
        Some (mkCan (Some c) true (Some g))
      else Some (mkCan (Some c) false None)
  end.

Definition can_create (e : can_answers) (b : bus) (times : list Z) (url : zcm_url) : option (option TransportCan) :=
  t <- can_construct e b times url ;;
  if socSettingsGood t then Some (Some t) else Some None.

(** The payloads that were written. *)
Definition payload (fs : list (Z * list byte)) : list byte := concat fs.*2.

Lemma bus_payload_app l1 l2 : payload (l1 ++ l2) = payload l1 ++ payload l2.
Proof. unfold payload. by rewrite fmap_app, concat_app. Qed.

(** The frames carry the bytes that count as written, with the identifier of the sender. *)
Lemma can_put_spec fuel : forall b d ret, (ret <= length d)%nat -> (length d - ret < fuel)%nat -> exists b' n fs,
  can_put fuel b d ret = (b', n) /\ (ret <= n <= length d)%nat /\ out_frames b' = out_frames b ++ fs /\
  Forall (fun f => f.1 = bus_tx b /\ (0 < length f.2 <= CAN_MAX_DLEN)%nat) fs /\ payload fs = take (n - ret) (drop ret d) /\
  (bus_writes b = [] -> n = length d).
Proof.
  induction fuel as [|fuel IH]; intros b d ret Hr Hf; [lia|]. cbn [can_put]. destruct (Nat.ltb_spec ret (length d)) as [Hl|Hl].
  2: { exists b, ret, []. rewrite app_nil_r, Nat.sub_diag. repeat split; try done; try lia. }
  unfold sendFrame. rewrite length_drop. set (k := Nat.min (length d - ret) CAN_MAX_DLEN). assert (0 < k <= CAN_MAX_DLEN)%nat as Hk by (unfold CAN_MAX_DLEN in *; lia).
  destruct (default true (head (bus_writes b))) eqn:Ew.
  - destruct (Nat.eqb_spec k 0) as [|_]; [lia|].
    destruct (IH (bus_out b (out_frames b ++ [(bus_tx b, take k (drop ret d))]) (tail (bus_writes b))) d (ret + k)%nat) as (b'&n&fs&E&Hn&Ho&F&P&W); [lia..|].
    exists b', n, ((bus_tx b, take k (drop ret d)) :: fs). split; [exact E|]. split; [lia|]. cbn [out_frames bus_out] in Ho.
    split; [by rewrite Ho, <- app_assoc|]. split; [|split].
    + constructor; [|exact F]. cbn. rewrite length_take, length_drop. split; [done|lia].
    + change (payload ((bus_tx b, take k (drop ret d)) :: fs)) with (take k (drop ret d) ++ payload fs). rewrite P, <- drop_drop.
      rewrite <- (take_drop k (take (n - ret) (drop ret d))). rewrite take_take, Nat.min_l by lia. f_equal. rewrite skipn_firstn_comm. f_equal. lia.
    + intros Hw. apply W. cbn. by rewrite Hw.
  - cbn. eexists _, ret, []. rewrite app_nil_r, Nat.sub_diag. split; [done|]. repeat split; try done; try lia. intros Hw. by rewrite Hw in Ew.
Qed.

#[refine] Instance bus_sink : ByteSink bus :=
  {| write := fun b d => can_put (S (length d)) b d 0; sunk := fun b => payload (out_frames b) |}.
Proof.
  - intros b d. destruct (can_put_spec (S (length d)) b d 0) as (b'&n&fs&->&Hn&_); [lia..|]. cbn. lia.
  - intros b d. destruct (can_put_spec (S (length d)) b d 0) as (b'&n&fs&->&Hn&Ho&_&P&_); [lia..|]. cbn.
    by rewrite Ho, bus_payload_app, P, Nat.sub_0_r, drop_0.
Defined.

(** ** Methods *)

Definition with_serial (t : TransportCan) (g : can_gst) : TransportCan := mkCan (config t) (socSettingsGood t) (Some g).

Definition can_get_mtu (t : TransportCan) : option Z := (fun g => Z.of_nat (serial_get_mtu g)) <$> can_serial t.

Definition can_sendmsg (t : TransportCan) (msg : zcm_msg_t) : option (TransportCan * Z) :=
  g <- can_serial t ;;
  '(g, ret) <- serial_sendmsg g msg ;;
  if negb (ret =? ZCM_EOK) then Some (with_serial t g, ret) else
  let '(g, ret) := serial_update_tx g in
  Some (with_serial t g, ret).

Definition can_recvmsg_enable (t : TransportCan) (channel : cstr) (enable : bool) : option (TransportCan * Z) :=
  g <- can_serial t ;;
  let '(g, ret) := serial_recvmsg_enable g channel enable in
  Some (with_serial t g, ret).

(** The destructor: both members have their initial values when the constructor left early. *)
Definition can_destroy (t : TransportCan) : TransportCan := mkCan (config t) false None.

Definition on_bus (f : bus -> bus) (g : can_gst) : can_gst := with_usr g (f (usr g)).
Definition look_bus (g : can_gst) : Z * can_gst := let '(t, b) := bus_look (usr g) in (t, with_usr g b).

(** [setsockopt] succeeds.  The time is that since the start of the call.  Each turn but
    the last uses up a frame. *)
Fixpoint can_recv_loop (fuel : nat) (startUtime : Z) (g : can_gst) : option (can_gst * Z * option zcm_msg_t) :=
  match fuel with
  | O => None
  | S fuel =>
      '(g, ret, msg) <- serial_recvmsg g 0 ;;
      if ret =? ZCM_EOK then Some (g, ret, msg) else
      let g := on_bus (fun b => bus_times b (can_left b) (can_left b)) g in
      let '(g, _) := serial_update_rx_with can_get g in
      check (negb (blocked (usr g))) ;;
      let '(now, g) := look_bus g in
      let g := on_bus (fun b => bus_times b (rcvtimeo b) (time_left (can_left b) (wrapu 64 (now - startUtime)))) g in
      if 0 <? can_left (usr g) then can_recv_loop fuel startUtime g else Some (g, ZCM_EAGAIN, None)
  end.

(** The product is one of 32-bit numbers. *)
Definition can_recvmsg (t : TransportCan) (timeoutMs : Z) : option (TransportCan * Z * option zcm_msg_t) :=
  g <- can_serial t ;;
  let '(startUtime, g) := look_bus g in
  let g := on_bus (fun b => bus_times b (rcvtimeo b) (wrapu 32 (timeoutMs * 1000))) g in
  '(g, ret, msg) <- can_recv_loop (S (length (in_frames (usr g)))) startUtime g ;;
  Some (with_serial t g, ret, msg).
