(* ===== verification/CanProps.v ===== *)
(** * The CAN transport: who receives, and what *)
From S2P Require Import Prelude Bytes CircBuff Transport Url CNum Serial SerialProps SerialLink EventLog LogFile FileTransport SerialPort SerialPortProps CanTransport.
Local Open Scope Z_scope.

(** ** Identifiers *)

Lemma testbit_small e k n : 0 <= e < 2 ^ k -> 0 <= k <= n -> Z.testbit e n = false.
Proof. intros He Hn. rewrite <- (Z.mod_small e (2 ^ k)) by done. apply Z.mod_pow2_bits_high. lia. Qed.

(** The bits of a mask with both flags. *)
Lemma mask_bits k n : 0 <= k -> 0 <= n ->
  Z.testbit (Z.lor (Z.lor CAN_EFF_FLAG CAN_RTR_FLAG) (2 ^ k - 1)) n = (n =? 31) || (n =? 30) || (n <? k).
Proof.
  intros Hk Hn. unfold CAN_EFF_FLAG, CAN_RTR_FLAG. rewrite !Z.lor_spec, !Z.pow2_bits_eqb by lia.
  rewrite (Z.eqb_sym 31), (Z.eqb_sym 30). f_equal. replace (2 ^ k - 1) with (Z.ones k) by (rewrite Z.ones_equiv; lia). apply Z.testbit_ones_nonneg; lia.
Qed.

Lemma land_mask_small e k m : 0 <= e < 2 ^ m -> 0 <= k <= 29 -> 0 <= m <= 29 ->
  Z.land e (Z.lor (Z.lor CAN_EFF_FLAG CAN_RTR_FLAG) (2 ^ k - 1)) = e mod 2 ^ k.
Proof.
  intros He Hk Hm. apply Z.bits_inj'. intros n Hn. rewrite Z.land_spec, mask_bits by lia.
  destruct (Z.ltb_spec n k); [rewrite orb_true_r, andb_true_r; by rewrite Z.mod_pow2_bits_low|]. rewrite Z.mod_pow2_bits_high by lia.
  destruct (Z.testbit e n) eqn:E; [|done]. destruct (Z.ltb_spec n m); [|by rewrite (testbit_small e m) in E by lia].
  rewrite orb_false_r. cbn [andb]. destruct (Z.eqb_spec n 31); [lia|]. destruct (Z.eqb_spec n 30); [lia|done].
Qed.

Lemma land_mask_extended e k : 0 <= e < 2 ^ 29 -> 0 <= k <= 29 ->
  Z.land (Z.lor e CAN_EFF_FLAG) (Z.lor (Z.lor CAN_EFF_FLAG CAN_RTR_FLAG) (2 ^ k - 1)) = e mod 2 ^ k + 2 ^ 31.
Proof.
  intros He Hk. rewrite Z.land_lor_distr_l, (land_mask_small e k 29) by lia.
  assert (Z.land CAN_EFF_FLAG (Z.lor (Z.lor CAN_EFF_FLAG CAN_RTR_FLAG) (2 ^ k - 1)) = 2 ^ 31) as ->.
  { apply Z.bits_inj'. intros n Hn. rewrite Z.land_spec, mask_bits by lia. unfold CAN_EFF_FLAG. rewrite Z.pow2_bits_eqb by lia.
    destruct (Z.eqb_spec 31 n) as [<-|]; done. }
  assert (0 <= e mod 2 ^ k < 2 ^ 29) as Hm.
  { pose proof (Z.mod_pos_bound e (2 ^ k) ltac:(lia)). pose proof (Z.mod_le e (2 ^ k) ltac:(lia) ltac:(lia)). lia. }
  symmetry. apply Z.add_nocarry_lor. apply Z.bits_inj'. intros n Hn. rewrite Z.land_spec, Z.bits_0, Z.pow2_bits_eqb by lia.
  destruct (Z.eqb_spec 31 n) as [<-|]; [by rewrite (testbit_small _ 29) by lia|by rewrite andb_false_r].
Qed.

(** Whether an identifier passes the filter for standard and for extended frames. *)
Lemma standard_passes id e : 0 <= id < 2 ^ 29 -> 0 <= e < 2 ^ 11 ->
  filter_matches e (standard_filter id) = (e =? id mod 2 ^ 11) /\ filter_matches e (extended_filter id) = false.
Proof.
  intros Hi He. unfold filter_matches, standard_filter, extended_filter, CAN_SFF_MASK, CAN_EFF_MASK. cbn [can_id can_mask].
  rewrite !(land_mask_small e _ 11), (land_mask_small id 11 29), land_mask_extended, (Z.mod_small e) by lia. split; [done|].
  apply Z.eqb_neq. rewrite !Z.mod_small by lia. lia.
Qed.

Lemma extended_passes id e : 0 <= id < 2 ^ 29 -> 0 <= e < 2 ^ 29 ->
  filter_matches (Z.lor e CAN_EFF_FLAG) (standard_filter id) = false /\ filter_matches (Z.lor e CAN_EFF_FLAG) (extended_filter id) = (e =? id).
Proof.
  intros Hi He. unfold filter_matches, standard_filter, extended_filter, CAN_SFF_MASK, CAN_EFF_MASK. cbn [can_id can_mask].
  rewrite !land_mask_extended, (land_mask_small id 11 29) by lia. split.
  - apply Z.eqb_neq. pose proof (Z.mod_pos_bound e (2 ^ 11)). pose proof (Z.mod_pos_bound id (2 ^ 11)). lia.
  - rewrite !Z.mod_small by lia. destruct (Z.eqb_spec e id), (Z.eqb_spec (e + 2 ^ 31) (id + 2 ^ 31)); (done || lia).
Qed.

(** Which frames a transport receives: extended ones with its identifier, and standard
    ones with the low eleven bits of it, as far as its mode says; in particular its
    own, when the modes agree. *)
Theorem can_addressing id tx rx c e : 0 <= id < 2 ^ 29 -> configure id tx rx = Some c ->
  (0 <= e < 2 ^ 29 -> passes c (Z.lor e CAN_EFF_FLAG) = (match rx with Standard => false | _ => e =? id end)) /\
  (0 <= e < 2 ^ 11 -> passes c e = (match rx with Extended => false | _ => e =? id mod 2 ^ 11 end)).
Proof.
  intros Hi Ec. unfold configure in Ec. repeat (case_match; [|done]). injection Ec as <-. unfold passes. cbn [rfilter].
  split; intros He; [destruct (extended_passes id e Hi He) as [H1 H2]|destruct (standard_passes id e Hi He) as [H1 H2]];
    destruct rx; cbn [filters existsb]; by rewrite ?H1, ?H2, ?orb_false_r.
Qed.

(** A transport with a long identifier, as in the example of the help, receives the
    standard frames of another one. *)
Lemma can_foreign_frames : exists c, configure 65537 Extended Both = Some c /\ passes c 1 = true.
Proof. eexists. split; reflexivity. Qed.

(** ** Time *)

Record bus_ok (b : bus) : Prop := {
  bo_clock : clock_ok (bus_clock b);
  bo_free : blocked b = false;
  bo_left : 0 < can_left b < 2 ^ 60;
  bo_bytes : Forall bytes_ok (in_frames b)
}.

(** A read with the time that is left as its timeout: a frame, or the end of the time. *)
Record bus_step (b b' : bus) : Prop := {
  bs_ok : bus_ok b';
  bs_left : can_left b' = can_left b /\ rcvtimeo b' = rcvtimeo b;
  bs_frames : (length (in_frames b') <= length (in_frames b))%nat;
  bs_time : time (bus_clock b) <= time (bus_clock b') < time (bus_clock b) + 8 * 2 ^ 60;
  bs_progress : (length (in_frames b') < length (in_frames b))%nat \/ time (bus_clock b) + can_left b <= time (bus_clock b')
}.

Lemma bus_look_ok b : bus_ok b -> bus_ok (bus_look b).2 /\ time (bus_clock b) <= (bus_look b).1 < time (bus_clock b) + 2 ^ 60 /\
  time (bus_clock (bus_look b).2) = (bus_look b).1 /\ in_frames (bus_look b).2 = in_frames b /\ can_left (bus_look b).2 = can_left b /\
  rcvtimeo (bus_look b).2 = rcvtimeo b.
Proof.
  intros [C F L B]. destruct (clock_utime_ok _ C) as (Ht&Et&C'). unfold bus_look. destruct (clock_utime (bus_clock b)) as [t c]. cbn in *.
  repeat split; cbn; (done || lia).
Qed.

Lemma bus_in_ok b fs c : bus_ok b -> clock_ok c -> Forall bytes_ok fs -> bus_ok (bus_in b fs (blocked b) c).
Proof. intros [C F L B] ? ?. by split. Qed.

Lemma can_get_ok b n : bus_ok b -> rcvtimeo b = can_left b -> bus_step b (can_get b n).1 /\ bytes_ok (can_get b n).2 /\
  time (bus_clock (can_get b n).1) < time (bus_clock b) + 4 * 2 ^ 60.
Proof.
  intros O Hr. unfold can_get. destruct (bus_look_ok b O) as (O1&T1&C1&F1&L1&R1). destruct (bus_look b) as [t1 b1]. cbn [fst snd] in *.
  destruct (in_frames b1) as [|f fs] eqn:E1.
  - rewrite R1, Hr. destruct (Z.eqb_spec (can_left b) 0) as [E0|_]; [pose proof (bo_left _ O); lia|].
    assert (bus_ok (bus_in b1 [] (blocked b1) (usleep (can_left b) (bus_clock b1)))) as O2 by (apply bus_in_ok; [done|apply O1|constructor]).
    destruct (bus_look_ok _ O2) as (O3&T3&C3&F3&L3&R3). destruct (bus_look _) as [t3 b3]. cbn [fst snd bus_in bus_clock usleep time can_left in_frames rcvtimeo] in *.
    pose proof (bo_left _ O). rewrite (wrapu_id 64) by (unfold in_u; lia). rewrite (proj2 (Z.leb_le (can_left b3) (t3 - t1))) by lia.
    split; [|split; [constructor|lia]]. split; [done|split; congruence|rewrite F3; cbn; lia|lia|right; lia].
  - pose proof (bo_bytes _ O1) as B. rewrite E1 in B. apply Forall_cons in B as [Bf B]. cbn [fst snd]. split; [|split; [by apply Forall_take|cbn; lia]].
    split; cbn [bus_in can_left rcvtimeo in_frames bus_clock]; [apply bus_in_ok; [done|apply O1|done]|split; congruence|rewrite <- F1; cbn; lia|lia|].
    left. rewrite <- F1. cbn. lia.
Qed.

Lemma can_get_le b n : (length (can_get b n).2 <= n)%nat.
Proof.
  unfold can_get. destruct (bus_look b) as [t1 b1]. destruct (in_frames b1); [|cbn; rewrite length_take; lia].
  destruct (rcvtimeo b1 =? 0); [cbn; lia|]. destruct (bus_look _). cbn. lia.
Qed.

Lemma reads_bus m b bs b' : reads can_get m b bs b' -> bus_ok b -> rcvtimeo b = can_left b -> bus_step b b' /\ bytes_ok bs.
Proof.
  intros R O Hr. destruct R as [u n u' bs _ E|u n u1 b1 n2 u' b2 _ E _ E2]; destruct (can_get_ok u n O Hr) as (S&B&T);
    rewrite E in S, B, T; cbn [fst snd] in S, B, T; [done|].
  destruct S as [O1 [L1 R1] F1 T1 P1]. destruct (can_get_ok u1 n2 O1 ltac:(congruence)) as ([O2 [L2 R2] F2 T2 P2]&B2&T'). rewrite E2 in *. cbn [fst snd] in *.
  split; [|by apply Forall_app]. split; [done|split; congruence|lia|lia|]. destruct P1; [left; lia|right; lia].
Qed.

(** The receiving side. *)
Record can_ok (g : can_gst) (l : list byte) : Prop := {
  co_rx : rx_ok g l;
  co_bus : bus_ok (usr g)
}.

Lemma can_ok_bus g l b : can_ok g l -> bus_ok b -> can_ok (with_usr g b) l.
Proof. intros [[] ?] ?. by split; [split|]. Qed.

Lemma can_recv_ok g l : can_ok g l -> exists g' rc om l', serial_recvmsg g 0 = Some (g', rc, om) /\ can_ok g' l' /\ usr g' = usr g /\ mtu g' = mtu g /\
  match om with Some m => rc = ZCM_EOK /\ (length (buf m) <= mtu g)%nat | None => rc = ZCM_EAGAIN end.
Proof.
  intros [X O]. destruct (serial_recv_total g l 0 X) as (g'&rc&om&k&E&_&X'&(_&Sm&Su&_)&Ho). exists g', rc, om, (drop k l).
  split; [done|]. split; [split; [done|by rewrite Su]|]. split; [done|]. split; [done|]. destruct om; [|done]. by destruct Ho as (?&?&_).
Qed.

Lemma can_update_ok g l : can_ok g l -> rcvtimeo (usr g) = can_left (usr g) -> let g' := (serial_update_rx_with can_get g).1 in
  (exists bs, can_ok g' (l ++ bs)) /\ bus_step (usr g) (usr g') /\ mtu g' = mtu g.
Proof.
  intros [X O] Hr. unfold serial_update_rx_with. pose proof (cb_flush_in_with_rep can_get can_get_le (recvBuffer g) l (usr g) (rx_rep _ _ X)) as F.
  destruct (cb_flush_in_with can_get (recvBuffer g) (usr g)) as [[cb b] n]. destruct F as (bs&_&R&Rp&_). cbn [fst].
  destruct (reads_bus _ _ _ _ R O Hr) as [S B]. split; [|done]. exists bs. split; [|apply S].
  destruct X as [X1 X2 X3 X4]. split; cbn; try done. by apply Forall_app.
Qed.

Lemma can_recv_loop_total fuel start : forall g l, can_ok g l -> start <= time (bus_clock (usr g)) < start + 2 ^ 61 ->
  (length (in_frames (usr g)) < fuel)%nat -> exists g' rc om l',
  can_recv_loop fuel start g = Some (g', rc, om) /\ rx_ok g' l' /\
  match om with Some m => rc = ZCM_EOK /\ (length (buf m) <= mtu g)%nat | None => rc = ZCM_EAGAIN end.
Proof.
  induction fuel as [|fuel IH]; intros g l C Ht Hf; [lia|]. cbn [can_recv_loop].
  destruct (can_recv_ok g l C) as (g1&rc&om&l1&->&C1&U1&M1&Ho). destruct om as [m|].
  { destruct Ho as [-> Hm]. exists g1, ZCM_EOK, (Some m), l1. split; [done|]. split; [apply C1|done]. }
  rewrite Ho. cbn [Z.eqb ZCM_EAGAIN ZCM_EOK]. set (b2 := bus_times (usr g1) (can_left (usr g1)) (can_left (usr g1))).
  assert (bus_ok b2) as O2 by (destruct (co_bus _ _ C1); by split).
  destruct (can_update_ok (with_usr g1 b2) l1 (can_ok_bus _ _ _ C1 O2) eq_refl) as ([bs C3]&S3&M3).
  change (on_bus (fun b => bus_times b (can_left b) (can_left b)) g1) with (with_usr g1 b2).
  destruct (serial_update_rx_with can_get (with_usr g1 b2)) as [g3 rc3]. cbn [fst] in *. destruct S3 as [O3 [L3 R3] F3 T3 P3].
  rewrite (bo_free _ O3). cbn [negb]. unfold look_bus. destruct (bus_look_ok _ O3) as (O4&T4&K4&F4&L4&R4). destruct (bus_look (usr g3)) as [now b4]. cbn [fst snd] in *.
  set (g5 := on_bus _ (with_usr g3 b4)). change (usr (with_usr g1 b2)) with b2 in *. subst b2. cbn [bus_times can_left in_frames bus_clock] in *. rewrite U1 in *.
  assert (can_left (usr g5) = time_left (can_left (usr g)) (now - start)) as L5.
  { subst g5. cbn. rewrite (wrapu_id 64) by (unfold in_u; lia). by rewrite L4, L3. }
  assert (bus_clock (usr g5) = bus_clock b4 /\ in_frames (usr g5) = in_frames b4 /\ mtu g5 = mtu g) as (K5&F5&M5) by (split; [reflexivity|split; [reflexivity|exact (eq_trans M3 M1)]]).
  destruct (Z.ltb_spec 0 (can_left (usr g5))) as [Hp|_].
  - unfold time_left in L5. destruct (Z.ltb_spec (now - start) (can_left (usr g))) as [Hd|]; [|lia].
    pose proof (bo_left _ (co_bus _ _ C)). destruct (IH g5 (l1 ++ bs)) as (g'&rc'&om'&l'&E&X'&H'); [|rewrite K5; lia|rewrite F5, F4; destruct P3; lia|].
    + destruct C3 as [[] _], O4. split; split; try done. lia.
    + exists g', rc', om', l'. rewrite M5 in H'. done.
  - exists g5, ZCM_EAGAIN, None, (l1 ++ bs). split; [done|]. split; [|done]. destruct C3 as [[] _]. by split.
Qed.

(** ** Receiving *)

Definition can_receiving (t : TransportCan) (l : list byte) : Prop :=
  exists g, can_serial t = Some g /\ rx_ok g l /\ clock_ok (bus_clock (usr g)) /\ blocked (usr g) = false /\ Forall bytes_ok (in_frames (usr g)).

(** Receiving ends, whatever frames come and whenever, when the timeout in microseconds is
    not a multiple of 2^32: a message that is not longer than the MTU, or EAGAIN. *)
Theorem can_receives (t : TransportCan) (l : list byte) (timeoutMs : Z) : can_receiving t l -> wrapu 32 (timeoutMs * 1000) <> 0 ->
  exists t' rc om, can_recvmsg t timeoutMs = Some (t', rc, om) /\
  match om with Some m => rc = ZCM_EOK | None => rc = ZCM_EAGAIN end.
Proof.
  intros (g&Eg&X&Ck&Bl&B) Hz. unfold can_recvmsg, look_bus, bus_look. rewrite Eg. cbn [mbind option_bind].
  destruct (clock_utime_ok _ Ck) as (Ht&Et&C'). destruct (clock_utime (bus_clock (usr g))) as [now c]. cbn [fst snd] in *.
  set (g1 := on_bus _ _). pose proof (wrapu_range 32 (timeoutMs * 1000) ltac:(lia)) as Hw. unfold in_u in Hw.
  destruct (can_recv_loop_total (S (length (in_frames (usr g1)))) now g1 l) as (g'&rc&om&l'&->&_&H).
  - split; [by destruct X; split|]. split; cbn; try done. lia.
  - change (bus_clock (usr g1)) with c. lia.
  - lia.
  - eexists _, rc, om. split; [reflexivity|]. destruct om; [apply H|done].
Qed.

(** With a timeout of zero the socket has none, and a call that finds nothing waits for ever. *)
Theorem can_zero_blocks (t : TransportCan) (g : can_gst) : can_serial t = Some g -> rx_ok g [] -> in_frames (usr g) = [] ->
  can_recvmsg t 0 = None.
Proof.
  intros Eg X F. unfold can_recvmsg, look_bus, bus_look. rewrite Eg. cbn [mbind option_bind]. destruct (clock_utime (bus_clock (usr g))) as [now c].
  set (g1 := on_bus _ _). assert (rx_ok g1 []) as X1 by (destruct X; by split). cbn [can_recv_loop].
  destruct (serial_recvmsg_nil g1 0 X1) as (g2&->&(_&_&U2&_)&X2). cbn [mbind option_bind Z.eqb ZCM_EAGAIN ZCM_EOK].
  set (g3 := on_bus _ g2). assert (rx_ok g3 []) as X3 by (destruct X2; by split).
  assert (in_frames (usr g3) = [] /\ rcvtimeo (usr g3) = 0) as [F3 R3] by (subst g3; cbn; rewrite U2; by cbn). clearbody g3.
  assert (forall n, blocked (can_get (usr g3) n).1 = true /\ (can_get (usr g3) n).2 = [] /\ in_frames (can_get (usr g3) n).1 = [] /\
    rcvtimeo (can_get (usr g3) n).1 = 0) as Hg.
  { intros n. unfold can_get, bus_look. destruct (clock_utime (bus_clock (usr g3))) as [t' c']. cbn. rewrite F3, R3. by cbn. }
  assert (forall b n, blocked b = true -> blocked (can_get b n).1 = true) as Hb.
  { intros b n Hb. unfold can_get, bus_look. destruct (clock_utime (bus_clock b)) as [t' c']. cbn. destruct (in_frames b); [|done].
    destruct (rcvtimeo b =? 0); [done|]. by case_match. }
  unfold serial_update_rx_with. pose proof (cb_flush_in_with_rep can_get can_get_le (recvBuffer g3) [] (usr g3) (rx_rep _ _ X3)) as Fl.
  destruct (cb_flush_in_with can_get (recvBuffer g3) (usr g3)) as [[cb b] n]. destruct Fl as (bs&_&R&_). cbn [usr].
  assert (blocked b = true) as ->; [|done]. inversion R as [u n1 u' bs' _ E|u n1 u1 b1 n2 u' b2 _ E _ E2]; subst; pose proof (proj1 (Hg n1)) as H; rewrite E in H.
  - exact H.
  - pose proof (Hb u1 n2 H) as H2. by rewrite E2 in H2.
Qed.

(** ** Examples *)

(** Two messages of 13 bytes, cut into frames of eight and of five bytes. *)
Definition two_messages : list (list byte) :=
  let f := frame [65] [1; 2; 3] in [take 8 f; drop 8 f; take 8 f; drop 8 f].
Definition busy_bus : bus := mkBus 7 [] two_messages [] false (mkClock 0 []) 0 100000.

(** A frame at the end of the ring is cut: all frames have come, and the second message is
    lost.  The ring has 24 bytes here; the same happens at the end of the one of 163840. *)
Lemma can_frame_cut : exists g g1 g2 m,
  zcm_trans_generic_serial_create busy_bus [] 4 24 true true true true = Some g /\
  can_recv_loop 10 0 g = Some (g1, ZCM_EOK, Some m) /\ buf m = [1; 2; 3] /\
  can_recv_loop 10 0 g1 = Some (g2, ZCM_EAGAIN, None) /\ in_frames (usr g2) = [] /\ cb_size (recvBuffer g2) = 11%nat.
Proof.
  do 4 eexists. split; [reflexivity|]. split; [vm_compute; reflexivity|]. split; [reflexivity|]. split; [vm_compute; reflexivity|].
  split; reflexivity.
Qed.

(** The time since the start is taken off in every turn: of 100 ms, the first frame after
    30 ms and the second 40 ms later leave nothing. *)
Lemma can_time_counted_again : exists g g',
  zcm_trans_generic_serial_create (mkBus 7 [] [[1]; [2]] [] false (mkClock 0 [0; 30000; 0; 40000]) 0 100000) [] 4 24 true true true true = Some g /\
  can_recv_loop 10 0 g = Some (g', ZCM_EAGAIN, None) /\ time (bus_clock (usr g')) = 70000.
Proof. do 2 eexists. split; [reflexivity|]. split; [vm_compute; reflexivity|reflexivity]. Qed.
