(* ===== verification/LogPlayer.v ===== *)
(** * Playing logs (tools/cpp/logplayer/main.cpp)

    The player reads a log, drops events until a start condition holds, filters
    and renames by channel, and publishes each event when it is due, or writes it to
    another log.  The settings are those that are read from the JSON file; the clock
    is that of [FileTransport]. *)
From Stdlib Require Import SpecFloat.
From S2P Require Import Prelude Bytes Transport Filter EventLog LogFile FileTransport.
Local Open Scope Z_scope.

Inductive StartMode := CHANNEL | US_DELAY | NUM_START_MODES.
Inductive FilterMode := WHITELIST | BLACKLIST | SPECIFIED.

#[export] Instance StartMode_eq_dec : EqDecision StartMode.
Proof. solve_decision. Defined.
#[export] Instance FilterMode_eq_dec : EqDecision FilterMode.
Proof. solve_decision. Defined.

Record ChannelDetails := mkDetails { enabled : bool; replayChannel : cstr }.

Record LogPlayer := mkPlayer {
  speed : spec_float;
  highAccuracyMode : bool;
  startMode : StartMode;
  startChan : cstr;
  startDelayUs : Z;
  filtering : option FilterMode;
  channelMap : gmap cstr ChannelDetails
}.

(** ** The table of channels *)

(** [channelMap[channel]], which makes an entry when there is none. *)
Definition details (m : gmap cstr ChannelDetails) (channel : cstr) : ChannelDetails :=
  default (mkDetails false []) (m !! channel).

(** [specified] is the value of the channel in the file. *)
Definition newChannel (mode : FilterMode) (specified : cstr -> bool) (m : gmap cstr ChannelDetails) (channel : cstr)
  : gmap cstr ChannelDetails :=
  let e := match mode with SPECIFIED => specified channel | _ => true end in
  <[channel := mkDetails e (replayChannel (details m channel))]> m.

Definition rename_entry (m : gmap cstr ChannelDetails) (r : cstr * cstr) : gmap cstr ChannelDetails :=
  <[r.1 := mkDetails (enabled (details m r.1)) r.2]> m.

(** The members of FILTER and of RENAME. *)
Definition build_map (filter : option (FilterMode * list cstr * (cstr -> bool))) (renames : list (cstr * cstr))
  : gmap cstr ChannelDetails :=
  let m := match filter with
           | Some (mode, channels, specified) => fold_left (newChannel mode specified) channels ∅
           | None => ∅
           end in
  fold_left rename_entry renames m.

(** ** One event *)

Definition start_now (p : LogPlayer) (firstMsgUtime : Z) (le : LogEvent) : bool :=
  match startMode p with
  | CHANNEL => bool_decide (le_channel le = startChan p)
  | US_DELAY => wrapu 64 (firstMsgUtime + startDelayUs p) <? wrapu 64 (le_timestamp le)
  | NUM_START_MODES => false
  end.

Definition renamed (p : LogPlayer) (le : LogEvent) : LogEvent :=
  match channelMap p !! le_channel le with
  | Some d =>
      if bool_decide (replayChannel d = []) then le
      else mkLogEvent (le_eventnum le) (le_timestamp le) (replayChannel d) (le_datalen le) (le_data le)
  | None => le
  end.

(** Publish, leave out, or stop with an error. *)
Inductive decision := Play | Skip | Stop.

Definition decide_event (p : LogPlayer) (channel : cstr) : decision :=
  match filtering p with
  | None => Play
  | Some WHITELIST => if channelMap p !! channel then Play else Skip
  | Some BLACKLIST => if channelMap p !! channel then Skip else Play
  | Some SPECIFIED =>
      match channelMap p !! channel with
      | None => Stop
      | Some d => if enabled d then Play else Skip
      end
  end.

(** Where events go: another log, or the network with the time of publishing. *)
Inductive sink := ToLog (l : eventlog) | ToZcm (msgs : list (Z * cstr * list byte)).

Definition publish (now : Z) (out : sink) (le : LogEvent) : option sink :=
  match out with
  | ToLog l => '(_, l) <- writeEvent l le ;; Some (ToLog l)
  | ToZcm msgs => Some (ToZcm (msgs ++ [(now, le_channel le, le_data le)]))
  end.

(** The clock behind the sleep and the busy waiting: the time goes on while one looks. *)
Definition wait_until (p : LogPlayer) (firstMsgUtime firstDispatchUtime : Z) (startedPub : bool) (le : LogEvent) (c : clock)
  : option clock :=
  let '(nowUs, c) := clock_utime c in
  let localDiffUs := wrapu 64 (nowUs - firstDispatchUtime) in
  let logDiffUs := wrapu 64 (wrapu 64 (le_timestamp le) - firstMsgUtime) in
  logDiffSpeedUs <- scaled_diff (speed p) logDiffUs ;;
  let diffUs := if localDiffUs <? logDiffSpeedUs then logDiffSpeedUs - localDiffUs else 0 in
  let busyWaitUs := if highAccuracyMode p then 10000 else 0 in
  let diffUs := if busyWaitUs <? diffUs then diffUs - busyWaitUs else 0 in
  let c := if (0 <? diffUs) && startedPub then usleep diffUs c else c in
  let '(t, c) := clock_utime c in
  Some (mkClock (Z.max t (firstDispatchUtime + logDiffSpeedUs)) (delays c)).

Section run.
(** Whether a signal has come by the n-th event. *)
Variable done : nat -> bool.
Variable p : LogPlayer.

(** The loop with the event that was read: the return code and the output.  Every turn reads a record. *)
Fixpoint play_loop (fuel turn : nat) (firstMsgUtime firstDispatchUtime : Z) (zcmIn : eventlog) (le : LogEvent)
  (startedPub : bool) (c : clock) (out : sink) : option (Z * sink) :=
  match fuel with
  | O => None
  | S fuel =>
      c <- wait_until p firstMsgUtime firstDispatchUtime startedPub le c ;;
      let startedPub := startedPub || start_now p firstMsgUtime le in
      let newLe := renamed p le in
      let next out :=
        '(le, zcmIn) <- readNextEvent zcmIn ;;
        match le with
        | None => Some (0, out)
        | Some le =>
            if done turn then Some (0, out)
            else play_loop fuel (S turn) firstMsgUtime firstDispatchUtime zcmIn le startedPub c out
        end in
      if startedPub then
        match decide_event p (le_channel le) with
        | Play => out <- publish (time c) out newLe ;; next out
        | Skip => next out
        | Stop => _ <- readNextEvent zcmIn ;; Some (1, out)
        end
      else next out
  end.

Definition run (zcmIn : eventlog) (c : clock) (out : sink) : option (Z * sink) :=
  '(le, l) <- readNextEvent zcmIn ;;
  let '(nowUs, c) := clock_utime c in
  match le with
  | None => Some (0, out)
  | Some le =>
      play_loop (S (length (content (lfile zcmIn)))) 0 (wrapu 64 (le_timestamp le)) nowUs l le
        (bool_decide (startMode p = NUM_START_MODES)) c out
  end.
End run.
