(* ===== verification/LogPlayerProps.v ===== *)
(** * Playing logs: what is played, and when *)
From Stdlib Require Import SpecFloat.
From stdpp Require Import sorting.
From S2P Require Import Prelude Bytes Transport Filter EventLog EventLogProps LogFile LogRepair LogRepairProps FileTransport LogPlayer.
Local Open Scope Z_scope.

(** ** The reference *)

Fixpoint drop_until {A} (f : A -> bool) (l : list A) : list A :=
  match l with
  | [] => []
  | x :: l' => if f x then l else drop_until f l'
  end.

Fixpoint take_while {A} (f : A -> bool) (l : list A) : list A :=
  match l with
  | [] => []
  | x :: l => if f x then x :: take_while f l else []
  end.

Section reference.
Context (p : LogPlayer) (first : Z).

(** The event at which playing starts. *)
Definition starts (e : event) : bool :=
  match startMode p with
  | CHANNEL => bool_decide (EventLog.channel e = startChan p)
  | US_DELAY => wrapu 64 (first + startDelayUs p) <? wrapu 64 (timestamp e)
  | NUM_START_MODES => true
  end.

(** Where every channel has to be specified: those that are. *)
Definition known (e : event) : bool :=
  negb (bool_decide (filtering p = Some SPECIFIED)) || bool_decide (EventLog.channel e ∈ dom (channelMap p)).

(** The channels of a white list, those not on a black list, those that are specified as enabled. *)
Definition selected (e : event) : bool :=
  match filtering p with
  | None => true
  | Some WHITELIST => bool_decide (EventLog.channel e ∈ dom (channelMap p))
  | Some BLACKLIST => bool_decide (EventLog.channel e ∉ dom (channelMap p))
  | Some SPECIFIED => bool_decide (enabled <$> channelMap p !! EventLog.channel e = Some true)
  end.

Lemma decide_event_spec e :
  decide_event p (EventLog.channel e) = if known e then (if selected e then Play else Skip) else Stop.
Proof.
  unfold decide_event, known, selected.
  destruct (filtering p) as [[| |]|]; repeat case_bool_decide; cbn [orb negb]; try done;
    rewrite ?elem_of_dom in *; destruct (channelMap p !! EventLog.channel e) as [[[] r]|]; naive_solver.
Qed.

Definition rename_event (e : event) : event :=
  match channelMap p !! EventLog.channel e with
  | Some d =>
      if bool_decide (replayChannel d = []) then e
      else mkEvent (eventnum e) (timestamp e) (Z.of_nat (length (replayChannel d))) (datalen e) (replayChannel d) (data e)
  | None => e
  end.

(** From the start on, up to the first event the settings do not know: those that are selected, renamed. *)
Definition played (es : list event) : list event :=
  rename_event <$> List.filter selected (take_while known (drop_until starts es)).

Definition exit_code (es : list event) : Z := if forallb known (drop_until starts es) then 0 else 1.

(** The event is not due before [t]. *)
Definition due (dispatch t : Z) (e : event) : Prop := exists s,
  scaled_diff (speed p) (wrapu 64 (wrapu 64 (timestamp e) - first)) = Some s /\ dispatch + s <= t.

(** The output has grown by the events. *)
Definition emitted (dispatch : Z) (out out' : sink) (es : list event) : Prop :=
  match out, out' with
  | ToLog l, ToLog l' => content (lfile l') = content (lfile l) ++ take (room (lfile l)) (encode_log (eventcount l) es)
  | ToZcm msgs, ToZcm msgs' => exists more, msgs' = msgs ++ more /\
      Forall2 (fun '(t, c, bs) e => c = EventLog.channel e /\ bs = data e /\ due dispatch t e) more es
  | _, _ => False
  end.

Lemma emitted_nil dispatch out : emitted dispatch out out [].
Proof. destruct out as [l|msgs]; cbn; [by rewrite take_nil, app_nil_r|]. exists []. by rewrite app_nil_r. Qed.

Lemma renamed_handed k e : valid e -> exists k', renamed p (handed k e) = handed k' (rename_event e).
Proof.
  intros V. assert (le_channel (handed k e) = EventLog.channel e) as Hc.
  { cbn. rewrite (v_channel _ V), Nat2Z.id. apply firstn_all. }
  unfold renamed, rename_event. rewrite Hc. destruct (channelMap p !! EventLog.channel e) as [d|]; [|by eexists].
  case_bool_decide; [by eexists|]. exists k. unfold handed, cplusplusIfyEvent. cbn. by rewrite Nat2Z.id, firstn_all.
Qed.

Lemma handed_channel k e : valid e -> le_channel (handed k e) = EventLog.channel e.
Proof. intros V. cbn. rewrite (v_channel _ V), Nat2Z.id. apply firstn_all. Qed.

(** One event more. *)
Lemma publish_emitted dispatch now out k e : valid e -> due dispatch now e -> exists out1,
  publish now out (handed k e) = Some out1 /\
  forall out' es, emitted dispatch out1 out' es -> emitted dispatch out out' (e :: es).
Proof.
  intros V D. destruct out as [l|msgs]; cbn [publish].
  - destruct (write_handed l k e V) as (ok&l1&->&_&C&R&N). eexists. split; [reflexivity|].
    intros [l'|msgs'] es H; [|done]. cbn [emitted] in *. rewrite H, C, R. cbn [encode_log]. rewrite <- app_assoc. f_equal.
    by apply take_log_step.
  - eexists. split; [reflexivity|]. intros [l'|msgs'] es H; [done|]. cbn [emitted] in *. destruct H as (more&->&F).
    rewrite <- app_assoc. eexists. split; [reflexivity|]. constructor; [|done]. by rewrite (handed_channel _ _ V).
Qed.

(** Behind the waiting the event is due. *)
Lemma wait_due dispatch started k e c s : scaled_diff (speed p) (wrapu 64 (wrapu 64 (timestamp e) - first)) = Some s ->
  exists c', wait_until p first dispatch started (handed k e) c = Some c' /\ due dispatch (time c') e.
Proof.
  intros S. unfold wait_until. destruct (clock_utime c) as [now c1]. change (le_timestamp (handed k e)) with (timestamp e). rewrite S.
  match goal with |- context [clock_utime ?x] => destruct (clock_utime x) as [t c2] end.
  eexists. split; [reflexivity|]. exists s. split; [done|]. cbn [time]. lia.
Qed.

Lemma start_now_handed k e : valid e -> startMode p <> NUM_START_MODES -> start_now p first (handed k e) = starts e.
Proof.
  intros V N. unfold start_now, starts. rewrite (handed_channel _ _ V). by destruct (startMode p).
Qed.

(** The reference when playing has begun, or not. *)
Definition rest_played (started : bool) (es : list event) : list event :=
  if started then rename_event <$> List.filter selected (take_while known es) else played es.
Definition rest_code (started : bool) (es : list event) : Z :=
  if started then (if forallb known es then 0 else 1) else exit_code es.

Lemma rest_started started e es : started || starts e = true ->
  rest_played started (e :: es) = rest_played true (e :: es) /\ rest_code started (e :: es) = rest_code true (e :: es).
Proof.
  destruct started; [done|]. cbn [orb]. intros H. unfold rest_played, rest_code, played, exit_code. cbn [drop_until]. by rewrite H.
Qed.

Lemma rest_not_started e es : starts e = false ->
  rest_played false (e :: es) = rest_played false es /\ rest_code false (e :: es) = rest_code false es.
Proof. intros H. unfold rest_played, rest_code, played, exit_code. cbn [drop_until]. by rewrite H. Qed.

(** An event on its own. *)
Lemma rest_played_cons e es :
  rest_played true (e :: es) = match decide_event p (EventLog.channel e) with
                               | Play => rename_event e :: rest_played true es | Skip => rest_played true es | Stop => [] end /\
  rest_code true (e :: es) = match decide_event p (EventLog.channel e) with Stop => 1 | _ => rest_code true es end.
Proof.
  unfold rest_played, rest_code. cbn [take_while forallb]. rewrite decide_event_spec.
  destruct (known e); [|done]. cbn [andb List.filter]. by destruct (selected e).
Qed.

Section loop.
Context (done : nat -> bool) (not_done : forall n, done n = false) (dispatch : Z).

(** Events that can be played: their waiting time is defined, and renamed they fit into a log. *)
Definition playable (e : event) : Prop :=
  valid e /\ valid (rename_event e) /\ exists s, scaled_diff (speed p) (wrapu 64 (wrapu 64 (timestamp e) - first)) = Some s.

Lemma due_rename t e : due dispatch t e -> due dispatch t (rename_event e).
Proof.
  unfold due, rename_event. intros D. destruct (channelMap p !! EventLog.channel e) as [d|]; [|done]. by case_bool_decide.
Qed.

(** What the loop does with the events behind. *)
Definition continues (started : bool) (es : list event) (next : sink -> option (Z * sink)) : Prop :=
  forall o, exists out', next o = Some (rest_code started es, out') /\ emitted dispatch o out' (rest_played started es).

(** One turn, given the next ones. *)
Lemma turn_spec started e es k ck s out next (stop : option (Z * sink)) : playable e ->
  scaled_diff (speed p) (wrapu 64 (wrapu 64 (timestamp e) - first)) = Some s -> due dispatch (time ck) e ->
  (started = false -> startMode p <> NUM_START_MODES) -> stop = Some (1, out) ->
  continues (started || start_now p first (handed k e)) es next -> exists out',
  (if started || start_now p first (handed k e) then
     match decide_event p (le_channel (handed k e)) with
     | Play => out <- publish (time ck) out (renamed p (handed k e)) ;; next out
     | Skip => next out
     | Stop => stop
     end
   else next out) = Some (rest_code started (e :: es), out') /\
  emitted dispatch out out' (rest_played started (e :: es)).
Proof.
  intros (V&Vr&_) Es D Hst -> Hn. destruct (renamed_handed k e V) as [k' ->]. rewrite (handed_channel _ _ V).
  assert (started || start_now p first (handed k e) = started || starts e) as St
    by (destruct started; [done|]; cbn [orb]; apply start_now_handed; auto).
  rewrite St in *. destruct (started || starts e) eqn:B.
  - destruct (rest_started started e es B) as [-> ->]. destruct (rest_played_cons e es) as [-> ->].
    destruct (decide_event p (EventLog.channel e)).
    + destruct (publish_emitted dispatch (time ck) out k' (rename_event e) Vr (due_rename _ _ D)) as (out1&->&Hp).
      destruct (Hn out1) as (out'&->&Em). exists out'. split; [done|by apply Hp].
    + apply Hn.
    + exists out. split; [done|apply emitted_nil].
  - apply orb_false_iff in B as [-> B]. destruct (rest_not_started e es B) as [-> ->]. apply Hn.
Qed.

Lemma play_loop_spec es : forall e fuel turn c q k t started ck out, playable e -> Forall playable es -> 0 <= k ->
  k + 1 + Z.of_nat (length es) < 2 ^ 63 -> cut (k + 1 + Z.of_nat (length es)) t -> at_boundary c q (encode_log (k + 1) es ++ t) ->
  (length es < fuel)%nat -> (started = false -> startMode p <> NUM_START_MODES) -> exists out',
  play_loop done p fuel turn first dispatch (log_at c q 0 0) (handed k e) started ck out = Some (rest_code started (e :: es), out') /\
  emitted dispatch out out' (rest_played started (e :: es)).
Proof.
  induction es as [|e1 es IH]; intros e fuel turn c q k t started ck out P Fp H0 Hk Ht E Hf Hst;
    (destruct fuel as [|fuel]; [cbn in Hf; lia|]); cbn [play_loop]; pose proof P as (V&_&s&Es);
    destruct (wait_due dispatch started k e ck s Es) as (ck'&->&D); unfold readNextEvent.
  - cbn [length] in *. rewrite Z.add_0_r in *. destruct (read_next_none c q 0 0 (k + 1) t Ht) as [q' ->]; [unfold in_s; lia|exact E|].
    cbn [fmap option_fmap option_map]. eapply turn_spec; [exact P|exact Es|exact D|exact Hst|reflexivity|].
    intros o. exists o. split; [by destruct (_ || _)|]. destruct (_ || _); apply emitted_nil.
  - apply Forall_cons in Fp as [P1 Fp]. cbn [length] in *.
    replace (k + 1 + Z.of_nat (S (length es))) with (k + 1 + 1 + Z.of_nat (length es)) in * by lia.
    destruct (read_next_some c q 0 0 (k + 1) e1 es t) as (q'&->&E'&_); [apply P1|unfold in_s; lia|exact Ht|exact E|].
    cbn [fmap option_fmap option_map]. fold (handed (k + 1) e1). rewrite not_done.
    eapply turn_spec; [exact P|exact Es|exact D|exact Hst|reflexivity|].
    intros o. apply (IH e1 fuel (S turn) c q' (k + 1) t); auto; try lia.
    intros [-> B]%orb_false_iff. by apply Hst.
Qed.
End loop.
End reference.

(** The time of the first event. *)
Definition first_time (es : list event) : Z := match es with e :: _ => wrapu 64 (timestamp e) | [] => 0 end.

(** C31: the player gives out exactly the events that its settings ask for, in the
    order of the log: from the event at which it starts, up to the first one on a
    channel that the settings do not know, those whose channel is selected, under
    their new names.  Into another log they are written as far as there is room;
    on the network none of them is published before it is due.  The exit code
    tells whether an unknown channel was met. *)
Theorem logplayer_plays (p : LogPlayer) (done : nat -> bool) (es : list event) (t : list byte) (c : clock) (out : sink) :
  (forall n, done n = false) -> Forall (playable p (first_time es)) es -> Z.of_nat (length es) < 2 ^ 63 ->
  cut (Z.of_nat (length es)) t -> exists out',
  run done p (log_at (encode_log 0 es ++ t) 0 0 0) c out = Some (exit_code p (first_time es) es, out') /\
  emitted p (first_time es) (clock_utime c).1 out out' (played p (first_time es) es).
Proof.
  intros ND F L T. unfold run, readNextEvent. destruct es as [|e es].
  - destruct (read_next_none (encode_log 0 [] ++ t) 0 0 0 0 t T) as [q ->]; [unfold in_s; lia|by apply boundary_start|].
    cbn [fmap option_fmap option_map]. destruct (clock_utime c). exists out. split; [done|apply emitted_nil].
  - apply Forall_cons in F as [P F]. cbn [length] in *. replace (Z.of_nat (S (length es))) with (0 + 1 + Z.of_nat (length es)) in * by lia.
    destruct (read_next_some (encode_log 0 (e :: es) ++ t) 0 0 0 0 e es t) as (q&->&E&_); [apply P|unfold in_s; lia|exact T|by apply boundary_start|].
    cbn [fmap option_fmap option_map]. fold (handed 0 e). destruct (clock_utime c) as [now c1] eqn:Ec.
    change (wrapu 64 (le_timestamp (handed 0 e))) with (first_time (e :: es)). cbn [fst].
    assert (exit_code p (first_time (e :: es)) (e :: es) = rest_code p (first_time (e :: es)) (bool_decide (startMode p = NUM_START_MODES)) (e :: es) /\
      played p (first_time (e :: es)) (e :: es) = rest_played p (first_time (e :: es)) (bool_decide (startMode p = NUM_START_MODES)) (e :: es)) as [-> ->].
    { case_bool_decide as N; [|done]. unfold exit_code, played, rest_code, rest_played. cbn [drop_until]. unfold starts. by rewrite N. }
    apply (play_loop_spec p (first_time (e :: es)) done ND now es e _ 0 _ q 0 t); auto; try lia.
    + cbn [log_at lfile content encode_log]. rewrite !length_app. pose proof (encode_log_length (0 + 1) es). lia.
    + intros B N. rewrite bool_decide_eq_true_2 in B by done. done.
Qed.

(** ** Examples *)

Definition on_channel (name : cstr) (u : Z) : event := mkEvent 0 u (Z.of_nat (length name)) 2 name [1; 2].

(** Channel "A" is renamed and not mentioned in the filter. *)
Definition renaming (mode : FilterMode) : LogPlayer :=
  mkPlayer (of_Z 2) false NUM_START_MODES [] 0 (Some mode) (build_map (Some (mode, [str "B"], fun _ => true)) [(str "A", str "X")]).

Lemma on_channel_valid name u : (0 < length name < 1000)%nat -> bytes_ok name -> 0 <= u < 2 ^ 63 -> valid (on_channel name u).
Proof.
  intros Hn B Hu. constructor; cbn; try lia; [unfold in_s; lia|]. apply Forall_app. split; [done|]. repeat constructor; unfold in_u; lia.
Qed.

Lemma logplayer_plays_witness : exists out',
  run (fun _ => false) (renaming WHITELIST) (log_at (encode_log 0 [on_channel (str "B") 1000; on_channel (str "C") 1002] ++ []) 0 0 0)
    (mkClock 5000 []) (ToZcm []) = Some (0, out') /\
  emitted (renaming WHITELIST) 1000 5000 (ToZcm []) out' [on_channel (str "B") 1000].
Proof.
  apply (logplayer_plays (renaming WHITELIST) (fun _ => false) [on_channel (str "B") 1000; on_channel (str "C") 1002] [] (mkClock 5000 []) (ToZcm []));
    [done| |done|by left].
  assert (forall n u, (0 < length n < 1000)%nat -> bytes_ok n -> 0 <= u < 2 ^ 63 -> channelMap (renaming WHITELIST) !! n = None \/ n = str "B" ->
    (exists s, scaled_diff (of_Z 2) (wrapu 64 (wrapu 64 u - 1000)) = Some s) -> playable (renaming WHITELIST) 1000 (on_channel n u)) as P.
  { intros n u Hn B Hu Hm Hs. split; [by apply on_channel_valid|]. split; [|exact Hs]. unfold rename_event. cbn [EventLog.channel on_channel].
    destruct Hm as [-> | ->]; by apply on_channel_valid. }
  apply Forall_cons; split; [|apply Forall_cons; split; [|constructor]]; apply P; try (cbn; lia);
    try (apply Forall_cons; split; [unfold in_u; cbn; lia|constructor]); try (eexists; vm_compute; reflexivity).
  - right. reflexivity.
  - left. vm_compute. reflexivity.
Defined.

(** A rename makes an entry of the table: on a white list the channel is played although it is not listed. *)
Lemma rename_whitelists : exists out',
  run (fun _ => false) (renaming WHITELIST) (log_at (encode_log 0 [on_channel (str "A") 1000]) 0 0 0) (mkClock 5000 []) (ToZcm []) =
    Some (0, out') /\ out' = ToZcm [(5000, str "X", [1; 2])].
Proof. eexists. split; vm_compute; reflexivity. Qed.

(** And where every channel has to be specified it is left out without an error. *)
Lemma rename_specifies :
  run (fun _ => false) (renaming SPECIFIED) (log_at (encode_log 0 [on_channel (str "A") 1000]) 0 0 0) (mkClock 5000 []) (ToZcm []) =
    Some (0, ToZcm []) /\
  run (fun _ => false) (renaming SPECIFIED) (log_at (encode_log 0 [on_channel (str "C") 1000]) 0 0 0) (mkClock 5000 []) (ToZcm []) =
    Some (1, ToZcm []).
Proof. split; vm_compute; reflexivity. Qed.
