(* ===== verification/Logger.v ===== *)
(** * The logger (tools/cpp/logger/main.cpp)

    Receive threads put events into a queue, the main thread takes them out and
    writes them to a log that is split, rotated or numbered.  A client may ask for
    a cycle: a barrier goes through the queue, is written as the last event of the
    file, and a new file is begun.

    A step of the machine is what a thread does between two operations on the lock.
    Text output, the flushing of streams and the directories of the files are left
    out; the answers of plugins and of the control socket, the formatted names of
    files and the error numbers are arguments. *)
From Stdlib Require Import SpecFloat.
From S2P Require Import Prelude Bytes Transport Filter EventLog LogFile Url CNum.
Local Open Scope Z_scope.

(** ** Control frames *)

Definition CONTROL_MAGIC : list byte := str "LGCP".
Definition CONTROL_REQUEST_CHANNEL : cstr := str "logger_control_v1".
Definition BARRIER_MARKER_CHANNEL : cstr := str "logger_cycle_barrier_v1".
Definition CONTROL_VERSION : Z := 1.
Definition MSG_READY : Z := 1.
Definition MSG_CYCLE_REQUEST : Z := 2.
Definition MSG_CYCLE_COMPLETE : Z := 3.
Definition MSG_CYCLE_ERROR : Z := 4.
Definition ERR_BUSY_WITH_OTHER_CYCLE : Z := 1.
Definition ERR_ROTATE_OPEN_FAILED : Z := 3.
Definition ERR_CONTROL_PROTOCOL_INTERNAL : Z := 4.
Definition INTERNAL_BARRIER_EVENTNUM : Z := -1.
Definition CONTROL_HEADER_SIZE : nat := 12.
Definition READY_FRAME_SIZE : nat := CONTROL_HEADER_SIZE + 8.
Definition CYCLE_REQUEST_FRAME_SIZE : nat := CONTROL_HEADER_SIZE + 8 + 8 + 8 + 8.

Record CycleRequestFrame := mkRequest {
  rq_session : Z;
  rq_seq : Z;
  rq_reason : Z;
  rq_time : Z
}.

#[export] Instance request_eq_dec : EqDecision CycleRequestFrame.
Proof. solve_decision. Defined.

Definition append_u16_be (frame : list byte) (value : Z) : list byte :=
  frame ++ [Z.land (Z.shiftr value 8) 0xff] ++ [Z.land value 0xff].

Definition append_u32_be (frame : list byte) (value : Z) : list byte :=
  frame ++ [Z.land (Z.shiftr value 24) 0xff] ++ [Z.land (Z.shiftr value 16) 0xff] ++
           [Z.land (Z.shiftr value 8) 0xff] ++ [Z.land value 0xff].

(** The loop over the shifts 56, 48, ..., 0. *)
Definition append_u64_be (frame : list byte) (value : Z) : list byte :=
  fold_left (fun frame shift => frame ++ [Z.land (Z.shiftr value shift) 0xff]) [56; 48; 40; 32; 24; 16; 8; 0] frame.

Definition read_u16_be (data : list byte) : Z := Z.lor (Z.shiftl (nth 0 data 0) 8) (nth 1 data 0).

Definition read_u32_be (data : list byte) : Z :=
  Z.lor (Z.lor (Z.lor (Z.shiftl (nth 0 data 0) 24) (Z.shiftl (nth 1 data 0) 16)) (Z.shiftl (nth 2 data 0) 8)) (nth 3 data 0).

Definition read_u64_be (data : list byte) : Z :=
  fold_left (fun value i => Z.lor (wrapu 64 (Z.shiftl value 8)) (nth i data 0)) (seq 0 8) 0.

Definition read_i64_be (data : list byte) : Z := wraps 64 (read_u64_be data).

(** All accesses are below [size]. *)
Definition parseCycleRequestFrame (data : list byte) : option CycleRequestFrame :=
  let size := length data in
  if negb (size =? CYCLE_REQUEST_FRAME_SIZE)%nat then None else
  if negb (bool_decide (take (length CONTROL_MAGIC) data = CONTROL_MAGIC)) then None else
  if negb (read_u16_be (drop 4 data) =? CONTROL_VERSION) then None else
  if negb (read_u16_be (drop 6 data) =? MSG_CYCLE_REQUEST) then None else
  if negb (read_u32_be (drop 8 data) =? Z.of_nat size) then None else
  Some (mkRequest (read_u64_be (drop CONTROL_HEADER_SIZE data))
                  (read_u64_be (drop (CONTROL_HEADER_SIZE + 8) data))
                  (read_i64_be (drop (CONTROL_HEADER_SIZE + 16) data))
                  (read_i64_be (drop (CONTROL_HEADER_SIZE + 24) data))).

Definition ready_frame (session : Z) : list byte :=
  let frame := CONTROL_MAGIC in
  let frame := append_u16_be frame CONTROL_VERSION in
  let frame := append_u16_be frame MSG_READY in
  let frame := append_u32_be frame (Z.of_nat READY_FRAME_SIZE) in
  append_u64_be frame session.

Definition complete_frame (request : CycleRequestFrame) (old_file new_file : cstr) : list byte :=
  let old_file_len := wrapu 32 (Z.of_nat (length old_file)) in
  let new_file_len := wrapu 32 (Z.of_nat (length new_file)) in
  let total_size := wrapu 32 (Z.of_nat CONTROL_HEADER_SIZE + 8 + 8 + 4 + 4 + old_file_len + new_file_len) in
  let frame := CONTROL_MAGIC in
  let frame := append_u16_be frame CONTROL_VERSION in
  let frame := append_u16_be frame MSG_CYCLE_COMPLETE in
  let frame := append_u32_be frame total_size in
  let frame := append_u64_be frame (rq_session request) in
  let frame := append_u64_be frame (rq_seq request) in
  let frame := append_u32_be frame old_file_len in
  let frame := append_u32_be frame new_file_len in
  frame ++ old_file ++ new_file.

Definition error_frame (session seq error_code : Z) (message : cstr) : list byte :=
  let message_len := wrapu 32 (Z.of_nat (length message)) in
  let total_size := wrapu 32 (Z.of_nat CONTROL_HEADER_SIZE + 8 + 8 + 4 + 4 + message_len) in
  let frame := CONTROL_MAGIC in
  let frame := append_u16_be frame CONTROL_VERSION in
  let frame := append_u16_be frame MSG_CYCLE_ERROR in
  let frame := append_u32_be frame total_size in
  let frame := append_u64_be frame session in
  let frame := append_u64_be frame seq in
  let frame := append_u32_be frame error_code in
  let frame := append_u32_be frame message_len in
  frame ++ message.

(** ** Files *)

Definition exists_file (d : disk) (path : cstr) : bool := if files d !! path then true else false.

(** Whether it worked. *)
Definition remove_file (d : disk) (path : cstr) : bool * disk :=
  if writable d path then (true, mkDisk (delete path (files d)) (writable d) (space d)) else (false, d).

Definition rename_file (d : disk) (old new : cstr) : bool * disk :=
  match files d !! old with
  | Some c =>
      if writable d old && writable d new then
        (true, mkDisk (<[new := c]> (delete old (files d))) (writable d) (space d))
      else (false, d)
  | None => (false, d)
  end.

Definition numbered_name (prefix : cstr) (n : Z) : cstr := prefix ++ ch "." :: show_dec n.

(** The loop over the numbers [rotate - 1], ..., 0: [n] is one more than the number. *)
Fixpoint rotate_loop (n : nat) (prefix : cstr) (d : disk) : disk :=
  match n with
  | O => d
  | S file_num =>
      let newname := numbered_name prefix (Z.of_nat file_num) in
      let tomove := numbered_name prefix (Z.of_nat file_num - 1) in
      let d := if exists_file d tomove then snd (rename_file d tomove newname) else d in
      rotate_loop file_num prefix d
  end.

Definition rotate_logfiles (rotate : Z) (prefix : cstr) (d : disk) : disk :=
  let tomove := numbered_name prefix (rotate - 1) in
  let d := if exists_file d tomove then snd (remove_file d tomove) else d in
  rotate_loop (Z.to_nat rotate) prefix d.

(** ** The state *)

Record Args := mkArgs {
  auto_split_mb : spec_float;
  force_overwrite : bool;
  auto_increment : bool;
  use_strftime : bool;
  rotate : Z;
  max_target_memory : Z;
  control_session_id : Z;
  control_enabled : bool;
  channel_renames : gmap cstr cstr;
  input_fname : cstr
}.

Record cycle := mkCycle { cy_session : Z; cy_seq : Z }.

(** What has happened, for the statements about runs; no operation looks at it: the
    events that came into the queue, those that were taken out with the number of
    the file and whether writing succeeded, and the names of the files. *)
Record history := mkHistory {
  accepted : list LogEvent;
  written : list (nat * LogEvent * bool);
  opened : list cstr
}.

Record Logger := mkLogger {
  filename : cstr;
  fname_prefix : cstr;
  log : LogFile;
  next_increment_num : Z;
  nevents : Z;
  logsize : Z;
  num_splits : Z;
  totalMemoryUsage : Z;
  q : list LogEvent;
  pending_cycle_valid : bool;
  pending_cycle : cycle;
  completed_cycle : option (cycle * cstr * cstr);
  got_sighup : bool;
  ldisk : disk;
  hist : history
}.

Definition set_files (s : Logger) (name prefix : cstr) (l : LogFile) (next : Z) (d : disk) : Logger :=
  mkLogger name prefix l next (nevents s) (logsize s) (num_splits s) (totalMemoryUsage s) (q s)
    (pending_cycle_valid s) (pending_cycle s) (completed_cycle s) (got_sighup s) d (hist s).
Definition set_log (s : Logger) (l : LogFile) : Logger :=
  set_files s (filename s) (fname_prefix s) l (next_increment_num s) (ldisk s).
Definition set_counts (s : Logger) (events size splits : Z) : Logger :=
  mkLogger (filename s) (fname_prefix s) (log s) (next_increment_num s) events size splits (totalMemoryUsage s) (q s)
    (pending_cycle_valid s) (pending_cycle s) (completed_cycle s) (got_sighup s) (ldisk s) (hist s).
Definition set_queue (s : Logger) (events : list LogEvent) (memory : Z) : Logger :=
  mkLogger (filename s) (fname_prefix s) (log s) (next_increment_num s) (nevents s) (logsize s) (num_splits s) memory events
    (pending_cycle_valid s) (pending_cycle s) (completed_cycle s) (got_sighup s) (ldisk s) (hist s).
Definition set_cycle (s : Logger) (valid : bool) (pending : cycle) (completed : option (cycle * cstr * cstr)) : Logger :=
  mkLogger (filename s) (fname_prefix s) (log s) (next_increment_num s) (nevents s) (logsize s) (num_splits s)
    (totalMemoryUsage s) (q s) valid pending completed (got_sighup s) (ldisk s) (hist s).
Definition set_sighup (s : Logger) (b : bool) : Logger :=
  mkLogger (filename s) (fname_prefix s) (log s) (next_increment_num s) (nevents s) (logsize s) (num_splits s)
    (totalMemoryUsage s) (q s) (pending_cycle_valid s) (pending_cycle s) (completed_cycle s) b (ldisk s) (hist s).
Definition set_hist (s : Logger) (h : history) : Logger :=
  mkLogger (filename s) (fname_prefix s) (log s) (next_increment_num s) (nevents s) (logsize s) (num_splits s)
    (totalMemoryUsage s) (q s) (pending_cycle_valid s) (pending_cycle s) (completed_cycle s) (got_sighup s) (ldisk s) h.

Definition note_accepted (s : Logger) (le : LogEvent) : Logger :=
  set_hist s (mkHistory (accepted (hist s) ++ [le]) (written (hist s)) (opened (hist s))).
Definition note_written (s : Logger) (le : LogEvent) (ok : bool) : Logger :=
  set_hist s (mkHistory (accepted (hist s)) (written (hist s) ++ [(length (opened (hist s)) - 1, le, ok)%nat]) (opened (hist s))).
Definition note_opened (s : Logger) (name : cstr) : Logger :=
  set_hist s (mkHistory (accepted (hist s)) (written (hist s)) (opened (hist s) ++ [name])).

(** ** Opening the next file *)

Definition PATH_MAX : nat := 4096.

(** [snprintf] of ["%s.%04d"] into [PATH_MAX] bytes. *)
Definition increment_name (prefix : cstr) (n : Z) : cstr :=
  let digits := show_dec n in
  take (PATH_MAX - 1) (prefix ++ ch "." :: replicate (4 - length digits) (ch "0") ++ digits).

(** The first name from [n] on that does not exist, and the number behind it. *)
Fixpoint increment_loop (fuel : nat) (d : disk) (prefix : cstr) (n : Z) : option (cstr * Z) :=
  match fuel with
  | O => None
  | S fuel =>
      let name := increment_name prefix n in
      if exists_file d name then increment_loop fuel d prefix (n + 1) else Some (name, n + 1)
  end.

(** [false]: the file exists.  A log that cannot be opened is deleted and stays behind as
    the logger's log, which is deleted once more when the program ends: undefined.
    [formatted] is what [strftime] makes of the name. *)
Definition openLogfile (args : Args) (formatted : cstr) (s : Logger) : option (bool * Logger) :=
  let prefix := if use_strftime args then formatted else input_fname args in
  let next := if use_strftime args && auto_increment args && negb (bool_decide (fname_prefix s = prefix))
              then 0 else next_increment_num s in
  '(chosen, next) <-
    (if auto_increment args then
       '(name, next) <- increment_loop (S (size (files (ldisk s)))) (ldisk s) prefix next ;; Some (Some name, next)
     else if 0 <? rotate args then Some (Some (prefix ++ str ".0"), next)
     else if negb (force_overwrite args) && exists_file (ldisk s) prefix then Some (None, next)
     else Some (Some prefix, next)) ;;
  match chosen with
  | None => Some (false, set_files s prefix prefix (log s) next (ldisk s))
  | Some name =>
      '(l, d) <- LogFile_open (ldisk s) name (if 0 <? rotate args then str "a" else str "w") ;;
      check (LogFile_good l) ;;
      Some (true, note_opened (set_files s name prefix l next d) name)
  end.

(** [log->close()] *)
Definition close_log (s : Logger) : Logger :=
  set_files s (filename s) (fname_prefix s) (mkLogFile (lf_path (log s)) (lf_mode (log s)) None) (next_increment_num s)
    (LogFile_close (ldisk s) (log s)).

(** Closing, rotating and opening, as for a split, a signal and a cycle. *)
Definition next_logfile (args : Args) (formatted : cstr) (s : Logger) : option (bool * Logger) :=
  let s := close_log s in
  let s := if 0 <? rotate args
           then set_files s (filename s) (fname_prefix s) (log s) (next_increment_num s)
                  (rotate_logfiles (rotate args) (fname_prefix s) (ldisk s))
           else s in
  openLogfile args formatted s.

(** ** Receiving *)

Record ReceiveBuffer := mkRbuf { recv_utime : Z; rdata : list byte }.

Definition data_size (rbuf : ReceiveBuffer) : Z := Z.of_nat (length (rdata rbuf)).

(** [sizeof(zcm::LogEvent)] *)
Definition SIZEOF_LOGEVENT : Z := 64.

Definition event_memory (le : LogEvent) : Z :=
  wrapu 64 (le_datalen le + Z.of_nat (length (le_channel le)) + SIZEOF_LOGEVENT).

Definition push_event (s : Logger) (le : LogEvent) : Logger :=
  note_accepted (set_queue s (q s ++ [le]) (wraps 64 (totalMemoryUsage s + event_memory le))) le.

(** [None] is a message that is ignored; otherwise the state behind the lock, and the reply that is sent then. *)
Definition handleCycleRequest (args : Args) (s : Logger) (rbuf : ReceiveBuffer) : Logger * option (list byte) :=
  match parseCycleRequestFrame (rdata rbuf) with
  | None => (s, None)
  | Some request =>
      if negb (rq_session request =? control_session_id args) then (s, None) else
      let this := mkCycle (rq_session request) (rq_seq request) in
      let same c := (cy_session c =? rq_session request) && (cy_seq c =? rq_seq request) in
      let enqueue :=
        let barrier := mkLogEvent INTERNAL_BARRIER_EVENTNUM (wraps 64 (recv_utime rbuf)) BARRIER_MARKER_CHANNEL
                         (wraps 32 (data_size rbuf)) (rdata rbuf) in
        (set_cycle (push_event s barrier) true this (completed_cycle s), None) in
      if pending_cycle_valid s then
        if same (pending_cycle s) then (s, None)
        else (s, Some (error_frame (rq_session request) (rq_seq request) ERR_BUSY_WITH_OTHER_CYCLE
                         (str "logger busy with another cycle")))
      else
        match completed_cycle s with
        | Some (c, old_file, new_file) =>
            if same c then (s, Some (complete_frame request old_file new_file)) else enqueue
        | None => enqueue
        end
  end.

(** [memcpy] of [datalen] bytes. *)
Definition cloneLogEvent (evt : LogEvent) : option LogEvent :=
  check ((0 <=? le_datalen evt) && (le_datalen evt <=? Z.of_nat (length (le_data evt)))) ;;
  Some (mkLogEvent (le_eventnum evt) (le_timestamp evt) (le_channel evt) (le_datalen evt)
          (take (Z.to_nat (le_datalen evt)) (le_data evt))).

Fixpoint clone_all (pevts : list (option LogEvent)) : option (list (option LogEvent)) :=
  match pevts with
  | [] => Some []
  | None :: pevts => rest <- clone_all pevts ;; Some (None :: rest)
  | Some evt :: pevts => c <- cloneLogEvent evt ;; rest <- clone_all pevts ;; Some (Some c :: rest)
  end.

(** The loop over the events from the back.  Dropping the rest dereferences each of them. *)
Fixpoint enqueue_loop (args : Args) (size : Z) (evts : list (option LogEvent)) (stillRoom : bool) (s : Logger) : option Logger :=
  match evts with
  | [] => Some s
  | evt :: rest =>
      if negb stillRoom then check (forallb (fun e : option LogEvent => if e then true else false) evts) ;; Some s else
      match evt with
      | None => enqueue_loop args size rest stillRoom s
      | Some le =>
          let s := push_event s le in
          enqueue_loop args size rest
            (if max_target_memory args =? 0 then true else wraps 64 (totalMemoryUsage s + size) <? max_target_memory args) s
      end
  end.

(** [answers] is what each plugin of the shard makes of the event; the hash is read from its first eight bytes. *)
Definition handler (args : Args) (answers : list (list (option LogEvent))) (s : Logger) (rbuf : ReceiveBuffer) (channel : cstr)
  : option (Logger * option (list byte)) :=
  if bool_decide (channel = CONTROL_REQUEST_CHANNEL) then Some (handleCycleRequest args s rbuf) else
  let name := default channel (channel_renames args !! channel) in
  let le := mkLogEvent 0 (wraps 64 (recv_utime rbuf)) name (wraps 32 (data_size rbuf)) (rdata rbuf) in
  check (bool_decide (answers = []) || (8 <=? data_size rbuf)) ;;
  evts <- clone_all (concat answers) ;;
  let evts := match evts with [] => [Some le] | _ => evts end in
  s <- enqueue_loop args (data_size rbuf) (rev evts) true s ;;
  Some (s, None).

(** ** Writing *)

(** What [flushWhenReady] does first, with the lock. *)
Definition take_event (s : Logger) : option (LogEvent * Logger) :=
  match q s with
  | [] => None
  | le :: rest => Some (le, set_queue s rest (wraps 64 (totalMemoryUsage s - event_memory le)))
  end.

Definition is_internal_barrier (le : LogEvent) : bool :=
  (le_eventnum le =? INTERNAL_BARRIER_EVENTNUM) && bool_decide (le_channel le = BARRIER_MARKER_CHANNEL).

Definition record_size (le : LogEvent) : Z := 4 + 8 + 8 + 4 + Z.of_nat (length (le_channel le)) + 4 + le_datalen le.

(** [nevents++; logsize += ...] *)
Definition count_event (s : Logger) (le : LogEvent) : Logger :=
  set_counts s (wrapu 64 (nevents s + 1)) (wrapu 64 (logsize s + record_size le)) (num_splits s).

(** [num_splits++; logsize = 0] *)
Definition count_split (s : Logger) : Logger := set_counts s (nevents s) 0 (num_splits s + 1).

Definition write_log (s : Logger) (le : LogEvent) : option (bool * Logger) :=
  l <- lf_log (log s) ;;
  '(ok, l) <- writeEvent l le ;;
  Some (ok, note_written (set_log s (mkLogFile (lf_path (log s)) (lf_mode (log s)) (Some l))) le ok).

(** How the work on an event ends: the program exits; the event is written, or not; a
    barrier is written and the next file is open. *)
Inductive work_result :=
| WExit (reply : option (list byte))
| WReturn (ok : bool) (s : Logger) (reply : option (list byte))
| WCycle (s : Logger) (request : CycleRequestFrame) (old_file new_file : cstr).

Definition work_barrier (args : Args) (formatted : cstr) (enospc : bool) (s : Logger) (le : LogEvent) : option work_result :=
  match parseCycleRequestFrame (take (Z.to_nat (le_datalen le)) (le_data le)) with
  | None => Some (WExit (Some (error_frame (control_session_id args) (cy_seq (pending_cycle s))
                                 ERR_CONTROL_PROTOCOL_INTERNAL (str "invalid internal barrier payload"))))
  | Some request =>
      '(ok, s) <- write_log s le ;;
      if negb ok then
        let reply := Some (error_frame (rq_session request) (rq_seq request) ERR_CONTROL_PROTOCOL_INTERNAL
                             (str "failed to write cycle barrier marker")) in
        Some (if enospc then WExit reply else WReturn false s reply)
      else
        let s := count_event s le in
        let old_file := filename s in
        '(opened, s) <- next_logfile args formatted s ;;
        if negb opened then
          Some (WExit (Some (error_frame (rq_session request) (rq_seq request) ERR_ROTATE_OPEN_FAILED
                               (str "failed to open rotated log file"))))
        else Some (WCycle (count_split s) request old_file (filename s))
  end.

(** [(double)logsize / (1 << 20) > auto_split_mb] *)
Definition split_due (args : Args) (s : Logger) : bool :=
  negb (SFeqb (auto_split_mb args) zero) && dlt (auto_split_mb args) (ddiv (of_Z (logsize s)) (of_Z (2 ^ 20))).

Definition split_if (due : bool) (args : Args) (formatted : cstr) (s : Logger) : option (bool * Logger) :=
  if due then
    '(opened, s) <- next_logfile args formatted s ;;
    Some (if opened then (true, count_split s) else (false, s))
  else Some (true, s).

Definition work_event (args : Args) (formatted : cstr) (enospc : bool) (s : Logger) (le : LogEvent) : option work_result :=
  '(ok, s) <- split_if (split_due args s) args formatted s ;;
  if negb ok then Some (WExit None) else
  let sighup := got_sighup s in
  '(ok, s) <- split_if sighup args formatted s ;;
  if negb ok then Some (WExit None) else
  let s := if sighup then set_sighup s false else s in
  '(ok, s) <- write_log s le ;;
  if negb ok then Some (if enospc then WExit None else WReturn false s None) else
  Some (WReturn true (count_event s le) None).

(** What [flushWhenReady] does without the lock. *)
Definition work (args : Args) (formatted : cstr) (enospc : bool) (s : Logger) (le : LogEvent) : option work_result :=
  if is_internal_barrier le then work_barrier args formatted enospc s le else work_event args formatted enospc s le.

(** The second critical section of a cycle. *)
Definition finish_cycle (s : Logger) (request : CycleRequestFrame) (old_file new_file : cstr) : Logger :=
  set_cycle s false (pending_cycle s) (Some (mkCycle (rq_session request) (rq_seq request), old_file, new_file)).

(** ** The program *)

(** Where the main thread is: in front of the lock, with an event, in front of the second
    critical section, in front of the reply. *)
Inductive main_pc :=
| MIdle
| MHave (le : LogEvent)
| MFinish (request : CycleRequestFrame) (old_file new_file : cstr)
| MReply (request : CycleRequestFrame) (old_file new_file : cstr).

(** [replies] are those that receive threads are about to send. *)
Record sys := mkSys {
  lg : Logger;
  pc : main_pc;
  done : bool;
  replies : list (list byte);
  sent : list (list byte)
}.

Inductive label :=
| Receive (answers : list (list (option LogEvent))) (rbuf : ReceiveBuffer) (channel : cstr)
| Reply (n : nat) (net : bool)
| Pop
| Work (formatted : cstr) (enospc net : bool)
| Finish
| Complete (net : bool)
| Sighup
| Terminate.

(** The step is taken; the program has ended; it is undefined; the step is not possible. *)
Inductive outcome := Next (s : sys) | Exited (sent : list (list byte)) | Undefined | Disabled.

(** Whether it worked, and what was sent; [net] is the socket's answer. *)
Definition sendControlFrame (args : Args) (net : bool) (frame : list byte) : bool * list (list byte) :=
  if negb (control_enabled args) then (true, []) else if net then (true, [frame]) else (false, []).

Definition send_reply (args : Args) (net : bool) (reply : option (list byte)) : list (list byte) :=
  match reply with Some frame => snd (sendControlFrame args net frame) | None => [] end.

Definition step (args : Args) (x : sys) (a : label) : outcome :=
  match a with
  | Receive answers rbuf channel =>
      match handler args answers (lg x) rbuf channel with
      | None => Undefined
      | Some (s, reply) =>
          Next (mkSys s (pc x) (done x) (replies x ++ match reply with Some f => [f] | None => [] end) (sent x))
      end
  | Reply n net =>
      match replies x !! n with
      | None => Disabled
      | Some frame =>
          let '(ok, out) := sendControlFrame args net frame in
          if ok then Next (mkSys (lg x) (pc x) (done x) (delete n (replies x)) (sent x ++ out)) else Exited (sent x ++ out)
      end
  | Pop =>
      match pc x with
      | MIdle =>
          if done x then Disabled else
          match take_event (lg x) with
          | None => Disabled
          | Some (le, s) => Next (mkSys s (MHave le) (done x) (replies x) (sent x))
          end
      | _ => Disabled
      end
  | Work formatted enospc net =>
      match pc x with
      | MHave le =>
          match work args formatted enospc (lg x) le with
          | None => Undefined
          | Some (WExit reply) => Exited (sent x ++ send_reply args net reply)
          | Some (WReturn _ s reply) => Next (mkSys s MIdle (done x) (replies x) (sent x ++ send_reply args net reply))
          | Some (WCycle s request old_file new_file) =>
              Next (mkSys s (MFinish request old_file new_file) (done x) (replies x) (sent x))
          end
      | _ => Disabled
      end
  | Finish =>
      match pc x with
      | MFinish request old_file new_file =>
          Next (mkSys (finish_cycle (lg x) request old_file new_file) (MReply request old_file new_file) (done x) (replies x) (sent x))
      | _ => Disabled
      end
  | Complete net =>
      match pc x with
      | MReply request old_file new_file =>
          let '(ok, out) := sendControlFrame args net (complete_frame request old_file new_file) in
          if ok then Next (mkSys (lg x) MIdle (done x) (replies x) (sent x ++ out)) else Exited (sent x ++ out)
      | _ => Disabled
      end
  | Sighup =>
      if negb (auto_increment args) && (rotate args <=? 0) then Next x
      else Next (mkSys (set_sighup (lg x) true) (pc x) (done x) (replies x) (sent x))
  | Terminate => Next (mkSys (lg x) (pc x) true (replies x) (sent x))
  end.

(** The state behind the constructor. *)
Definition new_logger (d : disk) : Logger :=
  mkLogger [] [] (mkLogFile [] [] None) 0 0 0 0 0 [] false (mkCycle 0 0) None false d (mkHistory [] [] []).

(** [None] is undefined; [inl]: the program ends.  The transcoder plugins are loaded elsewhere. *)
Definition init (args : Args) (formatted : cstr) (net : bool) (d : disk) : option (list (list byte) + sys) :=
  '(ok, s) <- openLogfile args formatted (new_logger d) ;;
  if negb ok then Some (inl []) else
  let '(ok, out) := sendControlFrame args net (ready_frame (control_session_id args)) in
  Some (if ok then inr (mkSys s MIdle false [] out) else inl out).

(** The states that the program reaches by steps of which [allowed] holds. *)
Inductive reachable (args : Args) (d : disk) (allowed : label -> Prop) : sys -> Prop :=
| reach_init formatted net x : init args formatted net d = Some (inr x) -> reachable args d allowed x
| reach_step x a y : reachable args d allowed x -> allowed a -> step args x a = Next y -> reachable args d allowed y.
