(* ===== verification/LoggerFrames.v ===== *)
(** * The logger's control frames

    A request is understood exactly when it is the frame of that request; replies
    announce their own length. *)
From S2P Require Import Prelude Bytes Transport EventLogProps Logger.
Local Open Scope Z_scope.

(** The frame a client sends. *)
Definition request_frame (rq : CycleRequestFrame) : list byte :=
  CONTROL_MAGIC ++ be_split 2 CONTROL_VERSION ++ be_split 2 MSG_CYCLE_REQUEST ++ be_split 4 (Z.of_nat CYCLE_REQUEST_FRAME_SIZE) ++
  be_split 8 (rq_session rq) ++ be_split 8 (rq_seq rq) ++ be_split 8 (rq_reason rq) ++ be_split 8 (rq_time rq).

Record request_ok (rq : CycleRequestFrame) : Prop := mkRequestOk {
  ro_session : in_u 64 (rq_session rq);
  ro_seq : in_u 64 (rq_seq rq);
  ro_reason : in_s 64 (rq_reason rq);
  ro_time : in_s 64 (rq_time rq)
}.

(** ** Reading numbers *)

Lemma lor_byte v b : 0 <= b < 256 -> Z.lor (Z.shiftl v 8) b = v * 256 + b.
Proof. intros. rewrite Z.shiftl_mul_pow2 by lia. by apply (lor_disjoint v b 8). Qed.

Lemma read_u16_spec data : bytes_ok data -> (2 <= length data)%nat -> read_u16_be data = be_combine (take 2 data).
Proof.
  intros B L. destruct data as [|a [|b data]]; cbn in L; try lia. apply Forall_cons in B as [Ba [Bb _]%Forall_cons].
  unfold read_u16_be, in_u in *. change (be_combine (take 2 (a :: b :: data))) with (be_combine (([] ++ [a]) ++ [b])).
  rewrite !be_combine_snoc. cbn [nth]. rewrite lor_byte by lia. done.
Qed.

Lemma read_u32_spec data : bytes_ok data -> (4 <= length data)%nat -> read_u32_be data = be_combine (take 4 data).
Proof.
  intros B L. destruct data as [|a [|b [|c [|d data]]]]; cbn in L; try lia.
  apply Forall_cons in B as [Ba [Bb [Bc [Bd _]%Forall_cons]%Forall_cons]%Forall_cons].
  unfold read_u32_be, in_u in *.
  change (be_combine (take 4 (a :: b :: c :: d :: data))) with (be_combine (((([] ++ [a]) ++ [b]) ++ [c]) ++ [d])).
  rewrite !be_combine_snoc. cbn [nth]. change (be_combine []) with 0. rewrite !Z.shiftl_mul_pow2 by lia.
  rewrite (lor_disjoint a _ 24) by lia. replace (a * 2 ^ 24 + b * 2 ^ 16) with ((a * 2 ^ 8 + b) * 2 ^ 16) by lia.
  rewrite (lor_disjoint _ _ 16) by lia. replace ((a * 2 ^ 8 + b) * 2 ^ 16 + c * 2 ^ 8) with ((a * 2 ^ 16 + b * 2 ^ 8 + c) * 2 ^ 8) by lia.
  rewrite (lor_disjoint _ _ 8) by lia. lia.
Qed.

(** The loop over the bytes. *)
Lemma read_loop_spec l : forall v, bytes_ok l -> 0 <= v -> v * 256 ^ Z.of_nat (length l) + be_combine l < 2 ^ 64 ->
  fold_left (fun value b => Z.lor (wrapu 64 (Z.shiftl value 8)) b) l v = v * 256 ^ Z.of_nat (length l) + be_combine l.
Proof.
  induction l as [|b l IH] using rev_ind; intros v B Hv Hr; [change (be_combine []) with 0; cbn; lia|]. rewrite fold_left_app. cbn [fold_left].
  apply Forall_app in B as [B [Bb _]%Forall_cons]. rewrite length_app, be_combine_snoc in *. cbn [length] in *.
  rewrite Nat2Z.inj_add, Z.pow_add_r in * by lia. change (256 ^ Z.of_nat 1) with 256 in *. unfold in_u in Bb.
  pose proof (be_combine_range l B). set (P := 256 ^ Z.of_nat (length l)) in *.
  rewrite Z.mul_assoc in *. assert (0 <= v * P) by (apply Z.mul_nonneg_nonneg; [done|by apply Z.pow_nonneg]).
  rewrite IH by (done || lia). rewrite wrapu_id; [rewrite lor_byte by lia; lia|].
  rewrite Z.shiftl_mul_pow2 by lia. unfold in_u. lia.
Qed.

Lemma read_u64_spec data : bytes_ok data -> (8 <= length data)%nat -> read_u64_be data = be_combine (take 8 data).
Proof.
  intros B L. transitivity (fold_left (fun value b => Z.lor (wrapu 64 (Z.shiftl value 8)) b) (take 8 data) 0).
  - assert ((fun i => nth i data 0) <$> seq 0 8 = take 8 data) as <-.
    { do 8 (destruct data as [|? data]; [cbn in L; lia|]). reflexivity. }
    assert (forall f idx v, fold_left (fun value (i : nat) => Z.lor (wrapu 64 (Z.shiftl value 8)) (f i)) idx v =
      fold_left (fun value b => Z.lor (wrapu 64 (Z.shiftl value 8)) b) (f <$> idx) v) as G; [|apply G].
    intros f idx. induction idx as [|i idx IH]; intros v; cbn [fold_left fmap list_fmap]; [done|apply IH].
  - pose proof (Forall_take _ 8 _ B : bytes_ok (take 8 data)) as B8. pose proof (be_combine_range _ B8) as R.
    rewrite length_take, Nat.min_l in R by done. change (256 ^ Z.of_nat 8) with (2 ^ 64) in R. rewrite read_loop_spec; [lia|done|lia|lia].
Qed.

(** A number that is behind [k] other bytes. *)
Lemma field_split data k n : bytes_ok data -> (k + n <= length data)%nat -> take n (drop k data) = be_split n (be_combine (take n (drop k data))).
Proof.
  intros B L. rewrite <- (be_split_combine (take n (drop k data))) at 1 by (by apply Forall_take, Forall_drop).
  f_equal. rewrite length_take, length_drop. lia.
Qed.

Lemma take_more {A} (l : list A) n m : take (n + m) l = take n l ++ take m (drop n l).
Proof. by rewrite take_take_drop. Qed.

Lemma wraps_split v : be_split 8 (wraps 64 v) = be_split 8 v.
Proof.
  rewrite <- (be_split_combine (be_split 8 (wraps 64 v))), <- (be_split_combine (be_split 8 v)) by apply be_split_ok.
  rewrite !length_be_split, !be_combine_split. change (256 ^ Z.of_nat 8) with (2 ^ 64). f_equal.
  change (wrapu 64 (wraps 64 v) = wrapu 64 v). by apply wrapu_wraps.
Qed.

(** The first eight bytes of what is left. *)
Lemma read_u64_frame v rest : bytes_ok rest -> read_u64_be (be_split 8 v ++ rest) = wrapu 64 v.
Proof.
  intros B. rewrite read_u64_spec; [|apply Forall_app; split; [apply be_split_ok|done]|rewrite length_app, length_be_split; lia].
  rewrite take_app_length', be_combine_split by (by rewrite length_be_split). done.
Qed.

Lemma request_frame_ok rq : bytes_ok (request_frame rq).
Proof. unfold request_frame. repeat (apply Forall_app; split; [first [apply be_split_ok|by repeat constructor]|]). apply be_split_ok. Qed.

(** A request is what its frame says. *)
Lemma parse_request_frame rq : request_ok rq -> parseCycleRequestFrame (request_frame rq) = Some rq.
Proof.
  intros []. unfold parseCycleRequestFrame.
  assert (length (request_frame rq) = CYCLE_REQUEST_FRAME_SIZE) as -> by (unfold request_frame; rewrite !length_app, !length_be_split; done).
  pose proof (fun n => @Forall_drop _ (in_u 8) n _ (request_frame_ok rq)) as D.
  rewrite bool_decide_eq_true_2 by done. rewrite Nat.eqb_refl. cbn [negb].
  change (read_u16_be (drop 4 (request_frame rq))) with CONTROL_VERSION.
  change (read_u16_be (drop 6 (request_frame rq))) with MSG_CYCLE_REQUEST.
  change (read_u32_be (drop 8 (request_frame rq))) with (Z.of_nat CYCLE_REQUEST_FRAME_SIZE).
  rewrite !Z.eqb_refl. cbn [negb]. unfold read_i64_be.
  change (drop CONTROL_HEADER_SIZE (request_frame rq)) with
    (be_split 8 (rq_session rq) ++ be_split 8 (rq_seq rq) ++ be_split 8 (rq_reason rq) ++ be_split 8 (rq_time rq)).
  change (drop (CONTROL_HEADER_SIZE + 8) (request_frame rq)) with
    (be_split 8 (rq_seq rq) ++ be_split 8 (rq_reason rq) ++ be_split 8 (rq_time rq)).
  change (drop (CONTROL_HEADER_SIZE + 16) (request_frame rq)) with (be_split 8 (rq_reason rq) ++ be_split 8 (rq_time rq)).
  change (drop (CONTROL_HEADER_SIZE + 24) (request_frame rq)) with (be_split 8 (rq_time rq) ++ []).
  rewrite !read_u64_frame by (repeat first [apply be_split_ok|apply Forall_app; split|constructor]).
  rewrite !wraps_wrapu, !wrapu_id, !wraps_id by (done || lia). by destruct rq.
Qed.

(** What was checked. *)
Lemma parse_request_inv data rq : parseCycleRequestFrame data = Some rq ->
  length data = CYCLE_REQUEST_FRAME_SIZE /\ take (length CONTROL_MAGIC) data = CONTROL_MAGIC /\
  read_u16_be (drop 4 data) = CONTROL_VERSION /\ read_u16_be (drop 6 data) = MSG_CYCLE_REQUEST /\
  read_u32_be (drop 8 data) = Z.of_nat (length data) /\
  rq = mkRequest (read_u64_be (drop CONTROL_HEADER_SIZE data)) (read_u64_be (drop (CONTROL_HEADER_SIZE + 8) data))
         (read_i64_be (drop (CONTROL_HEADER_SIZE + 16) data)) (read_i64_be (drop (CONTROL_HEADER_SIZE + 24) data)).
Proof.
  unfold parseCycleRequestFrame. intros H.
  destruct (length data =? CYCLE_REQUEST_FRAME_SIZE)%nat eqn:E0; cbn [negb] in H; [|done].
  case_bool_decide as E1; cbn [negb] in H; [|done].
  destruct (read_u16_be (drop 4 data) =? CONTROL_VERSION) eqn:E2; cbn [negb] in H; [|done].
  destruct (read_u16_be (drop 6 data) =? MSG_CYCLE_REQUEST) eqn:E3; cbn [negb] in H; [|done].
  destruct (read_u32_be (drop 8 data) =? Z.of_nat (length data)) eqn:E4; cbn [negb] in H; [|done].
  apply Nat.eqb_eq in E0. apply Z.eqb_eq in E2, E3, E4. assert (forall A (a b : A), Some a = Some b -> b = a) as inj by congruence.
  apply inj in H. split_and!; assumption.
Qed.

(** Nothing else is understood. *)
Lemma parse_request_unique data rq : bytes_ok data -> parseCycleRequestFrame data = Some rq -> data = request_frame rq /\ request_ok rq.
Proof.
  intros B (L&Hm&E1&E2&E3&->)%parse_request_inv.
  pose proof (fun n => @Forall_drop _ (in_u 8) n _ B : bytes_ok (drop n data)) as D.
  pose proof (fun k n => field_split data k n B) as S.
  assert (forall k, (k <= 36)%nat -> read_u64_be (drop k data) = be_combine (take 8 (drop k data))) as R.
  { intros k Hk. apply read_u64_spec; [apply D|]. rewrite length_drop, L. unfold CYCLE_REQUEST_FRAME_SIZE, CONTROL_HEADER_SIZE. lia. }
  rewrite (read_u16_spec (drop 4 data)) in E1 by (auto; rewrite length_drop, L; unfold CYCLE_REQUEST_FRAME_SIZE, CONTROL_HEADER_SIZE; lia).
  rewrite (read_u16_spec (drop 6 data)) in E2 by (auto; rewrite length_drop, L; unfold CYCLE_REQUEST_FRAME_SIZE, CONTROL_HEADER_SIZE; lia).
  rewrite (read_u32_spec (drop 8 data)) in E3 by (auto; rewrite length_drop, L; unfold CYCLE_REQUEST_FRAME_SIZE, CONTROL_HEADER_SIZE; lia).
  unfold read_i64_be. rewrite !R by (unfold CONTROL_HEADER_SIZE; lia). split.
  - unfold request_frame. cbn [rq_session rq_seq rq_reason rq_time]. rewrite !wraps_split, <- E1, <- E2, <- L, <- E3, <- Hm.
    rewrite <- !S by (rewrite L; unfold CYCLE_REQUEST_FRAME_SIZE, CONTROL_HEADER_SIZE; lia).
    rewrite <- (firstn_all data) at 1. rewrite L.
    change CYCLE_REQUEST_FRAME_SIZE with (4 + (2 + (2 + (4 + (8 + (8 + (8 + 8)))))))%nat. rewrite !take_more, !drop_drop. reflexivity.
  - assert (forall k, (k <= 36)%nat -> in_u 64 (be_combine (take 8 (drop k data)))) as R64.
    { intros k Hk. pose proof (be_combine_range (take 8 (drop k data)) (Forall_take _ _ _ (D k))) as Rk.
      rewrite length_take, length_drop, Nat.min_l in Rk by (rewrite L; unfold CYCLE_REQUEST_FRAME_SIZE, CONTROL_HEADER_SIZE; lia).
      change (256 ^ Z.of_nat 8) with (2 ^ 64) in Rk. exact Rk. }
    split; cbn [rq_session rq_seq rq_reason rq_time]; [apply R64; unfold CONTROL_HEADER_SIZE; lia..|apply wraps_range; lia|apply wraps_range; lia].
Qed.

(** ** Replies *)

Lemma append_u16_split frame v : append_u16_be frame v = frame ++ be_split 2 v.
Proof. unfold append_u16_be. by rewrite !shifted_byte, land_255 by lia. Qed.

Lemma append_u32_split frame v : append_u32_be frame v = frame ++ be_split 4 v.
Proof.
  unfold append_u32_be. rewrite !shifted_byte, land_255 by lia. unfold be_split. cbn [le_split reverse rev_append app].
  rewrite !Z.div_div by lia. done.
Qed.

Lemma append_u64_split frame v : append_u64_be frame v = frame ++ be_split 8 v.
Proof.
  unfold append_u64_be. cbn [fold_left]. rewrite !shifted_byte by lia. unfold be_split. cbn [le_split reverse rev_append].
  rewrite !Z.div_div by lia. rewrite <- !app_assoc. cbn [app]. rewrite Z.pow_0_r, Z.div_1_r. done.
Qed.

Ltac split_appends := repeat first [rewrite append_u64_split | rewrite append_u32_split | rewrite append_u16_split].

(** A frame of the protocol: the header with the length, and the rest. *)
Definition framed (kind : Z) (frame : list byte) : Prop := exists rest,
  frame = CONTROL_MAGIC ++ be_split 2 CONTROL_VERSION ++ be_split 2 kind ++ be_split 4 (Z.of_nat (length frame)) ++ rest.

Lemma framed_intro kind total rest : total = Z.of_nat (CONTROL_HEADER_SIZE + length rest) ->
  framed kind (CONTROL_MAGIC ++ be_split 2 CONTROL_VERSION ++ be_split 2 kind ++ be_split 4 total ++ rest).
Proof.
  intros ->. exists rest. do 5 f_equal.
Qed.

Lemma ready_framed session : framed MSG_READY (ready_frame session).
Proof. unfold ready_frame. split_appends. rewrite <- !app_assoc. apply framed_intro. by rewrite length_be_split. Qed.

Lemma complete_framed rq old new : Z.of_nat (length old + length new) < 2 ^ 31 -> framed MSG_CYCLE_COMPLETE (complete_frame rq old new).
Proof.
  intros L. unfold complete_frame. split_appends. rewrite <- !app_assoc. apply framed_intro.
  rewrite (wrapu_id 32 (Z.of_nat (length old))), (wrapu_id 32 (Z.of_nat (length new))) by (unfold in_u; lia).
  rewrite !length_app, !length_be_split. unfold CONTROL_HEADER_SIZE. rewrite wrapu_id by (unfold in_u; lia). lia.
Qed.

Lemma error_framed session seq code message : Z.of_nat (length message) < 2 ^ 31 ->
  framed MSG_CYCLE_ERROR (error_frame session seq code message).
Proof.
  intros L. unfold error_frame. split_appends. rewrite <- !app_assoc. apply framed_intro.
  rewrite (wrapu_id 32 (Z.of_nat (length message))) by (unfold in_u; lia).
  rewrite !length_app, !length_be_split. unfold CONTROL_HEADER_SIZE. rewrite wrapu_id by (unfold in_u; lia). lia.
Qed.

(** C28: the control protocol is exact: a request frame is understood as the request
    it encodes, every message that is understood is the frame of what was
    understood, byte by byte, and every reply is a frame that announces its own
    length. *)
Theorem logger_frames_exact (rq : CycleRequestFrame) (data : list byte) : bytes_ok data ->
  (request_ok rq -> parseCycleRequestFrame (request_frame rq) = Some rq) /\
  (parseCycleRequestFrame data = Some rq -> data = request_frame rq /\ request_ok rq) /\
  (forall session, framed MSG_READY (ready_frame session)) /\
  (forall session seq code message, Z.of_nat (length message) < 2 ^ 31 ->
     framed MSG_CYCLE_ERROR (error_frame session seq code message)) /\
  (forall old new, Z.of_nat (length old + length new) < 2 ^ 31 -> framed MSG_CYCLE_COMPLETE (complete_frame rq old new)).
Proof.
  intros B. split; [apply parse_request_frame|]. split; [by apply parse_request_unique|].
  split; [apply ready_framed|]. split; [apply error_framed|apply complete_framed].
Qed.

Lemma logger_frames_exact_witness : parseCycleRequestFrame (request_frame (mkRequest 7 1 0 (-5))) = Some (mkRequest 7 1 0 (-5)).
Proof.
  apply (logger_frames_exact (mkRequest 7 1 0 (-5)) []); [constructor|]. split; cbn; unfold in_u, in_s; lia.
Defined.
