(* ===== verification/LoggerProps.v ===== *)
(** * The logger: order and cycles

    What the queue takes in comes out once and in order, and a cycle separates the
    events before it from those behind it. *)
From Stdlib Require Import SpecFloat.
From stdpp Require Import sorting.
From S2P Require Import Prelude Bytes Transport Filter EventLog EventLogProps LogFile LogRepair LogRepairProps.
From S2P Require Import Url CNum Logger LoggerFrames.
Local Open Scope Z_scope.

Local Opaque ready_frame error_frame complete_frame parseCycleRequestFrame CONTROL_REQUEST_CHANNEL BARRIER_MARKER_CHANNEL str.

(** ** What the operations leave alone *)

(** The queue, its memory and the cycle. *)
Record same_queue (s s' : Logger) : Prop := mkSame {
  sq_queue : q s' = q s;
  sq_memory : totalMemoryUsage s' = totalMemoryUsage s;
  sq_valid : pending_cycle_valid s' = pending_cycle_valid s;
  sq_pending : pending_cycle s' = pending_cycle s;
  sq_completed : completed_cycle s' = completed_cycle s;
  sq_accepted : accepted (hist s') = accepted (hist s)
}.

#[export] Instance same_queue_preorder : PreOrder same_queue.
Proof.
  split; [by intros s|]. intros s1 s2 s3 [] []. split; congruence.
Qed.

Definition last_generation (s : Logger) : nat := (length (opened (hist s)) - 1)%nat.

(** What opening the next file does. *)
Record opens (s s' : Logger) (name : cstr) : Prop := mkOpens {
  op_same : same_queue s s';
  op_opened : opened (hist s') = opened (hist s) ++ [name];
  op_filename : filename s' = name;
  op_written : written (hist s') = written (hist s)
}.

Lemma openLogfile_opens args f s s' : openLogfile args f s = Some (true, s') -> exists name, opens s s' name.
Proof.
  unfold openLogfile. intros H. repeat (case_match; try done); simplify_eq; eexists; by split.
Qed.

Lemma next_logfile_opens args f s s' : next_logfile args f s = Some (true, s') -> exists name, opens s s' name.
Proof.
  unfold next_logfile. intros [name [S O F W]]%openLogfile_opens. exists name.
  assert (same_queue s (close_log s)) as C by done.
  destruct (0 <? rotate args); split; auto; (etrans; [exact C|]); destruct S; by split.
Qed.

Lemma write_log_spec s le ok s' : write_log s le = Some (ok, s') ->
  same_queue s s' /\ opened (hist s') = opened (hist s) /\ filename s' = filename s /\
  written (hist s') = written (hist s) ++ [(last_generation s, le, ok)].
Proof. unfold write_log. intros H. repeat (case_match; try done); simplify_eq. by repeat split. Qed.

(** Where the newest file may be one of several that were opened. *)
Record grows (s s' : Logger) (names : list cstr) : Prop := mkGrows {
  gr_same : same_queue s s';
  gr_opened : opened (hist s') = opened (hist s) ++ names;
  gr_filename : filename s' = default (filename s) (last names);
  gr_written : written (hist s') = written (hist s)
}.

Lemma split_if_grows due args f s s' : split_if due args f s = Some (true, s') -> exists names, grows s s' names.
Proof.
  unfold split_if. destruct due; [|intros [= <-]; exists []; split; [done|by rewrite app_nil_r|done|done]].
  destruct (next_logfile args f s) as [[[] s1]|] eqn:E; [|done..]. intros [= <-].
  apply next_logfile_opens in E as [name [S O F W]]. exists [name]. split; auto. etrans; [exact S|done].
Qed.

Lemma grows_trans s1 s2 s3 n1 n2 : grows s1 s2 n1 -> grows s2 s3 n2 -> grows s1 s3 (n1 ++ n2).
Proof.
  intros [S1 O1 F1 W1] [S2 O2 F2 W2]. split; [by etrans|by rewrite O2, O1, app_assoc| |congruence].
  rewrite F2, F1. destruct n2 as [|x n2] using rev_ind; [by rewrite app_nil_r|]. by rewrite app_assoc, !last_snoc.
Qed.

(** ** Working on an event *)

Lemma work_event_spec args f e s le ok s' r : work_event args f e s le = Some (WReturn ok s' r) ->
  r = None /\ same_queue s s' /\ exists names, opened (hist s') = opened (hist s) ++ names /\
  filename s' = default (filename s) (last names) /\
  written (hist s') = written (hist s) ++ [(last_generation s', le, ok)].
Proof.
  unfold work_event. intros H.
  destruct (split_if (split_due args s) args f s) as [[[] s1]|] eqn:E1; [|done..]. cbn [negb] in H.
  destruct (split_if (got_sighup s1) args f s1) as [[[] s2]|] eqn:E2; [|done..]. cbn [negb] in H.
  apply split_if_grows in E1 as [n1 G1]. apply split_if_grows in E2 as [n2 G2].
  pose proof (grows_trans _ _ _ _ _ G1 G2) as [S O F W]. clear G1 G2.
  set (s3 := if got_sighup s1 then set_sighup s2 false else s2) in H.
  assert (same_queue s2 s3 /\ hist s3 = hist s2 /\ filename s3 = filename s2) as (S3&H3&F3) by (unfold s3; by destruct (got_sighup s1)).
  clearbody s3. destruct (write_log s3 le) as [[ok' s4]|] eqn:E3; [|done]. apply write_log_spec in E3 as (S4&O4&F4&W4).
  assert (same_queue s s4 /\ last_generation s3 = last_generation s4) as [Sa G].
  { split; [by etrans; [exact S|etrans; [exact S3|exact S4]]|]. unfold last_generation. by rewrite O4. }
  destruct ok'; cbn [negb] in H; [|destruct e; [done|]]; simplify_eq; (split; [done|]); (split; [by destruct Sa; split|]);
    exists (n1 ++ n2); cbn; rewrite O4, F4, W4, H3, F3; unfold last_generation in *; cbn; rewrite ?O4, ?H3 in *; by split_and!; auto; rewrite W.
Qed.

Lemma work_barrier_return args f e s le ok s' r : work_barrier args f e s le = Some (WReturn ok s' r) ->
  ok = false /\ (exists a b c d, r = Some (error_frame a b c d)) /\ same_queue s s' /\ opened (hist s') = opened (hist s) /\
  filename s' = filename s /\ written (hist s') = written (hist s) ++ [(last_generation s', le, false)].
Proof.
  unfold work_barrier. intros H. destruct (parseCycleRequestFrame _) as [rq|]; [|done].
  destruct (write_log s le) as [[[] s1]|] eqn:E; [| |done]; cbn [negb] in H.
  - repeat (case_match; try done).
  - destruct e; [done|]. simplify_eq. apply write_log_spec in E as (S&O&F&W).
    split; [done|]. split; [by eexists _, _, _, _|]. split_and!; auto. unfold last_generation. rewrite O. exact W.
Qed.

Lemma work_barrier_cycle args f e s le s' rq old new : work_barrier args f e s le = Some (WCycle s' rq old new) ->
  parseCycleRequestFrame (take (Z.to_nat (le_datalen le)) (le_data le)) = Some rq /\ same_queue s s' /\
  old = filename s /\ filename s' = new /\ opened (hist s') = opened (hist s) ++ [new] /\
  written (hist s') = written (hist s) ++ [(last_generation s, le, true)].
Proof.
  unfold work_barrier. intros H. destruct (parseCycleRequestFrame _) as [rq'|] eqn:P; [|done].
  destruct (write_log s le) as [[[] s1]|] eqn:E; [| |done]; cbn [negb] in H; [|by destruct e].
  apply write_log_spec in E as (S&O&F&W). destruct (next_logfile args f (count_event s1 le)) as [[[] s2]|] eqn:N; [|done..].
  cbn [negb] in H. simplify_eq. apply next_logfile_opens in N as [name [S2 O2 F2 W2]]. cbn in *. subst name.
  split; [done|]. split; [etrans; [exact S|]; destruct S2; by split|]. rewrite <- O, <- W. by split_and!.
Qed.

(** ** The invariant *)

Definition hand (x : sys) : list LogEvent := match pc x with MHave le => [le] | _ => [] end.

Definition memory_of (events : list LogEvent) : Z := foldr Z.add 0 (event_memory <$> events).

Definition entry_event (w : nat * LogEvent * bool) : LogEvent := w.1.2.

(** A barrier that is in a file. *)
Definition closes (w : nat * LogEvent * bool) : bool := w.2 && is_internal_barrier (entry_event w).

(** Files follow each other, and behind a barrier comes a later file. *)
Definition entry_before (w w' : nat * LogEvent * bool) : Prop := (w.1.1 <= w'.1.1)%nat /\ (closes w = true -> (w.1.1 < w'.1.1)%nat).
Definition entry_below (top : nat) (w : nat * LogEvent * bool) : Prop := (w.1.1 <= top)%nat /\ (closes w = true -> (w.1.1 < top)%nat).

(** The barrier of the request is in the file [old], and [new] is the next file. *)
Definition cycled (s : Logger) (session seq : Z) (old new : cstr) : Prop := exists g le rq,
  (g, le, true) ∈ written (hist s) /\ is_internal_barrier le = true /\
  parseCycleRequestFrame (take (Z.to_nat (le_datalen le)) (le_data le)) = Some rq /\
  rq_session rq = session /\ rq_seq rq = seq /\ opened (hist s) !! g = Some old /\ opened (hist s) !! S g = Some new.

(** What may be on the control socket. *)
Inductive frame_ok (s : Logger) : list byte -> Prop :=
| ok_ready session : frame_ok s (ready_frame session)
| ok_error session seq code message : frame_ok s (error_frame session seq code message)
| ok_complete rq old new : cycled s (rq_session rq) (rq_seq rq) old new -> frame_ok s (complete_frame rq old new).

Record inv (x : sys) : Prop := mkInv {
  i_accept : accepted (hist (lg x)) = (entry_event <$> written (hist (lg x))) ++ hand x ++ q (lg x);
  i_memory : totalMemoryUsage (lg x) = wraps 64 (memory_of (q (lg x)));
  i_names : last (opened (hist (lg x))) = Some (filename (lg x));
  i_order : StronglySorted entry_before (written (hist (lg x)));
  i_below : Forall (entry_below (last_generation (lg x))) (written (hist (lg x)));
  i_pc : match pc x with
         | MFinish rq old new | MReply rq old new => cycled (lg x) (rq_session rq) (rq_seq rq) old new
         | _ => True
         end;
  i_completed : match completed_cycle (lg x) with
                | Some (c, old, new) => cycled (lg x) (cy_session c) (cy_seq c) old new
                | None => True
                end;
  i_frames : Forall (frame_ok (lg x)) (replies x ++ sent x)
}.

(** What is behind stays behind. *)
Definition extends (s s' : Logger) : Prop :=
  written (hist s) `prefix_of` written (hist s') /\ opened (hist s) `prefix_of` opened (hist s').

Lemma extends_same s s' : hist s' = hist s -> extends s s'.
Proof. intros H. by split; rewrite H. Qed.

Lemma cycled_extends s s' a b old new : extends s s' -> cycled s a b old new -> cycled s' a b old new.
Proof.
  intros [[w Hw] [o Ho]] (g&le&rq&Hin&B&P&Ha&Hb&Hold&Hnew). exists g, le, rq. rewrite Hw, Ho.
  split_and!; auto; [apply elem_of_app; by left|by apply lookup_app_l_Some..].
Qed.

Lemma frame_extends s s' f : extends s s' -> frame_ok s f -> frame_ok s' f.
Proof.
  intros E [session|session seq code message|rq old new C]; [apply ok_ready|apply ok_error|apply ok_complete].
  by eapply cycled_extends.
Qed.

Lemma frames_extends s s' fs : extends s s' -> Forall (frame_ok s) fs -> Forall (frame_ok s') fs.
Proof. intros E F. eapply Forall_impl; [exact F|]. intros f. by apply frame_extends. Qed.

Lemma wraps_add a b w : 0 < w -> wraps w (wraps w a + b) = wraps w (a + b).
Proof.
  intros. rewrite <- (wraps_wrapu w (wraps w a + b)), <- (wraps_wrapu w (a + b)) by done. f_equal. unfold wrapu.
  rewrite <- (Zplus_mod_idemp_l (wraps w a)), <- (Zplus_mod_idemp_l a). fold (wrapu w (wraps w a)) (wrapu w a).
  by rewrite wrapu_wraps.
Qed.

Lemma memory_snoc events le : memory_of (events ++ [le]) = memory_of events + event_memory le.
Proof. unfold memory_of. rewrite fmap_app, foldr_app. cbn. induction events as [|e events IH]; cbn in *; lia. Qed.

(** ** The steps of receive threads *)

(** What receiving does: events are added to the queue. *)
Record pushes (s s' : Logger) (events : list LogEvent) : Prop := mkPushes {
  pu_queue : q s' = q s ++ events;
  pu_accepted : accepted (hist s') = accepted (hist s) ++ events;
  pu_memory : totalMemoryUsage s = wraps 64 (memory_of (q s)) -> totalMemoryUsage s' = wraps 64 (memory_of (q s'));
  pu_written : written (hist s') = written (hist s);
  pu_opened : opened (hist s') = opened (hist s);
  pu_filename : filename s' = filename s;
  pu_completed : completed_cycle s' = completed_cycle s;
  pu_log : log s' = log s;
  pu_disk : ldisk s' = ldisk s
}.

Lemma push_event_pushes s le : pushes s (push_event s le) [le].
Proof.
  split; try done. intros E. change (wraps 64 (totalMemoryUsage s + event_memory le) = wraps 64 (memory_of (q s ++ [le]))).
  by rewrite E, wraps_add, memory_snoc.
Qed.

Lemma pushes_nil s : pushes s s [].
Proof. split; by rewrite ?app_nil_r. Qed.

Lemma pushes_trans s1 s2 s3 l1 l2 : pushes s1 s2 l1 -> pushes s2 s3 l2 -> pushes s1 s3 (l1 ++ l2).
Proof.
  intros [Q1 A1 M1 W1 O1 F1 C1 L1 D1] [Q2 A2 M2 W2 O2 F2 C2 L2 D2]. split; [by rewrite Q2, Q1, app_assoc|by rewrite A2, A1, app_assoc|auto|congruence..].
Qed.

Lemma enqueue_loop_pushes args size evts : forall room s s', enqueue_loop args size evts room s = Some s' ->
  exists events, pushes s s' events.
Proof.
  induction evts as [|evt evts IH]; intros room s s' H; cbn [enqueue_loop] in H.
  - simplify_eq. exists []. apply pushes_nil.
  - destruct room; cbn [negb] in H.
    + destruct evt as [le|]; [|by eapply IH]. apply IH in H as [events P]. eexists.
      eapply pushes_trans; [apply push_event_pushes|exact P].
    + case_match; [|done]. simplify_eq. exists []. apply pushes_nil.
Qed.

Lemma handleCycleRequest_spec args s rbuf s' r : handleCycleRequest args s rbuf = (s', r) ->
  (exists events, pushes s s' events) /\
  match r with
  | None => True
  | Some f => (exists a b c d, f = error_frame a b c d) \/
      exists rq c old new, f = complete_frame rq old new /\ completed_cycle s = Some (c, old, new) /\
      cy_session c = rq_session rq /\ cy_seq c = rq_seq rq
  end.
Proof.
  unfold handleCycleRequest. intros H.
  assert (forall le v c, exists events, pushes s (set_cycle (push_event s le) v c (completed_cycle s)) events) as P.
  { intros le v c. exists [le]. destruct (push_event_pushes s le). by split. }
  repeat case_match; simplify_eq; eauto using pushes_nil; (split; [eauto using pushes_nil|]).
  - left. by eexists _, _, _, _.
  - right. eexists _, _, _, _. split; [done|]. split; [done|]. bool_prop. by split; lia.
Qed.

Lemma handler_spec args answers s rbuf channel s' r : handler args answers s rbuf channel = Some (s', r) ->
  (exists events, pushes s s' events) /\
  match r with
  | None => True
  | Some f => (exists a b c d, f = error_frame a b c d) \/
      exists rq c old new, f = complete_frame rq old new /\ completed_cycle s = Some (c, old, new) /\
      cy_session c = rq_session rq /\ cy_seq c = rq_seq rq
  end.
Proof.
  unfold handler. case_bool_decide; [intros [= H1]; by apply handleCycleRequest_spec in H1|].
  intros H0. case_match; [|done]. destruct (clone_all _) as [evts|]; [|done].
  destruct (enqueue_loop _ _ _ _ _) as [s1|] eqn:E; [|done]. simplify_eq. split; [by eapply enqueue_loop_pushes|done].
Qed.

(** ** Preservation *)

Lemma last_generation_eq s s' : opened (hist s') = opened (hist s) -> last_generation s' = last_generation s.
Proof. unfold last_generation. by intros ->. Qed.

(** A step that touches neither the queue nor what was written. *)
Lemma inv_quiet x s p dn rs st : inv x -> q s = q (lg x) -> totalMemoryUsage s = totalMemoryUsage (lg x) -> hist s = hist (lg x) ->
  filename s = filename (lg x) -> hand (mkSys s p dn rs st) = hand x ->
  match p with
  | MFinish rq old new | MReply rq old new => cycled (lg x) (rq_session rq) (rq_seq rq) old new
  | _ => True
  end ->
  match completed_cycle s with
  | Some (c, old, new) => cycled (lg x) (cy_session c) (cy_seq c) old new
  | None => True
  end -> Forall (frame_ok (lg x)) (rs ++ st) -> inv (mkSys s p dn rs st).
Proof.
  intros [A M N O B _ _ _] Hq Hm Hh Hf Hhd Hp Hc Hr. pose proof (extends_same (lg x) s Hh) as E.
  split; cbn [lg pc replies sent]; try (by rewrite ?Hh, ?Hhd, ?Hq, ?Hm, ?Hf).
  - rewrite (last_generation_eq _ _ (f_equal opened Hh)), Hh. exact B.
  - destruct p; auto; by eapply cycled_extends.
  - destruct (completed_cycle s) as [[[c old] new]|]; [|done]. by eapply cycled_extends.
  - by eapply frames_extends.
Qed.

Lemma inv_receive args answers rbuf channel x s r : inv x -> handler args answers (lg x) rbuf channel = Some (s, r) ->
  inv (mkSys s (pc x) (done x) (replies x ++ match r with Some f => [f] | None => [] end) (sent x)).
Proof.
  intros [A M N O B P C F] H. apply handler_spec in H as [[events [Hq Ha Hm Hw Ho Hf Hc _ _]] Hr].
  assert (extends (lg x) s) as E by (by split; rewrite ?Hw, ?Ho).
  split; cbn [lg pc replies sent].
  - rewrite Ha, Hq, Hw, A. change (hand _) with (hand x). by rewrite <- !app_assoc.
  - auto.
  - by rewrite Ho, Hf.
  - by rewrite Hw.
  - rewrite (last_generation_eq _ _ Ho), Hw. exact B.
  - destruct (pc x); auto; by eapply cycled_extends.
  - rewrite Hc. destruct (completed_cycle (lg x)) as [[[c old] new]|]; [|done]. by eapply cycled_extends.
  - apply (frames_extends (lg x)); [done|]. apply Forall_app in F as [F1 F2]. rewrite !Forall_app. split_and!; auto.
    destruct r as [f|]; [|constructor]. constructor; [|constructor].
    destruct Hr as [(a&b&c&d&->)|(rq&c&old&new&->&Hcc&Hs&Hn)]; [apply ok_error|apply ok_complete].
    rewrite Hcc in C. by rewrite <- Hs, <- Hn.
Qed.

Lemma inv_pop x le s : inv x -> pc x = MIdle -> take_event (lg x) = Some (le, s) ->
  inv (mkSys s (MHave le) (done x) (replies x) (sent x)).
Proof.
  intros [A M N O B P C F] Hpc H. unfold take_event in H. destruct (q (lg x)) as [|e rest] eqn:Hq; [done|].
  injection H as <- <-. split; cbn [lg pc replies sent]; auto.
  - change (accepted (hist (lg x)) = (entry_event <$> written (hist (lg x))) ++ [e] ++ rest).
    rewrite A. unfold hand. rewrite Hpc. done.
  - change (wraps 64 (totalMemoryUsage (lg x) - event_memory e) = wraps 64 (memory_of rest)).
    rewrite M, <- Z.add_opp_r, wraps_add by done. f_equal. unfold memory_of. cbn. lia.
  - by eapply frames_extends, F; apply extends_same.
Qed.

(** An entry goes to the end, into the newest file or a later one. *)
Lemma order_snoc w top g le ok : StronglySorted entry_before w -> Forall (entry_below top) w -> (top <= g)%nat ->
  StronglySorted entry_before (w ++ [(g, le, ok)]).
Proof.
  intros S B L. apply StronglySorted_app_2; [|done|repeat constructor]. intros w1 w2 H1 H2%list_elem_of_singleton.
  subst w2. rewrite Forall_forall in B. destruct (B _ H1) as [B1 B2]. split; cbn; [lia|]. intros Hc. specialize (B2 Hc). lia.
Qed.

Lemma below_weaken w top top' : Forall (entry_below top) w -> (top <= top')%nat -> Forall (entry_below top') w.
Proof. intros B L. eapply Forall_impl; [exact B|]. intros e [H1 H2]. split; [lia|]. intros Hc. specialize (H2 Hc). lia. Qed.

Lemma extends_app s s' w o : written (hist s') = written (hist s) ++ w -> opened (hist s') = opened (hist s) ++ o -> extends s s'.
Proof. intros Hw Ho. split; rewrite ?Hw, ?Ho; apply prefix_app_r; done. Qed.

(** An event is dealt with; a barrier only when writing it has failed. *)
Lemma inv_return x s le ok names rs : inv x -> pc x = MHave le -> same_queue (lg x) s ->
  opened (hist s) = opened (hist (lg x)) ++ names -> filename s = default (filename (lg x)) (last names) ->
  written (hist s) = written (hist (lg x)) ++ [(last_generation s, le, ok)] -> closes (last_generation s, le, ok) = false ->
  Forall (frame_ok (lg x)) rs -> inv (mkSys s MIdle (done x) (replies x) (sent x ++ rs)).
Proof.
  intros [A M N O B P C F] Hpc [Sq Sm _ _ Sc Sa] Ho Hf Hw Hcl Hrs. pose proof (extends_app _ _ _ _ Hw Ho) as E.
  assert (last_generation (lg x) <= last_generation s)%nat as L by (unfold last_generation; rewrite Ho, length_app; lia).
  split; cbn [lg pc replies sent].
  - rewrite Sa, A, Sq, Hw, fmap_app, <- !app_assoc. unfold hand. by rewrite Hpc.
  - by rewrite Sm, Sq.
  - rewrite Ho, Hf, last_app. destruct (last names); [done|]. exact N.
  - rewrite Hw. by eapply order_snoc.
  - rewrite Hw. apply Forall_app. split; [by eapply below_weaken|]. constructor; [|constructor].
    split; [done|]. by rewrite Hcl.
  - done.
  - rewrite Sc. destruct (completed_cycle (lg x)) as [[[c old] new]|]; [|done]. by eapply cycled_extends.
  - rewrite app_assoc. apply (frames_extends (lg x)); [done|]. apply Forall_app. by split.
Qed.

Lemma inv_cycle args f e x s le rq old new : inv x -> pc x = MHave le -> is_internal_barrier le = true ->
  work_barrier args f e (lg x) le = Some (WCycle s rq old new) -> inv (mkSys s (MFinish rq old new) (done x) (replies x) (sent x)).
Proof.
  intros [A M N O B P C F] Hpc Hb H. apply work_barrier_cycle in H as (Hp&[Sq Sm _ _ Sc Sa]&->&Hf&Ho&Hw).
  pose proof (extends_app _ _ _ _ Hw Ho) as E.
  assert (exists o, opened (hist (lg x)) = o ++ [filename (lg x)]) as [o Eo] by (by apply last_Some in N).
  assert (last_generation (lg x) = length o /\ last_generation s = S (length o)) as [L1 L2].
  { unfold last_generation. rewrite Ho, Eo, !length_app. cbn. lia. }
  assert (cycled s (rq_session rq) (rq_seq rq) (filename (lg x)) new) as Cy.
  { exists (length o), le, rq. rewrite Hw, Ho, Eo, L1. split_and!; auto.
    - apply elem_of_app. right. by apply list_elem_of_singleton.
    - rewrite <- app_assoc. by apply list_lookup_middle.
    - rewrite lookup_app_r; rewrite length_app; cbn; [|lia]. by replace (S (length o) - (length o + 1))%nat with 0%nat by lia. }
  split; cbn [lg pc replies sent].
  - rewrite Sa, A, Sq, Hw, fmap_app, <- !app_assoc. unfold hand. by rewrite Hpc.
  - by rewrite Sm, Sq.
  - by rewrite Ho, Hf, last_snoc.
  - rewrite Hw. by eapply order_snoc.
  - rewrite Hw. apply Forall_app. split; [eapply below_weaken; [exact B|lia]|]. constructor; [|constructor].
    rewrite L1, L2. split; cbn; lia.
  - exact Cy.
  - rewrite Sc. destruct (completed_cycle (lg x)) as [[[c old] new']|]; [|done]. by eapply cycled_extends.
  - by eapply frames_extends.
Qed.

Lemma sent_ok s args net f : frame_ok s f -> Forall (frame_ok s) (snd (sendControlFrame args net f)).
Proof. intros F. unfold sendControlFrame. destruct (negb _), net; cbn; auto. Qed.

Lemma inv_work args f e net x y : inv x -> step args x (Work f e net) = Next y -> inv y.
Proof.
  intros I H. cbn [step] in H. destruct (pc x) as [|le| |] eqn:Hpc; try done. unfold work in H.
  destruct (is_internal_barrier le) eqn:Hb.
  - destruct (work_barrier args f e (lg x) le) as [[r|ok s r|s rq old new]|] eqn:E; simplify_eq.
    + apply work_barrier_return in E as (->&(a&b&c&d&->)&S&O&F&W). eapply (inv_return x s le false []); eauto.
      * by rewrite app_nil_r.
      * cbn [send_reply]. apply sent_ok, ok_error.
    + by eapply inv_cycle.
  - destruct (work_event args f e (lg x) le) as [[r|ok s r|s rq old new]|] eqn:E; simplify_eq.
    + apply work_event_spec in E as (->&S&names&O&F&W). eapply (inv_return x s le ok names); eauto.
      unfold closes. cbn. rewrite Hb. apply andb_false_r.
    + unfold work_event in E. repeat (case_match; try done).
Qed.

Lemma inv_step args x a y : inv x -> step args x a = Next y -> inv y.
Proof.
  intros I H. pose proof I as [A M N O B P C F]. destruct a as [answers rbuf channel|n net| |f e net| |net| |].
  - cbn [step] in H. destruct (handler args answers (lg x) rbuf channel) as [[s r]|] eqn:E; simplify_eq. by eapply inv_receive.
  - cbn [step] in H. destruct (replies x !! n) as [f|] eqn:E; [|done].
    assert (Forall (frame_ok (lg x)) (delete n (replies x) ++ sent x ++ snd (sendControlFrame args net f))) as F'.
    { apply Forall_app in F as [F1 F2]. rewrite !Forall_app. split_and!; auto; [by apply Forall_delete|].
      apply sent_ok. exact (Forall_lookup_1 _ _ _ _ F1 E). }
    destruct (sendControlFrame args net f) as [[] out]; simplify_eq. by apply (inv_quiet x).
  - cbn [step] in H. destruct (pc x) eqn:Hpc; try done. destruct (done x) eqn:Hd; [done|].
    destruct (take_event (lg x)) as [[le s]|] eqn:E; simplify_eq. rewrite <- Hd. by apply inv_pop.
  - by eapply inv_work.
  - cbn [step] in H. destruct (pc x) as [| |rq old new|] eqn:Hpc; simplify_eq. apply (inv_quiet x); auto. unfold hand. by rewrite Hpc.
  - cbn [step] in H. destruct (pc x) as [| | |rq old new] eqn:Hpc; try done.
    pose proof (sent_ok (lg x) args net _ (ok_complete _ _ _ _ P)) as S.
    destruct (sendControlFrame args net (complete_frame rq old new)) as [[] out]; simplify_eq.
    apply (inv_quiet x); auto; [unfold hand; by rewrite Hpc|]. rewrite app_assoc. by apply Forall_app.
  - cbn [step] in H. destruct (_ && _) in H; simplify_eq; [exact I|]. by apply (inv_quiet x).
  - cbn [step] in H. simplify_eq. by apply (inv_quiet x).
Qed.

Lemma inv_init args f net d x : init args f net d = Some (inr x) -> inv x.
Proof.
  unfold init. destruct (openLogfile args f (new_logger d)) as [[[] s]|] eqn:E; [|done..]. cbn [negb].
  apply openLogfile_opens in E as [name [[Sq Sm _ _ Sc Sa] O F W]].
  pose proof (sent_ok s args net _ (ok_ready s (control_session_id args))) as R.
  destruct (sendControlFrame args net _) as [[] out]; [|done]. intros [= <-]. cbn in *.
  split; cbn [lg pc replies sent hand app]; unfold hand; cbn [pc]; rewrite ?Sq, ?Sm, ?Sa, ?W, ?O, ?F, ?Sc; try done; constructor.
Qed.

Lemma reachable_inv args d allowed x : reachable args d allowed x -> inv x.
Proof. induction 1; [by eapply inv_init|by eapply inv_step]. Qed.

(** ** Cycles *)

(** C26: the logger keeps its events in order and a cycle cuts them in two, under
    every interleaving of receive threads, main thread and signals.  What came
    into the queue is what has been taken out to be written, then the event in
    hand, then the queue; the memory that is accounted for is that of the queue.
    And every frame on the control socket is the greeting, an error, or the
    completion of a cycle that has happened: its barrier was written to the old
    file, all events that came before it went to the old or earlier files, and
    all that came after it to the new or later files. *)
Theorem logger_cycle_ordered (args : Args) (d : disk) (x : sys) : reachable args d (fun _ => True) x ->
  accepted (hist (lg x)) = (entry_event <$> written (hist (lg x))) ++ hand x ++ q (lg x) /\
  totalMemoryUsage (lg x) = wraps 64 (memory_of (q (lg x))) /\
  forall frame, frame ∈ sent x ->
    (exists session, frame = ready_frame session) \/
    (exists session seq code message, frame = error_frame session seq code message) \/
    exists rq old new before g le after rq',
      frame = complete_frame rq old new /\ written (hist (lg x)) = before ++ (g, le, true) :: after /\
      is_internal_barrier le = true /\ parseCycleRequestFrame (take (Z.to_nat (le_datalen le)) (le_data le)) = Some rq' /\
      rq_session rq' = rq_session rq /\ rq_seq rq' = rq_seq rq /\
      opened (hist (lg x)) !! g = Some old /\ opened (hist (lg x)) !! S g = Some new /\
      accepted (hist (lg x)) = (entry_event <$> before) ++ le :: (entry_event <$> after) ++ hand x ++ q (lg x) /\
      Forall (fun w => (w.1.1 <= g)%nat) before /\ Forall (fun w => (g < w.1.1)%nat) after.
Proof.
  intros [A M N O B P C F]%reachable_inv. split; [exact A|]. split; [exact M|]. intros frame Hin.
  apply Forall_app in F as [_ F]. rewrite Forall_forall in F.
  destruct (F frame Hin) as [session|session seq code message|rq old new (g&le&rq'&Hw&Hb&Hp&Hs&Hq&Ho&Hn)];
    [left; by eexists|right; left; by eexists _, _, _, _|right; right].
  apply list_elem_of_split in Hw as (before&after&Hw). exists rq, old, new, before, g, le, after, rq'.
  rewrite Hw in O. apply StronglySorted_app in O as (O1&_&O2). apply StronglySorted_cons in O2 as [O2 _].
  split_and!; auto.
  - rewrite A, Hw, fmap_app. cbn. by rewrite <- app_assoc.
  - apply Forall_forall. intros w Hin'. destruct (O1 w _ Hin' (list_elem_of_here _ _)) as [H _]. exact H.
  - eapply Forall_impl; [exact O2|]. intros w [_ H]. apply H. unfold closes. cbn. exact Hb.
Qed.

(** ** A run *)

Fixpoint run (args : Args) (x : sys) (labels : list label) : option sys :=
  match labels with
  | [] => Some x
  | a :: labels => match step args x a with Next y => run args y labels | _ => None end
  end.

Lemma reachable_run args d allowed labels : forall x y, reachable args d allowed x -> Forall allowed labels ->
  run args x labels = Some y -> reachable args d allowed y.
Proof.
  induction labels as [|a labels IH]; intros x y R F H; cbn [run] in H; [by simplify_eq|].
  apply Forall_cons in F as [Fa F]. destruct (step args x a) as [z| | |] eqn:E; try done.
  apply (IH z y); auto. by eapply reach_step.
Qed.

Definition example_args : Args := mkArgs zero false true false (-1) 0 7 true ∅ (str "log").
Definition example_empty : disk := mkDisk ∅ (fun _ => true) 1000.
Definition example_labels : list label :=
  [Receive [] (mkRbuf 10 [1; 2; 3]) (str "A"); Receive [] (mkRbuf 11 (request_frame (mkRequest 7 1 0 0))) CONTROL_REQUEST_CHANNEL;
   Pop; Receive [] (mkRbuf 12 [4; 5]) (str "B"); Work [] false true; Pop; Work [] false true; Finish; Complete true; Pop; Work [] false true].

Definition example_end : option sys :=
  match init example_args [] true example_empty with
  | Some (inr x) => run example_args x example_labels
  | _ => None
  end.

(** The events are in two files, and the completion was sent. *)
Lemma example_run : exists x, example_end = Some x /\
  (fun w => (w.1.1, le_timestamp w.1.2, w.2)) <$> written (hist (lg x)) = [(0%nat, 10, true); (0%nat, 11, true); (1%nat, 12, true)] /\
  opened (hist (lg x)) = [str "log.0000"; str "log.0001"] /\
  sent x = [ready_frame 7; complete_frame (mkRequest 7 1 0 0) (str "log.0000") (str "log.0001")].
Proof. eexists. split; [vm_compute; reflexivity|]. split; [vm_compute; reflexivity|]. split; vm_compute; reflexivity. Qed.

Lemma example_reachable allowed : Forall allowed example_labels -> exists x, example_end = Some x /\
  reachable example_args example_empty allowed x.
Proof.
  intros F. destruct example_run as (x&E&_). exists x. split; [done|]. unfold example_end in E.
  destruct (init example_args [] true example_empty) as [[|x0]|] eqn:I; [done| |done].
  eapply reachable_run; [|exact F|exact E]. by eapply reach_init.
Qed.

Lemma logger_cycle_ordered_witness : exists x, example_end = Some x /\ reachable example_args example_empty (fun _ => True) x /\
  accepted (hist (lg x)) = (entry_event <$> written (hist (lg x))) ++ hand x ++ q (lg x).
Proof.
  destruct (example_reachable (fun _ => True)) as (x&E&R); [apply Forall_true; auto|]. exists x. split; [exact E|]. split; [exact R|].
  exact (proj1 (logger_cycle_ordered example_args example_empty x R)).
Defined.
