(* ===== verification/LoggerFiles.v ===== *)
(** * The logger: files

    Numbered files are never overwritten and hold what was written; the rotation
    moves every file one place on. *)
From Stdlib Require Import SpecFloat.
From stdpp Require Import sorting.
From S2P Require Import Prelude Bytes Transport Filter EventLog EventLogProps LogFile LogRepair LogRepairProps.
From S2P Require Import Url CNum Logger LoggerFrames LoggerProps.
Local Open Scope Z_scope.

Lemma marker_ok : (0 < length BARRIER_MARKER_CHANNEL < 1000)%nat /\ bytes_ok BARRIER_MARKER_CHANNEL.
Proof. split; [vm_compute; lia|]. by repeat constructor. Qed.

Local Opaque ready_frame error_frame complete_frame parseCycleRequestFrame CONTROL_REQUEST_CHANNEL BARRIER_MARKER_CHANNEL str.

(** ** Files *)

(** The entries of a file, and its events. *)
Definition entries (g : nat) (s : Logger) : list (nat * LogEvent * bool) := filter (fun w => w.1.1 = g) (written (hist s)).
Definition events_of (g : nat) (s : Logger) : list event := (fun w => log_event (entry_event w)) <$> entries g s.
Definition all_ok (g : nat) (s : Logger) : Prop := Forall (fun w => w.2 = true) (entries g s).

(** The disk when the log is closed. *)
Definition final_disk (s : Logger) : disk := ldisk (close_log s).

(** [d] is the disk at the start. *)
Record finv (d : disk) (s : Logger) : Prop := mkFinv {
  fi_log : exists l, log s = mkLogFile (filename s) (str "w") (Some l) /\
    (all_ok (last_generation s) s -> content (lfile l) = encode_log 0 (events_of (last_generation s) s) /\
     eventcount l = Z.of_nat (length (events_of (last_generation s) s)));
  fi_name : last (opened (hist s)) = Some (filename s);
  fi_nodup : NoDup (opened (hist s));
  fi_closed : forall g name, opened (hist s) !! g = Some name -> (g < last_generation s)%nat -> all_ok g s ->
    files (ldisk s) !! name = Some (encode_log 0 (events_of g s));
  fi_exist : forall name, name ∈ opened (hist s) -> is_Some (files (ldisk s) !! name) /\ files d !! name = None;
  fi_others : forall path, path ∉ opened (hist s) -> files (ldisk s) !! path = files d !! path;
  fi_gens : Forall (fun w => (w.1.1 <= last_generation s)%nat) (written (hist s))
}.

Lemma finv_same d s s' : finv d s -> hist s' = hist s -> log s' = log s -> filename s' = filename s -> ldisk s' = ldisk s -> finv d s'.
Proof.
  intros [L N D C E O G] Hh Hl Hf Hd.
  assert (last_generation s' = last_generation s) as Hg by (unfold last_generation; by rewrite Hh).
  assert (forall g, entries g s' = entries g s) as He by (intros; unfold entries; by rewrite Hh).
  split; unfold all_ok, events_of in *; rewrite ?Hh, ?Hl, ?Hf, ?Hd, ?Hg, ?He; auto.
  intros g. rewrite He. apply C.
Qed.

(** Closing the log completes the files. *)
Lemma final_files d s g name : finv d s -> opened (hist s) !! g = Some name -> all_ok g s ->
  files (final_disk s) !! name = Some (encode_log 0 (events_of g s)).
Proof.
  intros [(l&L&Hl) N D C E O G] Hg Ho. unfold final_disk, close_log. cbn [set_files ldisk]. rewrite L, close_w.
  cbn [set_contents files]. apply last_Some in N as [o N].
  assert (last_generation s = length o) as Lg by (unfold last_generation; rewrite N, length_app; cbn; lia).
  assert (g <= length o)%nat as Hle by (apply lookup_lt_Some in Hg; rewrite N, length_app in Hg; cbn in Hg; lia).
  assert (opened (hist s) !! length o = Some (filename s)) as Hlast by (rewrite N; by apply list_lookup_middle).
  destruct (decide (g = length o)) as [->|Ne].
  - rewrite Hlast in Hg. injection Hg as <-. rewrite lookup_insert_eq. rewrite Lg in Hl. f_equal. by apply Hl.
  - assert (name <> filename s) by (intros ->; pose proof (NoDup_lookup _ _ _ _ D Hg Hlast); lia).
    rewrite lookup_insert_ne by done. apply C; auto. lia.
Qed.

Lemma encode_log_snoc es : forall k e, encode_log k (es ++ [e]) = encode_log k es ++ encode_event (k + Z.of_nat (length es)) e.
Proof.
  induction es as [|e' es IH]; intros k e; cbn [encode_log app length].
  - by rewrite app_nil_r, Z.add_0_r.
  - rewrite IH, <- app_assoc. do 2 f_equal. f_equal. lia.
Qed.

(** Events of earlier files do not change. *)
Lemma entries_snoc s s' g w : written (hist s') = written (hist s) ++ [w] ->
  entries g s' = entries g s ++ (if decide (w.1.1 = g) then [w] else []).
Proof.
  intros H. unfold entries. rewrite H, filter_app, filter_cons, filter_nil. done.
Qed.

Lemma write_log_finv d s le ok s' : finv d s -> le_ok le -> write_log s le = Some (ok, s') -> finv d s'.
Proof.
  intros [(l&L&Hl) N D C E O G] V H. pose proof (write_log_spec _ _ _ _ H) as (_&Ho&Hf&Hw).
  pose proof (last_generation_eq _ _ Ho) as Hg. pose proof (fun g => entries_snoc s s' g _ Hw) as He. cbn [fst] in He.
  unfold write_log in H. rewrite L in H. cbn [lf_log lf_path lf_mode] in H.
  destruct (write_handed l (le_eventnum le) (log_event le) V) as (ok'&l'&Ew&Hok&Cw&_&Nw). rewrite handed_log_event in Ew.
  rewrite Ew in H. injection H as <- <-. cbn [note_written set_hist set_log set_files ldisk log] in *.
  split; cbn [ldisk note_written set_hist set_log set_files log filename]; auto.
  - exists l'. split; [done|]. change (last_generation _) with (last_generation s). unfold all_ok, events_of. rewrite !He.
    rewrite decide_True by done. rewrite Forall_app. intros [A1 A2]. destruct (Hl A1) as [Hc Hn].
    apply Forall_cons in A2 as [A2 _]. cbn in A2. pose proof (proj1 Hok A2) as R.
    rewrite fmap_app. cbn [fmap list_fmap entry_event fst snd]. rewrite encode_log_snoc, length_app, Cw, take_ge, Hc, (Nw R), Hn by done. cbn [length]. split; [done|]. unfold events_of. lia.
  - intros g name Hgn Hlt Ha. rewrite Hg in Hlt. specialize (He g). rewrite decide_False, app_nil_r in He by lia.
    unfold all_ok, events_of in *. rewrite He in *. by apply C.
  - rewrite Hw, Hg. apply Forall_app. split; [done|]. by repeat constructor.
Qed.

Lemma increment_loop_fresh fuel d prefix : forall n name n', increment_loop fuel d prefix n = Some (name, n') -> files d !! name = None.
Proof.
  induction fuel as [|fuel IH]; intros n name n' H; [done|]. cbn [increment_loop] in H. unfold exists_file in H.
  destruct (files d !! increment_name prefix n) eqn:E; [by eapply IH|]. by simplify_eq.
Qed.

(** The modes in which files are numbered. *)
Definition numbering (args : Args) : Prop := auto_increment args = true /\ rotate args <= 0.

(** A new file has a name that is not there. *)
Lemma openLogfile_fresh args f s ok s' : numbering args -> openLogfile args f s = Some (ok, s') -> ok = true /\ exists name,
  files (ldisk s) !! name = None /\ log s' = mkLogFile name (str "w") (Some (mkLog (mkFILE [] 0 (space (ldisk s))) 0)) /\
  filename s' = name /\ opened (hist s') = opened (hist s) ++ [name] /\ written (hist s') = written (hist s) /\
  files (ldisk s') = <[name := []]> (files (ldisk s)).
Proof.
  intros [A R] H. unfold openLogfile in H. rewrite A, (proj2 (Z.ltb_ge 0 (rotate args))) in H by done.
  destruct (increment_loop _ _ _ _) as [[name next]|] eqn:E; [|done]. rewrite open_w in H.
  destruct (writable (ldisk s) name); [|done]. cbn [LogFile_good lf_log] in H. injection H as <- <-.
  split; [done|]. exists name. split; [by eapply increment_loop_fresh|done].
Qed.

Lemma next_logfile_finv args f d s ok s' : numbering args -> finv d s -> next_logfile args f s = Some (ok, s') -> finv d s'.
Proof.
  intros M I H. pose proof I as [(l&L&Hl) N D C E O G].
  assert (forall p, p <> filename s -> files (final_disk s) !! p = files (ldisk s) !! p) as Hfd.
  { intros p Np. unfold final_disk, close_log. cbn [set_files ldisk]. rewrite L, close_w. cbn. by rewrite lookup_insert_ne. }
  assert (is_Some (files (final_disk s) !! filename s)) as Hcur.
  { unfold final_disk, close_log. cbn [set_files ldisk]. rewrite L, close_w. cbn. rewrite lookup_insert_eq. by eexists. }
  assert (filename s ∈ opened (hist s)) as Hin by (apply last_Some in N as [o ->]; apply elem_of_app; right; by left).
  unfold next_logfile in H. rewrite (proj2 (Z.ltb_ge 0 (rotate args))) in H by apply M.
  apply openLogfile_fresh in H as [-> (name&F&Hlog&Hf&Ho&Hw&Hd)]; [|done]. fold (final_disk s) in *.
  change (opened (hist (close_log s))) with (opened (hist s)) in Ho. change (written (hist (close_log s))) with (written (hist s)) in Hw.
  assert (name ∉ opened (hist s)) as Hnew.
  { intros Hn. destruct (decide (name = filename s)) as [->|Ne]; [rewrite F in Hcur; by destruct Hcur|].
    rewrite Hfd in F by done. destruct (E _ Hn) as [[? ?] _]. congruence. }
  assert (last_generation s' = S (last_generation s)) as Hg.
  { unfold last_generation. rewrite Ho, length_app. apply last_Some in N as [o ->]. rewrite length_app. cbn. lia. }
  assert (forall g, entries g s' = entries g s) as He by (intros; unfold entries; by rewrite Hw).
  assert (entries (S (last_generation s)) s = []) as Hempty.
  { unfold entries. clear -G. induction G as [|w ws Hw' _ IH]; [done|]. rewrite filter_cons_False by lia. exact IH. }
  split.
  - eexists. rewrite Hf. split; [exact Hlog|]. intros _. unfold events_of. by rewrite Hg, He, Hempty.
  - by rewrite Ho, Hf, last_snoc.
  - rewrite Ho. apply NoDup_app. split; [done|]. split; [|apply NoDup_singleton]. intros p Hp ->%list_elem_of_singleton. done.
  - intros g p Hgp Hlt Ha. rewrite Hg in Hlt. unfold all_ok, events_of in *. rewrite He in *. rewrite Hd, Ho in *.
    assert (opened (hist s) !! g = Some p) as Hgp'.
    { rewrite lookup_app_l in Hgp; [done|]. unfold last_generation in Hlt. apply last_Some in N as [o Eo]. rewrite Eo, length_app in *. cbn in *. lia. }
    rewrite lookup_insert_ne; [by apply (final_files d)|]. intros ->. apply Hnew. by eapply list_elem_of_lookup_2.
  - intros p Hp. rewrite Hd. rewrite Ho in Hp. apply elem_of_app in Hp as [Hp|Hp%list_elem_of_singleton].
    + rewrite lookup_insert_ne by (intros ->; done). destruct (E _ Hp) as [E1 E2]. split; [|done].
      destruct (decide (p = filename s)) as [->|]; [done|]. by rewrite Hfd.
    + subst p. rewrite lookup_insert_eq. split; [by eexists|]. rewrite <- (O _ Hnew).
      rewrite <- Hfd; [done|]. intros ->. done.
  - intros p Hp. rewrite Ho in Hp. apply not_elem_of_app in Hp as [Hp1 Hp2]. rewrite Hd.
    rewrite lookup_insert_ne by (intros ->; apply Hp2; by left). rewrite Hfd; [by apply O|]. intros ->. done.
  - rewrite Hw, Hg. eapply Forall_impl; [exact G|]. intros w. cbn. lia.
Qed.

Lemma split_if_finv due args f d s ok s' : numbering args -> finv d s -> split_if due args f s = Some (ok, s') -> finv d s'.
Proof.
  intros M I H. unfold split_if in H. destruct due; [|by simplify_eq].
  destruct (next_logfile args f s) as [[b s1]|] eqn:E; [|done]. apply (next_logfile_finv _ _ d) in E; [|done..].
  destruct b; simplify_eq; [|done]. by eapply finv_same.
Qed.

Lemma work_finv args f e d s le r : numbering args -> finv d s -> le_ok le -> work args f e s le = Some r ->
  match r with WExit _ => True | WReturn _ s' _ | WCycle s' _ _ _ => finv d s' end.
Proof.
  intros M I V H. unfold work in H. destruct (is_internal_barrier le).
  - unfold work_barrier in H. destruct (parseCycleRequestFrame _) as [rq|]; [|by injection H as <-].
    destruct (write_log s le) as [[[] s1]|] eqn:W; [| |done]; apply (write_log_finv d) in W; auto; cbn [negb] in H.
    + destruct (next_logfile args f (count_event s1 le)) as [[[] s2]|] eqn:N; [|by injection H as <-|done].
      apply (next_logfile_finv _ _ d) in N; [|done|by eapply finv_same]. cbn [negb] in H. injection H as <-. by eapply finv_same.
    + destruct e; by injection H as <-.
  - unfold work_event in H. destruct (split_if (split_due args s) args f s) as [[[] s1]|] eqn:E1; [|by injection H as <-|done].
    apply (split_if_finv _ _ _ d) in E1; [|done..]. cbn [negb] in H.
    destruct (split_if (got_sighup s1) args f s1) as [[[] s2]|] eqn:E2; [|by injection H as <-|done].
    apply (split_if_finv _ _ _ d) in E2; [|done..]. cbn [negb] in H.
    destruct (write_log (if got_sighup s1 then set_sighup s2 false else s2) le) as [[ok s3]|] eqn:W; [|done].
    apply (write_log_finv d) in W; [|destruct (got_sighup s1); [by eapply finv_same|done]|done].
    destruct ok; cbn [negb] in H; [injection H as <-; by eapply finv_same|]. destruct e; by injection H as <-.
Qed.

(** ** Events that fit into a log *)

(** A message, or what the plugins make of it, can be written. *)
Definition label_ok (args : Args) (a : label) : Prop :=
  match a with
  | Receive answers rbuf channel =>
      let name := default channel (channel_renames args !! channel) in
      (0 < length name < 1000)%nat /\ bytes_ok name /\ bytes_ok (rdata rbuf) /\ data_size rbuf < 2 ^ 31 - 1 /\
      Forall (fun e : option LogEvent => match e with Some le => le_ok le | None => True end) (concat answers)
  | _ => True
  end.

Definition opt_ok (e : option LogEvent) : Prop := match e with Some le => le_ok le | None => True end.

Lemma received_ok k u name bs : (0 < length name < 1000)%nat -> bytes_ok name -> bytes_ok bs -> Z.of_nat (length bs) < 2 ^ 31 - 1 ->
  le_ok (mkLogEvent k (wraps 64 u) name (wraps 32 (Z.of_nat (length bs))) bs).
Proof.
  intros Hn B1 B2 Hl. constructor; cbn -[wraps]; rewrite ?(wraps_id 32) by (try lia; unfold in_s; lia); try lia.
  - by apply wraps_range.
  - by apply Forall_app.
Qed.

Lemma clone_all_ok pevts evts : Forall opt_ok pevts -> clone_all pevts = Some evts -> Forall opt_ok evts.
Proof.
  revert evts. induction pevts as [|[le|] pevts IH]; intros evts F H; cbn [clone_all] in H; [by simplify_eq| |];
    apply Forall_cons in F as [Fe F].
  - assert (forall c, cloneLogEvent le = Some c -> c = le) as Hc.
    { intros c Ec. unfold cloneLogEvent in Ec. pose proof (v_data _ Fe) as E. cbn in E.
      rewrite E, Nat2Z.id, firstn_all, <- E in Ec. case_match; [|done]. injection Ec as <-. by destruct le. }
    destruct (cloneLogEvent le) as [c|]; [|done]. rewrite (Hc c eq_refl) in H.
    destruct (clone_all pevts) as [rest|]; [|done]. simplify_eq. constructor; [done|by apply IH].
  - destruct (clone_all pevts) as [rest|]; [|done]. simplify_eq. constructor; [done|by apply IH].
Qed.

Lemma enqueue_loop_ok args size evts : forall room s s', Forall opt_ok evts -> Forall le_ok (q s) ->
  enqueue_loop args size evts room s = Some s' -> Forall le_ok (q s').
Proof.
  induction evts as [|evt evts IH]; intros room s s' F Q H; cbn [enqueue_loop] in H; [by simplify_eq|].
  apply Forall_cons in F as [Fe F]. destruct room; cbn [negb] in H; [|case_match; by simplify_eq].
  destruct evt as [le|]; [|by eapply IH]. eapply IH; [done| |exact H]. cbn. apply Forall_app. split; [done|]. by constructor.
Qed.

Lemma handler_ok args answers s rbuf channel s' r : label_ok args (Receive answers rbuf channel) -> Forall le_ok (q s) ->
  handler args answers s rbuf channel = Some (s', r) -> Forall le_ok (q s').
Proof.
  intros (Hn&B1&B2&Hl&Fa) Q H. unfold handler in H. case_bool_decide.
  - injection H as H. unfold handleCycleRequest in H. destruct marker_ok as [M1 M2].
    assert (forall k, Forall le_ok (q s ++ [mkLogEvent k (wraps 64 (recv_utime rbuf)) BARRIER_MARKER_CHANNEL (wraps 32 (data_size rbuf)) (rdata rbuf)])) as P.
    { intros k. apply Forall_app. split; [done|]. constructor; [|constructor]. by apply received_ok. }
    repeat case_match; simplify_eq; auto; apply P.
  - case_match; [|done]. destruct (clone_all (concat answers)) as [evts|] eqn:E; [|done].
    destruct (enqueue_loop _ _ _ _ _) as [s1|] eqn:L; [|done]. simplify_eq. eapply enqueue_loop_ok; [|exact Q|exact L].
    apply Forall_rev. apply clone_all_ok in E; [|done]. destruct evts; [|done]. constructor; [|constructor]. by apply received_ok.
Qed.

Lemma inv_work_queue args f e s le r : work args f e s le = Some r ->
  match r with WExit _ => True | WReturn _ s' _ | WCycle s' _ _ _ => q s' = q s end.
Proof.
  intros H. unfold work in H. destruct (is_internal_barrier le).
  - destruct r; [done| |]; [apply work_barrier_return in H as (_&_&[]&_)|apply work_barrier_cycle in H as (_&[]&_)]; done.
  - destruct r as [|ok s' r|s' rq old new]; [done|by apply work_event_spec in H as (_&[]&_)|].
    unfold work_event in H. repeat (case_match; try done).
Qed.

Definition ginv (d : disk) (x : sys) : Prop := finv d (lg x) /\ Forall le_ok (hand x ++ q (lg x)).

Lemma ginv_quiet d x s p dn rs st : ginv d x -> hist s = hist (lg x) -> log s = log (lg x) -> filename s = filename (lg x) ->
  ldisk s = ldisk (lg x) -> Forall le_ok (hand (mkSys s p dn rs st) ++ q s) -> ginv d (mkSys s p dn rs st).
Proof. intros [I _] Hh Hl Hf Hd F. split; [by eapply finv_same|exact F]. Qed.

Lemma hand_app x : Forall le_ok (hand x ++ q (lg x)) <-> (match pc x with MHave le => le_ok le | _ => True end) /\ Forall le_ok (q (lg x)).
Proof.
  rewrite Forall_app. unfold hand. destruct (pc x); rewrite ?Forall_nil, ?Forall_singleton; done.
Qed.

Lemma finv_receive args answers rbuf channel d s s' r : finv d s -> handler args answers s rbuf channel = Some (s', r) -> finv d s'.
Proof.
  intros [L N D C E O G] H. apply handler_spec in H as [[events [_ _ _ Hw Ho Hf _ Hl Hd]] _].
  pose proof (last_generation_eq _ _ Ho) as Hg. assert (forall g, entries g s' = entries g s) as He by (intros; unfold entries; by rewrite Hw).
  split; unfold all_ok, events_of in *; rewrite ?Hw, ?Ho, ?Hl, ?Hf, ?Hd, ?Hg, ?He; auto. intros g. rewrite He. apply C.
Qed.

Lemma ginv_step args d x a y : numbering args -> label_ok args a -> ginv d x -> step args x a = Next y -> ginv d y.
Proof.
  intros M K I H. pose proof I as [FI V]. pose proof V as [Vp Vq]%hand_app.
  destruct a as [answers rbuf channel|n net| |f e net| |net| |]; cbn [step] in H.
  - destruct (handler args answers (lg x) rbuf channel) as [[s r]|] eqn:E; simplify_eq.
    split; [by eapply finv_receive|]. apply hand_app. split; [exact Vp|]. by eapply handler_ok.
  - destruct (replies x !! n); [|done]. destruct (sendControlFrame _ _ _) as [[] out]; simplify_eq. by apply (ginv_quiet d x).
  - destruct (pc x) eqn:Hpc; try done. destruct (done x); [done|]. unfold take_event in H.
    destruct (q (lg x)) as [|le rest]; simplify_eq. apply (ginv_quiet d x); auto.
  - destruct (pc x) as [|le| |] eqn:Hpc; try done. destruct (work args f e (lg x) le) as [r|] eqn:W; [|done].
    pose proof (inv_work_queue args f e (lg x) le r W) as Hq. apply (work_finv _ _ _ d) in W; [|done..].
    destruct r as [r|ok s r|s rq old new]; simplify_eq; (split; [exact W|]); apply hand_app; (split; [done|]); cbn [lg]; by rewrite Hq.
  - destruct (pc x) as [| |rq old new|] eqn:Hpc; simplify_eq. by apply (ginv_quiet d x).
  - destruct (pc x) as [| | |rq old new] eqn:Hpc; try done.
    destruct (sendControlFrame _ _ _) as [[] out]; simplify_eq. by apply (ginv_quiet d x).
  - destruct (_ && _) in H; simplify_eq; [exact I|]. by apply (ginv_quiet d x).
  - simplify_eq. by apply (ginv_quiet d x).
Qed.

Lemma ginv_init args f net d x : numbering args -> init args f net d = Some (inr x) -> ginv d x.
Proof.
  intros M H. unfold init in H. destruct (openLogfile args f (new_logger d)) as [[ok s]|] eqn:E; [|done].
  pose proof E as E'. apply openLogfile_fresh in E as [-> (name&F&Hl&Hf&Ho&Hw&Hd)]; [|done]. cbn [negb] in H.
  apply openLogfile_opens in E' as [name' [[Sq _ _ _ _ _] _ _ _]].
  destruct (sendControlFrame _ _ _) as [[] out]; simplify_eq. cbn in F, Ho, Hw, Hd, Sq. split; cbn [lg].
  - split; unfold last_generation, all_ok, events_of, entries; rewrite ?Hl, ?Ho, ?Hw, ?Hd; auto.
    + eexists. split; [by f_equal|]. by intros _.
    + apply NoDup_singleton.
    + cbn. lia.
    + intros p Hp%list_elem_of_singleton. subst. rewrite lookup_insert_eq. split; [by eexists|done].
    + intros p Hp. rewrite lookup_insert_ne; [done|]. intros <-. apply Hp. by left.
  - unfold hand. cbn [pc app]. rewrite Sq. constructor.
Qed.

(** C27: with numbered files the logger never touches a file that was there, and when
    its log is closed each of its files holds exactly the events that were
    assigned to it, in order and numbered from 0, unless a write to that file has
    failed; the files have different names, and every other file of the disk is
    as it was. *)
Theorem logger_files (args : Args) (d : disk) (x : sys) : numbering args -> reachable args d (label_ok args) x ->
  NoDup (opened (hist (lg x))) /\
  (forall name, name ∈ opened (hist (lg x)) -> files d !! name = None) /\
  (forall path, path ∉ opened (hist (lg x)) -> files (final_disk (lg x)) !! path = files d !! path) /\
  (forall g name, opened (hist (lg x)) !! g = Some name -> all_ok g (lg x) ->
     files (final_disk (lg x)) !! name = Some (encode_log 0 (events_of g (lg x)))).
Proof.
  intros M R. assert (ginv d x) as [I _] by (induction R; [by eapply ginv_init|by eapply ginv_step]).
  pose proof I as [(l&L&_) N D C E O G]. split; [done|]. split; [intros name Hn; apply (E name Hn)|]. split.
  - intros path Hp. rewrite <- (O path Hp). unfold final_disk, close_log. cbn [set_files ldisk]. rewrite L, close_w.
    apply lookup_insert_ne. intros <-. apply Hp. apply last_Some in N as [o ->]. apply elem_of_app. right. by left.
  - intros g name. by apply (final_files d).
Qed.

Lemma bytes_check l : forallb (fun z => (0 <=? z) && (z <? 256)) l = true -> bytes_ok l.
Proof. induction l as [|z l IH]; intros H; [constructor|]. cbn in H. bool_prop. constructor; [unfold in_u; lia|by apply IH]. Qed.

(** The example's messages fit into a log. *)
Lemma example_labels_ok : Forall (label_ok example_args) example_labels.
Proof.
  assert (forall n bs, (0 < length n < 1000)%nat -> bytes_ok n -> bytes_ok bs -> Z.of_nat (length bs) < 2 ^ 31 - 1 -> forall u,
    label_ok example_args (Receive [] (mkRbuf u bs) n)) as R.
  { intros. unfold label_ok. change (channel_renames example_args) with (∅ : gmap cstr cstr). rewrite lookup_empty.
    cbn [default rdata concat]. split_and!; auto; try lia; constructor. }
  repeat (apply Forall_cons; split); try done; apply R; try (by vm_compute); try (split; apply Nat.ltb_lt; by vm_compute);
    apply bytes_check; by vm_compute.
Qed.

Lemma logger_files_witness : exists x, example_end = Some x /\ files (final_disk (lg x)) !! str "log.0001" =
  Some (encode_log 0 (events_of 1 (lg x))).
Proof.
  destruct (example_reachable (label_ok example_args) example_labels_ok) as (x&E&R). exists x. split; [exact E|].
  destruct (logger_files example_args example_empty x) as (_&_&_&H); [split; [done|cbn; lia]|exact R|].
  destruct example_run as (x'&E'&Hw&Ho&_). assert (x' = x) as -> by congruence. clear E E' R. apply H; [by rewrite Ho|].
  apply Forall_forall. intros w [_ Hin]%list_elem_of_filter. apply (list_elem_of_fmap_2 (fun w => (w.1.1, le_timestamp w.1.2, w.2))) in Hin.
  rewrite Hw in Hin. repeat (apply elem_of_cons in Hin as [Hin|Hin]; [by injection Hin|]). by destruct (not_elem_of_nil _ Hin).
Defined.

(** ** Names *)

(** The value of a decimal number. *)
Definition value (s : cstr) : Z := (read_digits 10 s 0 0).1.1.

Lemma value_zeros k s : forall acc j, acc = 0 -> (read_digits 10 (replicate k (ch "0") ++ s) acc j).1.1 = (read_digits 10 s 0 (k + j)).1.1.
Proof.
  induction k as [|k IH]; intros acc j ->; [done|]. cbn [replicate app read_digits]. change (digit_val (ch "0") <? 10) with true. cbv iota.
  rewrite IH by done. by replace (k + S j)%nat with (S k + j)%nat by lia.
Qed.

Lemma show_dec_nat n : 0 <= n -> show_dec n = digits 10 20 n.
Proof. intros. unfold show_dec. by rewrite (proj2 (Z.ltb_ge n 0)). Qed.

Lemma value_digits k n j : 0 <= n < 10 ^ 20 -> (read_digits 10 (replicate k (ch "0") ++ digits 10 20 n) 0 j).1.1 = n.
Proof. intros H. rewrite value_zeros by done. destruct (digits_read 20 n (k + j) H ltac:(lia)) as [m ->]. done. Qed.

Lemma show_dec_inj a b : -1 <= a < 10 ^ 20 -> -1 <= b < 10 ^ 20 -> show_dec a = show_dec b -> a = b.
Proof.
  assert (forall n, 0 <= n < 10 ^ 20 -> show_dec (-1) = show_dec n -> False) as N.
  { intros n Hn E. rewrite (show_dec_nat n) in E by lia. pose proof (digits_all 20 n ltac:(lia)) as F. rewrite <- E in F.
    by apply Forall_cons in F as [? _]. }
  intros Ha Hb E. destruct (decide (a = -1)) as [->|], (decide (b = -1)) as [->|]; [done|exfalso; eapply N; [|exact E]; lia|exfalso; symmetry in E; eapply N; [|exact E]; lia|].
  rewrite !show_dec_nat in E by lia. rewrite <- (value_digits 0 a 0), <- (value_digits 0 b 0) by lia. cbn [replicate app]. by rewrite E.
Qed.

Lemma numbered_name_inj prefix a b : -1 <= a < 10 ^ 20 -> -1 <= b < 10 ^ 20 -> numbered_name prefix a = numbered_name prefix b -> a = b.
Proof. intros Ha Hb E. unfold numbered_name in E. apply app_inv_head in E. apply (inj (cons _)) in E. by apply show_dec_inj. Qed.

Local Opaque PATH_MAX.

(** A name that fits into the buffer is not cut off. *)
Lemma length_digits fuel : forall n, (length (digits 10 fuel n) <= fuel)%nat.
Proof. induction fuel as [|fuel IH]; intros n; [done|]. cbn [digits]. rewrite length_app. cbn. destruct (n <? 10); [cbn; lia|]. specialize (IH (n / 10)). lia. Qed.

Lemma increment_name_inj prefix a b : (length prefix + 25 <= PATH_MAX)%nat -> 0 <= a < 10 ^ 20 -> 0 <= b < 10 ^ 20 ->
  increment_name prefix a = increment_name prefix b -> a = b.
Proof.
  intros L Ha Hb E. unfold increment_name in E. rewrite !show_dec_nat in E by lia.
  assert (forall n, (length (prefix ++ ch "." :: replicate (4 - length (digits 10 20 n)) (ch "0") ++ digits 10 20 n) <= PATH_MAX - 1)%nat) as B.
  { intros n. rewrite length_app. cbn [length]. rewrite length_app, length_replicate. pose proof (length_digits 20 n). lia. }
  rewrite !take_ge in E by apply B. apply app_inv_head in E. apply (inj (cons _)) in E.
  rewrite <- (value_digits (4 - length (digits 10 20 a)) a 0), <- (value_digits (4 - length (digits 10 20 b)) b 0) by lia. by rewrite E.
Qed.

(** ** The search for a name *)

Local Opaque increment_name.

Lemma increment_loop_all fuel d prefix : forall n, increment_loop fuel d prefix n = None ->
  forall i, (i < fuel)%nat -> is_Some (files d !! increment_name prefix (n + Z.of_nat i)).
Proof.
  induction fuel as [|fuel IH]; intros n H i Hi; [lia|]. cbn [increment_loop] in H. unfold exists_file in H.
  revert H. generalize (eq_refl (files d !! increment_name prefix n)). generalize (files d !! increment_name prefix n) at 2 3 as o.
  intros [c|] E H; [|discriminate H]. destruct i as [|i].
  - rewrite Z.add_0_r, E. by eexists.
  - replace (n + Z.of_nat (S i)) with (n + 1 + Z.of_nat i) by lia. apply IH; [exact H|lia].
Qed.

(** Among more names than there are files one is free. *)
Lemma increment_loop_ends d prefix n : (length prefix + 25 <= PATH_MAX)%nat -> 0 <= n -> n + Z.of_nat (size (files d)) < 10 ^ 20 ->
  exists name next, increment_loop (S (size (files d))) d prefix n = Some (name, next).
Proof.
  intros L H0 Hn. destruct (increment_loop (S (size (files d))) d prefix n) as [[name next]|] eqn:E; [by eexists _, _|exfalso].
  pose proof (increment_loop_all _ _ _ _ E) as A. set (f := fun i : nat => increment_name prefix (n + Z.of_nat i)).
  set (X := f <$> seq 0 (S (size (files d)))).
  assert (NoDup X) as ND.
  { apply NoDup_fmap_2_strong; [|apply NoDup_seq]. intros i j Hi Hj Hf. apply elem_of_seq in Hi, Hj.
    apply increment_name_inj in Hf; lia. }
  assert (list_to_set X ⊆ dom (files d)) as S.
  { intros p Hp. apply elem_of_list_to_set, list_elem_of_fmap in Hp as (i&->&Hi). apply elem_of_seq in Hi. apply elem_of_dom, A. lia. }
  apply subseteq_size in S. rewrite size_list_to_set, size_dom in S by done. unfold X in S. rewrite length_fmap, length_seq in S. lia.
Qed.

(** Opening a numbered file ends, and succeeds when the file can be written. *)
Theorem logger_open_terminates (args : Args) (formatted : cstr) (s : Logger) : numbering args ->
  (forall path, writable (ldisk s) path = true) ->
  (length (if use_strftime args then formatted else input_fname args) + 25 <= PATH_MAX)%nat ->
  0 <= next_increment_num s -> next_increment_num s + Z.of_nat (size (files (ldisk s))) < 10 ^ 20 ->
  exists s', openLogfile args formatted s = Some (true, s').
Proof.
  intros [A R] W L H0 Hn. unfold openLogfile. rewrite A, (proj2 (Z.ltb_ge 0 (rotate args))) by done.
  set (prefix := if use_strftime args then formatted else input_fname args) in *.
  set (next := if _ && negb _ then 0 else next_increment_num s).
  assert (0 <= next <= next_increment_num s) as Hnext by (subst next; destruct (_ && _ && _); lia). clearbody next.
  destruct (increment_loop_ends (ldisk s) prefix next L) as (name&n'&E); [lia|lia|].
  rewrite E, open_w, W. by eexists.
Qed.

(** ** Rotation *)

Definition all_writable (d : disk) : Prop := forall path, writable d path = true.

(** What one turn of the loop does. *)
Lemma rename_step d old new : all_writable d -> old <> new -> files d !! new = None ->
  let d' := if exists_file d old then snd (rename_file d old new) else d in
  all_writable d' /\ files d' !! new = files d !! old /\ files d' !! old = None /\
  forall p, p <> old -> p <> new -> files d' !! p = files d !! p.
Proof.
  intros W N F. unfold exists_file, rename_file. destruct (files d !! old) as [c|] eqn:E; cbv zeta iota.
  - rewrite !W. cbn [andb snd files]. split; [exact W|]. split; [by rewrite lookup_insert_eq|].
    split; [by rewrite lookup_insert_ne, lookup_delete_eq|]. intros p Ho Hn. by rewrite lookup_insert_ne, lookup_delete_ne.
  - split; [exact W|]. split; [by rewrite F|]. by split.
Qed.

Lemma rotate_loop_spec prefix n : forall d, Z.of_nat n < 10 ^ 20 -> all_writable d ->
  files d !! numbered_name prefix (Z.of_nat n - 1) = None ->
  let d' := rotate_loop n prefix d in
  (forall i, 0 <= i < Z.of_nat n -> files d' !! numbered_name prefix i = files d !! numbered_name prefix (i - 1)) /\
  files d' !! numbered_name prefix (-1) = None /\
  (forall p, (forall i, -1 <= i < Z.of_nat n -> p <> numbered_name prefix i) -> files d' !! p = files d !! p).
Proof.
  induction n as [|m IH]; intros d Hn W F.
  { cbn. split; [lia|]. split; [exact F|done]. }
  assert (forall a b, -1 <= a < 10 ^ 20 -> -1 <= b < 10 ^ 20 -> a <> b -> numbered_name prefix a <> numbered_name prefix b) as NE.
  { intros a b Ha Hb Hne E. apply Hne. by eapply numbered_name_inj. }
  cbn [rotate_loop]. replace (Z.of_nat (S m) - 1) with (Z.of_nat m) in F by lia.
  destruct (rename_step d (numbered_name prefix (Z.of_nat m - 1)) (numbered_name prefix (Z.of_nat m)) W) as (W1&F1&G1&O1);
    [apply NE; lia|exact F|]. cbv zeta in *. revert W1 F1 G1 O1. generalize (if exists_file d (numbered_name prefix (Z.of_nat m - 1))
      then snd (rename_file d (numbered_name prefix (Z.of_nat m - 1)) (numbered_name prefix (Z.of_nat m))) else d) as d1.
  intros d1 W1 F1 G1 O1. destruct (IH d1 ltac:(lia) W1 G1) as (I1&I2&I3). split; [|split].
  - intros i Hi. destruct (decide (i = Z.of_nat m)) as [->|Hne].
    + rewrite I3, F1; [done|]. intros j Hj. apply NE; lia.
    + rewrite I1 by lia. apply O1; apply NE; lia.
  - exact I2.
  - intros p Hp. rewrite I3 by (intros i Hi; apply Hp; lia). apply O1; apply Hp; lia.
Qed.

(** The rotation moves every log one place on: behind it [FILE.i] is what
    [FILE.i-1] was, the last file is gone, and no other file is touched; when
    there was no [FILE.-1], the place of [FILE.0] is free. *)
Theorem logger_rotation (n : Z) (prefix : cstr) (d : disk) : 0 < n < 2 ^ 31 -> all_writable d ->
  let d' := rotate_logfiles n prefix d in
  (forall i, 0 <= i < n -> files d' !! numbered_name prefix i = files d !! numbered_name prefix (i - 1)) /\
  files d' !! numbered_name prefix (-1) = None /\
  (forall p, (forall i, -1 <= i < n -> p <> numbered_name prefix i) -> files d' !! p = files d !! p).
Proof.
  intros Hn W. cbv zeta. unfold rotate_logfiles.
  set (d1 := if exists_file d _ then _ else d).
  assert (all_writable d1 /\ files d1 !! numbered_name prefix (n - 1) = None /\
    forall p, p <> numbered_name prefix (n - 1) -> files d1 !! p = files d !! p) as (W1&F1&O1).
  { unfold d1, exists_file, remove_file. destruct (files d !! _) eqn:E; [|by split_and!]. rewrite W. cbn [snd files].
    split; [exact W|]. split; [by rewrite lookup_delete_eq|]. intros p Hp. by rewrite lookup_delete_ne. }
  clearbody d1. destruct (rotate_loop_spec prefix (Z.to_nat n) d1) as (I1&I2&I3);
    [lia|done|by rewrite Z2Nat.id by lia|]. rewrite Z2Nat.id in * by lia. split; [|split].
  - intros i Hi. rewrite I1 by done. apply O1. intros E. apply numbered_name_inj in E; lia.
  - exact I2.
  - intros p Hp. rewrite I3 by done. apply O1, Hp. lia.
Qed.

Lemma logger_rotation_witness :
  let d := mkDisk (<[numbered_name (str "f") 0 := [1]]> (<[numbered_name (str "f") 1 := [2]]> ∅)) (fun _ => true) 0 in
  files (rotate_logfiles 2 (str "f") d) !! numbered_name (str "f") 1 = Some [1].
Proof.
  intros d. destruct (logger_rotation 2 (str "f") d) as (H&_&_); [lia|done|]. rewrite (H 1) by lia.
  unfold d. cbn [files]. apply lookup_insert_eq.
Defined.

(** ** Where the logger does not keep its promises *)

Local Transparent ready_frame error_frame complete_frame parseCycleRequestFrame CONTROL_REQUEST_CHANNEL BARRIER_MARKER_CHANNEL str.

(** Without plugins no message is ever dropped, whatever memory is allowed. *)
Theorem logger_memory_unbounded (args : Args) (s : Logger) (rbuf : ReceiveBuffer) (channel : cstr) :
  channel <> CONTROL_REQUEST_CHANNEL -> exists le s', handler args [] s rbuf channel = Some (s', None) /\ q s' = q s ++ [le].
Proof.
  intros N. unfold handler. rewrite bool_decide_eq_false_2 by done. rewrite bool_decide_eq_true_2 by done.
  cbn [orb concat clone_all rev app enqueue_loop negb]. eexists _, _. split; reflexivity.
Qed.

Definition plain_args (force : bool) : Args := mkArgs zero force false false (-1) 0 0 false ∅ (str "log").

(** The state behind some steps, and one step more. *)
Definition try_run (args : Args) (d : disk) (labels : list label) (a : label) : option outcome :=
  match init args [] true d with
  | Some (inr x) => match run args x labels with Some y => Some (step args y a) | None => None end
  | _ => None
  end.

Definition cycle_request (session seq : Z) : label :=
  Receive [] (mkRbuf 11 (request_frame (mkRequest session seq 0 0))) CONTROL_REQUEST_CHANNEL.

(** A message on the control channel ends a logger that was started with a plain file name and no control socket. *)
Lemma logger_cycle_exits :
  try_run (plain_args false) example_empty [cycle_request 0 1; Pop] (Work [] false true) = Some (Exited []).
Proof. vm_compute. reflexivity. Qed.

(** With --force it erases the log. *)
Lemma logger_cycle_erases : exists x,
  try_run (plain_args true) example_empty [Receive [] (mkRbuf 10 [1; 2; 3]) (str "A"); Pop; Work [] false true; cycle_request 0 1; Pop]
    (Work [] false true) = Some (Next x) /\ length (written (hist (lg x))) = 2%nat /\ files (final_disk (lg x)) !! str "log" = Some [].
Proof. eexists. split; [vm_compute; reflexivity|]. split; vm_compute; reflexivity. Qed.

(** A barrier that cannot be written leaves the cycle pending for ever: the queue is
    empty, and the next request is refused as long as the logger runs. *)
Lemma logger_cycle_stuck : exists x,
  try_run example_args (mkDisk ∅ (fun _ => true) 40) [cycle_request 7 1; Pop; Work [] false true] (cycle_request 7 2) = Some (Next x) /\
  q (lg x) = [] /\ pc x = MIdle /\ pending_cycle_valid (lg x) = true /\
  replies x = [error_frame 7 2 ERR_BUSY_WITH_OTHER_CYCLE (str "logger busy with another cycle")].
Proof. eexists. split; [vm_compute; reflexivity|]. repeat split; vm_compute; reflexivity. Qed.

(** A file with the number -1 takes the place of the newest log. *)
Lemma rotation_minus_one :
  files (rotate_logfiles 2 (str "f") (mkDisk {[str "f.-1" := [7]]} (fun _ => true) 0)) !! str "f.0" = Some [7].
Proof. vm_compute. reflexivity. Qed.

(** A log that cannot be opened is deleted twice. *)
Lemma logger_open_failure args f s : auto_increment args = false -> rotate args <= 0 -> force_overwrite args = true ->
  (forall path, writable (ldisk s) path = false) -> openLogfile args f s = None.
Proof.
  intros A R F W. unfold openLogfile. rewrite A, F, (proj2 (Z.ltb_ge 0 (rotate args))) by done. cbn [negb andb]. by rewrite open_w, W.
Qed.
